(* ===== verification/_CoqProject ===== *)
-Q . S2P
Prelude.v
Conc.v
Embed.v
LightweightBarrier.v
Operation.v
Cancelable.v
Semaphore.v
OperationQueue.v
QueuePart.v
ManualThread.v
MainQueue.v
QueueManager.v
QueueLifetime.v
PoolLifetime.v
WorkerLifetime.v
QtThread.v
Decl.v
ThreadUtils.v
ThreadPool.v
PoolHost.v
PoolQueues.v
NestedApply.v
Consumable.v
Group.v
Signals.v
Connections.v
WaitableQueue.v
WaitInside.v
Exceptions.v
Timer.v
After.v
SocketNotifier.v
LibDispatch.v
Facades.v
Backend.v
Overloads.v
Diagnostics.v
