(* ===== verification/Prelude.v ===== *)
(** * xdispatch2: a verification library

    xdispatch2 is a C++ library for tasks on queues in the manner of libdispatch.
    A program makes operations (include/xdispatch/operation.h), hands them to
    queues, groups, timers and notifiers of sockets, or is told by signals; a
    backend executes them: naive on threads of its own, libdispatch on that
    library, qt5 on the event loops and thread pools of Qt with one of the other
    two as its base.  This development models that program file by file and
    proves what makes its parts correct.

    ** How to read it

    Code that threads share is a program of atomic actions ([prog], Conc.v) over a
    state that holds what the C++ objects hold; the schedule is a list of (thread,
    oracle) pairs, where the oracle decides what the program does not: spurious
    wake-ups, timeouts, failing exchanges, which element a lock-free queue gives.
    [reach] is every configuration any schedule leads to, so that a theorem over
    [reach] is about all interleavings of all numbers of threads.  Proofs about
    them use the rely/guarantee logic of Conc.v: a [protocol] is an invariant, what
    each thread relies on, and when a thread may sleep; [triple] is its judgement,
    [rg_sound] takes triples of all threads to what holds in all reachable
    configurations, and that a thread that cannot move is one that may sleep.  An
    object inside another is reached through a [lens], and what it promises to its
    host is a type class ([host] of the barrier, [chost] of the cancelable).

    Code one thread runs is a function, with [fault + A] where it may end the
    process ([Terminated]: a failed XDISPATCH_ASSERT, std::terminate) or be
    undefined ([Undefined]: a null or dangling pointer, another class than
    assumed).  Integers are Z, wrapped where the code's type is narrower than what
    is computed ([wrap_u64], [wrap_s32] below).  Names are those of the source;
    fields the code does not have record what happened (logs) or who is where,
    and nothing the code does depends on them.

    ** The parts, and the files that model them

    - Conc: threads, schedules, lenses and the logic; Embed: the programs of a component
      and what was proved of them inside a larger process; no code of the program.
    - LightweightBarrier (src/lightweight_barrier.cpp): the barrier every wait is
      built on; Semaphore (src/naive/naive_semaphore.cpp): the counter workers sleep
      on; Cancelable (src/cancelable.cpp): the guard around a handler.
    - Operation (include/xdispatch/operation.h, src/operation.cpp,
      src/barrier_operation.cpp): what is executed.
    - OperationQueue (src/naive/naive_operation_queue.cpp): a serial queue on a pool;
      QueueManager (naive_operation_queue_manager.cpp): who owns it; QueueLifetime:
      serial_queue_impl, its operation_queue and the manager together, from the
      references threads and operations have to the destruction; QueuePart: what a
      queue tells the pool it is on; ManualThread (naive_manual_thread.cpp,
      naive_thread.cpp): the pool with one thread; MainQueue (naive_serial_queue.cpp):
      any number of queues on it, as on the main thread; ThreadPool
      (naive_threadpool.cpp): the pool with many; PoolHost: its worker inside of a larger
      process; PoolQueues: any number of queues on that pool; NestedApply
      (naive_parallel_queue.cpp, naive_consumable.cpp): operations on it that wait for
      others on it; WorkerLifetime: who owns a worker of the pool and joins its
      thread; PoolLifetime (naive_parallel_queue.cpp, src/qt5/qt5_threadpool.cpp): the
      parallel queues on a pool, the manager, and a pool that waits for its operations
      when it is destroyed, as that of Qt; QtThread (src/qt5/qt5_serial_queue.cpp): a
      thread of Qt as a pool.
    - Consumable (naive_consumable.cpp, naive_operations.cpp and apply() of the two
      queues) and Group (naive_group.cpp): waiting for many operations.
    - WaitableQueue (src/waitable_queue.cpp): a queue that can be waited for;
      WaitInside: the same, waited for by an operation it is executing.
    - Exceptions: operations that throw, on the serial queue of the single thread and
      on a waitable queue.
    - Timer (naive_timer.cpp, delayed_operation) and SocketNotifier
      (naive_socket_notifier.cpp): threads borrowed from the pool; After: the
      shared_ptr between the timer of after(), its handler and that thread.
    - Signals (src/signals.cpp, include/xdispatch/signals.h) and Connections
      (connections, their managers, src/qt5/qt5_signals.cpp, signals_barrier.h).
    - LibDispatch (src/libdispatch): the calls made on libdispatch, and the
      functions it calls back.
    - Backend (src/backend.cpp, the three backend classes, queue.cpp, group.cpp,
      timer.cpp, socket_notifier.cpp): which implementation stands behind what, for
      every way the library can be built; Facades (timer.cpp,
      socket_notifier.cpp): what the facades promise over any implementation, the
      class [source] with the four implementations as instances; Overloads (queue.h,
      group.h, timer.h, socket_notifier.h): the templates that take functions.
    - ThreadUtils (src/thread_utils.cpp, trace_utils.cpp): numbers of threads,
      priorities, the environment; Diagnostics (trace_utils.h, symbol_utils.h,
      thread_utils.cpp): the trace stream, functions by name, names of threads; Decl (dispatch_decl.h, ibackend.h): enumerations.

    An operation queue is handed to a pool as an operation, the pool executes it as
    any other; the queue's file takes the pool as threads that execute what they
    were given, and ThreadPool and ManualThread prove that pools do; MainQueue and
    PoolQueues put queues and a pool together as one program, by embedding the programs
    and the triples of both (Embed); NestedApply does so with consumables.  The worker of
    the pool is in PoolHost for any process that says how an operation is taken and what
    executing it means.  PoolQueues gives the mutex of a queue back before
    the call of execute() and not after it: the pool does not touch the queue, so
    that every run of the code is one of the model's.  QueueLifetime writes the
    programs of the queue once more, with the shared_ptr they hold: an operation carries
    its reference from the list into drain(), which gives it up outside of the mutex,
    and the last one runs the destructors on that thread.  In the same way Consumable
    takes its queue as workers in any order, Timer and SocketNotifier take the pool and
    the queue as steps that happen at some time, and Signals takes cancelables by the
    state of their atomic.

    ** What is shown

    - Synchronisation: in all interleavings the barrier, the semaphore and the
      cancelable use no dead object, answer rightly, lose no wake-up and keep their
      counts; disable() waits for a handler that runs.
    - Queues and pools: the serial queue, the waitable queue and the single thread
      refine a first in, first out server: every operation once, in order, one at a
      time, and its owner is asked to let go of it after those queued before, when no
      notification that holds its address is left; the pool takes every operation
      once; none of them loses one: when no thread can move, everything has been
      executed, and so it is for any number of queues on either pool.  A drain gives its
      thread back after ten operations, so that of the queues that share a thread no
      one starts more than ten while another waits; wait_for_all returns only when
      nothing is left.
    - Lifetime: whoever drops the last reference to a queue, an operation on it or the
      worker in its drain included, nothing touches the queue after its destruction,
      which happens once, after all it was given has been executed, and does happen.
      The same holds of the pool of parallel queues, but that an operation which gives
      up the last reference may wait for its own end.  A worker of the pool outlives its
      thread, and who destroys it waits for no more than the end of that thread.
    - Waiting: apply() runs every index once and returns; operations on the pool may call
      it themselves, to any depth, and all calls return, because block_scope lets the
      pool start a worker for each that waits; wait() of a group covers the consumable
      it found and all before it.
    - Signals: every emit reaches every handler exactly once or is accounted for;
      disconnecting is final; emitting ends; reset_connections_with is a filter.
    - Timers and notifiers: after() executes exactly once and leaves nothing behind on
      a naive queue; a cancelled timer or notifier is silent for good, over all
      implementations; one handler at a time, one thread that counts.
    - libdispatch: wraps are owned and executed exactly once; times are exact in
      their range; what references are left.
    - Backends: every queue a program can get serves a timer, a notifier and after();
      global queues are unique; group_mixing says what happens when backends mix.
    - Diagnostics: lines of trace are not mixed, whatever threads write them.
    - Round trips: operations do what they were made from; a number of threads in
      the environment is the one used.

    Where the code does not keep what it means to, a theorem shows how: lost
    completions of the barrier when an exchange fails spuriously, assertions of the
    pool that a race or its destructor meets, a cancel() of the single thread that
    is lost, a group's wait() that misses an operation, disconnecting after the
    signal is gone, emits lost on a parallel queue, a timer resumed in its sleep, a
    notifier on a closed socket, the references, wraps and resumes of libdispatch
    objects, a waitable queue around a queue of libdispatch, a queue of the
    single thread or a waitable queue after an operation that throws, an operation
    that waits for the waitable queue it runs on, the timer of after() of a waitable
    queue, which nothing destroys, a pool of Qt destroyed by one of its threads, the
    reference to a shared pool that is given up for all its queues at once, a worker
    that ends before it is attached, threads that keep the name of a queue.

    ** Bounds and fuel

    Schedules and numbers of threads, operations and calls are unbounded.  The pool
    has a fixed but arbitrary number of slots for the threads it may spawn.  The
    only fuel is where C++ recursion is not structural: [emit_fuel] of Signals, two
    more than the signals there are, enough by emit_terminates; and the
    loop of wait_for_all, one round per completed operation, enough by
    wait_for_all_decides.  Waiting for the semaphore spins as often as the code.  After
    computes its states in rounds; that no step leads out of them is checked.

    ** Not modelled

    - Memory order: atomics are sequentially consistent.
    - Time: a timeout or a sleep may end at any step; only its arithmetic is kept.
    - Operations that throw, but for Exceptions and what libdispatch calls back
      (LibDispatch): on a thread of the pool an exception ends the process.
    - naive_concurrentqueue.h and its third-party queue: any bag will do.
    - What Qt, libdispatch, select() and the loader do: parameters, or calls that
      are recorded; of libdispatch it is assumed that it calls every submitted
      function at most once, apply's before it returns, and a cancelled source's
      never (Facades).
    - cpu_relax, which has no effect, the Windows branch of the notifier, tests and build
      files.  Where the code of a component traces or names its thread its model leaves
      that out; what it does is in Diagnostics. *)
From stdpp Require Export base tactics list functions numbers.
From Stdlib Require Export ZArith Lia.

#[global] Arguments Z.eqb : simpl never.
#[global] Arguments Z.ltb : simpl never.
#[global] Arguments Z.leb : simpl never.

(** ** Machine integers

    [int] is 32 bit, [size_t] and [std::uint64_t] are 64 bit on the platforms
    xdispatch2 is built for.  Unsigned arithmetic wraps; a conversion to a
    signed type wraps in two's complement. *)
Definition wrap_u64 (z : Z) : Z := Z.modulo z (2 ^ 64).
Definition wrap_signed (w : Z) (z : Z) : Z :=
  Z.modulo (z + 2 ^ (w - 1)) (2 ^ w) - 2 ^ (w - 1).
Definition wrap_s64 (z : Z) : Z := wrap_signed 64 z.
Definition wrap_s32 (z : Z) : Z := wrap_signed 32 z.

Lemma wrap_u64_id z : (0 <= z < 2 ^ 64)%Z -> wrap_u64 z = z.
Proof. apply Z.mod_small. Qed.

Lemma wrap_u64_range z : (0 <= wrap_u64 z < 2 ^ 64)%Z.
Proof. apply Z.mod_pos_bound. lia. Qed.

Lemma wrap_s32_id z : (- 2 ^ 31 <= z < 2 ^ 31)%Z -> wrap_s32 z = z.
Proof. unfold wrap_s32, wrap_signed. intros. rewrite Z.mod_small; lia. Qed.

Lemma wrap_s32_range z : (- 2 ^ 31 <= wrap_s32 z < 2 ^ 31)%Z.
Proof.
  unfold wrap_s32, wrap_signed.
  pose proof (Z.mod_pos_bound (z + 2 ^ (32 - 1)) (2 ^ 32)). lia.
Qed.

Lemma wrap_s64_id z : (- 2 ^ 63 <= z < 2 ^ 63)%Z -> wrap_s64 z = z.
Proof. unfold wrap_s64, wrap_signed. intros. rewrite Z.mod_small; lia. Qed.

(** ** Thread indexed state

    A field every thread has its own copy of is a function of the thread
    number; [<[t := x]> f] updates it.  The tactic [fn] resolves lookups. *)
Create Rewrite HintDb s2p.

Lemma fn_same {A} (f : nat -> A) t x : <[t := x]> f t = x.
Proof. apply fn_lookup_insert. Qed.

Lemma fn_other {A} (f : nat -> A) t u x : t <> u -> <[t := x]> f u = f u.
Proof. apply fn_lookup_insert_ne. Qed.

#[export] Hint Rewrite @fn_same : s2p.
#[export] Hint Rewrite @fn_other using (congruence || lia) : s2p.

Ltac fn := autorewrite with s2p in *.

(** Case analysis on whether an updated index is the one looked up. *)
Ltac fn_cases :=
  repeat match goal with
  | H : context [<[?w := _]> _ ?w] |- _ => rewrite fn_same in H
  | |- context [<[?w := _]> _ ?w] => rewrite fn_same
  | N : ?w <> ?v, H : context [<[?w := _]> _ ?v] |- _ => rewrite (fn_other _ w v _ N) in H
  | N : ?w <> ?v |- context [<[?w := _]> _ ?v] => rewrite (fn_other _ w v _ N)
  | N : ?v <> ?w, H : context [<[?w := _]> _ ?v] |- _ =>
      rewrite (fn_other _ w v _ (not_eq_sym N)) in H
  | N : ?v <> ?w |- context [<[?w := _]> _ ?v] => rewrite (fn_other _ w v _ (not_eq_sym N))
  | H : context [<[?w := _]> _ ?v] |- _ =>
      destruct (decide (w = v)) as [<-|]; [rewrite fn_same in H | rewrite fn_other in H by done]
  | |- context [<[?w := _]> _ ?v] =>
      destruct (decide (w = v)) as [<-|]; [rewrite fn_same | rewrite fn_other by done]
  end.

(** Case analysis on every condition in the goal or in a hypothesis. *)
Ltac cases_in H :=
  repeat match type of H with
  | context [ match ?x with _ => _ end ] => destruct x eqn:?
  end.
Ltac cases :=
  repeat match goal with
  | |- context [ match ?x with _ => _ end ] => destruct x eqn:?
  end.

(** [f t = Some ..] after an atomic action: split it into its branches. *)
Ltac branches H := cases_in H; simplify_eq/=.

(** ** Sums over the threads [0 .. n - 1] *)
Fixpoint total (n : nat) (f : nat -> Z) : Z :=
  match n with
  | O => 0
  | S m => total m f + f m
  end.

Lemma total_ext (n : nat) (f g : nat -> Z) : (forall t, (t < n)%nat -> f t = g t) -> total n f = total n g.
Proof. induction n as [|n IH]; intros H; [done|]. simpl. rewrite IH, H; auto. Qed.

Lemma total_le (n : nat) (f g : nat -> Z) : (forall t, (t < n)%nat -> f t <= g t)%Z -> (total n f <= total n g)%Z.
Proof.
  induction n as [|n IH]; intros H; simpl; [done|].
  specialize (IH ltac:(auto)). specialize (H n ltac:(lia)). lia.
Qed.

Lemma total_zero (n : nat) (f : nat -> Z) : (forall t, (t < n)%nat -> f t = 0%Z) -> total n f = 0%Z.
Proof. induction n as [|n IH]; intros H; simpl; [done|]. rewrite IH, H; auto. Qed.

Lemma total_nonneg (n : nat) (f : nat -> Z) : (forall t, (t < n)%nat -> 0 <= f t)%Z -> (0 <= total n f)%Z.
Proof. intros H. rewrite <- (total_zero n (fun _ => 0%Z)) by done. by apply total_le. Qed.

(** Two summands that differ at one index only. *)
Lemma total_change (n : nat) (f g : nat -> Z) (t : nat) :
  (t < n)%nat -> (forall u, u <> t -> g u = f u) -> total n g = (total n f - f t + g t)%Z.
Proof.
  induction n as [|n IH]; intros Ht H; [lia|]. simpl. destruct (decide (t = n)) as [->|Hne].
  - rewrite (total_ext n g f); [lia|]. intros u Hu. apply H. lia.
  - rewrite IH by (done || lia). rewrite (H n); [lia|done].
Qed.

Lemma total_sub (n : nat) (f g : nat -> Z) : total n (fun t => f t - g t)%Z = (total n f - total n g)%Z.
Proof. induction n as [|n IH]; simpl; [done|]. rewrite IH. lia. Qed.

Lemma total_pos (n : nat) (f : nat -> Z) (t : nat) :
  (t < n)%nat -> (forall u, (u < n)%nat -> 0 <= f u)%Z -> (f t <= total n f)%Z.
Proof.
  intros Ht H. rewrite (total_change n (fun u => if decide (u = t) then 0%Z else f u) f t Ht).
  - rewrite decide_True by done. pose proof (total_nonneg n (fun u => if decide (u = t) then 0%Z else f u)).
    enough (0 <= total n (fun u => if decide (u = t) then 0%Z else f u))%Z by lia.
    apply total_nonneg. intros u Hu. case_decide; [lia|by apply H].
  - intros u Hu. by rewrite decide_False.
Qed.

(** A positive sum has a positive summand. *)
Lemma total_positive (n : nat) (f : nat -> Z) :
  (0 < total n f)%Z -> exists t, (t < n)%nat /\ (0 < f t)%Z.
Proof.
  induction n as [|n IH]; simpl; [lia|]. intros H.
  destruct (Z_lt_le_dec 0 (f n)); [exists n; split; [lia|done]|].
  destruct IH as (t & Ht & Hf); [lia|]. exists t. split; [lia|done].
Qed.
