(* ===== verification/Conc.v ===== *)
(** * Conc: threads, atomic actions and a rely/guarantee logic *)
From S2P Require Import Prelude.

(** What ends the process: [Terminated] is std::terminate, which a failed
    XDISPATCH_ASSERT calls; [Undefined] is undefined behaviour, such as a call
    through a null pointer. *)
Inductive fault := Terminated | Undefined.

(** A C++ function over a shared state of type [Σ]: an [Act] is one atomic
    access, which the scheduler gives an oracle (a timeout, a spurious failure,
    what a system call returns) and which is blocked when it yields [None];
    [Iter] is a loop whose body says to go on ([inl]) or to leave ([inr]). *)
Inductive prog (Σ : Type) : Type -> Type :=
| Ret {A} (a : A) : prog Σ A
| Act {A} (f : nat -> Σ -> option (Σ * A)) : prog Σ A
| Crash {A} (e : fault) : prog Σ A
| Bind {A B} (p : prog Σ A) (k : A -> prog Σ B) : prog Σ B
| Iter {A B} (body : A -> prog Σ (A + B)) (a : A) : prog Σ B.

Arguments Ret {Σ A}.
Arguments Act {Σ A}.
Arguments Crash {Σ A}.
Arguments Bind {Σ A B}.
Arguments Iter {Σ A B}.

Declare Scope prog_scope.
Delimit Scope prog_scope with prog.
Bind Scope prog_scope with prog.
Notation "'let!' x := p 'in' q" := (Bind p (fun x => q))
  (at level 10, x name, p at level 100, q at level 200,
   format "'let!'  x  :=  p  'in' '//' q") : prog_scope.
Notation "'let!' ' x := p 'in' q" := (Bind p (fun x => q))
  (at level 10, x strict pattern, p at level 100, q at level 200,
   format "'let!'  ' x  :=  p  'in' '//' q") : prog_scope.
Notation "'do!' p 'in' q" := (Bind p (fun _ => q))
  (at level 10, p at level 100, q at level 200,
   format "'do!'  p  'in' '//' q") : prog_scope.
Open Scope prog_scope.

(** ** Atomic actions *)
Definition read {Σ A} (f : Σ -> A) : prog Σ A := Act (fun _ s => Some (s, f s)).
Definition modify {Σ} (f : Σ -> Σ) : prog Σ unit := Act (fun _ s => Some (f s, tt)).
Definition atomic {Σ A} (f : Σ -> Σ * A) : prog Σ A := Act (fun _ s => Some (f s)).
(** Blocked while the guard is false. *)
Definition await {Σ} (b : Σ -> bool) (f : Σ -> Σ) : prog Σ unit :=
  Act (fun _ s => if b s then Some (f s, tt) else None).
(** An atomic action that may fault: [Some None] is the fault [e]. *)
Definition guarded {Σ A} (e : fault) (f : nat -> Σ -> option (option (Σ * A))) : prog Σ A :=
  Bind (Act (fun o s => match f o s with
                        | None => None
                        | Some None => Some (s, None)
                        | Some (Some (s', a)) => Some (s', Some a)
                        end))
       (fun r => match r with Some a => Ret a | None => Crash e end).
(** XDISPATCH_ASSERT on a value already read. *)
Definition xassert {Σ} (b : bool) : prog Σ unit :=
  if b then Ret tt else Crash Terminated.

(** The choices of the environment an oracle stands for. *)
Definition o_timeout : nat := 1.
Definition o_spurious : nat := 2.

(** ** Member objects

    An object of type [B] that is a member of the shared state. *)
Record lens (Σ B : Type) := {
  get : Σ -> B;
  set : B -> Σ -> Σ;
  get_set b s : get (set b s) = b;
  set_get s : set (get s) s = s;
  set_set b b' s : set b' (set b s) = set b' s
}.
Arguments get {Σ B}.
Arguments set {Σ B}.
Arguments get_set {Σ B}.
Arguments set_get {Σ B}.
Arguments set_set {Σ B}.
#[export] Hint Rewrite @get_set @set_get @set_set : s2p.

(** ** Execution of one function *)
Definition result {Σ A} (p : prog Σ A) : option A :=
  match p with Ret a => Some a | _ => None end.

Fixpoint faulted {Σ A} (p : prog Σ A) : option fault :=
  match p with
  | Crash e => Some e
  | Bind p _ => faulted p
  | _ => None
  end.

Fixpoint pstep {Σ A} (p : prog Σ A) (o : nat) (s : Σ) : option (Σ * prog Σ A) :=
  match p with
  | Ret _ => None
  | Crash _ => None
  | Act f => match f o s with Some (s', a) => Some (s', Ret a) | None => None end
  | Bind p k =>
      match result p with
      | Some a => Some (s, k a)
      | None =>
          match pstep p o s with
          | Some (s', p') => Some (s', Bind p' k)
          | None => None
          end
      end
  | Iter body a =>
      Some (s, Bind (body a)
                 (fun r => match r with inl a' => Iter body a' | inr b => Ret b end))
  end.

(** ** A process: a shared state and the threads that run over it *)
Definition cfg (Σ : Type) : Type := Σ * list (prog Σ unit).

(** The label of a step: the thread that moves, and the oracle it is given. *)
Definition cstep {Σ} (l : nat * nat) (c : cfg Σ) : option (cfg Σ) :=
  match c.2 !! l.1 with
  | Some p =>
      match pstep p l.2 c.1 with
      | Some (s', p') => Some (s', <[l.1 := p']> c.2)
      | None => None
      end
  | None => None
  end.

Inductive reach {Σ} (c0 : cfg Σ) : cfg Σ -> Prop :=
| reach_here : reach c0 c0
| reach_step l c c' : reach c0 c -> cstep l c = Some c' -> reach c0 c'.

(** A schedule played from a configuration; a step that is blocked is skipped. *)
Definition play1 {Σ} (c : cfg Σ) (l : nat * nat) : cfg Σ :=
  match cstep l c with Some c' => c' | None => c end.
Definition play {Σ} (ls : list (nat * nat)) (c : cfg Σ) : cfg Σ := foldl play1 c ls.
(** [n] steps of thread [t] with oracle 0. *)
Definition go (t n : nat) : list (nat * nat) := replicate n (t, 0).

Definition thread_fault {Σ} (c : cfg Σ) (t : nat) : option fault :=
  match c.2 !! t with Some p => faulted p | None => None end.
Definition thread_done {Σ} (c : cfg Σ) (t : nat) : bool :=
  match c.2 !! t with
  | Some p => match result p with Some _ => true | None => false end
  | None => false
  end.
(** No step of the thread is enabled, whatever the oracle below [n]. *)
Definition thread_blocked {Σ} (n : nat) (c : cfg Σ) (t : nat) : bool :=
  forallb (fun o => match cstep (t, o) c with Some _ => false | None => true end) (seq 0 n).
Definition no_fault {Σ} (c : cfg Σ) : Prop := forall t, thread_fault c t = None.

Lemma play_app {Σ} (l1 l2 : list (nat * nat)) (c : cfg Σ) :
  play (l1 ++ l2) c = play l2 (play l1 c).
Proof. unfold play. apply foldl_app. Qed.

Lemma play_reach {Σ} (c0 : cfg Σ) ls : forall c, reach c0 c -> reach c0 (play ls c).
Proof.
  induction ls as [|l ls IH]; intros c Hc; [done|]. simpl. apply IH.
  unfold play1. destruct (cstep l c) eqn:E; [|done]. by eapply reach_step.
Qed.

Lemma reach_length {Σ} (c0 c : cfg Σ) : reach c0 c -> length c.2 = length c0.2.
Proof.
  induction 1 as [|l c c' _ IH Hs]; [done|].
  unfold cstep in Hs. destruct (c.2 !! l.1); [|done].
  destruct (pstep _ _ _) as [[]|]; simplify_eq/=. by rewrite length_insert.
Qed.

(** One function run by itself, without timeouts and spurious failures, for at
    most [n] steps: the state it leaves, and what it returns if it does. *)
Fixpoint solo {Σ A} (n : nat) (p : prog Σ A) (s : Σ) : Σ * option A :=
  match n with
  | O => (s, result p)
  | S n => match pstep p 0 s with Some (s', p') => solo n p' s' | None => (s, result p) end
  end.

(** for (auto x : l) f(x); *)
Fixpoint each {Σ A} (f : A -> prog Σ unit) (l : list A) : prog Σ unit :=
  match l with
  | [] => Ret tt
  | x :: l => do! f x in each f l
  end.

(** What can happen without a spurious wake-up or failure, which nobody may
    count on. *)
Definition enabled {A} (f : nat -> option A) : Prop := exists o, o <> o_spurious /\ f o <> None.
Definition can_move {Σ} (c : cfg Σ) (t : nat) : Prop := enabled (fun o => cstep (t, o) c).

Lemma enabled_intro {A} (f : nat -> option A) o : o <> o_spurious -> f o <> None -> enabled f.
Proof. intros. by exists o. Qed.
Lemma enabled_0 {A} (f : nat -> option A) : f 0 <> None -> enabled f.
Proof. by apply enabled_intro. Qed.

(** ** Rely/guarantee *)

(** How the threads of a process share its state: [inv] holds between any two
    steps; [rely t] relates two states when what thread [t] knows of the first
    still holds of the second; [blocked t] says when [t] may have no step. *)
Record protocol (Σ : Type) := Protocol {
  inv : Σ -> Prop;
  rely : nat -> Σ -> Σ -> Prop;
  blocked : nat -> Σ -> Prop;
  rely_pre t : PreOrder (rely t)
}.
Arguments Protocol {Σ}.
Arguments inv {Σ}.
Arguments rely {Σ}.
Arguments blocked {Σ}.
#[export] Existing Instance rely_pre.

Section rg.
Context {Σ : Type} {W : protocol Σ}.

(** What a step of thread [t] owes the others. *)
Definition guar (t : nat) (s s' : Σ) : Prop := forall u, u <> t -> rely W u s s'.

(** [n] more steps of [p], in thread [t], are safe from [s]. *)
Fixpoint safe (n t : nat) {A} (p : prog Σ A) (Q : A -> Σ -> Prop) (s : Σ) : Prop :=
  match n with
  | O => True
  | S n => forall s1, rely W t s s1 -> inv W s1 ->
      faulted p = None /\
      (forall a, result p = Some a -> Q a s1) /\
      (result p = None -> enabled (fun o => pstep p o s1) \/ blocked W t s1) /\
      (forall o s2 p', pstep p o s1 = Some (s2, p') ->
         inv W s2 /\ guar t s1 s2 /\ safe n t p' Q s2)
  end.

Definition triple (t : nat) {A} (P : Σ -> Prop) (p : prog Σ A) (Q : A -> Σ -> Prop) : Prop :=
  forall n s, inv W s -> P s -> safe n t p Q s.

(** An assertion of thread [t] that no step of another thread can break. *)
Definition stable (t : nat) (P : Σ -> Prop) : Prop :=
  forall s s', P s -> inv W s -> inv W s' -> rely W t s s' -> P s'.

Lemma stable_and t P Q : stable t P -> stable t Q -> stable t (fun s => P s /\ Q s).
Proof. intros HP HQ s s' [H1 H2] HI HI' HR. split; [by eapply HP|by eapply HQ]. Qed.

Lemma guar_refl t s : guar t s s.
Proof. intros u _. reflexivity. Qed.

Lemma safe_rely n t A (p : prog Σ A) Q s s' :
  safe n t p Q s -> rely W t s s' -> safe n t p Q s'.
Proof. destruct n; [done|]. intros H HR s1 HR1. apply H. by transitivity s'. Qed.

Lemma safe_mono n m t A (p : prog Σ A) Q s :
  m <= n -> safe n t p Q s -> safe m t p Q s.
Proof.
  revert m p s. induction n as [|n IH]; intros m p s Hm H.
  { replace m with 0 by lia. done. }
  destruct m as [|m]; [done|]. intros s1 HR HI.
  destruct (H s1 HR HI) as (Hf & Hr & Hb & Hs). split_and!; [done..|].
  intros o s2 p' E. destruct (Hs o s2 p' E) as (? & ? & ?).
  split_and!; [done..|]. apply IH; [lia|done].
Qed.

Lemma safe_conseq n t A (p : prog Σ A) (Q Q' : A -> Σ -> Prop) s :
  (forall a s, inv W s -> Q a s -> Q' a s) -> safe n t p Q s -> safe n t p Q' s.
Proof.
  intros HQ. revert p s. induction n as [|n IH]; intros p s H; [done|].
  intros s1 HR HI. destruct (H s1 HR HI) as (Hf & Hr & Hb & Hs).
  split_and!; [done|eauto|done|].
  intros o s2 p' E. destruct (Hs o s2 p' E) as (? & ? & ?). eauto.
Qed.

Lemma safe_bind n t A B (p : prog Σ A) (k : A -> prog Σ B) (Q : A -> Σ -> Prop) Q' s :
  (forall m a s, m <= n -> inv W s -> Q a s -> safe m t (k a) Q' s) ->
  safe n t p Q s -> safe n t (Bind p k) Q' s.
Proof.
  revert p s. induction n as [|n IH]; intros p s Hk H; [done|].
  intros s1 HR HI. destruct (H s1 HR HI) as (Hf & Hr & Hb & Hs).
  split_and!; [done|done| |].
  - intros _. simpl. destruct (result p) as [a|] eqn:Hres; [by left; apply enabled_0|].
    destruct (Hb eq_refl) as [(o & Hn & Ho)|?]; [left; exists o; split; [done|]|by right].
    by destruct (pstep p o s1) as [[]|].
  - intros o s2 p' E. simpl in E. destruct (result p) as [a|] eqn:Hres.
    + simplify_eq. split_and!; [done|apply guar_refl|]. apply Hk; [lia|done|auto].
    + destruct (pstep p o s1) as [[s2' q]|] eqn:Hp; simplify_eq.
      destruct (Hs o _ _ Hp) as (? & ? & ?). split_and!; [done..|].
      apply IH; [|done]. intros m a s' Hm. apply Hk. lia.
Qed.

(** The rules, as triples. *)
Lemma triple_ret t A (P : Σ -> Prop) (a : A) (Q : A -> Σ -> Prop) :
  stable t P -> (forall s, inv W s -> P s -> Q a s) -> triple t P (Ret a) Q.
Proof.
  intros HP HQ n s HI Hs. destruct n; [done|]. intros s1 HR HI1.
  split_and!; [done| |done|done].
  intros a' [= <-]. apply HQ; [done|]. by eapply HP.
Qed.

Lemma triple_skip t A (P : Σ -> Prop) (a : A) :
  stable t P -> triple t P (Ret a) (fun _ => P).
Proof. intros HP. by apply triple_ret. Qed.

(** An action that may block. *)
Lemma triple_block t A (P : Σ -> Prop) (f : nat -> Σ -> option (Σ * A)) (Q : A -> Σ -> Prop) :
  stable t P -> (forall a, stable t (Q a)) ->
  (forall s, inv W s -> P s -> enabled (fun o => f o s) \/ blocked W t s) ->
  (forall o s s' a, inv W s -> P s -> f o s = Some (s', a) ->
     inv W s' /\ guar t s s' /\ Q a s') ->
  triple t P (Act f) Q.
Proof.
  intros HP HQ Hb H n s HI Hs. destruct n; [done|]. intros s1 HR HI1.
  assert (HP1 : P s1) by (by eapply HP). split_and!; [done|done| |].
  - intros _. destruct (Hb s1 HI1 HP1) as [(o & Hn & Ho)|?]; [left; exists o; split; [done|]|by right].
    simpl. by destruct (f o s1) as [[]|].
  - intros o s2 p' E. simpl in E. destruct (f o s1) as [[s2' a]|] eqn:Hf; simplify_eq.
    destruct (H o s1 s2 a) as (HI2 & HG & HQ2); [done..|].
    split_and!; [done..|]. destruct n; [done|]. intros s3 HR3 HI3.
    split_and!; [done| |done|done]. intros a' [= <-]. by eapply HQ.
Qed.

(** An action that never blocks. *)
Lemma triple_act t A (P : Σ -> Prop) (f : nat -> Σ -> option (Σ * A)) (Q : A -> Σ -> Prop) :
  stable t P -> (forall a, stable t (Q a)) ->
  (forall s, inv W s -> P s -> f 0 s <> None) ->
  (forall o s s' a, inv W s -> P s -> f o s = Some (s', a) ->
     inv W s' /\ guar t s s' /\ Q a s') ->
  triple t P (Act f) Q.
Proof. intros ? ? Hn ?. apply triple_block; [done..| |done]. intros. left. apply enabled_0; eauto. Qed.

Lemma triple_read t A (P : Σ -> Prop) (f : Σ -> A) (Q : A -> Σ -> Prop) :
  stable t P -> (forall a, stable t (Q a)) ->
  (forall s, inv W s -> P s -> Q (f s) s) -> triple t P (read f) Q.
Proof.
  intros HP HQ H. apply triple_act; [done..|].
  intros o s s' a HI Hs E. injection E as <- <-. split_and!; [done|apply guar_refl|auto].
Qed.

Lemma triple_modify t (P : Σ -> Prop) (f : Σ -> Σ) (Q : unit -> Σ -> Prop) :
  stable t P -> stable t (Q tt) ->
  (forall s, inv W s -> P s -> inv W (f s) /\ guar t s (f s) /\ Q tt (f s)) ->
  triple t P (modify f) Q.
Proof.
  intros HP HQ H. apply triple_act; [done|by intros []|done|].
  intros o s s' a HI Hs E. injection E as <- <-. auto.
Qed.

Lemma triple_bind t A B (P : Σ -> Prop) (p : prog Σ A) (k : A -> prog Σ B)
    (Q : A -> Σ -> Prop) (Q' : B -> Σ -> Prop) :
  triple t P p Q -> (forall a, triple t (Q a) (k a) Q') -> triple t P (Bind p k) Q'.
Proof.
  intros Hp Hk n s HI Hs. eapply safe_bind; [|by apply Hp].
  intros m a s' _ HI' HQ. by apply Hk.
Qed.

Lemma triple_iter t A B (I : A -> Σ -> Prop) (body : A -> prog Σ (A + B))
    (Q : B -> Σ -> Prop) a :
  (forall a, stable t (I a)) -> (forall b, stable t (Q b)) ->
  (forall a, triple t (I a) (body a)
     (fun r s => match r with inl a' => I a' s | inr b => Q b s end)) ->
  triple t (I a) (Iter body a) Q.
Proof.
  intros HI HQ Hb n. revert a. induction n as [|n IH]; intros a s Hs HP; [done|].
  intros s1 HR HI1. split_and!; [done|done|by left; apply enabled_0|].
  intros o s2 p' E. simpl in E. simplify_eq. split_and!; [done|apply guar_refl|].
  eapply safe_bind; [|by apply Hb; [|eapply HI]].
  intros m r s' Hm HI' Hr. destruct r as [a'|b].
  - eapply safe_mono; [exact Hm|]. by apply IH.
  - by apply (triple_ret t B (Q b) b Q).
Qed.

Lemma triple_conseq t A (P P' : Σ -> Prop) (p : prog Σ A) (Q Q' : A -> Σ -> Prop) :
  triple t P p Q -> (forall s, inv W s -> P' s -> P s) ->
  (forall a s, inv W s -> Q a s -> Q' a s) -> triple t P' p Q'.
Proof. intros H HP HQ n s HI Hs. eapply safe_conseq; [exact HQ|]. apply H; auto. Qed.

Lemma triple_pre t A (P P' : Σ -> Prop) (p : prog Σ A) (Q : A -> Σ -> Prop) :
  triple t P p Q -> (forall s, inv W s -> P' s -> P s) -> triple t P' p Q.
Proof. intros H HP. eapply triple_conseq; [exact H|exact HP|auto]. Qed.

Lemma triple_post t A (P : Σ -> Prop) (p : prog Σ A) (Q Q' : A -> Σ -> Prop) :
  triple t P p Q -> (forall a s, inv W s -> Q a s -> Q' a s) -> triple t P p Q'.
Proof. intros H HQ. eapply triple_conseq; [exact H|auto|exact HQ]. Qed.

(** Code that is never reached. *)
Lemma triple_absurd t A (P : Σ -> Prop) (p : prog Σ A) (Q : A -> Σ -> Prop) :
  (forall s, inv W s -> P s -> False) -> triple t P p Q.
Proof. intros H n s HI HP. destruct (H s HI HP). Qed.

Lemma triple_assert t (P : Σ -> Prop) (b : bool) :
  stable t P -> (forall s, inv W s -> P s -> b = true) -> triple t P (xassert b) (fun _ => P).
Proof.
  intros HP Hb. destruct b; [by apply triple_skip|].
  apply triple_absurd. intros s HI Hs. by specialize (Hb s HI Hs).
Qed.

(** An action that may fault, and does not. *)
Lemma triple_guarded t A (P : Σ -> Prop) e (f : nat -> Σ -> option (option (Σ * A)))
    (Q : A -> Σ -> Prop) :
  stable t P -> (forall a, stable t (Q a)) ->
  (forall s, inv W s -> P s -> enabled (fun o => f o s) \/ blocked W t s) ->
  (forall o s, inv W s -> P s ->
     match f o s with
     | None => True
     | Some None => False
     | Some (Some (s', a)) => inv W s' /\ guar t s s' /\ Q a s'
     end) ->
  triple t P (guarded e f) Q.
Proof.
  intros HP HQ Hb H. eapply triple_bind.
  - apply (triple_block t _ P _ (fun r s => match r with Some a => Q a s | None => False end)).
    + done.
    + intros [a|]; [apply HQ|]. by intros s s' [].
    + intros s HI Hs. destruct (Hb s HI Hs) as [(o & Hn & Ho)|?]; [left; exists o; split; [done|]|by right].
      by destruct (f o s) as [[[]|]|].
    + intros o s s' a HI Hs E. specialize (H o s HI Hs).
      destruct (f o s) as [[[s2 b]|]|]; simplify_eq; [done|destruct H].
  - intros [a|]; [by apply triple_ret|]. by apply triple_absurd; intros s _ [].
Qed.

Lemma triple_each t A (P : Σ -> Prop) (f : A -> prog Σ unit) l :
  stable t P -> (forall x, x ∈ l -> triple t P (f x) (fun _ => P)) ->
  triple t P (each f l) (fun _ => P).
Proof.
  intros HP. induction l as [|x l IH]; intros Hf; simpl; [by apply triple_ret|].
  eapply triple_bind; [apply Hf, list_elem_of_here|].
  intros ?. apply IH. intros y Hy. apply Hf. by apply list_elem_of_further.
Qed.

(** Soundness: when every thread has a triple, in every reachable configuration
    the invariant holds, no thread has faulted, a thread that has returned
    satisfies its postcondition, one that cannot move is [blocked], and what a
    thread that does not exist relies on still holds. *)
Record sound (s0 : Σ) (Q : nat -> Σ -> Prop) (c : cfg Σ) : Prop := {
  sound_inv : inv W c.1;
  sound_fault : no_fault c;
  sound_post t : thread_done c t = true -> Q t c.1;
  sound_live t : t < length c.2 -> thread_done c t = false ->
    can_move c t \/ blocked W t c.1;
  sound_idle t : length c.2 <= t -> rely W t s0 c.1
}.

Theorem rg_sound (P Q : nat -> Σ -> Prop) (s0 : Σ) (ps : list (prog Σ unit)) :
  inv W s0 -> (forall t, P t s0) ->
  (forall t p, ps !! t = Some p -> triple t (P t) p (fun _ => Q t)) ->
  forall c, reach (s0, ps) c -> sound s0 Q c.
Proof.
  intros HI HP Hps c Hc.
  assert (Hall : inv W c.1 /\ (forall n t p, c.2 !! t = Some p ->
                   safe n t p (fun _ => Q t) c.1) /\
                 (forall t, length c.2 <= t -> rely W t s0 c.1)).
  { induction Hc as [|l c c' Hc (HIc & IH & Hid) Hs].
    { split_and!; [done| |done]. intros n t p Hp. by eapply Hps. }
    unfold cstep in Hs. destruct (c.2 !! l.1) as [p|] eqn:Hl; [|done].
    destruct (pstep p l.2 c.1) as [[s' p']|] eqn:Hp; simplify_eq/=.
    destruct (IH 1 l.1 p Hl c.1 (reflexivity _) HIc) as (_ & _ & _ & H1).
    destruct (H1 _ _ _ Hp) as (HI' & HG & _). split_and!; [done| |].
    2: { intros t Ht. rewrite length_insert in Ht. etransitivity; [by apply Hid|].
         apply HG. apply lookup_lt_Some in Hl. lia. }
    intros n t q Hq. destruct (decide (t = l.1)) as [->|Hne].
    - rewrite list_lookup_insert_eq in Hq by (by eapply lookup_lt_Some). simplify_eq.
      destruct (IH (S n) l.1 p Hl c.1 (reflexivity _) HIc) as (_ & _ & _ & H2).
      by apply H2 in Hp as (_ & _ & ?).
    - rewrite list_lookup_insert_ne in Hq by done.
      eapply safe_rely; [by apply IH|]. by apply HG. }
  destruct Hall as (HIc & Hall & Hid).
  assert (H1 : forall t p, c.2 !! t = Some p -> faulted p = None /\
    (forall a, result p = Some a -> Q t c.1) /\
    (result p = None -> enabled (fun o => pstep p o c.1) \/ blocked W t c.1)).
  { intros t p Hp. by destruct (Hall 1 t p Hp c.1 (reflexivity _) HIc) as (? & ? & ? & _). }
  split; [done| | | |done].
  - intros t. unfold thread_fault. destruct (c.2 !! t) as [p|] eqn:Hp; [|done].
    by destruct (H1 t p Hp).
  - intros t. unfold thread_done. destruct (c.2 !! t) as [p|] eqn:Hp; [|done].
    destruct (H1 t p Hp) as (_ & Hr & _). destruct (result p); [|done]. intros _. by eapply Hr.
  - intros t Ht. unfold thread_done. apply lookup_lt_is_Some in Ht as [p Hp]. rewrite Hp.
    destruct (H1 t p Hp) as (_ & _ & Hb). destruct (result p); [done|]. intros _.
    destruct (Hb eq_refl) as [(o & Hn & Ho)|?]; [left; exists o; split; [done|]|by right].
    unfold cstep; simpl. rewrite Hp. by destruct (pstep p o c.1) as [[]|].
Qed.
End rg.

Arguments triple {Σ} W t {A} P p Q.
Arguments stable {Σ} W t P.
Arguments guar {Σ} W t s s'.
Arguments safe {Σ} W n t {A} p Q s.
Arguments sound {Σ} W s0 Q c.
Arguments sound_inv {Σ W s0 Q c} _.
Arguments sound_fault {Σ W s0 Q c} _.
Arguments sound_post {Σ W s0 Q c} _ t _.
Arguments sound_live {Σ W s0 Q c} _ t _ _.
Arguments sound_idle {Σ W s0 Q c} _ t _.
