(* ===== verification/Embed.v ===== *)
(** * Embed: the programs of a component inside a larger process

    A component is proved over its own state.  [embed] runs its programs over the
    state of a process that has the component as a part, and [embed_triple] takes
    what was proved of them along: the host shows once, for a step of the part,
    what it needs to keep its own invariant. *)
From S2P Require Import Prelude Conc.

(** A part of type [B]: how it is read, what the host becomes when it changes, and
    what the host executes after each action of the part, if anything. *)
Record part (Σ B : Type) := Part { look : Σ -> B; put : B -> Σ -> Σ; then_ : option (prog Σ unit) }.
Arguments Part {Σ B}.
Arguments look {Σ B}.
Arguments put {Σ B}.
Arguments then_ {Σ B}.

(** Safe for any number of steps. *)
Definition always {Σ} (W : protocol Σ) (t : nat) {A} (p : prog Σ A) (Q : A -> Σ -> Prop) (s : Σ) : Prop :=
  forall n, safe W n t p Q s.

Section always.
Context {Σ : Type} (W : protocol Σ) (t : nat).

Lemma always_rely {A} (p : prog Σ A) Q s s' : always W t p Q s -> rely W t s s' -> always W t p Q s'.
Proof. intros H HR n. by eapply safe_rely. Qed.

(** What is safe still is after a step. *)
Lemma always_step {A} (p : prog Σ A) Q s o s2 p' :
  always W t p Q s -> inv W s -> pstep p o s = Some (s2, p') ->
  inv W s2 /\ guar W t s s2 /\ always W t p' Q s2.
Proof.
  intros H HI E. destruct (H 1 s (reflexivity _) HI) as (_ & _ & _ & H1).
  destruct (H1 _ _ _ E) as (? & ? & _). split_and!; [done..|]. intros n.
  destruct (H (S n) s (reflexivity _) HI) as (_ & _ & _ & Hn). by destruct (Hn _ _ _ E) as (_ & _ & ?).
Qed.

Lemma always_ret {A} (a : A) Q s : always W t (Ret a) Q s -> inv W s -> Q a s.
Proof. intros H HI. destruct (H 1 s (reflexivity _) HI) as (_ & Hr & _). by apply Hr. Qed.

(** The first part of a sequence leads to where the rest is safe. *)
Lemma always_bind {A C} (p : prog Σ A) (k : A -> prog Σ C) Q s :
  always W t (Bind p k) Q s -> always W t p (fun a s' => always W t (k a) Q s') s.
Proof.
  intros H n. revert p s H. induction n as [|n IH]; intros p s H; [done|].
  intros s1 HR HI. pose proof (always_rely _ _ _ _ H HR) as H1.
  destruct (H1 1 s1 (reflexivity _) HI) as (Hf & _ & Hb & _). split_and!; [done| | |].
  - intros a E. assert (Es : pstep (Bind p k) 0 s1 = Some (s1, k a)) by (simpl; by rewrite E).
    by apply (always_step _ _ _ _ _ _ H1 HI Es).
  - intros E. destruct (Hb eq_refl) as [(o & Hn & Ho)|?]; [left|by right]. exists o. split; [done|].
    simpl in Ho. rewrite E in Ho. by destruct (pstep p o s1) as [[]|].
  - intros o s2 p' E. assert (En : result p = None) by (by destruct p).
    assert (Es : pstep (Bind p k) o s1 = Some (s2, Bind p' k)) by (simpl; by rewrite En, E).
    destruct (always_step _ _ _ _ _ _ H1 HI Es) as (? & ? & ?). split_and!; [done..|]. by apply IH.
Qed.
End always.

Section embed.
Context {Σ B : Type} (Pt : part Σ B).

Fixpoint embed {A} (p : prog B A) : prog Σ A :=
  match p with
  | Ret a => Ret a
  | Act f =>
      let act := Act (fun o w => match f o (look Pt w) with
                                 | Some (b, a) => Some (put Pt b w, a)
                                 | None => None
                                 end) in
      match then_ Pt with
      | None => act
      | Some q => Bind act (fun a => Bind q (fun _ => Ret a))
      end
  | Crash e => Crash e
  | Bind p k => Bind (embed p) (fun a => embed (k a))
  | Iter body a => Iter (fun a => embed (body a)) a
  end.

(** What all atomic actions of a program satisfy. *)
Definition property : Type := forall A, (nat -> B -> option (B * A)) -> Prop.
Fixpoint acts (G : property) {A} (p : prog B A) : Prop :=
  match p with
  | Ret _ | Crash _ => True
  | Act f => G _ f
  | Bind p k => acts G p /\ forall a, acts G (k a)
  | Iter body _ => forall a, acts G (body a)
  end.

(** ** What a host shows, and what it gets *)
Context (W : protocol B) (V : protocol Σ) (t : nat) (G : property).

Record fits : Prop := {
  fit_look b w : look Pt (put Pt b w) = b;
  fit_inv w : inv V w -> inv W (look Pt w);
  fit_rely w w' : rely V t w w' -> rely W t (look Pt w) (look Pt w');
  fit_step A (f : nat -> B -> option (B * A)) o a w b : G A f -> inv V w -> f o (look Pt w) = Some (b, a) ->
    inv W b -> guar W t (look Pt w) b -> inv V (put Pt b w) /\ guar V t w (put Pt b w);
  fit_blocked A (f : nat -> B -> option (B * A)) w : G A f -> inv V w -> blocked W t (look Pt w) ->
    enabled (fun o => f o (look Pt w)) \/ blocked V t w;
}.

(** What a thread knows of the rest of the host: [R] between the actions of the part,
    [R1] after an action until the host has done its share. *)
Record frame (R R1 : Σ -> Prop) : Prop := {
  frame_stable : stable V t R;
  frame_stable1 : stable V t R1;
  frame_put A (f : nat -> B -> option (B * A)) o a w b : G A f -> inv V w -> f o (look Pt w) = Some (b, a) ->
    R w -> R1 (put Pt b w);
  frame_then : match then_ Pt with
               | None => forall w, inv V w -> R1 w -> R w
               | Some q => forall S, stable W t S ->
                   triple V t (fun w => S (look Pt w) /\ R1 w) q (fun _ w => S (look Pt w) /\ R w)
               end
}.

Context (F : fits) (R R1 : Σ -> Prop) (HF : frame R R1).

Lemma embed_ret {A} (a : A) Q n w :
  R w -> inv V w -> always W t (Ret a) Q (look Pt w) ->
  safe V n t (Ret a) (fun a w => Q a (look Pt w) /\ R w) w.
Proof.
  intros HR HI H. destruct n as [|n]; [done|]. intros w1 Hr HI1. split_and!; [done| |done|done].
  intros a' [= <-]. split; [|by eapply (frame_stable _ _ HF)].
  eapply always_ret; [|by apply (fit_inv F)]. eapply always_rely; [exact H|]. by apply (fit_rely F).
Qed.

(** One action, and what the host does after it. *)
Lemma embed_act {A} (f : nat -> B -> option (B * A)) Q n w :
  G A f -> R w -> inv V w -> always W t (Act f) Q (look Pt w) ->
  safe V n t (embed (Act f)) (fun a w => Q a (look Pt w) /\ R w) w.
Proof.
  intros Hg HR HI H.
  assert (Hact : forall n, safe V n t (Act (fun o w => match f o (look Pt w) with
                                 | Some (b, a) => Some (put Pt b w, a)
                                 | None => None
                                 end)) (fun a w => always W t (Ret a) Q (look Pt w) /\ R1 w) w).
  { intros [|m]; [done|]. intros w1 Hr HI1. split_and!; [done|done| |].
    - intros _. pose proof (fit_inv F _ HI1) as HIb.
      destruct (H 1 _ (fit_rely F _ _ Hr) HIb) as (_ & _ & Hb & _).
      assert (Hen : enabled (fun o => f o (look Pt w1)) \/ blocked V t w1).
      { destruct (Hb eq_refl) as [(o & Hn & Ho)|Hw]; [left|by eapply (fit_blocked F)].
        exists o. split; [done|]. simpl in Ho. by destruct (f o (look Pt w1)) as [[]|]. }
      destruct Hen as [(o & Hn & Ho)|?]; [left|by right]. exists o. split; [done|]. simpl.
      by destruct (f o (look Pt w1)) as [[]|].
    - intros o w2 q Eq. simpl in Eq. destruct (f o (look Pt w1)) as [[b a]|] eqn:Ef; [|done]. injection Eq as <- <-.
      assert (Es : pstep (Act f) o (look Pt w1) = Some (b, Ret a)) by (simpl; by rewrite Ef).
      pose proof (always_rely _ _ _ _ _ _ H (fit_rely F _ _ Hr)) as H1.
      destruct (always_step _ _ _ _ _ _ _ _ H1 (fit_inv F _ HI1) Es) as (Ib & Gb & Hb).
      destruct (fit_step F _ f o a w1 b Hg HI1 Ef Ib Gb) as [K1 K2]. split_and!; [done|done|].
      assert (HR1 : R1 (put Pt b w1)).
      { eapply (frame_put _ _ HF); [done|done|exact Ef|]. by eapply (frame_stable _ _ HF). }
      destruct m as [|m]; [done|]. intros w3 Hr3 HI3. split_and!; [done| |done|done].
      intros a' [= <-]. split; [|by eapply (frame_stable1 _ _ HF)].
      eapply always_rely; [|by apply (fit_rely F)]. by rewrite (fit_look F). }
  simpl. pose proof (frame_then _ _ HF) as Hn. destruct (then_ Pt) as [q|].
  - eapply safe_bind; [|by apply Hact]. intros m a w1 _ HI1 [Ha HR1]. eapply safe_bind.
    2: { apply (Hn (fun s => always W t (Ret a) Q s)); [|done|by split].
         intros s s' Hs _ _ Hr. by eapply always_rely. }
    intros m' _ w2 _ HI2 [Ha2 HR2]. by apply embed_ret.
  - eapply safe_conseq; [|by apply Hact]. intros a w1 HI1 [Ha HR1].
    split; [|by apply Hn]. eapply always_ret; [exact Ha|by apply (fit_inv F)].
Qed.

Lemma embed_safe {A} (p : prog B A) : forall Q w,
  acts G p -> inv V w -> R w -> always W t p Q (look Pt w) ->
  forall n, safe V n t (embed p) (fun a w => Q a (look Pt w) /\ R w) w.
Proof.
  induction p as [A a|A f|A e|A C p IHp k IHk|A C body IHb a]; intros Q w Ha HI HR H n.
  - by apply embed_ret.
  - by apply embed_act.
  - by destruct (H 1 _ (reflexivity _) (fit_inv F _ HI)) as (? & _).
  - destruct Ha as [Ha1 Ha2]. simpl. eapply safe_bind; [|eapply IHp; [done|done|done|by apply always_bind]].
    intros m a w1 _ HI1 [H1 HR1]. by apply IHk.
  - simpl in *. revert a w HI HR H. induction n as [|n IH]; intros a w HI HR H; [done|].
    intros w1 Hr HI1. split_and!; [done|done|by left; apply enabled_0|].
    intros o w2 q Eq. simpl in Eq. injection Eq as <- <-. split_and!; [done|apply guar_refl|].
    pose proof (always_rely _ _ _ _ _ _ H (fit_rely F _ _ Hr)) as H1.
    destruct (always_step _ _ _ _ _ o _ _ H1 (fit_inv F _ HI1) eq_refl) as (_ & _ & H2).
    apply always_bind in H2.
    eapply safe_bind; [|eapply IHb; [apply Ha|done|by eapply (frame_stable _ _ HF)|exact H2]].
    intros m [a'|c] w3 Hm HI3 [H3 HR3].
    + eapply safe_mono; [exact Hm|]. by apply IH.
    + by apply embed_ret.
Qed.

(** What holds of a program of the part holds of it inside the host. *)
Theorem embed_triple {A} (p : prog B A) P Q :
  acts G p -> triple W t P p Q ->
  triple V t (fun w => P (look Pt w) /\ R w) (embed p) (fun a w => Q a (look Pt w) /\ R w).
Proof.
  intros Ha Hp n w HI [Hw HR]. apply embed_safe; [done..|]. intros m. apply Hp; [by apply (fit_inv F)|done].
Qed.

End embed.

Lemma embed_stable {Σ B} (Pt : part Σ B) W V t G P :
  fits Pt W V t G -> stable W t P -> stable V t (fun w => P (look Pt w)).
Proof.
  intros F HP w w' Hw H1 H2 HR. eapply HP; [exact Hw| | |].
  - by apply (fit_inv _ _ _ _ _ F).
  - by apply (fit_inv _ _ _ _ _ F).
  - by apply (fit_rely _ _ _ _ _ F).
Qed.

(** A property of actions that is implied by another. *)
Lemma acts_mono {B A} (G G' : property (B := B)) (p : prog B A) :
  (forall A (f : nat -> B -> option (B * A)), G A f -> G' A f) -> acts G p -> acts G' p.
Proof.
  intros H. induction p as [| | |A C p IHp k IHk|A C body IHb a]; simpl; [done|apply H|done| |].
  - intros [H1 H2]. split; [by apply IHp|]. intros a. by apply IHk.
  - intros H1 a'. by apply IHb.
Qed.
Lemma fits_mono {Σ B} (Pt : part Σ B) W V t (G G' : property (B := B)) :
  (forall A (f : nat -> B -> option (B * A)), G A f -> G' A f) -> fits Pt W V t G' -> fits Pt W V t G.
Proof.
  intros H [F1 F2 F3 F4 F5]. split; [done..| |].
  - intros A f o a w b Hf. by apply (F4 A f o a w b), H.
  - intros A f w Hf. by apply (F5 A f w), H.
Qed.

(** A host that does nothing after an action. *)
Lemma plain_frame {Σ B} (Pt : part Σ B) V t G W (R : Σ -> Prop) :
  then_ Pt = None -> stable V t R ->
  (forall A (f : nat -> B -> option (B * A)) o a w b, G A f -> inv V w -> f o (look Pt w) = Some (b, a) ->
    R w -> R (put Pt b w)) ->
  frame Pt W V t G R R.
Proof. intros En HR Hp. split; [done..|]. by rewrite En. Qed.

Lemma plain_triple {Σ B} (Pt : part Σ B) W V t G (R : Σ -> Prop) {A} (p : prog B A) P Q :
  fits Pt W V t G -> then_ Pt = None -> stable V t R ->
  (forall A (f : nat -> B -> option (B * A)) o a w b, G A f -> inv V w -> f o (look Pt w) = Some (b, a) ->
    R w -> R (put Pt b w)) ->
  acts G p -> triple W t P p Q ->
  triple V t (fun w => P (look Pt w) /\ R w) (embed Pt p) (fun a w => Q a (look Pt w) /\ R w).
Proof. intros F En HR Hp. apply (embed_triple _ _ _ _ _ F R R). by apply plain_frame. Qed.
