(* ===== verification/LightweightBarrier.v ===== *)
(** * LightweightBarrier: src/lightweight_barrier.cpp

    The one-shot barrier every waiting construct of xdispatch2 is built on:
    an atomic pointer [m_owner] that is null, a completion mark, or the waiter
    object the first waiting thread installed. *)
From S2P Require Import Prelude Conc.

Module Barrier.

(** The wait object: [m_sleepers] is the wait set of its condition variable,
    that is the threads blocked in it which nobody has notified yet.  Its mutex
    is held for a whole critical section, which is one atomic action here. *)
Record waiter := Waiter { m_done : bool; m_sleepers : list nat }.

(** The pointer [m_owner]: null, [&kInvalidAddressUsedForCompleted], or a waiter. *)
Inductive owner := kNoOwner | kCompleted | Owner (w : nat).

(** The barrier, with the waiter objects it has allocated: [heap] maps an
    address to its object, [candidate] is the [std::unique_ptr] of each thread
    that is inside [wait]. *)
Record lightweight_barrier := Lb {
  m_owner : owner;
  heap : nat -> option waiter;
  fresh : nat;
  candidate : nat -> option nat
}.

Definition make_barrier : lightweight_barrier :=
  Lb kNoOwner (fun _ => None) 0 (fun _ => None).

Definition make_waiter : waiter := Waiter false [].

Definition with_owner (o : owner) (b : lightweight_barrier) : lightweight_barrier :=
  Lb o (heap b) (fresh b) (candidate b).
Definition with_heap (w : nat) (x : option waiter) (b : lightweight_barrier) : lightweight_barrier :=
  Lb (m_owner b) (<[w := x]> (heap b)) (fresh b) (candidate b).
Definition with_candidate (t : nat) (c : option nat) (b : lightweight_barrier) : lightweight_barrier :=
  Lb (m_owner b) (heap b) (fresh b) (<[t := c]> (candidate b)).

Definition sleep (t : nat) (x : waiter) : waiter := Waiter (m_done x) (t :: m_sleepers x).
Definition unsleep (t : nat) (x : waiter) : waiter :=
  Waiter (m_done x) (filter (fun u => u <> t) (m_sleepers x)).
Definition asleep (t : nat) (x : waiter) : bool := bool_decide (t ∈ m_sleepers x).

(** Milliseconds; -1 is "wait for ever". *)
Definition forever : Z := (-1)%Z.

Section code.
Context {Σ : Type} (L : lens Σ lightweight_barrier).
(** Whether compare_exchange_weak may fail spuriously on the platform. *)
Context (weak : bool).

(** A critical section of waiter [w]: undefined when the pointer dangles,
    blocked when [f] yields [None]. *)
Definition with_waiter {A} (w : nat) (f : nat -> waiter -> option (waiter * A)) : prog Σ A :=
  guarded Undefined (fun o s =>
    match heap (get L s) w with
    | None => Some None
    | Some x =>
        match f o x with
        | None => None
        | Some (x', a) => Some (Some (set L (with_heap w (Some x') (get L s)) s, a))
        end
    end).

(** m_cond.wait_for(lock, timeout, predicate) and m_cond.wait(lock, predicate),
    entered with the predicate false: the thread sleeps until it is notified,
    woken spuriously or timed out, and tests the predicate again. *)
Definition cond_wait (w t : nat) (timeout : Z) : prog Σ bool :=
  Iter (fun _ => with_waiter w (fun o x =>
    if negb (asleep t x) || Nat.eqb o o_spurious then
      let x1 := unsleep t x in
      if m_done x1 then Some (x1, inr true) else Some (sleep t x1, inl tt)
    else if Nat.eqb o o_timeout && negb (Z.eqb timeout forever) then
      let x1 := unsleep t x in Some (x1, inr (m_done x1))
    else None)) tt.

Definition waiter_wait (w t : nat) (timeout : Z) : prog Σ bool :=
  let! done := with_waiter w (fun _ x =>
    if m_done x then Some (x, true) else Some (sleep t x, false)) in
  if done : bool then Ret true else cond_wait w t timeout.

Definition waiter_complete (w : nat) : prog Σ unit :=
  with_waiter w (fun _ x => Some (Waiter true [], tt)).

Definition waiter_was_completed (w : nat) : prog Σ bool :=
  with_waiter w (fun _ x => Some (x, m_done x)).

(** compare_exchange_weak of [m_owner] against [kNoOwner]: (succeeded, previous). *)
Definition cas_owner (t : nat) (new : owner) : prog Σ (bool * owner) :=
  Act (fun o s =>
    let b := get L s in
    match m_owner b with
    | kNoOwner =>
        if weak && Nat.eqb o o_spurious then Some (s, (false, kNoOwner))
        else
          (* candidate.release() after a successful exchange only touches the
             pointer of the calling thread: it is part of the same action *)
          let b1 := with_owner new b in
          let b2 := match new with Owner _ => with_candidate t None b1 | _ => b1 end in
          Some (set L b2 s, (true, kNoOwner))
    | previous => Some (s, (false, previous))
    end).

Definition alloc_candidate (t : nat) : prog Σ nat :=
  atomic (fun s =>
    let b := get L s in
    let w := fresh b in
    (set L (Lb (m_owner b) (<[w := Some make_waiter]> (heap b)) (S w)
               (<[t := Some w]> (candidate b))) s, w)).

(** The end of the scope of [candidate]. *)
Definition free_candidate (t : nat) : prog Σ unit :=
  modify (fun s =>
    let b := get L s in
    match candidate b t with
    | Some w => set L (with_candidate t None (with_heap w None b)) s
    | None => s
    end).

Definition wait (t : nat) (timeout : Z) : prog Σ bool :=
  let! previous := read (fun s => m_owner (get L s)) in
  match previous with
  | kCompleted => Ret true
  | _ =>
      let! cand := alloc_candidate t in
      let! '(ok, previous) := cas_owner t (Owner cand) in
      if ok : bool then waiter_wait cand t timeout
      else match previous with
           | kCompleted => do! free_candidate t in Ret true
           | Owner w =>
               let! r := waiter_wait w t timeout in
               do! free_candidate t in
               Ret r
           | kNoOwner => Crash Undefined
           end
  end.

Definition complete (t : nat) : prog Σ unit :=
  let! '(ok, previous) := cas_owner t kCompleted in
  if ok : bool then Ret tt
  else match previous with
       | kCompleted => Ret tt
       | Owner w => waiter_complete w
       | kNoOwner => Ret tt
       end.

Definition was_completed : prog Σ bool :=
  let! previous := read (fun s => m_owner (get L s)) in
  match previous with
  | kCompleted => Ret true
  | Owner w => waiter_was_completed w
  | kNoOwner => Ret false
  end.

(** ~lightweight_barrier: deletes the installed waiter. *)
Definition destroy : prog Σ unit :=
  modify (fun s =>
    match m_owner (get L s) with
    | Owner w => set L (with_heap w None (get L s)) s
    | _ => s
    end).
End code.

(** ** What the barrier promises its host *)

Definition bdone (b : lightweight_barrier) : bool :=
  match m_owner b with
  | kNoOwner => false
  | kCompleted => true
  | Owner w => match heap b w with Some x => m_done x | None => false end
  end.

Record barrier_inv (b : lightweight_barrier) : Prop := {
  inv_owner w : m_owner b = Owner w -> exists x, heap b w = Some x;
  inv_cand t w : candidate b t = Some w -> heap b w = Some make_waiter /\ m_owner b <> Owner w;
  inv_cand_inj t u w : candidate b t = Some w -> candidate b u = Some w -> t = u;
  inv_fresh w x : heap b w = Some x -> w < fresh b;
  inv_done w x : heap b w = Some x -> m_done x = true -> m_sleepers x = [];
  inv_asleep w x : heap b w = Some x -> m_sleepers x <> [] -> m_owner b = Owner w;
  inv_leak w x : heap b w = Some x -> m_owner b = Owner w \/ exists t, candidate b t = Some w
}.

(** What thread [t] relies on while others use the barrier. *)
Record brely (t : nat) (b b' : lightweight_barrier) : Prop := {
  rely_cand : candidate b' t = candidate b t;
  rely_owner : m_owner b <> kNoOwner -> m_owner b' = m_owner b;
  rely_done : bdone b = true -> bdone b' = true
}.

#[export] Instance brely_pre t : PreOrder (brely t).
Proof.
  split; [by split|]. intros x y z [H1 H2 H3] [H4 H5 H6]. split; [congruence| |auto].
  intros H. rewrite H5, H2; [done|done|]. rewrite H2; done.
Qed.

(** A step of thread [t] that does not complete the barrier. *)
Definition bquiet (t : nat) (b b' : lightweight_barrier) : Prop :=
  barrier_inv b' /\ bdone b' = bdone b /\ forall u, u <> t -> brely u b b'.
(** A step of thread [t] that leaves it completed. *)
Definition bcompletes (t : nat) (b b' : lightweight_barrier) : Prop :=
  barrier_inv b' /\ bdone b' = true /\ candidate b' t = candidate b t /\ forall u, u <> t -> brely u b b'.

Lemma make_barrier_inv : barrier_inv make_barrier.
Proof. split; naive_solver. Qed.

Lemma bquiet_refl t b : barrier_inv b -> bquiet t b b.
Proof. intros H. split_and!; [done|done|]. by intros. Qed.

(** Thread [t] sleeps in a waiter, and nobody has notified it. *)
Definition sleeping (t : nat) (b : lightweight_barrier) : Prop :=
  exists w x, heap b w = Some x /\ t ∈ m_sleepers x.

(** Once the barrier is completed nobody sleeps in it. *)
Lemma done_awake t b : barrier_inv b -> bdone b = true -> ~ sleeping t b.
Proof.
  intros [Io _ _ _ Id Ia _] Hd (w & x & Hx & Ht).
  assert (Ho : m_owner b = Owner w) by (apply (Ia w x Hx); intros E; rewrite E in Ht; by apply not_elem_of_nil in Ht).
  unfold bdone in Hd. rewrite Ho, Hx in Hd. rewrite (Id w x Hx Hd) in Ht.
  by apply not_elem_of_nil in Ht.
Qed.

(** A state that embeds a barrier: its invariant implies the barrier's, its
    rely gives the barrier's, and quiet steps of the barrier are its own. *)
Class host {Σ} (L : lens Σ lightweight_barrier) (W : protocol Σ) : Prop := {
  host_inv s : inv W s -> barrier_inv (get L s);
  host_rely t s s' : rely W t s s' -> brely t (get L s) (get L s');
  host_quiet t s b : inv W s -> bquiet t (get L s) b ->
    inv W (set L b s) /\ guar W t s (set L b s)
}.

(** Where [P] holds thread [t] may sleep. *)
Definition may_sleep {Σ} (L : lens Σ lightweight_barrier) (W : protocol Σ) (t : nat)
    (P : Σ -> Prop) : Prop :=
  forall s, inv W s -> P s -> sleeping t (get L s) -> blocked W t s.

(** An assertion quiet steps of thread [t] keep. *)
Definition framed {Σ} (L : lens Σ lightweight_barrier) (t : nat) (P : Σ -> Prop) : Prop :=
  forall s b, P s -> bquiet t (get L s) b -> P (set L b s).

(** ** The actions of the barrier *)
Lemma bquiet_waiter t b w x x' :
  barrier_inv b -> m_owner b = Owner w -> heap b w = Some x ->
  m_done x' = m_done x -> (m_done x' = true -> m_sleepers x' = []) ->
  bquiet t b (with_heap w (Some x') b).
Proof.
  intros [Io Ic Ii If Id Ia Il] Ho Hx Hd Hs. split_and!.
  - split; simpl.
    + intros v Hv. fn_cases; eauto.
    + intros u v Hv. destruct (Ic u v Hv). fn_cases; [congruence|done].
    + eauto.
    + intros v y Hy. fn_cases; eauto.
    + intros v y Hy. fn_cases; simplify_eq; eauto.
    + intros v y Hy. fn_cases; simplify_eq; eauto.
    + intros v y Hy. fn_cases; simplify_eq; eauto.
  - unfold bdone; simpl. rewrite Ho, fn_same, Hx. done.
  - intros u _. split; simpl; [done|done|]. unfold bdone; simpl. rewrite Ho, fn_same, Hx.
    by rewrite Hd.
Qed.

Lemma bcompletes_waiter t b w x :
  barrier_inv b -> m_owner b = Owner w -> heap b w = Some x ->
  bcompletes t b (with_heap w (Some (Waiter true [])) b).
Proof.
  intros [Io Ic Ii If Id Ia Il] Ho Hx. split_and!.
  - split; simpl.
    + intros v Hv. fn_cases; eauto.
    + intros u v Hv. destruct (Ic u v Hv). fn_cases; [congruence|done].
    + eauto.
    + intros v y Hy. fn_cases; eauto.
    + intros v y Hy. fn_cases; simplify_eq; eauto.
    + intros v y Hy. fn_cases; simplify_eq; eauto.
    + intros v y Hy. fn_cases; simplify_eq; eauto.
  - unfold bdone; simpl. by rewrite Ho, fn_same.
  - done.
  - intros u _. split; simpl; [done|done|]. unfold bdone; simpl. by rewrite Ho, fn_same.
Qed.

Lemma bcompletes_owner t b :
  barrier_inv b -> m_owner b = kNoOwner -> bcompletes t b (with_owner kCompleted b).
Proof.
  intros [Io Ic Ii If Id Ia Il] Ho. split_and!.
  - split; simpl; try done.
    + intros u w Hw. by destruct (Ic u w Hw).
    + intros w x Hx Hs. specialize (Ia w x Hx Hs). congruence.
    + intros w x Hx. destruct (Il w x Hx); [congruence|eauto].
  - done.
  - done.
  - intros u _. split; simpl; [done|congruence|done].
Qed.

Lemma bquiet_alloc t b :
  barrier_inv b -> candidate b t = None ->
  bquiet t b (Lb (m_owner b) (<[fresh b := Some make_waiter]> (heap b)) (S (fresh b))
                 (<[t := Some (fresh b)]> (candidate b))).
Proof.
  intros [Io Ic Ii If Id Ia Il] Hc.
  assert (Hfr : heap b (fresh b) = None).
  { destruct (heap b (fresh b)) eqn:E; [|done]. apply If in E. lia. }
  assert (Hown : m_owner b <> Owner (fresh b)).
  { intros E. destruct (Io _ E). congruence. }
  assert (Hcf : forall u, candidate b u <> Some (fresh b)).
  { intros u E. destruct (Ic u _ E). congruence. }
  split_and!.
  - split; simpl.
    + intros v Hv. fn_cases; eauto.
    + intros u v Hv. fn_cases; simplify_eq; try done; try (by apply Hcf in Hv); by eapply Ic.
    + intros u v w Hu Hv. fn_cases; simplify_eq; try done;
        solve [by apply Hcf in Hv | by apply Hcf in Hu | by eapply Ii].
    + intros v y Hy. fn_cases; [lia|]. apply If in Hy. lia.
    + intros v y Hy. fn_cases; simplify_eq/=; [done|eauto].
    + intros v y Hy. fn_cases; simplify_eq/=; [done|eauto].
    + intros v y Hy. destruct (decide (v = fresh b)) as [->|Hne].
      { right. exists t. by rewrite fn_same. }
      rewrite fn_other in Hy by done. destruct (Il v y Hy) as [?|[u Hu]]; [by left|].
      right. exists u. by fn_cases; [congruence|].
  - unfold bdone; simpl. destruct (m_owner b) eqn:E; [done|done|].
    rewrite fn_other; [done|congruence].
  - intros u Hu. split; simpl; [by rewrite fn_other|done|].
    unfold bdone; simpl. destruct (m_owner b) eqn:E; [done|done|].
    rewrite fn_other; [done|congruence].
Qed.

Lemma bquiet_install t b w :
  barrier_inv b -> m_owner b = kNoOwner -> candidate b t = Some w ->
  bquiet t b (with_candidate t None (with_owner (Owner w) b)).
Proof.
  intros [Io Ic Ii If Id Ia Il] Ho Hc. destruct (Ic t w Hc) as [Hw _]. split_and!.
  - split; simpl.
    + intros v [= <-]. eauto.
    + intros u v Hv. fn_cases; [done|]. destruct (Ic u v Hv). split; [done|].
      intros [= ->]. destruct n. by eapply Ii.
    + intros u v z Hu Hv. fn_cases; simplify_eq; try done. by eapply Ii.
    + done.
    + done.
    + intros v y Hy Hs. specialize (Ia v y Hy Hs). congruence.
    + intros v y Hy. destruct (Il v y Hy) as [?|[u Hu]]; [congruence|].
      destruct (decide (t = u)) as [<-|]; [left; congruence|]. right. exists u. by fn_cases.
  - unfold bdone; simpl. by rewrite Ho, Hw.
  - intros u Hu. split; simpl; [by rewrite fn_other|congruence|]. unfold bdone. by rewrite Ho.
Qed.

Lemma bquiet_free t b w :
  barrier_inv b -> candidate b t = Some w ->
  bquiet t b (with_candidate t None (with_heap w None b)).
Proof.
  intros [Io Ic Ii If Id Ia Il] Hc. destruct (Ic t w Hc) as [Hw Hne]. split_and!.
  - split; simpl.
    + intros v Hv. fn_cases; [congruence|eauto].
    + intros u v Hv. fn_cases; try done; [|by eapply Ic]. destruct n. by eapply Ii.
    + intros u v z Hu Hv. fn_cases; simplify_eq; try done. by eapply Ii.
    + intros v y Hy. fn_cases; [done|eauto].
    + intros v y Hy. fn_cases; [done|eauto].
    + intros v y Hy. fn_cases; [done|eauto].
    + intros v y Hy. fn_cases; [done|]. destruct (Il v y Hy) as [?|[u Hu]]; [by left|].
      right. exists u. fn_cases; [congruence|done].
  - unfold bdone; simpl. destruct (m_owner b) eqn:E; [done|done|].
    rewrite fn_other; [done|congruence].
  - intros u Hu. split; simpl; [by rewrite fn_other|done|].
    unfold bdone; simpl. destruct (m_owner b) eqn:E; [done|done|].
    rewrite fn_other; [done|congruence].
Qed.

(** ** Specifications, for every host *)
Section spec.
Context {Σ : Type} {L : lens Σ lightweight_barrier} {W : protocol Σ}.
Context {H : host L W}.

(** A client assertion with a fact about the barrier. *)
Lemma stable_with t (P : Σ -> Prop) (φ : lightweight_barrier -> Prop) :
  stable W t P -> (forall b b', brely t b b' -> φ b -> φ b') ->
  stable W t (fun s => P s /\ φ (get L s)).
Proof.
  intros HP Hφ s s' [Hs Hb] HI HI' HR. split; [by eapply HP|].
  eapply Hφ; [by eapply host_rely|done].
Qed.

(** Inside a wait on waiter [w], with [c] in the thread's unique_ptr. *)
Definition waits_on (t w : nat) (c : option nat) (b : lightweight_barrier) : Prop :=
  m_owner b = Owner w /\ candidate b t = c.

Lemma waits_on_rely t w c b b' : brely t b b' -> waits_on t w c b -> waits_on t w c b'.
Proof. intros [H1 H2 H3] [Ho Hc]. split; [rewrite H2; congruence|congruence]. Qed.

Lemma with_waiter_spec A t w c (P : Σ -> Prop) (f : nat -> waiter -> option (waiter * A))
    (φ : A -> bool -> Prop) :
  stable W t P -> framed L t P ->
  (forall a, φ a false -> φ a true) ->
  (forall o x x' a, f o x = Some (x', a) -> (m_done x = true -> m_sleepers x = []) ->
     m_done x' = m_done x /\ (m_done x' = true -> m_sleepers x' = []) /\ φ a (m_done x)) ->
  (forall x, enabled (fun o => f o x) \/ (may_sleep L W t P /\ t ∈ m_sleepers x)) ->
  triple W t (fun s => P s /\ waits_on t w c (get L s)) (with_waiter L w f)
    (fun a s => P s /\ waits_on t w c (get L s) /\ φ a (bdone (get L s))).
Proof.
  intros HP HF Hmono Hf Hb. apply triple_guarded.
  - apply stable_with; [done|apply waits_on_rely].
  - intros a. apply (stable_with t P (fun b => waits_on t w c b /\ φ a (bdone b))); [done|].
    intros b b' Hr [Hw Hφ]. split; [by eapply waits_on_rely|].
    destruct (bdone b) eqn:E; [by rewrite (rely_done _ _ _ Hr)|].
    destruct (bdone b'); [by apply Hmono|done].
  - intros s HI [Hs [Ho Hc]]. pose proof (host_inv s HI) as Hbi.
    destruct (inv_owner _ Hbi w Ho) as [x Hx]. rewrite Hx.
    destruct (Hb x) as [(o & Hn & E)|[Hw Ht]]; [left; exists o; split; [done|]; by destruct (f o x) as [[]|]|].
    right. apply Hw; [done|done|]. by exists w, x.
  - clear Hb. intros o s HI [Hs [Ho Hc]]. pose proof (host_inv s HI) as Hb.
    destruct (inv_owner _ Hb w Ho) as [x Hx]. rewrite Hx.
    destruct (f o x) as [[x' a]|] eqn:E; [|done].
    destruct (Hf o x x' a E) as (Hd & Hs' & Hφ); [by apply (inv_done _ Hb w)|].
    pose proof (bquiet_waiter t _ _ _ _ Hb Ho Hx Hd Hs') as Hq.
    destruct (host_quiet t s _ HI Hq) as [HI' HG]. split_and!; [done|done|by apply HF| |].
    + rewrite get_set. done.
    + rewrite get_set. unfold bdone; simpl. by rewrite Ho, fn_same, Hd.
Qed.

Lemma unsleep_nil t x : m_sleepers x = [] -> m_sleepers (unsleep t x) = [].
Proof. intros E. unfold unsleep; simpl. by rewrite E. Qed.

(** The answer of a wait: true only when completed, and always when unbounded. *)
Definition answer (timeout : Z) (r d : bool) : Prop :=
  (r = true -> d = true) /\ (timeout = forever -> r = true).

Lemma waiter_wait_spec t w c timeout (P : Σ -> Prop) :
  may_sleep L W t P -> stable W t P -> framed L t P ->
  triple W t (fun s => P s /\ waits_on t w c (get L s)) (waiter_wait L w t timeout)
    (fun r s => P s /\ waits_on t w c (get L s) /\ answer timeout r (bdone (get L s))).
Proof.
  intros Hwaits HP HF.
  assert (Hst : forall r, stable W t (fun s => P s /\ waits_on t w c (get L s) /\
                  answer timeout r (bdone (get L s)))).
  { intros r. apply (stable_with t P (fun b => waits_on t w c b /\ answer timeout r (bdone b))); [done|].
    intros b b' Hr [Hw [Ha Hb]]. split; [by eapply waits_on_rely|]. split; [|done].
    intros ->. by apply (rely_done _ _ _ Hr), Ha. }
  eapply triple_bind.
  { apply (with_waiter_spec _ t w c P _ (fun r d => r = true -> d = true)); [done..| |].
    - intros _ x x' a E Hx. destruct (m_done x) eqn:Ed; simplify_eq; rewrite ?Ed; [tauto|].
      simpl. rewrite Ed. naive_solver.
    - intros x. left. apply enabled_0. by destruct (m_done x). }
  intros [|].
  { eapply triple_pre; [apply (triple_ret _ _ (fun s => P s /\ waits_on t w c (get L s) /\
      answer timeout true (bdone (get L s)))); [apply Hst|done]|].
    intros s _ (? & ? & ?). split_and!; [done..|]. split; auto. }
  eapply triple_pre.
  - unfold cond_wait.
    apply (triple_iter _ _ _ (fun _ s => P s /\ waits_on t w c (get L s)));
      [intros _; apply stable_with; [done|apply waits_on_rely]|apply Hst|].
    intros _. eapply triple_conseq.
    + apply (with_waiter_spec _ t w c P _
        (fun r d => match r with inl _ => True | inr b => answer timeout b d end)); [done..| | |].
      { intros [|b]; [done|]. intros [? ?]. by split. }
      2: { intros x. destruct (asleep t x) eqn:Ea; [right; split; [done|]; by apply bool_decide_eq_true in Ea|].
           left. apply enabled_0. simpl. by destruct (m_done x). }
      intros o x x' a E Hx. unfold answer.
      destruct (negb (asleep t x) || Nat.eqb o o_spurious).
      * simpl in E. destruct (m_done x) eqn:Ed; simplify_eq/=; rewrite Ed.
        { split_and!; [done| |done|done]. intros _. by rewrite Hx. }
        { split_and!; [done|done|done]. }
      * destruct (Nat.eqb o o_timeout && negb (Z.eqb timeout forever)) eqn:Et; [|done].
        simplify_eq/=. apply andb_prop in Et as [_ Et]. apply negb_true_iff, Z.eqb_neq in Et.
        split_and!; [done| |done|done]. intros Ed. by rewrite Hx.
    + done.
    + intros [[]|b] s _; [intros (? & ? & _); by split|done].
  - intros s _ (? & ? & _). by split.
Qed.

Lemma stable_cand t (P : Σ -> Prop) c :
  stable W t P -> stable W t (fun s => P s /\ candidate (get L s) t = c).
Proof.
  intros HP. apply (stable_with t P (fun b => candidate b t = c)); [done|].
  intros b b' [Hr _ _]. congruence.
Qed.

Lemma stable_done t (P : Σ -> Prop) c :
  stable W t P ->
  stable W t (fun s => P s /\ candidate (get L s) t = c /\ bdone (get L s) = true).
Proof.
  intros HP. apply (stable_with t P (fun b => candidate b t = c /\ bdone b = true)); [done|].
  intros b b' [Hr _ Hd] [? ?]. split; [congruence|auto].
Qed.

Lemma free_candidate_spec t w (P : Σ -> Prop) (φ : lightweight_barrier -> Prop) :
  stable W t P -> framed L t P ->
  (forall b b', brely t b b' -> φ b -> φ b') ->
  (forall b, m_owner b <> Owner w -> φ b -> φ (with_candidate t None (with_heap w None b))) ->
  triple W t (fun s => P s /\ candidate (get L s) t = Some w /\ φ (get L s))
    (free_candidate L t)
    (fun _ s => P s /\ candidate (get L s) t = None /\ φ (get L s)).
Proof.
  intros HP HF Hφ Hfree. apply triple_modify.
  - apply (stable_with t P (fun b => candidate b t = Some w /\ φ b)); [done|].
    intros b b' Hr [? ?]. split; [destruct Hr; congruence|eauto].
  - apply (stable_with t P (fun b => candidate b t = None /\ φ b)); [done|].
    intros b b' Hr [? ?]. split; [destruct Hr; congruence|eauto].
  - intros s HI (Hs & Hc & Hb). simpl. rewrite Hc.
    pose proof (host_inv s HI) as Hbi. destruct (inv_cand _ Hbi t w Hc) as [_ Hne].
    destruct (host_quiet t s _ HI (bquiet_free t _ _ Hbi Hc)) as [HI' HG].
    split_and!; [done|done|apply HF; [done|by apply bquiet_free]| |]; rewrite get_set.
    + simpl. by rewrite fn_same.
    + by apply Hfree.
Qed.

(** What a thread knows after its compare_exchange on [m_owner]. *)
Definition after_cas (t cand : nat) (r : bool * owner) (b : lightweight_barrier) : Prop :=
  if r.1 then waits_on t cand None b
  else candidate b t = Some cand /\
       match r.2 with
       | kNoOwner => False
       | kCompleted => m_owner b = kCompleted
       | Owner w => m_owner b = Owner w
       end.

Lemma after_cas_rely t c r b b' : brely t b b' -> after_cas t c r b -> after_cas t c r b'.
Proof.
  intros Hr. unfold after_cas. destruct r as [[|] o]; simpl; [by apply waits_on_rely|].
  destruct Hr as [H1 H2 _]. intros [Hc Ho]. split; [congruence|].
  destruct o; [done| |]; rewrite H2; congruence.
Qed.

Lemma cas_owner_spec t c (P : Σ -> Prop) :
  stable W t P -> framed L t P ->
  triple W t (fun s => P s /\ candidate (get L s) t = Some c) (cas_owner L false t (Owner c))
    (fun r s => P s /\ after_cas t c r (get L s)).
Proof.
  intros HP HF. apply triple_act.
  - by apply stable_cand.
  - intros r. apply stable_with; [done|]. intros b b'. apply after_cas_rely.
  - intros s HI [Hs Hc]. simpl. by destruct (m_owner (get L s)).
  - intros o s s' r HI [Hs Hc] E. simpl in E. pose proof (host_inv s HI) as Hb.
    destruct (m_owner (get L s)) as [| |w] eqn:Ho; simplify_eq; rewrite ?get_set.
    + pose proof (bquiet_install t _ _ Hb Ho Hc) as Hq.
      destruct (host_quiet t s _ HI Hq) as [HI' HG]. split_and!; [done|done|by apply HF|].
      split; simpl; [done|]. by rewrite fn_same.
    + split_and!; [done|apply guar_refl|done|]. by split.
    + split_and!; [done|apply guar_refl|done|]. by split.
Qed.

Lemma alloc_candidate_spec t (P : Σ -> Prop) :
  stable W t P -> framed L t P ->
  triple W t (fun s => P s /\ candidate (get L s) t = None) (alloc_candidate L t)
    (fun c s => P s /\ candidate (get L s) t = Some c).
Proof.
  intros HP HF. apply triple_act; [by apply stable_cand|intros c; by apply stable_cand|done|].
  intros _ s s' c HI [Hs Hc] E. simpl in E. simplify_eq.
  pose proof (bquiet_alloc t _ (host_inv s HI) Hc) as Hq.
  destruct (host_quiet t s _ HI Hq) as [HI' HG]. split_and!; [done|done|by apply HF|].
  rewrite get_set. simpl. by rewrite fn_same.
Qed.

Definition wait_post (t : nat) (timeout : Z) (P : Σ -> Prop) (r : bool) (s : Σ) : Prop :=
  P s /\ candidate (get L s) t = None /\ answer timeout r (bdone (get L s)).

Lemma wait_post_stable t timeout P r :
  stable W t P -> stable W t (wait_post t timeout P r).
Proof.
  intros HP. apply (stable_with t P (fun b => candidate b t = None /\ answer timeout r (bdone b))); [done|].
  intros b b' [H1 H2 H3] [Hc [Ha Hb]]. split; [congruence|]. split; [auto|done].
Qed.

Lemma ret_done t timeout P :
  stable W t P ->
  triple W t (fun s => P s /\ candidate (get L s) t = None /\ bdone (get L s) = true)
    (Ret true) (wait_post t timeout P).
Proof.
  intros HP. apply triple_ret; [by apply stable_done|].
  intros s _ (? & ? & ?). split_and!; [done..|]. by split.
Qed.

Theorem wait_spec t timeout (P : Σ -> Prop) :
  may_sleep L W t P -> stable W t P -> framed L t P ->
  triple W t (fun s => P s /\ candidate (get L s) t = None) (wait L false t timeout)
    (wait_post t timeout P).
Proof.
  intros Hwaits HP HF. unfold wait. eapply triple_bind.
  { apply (triple_read t _ _ _ (fun o s => P s /\ candidate (get L s) t = None /\
        (o = kCompleted -> bdone (get L s) = true))).
    - by apply stable_cand.
    - intros o. apply (stable_with t P (fun b => candidate b t = None /\
        (o = kCompleted -> bdone b = true))); [done|].
      intros b b' [H1 _ H3] [? ?]. split; [congruence|auto].
    - intros s HI [Hs Hc]. split_and!; [done..|]. intros E. unfold bdone. by rewrite E. }
  assert (Hwait : triple W t (fun s => P s /\ candidate (get L s) t = None)
    (let! cand := alloc_candidate L t in
     let! '(ok, previous) := cas_owner L false t (Owner cand) in
     if ok : bool then waiter_wait L cand t timeout
     else match previous with
          | kCompleted => do! free_candidate L t in Ret true
          | Owner w => let! r := waiter_wait L w t timeout in
                       do! free_candidate L t in Ret r
          | kNoOwner => Crash Undefined
          end) (wait_post t timeout P)).
  { eapply triple_bind; [by apply alloc_candidate_spec|]. intros c.
    eapply triple_bind; [by apply cas_owner_spec|]. intros [[|] prev]; unfold after_cas; simpl.
    { eapply triple_conseq; [by apply (waiter_wait_spec t c None)|done|].
      intros r s _ (? & [_ ?] & ?). split_and!; done. }
    destruct prev as [| |w].
    - apply triple_absurd. by intros s _ (_ & _ & ?).
    - eapply triple_bind.
      + eapply triple_pre; [apply (free_candidate_spec t c P (fun b => bdone b = true)); [done..| |]|].
        * intros b b' [_ _ H3]. done.
        * intros b Hne. unfold bdone; simpl. destruct (m_owner b); [done|done|].
          rewrite fn_other; [done|congruence].
        * intros s HIs (? & ? & Ho). split_and!; [done..|]. unfold bdone. by rewrite Ho.
      + intros ?. by apply ret_done.
    - eapply triple_bind.
      + eapply triple_pre; [by apply (waiter_wait_spec t w (Some c))|].
        intros s _ (? & ? & ?). by split_and!.
      + intros r. eapply triple_bind.
        * eapply triple_pre; [apply (free_candidate_spec t c P (fun b => answer timeout r (bdone b)));
            [done..| |]|].
          -- intros b b' [_ _ H3] [? ?]. split; auto.
          -- intros b Hne [Ha Hb]. split; [|done]. intros ->. specialize (Ha eq_refl).
             unfold bdone in *; simpl. destruct (m_owner b); [done|done|].
             rewrite fn_other; [done|congruence].
          -- intros s _ (? & [? ?] & ?). by split_and!.
        * intros ?. apply triple_ret; [by apply wait_post_stable|done]. }
  intros [| |w].
  - eapply triple_pre; [exact Hwait|]. by intros s _ (? & ? & _).
  - eapply triple_pre; [by apply ret_done|]. intros s _ (? & ? & ?). split_and!; auto.
  - eapply triple_pre; [exact Hwait|]. by intros s _ (? & ? & _).
Qed.

(** complete() from a state where completing is what the host allows. *)
Theorem complete_spec t (P P' : Σ -> Prop) :
  stable W t P -> stable W t P' ->
  (forall s b, inv W s -> P s -> bcompletes t (get L s) b ->
     inv W (set L b s) /\ guar W t s (set L b s) /\ P' (set L b s)) ->
  triple W t P (complete L false t) (fun _ => P').
Proof.
  intros HP HP' Hc. unfold complete. eapply triple_bind.
  { apply (triple_act t _ _ _ (fun r s => if r.1 : bool then P' s else
      match r.2 with kNoOwner => False | kCompleted => P' s
                   | Owner w => P s /\ m_owner (get L s) = Owner w end)); [done| | |].
    - intros [[|] [| |w]]; try done; try (by intros s s' []).
      simpl. apply (stable_with t P (fun b => m_owner b = Owner w)); [done|].
      intros b b' [_ H2 _] E. rewrite H2; congruence.
    - intros s HI Hs. simpl. by destruct (m_owner (get L s)).
    - intros o s s' r HI Hs E. simpl in E. pose proof (host_inv s HI) as Hb.
      destruct (m_owner (get L s)) as [| |w] eqn:Ho; injection E as <- <-; simpl.
      + apply (Hc s); [done..|]. by apply bcompletes_owner.
      + split_and!; [done|apply guar_refl|].
        destruct (Hc s (get L s) HI Hs) as (_ & _ & HP2); [|by rewrite set_get in HP2].
        split_and!; [done| |done|by intros]. unfold bdone. by rewrite Ho.
      + split_and!; [done|apply guar_refl|done|done]. }
  intros [[|] [| |w]]; simpl; try (by apply triple_ret);
    [by apply triple_absurd; intros ? ? []|].
  apply triple_guarded; [|done| |].
  - apply (stable_with t P (fun b => m_owner b = Owner w)); [done|].
    intros b b' [_ H2 _] E. rewrite H2; congruence.
  - intros s HI [Hs Ho]. left. apply enabled_0.
    by destruct (inv_owner _ (host_inv s HI) w Ho) as [x ->].
  - intros o s HI [Hs Ho]. pose proof (host_inv s HI) as Hb.
    destruct (inv_owner _ Hb w Ho) as [x Hx]. rewrite Hx.
    apply Hc; [done..|]. by eapply bcompletes_waiter.
Qed.

Lemma was_completed_spec t (P : Σ -> Prop) :
  stable W t P -> framed L t P ->
  triple W t (fun s => P s /\ candidate (get L s) t = None) (was_completed L)
    (fun r s => P s /\ candidate (get L s) t = None /\ (r = true -> bdone (get L s) = true)).
Proof.
  intros HP HF. unfold was_completed.
  assert (Hst : forall r : bool, stable W t (fun s => P s /\ candidate (get L s) t = None /\
             (r = true -> bdone (get L s) = true))).
  { intros r. apply (stable_with t P (fun b => candidate b t = None /\ (r = true -> bdone b = true)));
      [done|]. intros b b' [H1 _ H3] [? ?]. split; [congruence|auto]. }
  eapply triple_bind.
  { apply (triple_read t _ _ _ (fun o s => P s /\ candidate (get L s) t = None /\
        match o with kNoOwner => True | kCompleted => bdone (get L s) = true
                   | Owner w => m_owner (get L s) = Owner w end)).
    - by apply stable_cand.
    - intros o. apply (stable_with t P (fun b => candidate b t = None /\
        match o with kNoOwner => True | kCompleted => bdone b = true
                   | Owner w => m_owner b = Owner w end)); [done|].
      intros b b' [H1 H2 H3] [? Ho]. split; [congruence|].
      destruct o; [done|auto|]. rewrite H2; congruence.
    - intros s HI [Hs Hc]. split_and!; [done..|].
      unfold bdone. by destruct (m_owner (get L s)). }
  intros [| |w].
  - eapply triple_pre; [apply (triple_ret _ _ (fun s => P s /\ candidate (get L s) t = None /\
      (false = true -> bdone (get L s) = true))); [apply Hst|done]|].
    by intros s _ (? & ? & _).
  - eapply triple_pre; [apply (triple_ret _ _ (fun s => P s /\ candidate (get L s) t = None /\
      (true = true -> bdone (get L s) = true))); [apply Hst|done]|].
    intros s _ (? & ? & ?). by split_and!.
  - eapply triple_conseq.
    + apply (with_waiter_spec _ t w None P _ (fun r d => r = true -> d = true)); [done..| |].
      * intros _ x x' a E Hx. simplify_eq. naive_solver.
      * intros x. left. by apply enabled_0.
    + intros s _ (? & ? & ?). by split_and!.
    + intros r s _ (? & [_ ?] & ?). by split_and!.
Qed.
End spec.

End Barrier.

(** * A process that shares one barrier

    Any number of threads, each of which makes any sequence of calls. *)
Module BarrierProcess.
Import Barrier.

Inductive call := CallWait (timeout : Z) | CallComplete | CallWasCompleted.
Inductive event :=
| Completing (t : nat)
| Completed (t : nat)
| Waited (t : nat) (timeout : Z) (r : bool)
| Tested (t : nat) (r : bool).

Record process := Process { bar : lightweight_barrier; log : list event }.
Definition init : process := Process make_barrier [].

Definition bar_lens : lens process lightweight_barrier.
Proof.
  refine {| get := bar; set b s := Process b (log s) |}; by intros; try destruct s.
Defined.
Definition emit (e : event) : prog process unit :=
  modify (fun s => Process (bar s) (e :: log s)).

Section threads.
Context (weak : bool).
Definition run_call (t : nat) (c : call) : prog process unit :=
  match c with
  | CallWait timeout =>
      let! r := wait bar_lens weak t timeout in emit (Waited t timeout r)
  | CallComplete =>
      do! emit (Completing t) in do! complete bar_lens weak t in emit (Completed t)
  | CallWasCompleted =>
      let! r := was_completed bar_lens in emit (Tested t r)
  end.

Definition start (scripts : list (list call)) : cfg process :=
  (init, imap (fun t cs => each (run_call t) cs) scripts).
End threads.

Definition log_ok (l : list event) : Prop :=
  forall t timeout r, Waited t timeout r ∈ l ->
    (r = true -> exists u, Completing u ∈ l) /\ (timeout = forever -> r = true).
Definition test_ok (l : list event) : Prop :=
  forall t, Tested t true ∈ l -> exists u, Completing u ∈ l.

Record good (s : process) : Prop := {
  good_bar : barrier_inv (bar s);
  good_done : bdone (bar s) = true -> exists u, Completing u ∈ log s;
  good_completed u : Completed u ∈ log s -> bdone (bar s) = true;
  good_log : log_ok (log s);
  good_test : test_ok (log s)
}.

Record keeps (t : nat) (s s' : process) : Prop := {
  keeps_bar : brely t (bar s) (bar s');
  keeps_log e : e ∈ log s -> e ∈ log s'
}.

Definition protocol : Conc.protocol process.
Proof.
  refine (Protocol good keeps (fun t s => sleeping t (bar s)) _).
  intros t. split; [by split|]. intros x y z [H1 H2] [H3 H4]. split; [by transitivity (bar y)|auto].
Defined.

#[export] Instance process_host : host bar_lens protocol.
Proof.
  split.
  - intros s Hs. apply Hs.
  - intros t s s' H. apply H.
  - intros t s b Hs (Hb & Hd & Hr). split.
    + split; simpl; [done| | |apply Hs|apply Hs].
      * rewrite Hd. apply Hs.
      * rewrite Hd. apply Hs.
    + intros u Hu. split; simpl; [by apply Hr|done].
Qed.

(** Between two calls a thread holds no candidate. *)
Definition idle (t : nat) (s : process) : Prop := candidate (bar s) t = None.

Lemma idle_stable t : stable protocol t (idle t).
Proof. intros s s' Hs _ _ [[H _ _] _]. unfold idle in *. congruence. Qed.

Lemma log_stable t e : stable protocol t (fun s => e ∈ log s).
Proof. intros s s' Hs _ _ [_ H]. auto. Qed.

(** Appending an event that agrees with the barrier. *)
Lemma emit_spec t (P : process -> Prop) e :
  stable protocol t P ->
  (forall s, good s -> P s -> idle t s /\ good (Process (bar s) (e :: log s))) ->
  triple protocol t P (emit e) (fun _ => idle t).
Proof.
  intros HP He. apply triple_modify; [done|apply idle_stable|].
  intros s Hs HPs. destruct (He s Hs HPs) as [Hi Hg]. split_and!; [done| |done].
  intros u Hu. split; [done|]. intros e'. by apply list_elem_of_further.
Qed.

Lemma good_emit s e :
  good s -> (forall u, e = Completed u -> bdone (bar s) = true) ->
  (forall t to r, e = Waited t to r -> answer to r (bdone (bar s))) ->
  (forall t, e = Tested t true -> bdone (bar s) = true) ->
  good (Process (bar s) (e :: log s)).
Proof.
  intros [Hb Hd Hc Hl Ht] H1 H2 H3.
  assert (Hin : (exists u, Completing u ∈ log s) -> exists u, Completing u ∈ e :: log s).
  { intros [u ?]. exists u. by apply list_elem_of_further. }
  split; simpl; [done| | | |].
  - intros E. apply Hin, Hd, E.
  - intros u [E|?]%elem_of_cons; [by eapply H1|by eapply Hc].
  - intros t to r [E|Hi]%elem_of_cons.
    + destruct (H2 _ _ _ (eq_sym E)) as [Ha Hb']. split; [|done]. intros Hr. by apply Hin, Hd, Ha.
    + destruct (Hl t to r Hi) as [Ha Hb']. split; [|done]. intros Hr. by apply Hin, Ha.
  - intros t [E|?]%elem_of_cons; [|by eapply Hin, Ht]. apply Hin, Hd. by eapply H3.
Qed.

Lemma run_call_spec t c :
  triple protocol t (idle t) (run_call false t c) (fun _ => idle t).
Proof.
  assert (HT : stable protocol t (fun _ => True)) by done.
  assert (HF : framed bar_lens t (fun _ => True)) by done.
  destruct c as [to| |]; simpl.
  - eapply triple_bind.
    { eapply triple_pre; [apply (wait_spec t to (fun _ => True)); [by intros s _ _|done..]|done]. }
    intros r. apply emit_spec; [by apply wait_post_stable|].
    intros s Hs (_ & Hc & Ha). split; [done|]. apply good_emit; try done.
    by intros ??? [= _ <- <-].
  - eapply triple_bind.
    { apply (triple_modify _ _ _ (fun _ s => idle t s /\ Completing t ∈ log s)).
      - apply idle_stable.
      - intros s s' [H1 H2] ? ? ?. split; [by eapply idle_stable|by eapply log_stable].
      - intros s Hs Hi. split_and!; [by apply good_emit| |done|apply list_elem_of_here].
        intros u Hu. split; [done|]. intros e'. by apply list_elem_of_further. }
    intros ?. eapply triple_bind.
    { apply (complete_spec t (fun s => idle t s /\ Completing t ∈ log s)
               (fun s => idle t s /\ bdone (bar s) = true)).
      - intros s s' [H1 H2] ? ? ?. split; [by eapply idle_stable|by eapply log_stable].
      - intros s s' [H1 H2] ? ? H3. split; [by eapply idle_stable|]. by apply H3.
      - intros s b Hs [H1 H2] (Hb & Hd & Hc & Hr). destruct Hs as [_ _ Hco Hl Ht].
        split_and!; [|by split; [apply Hr|]|by unfold idle in *; simpl in *; congruence|done].
        split; simpl; [done|by exists t|done|done|done]. }
    intros ?. apply emit_spec.
    + intros s s' [H1 H2] ? ? H3. split; [by eapply idle_stable|]. by apply H3.
    + intros s Hs [Hi Hd]. split; [done|]. by apply good_emit.
  - eapply triple_bind.
    { eapply triple_pre; [apply (was_completed_spec t (fun _ => True)); done|done]. }
    intros r. apply emit_spec.
    + intros s s' (_ & H1 & H2) ? ? H3. split_and!; [done| |].
      * by eapply (idle_stable t s s').
      * intros Hr. by apply H3, H2.
    + intros s Hs (_ & Hc & Ha). split; [done|]. apply good_emit; try done.
      intros ? [= _ ->]. auto.
Qed.

Lemma process_sound scripts c :
  reach (start false scripts) c -> sound protocol init idle c.
Proof.
  apply (rg_sound idle idle).
  - split; simpl; [apply make_barrier_inv|done| | |].
    + by intros ? ?%not_elem_of_nil.
    + by intros ??? ?%not_elem_of_nil.
    + by intros ? ?%not_elem_of_nil.
  - done.
  - intros t p Hp. rewrite list_lookup_imap in Hp.
    destruct (scripts !! t) as [cs|]; simplify_eq/=. apply triple_each; [apply idle_stable|].
    intros c' _. apply run_call_spec.
Qed.




(** When every thread has finished, the only waiter object still allocated
    is the one the barrier owns, which its destructor deletes. *)
Theorem barrier_no_leak scripts c w x :
  reach (start false scripts) c ->
  (forall t, t < length c.2 -> thread_done c t = true) ->
  heap (bar c.1) w = Some x -> m_owner (bar c.1) = Owner w.
Proof.
  intros Hc%process_sound Hd Hx. pose proof (sound_inv Hc) as [Hb _ _ _ _].
  destruct (inv_leak _ Hb w x Hx) as [?|[t Ht]]; [done|].
  enough (candidate (bar c.1) t = None) by congruence.
  destruct (decide (t < length c.2)).
  - by apply (sound_post Hc), Hd.
  - destruct (sound_idle Hc t) as [[Hk _ _] _]; [lia|]. by rewrite Hk.
Qed.

(** The waiter sleeps first, is completed, and is about to wake. *)
Definition two_threads : cfg process :=
  play (go 0 7 ++ go 1 9) (start false [[CallWait forever]; [CallComplete]]).


(** Both threads wait; the second one's candidate is freed. *)
Definition both_done : cfg process :=
  play (go 0 7 ++ go 1 9 ++ go 2 9 ++ go 0 9 ++ go 1 20)
    (start false [[CallWait forever]; [CallWait 10]; [CallComplete]]).

Theorem barrier_no_leak_witness :
  heap (bar both_done.1) 0 = Some (Waiter true []) /\ heap (bar both_done.1) 1 = None /\
  m_owner (bar both_done.1) = Owner 0.
Proof.
  assert (Hx : heap (bar both_done.1) 0 = Some (Waiter true [])) by (vm_compute; reflexivity).
  split; [exact Hx|]. split; [vm_compute; reflexivity|].
  apply (barrier_no_leak [[CallWait forever]; [CallWait 10]; [CallComplete]] both_done 0 (Waiter true [])).
  - apply play_reach, reach_here.
  - intros t Ht. do 3 (destruct t as [|t]; [vm_compute; reflexivity|]).
    exfalso. revert Ht. vm_compute. lia.
  - exact Hx.
Defined.

(** Where compare_exchange_weak may fail spuriously, complete() can be lost:
    it returns, and a thread that waits for ever goes to sleep on a barrier that
    nobody is left to complete. *)
Theorem barrier_spurious_completion_lost :
  exists c, reach (start true [[CallWait forever]; [CallComplete]]) c /\
    Completed 1 ∈ log c.1 /\ thread_done c 1 = true /\
    bdone (bar c.1) = false /\ sleeping 0 (bar c.1) /\ thread_done c 0 = false.
Proof.
  exists (play (go 1 2 ++ [(1, o_spurious)] ++ go 1 6 ++ go 0 9)
            (start true [[CallWait forever]; [CallComplete]])).
  split; [apply play_reach, reach_here|]. vm_compute. split_and!; try done; [by left|].
  exists 0, (Waiter false [0]). split; [done|by left].
Qed.

(** Where compare_exchange_weak may fail spuriously, wait() can call through
    the null pointer it got back as the previous owner. *)
Theorem barrier_spurious_null_call :
  exists c, reach (start true [[CallWait forever]]) c /\ thread_fault c 0 = Some Undefined.
Proof.
  exists (play (go 0 4 ++ replicate 3 (0, o_spurious)) (start true [[CallWait forever]])).
  split; [apply play_reach, reach_here|]. by vm_compute.
Qed.

End BarrierProcess.
