(* ===== verification/Operation.v ===== *)
(** * Operation: include/xdispatch/operation.h, src/operation.cpp, src/barrier_operation.cpp

    What is executed: operations and parameterized operations behind shared
    pointers, the overloads that make them from pointers, functions and member
    functions, and the operation that is a barrier.  What user code does is a
    parameter: what a function, the member function of an object and an operation
    the user has derived do to the state of the program. *)
From S2P Require Import Prelude Conc LightweightBarrier.

Module Operation.

Section operations.
(** [Params] are the parameters, unit for class operation itself; objects are told
    apart by their address. *)
Context {State Params Func Member Derived : Type}.
Context (call_func : Func -> Params -> State -> State).
Context (call_member : nat -> Member -> Params -> State -> State).
Context (call_derived : Derived -> Params -> State -> State).

(** function_operation and function_parameterized_operation copy the function and keep
    it const; member_operation and member_parameterized_operation keep the object's
    address. *)
Inductive parameterized_operation :=
| function_parameterized_operation (m_function : Func)
| member_parameterized_operation (m_obj : nat) (m_func : Member)
| derived_operation (d : Derived).

(** The operations std::make_shared has allocated, and a shared pointer to one. *)
#[local] Abbreviation heap := (list parameterized_operation).
Definition operation_ptr : Type := option nat.
Definition make_shared (o : parameterized_operation) (h : heap) : heap * operation_ptr :=
  (h ++ [o], Some (length h)).

(** operator()(Params...) *)
Definition call_operation (o : parameterized_operation) (p : Params) (s : State) : State :=
  match o with
  | function_parameterized_operation f => call_func f p s
  | member_parameterized_operation obj f => call_member obj f p s
  | derived_operation d => call_derived d p s
  end.

(** The overloads of make(), make_operation and make_iteration_operation: what is
    convertible to a pointer is taken for one. *)
Inductive argument := Pointer (op : operation_ptr) | Function (f : Func) | MemberOf (object : nat) (f : Member).
Definition make (a : argument) (h : heap) : heap * operation_ptr :=
  match a with
  | Pointer op => (h, op)
  | Function f => make_shared (function_parameterized_operation f) h
  | MemberOf object f => make_shared (member_parameterized_operation object f) h
  end.
Definition make_operation (a : argument) (h : heap) : heap * operation_ptr :=
  match a with
  | Pointer op => (h, op)
  | Function f => make_shared (function_parameterized_operation f) h
  | MemberOf object f => make_shared (member_parameterized_operation object f) h
  end.
Definition make_iteration_operation (a : argument) (h : heap) : heap * operation_ptr := make a h.

(** queue_operation_with_d does nothing. *)
Definition queue_operation_with_d (o : parameterized_operation) (queue : nat) (s : State) : State := s.
(** execute_operation_on_this_thread, on what a pointer refers to. *)
Definition execute_operation_on_this_thread (op : operation_ptr) (p : Params) (h : heap) (s : State) : fault + State :=
  match op with
  | Some i => match h !! i with Some o => inr (call_operation o p s) | None => inl Undefined end
  | None => inl Undefined
  end.

(** What the user means by an argument. *)
Definition meaning (a : argument) (p : Params) (h : heap) (s : State) : fault + State :=
  match a with
  | Pointer op => execute_operation_on_this_thread op p h s
  | Function f => inr (call_func f p s)
  | MemberOf object f => inr (call_member object f p s)
  end.

Fixpoint execute_all (ops : list (operation_ptr * Params)) (h : heap) (s : State) : fault + State :=
  match ops with
  | [] => inr s
  | (op, p) :: ops =>
      match execute_operation_on_this_thread op p h s with inr s => execute_all ops h s | inl e => inl e end
  end.
Fixpoint mean_all (args : list (argument * Params)) (h : heap) (s : State) : fault + State :=
  match args with
  | [] => inr s
  | (a, p) :: args => match meaning a p h s with inr s => mean_all args h s | inl e => inl e end
  end.
Fixpoint make_all (args : list (argument * Params)) (h : heap) : heap * list (operation_ptr * Params) :=
  match args with
  | [] => (h, [])
  | (a, p) :: args =>
      let (h, op) := make a h in let (h, ops) := make_all args h in (h, (op, p) :: ops)
  end.

Definition allocated (h : heap) (op : operation_ptr) : Prop := exists i, op = Some i /\ i < length h.
Definition valid (h : heap) (a : argument) : Prop :=
  match a with Pointer op => allocated h op | _ => True end.

Lemma execute_grows op p h h' s : allocated h op ->
  execute_operation_on_this_thread op p (h ++ h') s = execute_operation_on_this_thread op p h s.
Proof. intros (i & -> & Hi). simpl. by rewrite lookup_app_l. Qed.

Lemma make_grows a h : exists h', (make a h).1 = h ++ h' /\ (valid h a -> allocated (h ++ h') (make a h).2).
Proof.
  destruct a as [op|f|obj f]; simpl.
  - exists []. by rewrite app_nil_r.
  - eexists. split; [done|]. intros _. eexists. split; [done|]. rewrite length_app. simpl. lia.
  - eexists. split; [done|]. intros _. eexists. split; [done|]. rewrite length_app. simpl. lia.
Qed.

Lemma make_means a p h s : execute_operation_on_this_thread (make a h).2 p (make a h).1 s = meaning a p h s.
Proof. destruct a; simpl; [done|by rewrite list_lookup_middle..]. Qed.

Lemma meaning_grows a p h h' s : valid h a -> meaning a p (h ++ h') s = meaning a p h s.
Proof. destruct a; simpl; [apply execute_grows|done..]. Qed.

Lemma make_all_grows args : forall h, exists h', (make_all args h).1 = h ++ h'.
Proof.
  induction args as [|[a p] args IH]; intros h; simpl; [exists []; by rewrite app_nil_r|].
  destruct (make_grows a h) as (h1 & E1 & _). destruct (make a h) as [h2 op]. simpl in E1. subst h2.
  destruct (IH (h ++ h1)) as (h3 & E3). destruct (make_all args (h ++ h1)) as [h4 ops]. simpl in *.
  exists (h1 ++ h3). by rewrite app_assoc.
Qed.

Lemma mean_all_grows args h h' : forall s, Forall (fun x => valid h x.1) args -> mean_all args (h ++ h') s = mean_all args h s.
Proof.
  induction args as [|[a p] args IH]; intros s Hv; [done|]. simpl. apply list.Forall_cons in Hv as [H1 H2]. simpl in H1.
  rewrite meaning_grows by done. destruct (meaning a p h s); [done|]. by apply IH.
Qed.

Lemma valid_grows h h' a : valid h a -> valid (h ++ h') a.
Proof.
  destruct a; simpl; [|done..]. intros (i & -> & Hi). exists i. split; [done|]. rewrite length_app. lia.
Qed.

(** C33: Functions, member functions and operations come back out of the operations they
    are made into: executing what was made of any list of arguments, with their
    parameters and in their order, does what was meant, however many operations are
    made in between; a pointer is passed on as it is, without a new operation. *)
Theorem operations_roundtrip args h s :
  Forall (fun x => valid h x.1) args ->
  execute_all (make_all args h).2 (make_all args h).1 s = mean_all args h s /\
  (Forall (fun x => match x.1 with Pointer _ => True | _ => False end) args -> (make_all args h).1 = h).
Proof.
  intros Hv. split.
  - revert h s Hv. induction args as [|[a p] args IH]; intros h s Hv; [done|].
    apply list.Forall_cons in Hv as [H1 H2]. simpl in *.
    destruct (make_grows a h) as (h1 & E1 & Ha). specialize (Ha H1). pose proof (make_means a p h s) as Hm.
    destruct (make a h) as [h2 op]. simpl in *. subst h2. specialize (IH (h ++ h1)).
    destruct (make_all_grows args (h ++ h1)) as (h3 & E3). destruct (make_all args (h ++ h1)) as [h4 ops]. simpl in *.
    subst h4. rewrite execute_grows by done. rewrite Hm. destruct (meaning a p h s) as [|s']; [done|].
    rewrite IH; [by apply mean_all_grows|]. eapply list.Forall_impl; [exact H2|]. intros x. apply valid_grows.
  - intros Hp. clear Hv. induction args as [|[a p] args IH]; [done|]. apply list.Forall_cons in Hp as [H1 H2]. simpl in *.
    destruct a; [|done..]. simpl. specialize (IH H2). by destruct (make_all args h).
Qed.
End operations.

(** ** barrier_operation *)
Section barrier.
Context {Σ : Type} (L : lens Σ Barrier.lightweight_barrier) (weak : bool).

Definition wait (t : nat) (timeout : Z) : prog Σ bool := Barrier.wait L weak t timeout.
Definition has_passed : prog Σ bool := Barrier.was_completed L.
(** operator()() *)
Definition call_barrier (t : nat) : prog Σ unit := Barrier.complete L weak t.
End barrier.
Definition barrier_operation : Type := Barrier.lightweight_barrier.

(** ** Witnesses *)
(** Functions that add, members that multiply and operations that set. *)
Definition doing (ops : list (argument * nat)) (h : list parameterized_operation) (s : nat) : fault + nat :=
  execute_all (State := nat) (Params := nat) (Func := nat) (Member := nat) (Derived := nat)
    (fun f p s => s + f * p) (fun obj m p s => s * m + obj + p) (fun d p s => d + p)
    (make_all ops h).2 (make_all ops h).1 s.

Lemma operations_roundtrip_witness :
  doing [(Function 3, 2); (Pointer (Some 0), 1); (MemberOf 5 2, 4); (Function 1, 1)] [derived_operation 10] 7 = inr (((10 + 1) * 2 + 5 + 4) + 1).
Proof.
  unfold doing. etransitivity;
    [apply (operations_roundtrip (State := nat) (Params := nat) (Func := nat) (Member := nat) (Derived := nat))|reflexivity].
  repeat constructor. exists 0. by split; [|simpl; lia].
Defined.
End Operation.
