(* ===== verification/Cancelable.v ===== *)
(** * Cancelable: src/cancelable.cpp, include/xdispatch/impl/cancelable.h

    The guard that a timer, a notifier or a signal puts around each call of its
    handler, so that disabling it waits for a call that is under way. *)
From S2P Require Import Prelude Conc LightweightBarrier.
Import Barrier.

Module Cancel.

Inductive active_state := active_disabled | active_enabled | active_running.

#[export] Instance active_state_eq : EqDecision active_state.
Proof. solve_decision. Defined.

(** [current_c t] says whether the thread_local set of thread [t] holds this
    object. *)
Record cancelable := Cancelable {
  m_active : active_state;
  m_barrier : lightweight_barrier;
  current_c : nat -> bool
}.

Definition make_cancelable : cancelable :=
  Cancelable active_enabled make_barrier (fun _ => false).

Definition with_active (a : active_state) (c : cancelable) : cancelable :=
  Cancelable a (m_barrier c) (current_c c).
Definition with_barrier (b : lightweight_barrier) (c : cancelable) : cancelable :=
  Cancelable (m_active c) b (current_c c).
Definition with_current (t : nat) (x : bool) (c : cancelable) : cancelable :=
  Cancelable (m_active c) (m_barrier c) (<[t := x]> (current_c c)).

Section code.
Context {Σ : Type} (L : lens Σ cancelable).
Context (weak : bool).

Definition barrier_lens : lens Σ lightweight_barrier.
Proof.
  refine {| get s := m_barrier (get L s);
            set b s := set L (with_barrier b (get L s)) s |}.
  - intros b s. by rewrite get_set.
  - intros s. destruct (get L s) eqn:E. unfold with_barrier; simpl. by rewrite <- E, set_get.
  - intros b b' s. by rewrite get_set, set_set.
Defined.

(** The thread_local set is seen by its own thread only, so that its update is
    part of the exchange next to it. *)
Definition enter (t : nat) : prog Σ bool :=
  atomic (fun s =>
    let c := get L s in
    match m_active c with
    | active_enabled => (set L (with_current t true (with_active active_running c)) s, true)
    | _ => (s, false)
    end).

Definition leave (t : nat) : prog Σ unit :=
  let! ok := atomic (fun s =>
    let c := with_current t false (get L s) in
    match m_active c with
    | active_running => (set L (with_active active_enabled c) s, true)
    | _ => (set L c s, false)
    end) in
  if ok : bool then Ret tt else complete barrier_lens weak t.

Definition disable (t : nat) : prog Σ unit :=
  let! recursion := read (fun s => current_c (get L s) t) in
  if recursion : bool then
    modify (fun s => set L (with_active active_disabled (get L s)) s)
  else
    let! current := atomic (fun s =>
      (set L (with_active active_disabled (get L s)) s, m_active (get L s))) in
    match current with
    | active_running => let! _ := wait barrier_lens weak t forever in Ret tt
    | _ => Ret tt
    end.

(** cancelable_scope scope(c); if (scope) body; *)
Definition cancelable_scope (t : nat) (body : prog Σ unit) : prog Σ bool :=
  let! active := enter t in
  if active : bool then do! body in do! leave t in Ret true else Ret false.
End code.

(** ** The invariant of a cancelable *)
Record cancel_inv (c : cancelable) : Prop := {
  cinv_barrier : barrier_inv (m_barrier c);
  cinv_one t u : current_c c t = true -> current_c c u = true -> t = u;
  cinv_enabled t : m_active c = active_enabled -> current_c c t = false;
  cinv_done t : bdone (m_barrier c) = true -> m_active c = active_disabled /\ current_c c t = false
}.

(** Nobody is inside, and nobody can enter any more. *)
Definition quiet (c : cancelable) : Prop :=
  m_active c = active_disabled /\ forall t, current_c c t = false.

(** What a thread relies on: its own membership, and that disabling is for ever. *)
Record crely (t : nat) (c c' : cancelable) : Prop := {
  crely_barrier : brely t (m_barrier c) (m_barrier c');
  crely_current : current_c c' t = current_c c t;
  crely_disabled : m_active c = active_disabled -> m_active c' = active_disabled;
  crely_quiet u : m_active c = active_disabled -> current_c c u = false -> current_c c' u = false
}.

#[export] Instance crely_pre t : PreOrder (crely t).
Proof.
  split; [by split|]. intros x y z [H1 H2 H3 H4] [H5 H6 H7 H8].
  split; [by transitivity (m_barrier y)|congruence|auto|auto].
Qed.

Lemma crely_quiet_all t c c' : crely t c c' -> quiet c -> quiet c'.
Proof. intros [_ _ Hd Hq] [Ha Hc]. split; [auto|]. intros u. by apply Hq. Qed.

Lemma make_cancelable_inv : cancel_inv make_cancelable.
Proof. split; [apply make_barrier_inv|done|done|done]. Qed.

(** The steps of a cancelable, each keeping the invariant and the rely of the
    other threads. *)
Definition cstep_ok (t : nat) (c c' : cancelable) : Prop :=
  cancel_inv c' /\ forall u, u <> t -> crely u c c'.

Lemma enter_ok t c :
  cancel_inv c -> m_active c = active_enabled ->
  cstep_ok t c (with_current t true (with_active active_running c)).
Proof.
  intros [Hb H1 He Hd] Ha. assert (Hn : forall u, current_c c u = false) by (intros u; by apply He).
  split.
  - split; simpl; [done| |done|].
    + intros u v Hu Hv. fn_cases; try done; rewrite Hn in *; done.
    + intros u Hbd. destruct (Hd u Hbd). congruence.
  - intros u Hu. split; simpl; [done|by rewrite fn_other|congruence|congruence].
Qed.

Lemma leave_enabled_ok t c :
  cancel_inv c -> current_c c t = true -> m_active c = active_running ->
  cstep_ok t c (with_active active_enabled (with_current t false c)).
Proof.
  intros [Hb H1 He Hd] Ht Ha. split.
  - split; simpl; [done| | |].
    + intros u v Hu Hv. fn_cases; try done. by apply H1.
    + intros u _. fn_cases; [done|]. destruct (current_c c u) eqn:E; [|done].
      by destruct n; apply H1.
    + intros u Hbd. destruct (Hd u Hbd). congruence.
  - intros u Hu. split; simpl; [done|by rewrite fn_other|congruence|congruence].
Qed.

Lemma leave_disabled_ok t c :
  cancel_inv c -> current_c c t = true -> m_active c <> active_running ->
  cstep_ok t c (with_current t false c) /\ quiet (with_current t false c).
Proof.
  intros [Hb H1 He Hd] Ht Ha.
  assert (Hdis : m_active c = active_disabled).
  { destruct (m_active c) eqn:E; [done| |done]. specialize (He t eq_refl). congruence. }
  split; [split|].
  - split; simpl; [done| | |].
    + intros u v Hu Hv. fn_cases; try done. by apply H1.
    + intros u. congruence.
    + intros u Hbd. destruct (Hd u Hbd). by fn_cases.
  - intros u Hu. split; simpl; [done|by rewrite fn_other|done|].
    intros v _ Hv. by fn_cases.
  - split; simpl; [done|]. intros u. fn_cases; [done|].
    destruct (current_c c u) eqn:E; [|done]. by destruct n; apply H1.
Qed.

Lemma disable_ok t c : cancel_inv c -> cstep_ok t c (with_active active_disabled c).
Proof.
  intros [Hb H1 He Hd]. split.
  - split; simpl; [done|done|done|]. intros u Hbd. by destruct (Hd u Hbd).
  - intros u Hu. by split.
Qed.

Lemma barrier_quiet_ok t c b :
  cancel_inv c -> bquiet t (m_barrier c) b -> cstep_ok t c (with_barrier b c).
Proof.
  intros [Hb H1 He Hd] (Hb' & Hdd & Hr). split.
  - split; simpl; [done|done|done|]. rewrite Hdd. done.
  - intros u Hu. split; simpl; [by apply Hr|done|done|done].
Qed.

Lemma barrier_completes_ok t c b :
  cancel_inv c -> quiet c -> bcompletes t (m_barrier c) b -> cstep_ok t c (with_barrier b c).
Proof.
  intros [Hb H1 He Hd] [Ha Hc] (Hb' & Hdd & _ & Hr). split.
  - split; simpl; [done|done|done|]. intros u _. auto.
  - intros u Hu. split; simpl; [by apply Hr|done|done|done].
Qed.

(** ** Specifications, for every state that embeds a cancelable *)
Class chost {Σ} (L : lens Σ cancelable) (W : protocol Σ) : Prop := {
  chost_inv s : inv W s -> cancel_inv (get L s);
  chost_rely t s s' : rely W t s s' -> crely t (get L s) (get L s');
  chost_quiet t s b : inv W s -> bquiet t (m_barrier (get L s)) b ->
    inv W (set L (with_barrier b (get L s)) s) /\ guar W t s (set L (with_barrier b (get L s)) s)
}.

#[export] Instance chost_host {Σ} (L : lens Σ cancelable) W :
  chost L W -> host (barrier_lens L) W.
Proof.
  intros H. split; simpl.
  - intros s Hs. by apply (chost_inv s Hs).
  - intros t s s' Hr. by apply (chost_rely t s s').
  - intros t s b. apply chost_quiet.
Qed.

End Cancel.

(** * A process that shares one cancelable

    Threads run a handler inside a cancelable_scope, which may itself disable
    the cancelable, or disable it from outside. *)
Module CancelProcess.
Import Cancel.

Inductive call := Run (inner : bool) | Disable.
Inductive event :=
| HStart (t : nat)
| HEnd (t : nat)
| Skipped (t : nat)
| Disabled (t : nat)
| DisabledInside (t : nat).

#[export] Instance event_eq : EqDecision event.
Proof. solve_decision. Defined.

Record process := Process { can : cancelable; log : list event }.
Definition init : process := Process make_cancelable [].

Definition can_lens : lens process cancelable.
Proof.
  refine {| get := can; set b s := Process b (log s) |}; by intros; try destruct s.
Defined.
Definition emit (e : event) : prog process unit :=
  modify (fun s => Process (can s) (e :: log s)).

Section threads.
Context (weak : bool).
Definition handler (t : nat) (inner : bool) : prog process unit :=
  do! emit (HStart t) in
  do! (if inner then do! disable can_lens weak t in emit (DisabledInside t) else Ret tt) in
  emit (HEnd t).

Definition run_call (t : nat) (c : call) : prog process unit :=
  match c with
  | Run inner =>
      let! r := cancelable_scope can_lens weak t (handler t inner) in
      if r : bool then Ret tt else emit (Skipped t)
  | Disable => do! disable can_lens weak t in emit (Disabled t)
  end.

Definition start (scripts : list (list call)) : cfg process :=
  (init, imap (fun t cs => each (run_call t) cs) scripts).
End threads.

(** Whether the handler is active in thread [t], by the log (latest event first). *)
Fixpoint active_in (t : nat) (l : list event) : bool :=
  match l with
  | [] => false
  | HStart u :: l => if decide (u = t) then true else active_in t l
  | HEnd u :: l => if decide (u = t) then false else active_in t l
  | _ :: l => active_in t l
  end.

(** No handler starts or ends after a disable of thread [d] has returned. *)
Fixpoint calm (d : nat) (l : list event) : Prop :=
  match l with
  | [] => True
  | e :: l => calm d l /\
      match e with HStart _ | HEnd _ => Disabled d ∉ l | _ => True end
  end.

Definition disables (c : call) : bool := match c with Run inner => inner | Disable => true end.

(** Only thread [d], when there is one, disables. *)
Definition sole (only : option nat) (scripts : list (list call)) : Prop :=
  forall t cs c d, scripts !! t = Some cs -> c ∈ cs -> disables c = true -> only = Some d -> t = d.

Section proof.
Context (only : option nat).

Record good (s : process) : Prop := {
  good_can : cancel_inv (can s);
  good_active t : active_in t (log s) = true -> current_c (can s) t = true;
  good_disabled t : Disabled t ∈ log s -> m_active (can s) = active_disabled;
  good_sync d : only = Some d -> Disabled d ∈ log s -> quiet (can s);
  good_calm d : only = Some d -> calm d (log s)
}.

Record keeps (t : nat) (s s' : process) : Prop := {
  keeps_can : crely t (can s) (can s');
  keeps_active : active_in t (log s') = active_in t (log s);
  keeps_sole : only = Some t -> m_active (can s') = active_disabled -> m_active (can s) = active_disabled
}.

Definition protocol : Conc.protocol process.
Proof.
  refine (Protocol good keeps (fun t s => sleeping t (m_barrier (can s))) _).
  intros t. split; [by split|]. intros x y z [H1 H2 H3] [H4 H5 H6].
  split; [by transitivity (can y)|congruence|auto].
Defined.

(** A step on the cancelable alone. *)
Lemma can_step t s c :
  good s -> cstep_ok t (can s) c ->
  (forall u, active_in u (log s) = true -> current_c c u = true) ->
  (m_active (can s) = active_disabled -> m_active c = active_disabled) ->
  (quiet (can s) -> quiet c) ->
  (m_active c = active_disabled -> m_active (can s) = active_disabled \/ forall d, only = Some d -> t = d) ->
  good (set can_lens c s) /\ guar protocol t s (set can_lens c s).
Proof.
  intros [G1 G2 G3 G4 G5] [Hi Hr] Ha Hd Hq Hs. split.
  - split; simpl; [done|done|eauto| |done]. intros d Ho Hl. by eapply Hq, G4.
  - intros u Hu. split; simpl; [by apply Hr|done|]. intros Ho E.
    destruct (Hs E) as [?|Hd']; [done|]. destruct Hu. by rewrite (Hd' u Ho).
Qed.

#[export] Instance process_chost : chost can_lens protocol.
Proof.
  split.
  - intros s Hs. apply Hs.
  - intros t s s' H. apply H.
  - intros t s b Hs Hq. apply can_step; [done|by apply barrier_quiet_ok; [apply Hs|]|..]; simpl.
    + apply Hs.
    + done.
    + done.
    + by left.
Qed.

(** Appending an event. *)
Lemma emit_ok t s e :
  good s ->
  (forall u, u <> t -> active_in u (e :: log s) = active_in u (log s)) ->
  (active_in t (e :: log s) = true -> current_c (can s) t = true) ->
  (forall u, e = Disabled u -> m_active (can s) = active_disabled /\ (only = Some u -> quiet (can s))) ->
  (forall d, only = Some d -> e = HStart t \/ e = HEnd t -> current_c (can s) t = true) ->
  (forall u, e = HStart u \/ e = HEnd u -> u = t) ->
  good (Process (can s) (e :: log s)) /\ guar protocol t s (Process (can s) (e :: log s)).
Proof.
  intros [G1 G2 G3 G4 G5] H1 H2 H3 H4 H5. split.
  - split; simpl; [done| | | |].
    + intros u Hu. destruct (decide (u = t)) as [->|Hne]; [by apply H2|].
      apply G2. by rewrite <- (H1 u Hne).
    + intros u [Hu|Hu]%elem_of_cons; [destruct (H3 u (eq_sym Hu)); auto|eauto].
    + intros d Ho [Hu|Hu]%elem_of_cons; [destruct (H3 d (eq_sym Hu)); auto|eauto].
    + intros d Ho. split; [auto|].
      assert (Hno : current_c (can s) t = true -> Disabled d ∉ log s).
      { intros Ht Hl. destruct (G4 d Ho Hl) as [_ Hc]. rewrite Hc in Ht. done. }
      destruct e; try done; apply Hno, (H4 d Ho).
      * left. by rewrite (H5 _ (or_introl eq_refl)).
      * right. by rewrite (H5 _ (or_intror eq_refl)).
  - intros u Hu. split; simpl; [done|exact (H1 u Hu)|done].
Qed.

(** Outside of a call. *)
Record idle (t : nat) (s : process) : Prop := {
  idle_cand : candidate (m_barrier (can s)) t = None;
  idle_out : current_c (can s) t = false;
  idle_sole : only = Some t -> m_active (can s) = active_disabled -> quiet (can s)
}.
(** Inside the scope, with the handler active or not. *)
Record inside (h : bool) (t : nat) (s : process) : Prop := {
  inside_cand : candidate (m_barrier (can s)) t = None;
  inside_in : current_c (can s) t = true;
  inside_active : active_in t (log s) = h
}.

Lemma cancel_idle_stable t : stable protocol t (idle t).
Proof.
  intros s s' [H1 H2 H3] _ _ [Hk K5 K6]. pose proof Hk as [[K1 _ _] K2 K3 K4].
  split; [congruence|congruence|].
  intros Ho Hd. eapply crely_quiet_all; [exact Hk|]. apply H3; [done|]. by apply K6.
Qed.

Lemma inside_stable h t : stable protocol t (inside h t).
Proof. intros s s' [H1 H2 H3] _ _ [[[K1 _ _] K2 K3 K4] K5 K6]. split; congruence. Qed.

Lemma emit_start t :
  triple protocol t (inside false t) (emit (HStart t)) (fun _ => inside true t).
Proof.
  apply triple_modify; [apply inside_stable|apply inside_stable|].
  intros s Hs [H1 H2 H3].
  destruct (emit_ok t s (HStart t)) as [Hg HG]; [done|..]; simpl.
  - intros u Hu. by rewrite decide_False.
  - done.
  - done.
  - done.
  - by intros u [[=]|[=]].
  - split_and!; [done|done|]. split; simpl; [done|done|]. by rewrite decide_True.
Qed.

Lemma emit_end t :
  triple protocol t (inside true t) (emit (HEnd t)) (fun _ => inside false t).
Proof.
  apply triple_modify; [apply inside_stable|apply inside_stable|].
  intros s Hs [H1 H2 H3].
  destruct (emit_ok t s (HEnd t)) as [Hg HG]; [done|..]; simpl.
  - intros u Hu. by rewrite decide_False.
  - by rewrite decide_True.
  - done.
  - done.
  - by intros u [[=]|[=]].
  - split_and!; [done|done|]. split; simpl; [done|done|]. by rewrite decide_True.
Qed.

(** An event that leaves everything else as it is. *)
Lemma emit_other t e (P : process -> Prop) :
  stable protocol t P ->
  (forall u l, active_in u (e :: l) = active_in u l) ->
  (forall u, e <> Disabled u) -> (forall u, e <> HStart u /\ e <> HEnd u) ->
  (forall s, P s -> P (Process (can s) (e :: log s))) ->
  triple protocol t P (emit e) (fun _ => P).
Proof.
  intros HP Ha Hn Hn2 He. apply triple_modify; [done..|]. intros s Hs HPs.
  destruct (emit_ok t s e) as [Hg HG]; [done|..].
  - intros u _. apply Ha.
  - rewrite Ha. apply Hs.
  - intros u E. by destruct (Hn u).
  - intros d _ [E|E]; by destruct (Hn2 t).
  - intros u [E|E]; by destruct (Hn2 u).
  - auto.
Qed.

Lemma enter_spec t :
  triple protocol t (idle t) (enter can_lens t)
    (fun ok s => if ok : bool then inside false t s else idle t s).
Proof.
  apply triple_act; [apply cancel_idle_stable|intros [|]; [apply inside_stable|apply cancel_idle_stable]|done|].
  intros _ s s' ok Hs Hi E. pose proof Hi as [H1 H2 H3]. simpl in E.
  destruct (m_active (can s)) eqn:Ea; injection E as <- <-; try by split_and!; [|apply guar_refl|].
  assert (Hno : active_in t (log s) = false).
  { destruct (active_in t (log s)) eqn:E; [|done]. apply (good_active _ Hs) in E. congruence. }
  destruct (can_step t s (with_current t true (with_active active_running (can s)))) as [Hg HG];
    [done|by apply enter_ok; [apply Hs|]|..]; simpl; try congruence.
  - intros u Hu. apply (good_active _ Hs) in Hu. by fn_cases.
  - intros [Hq _]. congruence.
  - split_and!; [done|done|]. split; simpl; [done|by rewrite fn_same|done].
Qed.

Lemma leave_spec t :
  triple protocol t (inside false t) (leave can_lens false t) (fun _ => idle t).
Proof.
  assert (Hst : stable protocol t (fun s => idle t s /\ quiet (can s))).
  { intros s s' [H1 H2] ? ? H3. split; [by eapply cancel_idle_stable|].
    eapply crely_quiet_all; [apply H3|done]. }
  unfold leave. eapply triple_bind.
  { apply (triple_act t _ _ _ (fun ok s => idle t s /\ if ok : bool then True else quiet (can s))).
    - apply inside_stable.
    - intros [|]; [|exact Hst]. intros s s' [H1 _] ? ? H3. split; [by eapply cancel_idle_stable|done].
    - intros s _ _. simpl. by destruct (m_active (can s)).
    - intros _ s s' ok Hs [H1 H2 H3] E. simpl in E.
      assert (Hlog : forall u, active_in u (log s) = true -> <[t := false]> (current_c (can s)) u = true).
      { intros u Hu. fn_cases; [congruence|by apply Hs]. }
      destruct (decide (m_active (can s) = active_running)) as [Er|Er].
      + rewrite Er in E. injection E as <- <-.
        destruct (can_step t s (with_active active_enabled (with_current t false (can s)))) as [Hg HG];
          [done|by apply leave_enabled_ok; [apply Hs|..]|done|..]; simpl; try congruence.
        { intros [Hq _]. congruence. }
        split_and!; [done|done| |done]. split; simpl; [done|by rewrite fn_same|done].
      + destruct (leave_disabled_ok t (can s) (good_can _ Hs) H2 Er) as [Hok Hq].
        destruct (can_step t s (with_current t false (can s))) as [Hg HG];
          [done|done|done|done|done|by left|].
        assert (E' : Some (set can_lens (with_current t false (can s)) s, false) = Some (s', ok)).
        { rewrite <- E. by destruct (m_active (can s)). }
        injection E' as <- <-. split_and!; [done|done| |done]. split; simpl; [done|by rewrite fn_same|done]. }
  intros [|]; [apply triple_ret; [|by intros s _ [? _]]|].
  { intros s s' [H1 _] ? ? H3. split; [by eapply cancel_idle_stable|done]. }
  apply complete_spec; [exact Hst|apply cancel_idle_stable|].
  intros s b Hs [[H1 H2 H3] Hq] Hb.
  destruct (can_step t s (with_barrier b (can s))) as [Hg HG];
    [done|by apply barrier_completes_ok; [apply Hs|..]|..]; simpl; try done.
  - apply Hs.
  - by left.
  - split_and!; [done|done|]. destruct Hb as (_ & _ & Hc & _). split; simpl in *; [congruence|done|].
    intros _ _. exact Hq.
Qed.

Lemma disable_spec t :
  (forall d, only = Some d -> t = d) ->
  triple protocol t (idle t) (disable can_lens false t)
    (fun _ s => idle t s /\ m_active (can s) = active_disabled /\ (only = Some t -> quiet (can s))).
Proof.
  intros Hd.
  set (Post := fun s => idle t s /\ m_active (can s) = active_disabled /\ (only = Some t -> quiet (can s))).
  assert (Hdis : stable protocol t (fun s => m_active (can s) = active_disabled)).
  { intros s s' H _ _ [[_ _ H3 _] _ _]. auto. }
  assert (HQ : stable protocol t Post).
  { intros s s' (H1 & H2 & H3) ? ? H4. split_and!; [by eapply cancel_idle_stable|by eapply Hdis|].
    intros Ho. eapply crely_quiet_all; [apply H4|auto]. }
  (* the state while waiting: disabled, and outside *)
  set (Mid := fun s => m_active (can s) = active_disabled /\ current_c (can s) t = false).
  assert (HM : stable protocol t Mid).
  { intros s s' [H1 H2] ? ? H4. split; [by eapply Hdis|]. destruct H4 as [[_ H5 _ _] _ _]. congruence. }
  unfold disable. eapply triple_bind.
  { apply (triple_read t _ _ _ (fun r s => r = false /\ idle t s)).
    - apply cancel_idle_stable.
    - intros r s s' [? ?] ? ? ?. split; [done|by eapply cancel_idle_stable].
    - intros s _ Hi. split; [apply Hi|done]. }
  intros [|]; [by apply triple_absurd; intros s _ [? _]|].
  eapply triple_bind.
  { apply (triple_act t _ _ _ (fun a s => match a with
        | active_running => Mid s /\ candidate (m_barrier (can s)) t = None
        | _ => Post s end)).
    - intros s s' [? ?] ? ? ?. split; [done|by eapply cancel_idle_stable].
    - intros [| |]; [exact HQ|exact HQ|]. intros s s' [H1 H2] ? ? H3.
      split; [by eapply HM|]. destruct H3 as [[[K _ _] _ _ _] _ _]. congruence.
    - done.
    - intros _ s s' a Hs [_ [H1 H2 H3]] E. simpl in E. injection E as <- <-.
      destruct (can_step t s (with_active active_disabled (can s))) as [Hg HG];
        [done|by apply disable_ok, Hs|apply Hs|done| |by right|].
      { intros Hq. split; [done|apply Hq]. }
      split_and!; [done|done|].
      assert (Hq : m_active (can s) <> active_running -> only = Some t ->
                   quiet (with_active active_disabled (can s))).
      { intros Hr Ho. split; [done|]. intros u.
        destruct (m_active (can s)) eqn:Ea; [|by apply Hs|done]. by apply (H3 Ho). }
      destruct (m_active (can s)) eqn:Ea; [| |done];
        (split_and!; [split; simpl|done|]; auto). }
  intros [| |]; [by apply triple_ret|by apply triple_ret|].
  - eapply triple_bind.
    + apply (wait_spec (L := barrier_lens can_lens) t forever Mid); [by intros s _ _|exact HM|].
      intros s b [H1 H2] _. by split.
    + intros r. apply triple_ret; [by apply wait_post_stable|].
      intros s Hs ([H1 H2] & H3 & [H5 H6]). assert (Hb : quiet (can s)).
      { split; [done|]. intros u. apply (cinv_done _ (good_can _ Hs)). by apply H5, H6. }
      split_and!; [|done|done]. split; auto.
Qed.

(** Disabling from inside the handler. *)
Lemma disable_inside_spec t :
  (forall d, only = Some d -> t = d) ->
  triple protocol t (inside true t) (disable can_lens false t) (fun _ => inside true t).
Proof.
  intros Hd. unfold disable. eapply triple_bind.
  { apply (triple_read t _ _ _ (fun r s => r = true /\ inside true t s)).
    - apply inside_stable.
    - intros r s s' [? ?] ? ? ?. split; [done|by eapply inside_stable].
    - intros s _ Hi. split; [apply Hi|done]. }
  intros [|]; [|by apply triple_absurd; intros s _ [? _]].
  apply triple_modify.
  - intros s s' [? ?] ? ? ?. split; [done|by eapply inside_stable].
  - apply inside_stable.
  - intros s Hs [_ [H1 H2 H3]].
    destruct (can_step t s (with_active active_disabled (can s))) as [Hg HG];
      [done|by apply disable_ok, Hs|apply Hs|done| |by right|].
    { intros Hq. split; [done|apply Hq]. }
    split_and!; [done|done|]. by split.
Qed.

Lemma handler_spec t b :
  (b = true -> forall d, only = Some d -> t = d) ->
  triple protocol t (inside false t) (handler false t b) (fun _ => inside false t).
Proof.
  intros Hd. unfold handler. eapply triple_bind; [apply emit_start|]. intros ?.
  eapply triple_bind; [|intros ?; apply emit_end].
  destruct b; [|by apply triple_ret; [apply inside_stable|]].
  eapply triple_bind; [by apply disable_inside_spec, Hd|]. intros ?.
  apply emit_other; [apply inside_stable|done|done|done|]. intros s [H1 H2 H3]. by split.
Qed.

Lemma cancel_run_call_spec t c :
  (disables c = true -> forall d, only = Some d -> t = d) ->
  triple protocol t (idle t) (run_call false t c) (fun _ => idle t).
Proof.
  intros Hd. destruct c as [b|]; simpl.
  - eapply triple_bind.
    { unfold cancelable_scope. eapply triple_bind; [apply enter_spec|]. intros [|].
      - eapply triple_bind; [by apply handler_spec|]. intros ?.
        eapply triple_bind; [apply leave_spec|]. intros ?.
        apply (triple_ret t _ _ _ (fun _ => idle t)); [apply cancel_idle_stable|done].
      - by apply triple_ret; [apply cancel_idle_stable|]. }
    intros [|]; [by apply triple_ret; [apply cancel_idle_stable|]|].
    apply emit_other; [apply cancel_idle_stable|done|done|done|]. intros s [H1 H2 H3]. by split.
  - eapply triple_bind; [by apply disable_spec, Hd|]. intros ?.
    assert (Hst : stable protocol t (fun s => idle t s /\ m_active (can s) = active_disabled /\
              (only = Some t -> quiet (can s)))).
    { intros s s' (H1 & H2 & H3) ? ? H4. split_and!; [by eapply cancel_idle_stable|by apply H4|].
      intros Ho. eapply crely_quiet_all; [apply H4|auto]. }
    apply triple_modify; [exact Hst|apply cancel_idle_stable|].
    intros s Hs ([H1 H2 H3] & H4 & H5).
    destruct (emit_ok t s (Disabled t)) as [Hg HG]; [done|done|simpl; apply Hs| | | |].
    + intros u [= ->]. done.
    + by intros d _ [[=]|[=]].
    + by intros u [[=]|[=]].
    + split_and!; [done|done|]. by split.
Qed.

Lemma cancel_process_sound scripts c :
  sole only scripts -> reach (start false scripts) c -> sound protocol init idle c.
Proof.
  intros Hsole. apply (rg_sound idle idle).
  - split; simpl; [apply make_cancelable_inv|done| | |done].
    + by intros ? ?%not_elem_of_nil.
    + by intros ? _ ?%not_elem_of_nil.
  - intros t. by split.
  - intros t p Hp. rewrite list_lookup_imap in Hp.
    destruct (scripts !! t) as [cs|] eqn:Ht; simplify_eq/=. apply triple_each; [apply cancel_idle_stable|].
    intros c' Hc. apply cancel_run_call_spec. intros Hdis d Ho. by eapply Hsole.
Qed.
End proof.


(** C21: when thread [d] is the only one that disables, no handler is active when
    its disable() returns, and none starts afterwards, on any thread. *)
Theorem cancelable_disable_synchronises scripts c d :
  sole (Some d) scripts -> reach (start false scripts) c ->
  calm d (log c.1) /\ (Disabled d ∈ log c.1 -> forall t, active_in t (log c.1) = false).
Proof.
  intros Hs Hc%(cancel_process_sound (Some d)); [|done]. pose proof (sound_inv Hc) as Hg. split.
  - by apply (good_calm _ _ Hg).
  - intros Hd t. destruct (good_sync _ _ Hg d eq_refl Hd) as [_ Hq].
    destruct (active_in t (log c.1)) eqn:E; [|done].
    apply (good_active _ _ Hg) in E. by rewrite Hq in E.
Qed.

(** Once any disable() has returned the cancelable stays disabled: enter()
    refuses for ever. *)
Theorem cancelable_disabled_for_ever scripts c d t :
  reach (start false scripts) c -> Disabled d ∈ log c.1 ->
  forall o, pstep (enter can_lens t) o c.1 = Some (c.1, Ret false).
Proof.
  intros Hc%(cancel_process_sound None) Hd; [|by intros ????????].
  pose proof (good_disabled _ _ (sound_inv Hc) d Hd) as Ha.
  intros o. simpl. by rewrite Ha.
Qed.

(** Thread 0 runs the handler while thread 1 disables. *)
Definition scripts01 : list (list call) := [[Run false; Run false]; [Disable]].
(** 1 asks while 0 is inside, sleeps, and is woken when 0 leaves. *)
Definition after_disable : cfg process :=
  play (go 0 3 ++ go 1 20 ++ go 0 12 ++ go 1 20 ++ go 0 20) (start false scripts01).


Theorem cancelable_disable_synchronises_witness :
  log after_disable.1 = [Skipped 0; Disabled 1; HEnd 0; HStart 0] /\
  calm 1 (log after_disable.1) /\
  (Disabled 1 ∈ log after_disable.1 -> forall t, active_in t (log after_disable.1) = false).
Proof.
  split; [vm_compute; reflexivity|].
  apply (cancelable_disable_synchronises scripts01).
  - intros t cs c d Ht Hc Hd [= <-]. destruct t as [|[|t]]; [|done|done].
    injection Ht as <-. repeat (apply elem_of_cons in Hc as [->|Hc]; [done|]).
    by apply not_elem_of_nil in Hc.
  - apply play_reach, reach_here.
Defined.

Theorem cancelable_disabled_for_ever_witness :
  Disabled 1 ∈ log after_disable.1 /\
  forall o, pstep (enter can_lens 5) o after_disable.1 = Some (after_disable.1, Ret false).
Proof.
  assert (Hl : Disabled 1 ∈ log after_disable.1) by (vm_compute; right; left).
  split; [exact Hl|].
  apply (cancelable_disabled_for_ever scripts01 after_disable 1 5); [|exact Hl].
  apply play_reach, reach_here.
Defined.

(** A second disable() does not wait: it can return while the handler is
    still active, because the first one has already stored active_disabled. *)
Theorem cancelable_second_disable_returns_early :
  exists c, reach (start false [[Run false]; [Disable]; [Disable]]) c /\
    Disabled 2 ∈ log c.1 /\ active_in 0 (log c.1) = true.
Proof.
  exists (play (go 0 3 ++ go 1 5 ++ go 2 20) (start false [[Run false]; [Disable]; [Disable]])).
  split; [apply play_reach, reach_here|]. vm_compute. split; [left|reflexivity].
Qed.
End CancelProcess.
