(* ===== verification/Semaphore.v ===== *)
(** * Semaphore: src/naive/naive_semaphore.cpp, naive_semaphore.h

    The counting semaphore the thread pool parks its idle workers on: a fast
    path on an atomic counter, and a mutex and condition variable behind it. *)
From S2P Require Import Prelude Conc.

Module Sem.

(** Auxiliary state the code never reads, one record per thread: [owed] are the
    wake-ups it has still to pass on or to use, [stage] says whether it is
    counted in [m_waiters] and has seen the count at zero since ([Drowsy]);
    [added] and [taken] are what it has released and acquired so far. *)
Inductive stage := Outside | Registered | Drowsy.
Record auxiliary := Aux { owed : Z; at_stage : stage; added : Z; taken : Z }.

(** [m_cond] is the wait set of the condition variable: the threads that block
    in it and that nobody has notified. *)
Record semaphore := Semaphore {
  m_count : Z;
  m_waiters : Z;
  m_CS : option nat;
  m_cond : list nat;
  aux : nat -> auxiliary
}.

Definition make_semaphore (count : Z) : semaphore :=
  Semaphore count 0 None [] (fun _ => Aux 0 Outside 0 0).

Definition with_aux (t : nat) (f : auxiliary -> auxiliary) (s : semaphore) : semaphore :=
  Semaphore (m_count s) (m_waiters s) (m_CS s) (m_cond s) (<[t := f (aux s t)]> (aux s)).
Definition with_lock (o : option nat) (s : semaphore) : semaphore :=
  Semaphore (m_count s) (m_waiters s) o (m_cond s) (aux s).
Definition with_cond (l : list nat) (s : semaphore) : semaphore :=
  Semaphore (m_count s) (m_waiters s) (m_CS s) l (aux s).
Definition with_count (c : Z) (s : semaphore) : semaphore :=
  Semaphore c (m_waiters s) (m_CS s) (m_cond s) (aux s).
Definition with_waiters (w : Z) (s : semaphore) : semaphore :=
  Semaphore (m_count s) w (m_CS s) (m_cond s) (aux s).

(** How the auxiliary state of a thread changes. *)
Definition zero_seen (a : auxiliary) : auxiliary :=
  Aux 0 (match at_stage a with Outside => Outside | _ => Drowsy end) (added a) (taken a).
Definition took (a : auxiliary) : auxiliary := Aux 0 (at_stage a) (added a) (taken a + 1).
Definition woken (a : auxiliary) : auxiliary := Aux 1 Registered (added a) (taken a).
Definition roused (a : auxiliary) : auxiliary := Aux (owed a) Registered (added a) (taken a).
Definition settled (a : auxiliary) : auxiliary := Aux 0 (at_stage a) (added a) (taken a).
Definition left_wait (a : auxiliary) : auxiliary := Aux (owed a) Outside (added a) (taken a).
Definition gave (k : Z) (a : auxiliary) : auxiliary :=
  Aux (owed a + k) (at_stage a) (added a + k) (taken a).

Definition saw (t : nat) (s : semaphore) : semaphore :=
  if Z.eqb (m_count s) 0 then with_aux t zero_seen s else s.

(** The compare_exchange_weak of try_acquire: (succeeded, value seen). *)
Definition cas_count (t : nat) (old : Z) (o : nat) (s : semaphore) : semaphore * (bool * Z) :=
  if Z.eqb (m_count s) old && negb (Nat.eqb o o_spurious)
  then (with_count (old - 1) (with_aux t took s), (true, old))
  else (saw t s, (false, m_count s)).

(** notify_one wakes one sleeper, which one is the oracle's choice. *)
Definition chosen (o : nat) (l : list nat) : option nat := l !! (o mod (length l)).
Definition wake (u : nat) (s : semaphore) : semaphore :=
  with_aux u woken (with_cond (filter (fun v => v <> u) (m_cond s)) s).
Definition notify_one (o : nat) (s : semaphore) : semaphore :=
  match chosen o (m_cond s) with
  | Some u => wake u s
  | None => s
  end.
Definition notify_all (s : semaphore) : semaphore :=
  Semaphore (m_count s) (m_waiters s) (m_CS s) []
    (fun u => if bool_decide (u ∈ m_cond s) then woken (aux s u) else aux s u).

Section code.
Context {Σ : Type} (L : lens Σ semaphore).

Definition on {A} (f : nat -> semaphore -> option (semaphore * A)) : prog Σ A :=
  Act (fun o s => match f o (get L s) with
                  | Some (x, a) => Some (set L x s, a)
                  | None => None
                  end).

Definition try_acquire (t : nat) : prog Σ bool :=
  let! old_count := on (fun _ s => Some (saw t s, m_count s)) in
  Iter (fun old_count =>
    do! xassert (0 <=? old_count)%Z in
    if Z.eqb 0 old_count then Ret (inr false)
    else let! '(ok, seen) := on (fun o s => Some (cas_count t old_count o s)) in
         Ret (if (ok : bool) then inr true else inl seen)) old_count.

(** while (0 == m_count.load() && i < spins) ++i; *)
Definition relax (t : nat) (spins i : Z) : prog Σ Z :=
  Iter (fun i =>
    let! c := on (fun _ s => Some (s, m_count s)) in
    Ret (if Z.eqb 0 c && Z.ltb i spins then inl (i + 1)%Z else inr i)) i.

Definition spin_acquire (t : nat) (spins : Z) : prog Σ bool :=
  Iter (fun i =>
    if Z.ltb i spins then
      let! r := try_acquire t in
      if (r : bool) then Ret (inr true)
      else let! i := relax t spins i in Ret (inl (i + 1)%Z)
    else Ret (inr false)) 0%Z.

Definition lock (t : nat) : prog Σ unit :=
  on (fun _ s => match m_CS s with
                 | None => Some (with_lock (Some t) s, tt)
                 | Some _ => None
                 end).
Definition unlock : prog Σ unit := on (fun _ s => Some (with_lock None s, tt)).

(** m_cond.wait: lets go of the mutex and sleeps in one action ... *)
Definition fall_asleep (t : nat) : prog Σ unit :=
  on (fun _ s => Some (with_cond (t :: m_cond s) (with_lock None s), tt)).
(** ... until notified, woken spuriously or timed out, and takes the mutex
    again; says whether it timed out. *)
Definition wake_up (t : nat) : prog Σ bool :=
  on (fun o s =>
    match m_CS s with
    | Some _ => None
    | None =>
        if bool_decide (t ∈ m_cond s) then
          if Nat.eqb o o_spurious || Nat.eqb o o_timeout then
            Some (with_lock (Some t) (with_aux t roused
                    (with_cond (filter (fun v => v <> t) (m_cond s)) s)), Nat.eqb o o_timeout)
          else None
        else Some (with_lock (Some t) s, Nat.eqb o o_timeout)
    end).

(** m_cond.wait_for(lock, timeout, [this] { return try_acquire(); }) *)
Definition wait_for (t : nat) : prog Σ bool :=
  Iter (fun _ =>
    let! r := try_acquire t in
    if (r : bool) then Ret (inr true)
    else
      do! fall_asleep t in
      let! timed_out := wake_up t in
      if (timed_out : bool) then let! r := try_acquire t in Ret (inr r) else Ret (inl tt)) tt.

Definition waiter_enter (t : nat) : prog Σ unit :=
  on (fun _ s => Some (with_waiters (wrap_s32 (m_waiters s + 1)) (with_aux t roused s), tt)).
Definition waiter_leave (t : nat) : prog Σ unit :=
  on (fun _ s => Some (with_waiters (wrap_s32 (m_waiters s - 1)) (with_aux t left_wait s), tt)).

Definition wait_acquire (t : nat) : prog Σ bool :=
  let! r := try_acquire t in
  if (r : bool) then Ret true
  else
    do! lock t in
    let! r := try_acquire t in
    if (r : bool) then do! unlock in Ret true
    else
      do! waiter_enter t in
      let! r := wait_for t in
      do! waiter_leave t in
      do! unlock in
      Ret r.

Definition release (t : nat) (count : Z) : prog Σ unit :=
  do! xassert (0 <? count)%Z in
  do! on (fun _ s => Some (with_count (wrap_s32 (m_count s + count)) (with_aux t (gave count) s), tt)) in
  let! waiters := on (fun _ s =>
    Some (if Z.eqb 0 (m_waiters s) then with_aux t settled s else s, m_waiters s)) in
  if Z.eqb 0 waiters then Ret tt
  else
    (* the mutex is held for the notification only: one action *)
    on (fun o s =>
      match m_CS s with
      | Some _ => None
      | None => Some (with_aux t settled (if Z.eqb 1 count then notify_one o s else notify_all s), tt)
      end).
End code.

(** ** The invariant *)
Section invariant.
Context (n : nat) (init : Z) (cap : nat -> Z).
Definition registered (s : semaphore) (t : nat) : Z :=
  match at_stage (aux s t) with Outside => 0 | _ => 1 end.
Definition drowsy (s : semaphore) : Prop := exists t, at_stage (aux s t) = Drowsy.
Definition bounded : Prop := (0 <= init /\ init + total n cap < 2 ^ 31 /\ Z.of_nat n < 2 ^ 31)%Z.

Record sem_inv (s : semaphore) : Prop := {
  si_count : (0 <= m_count s)%Z;
  si_conserve : m_count s = (init + total n (fun t => added (aux s t)) - total n (fun t => taken (aux s t)))%Z;
  si_waiters : m_waiters s = total n (registered s);
  si_aux t : (0 <= owed (aux s t) /\ 0 <= added (aux s t) <= cap t /\ 0 <= taken (aux s t))%Z;
  si_out t : n <= t -> at_stage (aux s t) = Outside;
  si_cond t : t ∈ m_cond s -> t < n /\ at_stage (aux s t) = Drowsy /\ owed (aux s t) = 0%Z /\ m_CS s <> Some t;
  si_drowsy t : at_stage (aux s t) = Drowsy -> t ∈ m_cond s \/ m_CS s = Some t;
  si_wake : drowsy s -> (m_count s <= total n (fun t => owed (aux s t)))%Z
}.

(** What thread [t] relies on: the mutex, and its own bookkeeping until it is
    notified. *)
Record srely (t : nat) (s s' : semaphore) : Prop := {
  srely_lock : (m_CS s' = Some t) <-> (m_CS s = Some t);
  srely_out : t ∉ m_cond s -> t ∉ m_cond s' /\ aux s' t = aux s t;
  srely_in : t ∈ m_cond s -> (t ∈ m_cond s' /\ aux s' t = aux s t) \/
                             (t ∉ m_cond s' /\ aux s' t = woken (aux s t))
}.

#[export] Instance srely_pre t : PreOrder (srely t).
Proof.
  split; [by split; auto|]. intros x y z [A1 A2 A3] [B1 B2 B3]. split.
  - by rewrite B1.
  - intros H. destruct (A2 H) as [H1 E1]. destruct (B2 H1) as [H2 E2]. split; congruence.
  - intros H. destruct (A3 H) as [[H1 E1]|[H1 E1]].
    + destruct (B3 H1) as [[? E2]|[? E2]]; [left|right]; split; congruence.
    + destruct (B2 H1) as [? E2]. right. split; congruence.
Qed.

Definition sstep_ok (t : nat) (s s' : semaphore) : Prop :=
  sem_inv s' /\ forall u, u <> t -> srely u s s'.

(** The total of a field after an update of one thread's bookkeeping. *)
Lemma total_aux (g : auxiliary -> Z) t f (h : nat -> auxiliary) :
  t < n -> total n (fun u => g (<[t := f]> h u)) = (total n (fun u => g (h u)) - g (h t) + g f)%Z.
Proof.
  intros Ht. rewrite (total_change n (fun u => g (h u)) _ t Ht).
  - by rewrite fn_same.
  - intros u Hu. by rewrite fn_other.
Qed.

Lemma srely_own t s s' :
  m_CS s' = m_CS s -> m_cond s' = m_cond s -> (forall u, u <> t -> aux s' u = aux s u) ->
  forall u, u <> t -> srely u s s'.
Proof.
  intros E1 E2 E3 u Hu. split; rewrite ?E1, ?E2; [done|by auto|]. left. by auto.
Qed.

(** A step of thread [t], which is not in the wait set, that changes its own
    bookkeeping and the two counters. *)
Definition own (t : nat) (a : auxiliary) (c w : Z) (s : semaphore) : semaphore :=
  Semaphore c w (m_CS s) (m_cond s) (<[t := a]> (aux s)).
Definition is_in (a : auxiliary) : Z := match at_stage a with Outside => 0 | _ => 1 end.

Lemma own_ok t s a c w :
  sem_inv s -> t < n -> t ∉ m_cond s -> (0 <= c)%Z ->
  (c - m_count s = (added a - added (aux s t)) - (taken a - taken (aux s t)))%Z ->
  (w - m_waiters s = is_in a - is_in (aux s t))%Z ->
  (0 <= owed a /\ 0 <= added a <= cap t /\ 0 <= taken a)%Z ->
  (at_stage a = Drowsy -> m_CS s = Some t) ->
  (at_stage a = Drowsy \/ drowsy s ->
     (c <= total n (fun u => owed (aux s u)) - owed (aux s t) + owed a)%Z) ->
  sstep_ok t s (own t a c w s).
Proof.
  intros [H1 H2 H3 H4 H5 H6 H7 H8] Ht Hc C1 C2 C3 C4 C5 C6. split.
  - split; simpl; [done| | | | | | |].
    + rewrite !total_aux by done. lia.
    + transitivity (total n (fun u => is_in (<[t := a]> (aux s) u))); [|done].
      rewrite total_aux by done. unfold registered in H3. unfold is_in at 1. lia.
    + intros u. fn_cases; [done|apply H4].
    + intros u Hu. fn_cases; [lia|by apply H5].
    + intros u Hu. fn_cases; [done|by apply H6].
    + intros u. fn_cases; [auto|apply H7].
    + intros [u Hu]; simpl in Hu. rewrite total_aux by done. apply C6. fn_cases; [by left|right; by exists u].
  - apply srely_own; [done|done|]. intros u Hu. by apply fn_other.
Qed.


(** Reading the count: a zero is remembered. *)
Lemma saw_ok t s :
  sem_inv s -> t < n -> t ∉ m_cond s -> (at_stage (aux s t) = Outside \/ m_CS s = Some t) ->
  sstep_ok t s (saw t s).
Proof.
  intros Hs Ht Hc Hst. unfold saw. destruct (Z.eqb_spec (m_count s) 0) as [E|_].
  2: { split; [done|]. by apply srely_own. }
  pose proof (si_aux _ Hs t) as Ha.
  apply (own_ok t s (zero_seen (aux s t)) (m_count s) (m_waiters s)); simpl; try done; try lia.
  - unfold is_in; simpl. destruct (at_stage (aux s t)); lia.
  - intros Ez. destruct Hst as [Hst|]; [|done]. by rewrite Hst in Ez.
  - intros _. rewrite E. pose proof (total_pos n (fun u => owed (aux s u)) t Ht) as Hp.
    simpl in Hp. specialize (Hp ltac:(intros; apply Hs)). lia.
Qed.

(** Taking one. *)
Lemma took_ok t s :
  sem_inv s -> t < n -> t ∉ m_cond s -> at_stage (aux s t) <> Drowsy ->
  (owed (aux s t) <= 1)%Z -> (0 < m_count s)%Z ->
  sstep_ok t s (with_count (m_count s - 1) (with_aux t took s)).
Proof.
  intros Hs Ht Hc Hst Ho Hp. pose proof (si_aux _ Hs t) as Ha.
  apply (own_ok t s (took (aux s t)) (m_count s - 1) (m_waiters s)); simpl; try done; try lia.
  - unfold is_in; simpl. lia.
  - intros [E|E%(si_wake _ Hs)]; [done|]. lia.
Qed.

(** Adding [k]: the count does not overflow. *)
Lemma count_bound s : bounded -> sem_inv s -> (m_count s <= init + total n (fun t => added (aux s t)))%Z.
Proof.
  intros Hb Hs. pose proof (si_conserve _ Hs) as H.
  pose proof (total_nonneg n (fun t => taken (aux s t)) ltac:(intros; apply Hs)). simpl in *. lia.
Qed.

Lemma gave_ok t s k :
  bounded -> sem_inv s -> t < n -> t ∉ m_cond s -> at_stage (aux s t) <> Drowsy ->
  (0 < k)%Z -> (added (aux s t) + k <= cap t)%Z ->
  wrap_s32 (m_count s + k) = (m_count s + k)%Z /\
  sstep_ok t s (with_count (m_count s + k) (with_aux t (gave k) s)).
Proof.
  intros Hb Hs Ht Hc Hst Hk Hcap. pose proof (si_aux _ Hs t) as Ha. pose proof (si_count _ Hs) as H0.
  assert (Htot : (total n (fun u => added (aux s u)) + k <= total n cap)%Z).
  { transitivity (total n (fun u => added (<[t := gave k (aux s t)]> (aux s) u))).
    - rewrite total_aux by done. simpl. lia.
    - apply total_le. intros u Hu. fn_cases; [done|apply Hs]. }
  pose proof (count_bound s Hb Hs). destruct Hb as (Hb1 & Hb2 & _). split.
  - apply wrap_s32_id. lia.
  - apply (own_ok t s (gave k (aux s t)) (m_count s + k) (m_waiters s)); simpl; try done; try lia.
    + unfold is_in; simpl. lia.
    + intros [E|E%(si_wake _ Hs)]; [done|]. lia.
Qed.

(** With nobody registered there is nobody to wake. *)
Lemma unregistered s t : sem_inv s -> m_waiters s = 0%Z -> at_stage (aux s t) = Outside.
Proof.
  intros Hs Hw. destruct (decide (t < n)) as [Ht|Ht]; [|by apply (si_out _ Hs); lia].
  pose proof (total_pos n (registered s) t Ht) as Hp. rewrite <- (si_waiters _ Hs), Hw in Hp.
  unfold registered in Hp. destruct (at_stage (aux s t)); [done| |];
    (assert (1 <= 0)%Z; [|lia]); apply Hp; intros u _; by destruct (at_stage (aux s u)).
Qed.

Lemma settled_ok t s :
  sem_inv s -> t < n -> t ∉ m_cond s -> at_stage (aux s t) <> Drowsy -> ~ drowsy s ->
  sstep_ok t s (with_aux t settled s).
Proof.
  intros Hs Ht Hc Hst Hd. pose proof (si_aux _ Hs t) as Ha. pose proof (si_count _ Hs) as H0.
  apply (own_ok t s (settled (aux s t)) (m_count s) (m_waiters s)); simpl; try done; try lia.
  - unfold is_in; simpl. lia.
  - by intros [E|E].
Qed.

(** Entering and leaving the scope of the waiters. *)
Lemma waiters_bound s : sem_inv s -> (0 <= m_waiters s <= Z.of_nat n)%Z.
Proof.
  intros Hs. rewrite (si_waiters _ Hs). split.
  - apply total_nonneg. intros u _. unfold registered. by destruct (at_stage (aux s u)).
  - transitivity (total n (fun _ => 1%Z)).
    + apply total_le. intros u _. unfold registered. by destruct (at_stage (aux s u)).
    + clear. induction n; simpl; lia.
Qed.

Lemma waiter_enter_ok t s :
  bounded -> sem_inv s -> t < n -> t ∉ m_cond s -> at_stage (aux s t) = Outside ->
  sstep_ok t s (with_waiters (wrap_s32 (m_waiters s + 1)) (with_aux t roused s)).
Proof.
  intros (_ & _ & Hb) Hs Ht Hc Hst. pose proof (si_aux _ Hs t) as Ha.
  assert (Hw : (m_waiters s + 1 <= Z.of_nat n)%Z).
  { rewrite (si_waiters _ Hs).
    assert (E : total n (fun u => is_in (<[t := roused (aux s t)]> (aux s) u)) =
            (total n (registered s) + 1)%Z).
    { rewrite total_aux by done. unfold is_in at 2 3; simpl. rewrite Hst.
      unfold registered, is_in. lia. }
    rewrite <- E. transitivity (total n (fun _ => 1%Z)).
    - apply total_le. intros u _. unfold is_in. by destruct (at_stage (<[t:=_]> (aux s) u)).
    - clear. induction n; simpl; lia. }
  pose proof (waiters_bound s Hs). rewrite wrap_s32_id by lia.
  apply (own_ok t s (roused (aux s t)) (m_count s) (m_waiters s + 1)); simpl; try done; try lia.
  - apply Hs.
  - unfold is_in; simpl. rewrite Hst. lia.
  - intros [E|E%(si_wake _ Hs)]; [done|]. lia.
Qed.

Lemma waiter_leave_ok t s :
  bounded -> sem_inv s -> t < n -> t ∉ m_cond s -> at_stage (aux s t) <> Outside ->
  sstep_ok t s (with_waiters (wrap_s32 (m_waiters s - 1)) (with_aux t left_wait s)).
Proof.
  intros (_ & _ & Hb) Hs Ht Hc Hst. pose proof (si_aux _ Hs t) as Ha.
  pose proof (waiters_bound s Hs). rewrite wrap_s32_id by lia.
  apply (own_ok t s (left_wait (aux s t)) (m_count s) (m_waiters s - 1)); simpl; try done; try lia.
  - apply Hs.
  - unfold is_in; simpl. destruct (at_stage (aux s t)); [done|lia|lia].
  - intros [E|E%(si_wake _ Hs)]; [done|]. lia.
Qed.

Lemma sstep_trans t s s1 s2 : sstep_ok t s s1 -> sstep_ok t s1 s2 -> sstep_ok t s s2.
Proof. intros [_ H1] [? H2]. split; [done|]. intros u Hu. transitivity s1; auto. Qed.

(** The mutex. *)
Lemma lock_ok t s :
  sem_inv s -> t ∉ m_cond s -> m_CS s = None -> sstep_ok t s (with_lock (Some t) s).
Proof.
  intros [H1 H2 H3 H4 H5 H6 H7 H8] Hc Hl. split.
  - split; simpl; try done.
    + intros u Hu. destruct (H6 u Hu) as (? & ? & ? & _). split_and!; [done..|]. congruence.
    + intros u Hu. destruct (H7 u Hu) as [?|?]; [by left|congruence].
  - intros u Hu. split; simpl; [|by auto|by auto]. rewrite Hl. naive_solver.
Qed.

Lemma unlock_ok t s :
  sem_inv s -> m_CS s = Some t -> at_stage (aux s t) <> Drowsy -> sstep_ok t s (with_lock None s).
Proof.
  intros [H1 H2 H3 H4 H5 H6 H7 H8] Hl Hst. split.
  - split; simpl; try done.
    + intros u Hu. by destruct (H6 u Hu) as (? & ? & ? & _).
    + intros u Hu. destruct (H7 u Hu) as [?|E]; [by left|]. simplify_eq.
  - intros u Hu. split; simpl; [|by auto|by auto]. rewrite Hl. naive_solver.
Qed.

Lemma sleep_ok t s :
  sem_inv s -> t < n -> m_CS s = Some t -> at_stage (aux s t) = Drowsy -> owed (aux s t) = 0%Z ->
  sstep_ok t s (with_cond (t :: m_cond s) (with_lock None s)).
Proof.
  intros [H1 H2 H3 H4 H5 H6 H7 H8] Ht Hl Hst Ho. split.
  - split; simpl; try done.
    + intros u [->|Hu]%elem_of_cons; [done|]. by destruct (H6 u Hu) as (? & ? & ? & _).
    + intros u Hu. left. destruct (H7 u Hu) as [?|E]; [by right|]. simplify_eq. by left.
  - intros u Hu. split; simpl.
    + rewrite Hl. naive_solver.
    + intros Hc. split; [|done]. by intros [?|?]%elem_of_cons.
    + intros Hc. left. split; [by right|done].
Qed.

(** Waking up on its own. *)
Lemma rouse_ok t s :
  sem_inv s -> t ∈ m_cond s -> m_CS s = None ->
  sstep_ok t s (with_lock (Some t) (with_aux t roused
    (with_cond (filter (fun v => v <> t) (m_cond s)) s))).
Proof.
  intros [H1 H2 H3 H4 H5 H6 H7 H8] Hc Hl. destruct (H6 t Hc) as (Ht & Hst & Ho & _). split.
  - split; simpl; [done| | | | | | |].
    + rewrite !total_aux by done. simpl. lia.
    + rewrite H3. apply total_ext. intros u Hu. unfold registered; simpl. fn_cases; [|done].
      by rewrite Hst.
    + intros u. fn_cases; [|apply H4]. simpl. apply H4.
    + intros u Hu. fn_cases; [lia|by apply H5].
    + intros u [Hne Hu]%list_elem_of_filter. rewrite fn_other by done.
      destruct (H6 u Hu) as (? & ? & ? & _). split_and!; [done..|]. congruence.
    + intros u Hu. fn_cases; [by right|]. destruct (H7 u Hu) as [?|?]; [|congruence].
      left. by apply list_elem_of_filter.
    + intros [u Hu]; simpl in Hu. rewrite total_aux by done. simpl. fn_cases; [done|].
      specialize (H8 ltac:(by exists u)). lia.
  - intros u Hu. split; simpl.
    + rewrite Hl. naive_solver.
    + intros Hn. rewrite fn_other by done. split; [|done]. by intros [_ ?]%list_elem_of_filter.
    + intros Hn. left. rewrite fn_other by done. split; [|done]. by apply list_elem_of_filter.
Qed.

(** A notification. *)
Lemma wake_ok t u s :
  sem_inv s -> u ∈ m_cond s -> u <> t ->
  sstep_ok t s (wake u s) /\
  total n (fun v => owed (aux (wake u s) v)) = (total n (fun v => owed (aux s v)) + 1)%Z.
Proof.
  intros [H1 H2 H3 H4 H5 H6 H7 H8] Hc Hut. destruct (H6 u Hc) as (Hu & Hst & Ho & _).
  assert (Htot : total n (fun v => owed (aux (wake u s) v)) =
                 (total n (fun v => owed (aux s v)) + 1)%Z).
  { simpl. rewrite total_aux by done. simpl. lia. }
  split; [split|done].
  - split; [done| | | | | | |]; simpl.
    + rewrite !total_aux by done. simpl. lia.
    + rewrite H3. apply total_ext. intros v Hv. unfold registered; simpl. fn_cases; [|done].
      by rewrite Hst.
    + intros v. fn_cases; [|apply H4]. simpl. split; [lia|apply H4].
    + intros v Hv. fn_cases; [lia|by apply H5].
    + intros v [Hne Hv]%list_elem_of_filter. rewrite fn_other by done. by apply H6.
    + intros v Hv. fn_cases; [done|]. destruct (H7 v Hv) as [?|?]; [left|by right].
      by apply list_elem_of_filter.
    + intros [v Hv]; simpl in Hv. simpl in Htot. rewrite Htot. fn_cases; [done|].
      specialize (H8 ltac:(by exists v)). lia.
  - intros v Hv. split; simpl; [done| |].
    + intros Hn. fn_cases; [done|]. split; [|done]. by intros [_ ?]%list_elem_of_filter.
    + intros Hn. fn_cases.
      * right. split; [|done]. by intros [? _]%list_elem_of_filter.
      * left. split; [|done]. by apply list_elem_of_filter.
Qed.

Lemma chosen_Some o l u : chosen o l = Some u -> u ∈ l.
Proof. apply list_elem_of_lookup_2. Qed.

Lemma chosen_None o l : chosen o l = None -> l = [].
Proof.
  unfold chosen. destruct l as [|x l]; [done|]. intros H. exfalso.
  apply lookup_ge_None in H. pose proof (Nat.mod_upper_bound o (length (x :: l))). simpl in *. lia.
Qed.

(** A notification does not touch a thread that is not waiting. *)
Lemma notify_one_other o t s :
  t ∉ m_cond s -> t ∉ m_cond (notify_one o s) /\ aux (notify_one o s) t = aux s t /\
  m_CS (notify_one o s) = m_CS s.
Proof.
  intros Hc. unfold notify_one. destruct (chosen o (m_cond s)) as [u|] eqn:E; [|done].
  apply chosen_Some in E. simpl. rewrite fn_other by congruence. split_and!; [|done|done].
  by intros [_ ?]%list_elem_of_filter.
Qed.

Lemma notify_all_other t s :
  t ∉ m_cond s -> t ∉ m_cond (notify_all s) /\ aux (notify_all s) t = aux s t /\
  m_CS (notify_all s) = m_CS s.
Proof.
  intros Hc. simpl. rewrite bool_decide_false by done. split_and!; [|done|done].
  apply not_elem_of_nil.
Qed.

Lemma notify_one_ok o t s :
  sem_inv s -> t < n -> t ∉ m_cond s -> m_CS s = None -> at_stage (aux s t) = Outside ->
  (owed (aux s t) <= 1)%Z -> sstep_ok t s (with_aux t settled (notify_one o s)).
Proof.
  intros Hs Ht Hc Hl Hst Ho. unfold notify_one. destruct (chosen o (m_cond s)) as [u|] eqn:E.
  - apply chosen_Some in E. assert (Hut : u <> t) by congruence.
    destruct (wake_ok t u s Hs E Hut) as [Hw Htot]. eapply sstep_trans; [exact Hw|].
    destruct Hw as [Hw _]. pose proof (si_aux _ Hs t) as Ha.
    assert (Et : aux (wake u s) t = aux s t) by (simpl; by rewrite fn_other).
    apply (own_ok t _ (settled (aux (wake u s) t)) (m_count s) (m_waiters s));
      rewrite ?Et; try done; try lia.
    + simpl. by intros [_ ?]%list_elem_of_filter.
    + apply Hs.
    + simpl. lia.
    + unfold is_in; simpl. lia.
    + simpl. lia.
    + simpl. congruence.
    + rewrite Htot. intros Hd. specialize (si_wake _ Hs). intros Hk.
      assert (drowsy s) by (exists u; by apply (si_cond _ Hs)). specialize (Hk H). simpl in *. lia.
  - apply chosen_None in E. apply settled_ok; [done..|congruence|].
    intros [u Hu]. destruct (si_drowsy _ Hs u Hu) as [Hin|?]; [|congruence].
    rewrite E in Hin. by apply not_elem_of_nil in Hin.
Qed.

Lemma notify_all_ok t s :
  sem_inv s -> t < n -> t ∉ m_cond s -> m_CS s = None -> at_stage (aux s t) = Outside ->
  sstep_ok t s (with_aux t settled (notify_all s)).
Proof.
  intros Hs Ht Hc Hl Hst. pose proof Hs as [H1 H2 H3 H4 H5 H6 H7 H8].
  assert (Hnd : ~ drowsy (notify_all s)).
  { intros [u Hu]. simpl in Hu. case_bool_decide; [done|]. destruct (H7 u Hu); congruence. }
  assert (Hna : sstep_ok t s (notify_all s)).
  { split.
    - split; simpl; [done| | | | | | |].
      + rewrite H2. f_equal; [f_equal|]; apply total_ext; intros u _; by case_bool_decide.
      + rewrite H3. apply total_ext. intros u _. unfold registered; simpl. case_bool_decide; [|done].
        simpl. by destruct (H6 u) as (_ & -> & _).
      + intros u. destruct (H4 u) as (? & ? & ?). case_bool_decide; simpl; lia.
      + intros u Hu. case_bool_decide as Hin; [|by apply H5]. destruct (H6 u Hin). lia.
      + by intros u ?%not_elem_of_nil.
      + intros u Hu. destruct Hnd. by exists u.
      + intros Hd. by destruct Hnd.
    - intros u Hu. split; simpl; [done| |].
      + intros Hn. rewrite bool_decide_false by done. split; [|done]. apply not_elem_of_nil.
      + intros Hn. right. rewrite bool_decide_true by done. split; [apply not_elem_of_nil|done]. }
  eapply sstep_trans; [exact Hna|]. apply settled_ok; [apply Hna|done| | |done].
  - apply not_elem_of_nil.
  - simpl. rewrite bool_decide_false by done. congruence.
Qed.
End invariant.

End Sem.

(** * A process whose threads share one semaphore *)
Module SemProcess.
Import Sem.

Inductive call := TryAcquire | SpinAcquire (spins : Z) | WaitAcquire | Release (count : Z).
Inductive event := Acquired (t : nat) (r : bool) | Releasing (t : nat) (count : Z).

Record process := Process { sem : semaphore; log : list event }.

Definition sem_lens : lens process semaphore.
Proof.
  refine {| get := sem; set b s := Process b (log s) |}; by intros; try destruct s.
Defined.
Definition emit (e : event) : prog process unit :=
  modify (fun s => Process (sem s) (e :: log s)).

Definition run_call (t : nat) (c : call) : prog process unit :=
  match c with
  | TryAcquire => let! r := try_acquire sem_lens t in emit (Acquired t r)
  | SpinAcquire spins => let! r := spin_acquire sem_lens t spins in emit (Acquired t r)
  | WaitAcquire => let! r := wait_acquire sem_lens t in emit (Acquired t r)
  | Release count => do! emit (Releasing t count) in release sem_lens t count
  end.

Definition start (count : Z) (scripts : list (list call)) : cfg process :=
  (Process (make_semaphore count) [], imap (fun t cs => each (run_call t) cs) scripts).

(** What thread [t] has acquired, and released or begun to, by the log. *)
Fixpoint acquired_by (t : nat) (l : list event) : Z :=
  match l with
  | [] => 0
  | Acquired u true :: l => acquired_by t l + if decide (u = t) then 1 else 0
  | _ :: l => acquired_by t l
  end.
Fixpoint releasing_by (t : nat) (l : list event) : Z :=
  match l with
  | [] => 0
  | Releasing u k :: l => releasing_by t l + if decide (u = t) then k else 0
  | _ :: l => releasing_by t l
  end.

(** What a script releases in total. *)
Fixpoint releases (cs : list call) : Z :=
  match cs with
  | [] => 0
  | Release k :: cs => k + releases cs
  | _ :: cs => releases cs
  end.
Definition cap_of (scripts : list (list call)) (t : nat) : Z :=
  match scripts !! t with Some cs => releases cs | None => 0 end.
(** Counts are positive, and the count can never exceed an int. *)
Definition fits (count : Z) (scripts : list (list call)) : Prop :=
  (forall cs k, cs ∈ scripts -> Release k ∈ cs -> (0 < k)%Z) /\
  bounded (length scripts) count (cap_of scripts).

Section proof.
Context (n : nat) (init : Z) (cap : nat -> Z) (Hbound : bounded n init cap).
#[local] Abbreviation sem_inv := (sem_inv n init cap).
#[local] Abbreviation sstep_ok := (sstep_ok n init cap).

Definition tracked (t : nat) (s : process) : Prop :=
  (acquired_by t (log s) <= taken (aux (sem s) t) /\
   added (aux (sem s) t) <= releasing_by t (log s))%Z.

Record good (s : process) : Prop := {
  good_sem : sem_inv (sem s);
  good_tracked t : tracked t s
}.

Record keeps (t : nat) (s s' : process) : Prop := {
  keeps_sem : srely t (sem s) (sem s');
  keeps_acquired : acquired_by t (log s') = acquired_by t (log s);
  keeps_releasing : releasing_by t (log s') = releasing_by t (log s)
}.

(** A thread is held up only by another one inside the mutex. *)
Definition held_up (t : nat) (s : process) : Prop :=
  exists u, m_CS (sem s) = Some u /\ u <> t.

Definition protocol : Conc.protocol process.
Proof.
  refine (Protocol good keeps held_up _).
  intros t. split; [by split|]. intros x y z [H1 H2 H3] [H4 H5 H6].
  split; [by transitivity (sem y)|congruence..].
Defined.

(** One action on the semaphore. *)
Lemma on_spec t A (f : nat -> semaphore -> option (semaphore * A)) P (Q : A -> process -> Prop) :
  stable protocol t P -> (forall a, stable protocol t (Q a)) ->
  (forall a s, Q a s -> tracked t s) ->
  (forall s, good s -> P s -> enabled (fun o => f o (sem s)) \/ held_up t s) ->
  (forall o s x a, good s -> P s -> f o (sem s) = Some (x, a) ->
     sstep_ok t (sem s) x /\ Q a (Process x (log s))) ->
  triple protocol t P (on sem_lens f) Q.
Proof.
  intros HP HQ HT Hb H. apply triple_block; [done|done| |].
  - intros s Hs HPs. destruct (Hb s Hs HPs) as [(o & Hn & Ho)|?]; [left; exists o; split; [done|]|by right].
    simpl. by destruct (f o (sem s)) as [[]|].
  - intros o s s' a Hs HPs E. simpl in E.
    destruct (f o (sem s)) as [[x b]|] eqn:Ef; simplify_eq.
    destruct (H o s x a Hs HPs Ef) as [[Hi Hr] Hq]. split_and!; [|by split; [apply Hr|..]|done].
    split; [done|]. intros u. destruct (decide (u = t)) as [->|Hu]; [by eapply HT|].
    destruct (good_tracked _ Hs u) as [T1 T2]. destruct (Hr u Hu) as [_ R2 R3].
    unfold tracked; simpl. destruct (decide (u ∈ m_cond (sem s))) as [Hc|Hc].
    + destruct (R3 Hc) as [[_ ->]|[_ ->]]; done.
    + by destruct (R2 Hc) as [_ ->].
Qed.

Section operations.
(** What the thread has still to release when the operation is done. *)
Context (rest : Z) (Hrest : (0 <= rest)%Z).

(** What thread [t] knows of itself outside of the wait set: whether it holds
    the mutex, its stage, a bound of what it owes, what it has announced and not
    yet added, what it has taken and not yet logged. *)
Record own_at (lk : bool) (st : stage) (ow a k : Z) (t : nat) (s : process) : Prop := {
  own_lt : t < n;
  own_awake : t ∉ m_cond (sem s);
  own_lock : (m_CS (sem s) = Some t) <-> (lk = true);
  own_stage : at_stage (aux (sem s) t) = st;
  own_owed : (owed (aux (sem s) t) <= ow)%Z;
  own_added : added (aux (sem s) t) = (releasing_by t (log s) - a)%Z;
  own_taken : taken (aux (sem s) t) = (acquired_by t (log s) + k)%Z;
  own_rest : (releasing_by t (log s) + rest <= cap t)%Z
}.

(** ... and inside it, or notified and not yet awake. *)
Record sleeping_at (t : nat) (s : process) : Prop := {
  sl_lt : t < n;
  sl_lock : m_CS (sem s) <> Some t;
  sl_sleep : t ∈ m_cond (sem s) \/
    (t ∉ m_cond (sem s) /\ at_stage (aux (sem s) t) = Registered /\ (owed (aux (sem s) t) <= 1)%Z);
  sl_added : added (aux (sem s) t) = releasing_by t (log s);
  sl_taken : taken (aux (sem s) t) = acquired_by t (log s);
  sl_rest : (releasing_by t (log s) + rest <= cap t)%Z
}.

Lemma own_at_stable lk st ow a k t : stable protocol t (own_at lk st ow a k t).
Proof.
  intros s s' [H1 H2 H3 H4 H5 H6 H7 H8] _ _ [[R1 R2 R3] R4 R5].
  destruct (R2 H2) as [E1 E2]. split; [done|done|by rewrite R1|congruence|congruence|..].
  - rewrite E2, R5. done.
  - rewrite E2, R4. done.
  - by rewrite R5.
Qed.

Lemma sleeping_at_stable t : stable protocol t (sleeping_at t).
Proof.
  intros s s' [H1 H2 H3 H4 H5 H6] _ _ [[R1 R2 R3] R4 R5]. split; [done|by rewrite R1|..].
  - destruct H3 as [H3|(H3 & H7 & H8)].
    + destruct (R3 H3) as [[? _]|[? E]]; [by left|right]. by rewrite E.
    + destruct (R2 H3) as [? E]. right. by rewrite E.
  - rewrite R5, <- H4. destruct (decide (t ∈ m_cond (sem s))) as [Hc|Hc].
    + destruct (R3 Hc) as [[_ ->]|[_ ->]]; done.
    + by destruct (R2 Hc) as [_ ->].
  - rewrite R4, <- H5. destruct (decide (t ∈ m_cond (sem s))) as [Hc|Hc].
    + destruct (R3 Hc) as [[_ ->]|[_ ->]]; done.
    + by destruct (R2 Hc) as [_ ->].
  - by rewrite R5.
Qed.

Lemma own_at_tracked lk st ow a k t s :
  (0 <= a)%Z -> (0 <= k)%Z -> own_at lk st ow a k t s -> tracked t s.
Proof. intros Ha Hk [_ _ _ _ _ H6 H7 _]. split; lia. Qed.

Lemma sleeping_at_tracked t s : sleeping_at t s -> tracked t s.
Proof. intros [_ _ _ H4 H5 _]. split; lia. Qed.

(** ** The operations *)
Definition zero_stage (st : stage) : stage :=
  match st with Outside => Outside | _ => Drowsy end.

(** After the count has been read as [old]. *)
Definition tried (lk : bool) (st : stage) (ow : Z) (t : nat) (old : Z) (s : process) : Prop :=
  (0 <= old)%Z /\
  if Z.eqb old 0 then own_at lk (zero_stage st) 0 0 0 t s else own_at lk st ow 0 0 t s.

Lemma tried_stable lk st ow t old : stable protocol t (tried lk st ow t old).
Proof.
  unfold tried. intros s s' [H1 H2] Hs Hs' Hk. split; [done|].
  destruct (Z.eqb old 0); by eapply own_at_stable.
Qed.

Lemma saw_spec lk st ow t s :
  (st = Outside \/ lk = true) -> good s -> own_at lk st ow 0 0 t s ->
  sstep_ok t (sem s) (saw t (sem s)) /\
  tried lk st ow t (m_count (sem s)) (Process (saw t (sem s)) (log s)).
Proof.
  intros Hst Hs Ho. pose proof Ho as [H1 H2 H3 H4 H5 H6 H7 H8]. split.
  - apply saw_ok; [apply Hs|done|done|]. rewrite H4. destruct Hst as [?|?]; [by left|right].
    by apply H3.
  - split; [by apply (si_count _ _ _ _ (good_sem _ Hs))|]. unfold saw.
    destruct (Z.eqb (m_count (sem s)) 0); [|by destruct s].
    split; simpl; rewrite ?fn_same; simpl; try done.
    by rewrite H4.
Qed.

Lemma try_acquire_spec lk st ow t :
  st <> Drowsy -> (ow <= 1)%Z -> (st = Outside \/ lk = true) ->
  triple protocol t (own_at lk st ow 0 0 t) (try_acquire sem_lens t)
    (fun r => if r : bool then own_at lk st 0 0 1 t else own_at lk (zero_stage st) 0 0 0 t).
Proof.
  intros Hd How Hst.
  assert (Htr : forall old s, tried lk st ow t old s -> tracked t s).
  { intros old s [_ H]. by destruct (Z.eqb old 0); (eapply own_at_tracked; [| |exact H]). }
  unfold try_acquire. eapply triple_bind.
  { apply (on_spec t _ _ _ (tried lk st ow t)).
    - apply own_at_stable.
    - intros. apply tried_stable.
    - done.
    - intros s _ _. left. by apply enabled_0.
    - intros o s x c Hs Ho [= <- <-]. by apply saw_spec. }
  intros old. apply (triple_iter t _ _ (tried lk st ow t)).
  { intros. apply tried_stable. }
  { intros [|]; apply own_at_stable. }
  clear old. intros old. eapply triple_bind.
  { apply triple_assert; [apply tried_stable|]. intros s _ [? _]. lia. }
  intros ?. rewrite Z.eqb_sym. destruct (Z.eqb_spec old 0) as [->|Hne].
  { apply triple_ret; [apply tried_stable|]. by intros s _ [_ ?]. }
  eapply triple_bind.
  { apply (on_spec t _ _ _ (fun r => if r.1 : bool then own_at lk st 0 0 1 t else tried lk st ow t r.2)).
    - apply tried_stable.
    - intros [[|] c]; [apply own_at_stable|apply tried_stable].
    - intros [[|] c] s; [by apply own_at_tracked|apply Htr].
    - intros s _ _. left. by apply enabled_0.
    - intros o s x r Hs [_ Ho] [= E]. rewrite (proj2 (Z.eqb_neq old 0) Hne) in Ho.
      unfold cas_count in E. destruct (Z.eqb_spec (m_count (sem s)) old) as [Eo|_];
        [destruct (negb (Nat.eqb o o_spurious))|]; simplify_eq/=; [|by apply saw_spec..].
      destruct Ho as [H1 H2 H3 H4 H5 H6 H7 H8]. split.
      + apply took_ok; [apply Hs|done|done|by rewrite H4|lia|].
        pose proof (si_count _ _ _ _ (good_sem _ Hs)). lia.
      + split; simpl; rewrite ?fn_same; simpl; try done. lia. }
  intros [[|] c]; simpl; by apply triple_ret; [apply own_at_stable || apply tried_stable|].
Qed.

Lemma own_at_weaken lk st ow ow' a k t s :
  (ow <= ow')%Z -> own_at lk st ow a k t s -> own_at lk st ow' a k t s.
Proof. intros Hle [H1 H2 H3 H4 H5 H6 H7 H8]. split; [done..|lia|done|done|done]. Qed.

(** An action that only reads the count. *)
Lemma peek_spec lk st ow t :
  triple protocol t (own_at lk st ow 0 0 t) (on sem_lens (fun _ s => Some (s, m_count s)))
    (fun _ => own_at lk st ow 0 0 t).
Proof.
  apply on_spec; [apply own_at_stable|intros; apply own_at_stable| | |].
  - intros _ s. by apply own_at_tracked.
  - intros s _ _. left. by apply enabled_0.
  - intros _ s x a Hs Ho [= <- <-]. destruct s. split; [|done]. split; [apply Hs|done].
Qed.

Lemma spin_acquire_spec t spins :
  triple protocol t (own_at false Outside 0 0 0 t) (spin_acquire sem_lens t spins)
    (fun r => own_at false Outside 0 0 (if r : bool then 1 else 0) t).
Proof.
  unfold spin_acquire.
  apply (triple_iter t _ _ (fun _ => own_at false Outside 0 0 0 t)).
  { intros. apply own_at_stable. }
  { intros. apply own_at_stable. }
  intros i. destruct (Z.ltb i spins); [|by apply triple_ret; [apply own_at_stable|]].
  eapply triple_bind; [by apply try_acquire_spec; [|lia|left]|].
  intros [|]; [by apply triple_ret; [apply own_at_stable|]|]. simpl.
  apply (triple_bind _ _ _ _ _ _ (fun _ => own_at false Outside 0 0 0 t));
    [|by intros j; apply triple_ret; [apply own_at_stable|]].
  unfold relax. apply (triple_iter t _ _ (fun _ => own_at false Outside 0 0 0 t)
    _ (fun _ => own_at false Outside 0 0 0 t)).
  { intros. apply own_at_stable. }
  { intros. apply own_at_stable. }
  intros j. eapply triple_bind; [apply peek_spec|].
  intros c. apply triple_ret; [apply own_at_stable|]. intros s _ Ho.
  by destruct (Z.eqb 0 c && Z.ltb j spins).
Qed.

(** An action that is always enabled, between two states of one's own. *)
Lemma own_spec lk st ow a k lk' st' ow' a' k' t (f : semaphore -> semaphore) :
  (0 <= a')%Z -> (0 <= k')%Z ->
  (forall s, good s -> own_at lk st ow a k t s ->
     sstep_ok t (sem s) (f (sem s)) /\ own_at lk' st' ow' a' k' t (Process (f (sem s)) (log s))) ->
  triple protocol t (own_at lk st ow a k t) (on sem_lens (fun _ s => Some (f s, tt)))
    (fun _ => own_at lk' st' ow' a' k' t).
Proof.
  intros Ha Hk H. apply on_spec; [apply own_at_stable|intros; apply own_at_stable| | |].
  - intros _ s. by apply own_at_tracked.
  - intros s _ _. left. by apply enabled_0.
  - intros _ s x b Hs Ho [= <- _]. by apply H.
Qed.

Lemma lock_spec t st ow :
  triple protocol t (own_at false st ow 0 0 t) (lock sem_lens t) (fun _ => own_at true st ow 0 0 t).
Proof.
  apply on_spec; [apply own_at_stable|intros; apply own_at_stable| | |].
  - intros _ s. by apply own_at_tracked.
  - intros s Hs Ho. destruct (m_CS (sem s)) as [u|] eqn:E; [right|left; by apply enabled_0].
    exists u. split; [done|]. intros ->. by apply Ho in E.
  - intros _ s x b Hs [H1 H2 H3 H4 H5 H6 H7 H8] E. destruct (m_CS (sem s)) eqn:El; [done|].
    injection E as <- _. split; [by apply lock_ok; [apply Hs|..]|].
    by split; simpl.
Qed.

Lemma unlock_spec t st ow k :
  st <> Drowsy -> (0 <= k)%Z ->
  triple protocol t (own_at true st ow 0 k t) (unlock sem_lens) (fun _ => own_at false st ow 0 k t).
Proof.
  intros Hst Hk. apply own_spec; [done|done|]. intros s Hs [H1 H2 H3 H4 H5 H6 H7 H8]. split.
  - apply (unlock_ok _ _ _ t); [apply Hs|by apply H3|congruence].
  - by split; simpl.
Qed.

Lemma fall_asleep_spec t :
  triple protocol t (own_at true Drowsy 0 0 0 t) (fall_asleep sem_lens t) (fun _ => sleeping_at t).
Proof.
  apply on_spec; [apply own_at_stable|intros; apply sleeping_at_stable| | |].
  - intros _ s. apply sleeping_at_tracked.
  - intros s _ _. left. by apply enabled_0.
  - intros _ s x b Hs [H1 H2 H3 H4 H5 H6 H7 H8] [= <- _].
    pose proof (si_aux _ _ _ _ (good_sem _ Hs) t) as [? _]. split.
    + apply sleep_ok; [apply Hs|done|by apply H3|done|lia].
    + split; simpl; [done|done| |lia|lia|done]. left. by left.
Qed.

Lemma wake_up_spec t :
  triple protocol t (sleeping_at t) (wake_up sem_lens t) (fun _ => own_at true Registered 1 0 0 t).
Proof.
  apply on_spec; [apply sleeping_at_stable|intros; apply own_at_stable| | |].
  - intros _ s. by apply own_at_tracked.
  - intros s Hs Ho. destruct (m_CS (sem s)) as [u|] eqn:E; [right|left; exists o_timeout; split; [done|]].
    + exists u. split; [done|]. intros ->. by apply Ho in E.
    + by case_bool_decide.
  - intros o s x b Hs [H1 H2 H3 H4 H5 H8] E. destruct (m_CS (sem s)) eqn:El; [done|].
    case_bool_decide as Hc.
    + destruct (Nat.eqb o o_spurious || Nat.eqb o o_timeout); simplify_eq.
      pose proof (si_cond _ _ _ _ (good_sem _ Hs) t Hc) as (_ & _ & Ho & _).
      split; [by apply rouse_ok; [apply Hs|..]|].
      split; simpl; rewrite ?fn_same; simpl; try done; try lia.
      by intros [? _]%list_elem_of_filter.
    + destruct H3 as [?|(_ & H6 & H7)]; [done|]. simplify_eq.
      split; [by apply lock_ok; [apply Hs|..]|]. split; simpl; try done; lia.
Qed.

Lemma wait_for_spec t :
  triple protocol t (own_at true Registered 0 0 0 t) (wait_for sem_lens t)
    (fun r => own_at true (if r : bool then Registered else Drowsy) 0 0 (if r : bool then 1 else 0) t).
Proof.
  eapply triple_pre; [|intros s _; by apply (own_at_weaken _ _ 0 1)].
  unfold wait_for. apply (triple_iter t _ _ (fun _ => own_at true Registered 1 0 0 t)).
  { intros. apply own_at_stable. }
  { intros. apply own_at_stable. }
  intros _. eapply triple_bind; [by apply try_acquire_spec; [|lia|right]|].
  intros [|]; [by apply triple_ret; [apply own_at_stable|]|]. simpl.
  eapply triple_bind; [apply fall_asleep_spec|]. intros ?.
  eapply triple_bind; [apply wake_up_spec|].
  intros [|]; [|by apply triple_ret; [apply own_at_stable|]].
  eapply triple_bind; [by apply try_acquire_spec; [|lia|right]|].
  intros [|]; by apply triple_ret; [apply own_at_stable|].
Qed.

Lemma wait_acquire_spec t :
  triple protocol t (own_at false Outside 0 0 0 t) (wait_acquire sem_lens t)
    (fun r => own_at false Outside 0 0 (if r : bool then 1 else 0) t).
Proof.
  unfold wait_acquire. eapply triple_bind; [by apply try_acquire_spec; [|lia|left]|].
  intros [|]; [by apply triple_ret; [apply own_at_stable|]|]. simpl.
  eapply triple_bind; [apply lock_spec|]. intros ?.
  eapply triple_bind; [by apply try_acquire_spec; [|lia|left]|].
  intros [|]; simpl.
  { eapply triple_bind; [by apply unlock_spec; [|lia]|]. intros ?.
    by apply triple_ret; [apply own_at_stable|]. }
  eapply triple_bind.
  { apply (own_spec _ _ _ _ _ true Registered 0 0 0); [done|done|].
    intros s Hs [H1 H2 H3 H4 H5 H6 H7 H8]. split.
    - by apply waiter_enter_ok; [|apply Hs|..].
    - split; simpl; rewrite ?fn_same; simpl; done. }
  intros ?. eapply triple_bind; [apply wait_for_spec|]. intros r.
  eapply triple_bind.
  { apply (own_spec _ _ _ _ _ true Outside 0 0 (if r : bool then 1 else 0)%Z); [done|by destruct r|].
    intros s Hs [H1 H2 H3 H4 H5 H6 H7 H8]. split.
    - apply waiter_leave_ok; [done|apply Hs|done|done|]. rewrite H4. by destruct r.
    - split; simpl; rewrite ?fn_same; simpl; done. }
  intros ?. eapply triple_bind; [by apply unlock_spec; [|by destruct r]|].
  intros ?. by apply triple_ret; [apply own_at_stable|].
Qed.

(** release(k), announced in the log. *)
Lemma release_spec t k :
  (0 < k)%Z ->
  triple protocol t (own_at false Outside 0 k 0 t) (release sem_lens t k) (fun _ => own_at false Outside 0 0 0 t).
Proof.
  intros Hk. unfold release.
  eapply triple_bind; [apply triple_assert; [apply own_at_stable|intros; lia]|]. intros ?.
  eapply triple_bind.
  { apply (on_spec t _ _ _ (fun _ => own_at false Outside k 0 0 t)).
    - apply own_at_stable.
    - intros. apply own_at_stable.
    - intros _ s. by apply own_at_tracked.
    - intros s _ _. left. by apply enabled_0.
    - intros _ s x b Hs [H1 H2 H3 H4 H5 H6 H7 H8] [= <- _].
      destruct (gave_ok n init cap t (sem s) k) as [-> Hg]; [done|apply Hs|done|done|congruence|done|lia|].
      split; [done|]. split; simpl; rewrite ?fn_same; simpl; try done; lia. }
  intros ?. eapply triple_bind.
  { apply (on_spec t _ _ _ (fun w => own_at false Outside (if Z.eqb 0 w then 0 else k) 0 0 t)).
    - apply own_at_stable.
    - intros. apply own_at_stable.
    - intros w s. by apply own_at_tracked.
    - intros s _ _. left. by apply enabled_0.
    - intros _ s x w Hs [H1 H2 H3 H4 H5 H6 H7 H8] [= <- <-].
      destruct (Z.eqb_spec 0 (m_waiters (sem s))) as [E|E].
      + split; [|by split; simpl; rewrite ?fn_same; simpl].
        apply settled_ok; [apply Hs|done|done|congruence|].
        intros [u Hu]. by rewrite (unregistered _ _ _ _ u (good_sem _ Hs) (eq_sym E)) in Hu.
      + destruct s. split; [split; [apply Hs|done]|]. by split. }
  intros w. cbv beta. destruct (Z.eqb 0 w); [apply triple_skip, own_at_stable|].
  apply on_spec; [apply own_at_stable|intros; apply own_at_stable| | |].
  - intros _ s. by apply own_at_tracked.
  - intros s Hs Ho. destruct (m_CS (sem s)) as [u|] eqn:E; [right|left; by apply enabled_0].
    exists u. split; [done|]. intros ->. by apply Ho in E.
  - intros o s x b Hs [H1 H2 H3 H4 H5 H6 H7 H8] E. destruct (m_CS (sem s)) eqn:El; [done|].
    injection E as <- _.
    assert (Hpost : forall x, t ∉ m_cond x /\ aux x t = aux (sem s) t /\ m_CS x = m_CS (sem s) ->
              own_at false Outside 0 0 0 t (Process (with_aux t settled x) (log s))).
    { intros x (X1 & X2 & X3). split; simpl; rewrite ?fn_same, ?X2; simpl; try done.
      by rewrite X3, El. }
    destruct (Z.eqb_spec 1 k) as [<-|Hne].
    + split; [by apply notify_one_ok; [apply Hs|..]|]. by apply Hpost, notify_one_other.
    + split; [by apply notify_all_ok; [apply Hs|..]|]. by apply Hpost, notify_all_other.
Qed.
End operations.

(** ** The calls of the threads *)

Lemma sem_emit_spec t r r' ow a a' k k' e :
  (forall u l, u <> t -> acquired_by u (e :: l) = acquired_by u l /\
                         releasing_by u (e :: l) = releasing_by u l) ->
  (forall l, acquired_by t (e :: l) + k' = acquired_by t l + k)%Z ->
  (forall l, releasing_by t (e :: l) - a' = releasing_by t l - a)%Z ->
  (r + a = r' + a')%Z -> (0 <= a')%Z -> (0 <= k')%Z ->
  triple protocol t (own_at r false Outside ow a k t) (emit e)
    (fun _ => own_at r' false Outside ow a' k' t).
Proof.
  intros Ho Ha Hr Hd Ha' Hk'. apply triple_modify; [apply own_at_stable..|].
  intros s Hs [H1 H2 H3 H4 H5 H6 H7 H8].
  specialize (Ha (log s)). specialize (Hr (log s)). split_and!.
  - split; [apply Hs|]. intros u. destruct (decide (u = t)) as [->|Hu].
    + split; unfold acquired_by in *; simpl in *; lia.
    + destruct (Ho u (log s) Hu) as [E1 E2]. unfold tracked. simpl log. rewrite E1, E2. apply Hs.
  - intros u Hu. destruct (Ho u (log s) Hu) as [E1 E2]. by split.
  - split; simpl log; simpl sem; try done; lia.
Qed.

Lemma sem_run_call_spec t c r :
  (forall k, c = Release k -> 0 < k)%Z -> (0 <= r)%Z ->
  triple protocol t (own_at (releases [c] + r) false Outside 0 0 0 t) (run_call t c)
    (fun _ => own_at r false Outside 0 0 0 t).
Proof.
  intros Hk Hr.
  assert (Hlog : forall b : bool, triple protocol t (own_at r false Outside 0 0 (if b then 1 else 0) t)
                   (emit (Acquired t b)) (fun _ => own_at r false Outside 0 0 0 t)).
  { intros b. apply sem_emit_spec; try done.
    - intros u l Hu. destruct b; simpl; [|done]. rewrite decide_False by done. lia.
    - intros l. destruct b; simpl; [rewrite decide_True by done|]; lia. }
  destruct c as [|spins| |k]; simpl.
  - eapply triple_bind; [by apply try_acquire_spec; [|lia|left]|].
    intros b. specialize (Hlog b). by destruct b.
  - eapply triple_bind; [apply spin_acquire_spec|exact Hlog].
  - eapply triple_bind; [by apply wait_acquire_spec|exact Hlog].
  - specialize (Hk k eq_refl). eapply triple_bind.
    { apply (sem_emit_spec t _ r 0 0 k 0 0).
      - intros u l Hu. simpl. rewrite decide_False by done. lia.
      - intros l. simpl. lia.
      - intros l. simpl. rewrite decide_True by done. lia.
      - lia.
      - lia.
      - done. }
    intros ?. by apply release_spec.
Qed.

Lemma releases_nonneg cs : (forall k, Release k ∈ cs -> 0 < k)%Z -> (0 <= releases cs)%Z.
Proof.
  induction cs as [|c cs IH]; intros H; [done|].
  assert (0 <= releases cs)%Z by (apply IH; intros k Hk; apply H; by right).
  destruct c; simpl; [done..|]. specialize (H count (list_elem_of_here _ _)). lia.
Qed.

Lemma sem_run_calls_spec t cs :
  (forall k, Release k ∈ cs -> 0 < k)%Z ->
  triple protocol t (own_at (releases cs) false Outside 0 0 0 t) (each (run_call t) cs)
    (fun _ => own_at 0 false Outside 0 0 0 t).
Proof.
  induction cs as [|c cs IH]; intros H; simpl each; [apply triple_skip, own_at_stable|].
  eapply triple_bind.
  - eapply triple_pre; [apply (sem_run_call_spec t c (releases cs))|].
    + intros k ->. apply H, list_elem_of_here.
    + apply releases_nonneg. intros k Hk. apply H. by right.
    + intros s _ Ho. destruct c; simpl in *; rewrite ?Z.add_0_l, ?Z.add_0_r; exact Ho.
  - intros ?. apply IH. intros k Hk. apply H. by right.
Qed.
End proof.

(** ** What holds of every process *)
Definition acquired (n : nat) (l : list event) : Z := total n (fun t => acquired_by t l).
Definition releasing (n : nat) (l : list event) : Z := total n (fun t => releasing_by t l).

Section sound.
Context (count : Z) (scripts : list (list call)) (Hfits : fits count scripts).
#[local] Abbreviation n := (length scripts).
#[local] Abbreviation cap := (cap_of scripts).
#[local] Abbreviation W := (protocol n count cap).

Lemma cap_of_nonneg t : (0 <= cap t)%Z.
Proof.
  unfold cap_of. destruct (scripts !! t) as [cs|] eqn:E; [|done].
  apply releases_nonneg. intros k. apply Hfits. by eapply list_elem_of_lookup_2.
Qed.

Lemma start_good : good n count cap (Process (make_semaphore count) []).
Proof.
  destruct Hfits as [_ (H0 & _ & _)]. split; [|by intros t].
  split; simpl; try done.
  - rewrite !(total_zero _ (fun _ => 0%Z)) by done. lia.
  - rewrite total_zero; [done|]. by intros.
  - intros t. pose proof (cap_of_nonneg t). lia.
  - intros t Ht. by apply not_elem_of_nil in Ht.
  - by intros [t Ht].
Qed.

Definition rested (r : Z) (t : nat) (s : process) : Prop :=
  t < n -> own_at n cap r false Outside 0 0 0 t s.

Lemma semaphore_sound c :
  reach (start count scripts) c ->
  sound W (start count scripts).1 (rested 0) c.
Proof.
  apply (rg_sound (fun t => rested (cap t) t) (rested 0)); [apply start_good| |].
  - intros t Ht. split; simpl; try done. apply not_elem_of_nil.
  - intros t p Hp. rewrite list_lookup_imap in Hp.
    destruct (scripts !! t) as [cs|] eqn:Et; simplify_eq/=.
    assert (Ht : t < n) by (by eapply lookup_lt_Some).
    eapply triple_conseq; [apply (sem_run_calls_spec n count cap)|..].
    + apply Hfits.
    + intros k. apply Hfits. by eapply list_elem_of_lookup_2.
    + intros s _ Hr. specialize (Hr Ht). unfold cap_of in Hr at 2. by rewrite Et in Hr.
    + intros a s _ Ho _. exact Ho.
Qed.

Lemma threads_count c : reach (start count scripts) c -> length c.2 = n.
Proof. intros Hc%reach_length. rewrite Hc. apply length_imap. Qed.
End sound.

(** C18: whatever the interleaving no assertion fails, no more is acquired than
    the initial count and the releases begun allow, and when all calls have
    returned the count is the initial count plus what was released minus the
    successful acquisitions: no unit is lost or made up. *)
Theorem semaphore_conserves count scripts c :
  fits count scripts -> reach (start count scripts) c ->
  no_fault c /\
  (acquired (length scripts) (log c.1) <= count + releasing (length scripts) (log c.1))%Z /\
  ((forall t, t < length scripts -> thread_done c t = true) ->
   m_count (sem c.1) = (count + releasing (length scripts) (log c.1)
                        - acquired (length scripts) (log c.1))%Z).
Proof.
  intros Hf Hc%semaphore_sound; [|done]. pose proof (sound_inv Hc) as Hg.
  pose proof (good_sem _ _ _ _ Hg) as Hs. pose proof (si_conserve _ _ _ _ Hs) as Hk.
  split_and!; [apply Hc| |].
  - pose proof (si_count _ _ _ _ Hs).
    assert (acquired (length scripts) (log c.1) <=
            total (length scripts) (fun t => taken (aux (sem c.1) t)))%Z
      by (apply total_le; intros; apply Hg).
    assert (total (length scripts) (fun t => added (aux (sem c.1) t)) <=
            releasing (length scripts) (log c.1))%Z by (apply total_le; intros; apply Hg).
    simpl in *. lia.
  - intros Hd. rewrite Hk. unfold releasing, acquired. f_equal; [f_equal|];
      apply total_ext; intros t Ht;
      destruct (sound_post Hc t (Hd t Ht) Ht) as [_ _ _ _ _ H6 H7 _]; lia.
Qed.

(** C19: no wake-up is lost: when every thread has returned or sleeps in
    wait_acquire, then nobody sleeps or there is nothing to acquire. *)
Theorem semaphore_no_lost_wakeup count scripts c :
  fits count scripts -> reach (start count scripts) c ->
  (forall t, t < length scripts -> thread_done c t = true \/ t ∈ m_cond (sem c.1)) ->
  m_cond (sem c.1) = [] \/ m_count (sem c.1) = 0%Z.
Proof.
  intros Hf Hc%semaphore_sound Hq; [|done]. pose proof (sound_inv Hc) as Hg.
  pose proof (good_sem _ _ _ _ Hg) as Hs. destruct (m_cond (sem c.1)) as [|u l] eqn:El; [by left|right].
  assert (Hdr : drowsy (sem c.1)).
  { exists u. apply (si_cond _ _ _ _ Hs). rewrite El. by left. }
  apply (si_wake _ _ _ _ Hs) in Hdr. rewrite total_zero in Hdr.
  { pose proof (si_count _ _ _ _ Hs). lia. }
  intros t Ht. destruct (Hq t Ht) as [Hd|Hd].
  - destruct (sound_post Hc t Hd Ht) as [_ _ _ _ H5 _ _ _].
    pose proof (si_aux _ _ _ _ Hs t). lia.
  - apply (si_cond _ _ _ _ Hs). by rewrite El.
Qed.

(** The semaphore cannot deadlock: as long as a thread has calls left, some
    thread can move. *)
Theorem semaphore_no_deadlock count scripts c t :
  fits count scripts -> reach (start count scripts) c ->
  t < length scripts -> thread_done c t = false ->
  exists u, can_move c u.
Proof.
  intros Hf Hr Ht Hd. pose proof (threads_count _ _ _ Hr) as Hn.
  pose proof (semaphore_sound _ _ Hf _ Hr) as Hc.
  destruct (sound_live Hc t) as [?|(u & Hu & Hne)]; [lia|done|by exists t|].
  destruct (decide (u < length scripts)) as [Hlt|Hge].
  - destruct (thread_done c u) eqn:Hdu.
    + apply (sound_post Hc u Hdu Hlt) in Hu. done.
    + destruct (sound_live Hc u) as [?|(v & Hv & Hne')]; [lia|done|by exists u|].
      congruence.
  - destruct (sound_idle Hc u) as [[Hl _ _] _ _]; [lia|]. by apply Hl in Hu.
Qed.

(** Thread 0 sleeps, thread 1 releases two units, thread 2 only looks. *)
Definition scripts1 : list (list call) := [[WaitAcquire]; [Release 2]; [TryAcquire]].
Definition sleeping1 : cfg process := play (go 0 40) (start 0 scripts1).
Definition released1 : cfg process := play (go 2 30 ++ go 1 30) sleeping1.
Definition finished1 : cfg process := play (go 0 60) released1.

Lemma scripts1_fits : fits 0 scripts1.
Proof.
  split; [|vm_compute; by split_and!].
  intros cs k Hcs Hk. repeat (apply elem_of_cons in Hcs as [->|Hcs];
    [repeat (apply elem_of_cons in Hk as [Hk|Hk]; [by simplify_eq|]);
     by apply not_elem_of_nil in Hk|]).
  by apply not_elem_of_nil in Hcs.
Qed.

Theorem semaphore_conserves_witness :
  log finished1.1 = [Acquired 0 true; Releasing 1 2; Acquired 2 false] /\
  m_count (sem finished1.1) = 1%Z /\ no_fault finished1.
Proof.
  assert (H : reach (start 0 scripts1) finished1).
  { apply play_reach, play_reach, play_reach, reach_here. }
  destruct (semaphore_conserves 0 scripts1 finished1 scripts1_fits H) as (Hf & _ & Hd).
  split; [vm_compute; reflexivity|]. split; [|exact Hf]. rewrite Hd.
  - vm_compute. reflexivity.
  - intros t Ht. do 3 (destruct t as [|t]; [vm_compute; reflexivity|]).
    exfalso. revert Ht. vm_compute. lia.
Defined.

(** Everybody but the sleeper has returned: the count is zero. *)
Definition lonely : cfg process := play (go 2 30) (play (go 0 40) (start 0 [[WaitAcquire]; []; [TryAcquire]])).

Lemma lonely_fits : fits 0 [[WaitAcquire]; []; [TryAcquire]].
Proof.
  split; [|vm_compute; by split_and!].
  intros cs k Hcs Hk. repeat (apply elem_of_cons in Hcs as [->|Hcs];
    [repeat (apply elem_of_cons in Hk as [Hk|Hk]; [by simplify_eq|]);
     by apply not_elem_of_nil in Hk|]).
  by apply not_elem_of_nil in Hcs.
Qed.

Theorem semaphore_no_lost_wakeup_witness :
  m_cond (sem lonely.1) = [0] /\
  (m_cond (sem lonely.1) = [] \/ m_count (sem lonely.1) = 0%Z).
Proof.
  split; [vm_compute; reflexivity|].
  apply (semaphore_no_lost_wakeup 0 [[WaitAcquire]; []; [TryAcquire]] lonely lonely_fits).
  - apply play_reach, play_reach, reach_here.
  - intros t Ht. destruct t as [|[|[|t]]].
    + right. vm_compute. left.
    + left. vm_compute. reflexivity.
    + left. vm_compute. reflexivity.
    + exfalso. revert Ht. vm_compute. lia.
Defined.

Theorem semaphore_no_deadlock_witness :
  thread_done released1 0 = false /\ exists u, can_move released1 u.
Proof.
  split; [vm_compute; reflexivity|].
  apply (semaphore_no_deadlock 0 scripts1 released1 0 scripts1_fits).
  - apply play_reach, play_reach, reach_here.
  - vm_compute. lia.
  - vm_compute. reflexivity.
Defined.
End SemProcess.
