(* ===== verification/OperationQueue.v ===== *)
(** * OperationQueue: src/naive/naive_operation_queue.cpp, naive_operation_queue.h,
    naive_inverse_lockguard.h

    The serial queue of the naive backend: a list of jobs and a notification
    operation that is handed to a thread pool whenever the list stops being
    empty. *)
From S2P Require Import Prelude Conc.

Module OpQueue.

(** An operation: its number, and the operations it queues on the same queue while it
    runs. *)
Inductive op := Op (op_number : positive) (spawns : list op).
Arguments Op op_number%_positive spawns.
Definition op_number (j : op) : positive := match j with Op i _ => i end.
Definition spawns (j : op) : list op := match j with Op _ l => l end.

(** What the queue holds: operations it was given, and the one detach() makes. *)
Inductive job := Work (j : op) | Detaching.
Definition job_id (j : job) : nat := match j with Work j => Pos.to_nat (op_number j) | Detaching => 0 end.

(** [m_jobs] holds null while its front is being executed.  [m_pending] counts
    the notifications [m_threadpool] has been given and not yet started. *)
Record operation_queue := Queue {
  m_jobs : list (option job);
  m_active_drain : bool;
  m_is_attached : bool;
  m_notify_operation : bool;
  m_pending : nat
}.

Definition make_queue : operation_queue := Queue [] false false true 0.

Definition with_jobs (l : list (option job)) (q : operation_queue) : operation_queue :=
  Queue l (m_active_drain q) (m_is_attached q) (m_notify_operation q) (m_pending q).
Definition with_active_drain (b : bool) (q : operation_queue) : operation_queue :=
  Queue (m_jobs q) b (m_is_attached q) (m_notify_operation q) (m_pending q).
Definition with_attached (b : bool) (q : operation_queue) : operation_queue :=
  Queue (m_jobs q) (m_active_drain q) b (m_notify_operation q) (m_pending q).
Definition with_pending (n : nat) (q : operation_queue) : operation_queue :=
  Queue (m_jobs q) (m_active_drain q) (m_is_attached q) (m_notify_operation q) n.

Definition empty {A} (l : list A) : bool := match l with [] => true | _ => false end.

(** What the parts of a critical section report, in the order it happened. *)
Inductive event :=
| Queued (i : nat)          (* async put the operation into the list *)
| Notify                    (* the notification was given to the pool *)
| Woken (t : nat)           (* worker t began to run it *)
| DrainBegin (t : nat)
| Started (t i : nat)
| Finished (t i : nat)
| DrainEnd (t : nat)
| ManagerDetach (t : nat)   (* operation_queue_manager::detach was called *)
| Detached (t : nat).       (* detach returned *)

(** The critical sections of [m_CS]: a new state and the events. *)
Definition effect : Type := operation_queue * list event.
Definition also (f : operation_queue -> effect) (x : effect) : effect :=
  let (q, es) := f x.1 in (q, x.2 ++ es).

Definition notify_unsafe (q : operation_queue) : effect :=
  if m_notify_operation q then (with_pending (S (m_pending q)) q, [Notify]) else (q, []).

Definition async_unsafe (j : job) (q : operation_queue) : effect :=
  let notify := empty (m_jobs q) in
  let x := (with_jobs (m_jobs q ++ [Some j]) q, [Queued (job_id j)]) in
  if notify && m_is_attached q then also notify_unsafe x else x.

Definition attach (q : operation_queue) : effect := (with_attached true q, []).

(** With jobs left, an operation that tells the manager is queued behind them. *)
Definition detach (t : nat) (q : operation_queue) : effect :=
  let x := if empty (m_jobs q) then (q, [ManagerDetach t]) else async_unsafe Detaching q in
  (with_attached false x.1, x.2 ++ [Detached t]).

Definition kMaxOpsPerDrain : nat := 10.

(** drain(), from one release of the mutex to the next: what it goes on to do. *)
Inductive next := Leave | Execute (job : option job) (remaining : nat).

Definition drain_end (t : nat) (q : operation_queue) : effect :=
  let x := (with_active_drain false q, [DrainEnd t]) in
  if empty (m_jobs q) then x else also notify_unsafe x.

(** The head of the loop: leave, or swap the front with null and go on outside
    of the mutex; [None] is front() of an empty list. *)
Definition loop_head (t remaining : nat) (q : operation_queue) : option (effect * next) :=
  if Nat.eqb remaining 0 then Some (drain_end t q, Leave)
  else match m_jobs q with
       | [] => None
       | job :: l =>
           Some ((with_jobs (None :: l) q,
                  match job with Some j => [Started t (job_id j)] | None => [] end),
                 Execute job remaining)
       end.

Definition drain_begin (t : nat) (q : operation_queue) : option (effect * next) :=
  match loop_head t (Nat.min (length (m_jobs q)) kMaxOpsPerDrain) (with_active_drain true q) with
  | Some ((q', es), n) => Some ((q', DrainBegin t :: es), n)
  | None => None
  end.

(** ~deferred_pop and back to the head of the loop; [None] is an assertion that
    fails. *)
Definition drain_next (t remaining : nat) (q : operation_queue) : option (effect * next) :=
  match remaining, m_jobs q with
  | S remaining, _ :: l => loop_head t remaining (with_jobs l q)
  | _, _ => None
  end.

(** ~operation_queue: one turn of its loop; says whether it has to go on. *)
Definition destroy_turn (q : operation_queue) : operation_queue * bool :=
  (Queue (m_jobs q) (m_active_drain q) (m_is_attached q) false (m_pending q), m_active_drain q).

End OpQueue.

(** * The queue, the threads that use it and the workers of its pool *)
Module QueueProcess.
Import OpQueue.

Record process := Process { q : operation_queue; log : list event }.

(** The log keeps the latest event first. *)
Definition record_ (x : effect) (s : process) : process := Process x.1 (rev x.2 ++ log s).
Definition section_ (f : operation_queue -> effect) : prog process unit :=
  modify (fun s => record_ (f (q s)) s).
Definition emit (e : event) : prog process unit := section_ (fun q => (q, [e])).

Definition async (j : op) : prog process unit := section_ (async_unsafe (Work j)).

(** process_job: executing an operation queues what it spawns. *)
Definition execute_op (t : nat) (j : job) : prog process unit :=
  do! match j with Work j => each async (spawns j) | Detaching => emit (ManagerDetach t) end in
  emit (Finished t (job_id j)).

Definition step_drain (e : fault) (f : operation_queue -> option (effect * next)) : prog process next :=
  guarded e (fun _ s => Some (match f (q s) with
                              | Some (x, n) => Some (record_ x s, n)
                              | None => None
                              end)).

Definition drain (t : nat) : prog process unit :=
  let! n := step_drain Undefined (drain_begin t) in
  Iter (fun n =>
    match n with
    | Leave => Ret (inr tt)
    | Execute job remaining =>
        do! match job with Some j => execute_op t j | None => Ret tt end in
        let! n := step_drain Terminated (drain_next t remaining) in
        Ret (inl n)
    end) n.

(** A worker of the pool: takes a notification and runs it, for ever. *)
Definition take_notification (t : nat) : prog process unit :=
  await (fun s => negb (Nat.eqb (m_pending (q s)) 0))
        (fun s => record_ (with_pending (Nat.pred (m_pending (q s))) (q s), [Woken t]) s).
Definition worker (t : nat) : prog process unit :=
  Iter (fun _ => do! take_notification t in do! drain t in Ret (inl tt)) tt.

Inductive call := Async (j : op) | Detach.
Definition run_call (t : nat) (c : call) : prog process unit :=
  match c with
  | Async j => async j
  | Detach => section_ (detach t)
  end.

Inductive thread := Worker | Client (cs : list call).
Definition body (t : nat) (th : thread) : prog process unit :=
  match th with
  | Worker => worker t
  | Client cs => each (run_call t) cs
  end.
(** The queue has been attached by its owner. *)
Definition init : process := Process (attach make_queue).1 [].
Definition start (ths : list thread) : cfg process := (init, imap body ths).

(** ** What the queue promises: a first in, first out queue with one server *)
Inductive stage :=
| Idle
| Notified
| Awake (t : nat)
| Draining (t : nat) (running : option nat) (quota : nat).
Record spec := Spec { waiting : list nat; at_stage : stage }.
Definition spec_init : spec := Spec [] Idle.

(** The legal next events: at most one notification is under way, only the
    thread it woke drains, it starts the oldest waiting operation and finishes
    it before the next, at most ten of them per drain.  The manager is asked to
    let go of the queue by an operation while it is executed, so after all queued
    before it have finished, or when nothing waits and nothing runs. *)
Definition spec_step (e : event) (s : spec) : option spec :=
  match e, at_stage s with
  | Queued i, st => Some (Spec (waiting s ++ [i]) st)
  | Notify, Idle => if empty (waiting s) then None else Some (Spec (waiting s) Notified)
  | Woken t, Notified => Some (Spec (waiting s) (Awake t))
  | DrainBegin t, Awake u =>
      if Nat.eqb t u then Some (Spec (waiting s) (Draining t None kMaxOpsPerDrain)) else None
  | Started t i, Draining u None (S quota) =>
      match waiting s with
      | j :: w => if Nat.eqb t u && Nat.eqb i j then Some (Spec w (Draining t (Some i) quota)) else None
      | [] => None
      end
  | Finished t i, Draining u (Some j) quota =>
      if Nat.eqb t u && Nat.eqb i j then Some (Spec (waiting s) (Draining t None quota)) else None
  | DrainEnd t, Draining u None _ =>
      if Nat.eqb t u then Some (Spec (waiting s) Idle) else None
  | ManagerDetach t, Draining u (Some i) _ => if Nat.eqb t u && Nat.eqb i (job_id Detaching) then Some s else None
  | ManagerDetach _, Idle => if empty (waiting s) then Some s else None
  | Detached _, _ => Some s
  | _, _ => None
  end.

Fixpoint replay (l : list event) : option spec :=
  match l with
  | [] => Some spec_init
  | e :: l => match replay l with Some s => spec_step e s | None => None end
  end.

(** The operations queued and started so far, oldest first. *)
Fixpoint queued (l : list event) : list nat :=
  match l with
  | [] => []
  | Queued i :: l => queued l ++ [i]
  | _ :: l => queued l
  end.
Fixpoint started (l : list event) : list nat :=
  match l with
  | [] => []
  | Started _ i :: l => started l ++ [i]
  | _ :: l => started l
  end.
(** An operation was queued after detach() had returned. *)
Fixpoint late (l : list event) : bool :=
  match l with
  | [] => false
  | Queued _ :: l => existsb (fun e => match e with Detached _ => true | _ => false end) l || late l
  | _ :: l => late l
  end.

Lemma replay_fifo l : forall s, replay l = Some s -> queued l = started l ++ waiting s.
Proof.
  induction l as [|e l IH]; intros s H; simpl in *; [by simplify_eq|].
  destruct (replay l) as [s0|]; [|done]. specialize (IH s0 eq_refl).
  destruct e; simpl in *; branches H; try done.
  - by rewrite IH, <- app_assoc.
  - apply andb_true_iff in Heqb as [_ ->%Nat.eqb_eq]. rewrite IH. by rewrite <- app_assoc.
Qed.

(** Operations that have finished, oldest first. *)
Fixpoint completed (l : list event) : list nat :=
  match l with
  | [] => []
  | Finished _ i :: l => completed l ++ [i]
  | _ :: l => completed l
  end.
Definition running (st : stage) : list nat :=
  match st with Draining _ (Some i) _ => [i] | _ => [] end.

Lemma replay_completed l : forall sp,
  replay l = Some sp -> started l = completed l ++ running (at_stage sp).
Proof.
  induction l as [|e l IH]; intros sp H; simpl in *; [by simplify_eq|].
  destruct (replay l) as [s0|]; [|done]. specialize (IH s0 eq_refl).
  destruct e; simpl in *; branches H; rewrite ?Heqs in IH; simpl in IH; rewrite ?app_nil_r in *; try done.
  - by rewrite IH.
  - by apply andb_true_iff in Heqb as [_ ->%Nat.eqb_eq].
  - by rewrite Heqs; simpl; rewrite app_nil_r.
  - by rewrite Heqs.
Qed.

(** ** The invariant *)
Definition owns (t : nat) (st : stage) : Prop :=
  match st with Awake u | Draining u _ _ => t = u | _ => False end.
Definition draining (st : stage) : bool := match st with Draining _ _ _ => true | _ => false end.

Record agree (q : operation_queue) (sp : spec) : Prop := {
  ag_jobs : exists js, waiting sp = map job_id js /\
    m_jobs q = (if draining (at_stage sp) then [None] else []) ++ map Some js;
  ag_active : m_active_drain q = draining (at_stage sp);
  ag_pending : m_pending q = match at_stage sp with Notified => 1 | _ => 0 end;
  ag_busy : at_stage sp <> Idle -> m_jobs q <> []
}.

Definition has_detached (l : list event) : bool :=
  existsb (fun e => match e with Detached _ => true | _ => false end) l.

Record sane (s : process) : Prop := {
  sane_spec : exists sp, replay (log s) = Some sp /\ agree (q s) sp /\
    (at_stage sp = Idle -> m_jobs (q s) <> [] -> late (log s) = true);
  sane_attached : m_is_attached (q s) = negb (has_detached (log s))
}.

(** What detaching means for the order of events: it is announced when the operation
    of detach() is queued, and while nothing is queued after that, this operation is
    the last one and nothing is queued after the manager was asked. *)
Definition has_manager (l : list event) : bool :=
  existsb (fun e => match e with ManagerDetach _ => true | _ => false end) l.
Fixpoint stale (l : list event) : bool :=
  match l with
  | [] => false
  | Queued _ :: l => has_manager l || stale l
  | _ :: l => stale l
  end.
Definition last_only (i : nat) (l : list nat) : Prop := forall a b, l = a ++ i :: b -> b = [].

Record closing (l : list event) : Prop := {
  cl_announced : job_id Detaching ∈ queued l \/ has_manager l = true -> has_detached l = true;
  cl_last : late l = false -> stale l = false /\ last_only (job_id Detaching) (queued l)
}.

Record good (s : process) : Prop := {
  good_sane : sane s;
  good_closing : closing (log s);
  good_notify : m_notify_operation (q s) = true \/ has_manager (log s) = true
}.

Definition stage_of (s : process) : stage :=
  match replay (log s) with Some sp => at_stage sp | None => Idle end.

Record keeps (t : nat) (s s' : process) : Prop := {
  keeps_own : owns t (stage_of s) -> stage_of s' = stage_of s;
  keeps_not : ~ owns t (stage_of s) -> ~ owns t (stage_of s');
  keeps_jobs : owns t (stage_of s) -> length (m_jobs (q s)) <= length (m_jobs (q s'))
}.

(** A worker waits for a notification. *)
Definition waits (t : nat) (s : process) : Prop :=
  m_pending (q s) = 0 /\ ~ owns t (stage_of s).

#[export] Instance queue_keeps_pre t : PreOrder (keeps t).
Proof.
  split; [by split|]. intros x y z [H1 H2 H3] [H4 H5 H6]. split; [|auto|].
  - intros H. rewrite H4; [auto|by rewrite H1].
  - intros H. etransitivity; [by apply H3|]. apply H6. by rewrite H1.
Qed.

Definition protocol : Conc.protocol process := Protocol good keeps waits queue_keeps_pre.

Lemma owns_dec t st : {owns t st} + {~ owns t st}.
Proof. destruct st; simpl; try (right; tauto); destruct (Nat.eq_dec t t0); auto. Qed.

Lemma stage_of_spec s sp : replay (log s) = Some sp -> stage_of s = at_stage sp.
Proof. unfold stage_of. by intros ->. Qed.

Lemma sane_stage s : sane s -> exists sp, replay (log s) = Some sp /\ agree (q s) sp /\
  stage_of s = at_stage sp /\ (at_stage sp = Idle -> m_jobs (q s) <> [] -> late (log s) = true).
Proof.
  intros [(sp & H1 & H2 & H3) _]. exists sp. split_and!; [done|done|by apply stage_of_spec|done].
Qed.

Lemma good_stage s : good s -> exists sp, replay (log s) = Some sp /\ agree (q s) sp /\
  stage_of s = at_stage sp /\ (at_stage sp = Idle -> m_jobs (q s) <> [] -> late (log s) = true).
Proof. intros [Hs _]. by apply sane_stage. Qed.

(** A step whose stage belongs to [t] before, and to nobody else after. *)
Lemma keeps_mine t s s' :
  owns t (stage_of s) -> (forall u, u <> t -> ~ owns u (stage_of s')) -> guar protocol t s s'.
Proof.
  intros Ho Hn u Hu. assert (Hnu : ~ owns u (stage_of s)).
  { intros Ho'. destruct (stage_of s); simpl in *; congruence. }
  split; [done|auto|done].
Qed.

Lemma keeps_same u s s' :
  stage_of s' = stage_of s -> length (m_jobs (q s)) <= length (m_jobs (q s')) -> keeps u s s'.
Proof. intros E Hl. by split; rewrite ?E. Qed.

Lemma keeps_free u s s' :
  ~ owns u (stage_of s) -> ~ owns u (stage_of s') -> keeps u s s'.
Proof. intros H1 H2. split; [done|done|done]. Qed.

Lemma stage_from s l sp : replay l = Some sp -> stage_of (Process s l) = at_stage sp.
Proof. apply (stage_of_spec (Process s l)). Qed.

(** While the queue is attached it has its notification. *)
Definition notifies (s : process) : Prop := m_is_attached (q s) = true -> m_notify_operation (q s) = true.
Lemma good_notifies s : good s -> notifies s.
Proof.
  intros [[_ Ha] [Hc _] [Hn|Hn]] E; [done|]. rewrite Hc in Ha by by right. by rewrite E in Ha.
Qed.

Lemma jobs_idle s sp : agree (q s) sp -> m_jobs (q s) = [] -> at_stage sp = Idle.
Proof. intros [_ _ _ A] E. destruct (at_stage sp); [done|by destruct A..]. Qed.

Lemma agree_snoc j s sp : agree (q s) sp ->
  exists js, waiting sp ++ [job_id j] = map job_id js /\
    m_jobs (q s) ++ [Some j] = (if draining (at_stage sp) then [None] else []) ++ map Some js.
Proof.
  intros [(js & A1 & A2) _ _ _]. exists (js ++ [j]). by rewrite A1, A2, !map_app, <- app_assoc.
Qed.

(** A job behind others. *)
Lemma async_busy j s :
  sane s -> m_jobs (q s) <> [] ->
  let s' := record_ (async_unsafe j (q s)) s in
  sane s' /\ (forall u, keeps u s s') /\ stage_of s' = stage_of s.
Proof.
  intros Hs E s'. destruct (sane_stage s Hs) as (sp & H1 & H2 & H3 & H4).
  destruct (agree_snoc j s sp H2) as (js & J1 & J2). destruct H2 as [_ A3 A4 A6].
  assert (En : empty (m_jobs (q s)) = false) by (by destruct (m_jobs (q s))).
  subst s'. unfold record_, async_unsafe. rewrite En. simpl.
  assert (Hr : replay (Queued (job_id j) :: log s) = Some (Spec (waiting sp ++ [job_id j]) (at_stage sp))).
  { simpl. by rewrite H1. }
  split_and!; [split; [|apply Hs]| |by rewrite (stage_from _ _ _ Hr), H3].
  - eexists. split; [exact Hr|]. split; [split; simpl; [by exists js|done|done|by destruct (m_jobs (q s))]|].
    simpl. intros Ei _. rewrite (H4 Ei E). by destruct (existsb _ _).
  - intros u. apply keeps_same; [by rewrite H3, (stage_from _ _ _ Hr)|]. simpl. rewrite length_app. lia.
Qed.

(** The first job notifies the pool, unless the queue was detached. *)
Lemma async_first j s :
  sane s -> notifies s -> m_jobs (q s) = [] ->
  let s' := record_ (async_unsafe j (q s)) s in sane s' /\ (forall u, keeps u s s').
Proof.
  intros Hs Hn E s'. destruct (sane_stage s Hs) as (sp & H1 & H2 & H3 & H4).
  pose proof (jobs_idle s sp H2 E) as Ei. destruct (agree_snoc j s sp H2) as (js & J1 & J2).
  pose proof (sane_attached _ Hs) as Hg. destruct H2 as [_ A3 A4 A6].
  rewrite Ei in *. simpl in A3, A4, J2. rewrite E in J2. subst s'. unfold record_, async_unsafe. rewrite E. simpl.
  destruct (m_is_attached (q s)) eqn:Ea.
  - unfold also, notify_unsafe; simpl. rewrite (Hn Ea); simpl.
    assert (Hr : replay (Notify :: Queued (job_id j) :: log s) = Some (Spec (waiting sp ++ [job_id j]) Notified)).
    { simpl. rewrite H1. simpl. rewrite Ei. by destruct (waiting sp). }
    split; [split; [|by simpl; rewrite Ea]|].
    + eexists. split; [exact Hr|]. split; [|done]. split; simpl; [by exists js|done|by rewrite A4|done].
    + intros u. apply keeps_free; rewrite ?H3, ?(stage_from _ _ _ Hr); simpl; tauto.
  - assert (Hr : replay (Queued (job_id j) :: log s) = Some (Spec (waiting sp ++ [job_id j]) Idle)).
    { simpl. rewrite H1. simpl. by rewrite Ei. }
    split; [split; [|by simpl; rewrite Ea]|].
    + eexists. split; [exact Hr|]. split; [split; simpl; [by exists js|done..]|].
      intros _ _. simpl. unfold has_detached in Hg. by destruct (existsb _ _).
    + intros u. apply keeps_free; rewrite ?H3, ?(stage_from _ _ _ Hr); simpl; tauto.
Qed.

(** Queueing keeps what every thread, the caller included, relies on. *)
Lemma async_sane j s :
  sane s -> notifies s ->
  let s' := record_ (async_unsafe j (q s)) s in sane s' /\ (forall u, keeps u s s') /\
    (m_jobs (q s) <> [] -> stage_of s' = stage_of s).
Proof.
  intros Hs Hn s'. destruct (decide (m_jobs (q s) = [])) as [E|E].
  - by destruct (async_first j s Hs Hn E).
  - by destruct (async_busy j s Hs E) as (? & ? & ?).
Qed.

(** The manager may be asked by [t]. *)
Definition may_detach (t : nat) (s : process) : Prop :=
  m_jobs (q s) = [] \/ exists quota, stage_of s = Draining t (Some (job_id Detaching)) quota.

Lemma manager_detach_sane t s :
  may_detach t s ->
  sane s -> sane (Process (q s) (ManagerDetach t :: log s)) /\
    forall u, keeps u s (Process (q s) (ManagerDetach t :: log s)).
Proof.
  intros He Hs. destruct (sane_stage s Hs) as (sp & H1 & H2 & H3 & H4).
  assert (Hr : replay (ManagerDetach t :: log s) = Some sp).
  { simpl. rewrite H1. simpl. destruct He as [E|(quota & E)].
    - destruct H2 as [(js & A1 & A2) _ _ A6]. destruct (at_stage sp); [|by destruct A6..].
      rewrite A1. rewrite E in A2. by destruct js.
    - rewrite H3 in E. by rewrite E, !Nat.eqb_refl. }
  split.
  - split; [by exists sp|apply Hs].
  - intros u. apply keeps_same; [by rewrite H3, (stage_from _ _ _ Hr)|done].
Qed.

Lemma detach_sane t s :
  sane s -> notifies s ->
  let s' := record_ (detach t (q s)) s in sane s' /\ (forall u, keeps u s s').
Proof.
  intros Hs Hn. assert (Hlast : forall s1, sane s1 ->
    let s' := Process (with_attached false (q s1)) (Detached t :: log s1) in
    sane s' /\ forall u, keeps u s1 s').
  { intros s1 Hs1. destruct (sane_stage s1 Hs1) as (sp & H1 & [A1 A2 A3 A4] & H3 & H4).
    assert (Hr : replay (Detached t :: log s1) = Some sp).
    { simpl. rewrite H1. simpl. by destruct (at_stage sp). }
    split; [split|].
    - exists sp. split_and!; [done|by split|done].
    - done.
    - intros u. apply keeps_same; [by rewrite H3, (stage_from _ _ _ Hr)|done]. }
  unfold detach, record_. simpl. destruct (m_jobs (q s)) eqn:Ej; cbn [empty]; cbv iota; simpl.
  - destruct (manager_detach_sane t s (or_introl Ej) Hs) as [G1 K1].
    destruct (Hlast _ G1) as [G2 K2]. split; [exact G2|]. intros u.
    transitivity (Process (q s) (ManagerDetach t :: log s)); auto.
  - destruct (async_sane Detaching s Hs Hn) as (G1 & K1 & _).
    destruct (Hlast _ G1) as [G2 K2]. unfold record_ in *. simpl in *.
    rewrite rev_app_distr. split; [exact G2|]. intros u. etransitivity; [apply K1|apply K2].
Qed.

(** ** Detaching *)
Lemma last_only_not i l : i ∉ l -> last_only i l.
Proof. intros H a b ->. destruct H. apply elem_of_app. right. left. Qed.

Lemma last_only_snoc i l : i ∉ l -> last_only i (l ++ [i]).
Proof.
  intros H a b E. destruct b as [|x b _] using rev_ind; [done|].
  rewrite app_comm_cons, app_assoc in E. apply app_inj_tail in E as [-> _].
  destruct H. apply elem_of_app. right. left.
Qed.

Lemma closing_quiet e l :
  match e with Queued _ | ManagerDetach _ => False | _ => True end -> closing l -> closing (e :: l).
Proof.
  intros He [H1 H2].
  assert (Hd : has_detached l = true -> has_detached (e :: l) = true).
  { unfold has_detached. simpl. intros ->. apply orb_true_r. }
  destruct e; try done; split; simpl in *; auto.
Qed.

Lemma closing_late l : closing l -> has_detached l = false -> (job_id Detaching ∉ queued l) /\ has_manager l = false.
Proof.
  intros [H1 _] Hd. split.
  - intros H. rewrite H1 in Hd; [done|by left].
  - destruct (has_manager l); [|done]. rewrite H1 in Hd; [done|by right].
Qed.

Lemma closing_queued j l : closing l -> closing (Queued (job_id (Work j)) :: l).
Proof.
  intros Hc. assert (Hj : job_id Detaching <> job_id (Work j)) by (simpl; lia). split.
  - intros H. apply (cl_announced _ Hc). simpl in H. rewrite elem_of_app, list_elem_of_singleton in H. tauto.
  - intros [Hd Hl]%orb_false_iff. destruct (closing_late l Hc Hd) as [Hn Hm].
    destruct (cl_last _ Hc Hl) as [Hs _]. split; [simpl; by rewrite Hm|].
    apply last_only_not. simpl. rewrite elem_of_app, list_elem_of_singleton. tauto.
Qed.

Lemma closing_detaching t l : closing l -> closing (Detached t :: Queued (job_id Detaching) :: l).
Proof.
  intros Hc. split; [done|]. intros [Hd Hl]%orb_false_iff. destruct (closing_late l Hc Hd) as [Hn Hm].
  destruct (cl_last _ Hc Hl) as [Hs _]. split; [simpl; by rewrite Hm|]. by apply last_only_snoc.
Qed.

Lemma closing_manager t l : closing l -> has_detached l = true -> closing (ManagerDetach t :: l).
Proof. intros [H1 H2] Hd. by split. Qed.

Lemma closing_direct t l : closing l -> closing (Detached t :: ManagerDetach t :: l).
Proof. intros [H1 H2]. by split. Qed.

Lemma notify_kept es l b b' :
  b = true \/ has_manager l = true -> b' = b -> b' = true \/ has_manager (es ++ l) = true.
Proof. intros H ->. destruct H as [->|H]; [by left|right]. unfold has_manager in *. rewrite existsb_app, H. apply orb_true_r. Qed.

Lemma notify_async j x : m_notify_operation (async_unsafe j x).1 = m_notify_operation x.
Proof.
  unfold async_unsafe, also, notify_unsafe. simpl. destruct (empty (m_jobs x) && m_is_attached x); [|done].
  by destruct (m_notify_operation x) eqn:E; simpl; rewrite ?E.
Qed.

Lemma async_ok j s :
  good s ->
  let s' := record_ (async_unsafe (Work j) (q s)) s in good s' /\ (forall u, keeps u s s') /\
    (m_jobs (q s) <> [] -> stage_of s' = stage_of s).
Proof.
  intros Hg s'. pose proof Hg as [Hs Hc Hn].
  destruct (async_sane (Work j) s Hs (good_notifies _ Hg)) as (H1 & H2 & H3).
  split_and!; [split; [exact H1| |]|done|done].
  - pose proof (closing_queued j _ Hc) as Hc1. unfold s', record_, async_unsafe, also, notify_unsafe. simpl.
    destruct (empty (m_jobs (q s)) && m_is_attached (q s)); [|exact Hc1]. simpl.
    destruct (m_notify_operation (q s)); [|exact Hc1]. by apply (closing_quiet Notify).
  - eapply notify_kept; [exact Hn|]. apply notify_async.
Qed.

Lemma detach_ok t s :
  good s ->
  let s' := record_ (detach t (q s)) s in good s' /\ (forall u, keeps u s s').
Proof.
  intros Hg s'. pose proof Hg as [Hs Hc Hn]. destruct (detach_sane t s Hs (good_notifies _ Hg)) as (H1 & H2).
  split; [split; [exact H1| |]|done].
  - unfold s', record_, detach. simpl. destruct (m_jobs (q s)) eqn:E; simpl; [by apply closing_direct|].
    unfold async_unsafe. rewrite E. by apply closing_detaching.
  - eapply notify_kept; [exact Hn|]. unfold detach. simpl. destruct (empty (m_jobs (q s))); [done|]. apply notify_async.
Qed.

Lemma manager_detach_ok t s quota :
  stage_of s = Draining t (Some (job_id Detaching)) quota -> good s ->
  good (Process (q s) (ManagerDetach t :: log s)) /\ forall u, keeps u s (Process (q s) (ManagerDetach t :: log s)).
Proof.
  intros Hst [Hs Hc Hn]. destruct (manager_detach_sane t s) as (H1 & H2); [right; by exists quota|done|].
  split; [split; [exact H1| |by right]|done]. apply closing_manager; [done|]. apply (cl_announced _ Hc). left.
  destruct (sane_stage s Hs) as (sp & R & _ & E & _). rewrite (replay_fifo _ _ R), (replay_completed _ _ R).
  rewrite <- E, Hst. simpl. rewrite !elem_of_app. left. right. left.
Qed.

(** ** When the manager was asked to let go *)
Lemma replay_app l1 : forall l0 sp, replay (l1 ++ l0) = Some sp -> exists sp0, replay l0 = Some sp0.
Proof.
  induction l1 as [|e l1 IH]; intros l0 sp H; [by exists sp|]. simpl in H.
  destruct (replay (l1 ++ l0)) eqn:E; [|done]. by eapply IH.
Qed.

(** What may still happen when nobody is to use the queue any more. *)
Definition leftover (e : event) : Prop :=
  match e with Finished _ _ | DrainEnd _ | ManagerDetach _ | Detached _ => True | _ => False end.
Definition over (sp : spec) : Prop :=
  waiting sp = [] /\ match at_stage sp with Idle | Draining _ _ _ => True | _ => False end.

Lemma stale_app l1 t l0 : stale (l1 ++ ManagerDetach t :: l0) = false ->
  Forall (fun e => match e with Queued _ => False | _ => True end) l1 /\
  queued (l1 ++ ManagerDetach t :: l0) = queued l0.
Proof.
  assert (Hm : forall l1, has_manager (l1 ++ ManagerDetach t :: l0) = true).
  { intros l. unfold has_manager. rewrite existsb_app. simpl. apply orb_true_r. }
  induction l1 as [|e l1 IH]; intros H; [by split|]. simpl in *.
  destruct e; try (by destruct (IH H); split; [constructor|]). by rewrite Hm in H.
Qed.

Lemma over_tail l0 sp0 l1 : forall sp,
  replay l0 = Some sp0 -> over sp0 -> Forall (fun e => match e with Queued _ => False | _ => True end) l1 ->
  replay (l1 ++ l0) = Some sp -> over sp /\ Forall leftover l1.
Proof.
  induction l1 as [|e l1 IH]; intros sp H0 Ho Hq H; simpl in *; [by simplify_eq|].
  pose proof (List.Forall_inv Hq) as He. apply List.Forall_inv_tail in Hq.
  destruct (replay (l1 ++ l0)) as [sp1|]; [|done]. destruct (IH sp1 H0 Ho Hq eq_refl) as [[O1 O2] O3].
  unfold over. destruct e; try done; simpl in H; branches H; simpl;
    repeat match goal with E : at_stage _ = _ |- _ => rewrite E in *; clear E end; try done;
    solve [by split; [|constructor] | by rewrite O1 in *].
Qed.

(** Once the manager was asked, and with nothing queued late, nothing is left to do. *)
Lemma asked_split l : has_manager l = true -> exists l1 t l0, l = l1 ++ ManagerDetach t :: l0.
Proof.
  induction l as [|e l IH]; [done|]. simpl. destruct e; simpl;
    try (intros H; destruct (IH H) as (l1 & u & l0 & ->); by eexists (_ :: l1), u, l0).
  intros _. by exists [], t, l.
Qed.

Lemma released l1 t l0 sp :
  replay (l1 ++ ManagerDetach t :: l0) = Some sp -> closing (l1 ++ ManagerDetach t :: l0) ->
  late (l1 ++ ManagerDetach t :: l0) = false -> over sp /\ Forall leftover l1.
Proof.
  intros H1 Hc Hl. destruct (cl_last _ Hc Hl) as [Hst Hlast].
  destruct (stale_app l1 t l0 Hst) as [Hq Eq]. rewrite Eq in Hlast.
  assert (Ho : exists sp0, replay (ManagerDetach t :: l0) = Some sp0 /\ over sp0).
  { destruct (replay_app _ _ _ H1) as [sp0 H0]. exists sp0. split; [done|]. simpl in H0.
    destruct (replay l0) as [sp1|] eqn:R; [|done].
    pose proof (replay_fifo _ _ R) as Rq. rewrite (replay_completed _ _ R) in Rq.
    simpl in H0. unfold over. destruct (at_stage sp1) as [| | |u [i|] quota] eqn:Es; simpl in *; try done.
    - destruct (waiting sp1) eqn:Ew; [|done]. injection H0 as <-. by rewrite Ew, Es.
    - destruct (Nat.eqb t u && Nat.eqb i 0) eqn:Eb; [|done]. injection H0 as <-. rewrite Es. split; [|done].
      apply andb_true_iff in Eb as [_ ->%Nat.eqb_eq]. apply (Hlast (completed l0)).
      by rewrite Rq, <- app_assoc. }
  destruct Ho as (sp0 & H0 & Ho). by apply (over_tail _ _ _ _ H0 Ho Hq).
Qed.

Lemma asked_over l sp :
  replay l = Some sp -> closing l -> late l = false -> has_manager l = true -> over sp.
Proof. intros H Hc Hl (l1 & t & l0 & ->)%asked_split. by apply (released l1 t l0). Qed.

(** A queue nobody drains stays so. *)
Lemma leftover_idle l es : forall sp sp',
  replay l = Some sp -> at_stage sp = Idle -> Forall leftover es -> replay (es ++ l) = Some sp' -> at_stage sp' = Idle.
Proof.
  induction es as [|e es IH]; intros sp sp' H Hi He H'; simpl in *; [by simplify_eq|].
  pose proof (List.Forall_inv He) as He1. apply List.Forall_inv_tail in He.
  destruct (replay (es ++ l)) as [sp1|]; [|done]. specialize (IH sp sp1 H Hi He eq_refl).
  destruct e; try done; simpl in H'; rewrite ?IH in H'; branches H'; done || congruence.
Qed.

Lemma idle_stays s s' es :
  good s -> good s' -> log s' = es ++ log s -> has_manager (log s) = true -> late (log s') = false ->
  stage_of s = Idle -> stage_of s' = Idle.
Proof.
  intros Hs Hs' El (l1 & t & l0 & E)%asked_split Hl Hi.
  destruct (good_stage _ Hs) as (sp & R & _ & S & _). destruct (good_stage _ Hs') as (sp' & R' & _ & S' & _).
  rewrite S in Hi. rewrite S'. rewrite El in R', Hl. eapply leftover_idle; [exact R|done| |exact R'].
  pose proof (good_closing _ Hs') as Hc. rewrite El, E, app_assoc in *.
  destruct (released _ _ _ _ R' Hc Hl) as [_ Hf]. by apply Forall_app in Hf as [? _].
Qed.

(** ** Draining *)

(** What the draining thread knows when it is about to go on with [n]. *)
Definition holds (t : nat) (n : next) (s : process) : Prop :=
  match n with
  | Leave => ~ owns t (stage_of s)
  | Execute (Some j) r => exists quota, stage_of s = Draining t (Some (job_id j)) quota /\
      0 < r <= length (m_jobs (q s)) /\ r <= S quota
  | Execute None _ => False
  end.
(** ... and when the job has run. *)
Definition ran (t r : nat) (s : process) : Prop :=
  exists quota, stage_of s = Draining t None quota /\ 0 < r <= length (m_jobs (q s)) /\ r <= S quota.

Lemma holds_stable t n : stable protocol t (holds t n).
Proof.
  intros s s' H _ _ [K1 K2 K3]. destruct n as [|[j|] r]; simpl in *; [auto| |done].
  destruct H as (quota & H1 & H2 & H3). exists quota. rewrite H1 in K1, K3. simpl in *.
  rewrite K1 by done. specialize (K3 eq_refl). split_and!; [done|lia|lia|lia].
Qed.

Lemma ran_stable t r : stable protocol t (ran t r).
Proof.
  intros s s' (quota & H1 & H2 & H3) _ _ [K1 K2 K3]. exists quota. rewrite H1 in K1, K3. simpl in *.
  rewrite K1 by done. specialize (K3 eq_refl). split_and!; [done|lia|lia|lia].
Qed.

(** Inside the critical section, with no null at the front. *)
Record middle (t : nat) (js : list job) (quota : nat) (x : operation_queue) (l : list event) : Prop := {
  mi_spec : replay l = Some (Spec (map job_id js) (Draining t None quota));
  mi_jobs : m_jobs x = map Some js;
  mi_active : m_active_drain x = true;
  mi_pending : m_pending x = 0;
  mi_notify : m_notify_operation x = true \/ has_manager l = true;
  mi_attached : m_is_attached x = negb (has_detached l);
  mi_closing : closing l
}.

Definition goes_on (t : nat) (x : effect) (n : next) (l : list event) : Prop :=
  let s' := Process x.1 (rev x.2 ++ l) in
  good s' /\ holds t n s' /\ forall u, u <> t -> ~ owns u (stage_of s').

Lemma drain_end_ok t js quota x l :
  middle t js quota x l -> goes_on t (drain_end t x) Leave l.
Proof.
  intros [M1 M2 M3 M4 M5 M6 M7]. unfold goes_on, drain_end, also, notify_unsafe. rewrite M2.
  assert (Hi : replay (DrainEnd t :: l) = Some (Spec (map job_id js) Idle)).
  { simpl. rewrite M1. simpl. by rewrite Nat.eqb_refl. }
  pose proof (closing_quiet (DrainEnd t) l I M7) as Hc.
  assert (Hl : js <> [] -> late (DrainEnd t :: l) = false -> m_notify_operation x = true).
  { intros Hne Hl. destruct M5 as [?|Hm]; [done|].
    destruct (asked_over _ _ Hi Hc Hl Hm) as [Ho _]. by destruct js. }
  assert (Hidle : js = [] \/ late (DrainEnd t :: l) = true ->
    good (Process (with_active_drain false x) (DrainEnd t :: l))).
  { intros Hj. split; [split; simpl|done|done]; [|done]. eexists. split; [exact Hi|]. split.
    - split; simpl; [by exists js|done|done|done].
    - intros _ Hne. rewrite M2 in Hne. destruct Hj as [->|?]; [done|done]. }
  destruct js as [|j js]; simpl.
  - split_and!; [apply Hidle; by left|..]; try intros u _; rewrite (stage_from _ _ _ Hi); simpl; tauto.
  - destruct (m_notify_operation x) eqn:En; simpl.
    + assert (Hn : replay (Notify :: DrainEnd t :: l) = Some (Spec (map job_id (j :: js)) Notified)).
      { simpl in *. by rewrite Hi. }
      split_and!; [split; [split| |]|..]; simpl; try intros u _; rewrite ?(stage_from _ _ _ Hn); simpl; try tauto.
      * eexists. split; [exact Hn|]. split; [|done].
        split; simpl; [by exists (j :: js)|done|by rewrite M4|by rewrite M2].
      * by apply (closing_quiet Notify).
    + split_and!; try intros u _; rewrite ?(stage_from _ _ _ Hi); simpl; try tauto. apply Hidle. right.
      destruct (late (DrainEnd t :: l)) eqn:El; [done|]. by specialize (Hl ltac:(done) eq_refl).
Qed.

Lemma loop_head_ok t js quota x l r :
  middle t js quota x l -> r <= quota -> r <= length js ->
  exists y n, loop_head t r x = Some (y, n) /\ goes_on t y n l.
Proof.
  intros Hm Hq Hr. unfold loop_head. destruct r as [|r]; simpl.
  { exists (drain_end t x), Leave. split; [done|by eapply drain_end_ok]. }
  destruct Hm as [M1 M2 M3 M4 M5 M6 M7]. destruct js as [|j js]; [simpl in Hr; lia|].
  rewrite M2. simpl. eexists _, _. split; [done|]. unfold goes_on; simpl.
  destruct quota as [|quota]; [lia|].
  assert (Hs : replay (Started t (job_id j) :: l) =
            Some (Spec (map job_id js) (Draining t (Some (job_id j)) quota))).
  { simpl. rewrite M1. simpl. by rewrite !Nat.eqb_refl. }
  split_and!; [split; [split| |]|..]; simpl.
  - eexists. split; [exact Hs|]. split; [|done].
    split; simpl; [by exists js|done|done|done].
  - done.
  - by apply (closing_quiet (Started t (job_id j))).
  - done.
  - exists quota. rewrite (stage_from _ _ _ Hs). simpl in *. rewrite length_map.
    split_and!; [done|lia|lia|lia].
  - intros u Hu. rewrite (stage_from _ _ _ Hs). simpl. congruence.
Qed.

Lemma drain_begin_ok t s :
  good s -> stage_of s = Awake t ->
  exists x n, drain_begin t (q s) = Some (x, n) /\ goes_on t x n (log s).
Proof.
  intros Hs Hst. destruct (good_stage s Hs) as (sp & H1 & [(js & A1 & A2) A3 A4 A6] & H3 & _).
  rewrite H3 in Hst. rewrite Hst in *. simpl in *.
  destruct (loop_head_ok t js kMaxOpsPerDrain (with_active_drain true (q s)) (DrainBegin t :: log s)
              (Nat.min (length (m_jobs (q s))) kMaxOpsPerDrain)) as (y & n & E & Hg).
  - split; simpl; [|done|done|done|apply Hs|apply Hs|apply (closing_quiet (DrainBegin t)); [done|apply Hs]].
    rewrite H1. simpl. rewrite Hst, Nat.eqb_refl. by rewrite A1.
  - lia.
  - rewrite A2, length_map. lia.
  - unfold drain_begin. rewrite E. destruct y as [q' es]. exists (q', DrainBegin t :: es), n.
    split; [done|]. unfold goes_on in *. simpl in *. by rewrite <- app_assoc.
Qed.

Lemma drain_next_ok t r s :
  good s -> ran t r s ->
  exists x n, drain_next t r (q s) = Some (x, n) /\ goes_on t x n (log s).
Proof.
  intros Hs (quota & Hst & Hr & Hq).
  destruct (good_stage s Hs) as (sp & H1 & [(js & A1 & A2) A3 A4 A6] & H3 & _).
  rewrite H3 in Hst. rewrite Hst in *. simpl in *. destruct r as [|r]; [lia|].
  unfold drain_next. rewrite A2. simpl.
  apply (loop_head_ok t js quota); [|lia|rewrite A2 in Hr; simpl in Hr; rewrite length_map in Hr; lia].
  split; simpl; [|done|done|done|apply Hs|apply Hs|apply Hs]. rewrite H1. destruct sp; simpl in *. by subst.
Qed.

(** ** The threads *)
Lemma section_quiet t P f :
  stable protocol t P ->
  (forall s, good s -> P s -> good (record_ (f (q s)) s) /\ forall u, keeps u s (record_ (f (q s)) s)) ->
  triple protocol t P (section_ f) (fun _ => P).
Proof.
  intros HP Hf. apply triple_modify; [done..|]. intros s Hs HPs.
  destruct (Hf s Hs HPs) as [Hg Hk]. split_and!; [done|by intros u _; apply Hk|].
  by apply (HP s); [..|apply Hk].
Qed.

Lemma async_spec t j P : stable protocol t P -> triple protocol t P (async j) (fun _ => P).
Proof.
  intros HP. apply section_quiet; [done|]. intros s Hs _.
  destruct (async_ok j s Hs) as (? & ? & _). by split.
Qed.

Lemma job_finished_ok t j s quota :
  good s -> stage_of s = Draining t (Some (job_id j)) quota ->
  let s' := record_ (q s, [Finished t (job_id j)]) s in
  good s' /\ guar protocol t s s' /\ stage_of s' = Draining t None quota.
Proof.
  intros Hs Hst s'. destruct (good_stage s Hs) as (sp & H1 & [(js & A1 & A2) A3 A4 A6] & H3 & H4).
  rewrite H3 in Hst.
  assert (Hf : replay (Finished t (job_id j) :: log s) = Some (Spec (waiting sp) (Draining t None quota))).
  { simpl. rewrite H1. simpl. by rewrite Hst, !Nat.eqb_refl. }
  rewrite Hst in *. simpl in A2, A3, A4. split_and!.
  - split; [split; [|apply Hs]|apply (closing_quiet (Finished t (job_id j))); [done|apply Hs]|apply Hs].
    eexists. split; [exact Hf|]. split; [|done].
    split; simpl; [by exists js|done|done|]. intros _. by apply A6.
  - apply keeps_mine; [by rewrite H3|]. intros u Hu. unfold s', record_; simpl.
    rewrite (stage_from _ _ _ Hf). simpl. congruence.
  - by apply (stage_from _ _ _ Hf).
Qed.

Lemma finished_spec t j r :
  triple protocol t (holds t (Execute (Some j) r)) (emit (Finished t (job_id j))) (fun _ => ran t r).
Proof.
  apply triple_modify; [apply holds_stable|apply ran_stable|].
  intros s Hs (quota & Hst & Hr & Hq). destruct (job_finished_ok t j s quota Hs Hst) as (H1 & H2 & H3).
  split_and!; [done|done|]. by exists quota.
Qed.

Lemma execute_op_spec t j r :
  triple protocol t (holds t (Execute (Some j) r)) (execute_op t j) (fun _ => ran t r).
Proof.
  unfold execute_op. eapply triple_bind; [|intros ?; apply finished_spec].
  destruct j as [j|].
  { apply triple_each; [apply holds_stable|]. intros k _. apply async_spec, holds_stable. }
  apply section_quiet; [apply holds_stable|]. intros s Hs (quota & E & _).
  by apply (manager_detach_ok t s quota).
Qed.

Lemma step_drain_spec t e f P :
  stable protocol t P -> (forall s, P s -> owns t (stage_of s)) ->
  (forall s, good s -> P s -> exists x n, f (q s) = Some (x, n) /\ goes_on t x n (log s)) ->
  triple protocol t P (step_drain e f) (holds t).
Proof.
  intros HP Ho Hf. apply triple_guarded; [done|intros; apply holds_stable| |].
  - intros s Hs HPs. left. by apply enabled_0.
  - intros o s Hs HPs. destruct (Hf s Hs HPs) as (x & n & -> & Hg & Hh & Hn).
    split_and!; [exact Hg|by apply keeps_mine; [apply Ho|]|exact Hh].
Qed.

Lemma awake_stable t : stable protocol t (fun s => stage_of s = Awake t).
Proof. intros s s' H _ _ [K1 _ _]. rewrite K1, H; [done|]. by rewrite H. Qed.

Lemma free_stable t : stable protocol t (fun s => ~ owns t (stage_of s)).
Proof. intros s s' H _ _ [_ K2 _]. auto. Qed.

Lemma drain_spec t :
  triple protocol t (fun s => stage_of s = Awake t) (drain t) (fun _ s => ~ owns t (stage_of s)).
Proof.
  unfold drain. eapply triple_bind.
  { apply step_drain_spec; [apply awake_stable|intros s ->; done|]. apply drain_begin_ok. }
  intros n. apply (triple_iter t _ _ (holds t)); [intros; apply holds_stable|intros; apply free_stable|].
  clear n. intros [|[j|] r].
  - apply triple_ret; [apply holds_stable|done].
  - eapply triple_bind; [apply execute_op_spec|]. intros ?. eapply triple_bind.
    { apply step_drain_spec; [apply ran_stable|by intros s (? & -> & _)|]. intros s. apply drain_next_ok. }
    intros n. apply triple_ret; [apply holds_stable|done].
  - by apply triple_absurd.
Qed.

(** A notification that is taken and begins to run. *)
Definition woken (t : nat) (s : process) : process :=
  record_ (with_pending (Nat.pred (m_pending (q s))) (q s), [Woken t]) s.

Lemma woken_ok t s :
  good s -> stage_of s = Notified ->
  good (woken t s) /\ guar protocol t s (woken t s) /\ stage_of (woken t s) = Awake t.
Proof.
  intros Hs Hst. destruct (good_stage s Hs) as (sp & H1 & [(js & A1 & A2) A3 A4 A6] & H3 & H4).
  rewrite H3 in Hst. rewrite Hst in *. simpl in *.
  assert (Hw : replay (Woken t :: log s) = Some (Spec (waiting sp) (Awake t))).
  { simpl. rewrite H1. simpl. by rewrite Hst. }
  unfold woken, record_; simpl. split_and!.
  - split; [split; [|apply Hs]|apply (closing_quiet (Woken t)); [done|apply Hs]|apply Hs]. eexists. split; [exact Hw|].
    split; [|done]. split; simpl; [by exists js|done|by rewrite A4|]. intros _. by apply A6.
  - intros u Hu. apply keeps_free; [rewrite H3; simpl; tauto|]. rewrite (stage_from _ _ _ Hw). simpl. congruence.
  - by rewrite (stage_from _ _ _ Hw).
Qed.

(** A notification is outstanding exactly when the pool has been given one. *)
Lemma pending_notified s : good s -> (m_pending (q s) <> 0 <-> stage_of s = Notified).
Proof.
  intros Hs. destruct (good_stage s Hs) as (sp & _ & [_ _ A4 _] & -> & _). rewrite A4.
  destruct (at_stage sp); split; intros E; try done; lia.
Qed.

Lemma take_spec t :
  triple protocol t (fun s => ~ owns t (stage_of s)) (take_notification t)
    (fun _ s => stage_of s = Awake t).
Proof.
  apply triple_block; [apply free_stable|intros; apply awake_stable| |].
  - intros s Hs Hn. destruct (m_pending (q s)) as [|k] eqn:E; [by right|left; by apply enabled_0].
  - intros _ s s' a Hs Hn E. destruct (m_pending (q s)) as [|k] eqn:Ep; [done|].
    assert (s' = woken t s) as -> by (unfold woken; rewrite Ep; simpl in *; by injection E).
    apply woken_ok; [done|]. apply pending_notified; [done|lia].
Qed.

(** ~operation_queue may begin once the manager was asked. *)
Lemma destroy_turn_ok s :
  good s -> has_manager (log s) = true ->
  let s' := Process (destroy_turn (q s)).1 (log s) in good s' /\ forall u, keeps u s s'.
Proof.
  intros Hs Hm s'. destruct (good_stage s Hs) as (sp & H1 & [A1 A2 A3 A4] & H3 & H4).
  split; [|intros u; by apply keeps_same]. split; [|apply Hs|by right]. split; [|apply Hs].
  exists sp. by split_and!.
Qed.

Definition finished (th : thread) (s : process) : Prop :=
  match th with Worker => False | Client _ => True end.

Lemma body_spec t th :
  triple protocol t (fun s => ~ owns t (stage_of s)) (body t th)
    (fun _ s => ~ owns t (stage_of s) /\ finished th s).
Proof.
  destruct th as [|cs]; simpl.
  - apply (triple_iter t _ _ (fun _ s => ~ owns t (stage_of s)) _ (fun _ _ => _ /\ False)).
    + intros. apply free_stable.
    + by intros _ s s' [].
    + intros _. eapply triple_bind; [apply take_spec|]. intros ?.
      eapply triple_bind; [apply drain_spec|]. intros ?. apply triple_ret; [apply free_stable|done].
  - eapply triple_post; [apply triple_each; [apply free_stable|]|by intros].
    intros [j|] _; simpl; [apply async_spec, free_stable|].
    apply section_quiet; [apply free_stable|]. intros s Hs _. by apply detach_ok.
Qed.

Lemma queue_init_good : good init.
Proof.
  split; [split; [|done]| |by left].
  - exists spec_init. split_and!; [done| |done]. split; simpl; [by exists []|done..].
  - split; [by intros [H%not_elem_of_nil|]|]. intros _. split; [done|]. by apply last_only_not, not_elem_of_nil.
Qed.

Lemma queue_sound ths c :
  reach (start ths) c ->
  sound protocol init (fun t s => ~ owns t (stage_of s) /\
    match ths !! t with Some th => finished th s | None => True end) c.
Proof.
  apply (rg_sound (fun t s => ~ owns t (stage_of s))).
  - apply queue_init_good.
  - intros t. simpl. tauto.
  - intros t p Hp. rewrite list_lookup_imap in Hp.
    destruct (ths !! t) as [th|] eqn:Et; simplify_eq/=.
    eapply triple_post; [apply body_spec|]. intros ? s _ ?. done.
Qed.

(** How many operations the drain under way has started. *)
Fixpoint in_drain (l : list event) : nat :=
  match l with
  | [] => 0
  | DrainBegin _ :: _ => 0
  | Started _ _ :: l => S (in_drain l)
  | _ :: l => in_drain l
  end.

Lemma replay_quota l : forall sp t r quota,
  replay l = Some sp -> at_stage sp = Draining t r quota -> in_drain l + quota = kMaxOpsPerDrain.
Proof.
  induction l as [|e l IH]; intros sp t r quota H Hst; simpl in *; [by simplify_eq|].
  destruct (replay l) as [s0|]; [|done]. specialize (IH s0).
  destruct e; simpl in *; branches H; try (by eapply IH); try done.
  all: first [congruence | specialize (IH _ _ _ eq_refl eq_refl); simplify_eq; lia | rewrite Heqs in Hst; simplify_eq; by eapply IH].
Qed.

(** Whoever asks the manager to let go of the queue does so after all that was queued
    before has finished, but for the operation that asks. *)
Lemma replay_detach l1 t l0 sp :
  replay (l1 ++ ManagerDetach t :: l0) = Some sp ->
  queued l0 = completed l0 \/
  exists i w, started l0 = completed l0 ++ [i] /\ queued l0 = completed l0 ++ i :: w.
Proof.
  intros [sp1 H1]%replay_app. simpl in H1. destruct (replay l0) as [sp0|] eqn:H0; [|done].
  pose proof (replay_fifo _ _ H0) as Hq. rewrite (replay_completed _ _ H0) in Hq.
  pose proof (replay_completed _ _ H0) as Hs.
  simpl in H1. destruct (at_stage sp0) as [| | |u [i|] quota]; simpl in *; try done.
  - left. destruct (waiting sp0); [|done]. by rewrite Hq, !app_nil_r.
  - right. exists i, (waiting sp0). split; [done|]. by rewrite Hq, <- app_assoc.
Qed.

(** C5: the queue is a first in, first out queue with one server, whatever
    threads queue operations (from inside of operations, too) and whatever
    threads of the pool run its notification: no assertion fails, each event is
    one the specification allows, so that operations run one at a time, each
    once, in the order they were queued, and a notification is only given to
    the pool when none is outstanding.  The manager is asked to let go of the
    queue when everything queued before has finished, but for the operation
    that asks. *)
Theorem operation_queue_is_fifo ths c :
  reach (start ths) c ->
  no_fault c /\
  (exists sp, replay (log c.1) = Some sp /\ agree (q c.1) sp /\
    queued (log c.1) = started (log c.1) ++ waiting sp) /\
  (forall l1 t l0, log c.1 = l1 ++ ManagerDetach t :: l0 ->
    queued l0 = completed l0 \/
    exists i w, started l0 = completed l0 ++ [i] /\ queued l0 = completed l0 ++ i :: w).
Proof.
  intros Hc%queue_sound. split; [apply Hc|].
  destruct (good_stage _ (sound_inv Hc)) as (sp & H1 & H2 & _). split.
  - exists sp. split_and!; [done|done|by apply replay_fifo].
  - intros l1 t l0 E. rewrite E in H1. by eapply replay_detach.
Qed.

(** A drain starts at most ten operations before it gives the thread back. *)
Theorem operation_queue_fair ths c t :
  reach (start ths) c -> owns t (stage_of c.1) -> draining (stage_of c.1) = true ->
  in_drain (log c.1) <= 10.
Proof.
  intros Hc%queue_sound Ho Hd. destruct (good_stage _ (sound_inv Hc)) as (sp & H1 & _ & H3 & _).
  rewrite H3 in *. destruct (at_stage sp) as [| | |u r quota] eqn:E; try done.
  pose proof (replay_quota _ _ _ _ _ H1 E). unfold kMaxOpsPerDrain in *. lia.
Qed.

(** C8: The notification that the pool is given holds the queue by its address only: once
    the manager was asked to let go of the queue, and as long as nothing is queued
    after detach() had returned, no notification is outstanding, none is given any
    more, no drain begins and no operation starts.  What is left is the end of the
    drain that asked, and when m_active_drain says that no drain is under way, for
    which ~operation_queue waits, nobody is inside of the queue. *)
Theorem operation_queue_released ths c l1 t l0 :
  reach (start ths) c -> late (log c.1) = false -> log c.1 = l1 ++ ManagerDetach t :: l0 ->
  Forall leftover l1 /\ m_pending (q c.1) = 0 /\
  (m_active_drain (q c.1) = false -> stage_of c.1 = Idle).
Proof.
  intros Hc%queue_sound Hl E. pose proof (sound_inv Hc) as Hg.
  destruct (good_stage _ Hg) as (sp & H1 & [_ A3 A4 _] & H3 & _). pose proof (good_closing _ Hg) as Hcl.
  rewrite E in *. destruct (released _ _ _ _ H1 Hcl Hl) as [[_ O2] O3].
  rewrite H3, A3, A4. split_and!; [done| |]; by destruct (at_stage sp).
Qed.

(** No operation is forgotten: when no thread can move any more (a spurious
    wake-up aside), and nothing
    was queued after detach() had returned, every operation queued has been
    started, the list is empty and no drain is under way. *)
Theorem operation_queue_no_lost_job ths c w :
  reach (start ths) c -> ths !! w = Some Worker -> late (log c.1) = false ->
  (forall t, t < length c.2 -> ~ can_move c t) ->
  started (log c.1) = queued (log c.1) /\ m_jobs (q c.1) = [] /\ m_active_drain (q c.1) = false.
Proof.
  intros Hr Hw Hl Hq. pose proof (reach_length _ _ Hr) as Hn. simpl in Hn. rewrite length_imap in Hn.
  pose proof (queue_sound _ _ Hr) as Hc. pose proof (sound_inv Hc) as Hg.
  assert (Hblocked : forall t, t < length c.2 -> thread_done c t = false -> waits t c.1).
  { intros t Ht Hd. destruct (sound_live Hc t Ht Hd) as [Ho|?]; [|done]. by destruct (Hq t Ht). }
  destruct (good_stage _ Hg) as (sp & H1 & [(js & A1 & A2) A3 A4 A6] & H3 & H4).
  assert (Hfree : forall t, ~ owns t (stage_of c.1)).
  { intros t Ho. destruct (decide (t < length c.2)) as [Ht|Ht].
    - destruct (thread_done c t) eqn:Hd.
      + by apply (sound_post Hc t Hd).
      + by apply (Hblocked t Ht Hd).
    - destruct (sound_idle Hc t) as [_ K _]; [lia|]. exact (K (fun x => x) Ho). }
  assert (Hwt : w < length c.2) by (rewrite Hn; by eapply lookup_lt_Some).
  assert (Hwd : thread_done c w = false).
  { destruct (thread_done c w) eqn:Hd; [|done].
    destruct (sound_post Hc w Hd) as [_ Hf]. by rewrite Hw in Hf. }
  destruct (Hblocked w Hwt Hwd) as [Hp _]. rewrite A4 in Hp.
  assert (Ei : at_stage sp = Idle).
  { rewrite H3 in Hfree. destruct (at_stage sp) as [| |t|t r k]; try done;
      by destruct (Hfree t). }
  assert (Ej : m_jobs (q c.1) = []).
  { destruct (m_jobs (q c.1)) as [|x l] eqn:E; [done|]. by rewrite H4 in Hl. }
  rewrite Ei in *. simpl in A2, A3. split_and!; [|done|done].
  rewrite (replay_fifo _ _ H1), A1. rewrite Ej in A2. destruct js; [|done]. by rewrite app_nil_r.
Qed.

(** A client queues two operations, the first of which queues a third, and
    detaches; two workers serve the pool. *)
Definition threads1 : list thread :=
  [Client [Async (Op 1 [Op 3 []]); Async (Op 2 []); Detach]; Worker; Worker].
(** Worker 1 is inside of the first operation, which has queued the third. *)
Definition mid1 : cfg process := play (go 0 2 ++ go 1 9) (start threads1).
Definition served1 : cfg process := play (go 0 10 ++ go 1 100 ++ go 2 40) mid1.

Theorem operation_queue_is_fifo_witness :
  queued (log served1.1) = [1; 3; 2; 0] /\ started (log served1.1) = [1; 3; 2; 0] /\
  no_fault served1 /\
  (exists sp, replay (log served1.1) = Some sp /\ agree (q served1.1) sp /\
    queued (log served1.1) = started (log served1.1) ++ waiting sp) /\
  (forall l1 t l0, log served1.1 = l1 ++ ManagerDetach t :: l0 ->
    queued l0 = completed l0 \/
    exists i w, started l0 = completed l0 ++ [i] /\ queued l0 = completed l0 ++ i :: w).
Proof.
  split; [vm_compute; reflexivity|]. split; [vm_compute; reflexivity|].
  apply (operation_queue_is_fifo threads1). apply play_reach, play_reach, reach_here.
Defined.

Theorem operation_queue_fair_witness :
  stage_of mid1.1 = Draining 1 (Some 1) 9 /\ in_drain (log mid1.1) <= 10.
Proof.
  assert (E : stage_of mid1.1 = Draining 1 (Some 1) 9) by (vm_compute; reflexivity).
  split; [exact E|]. apply (operation_queue_fair threads1 mid1 1).
  - apply play_reach, reach_here.
  - rewrite E. reflexivity.
  - rewrite E. reflexivity.
Defined.

Theorem operation_queue_no_lost_job_witness :
  started (log served1.1) = queued (log served1.1) /\ m_jobs (q served1.1) = [] /\
  m_active_drain (q served1.1) = false.
Proof.
  apply (operation_queue_no_lost_job threads1 served1 1).
  - apply play_reach, play_reach, reach_here.
  - reflexivity.
  - vm_compute. reflexivity.
  - intros t Ht (o & _ & Ho). do 3 (destruct t as [|t]; [apply Ho; vm_compute; reflexivity|]).
    exfalso. revert Ht. vm_compute. lia.
Defined.

Theorem operation_queue_released_witness :
  log served1.1 = [DrainEnd 1; Finished 1 0] ++ ManagerDetach 1 :: skipn 3 (log served1.1) /\
  Forall leftover [DrainEnd 1; Finished 1 0] /\ m_pending (q served1.1) = 0 /\
  (m_active_drain (q served1.1) = false -> stage_of served1.1 = Idle).
Proof.
  assert (E : log served1.1 = [DrainEnd 1; Finished 1 0] ++ ManagerDetach 1 :: skipn 3 (log served1.1))
    by (vm_compute; reflexivity).
  split; [exact E|]. apply (operation_queue_released threads1 served1 _ 1 (skipn 3 (log served1.1))).
  - apply play_reach, play_reach, reach_here.
  - vm_compute. reflexivity.
  - exact E.
Defined.
End QueueProcess.
