(* ===== verification/QueuePart.v ===== *)
(** * QueuePart: the operation queue as a part of a larger process

    What a process that embeds the programs of OperationQueue needs of them: the events
    an action adds to the log of its queue, and that only taking a notification says
    that one was taken. *)
From S2P Require Import Prelude Conc Embed OperationQueue.

Module QueuePart.
Import OpQueue.

(** The events a critical section adds. *)
Definition news (s s' : QueueProcess.process) : list event :=
  take (length (QueueProcess.log s') - length (QueueProcess.log s)) (QueueProcess.log s').

(** An event that takes no notification. *)
Definition taken_by_nobody (e : event) : Prop := match e with Woken _ => False | _ => True end.

(** A critical section of a queue, by whatever thread. *)
Definition calm : property (B := QueueProcess.process) := fun A f =>
  (forall s, f 0 s <> None) /\
  forall o s s' a, f o s = Some (s', a) ->
    exists es, QueueProcess.log s' = es ++ QueueProcess.log s /\ Forall taken_by_nobody es.

Lemma news_app s s' es : QueueProcess.log s' = es ++ QueueProcess.log s -> news s s' = es.
Proof.
  unfold news. intros ->. rewrite length_app.
  replace (_ + _ - _) with (length es) by lia. apply take_app_length.
Qed.

(** ** The programs of the queues are calm *)
Lemma calm_section f : (forall x, Forall taken_by_nobody (f x).2) -> acts calm (QueueProcess.section_ f).
Proof.
  intros Hf. split; [done|]. intros o s s' a E. injection E as <- _. eexists. split; [done|].
  apply Forall_rev, Hf.
Qed.

Lemma calm_async_unsafe j x : Forall taken_by_nobody (async_unsafe j x).2.
Proof.
  unfold async_unsafe, also, notify_unsafe. simpl.
  destruct (empty (m_jobs x)), (m_is_attached x), (m_notify_operation x); simpl; repeat constructor.
Qed.

Lemma calm_detach t x : Forall taken_by_nobody (OpQueue.detach t x).2.
Proof.
  unfold OpQueue.detach. simpl. apply Forall_app. split; [|by repeat constructor].
  destruct (empty (m_jobs x)); [by repeat constructor|apply calm_async_unsafe].
Qed.

Lemma calm_loop_head t r x y n : loop_head t r x = Some (y, n) -> Forall taken_by_nobody y.2.
Proof.
  unfold loop_head, drain_end, also, notify_unsafe. destruct (Nat.eqb r 0).
  - intros E. injection E as <- _. simpl.
    destruct (empty (m_jobs x)), (m_notify_operation x); simpl; repeat constructor.
  - destruct (m_jobs x) as [|[j|] l]; [done|..]; intros E; injection E as <- _; repeat constructor.
Qed.

Lemma calm_step e f :
  (forall x y n, f x = Some (y, n) -> Forall taken_by_nobody y.2) -> acts calm (QueueProcess.step_drain e f).
Proof.
  intros Hf. split; [split|by intros [a|]].
  - intros s. by destruct (f (QueueProcess.q s)) as [[]|].
  - intros o s s' a E. destruct (f (QueueProcess.q s)) as [[y n]|] eqn:Ef; injection E as <- _.
    + eexists. split; [done|]. by eapply Forall_rev, Hf.
    + by exists [].
Qed.

Lemma calm_each {A} (f : A -> prog QueueProcess.process unit) l :
  (forall x, acts calm (f x)) -> acts calm (each f l).
Proof. intros Hf. induction l as [|x l IH]; [done|]. by split. Qed.

Lemma calm_async j : acts calm (QueueProcess.async j).
Proof. apply calm_section, calm_async_unsafe. Qed.

Lemma calm_drain t : acts calm (QueueProcess.drain t).
Proof.
  split.
  - apply calm_step. intros x y n E. unfold drain_begin in E.
    destruct (loop_head _ _ _) as [[[x' es] n']|] eqn:El; [|done]. injection E as <- _.
    constructor; [done|]. by apply calm_loop_head in El.
  - intros n [|job r]; [done|]. split.
    + destruct job as [[j|]|]; [| |done]; (split; [|intros ?; by apply calm_section; repeat constructor]).
      * apply calm_each, calm_async.
      * by apply calm_section; repeat constructor.
    + intros ?. split; [|done]. apply calm_step. intros x y n' E. unfold drain_next in E.
      destruct r as [|r]; [done|]. destruct (m_jobs x); [done|]. by apply calm_loop_head in E.
Qed.

(** ** What the events of an action make of the stage *)
Definition is_notify (e : event) : bool := match e with Notify => true | _ => false end.

Lemma notified_step e sp sp' :
  taken_by_nobody e -> QueueProcess.spec_step e sp = Some sp' ->
  if is_notify e
  then QueueProcess.at_stage sp = QueueProcess.Idle /\ QueueProcess.at_stage sp' = QueueProcess.Notified
  else QueueProcess.at_stage sp' = QueueProcess.Notified <-> QueueProcess.at_stage sp = QueueProcess.Notified.
Proof.
  intros He E. destruct e; try done; simpl in *; branches E; rewrite ?Heqs; simpl; try done; (split; intros; congruence).
Qed.

Lemma notified_events lg es : forall sp sp',
  Forall taken_by_nobody es -> QueueProcess.replay lg = Some sp -> QueueProcess.replay (es ++ lg) = Some sp' ->
  (existsb is_notify es = true -> QueueProcess.at_stage sp <> QueueProcess.Notified) /\
  (QueueProcess.at_stage sp' = QueueProcess.Notified <->
     QueueProcess.at_stage sp = QueueProcess.Notified \/ existsb is_notify es = true).
Proof.
  induction es as [|e es IH]; intros sp sp' He H H'; simpl in *.
  { split; [done|]. assert (sp' = sp) as -> by congruence. intuition discriminate. }
  pose proof (List.Forall_inv He) as He1. apply List.Forall_inv_tail in He.
  destruct (QueueProcess.replay (es ++ lg)) as [sp1|]; [|done].
  destruct (IH sp sp1 He H eq_refl) as [I1 I2]. pose proof (notified_step e sp1 sp' He1 H') as Hs.
  destruct (is_notify e); simpl.
  - destruct Hs as [E1 E2]. rewrite E1 in I2. split; [|tauto]. intros _ En.
    by assert (QueueProcess.Idle = QueueProcess.Notified) by (apply I2; by left).
  - split; [done|]. by rewrite Hs, I2.
Qed.
End QueuePart.
