(* ===== verification/ManualThread.v ===== *)
(** * ManualThread: src/naive/naive_manual_thread.cpp, naive_thread.cpp

    The pool with a single thread: the main thread, or the private thread of the
    queue manager and of the timers.  run() takes all queued operations at once
    and executes them, until cancel(). *)
From S2P Require Import Prelude Conc.

Module Manual.

(** An operation: its identity, and what it hands to the same thread while it runs. *)
Inductive op := Op (op_id : nat) (spawns : list op).
Definition op_id (j : op) : nat := match j with Op i _ => i end.
Definition spawns (j : op) : list op := match j with Op _ l => l end.

(** [m_cond] is the wait set of the condition variable. *)
Record manual_thread := Thread {
  m_queued_ops : list op;
  m_cancelled : bool;
  m_cond : list nat
}.
Definition make_manual_thread : manual_thread := Thread [] false [].

Inductive event :=
| Queued (i : nat)
| Taken
| Started (i : nat)
| Finished (i : nat)
| Cancelled (t : nat)
| Left (t : nat).

Record process := Process { th : manual_thread; log : list event }.
Definition init : process := Process make_manual_thread [].
Definition emit (e : event) : prog process unit :=
  modify (fun s => Process (th s) (e :: log s)).

(** notify_all wakes every sleeper. *)
Definition push (work : op) (x : manual_thread) : manual_thread :=
  Thread (m_queued_ops x ++ [work]) (m_cancelled x) [].
Definition execute (work : op) : prog process unit :=
  modify (fun s => Process (push work (th s)) (Queued (op_id work) :: log s)).

Definition notify_thread_blocked : prog process unit := Ret tt.
Definition notify_thread_unblocked : prog process unit := Ret tt.

Definition cancel (t : nat) : prog process unit :=
  modify (fun s => Process (Thread (m_queued_ops (th s)) true []) (Cancelled t :: log s)).

(** swap(m_queued_ops, active_ops) *)
Definition swap (s : process) : process * list op :=
  (Process (Thread [] (m_cancelled (th s)) (m_cond (th s))) (Taken :: log s), m_queued_ops (th s)).

(** The critical section of run: up to the wait when there is nothing to do ... *)
Definition take_or_sleep (t : nat) : prog process (option (list op)) :=
  atomic (fun s =>
    match m_queued_ops (th s) with
    | [] => (Process (Thread [] (m_cancelled (th s)) (t :: m_cond (th s))) (log s), None)
    | _ => let (s', ops) := swap s in (s', Some ops)
    end).
(** ... and from there on, notified or woken spuriously. *)
Definition wake_and_take (t : nat) : prog process (list op) :=
  Act (fun o s =>
    if bool_decide (t ∈ m_cond (th s)) && negb (Nat.eqb o o_spurious) then None
    else Some (swap (Process (Thread (m_queued_ops (th s)) (m_cancelled (th s))
                       (filter (fun u => u <> t) (m_cond (th s)))) (log s)))).

Definition execute_op (j : op) : prog process unit :=
  do! emit (Started (op_id j)) in
  do! each execute (spawns j) in
  emit (Finished (op_id j)).

(** The test of the loop, and what is done after it. *)
Definition read_cancelled : prog process bool := read (fun s => m_cancelled (th s)).
Definition leave (t : nat) : prog process unit :=
  modify (fun s => Process (Thread (m_queued_ops (th s)) false (m_cond (th s))) (Left t :: log s)).

Definition run (t : nat) : prog process unit :=
  do! Iter (fun _ =>
    let! cancelled := read_cancelled in
    if cancelled : bool then Ret (inr tt)
    else
      let! ops := take_or_sleep t in
      let! active_ops := match ops with
                         | Some ops => Ret ops
                         | None => wake_and_take t
                         end in
      do! each execute_op active_ops in
      Ret (inl tt)) tt in
  leave t.

(** naive::thread: its constructor starts a thread with [run]; its destructor
    cancels and joins it, [alive] says whether it still runs. *)
Definition thread_body (r : nat) : prog process unit := run r.
Definition has_left (r : nat) (l : list event) : bool :=
  existsb (fun e => match e with Left u => Nat.eqb u r | _ => false end) l.
Definition destroy_thread (r t : nat) : prog process unit :=
  do! cancel t in await (fun s => has_left r (log s)) id.

(** ** A process with one thread object and its users *)
Inductive call := Execute (j : op) | Cancel | Destroy.
Definition run_call (r t : nat) (c : call) : prog process unit :=
  match c with
  | Execute j => execute j
  | Cancel => cancel t
  | Destroy => destroy_thread r t
  end.
(** Thread 0 is the one that runs. *)
Definition start (scripts : list (list call)) : cfg process :=
  (init, thread_body 0 :: imap (fun t cs => each (run_call 0 (S t)) cs) scripts).

(** ** What the thread promises: operations run one at a time, in order *)
Record spec := Spec { waiting : list nat; batch : list nat; running : option nat }.
Definition spec_init : spec := Spec [] [] None.

Definition spec_step (e : event) (s : spec) : option spec :=
  match e, running s, batch s with
  | Queued i, r, b => Some (Spec (waiting s ++ [i]) b r)
  | Taken, None, [] => Some (Spec [] (waiting s) None)
  | Started i, None, j :: b => if Nat.eqb i j then Some (Spec (waiting s) b (Some i)) else None
  | Finished i, Some j, b => if Nat.eqb i j then Some (Spec (waiting s) b None) else None
  | Cancelled _, _, _ | Left _, _, _ => Some s
  | _, _, _ => None
  end.

Fixpoint replay (l : list event) : option spec :=
  match l with
  | [] => Some spec_init
  | e :: l => match replay l with Some s => spec_step e s | None => None end
  end.

Fixpoint queued (l : list event) : list nat :=
  match l with [] => [] | Queued i :: l => queued l ++ [i] | _ :: l => queued l end.
Fixpoint started (l : list event) : list nat :=
  match l with [] => [] | Started i :: l => started l ++ [i] | _ :: l => started l end.
Definition was_cancelled (l : list event) : bool :=
  existsb (fun e => match e with Cancelled _ => true | _ => false end) l.

Lemma manual_replay_fifo l : forall s, replay l = Some s -> queued l = started l ++ batch s ++ waiting s.
Proof.
  induction l as [|e l IH]; intros s H; simpl in *; [by simplify_eq|].
  destruct (replay l) as [[w b r]|]; [|done]. specialize (IH _ eq_refl). simpl in *.
  destruct e; simpl in *; branches H; simpl in *; rewrite IH, <- ?app_assoc; try done.
  - by rewrite app_nil_r.
  - match goal with E : Nat.eqb _ _ = true |- _ => apply Nat.eqb_eq in E as -> end. done.
Qed.

(** The part of the specification the running thread owns. *)
Definition phase (l : list event) : list nat * option nat :=
  match replay l with Some s => (batch s, running s) | None => ([], None) end.

Record good (s : process) : Prop := {
  good_spec : exists sp, replay (log s) = Some sp /\ waiting sp = map op_id (m_queued_ops (th s));
  good_cond u : u ∈ m_cond (th s) -> u = 0 /\ m_queued_ops (th s) = [] /\ phase (log s) = ([], None);
  good_cancel : m_cancelled (th s) = true \/ has_left 0 (log s) = true -> was_cancelled (log s) = true
}.

Record keeps (t : nat) (s s' : process) : Prop := {
  keeps_phase : t = 0 -> phase (log s') = phase (log s);
  keeps_left : has_left 0 (log s) = true -> has_left 0 (log s') = true;
  keeps_cancelled : was_cancelled (log s) = true -> was_cancelled (log s') = true
}.

#[export] Instance manual_keeps_pre t : PreOrder (keeps t).
Proof. split; [by split|]. intros x y z [H1 H2 H3] [H4 H5 H6]. split; [intros; rewrite H4; auto|auto|auto]. Qed.

(** The runner sleeps, and a destructor waits for it. *)
Definition waits (t : nat) (s : process) : Prop :=
  (t = 0 /\ 0 ∈ m_cond (th s)) \/ (t <> 0 /\ has_left 0 (log s) = false).

Definition protocol : Conc.protocol process := Protocol good keeps waits manual_keeps_pre.

Definition at_phase (ops : list op) (r : option nat) (s : process) : Prop :=
  phase (log s) = (map op_id ops, r).

Lemma at_phase_stable ops r : stable protocol 0 (at_phase ops r).
Proof. intros s s' H _ _ [K _ _]. unfold at_phase. by rewrite K. Qed.

Lemma true_stable t : stable protocol t (fun _ => True).
Proof. done. Qed.

(** A step that appends one event and leaves the queue as it is. *)
Lemma event_ok e s :
  good s -> match e with Queued _ | Taken => False | Left _ => was_cancelled (log s) = true | _ => True end ->
  (forall sp, replay (log s) = Some sp -> exists sp', spec_step e sp = Some sp' /\ waiting sp' = waiting sp) ->
  (forall u, u ∈ m_cond (th s) -> phase (e :: log s) = phase (log s)) ->
  good (Process (th s) (e :: log s)).
Proof.
  intros [(sp & H1 & H2) H3 H4] He Hst Hp. destruct (Hst sp H1) as (sp' & E1 & E2). split.
  - exists sp'. simpl. rewrite H1. split; [done|]. by rewrite E2.
  - intros u Hu. simpl in *. destruct (H3 u Hu) as (? & ? & ?). split_and!; [done|done|].
    by rewrite (Hp u Hu).
  - simpl. destruct e; try done; simpl; try exact H4; try done.
Qed.

(** execute(), from any thread. *)
Lemma push_ok j t s :
  good s ->
  let s' := Process (push j (th s)) (Queued (op_id j) :: log s) in
  good s' /\ phase (log s') = phase (log s) /\ keeps t s s'.
Proof.
  intros [(sp & H1 & H2) H3 H4] s'.
  assert (Hp : phase (Queued (op_id j) :: log s) = phase (log s)).
  { unfold phase. simpl. rewrite H1. simpl. by destruct (running sp). }
  assert (Hr : replay (Queued (op_id j) :: log s) = Some (Spec (waiting sp ++ [op_id j]) (batch sp) (running sp))).
  { simpl. rewrite H1. simpl. by destruct (running sp). }
  split_and!; [split|done|by split].
  - eexists. split; [exact Hr|]. simpl. by rewrite H2, map_app.
  - intros u Hu. by apply not_elem_of_nil in Hu.
  - exact H4.
Qed.

Lemma execute_spec j t P :
  stable protocol t P ->
  (forall s s', P s -> phase (log s') = phase (log s) -> P s') ->
  triple protocol t P (execute j) (fun _ => P).
Proof.
  intros HP Hphase. apply triple_modify; [done..|]. intros s Hs HPs.
  destruct (push_ok j t s Hs) as (Hg & Hp & Hk). split_and!; [exact Hg| |by eapply Hphase].
  intros u _. by apply (push_ok j u s Hs).
Qed.

Lemma phase_spec s ops r :
  good s -> at_phase ops r s ->
  exists w, replay (log s) = Some (Spec w (map op_id ops) r) /\ w = map op_id (m_queued_ops (th s)).
Proof.
  intros [(sp & H1 & H2) _ _] Hp. unfold at_phase, phase in Hp. rewrite H1 in Hp.
  destruct sp as [w b r']; simplify_eq/=. eauto.
Qed.

Lemma phase_from l w b r : replay l = Some (Spec w b r) -> phase l = (b, r).
Proof. unfold phase. by intros ->. Qed.

(** What only the runner changes, others do not rely on. *)
Lemma runner_guar s s' :
  (has_left 0 (log s) = true -> has_left 0 (log s') = true) ->
  (was_cancelled (log s) = true -> was_cancelled (log s') = true) -> guar protocol 0 s s'.
Proof. intros H1 H2 u Hu. by split. Qed.

(** The runner goes on with the next operation, and finishes the one it runs. *)
Lemma started_ok j ops s :
  good s -> at_phase (j :: ops) None s ->
  let s' := Process (th s) (Started (op_id j) :: log s) in
  good s' /\ guar protocol 0 s s' /\ at_phase ops (Some (op_id j)) s'.
Proof.
  intros Hs Hp s'. destruct (phase_spec s _ _ Hs Hp) as (w & H1 & H2).
  assert (Hr : replay (Started (op_id j) :: log s) = Some (Spec w (map op_id ops) (Some (op_id j)))).
  { simpl. rewrite H1. simpl. by rewrite Nat.eqb_refl. }
  split_and!; [|by apply runner_guar|by apply phase_from in Hr].
  apply event_ok; [done|done| |].
  - intros sp Hsp. rewrite H1 in Hsp. injection Hsp as <-. simpl. rewrite Nat.eqb_refl. eauto.
  - intros u Hu. destruct (good_cond _ Hs u Hu) as (_ & _ & E). by rewrite Hp in E.
Qed.

Lemma finished_ok i ops s :
  good s -> at_phase ops (Some i) s ->
  let s' := Process (th s) (Finished i :: log s) in
  good s' /\ guar protocol 0 s s' /\ at_phase ops None s'.
Proof.
  intros Hs Hp s'. destruct (phase_spec s _ _ Hs Hp) as (w & H1 & H2).
  assert (Hr : replay (Finished i :: log s) = Some (Spec w (map op_id ops) None)).
  { simpl. rewrite H1. simpl. by rewrite Nat.eqb_refl. }
  split_and!; [|by apply runner_guar|by apply phase_from in Hr].
  apply event_ok; [done|done| |].
  - intros sp Hsp. rewrite H1 in Hsp. injection Hsp as <-. simpl. rewrite Nat.eqb_refl. eauto.
  - intros u Hu. destruct (good_cond _ Hs u Hu) as (_ & _ & E). by rewrite Hp in E.
Qed.

Lemma manual_execute_op_spec j ops :
  triple protocol 0 (at_phase (j :: ops) None) (execute_op j) (fun _ => at_phase ops None).
Proof.
  unfold execute_op. eapply triple_bind.
  { apply (triple_modify _ _ _ (fun _ => at_phase ops (Some (op_id j)))); [apply at_phase_stable..|].
    intros s. apply started_ok. }
  intros ?. eapply triple_bind.
  { apply triple_each; [apply at_phase_stable|]. intros k _. apply execute_spec; [apply at_phase_stable|].
    unfold at_phase. congruence. }
  intros ?. apply triple_modify; [apply at_phase_stable..|]. intros s. apply finished_ok.
Qed.

Lemma execute_all_spec ops :
  triple protocol 0 (at_phase ops None) (each execute_op ops) (fun _ => at_phase [] None).
Proof.
  induction ops as [|j ops IH]; simpl each; [apply triple_skip, at_phase_stable|].
  eapply triple_bind; [apply manual_execute_op_spec|]. intros ?. exact IH.
Qed.

(** Taking what is queued, when nobody sleeps any more. *)
Lemma swap_ok s l :
  good s -> at_phase [] None s -> (forall u, u ∈ l -> u ∈ m_cond (th s) /\ u <> 0) ->
  let s0 := Process (Thread (m_queued_ops (th s)) (m_cancelled (th s)) l) (log s) in
  good (swap s0).1 /\ guar protocol 0 s (swap s0).1 /\ at_phase (swap s0).2 None (swap s0).1.
Proof.
  intros Hs Hp Hl. destruct (phase_spec s _ _ Hs Hp) as (w & H1 & H2).
  assert (Hr : replay (Taken :: log s) = Some (Spec [] w None)) by (simpl; by rewrite H1).
  split_and!; [split|by apply runner_guar|].
  - eexists. split; [exact Hr|done].
  - intros u Hu. simpl in Hu. destruct (Hl u Hu) as [Hc Hne]. by destruct (good_cond _ Hs u Hc).
  - simpl. apply Hs.
  - simpl. unfold at_phase; simpl. rewrite (phase_from _ _ _ _ Hr). by rewrite H2.
Qed.

Lemma take_or_sleep_spec :
  triple protocol 0 (at_phase [] None) (take_or_sleep 0)
    (fun r => match r with Some ops => at_phase ops None | None => at_phase [] None end).
Proof.
  apply triple_act; [apply at_phase_stable|intros [|]; apply at_phase_stable| |].
  - intros s _ _. simpl. by destruct (m_queued_ops (th s)).
  - intros _ s s' r Hs Hp E. simpl in E.
    assert (Hn : m_queued_ops (th s) <> [] -> forall u, u ∈ m_cond (th s) -> u ∈ m_cond (th s) /\ u <> 0).
    { intros Hne u Hu. by destruct (good_cond _ Hs u Hu) as (_ & ? & _). }
    destruct (m_queued_ops (th s)) as [|x l] eqn:Eq; injection E as <- <-.
    + split_and!; [split; simpl|by apply runner_guar|done].
      * destruct (good_spec _ Hs) as (sp & H1 & H2). exists sp. by rewrite H2, Eq.
      * intros u [->|Hu]%elem_of_cons; [done|]. by apply (good_cond _ Hs) in Hu as (? & _ & ?).
      * apply Hs.
    + rewrite <- Eq. specialize (Hn ltac:(done)). destruct s as [[ops b l'] lg]; simpl in *.
      by apply (swap_ok (Process (Thread ops b l') lg) l').
Qed.

Lemma wake_and_take_spec :
  triple protocol 0 (at_phase [] None) (wake_and_take 0) (fun ops => at_phase ops None).
Proof.
  apply triple_block; [apply at_phase_stable|intros; apply at_phase_stable| |].
  - intros s Hs Hp. destruct (decide (0 ∈ m_cond (th s))); [by right; left|left].
    apply enabled_0. by rewrite bool_decide_false.
  - intros o s s' ops Hs Hp E.
    destruct (bool_decide (0 ∈ m_cond (th s)) && negb (Nat.eqb o o_spurious)); [done|].
    injection E as <- <-. apply (swap_ok s); [done|done|].
    intros u [? ?]%list_elem_of_filter. done.
Qed.

(** Between two turns of run, knowing that [cancel] was called. *)
Definition ending (b : bool) (s : process) : Prop :=
  at_phase [] None s /\ (b = true -> was_cancelled (log s) = true).

Lemma ending_stable b : stable protocol 0 (ending b).
Proof.
  intros s s' [H1 H2] ? ? K. split; [by eapply at_phase_stable|]. intros Hb. by apply K, H2.
Qed.

Definition gone (s : process) : Prop := at_phase [] None s /\ has_left 0 (log s) = true.

Lemma gone_stable : stable protocol 0 gone.
Proof. intros s s' [H1 H2] ? ? K. split; [by eapply at_phase_stable|]. by apply K. Qed.

Lemma read_cancelled_spec : triple protocol 0 (at_phase [] None) read_cancelled ending.
Proof.
  apply triple_read; [apply at_phase_stable|apply ending_stable|].
  intros s Hs Hp. split; [done|]. intros Hc. apply Hs. by left.
Qed.

Lemma manual_leave_spec : triple protocol 0 (ending true) (leave 0) (fun _ => gone).
Proof.
  apply triple_modify; [apply ending_stable|apply gone_stable|].
  intros s Hs [Hp Hc]. specialize (Hc eq_refl).
  assert (Hr : phase (Left 0 :: log s) = phase (log s)).
  { unfold phase. simpl. destruct (good_spec _ Hs) as (sp & -> & _). by destruct (running sp). }
  destruct (event_ok (Left 0) s Hs Hc) as [(sp & G1 & G2) G3 G4]; [|done|].
  { intros sp _. exists sp. simpl. by destruct (running sp). }
  split_and!; [split|by apply runner_guar|].
  - by exists sp.
  - exact G3.
  - intros _. exact Hc.
  - split; [|done]. unfold at_phase. simpl. by rewrite Hr.
Qed.

Lemma run_spec : triple protocol 0 (at_phase [] None) (run 0) (fun _ => gone).
Proof.
  unfold run. eapply triple_bind; [|intros ?; apply manual_leave_spec].
  apply (triple_iter 0 _ _ (fun _ => at_phase [] None) _ (fun _ => ending true)).
  - intros _. apply at_phase_stable.
  - intros _. apply ending_stable.
  - intros _. eapply triple_bind; [apply read_cancelled_spec|].
    intros [|]; [by apply triple_ret; [apply ending_stable|]|].
    eapply triple_bind.
    { eapply triple_pre; [apply take_or_sleep_spec|]. by intros s _ [? _]. }
    intros r. eapply (triple_bind _ _ _ _ _ _ (fun ops => at_phase ops None)).
    { destruct r as [ops|]; [by apply triple_ret; [apply at_phase_stable|]|apply wake_and_take_spec]. }
    intros ops. eapply triple_bind; [apply execute_all_spec|].
    intros ?. by apply triple_ret; [apply at_phase_stable|].
Qed.

Lemma was_cancelled_cons t s :
  good s -> let s' := Process (Thread (m_queued_ops (th s)) true []) (Cancelled t :: log s) in
  good s' /\ forall u, keeps u s s'.
Proof.
  intros [(sp & H1 & H2) H3 H4] s'.
  assert (Hr : replay (Cancelled t :: log s) = Some sp).
  { simpl. rewrite H1. simpl. by destruct (running sp). }
  split; [split|].
  - by exists sp.
  - by intros u ?%not_elem_of_nil.
  - done.
  - intros u. split; [|done|done]. intros _. simpl. unfold phase. by rewrite Hr, H1.
Qed.

Lemma cancel_spec t : triple protocol t (fun _ => True) (cancel t) (fun _ _ => True).
Proof.
  apply triple_modify; [done..|]. intros s Hs _.
  destruct (was_cancelled_cons t s Hs) as [Hg Hk]. split_and!; [exact Hg|intros u _; apply Hk|done].
Qed.

Lemma manual_call_spec t c :
  t <> 0 -> triple protocol t (fun _ => True) (run_call 0 t c) (fun _ _ => True).
Proof.
  intros Ht. destruct c as [j| |]; simpl; [by apply execute_spec|apply cancel_spec|].
  eapply triple_bind; [apply cancel_spec|]. intros ?.
  apply triple_block; [done|done| |].
  - intros s _ _. destruct (has_left 0 (log s)) eqn:E; [left|right; by right].
    by apply enabled_0.
  - intros o s s' b Hs _ E. simpl in E. destruct (has_left 0 (log s)); simplify_eq.
    split_and!; [done|apply guar_refl|done].
Qed.

Lemma manual_sound scripts c :
  reach (start scripts) c -> sound protocol init (fun t s => t = 0 -> gone s) c.
Proof.
  apply (rg_sound (fun _ s => at_phase [] None s)).
  - split; [by exists spec_init|by intros u ?%not_elem_of_nil|by intros [|]].
  - done.
  - intros [|t] p Hp.
    + simpl in Hp. injection Hp as <-. eapply triple_post; [apply run_spec|]. by intros.
    + simpl in Hp. rewrite list_lookup_imap in Hp. destruct (scripts !! t); simplify_eq/=.
      eapply triple_conseq; [apply (triple_each _ _ (fun _ => True))|done|done]; [done|].
      intros k _. by apply manual_call_spec.
Qed.

(** Whatever threads execute, cancel or destroy, and from inside of
    operations too, the thread runs the operations one at a time, each once, in
    the order they were queued. *)
Theorem manual_thread_fifo scripts c :
  reach (start scripts) c ->
  no_fault c /\ exists sp, replay (log c.1) = Some sp /\
    queued (log c.1) = started (log c.1) ++ batch sp ++ map op_id (m_queued_ops (th c.1)).
Proof.
  intros Hc%manual_sound. split; [apply Hc|].
  destruct (good_spec _ (sound_inv Hc)) as (sp & H1 & H2). exists sp. split; [done|].
  rewrite <- H2. by apply manual_replay_fifo.
Qed.

(** Nothing is forgotten while nobody cancels: when no thread can move,
    everything queued has been executed. *)
Theorem manual_thread_no_lost_op scripts c :
  reach (start scripts) c -> was_cancelled (log c.1) = false ->
  (forall t, t < length c.2 -> ~ can_move c t) ->
  started (log c.1) = queued (log c.1).
Proof.
  intros Hr Hn Hq. pose proof (reach_length _ _ Hr) as Hl. simpl in Hl.
  pose proof (manual_sound _ _ Hr) as Hc. pose proof (sound_inv Hc) as Hg.
  assert (Hd : thread_done c 0 = false).
  { destruct (thread_done c 0) eqn:E; [|done].
    destruct (sound_post Hc 0 E eq_refl) as [_ H]. rewrite (good_cancel _ Hg) in Hn; [done|by right]. }
  destruct (sound_live Hc 0) as [Hm|[[_ Hs]|[? _]]]; [lia|done|by destruct (Hq 0 ltac:(lia))| |done].
  destruct (good_cond _ Hg 0 Hs) as (_ & Hq0 & Hp). destruct (good_spec _ Hg) as (sp & H1 & H2).
  unfold phase in Hp. rewrite H1 in Hp. injection Hp as Hb _.
  rewrite (manual_replay_fifo _ _ H1), Hb, H2, Hq0. simpl. by rewrite app_nil_r.
Qed.

(** Cancel() can be lost: run() reads m_cancelled before it takes the mutex
    and waits without a predicate, so a cancel() in between wakes nobody and
    the destructor of naive::thread joins for ever. *)
Theorem manual_thread_cancel_lost :
  exists c, reach (start [[Destroy]]) c /\ was_cancelled (log c.1) = true /\
    0 ∈ m_cond (th c.1) /\ (forall t, t < length c.2 -> thread_done c t = false /\ ~ can_move c t).
Proof.
  exists (play (go 0 2 ++ go 1 10 ++ go 0 20 ++ go 1 10) (start [[Destroy]])).
  split; [apply play_reach, reach_here|]. split; [by vm_compute|]. split; [vm_compute; left|].
  intros t Ht. destruct t as [|[|t]].
  - split; [by vm_compute|]. intros (o & Ho & Hm). apply Hm.
    destruct o as [|[|[|o]]]; [by vm_compute|by vm_compute|done|by vm_compute].
  - split; [by vm_compute|]. intros (o & Ho & Hm). apply Hm. by vm_compute.
  - exfalso. revert Ht. vm_compute. lia.
Qed.

(** Thread 1 hands over two operations, the first of which hands over a third. *)
Definition scripts1 : list (list call) := [[Execute (Op 1 [Op 3 []]); Execute (Op 2 [])]].
Definition all_run : cfg process := play (go 1 10 ++ go 0 100) (start scripts1).

Theorem manual_thread_fifo_witness :
  queued (log all_run.1) = [1; 2; 3] /\ started (log all_run.1) = [1; 2; 3] /\
  no_fault all_run /\ exists sp, replay (log all_run.1) = Some sp /\
    queued (log all_run.1) = started (log all_run.1) ++ batch sp ++ map op_id (m_queued_ops (th all_run.1)).
Proof.
  split; [vm_compute; reflexivity|]. split; [vm_compute; reflexivity|].
  apply (manual_thread_fifo scripts1). apply play_reach, reach_here.
Defined.

Theorem manual_thread_no_lost_op_witness : started (log all_run.1) = queued (log all_run.1).
Proof.
  apply (manual_thread_no_lost_op scripts1).
  - apply play_reach, reach_here.
  - vm_compute. reflexivity.
  - intros t Ht (o & Hn & Ho). destruct t as [|[|t]].
    + apply Ho. destruct o as [|[|[|o]]]; [vm_compute; reflexivity|vm_compute; reflexivity| |vm_compute; reflexivity].
      by destruct Hn.
    + apply Ho. vm_compute. reflexivity.
    + exfalso. revert Ht. vm_compute. lia.
Defined.
End Manual.
