(* ===== verification/MainQueue.v ===== *)
(** * MainQueue: serial queues on the single thread

    main_thread() and create_serial_queue() of src/naive/naive_serial_queue.cpp: any
    number of serial queues (OperationQueue) that share one manual_thread
    (ManualThread), as the queue of the main thread does.  What notify_unsafe() hands
    to m_threadpool is what manual_thread::run executes, and that is drain(). *)
From S2P Require Import Prelude Conc Embed OperationQueue QueuePart ManualThread.

Module MainQueue.
Import OpQueue QueuePart.
(** Queue [i] is [queues i]; its notification is operation [i] of the thread.  [wlog] is
    what happened to all queues, the latest first. *)
Record world := World {
  queues : nat -> QueueProcess.process;
  main : Manual.process;
  wlog : list (nat * event)
}.

(** notify_unsafe() calls execute() of the thread. *)
Definition hand_over (i : nat) (e : event) (m : Manual.process) : Manual.process :=
  match e with
  | Notify => Manual.Process (Manual.push (Manual.Op i []) (Manual.th m)) (Manual.Queued i :: Manual.log m)
  | _ => m
  end.
Definition install (i : nat) (s' : QueueProcess.process) (w : world) : world :=
  let es := news (queues w i) s' in
  World (<[i := s']> (queues w)) (foldr (hand_over i) (main w) es) (map (pair i) es ++ wlog w).

Definition queue_part (i : nat) : part world QueueProcess.process := Part (fun w => queues w i) (install i) None.
Definition thread_part : part world Manual.process := Part main (fun m w => World (queues w) m (wlog w)) None.

Definition async (i : nat) (j : op) : prog world unit := embed (queue_part i) (QueueProcess.async j).
Definition detach (i t : nat) : prog world unit := embed (queue_part i) (QueueProcess.section_ (detach t)).

(** Executing the notification of a queue: the first step says that it is no longer
    outstanding. *)
Definition begin_notification (t i : nat) : prog world unit :=
  modify (fun w => World (<[i := QueueProcess.woken t (queues w i)]> (queues w))
                     (Manual.Process (Manual.th (main w)) (Manual.Started i :: Manual.log (main w)))
                     ((i, Woken t) :: wlog w)).
Definition end_notification (i : nat) : prog world unit :=
  modify (fun w => World (queues w) (Manual.Process (Manual.th (main w)) (Manual.Finished i :: Manual.log (main w))) (wlog w)).
Definition execute_op (t : nat) (j : Manual.op) : prog world unit :=
  let i := Manual.op_id j in
  do! begin_notification t i in
  do! embed (queue_part i) (QueueProcess.drain t) in
  end_notification i.

(** manual_thread::run *)
Definition run (t : nat) : prog world unit :=
  do! Iter (fun _ =>
    let! cancelled := embed thread_part Manual.read_cancelled in
    if cancelled : bool then Ret (inr tt)
    else
      let! ops := embed thread_part (Manual.take_or_sleep t) in
      let! active_ops := match ops with
                         | Some ops => Ret ops
                         | None => embed thread_part (Manual.wake_and_take t)
                         end in
      do! each (execute_op t) active_ops in
      Ret (inl tt)) tt in
  embed thread_part (Manual.leave t).

(** Other threads queue operations, release queues and cancel the thread. *)
Inductive call := Async (i : nat) (j : op) | Detach (i : nat) | Cancel.
Definition run_call (t : nat) (c : call) : prog world unit :=
  match c with
  | Async i j => async i j
  | Detach i => detach i t
  | Cancel => embed thread_part (Manual.cancel t)
  end.
Definition init : world := World (fun _ => QueueProcess.init) Manual.init [].
(** Thread 0 is the one that runs. *)
Definition start (scripts : list (list call)) : cfg world :=
  (init, run 0 :: imap (fun t cs => each (run_call (S t)) cs) scripts).

(** ** How the parts agree *)
Definition stage_at (w : world) (i : nat) : QueueProcess.stage := QueueProcess.stage_of (queues w i).

(** The notifications the thread has still to execute, in their order, and the one it
    executes. *)
Definition order (l : list Manual.event) : list nat :=
  match Manual.replay l with Some sp => Manual.batch sp ++ Manual.waiting sp | None => [] end.
Definition running (l : list Manual.event) : option nat := snd (Manual.phase l).

(** Events of one queue. *)
Fixpoint events_of (i : nat) (l : list (nat * event)) : list event :=
  match l with
  | [] => []
  | (k, e) :: l => if Nat.eqb k i then e :: events_of i l else events_of i l
  end.

(** How many operations of [j] were started since [i] gave its last notification. *)
Fixpoint bypassed (i j : nat) (l : list (nat * event)) : nat :=
  match l with
  | [] => 0
  | (k, Notify) :: l => if Nat.eqb k i then 0 else bypassed i j l
  | (k, Started _ _) :: l => if Nat.eqb k j then S (bypassed i j l) else bypassed i j l
  | _ :: l => bypassed i j l
  end.

(** How many operations a drain may still start. *)
Definition credit (st : QueueProcess.stage) : nat :=
  match st with
  | QueueProcess.Awake _ => kMaxOpsPerDrain
  | QueueProcess.Draining _ _ quota => quota
  | _ => 0
  end.
(** [j] comes before [i]. *)
Fixpoint before (j i : nat) (l : list nat) : bool :=
  match l with
  | [] => false
  | x :: l => if Nat.eqb x i then false else Nat.eqb x j || before j i l
  end.

Record coupled (st : nat -> QueueProcess.stage) (L : list nat) (r : option nat) (l : list (nat * event)) : Prop := {
  cp_nodup : NoDup L;
  cp_notified i : i ∈ L <-> st i = QueueProcess.Notified;
  cp_owner i t : QueueProcess.owns t (st i) -> t = 0 /\ r = Some i;
  cp_credit i : credit (st i) <= kMaxOpsPerDrain;
  cp_bypassed i j : i <> j -> st i = QueueProcess.Notified ->
    bypassed i j l + credit (st j) + (if before j i L then kMaxOpsPerDrain else 0) <= kMaxOpsPerDrain
}.

Lemma before_snoc j i k L : i ∈ L -> before j i (L ++ [k]) = before j i L.
Proof.
  induction L as [|x L IH]; intros H; [by apply not_elem_of_nil in H|]. simpl.
  destruct (Nat.eqb_spec x i); [done|]. rewrite IH; [done|]. by apply elem_of_cons in H as [->|?].
Qed.

Lemma before_elem j i L : before j i L = true -> j ∈ L.
Proof.
  induction L as [|x L IH]; simpl; [done|]. destruct (Nat.eqb x i); [done|].
  intros [->%Nat.eqb_eq|H]%orb_true_iff; apply elem_of_cons; auto.
Qed.

Lemma coupled_ext st st' L r l : (forall i, st i = st' i) -> coupled st L r l -> coupled st' L r l.
Proof.
  intros E [H1 H2 H3 H5 H4]. split; [done|..].
  - intros i. by rewrite <- E.
  - intros i t. rewrite <- E. apply H3.
  - intros i. rewrite <- E. apply H5.
  - intros i j. rewrite <- !E. apply H4.
Qed.

(** An event that neither gives nor takes a notification. *)
Definition quiet (e : event) : bool := match e with Notify | Woken _ => false | _ => true end.
Definition starts (e : event) : nat := match e with Started _ _ => 1 | _ => 0 end.

Lemma quiet_step e sp sp' :
  quiet e = true -> QueueProcess.spec_step e sp = Some sp' ->
  let st := QueueProcess.at_stage sp in let st' := QueueProcess.at_stage sp' in
  (forall t, QueueProcess.owns t st' -> QueueProcess.owns t st) /\
  (st' = QueueProcess.Notified <-> st = QueueProcess.Notified) /\ credit st' + starts e <= credit st.
Proof.
  intros Hq E. destruct e; try done; simpl in *; branches E; rewrite ?Heqs; simpl;
    repeat match goal with H : andb _ _ = true |- _ => apply andb_true_iff in H as [H ?] end;
    repeat match goal with H : Nat.eqb _ _ = true |- _ => apply Nat.eqb_eq in H; subst end;
    (split_and!; [by auto|by (split; intros; congruence)|try lia]); unfold kMaxOpsPerDrain; lia.
Qed.

Lemma bypassed_quiet i j k e l :
  quiet e = true -> bypassed i j ((k, e) :: l) = bypassed i j l + (if Nat.eqb k j then starts e else 0).
Proof. destruct e; simpl; try done; intros _; destruct (Nat.eqb k j); simpl; lia. Qed.

Lemma coupled_quiet st L r l i e sp sp' :
  coupled st L r l -> st i = QueueProcess.at_stage sp -> quiet e = true ->
  QueueProcess.spec_step e sp = Some sp' ->
  coupled (<[i := QueueProcess.at_stage sp']> st) L r ((i, e) :: l).
Proof.
  intros [H1 H2 H3 H5 H4] Ei Hq Hs. destruct (quiet_step e sp sp' Hq Hs) as (K1 & K2 & K3). rewrite <- Ei in *.
  assert (Hn : forall k, <[i := QueueProcess.at_stage sp']> st k = QueueProcess.Notified <-> st k = QueueProcess.Notified).
  { intros k. destruct (decide (i = k)) as [<-|]; fn; [done|done]. }
  split; [done|..].
  - intros k. by rewrite H2, Hn.
  - intros k t. destruct (decide (i = k)) as [<-|]; fn; [|by apply H3]. intros Ho. by apply H3, K1.
  - intros k. destruct (decide (i = k)) as [<-|]; fn; [|done]. specialize (H5 i). lia.
  - intros a b Hab Ha%Hn. rewrite (bypassed_quiet _ _ _ _ _ Hq). specialize (H4 a b Hab Ha).
    destruct (Nat.eqb_spec i b) as [<-|]; fn; lia.
Qed.

Lemma coupled_notify st L r l i sp sp' :
  coupled st L r l -> st i = QueueProcess.at_stage sp -> QueueProcess.spec_step Notify sp = Some sp' ->
  coupled (<[i := QueueProcess.at_stage sp']> st) (L ++ [i]) r ((i, Notify) :: l).
Proof.
  intros [H1 H2 H3 H5 H4] Ei Hs.
  assert (Es : st i = QueueProcess.Idle /\ QueueProcess.at_stage sp' = QueueProcess.Notified).
  { rewrite Ei. by apply (notified_step Notify). }
  destruct Es as [Es ->].
  assert (Hi : i ∉ L) by (rewrite H2, Es; done).
  split.
  - apply list.NoDup_app. split_and!; [done| |apply NoDup_singleton].
    by intros x Hx ->%list_elem_of_singleton.
  - intros k. rewrite elem_of_app, list_elem_of_singleton.
    destruct (decide (i = k)) as [<-|]; fn; [tauto|]. rewrite H2. intuition congruence.
  - intros k t. destruct (decide (i = k)) as [<-|]; fn; [done|apply H3].
  - intros k. destruct (decide (i = k)) as [<-|]; fn; [simpl; lia|done].
  - intros a b Hab. destruct (decide (i = a)) as [<-|Hne]; fn.
    + intros _. simpl. rewrite Nat.eqb_refl. destruct (before b i (L ++ [i])) eqn:Eb.
      * apply before_elem, elem_of_app in Eb as [Hb|Hb%list_elem_of_singleton]; [|congruence].
        apply H2 in Hb. by rewrite Hb.
      * specialize (H5 b). lia.
    + intros Ha. simpl. destruct (Nat.eqb_spec i a); [done|].
      rewrite before_snoc by (by apply H2). specialize (H4 a b Hab Ha).
      destruct (decide (i = b)) as [<-|]; fn; [|done]. by rewrite Es in H4.
Qed.

(** A critical section of a queue, event by event. *)
Fixpoint notices (i : nat) (es : list event) : list nat :=
  match es with
  | [] => []
  | Notify :: es => notices i es ++ [i]
  | _ :: es => notices i es
  end.

Lemma coupled_events st L r l i lg es : forall sp',
  coupled st L r l -> Forall taken_by_nobody es ->
  (exists sp, QueueProcess.replay lg = Some sp /\ st i = QueueProcess.at_stage sp) ->
  QueueProcess.replay (es ++ lg) = Some sp' ->
  coupled (<[i := QueueProcess.at_stage sp']> st) (L ++ notices i es) r (map (pair i) es ++ l).
Proof.
  induction es as [|e es IH]; intros sp' Hc He (sp & Hsp & Ei) E; simpl in *.
  - rewrite app_nil_r. eapply coupled_ext; [|exact Hc]. intros k.
    destruct (decide (i = k)) as [<-|]; fn; congruence.
  - pose proof (List.Forall_inv He) as He1. apply List.Forall_inv_tail in He. destruct (QueueProcess.replay (es ++ lg)) as [sp1|]; [|done].
    specialize (IH sp1 Hc He (ex_intro _ sp (conj Hsp Ei)) eq_refl).
    set (st1 := <[i := QueueProcess.at_stage sp1]> st) in *.
    assert (E1 : st1 i = QueueProcess.at_stage sp1) by (unfold st1; by fn).
    apply (coupled_ext (<[i := QueueProcess.at_stage sp']> st1)).
    { intros k. unfold st1. destruct (decide (i = k)) as [<-|]; by fn. }
    destruct (quiet e) eqn:Eq.
    + assert (H : coupled (<[i := QueueProcess.at_stage sp']> st1) (L ++ notices i es) r
                     ((i, e) :: map (pair i) es ++ l)) by (by eapply coupled_quiet).
      by destruct e.
    + destruct e; try done. rewrite app_assoc. by eapply coupled_notify.
Qed.

(** The thread begins with the notification that is next ... *)
Lemma coupled_woken st L i l :
  coupled st (i :: L) None l ->
  coupled (<[i := QueueProcess.Awake 0]> st) L (Some i) ((i, Woken 0) :: l).
Proof.
  intros [H1 H2 H3 H5 H4]. apply list.NoDup_cons in H1 as [Hi H1].
  assert (Ei : st i = QueueProcess.Notified) by (apply H2; apply list_elem_of_here).
  split; [done|..].
  - intros k. destruct (decide (i = k)) as [<-|Hk]; fn; [split; intros; done|].
    rewrite <- H2, elem_of_cons. intuition congruence.
  - intros k t. destruct (decide (i = k)) as [<-|Hk]; fn; [by intros ->|]. by intros [_ ?]%H3.
  - intros k. destruct (decide (i = k)) as [<-|Hk]; fn; [done|apply H5].
  - intros a b Hab. destruct (decide (i = a)) as [<-|Hne]; fn; [done|]. intros Ha. simpl.
    specialize (H4 a b Hab Ha). simpl in H4. destruct (Nat.eqb_spec i a); [done|].
    destruct (decide (i = b)) as [<-|Hnb]; fn.
    + rewrite Nat.eqb_refl, Ei in H4. simpl in *.
      assert (before i a L = false) as ->; [|lia].
      destruct (before i a L) eqn:Eb; [|done]. by apply before_elem in Eb.
    + destruct (Nat.eqb_spec i b); [done|]. exact H4.
Qed.

(** ... and is done with it. *)
Lemma coupled_ended st L i l :
  coupled st L (Some i) l -> (forall t, ~ QueueProcess.owns t (st i)) -> coupled st L None l.
Proof.
  intros [H1 H2 H3 H5 H4] Hn. split; [done..| |done|done].
  intros k t Ho. destruct (H3 k t Ho) as [_ [= ->]]. by destruct (Hn t).
Qed.

(** ** The protocol: those of the parts, and that they agree *)
Definition agree (w : world) : Prop :=
  coupled (stage_at w) (order (Manual.log (main w))) (running (Manual.log (main w))) (wlog w).

Record good (w : world) : Prop := {
  good_main : Manual.good (main w);
  good_queue i : QueueProcess.good (queues w i);
  good_agree : agree w;
  good_log i : QueueProcess.log (queues w i) = events_of i (wlog w)
}.

Record keeps (t : nat) (w w' : world) : Prop := {
  keeps_main : Manual.keeps t (main w) (main w');
  keeps_queue i : QueueProcess.keeps t (queues w i) (queues w' i)
}.
#[local] Existing Instances Manual.manual_keeps_pre QueueProcess.queue_keeps_pre.
#[export] Instance world_keeps_pre t : PreOrder (keeps t).
Proof.
  split; [by split|]. intros x y z [H1 H2] [H3 H4].
  split; [by transitivity (main y)|]. intros i. by transitivity (queues y i).
Qed.

Definition waits (t : nat) (w : world) : Prop := Manual.waits t (main w).
Definition protocol : Conc.protocol world := Protocol good keeps waits world_keeps_pre.

Lemma order_app i m :
  Manual.good m -> let m' := hand_over i Notify m in
  Manual.good m' /\ Manual.phase (Manual.log m') = Manual.phase (Manual.log m) /\
  (forall t, Manual.keeps t m m') /\ order (Manual.log m') = order (Manual.log m) ++ [i].
Proof.
  intros Hm m'. destruct (Manual.push_ok (Manual.Op i []) 0 m Hm) as (G & P & _).
  split_and!; [exact G|exact P|by intros t; apply Manual.push_ok|].
  unfold order. simpl. destruct (Manual.good_spec _ Hm) as (sp & -> & _). simpl.
  by destruct (Manual.running sp); simpl; rewrite app_assoc.
Qed.

Lemma hand_over_all i es m :
  Manual.good m -> let m' := foldr (hand_over i) m es in
  Manual.good m' /\ Manual.phase (Manual.log m') = Manual.phase (Manual.log m) /\
  (forall t, Manual.keeps t m m') /\ order (Manual.log m') = order (Manual.log m) ++ notices i es.
Proof.
  intros Hm. induction es as [|e es (I1 & I2 & I3 & I4)]; simpl.
  { split_and!; [done|done|done|by rewrite app_nil_r]. }
  destruct e; try done. destruct (order_app i _ I1) as (J1 & J2 & J3 & J4).
  split_and!; [exact J1|by rewrite J2| |by rewrite J4, I4, app_assoc].
  intros t. etransitivity; [apply I3|apply J3].
Qed.

Lemma events_of_queue i k es l :
  events_of k (map (pair i) es ++ l) = (if Nat.eqb i k then es else []) ++ events_of k l.
Proof. induction es as [|e es IH]; simpl; [by destruct (Nat.eqb i k)|]. rewrite IH. by destruct (Nat.eqb i k). Qed.

Lemma install_ok i w s' es t :
  good w -> QueueProcess.good s' -> guar QueueProcess.protocol t (queues w i) s' ->
  QueueProcess.log s' = es ++ QueueProcess.log (queues w i) -> Forall taken_by_nobody es ->
  good (install i s' w) /\ guar protocol t w (install i s' w) /\
  Manual.phase (Manual.log (main (install i s' w))) = Manual.phase (Manual.log (main w)).
Proof.
  intros [G1 G2 G3 G4] Hs' Hg El He. unfold install. rewrite (news_app _ _ _ El).
  destruct (hand_over_all i es (main w) G1) as (M1 & M2 & M3 & M4). simpl. split_and!; [split|..]; simpl.
  - exact M1.
  - intros k. destruct (decide (i = k)) as [<-|]; fn; [done|apply G2].
  - destruct (QueueProcess.good_stage _ Hs') as (sp' & R' & _ & S' & _).
    destruct (QueueProcess.good_stage _ (G2 i)) as (sp & R & _ & S & _).
    unfold agree, running. simpl. rewrite M4, M2.
    apply (coupled_ext (<[i := QueueProcess.at_stage sp']> (stage_at w))).
    { intros k. unfold stage_at. simpl. destruct (decide (i = k)) as [<-|]; by fn. }
    eapply coupled_events; [exact G3|done|by exists sp|]. by rewrite <- El.
  - intros k. rewrite events_of_queue. destruct (Nat.eqb_spec i k) as [<-|]; fn; [|apply G4].
    by rewrite El, G4.
  - intros u Hu. split; [apply M3|]. intros k. simpl. destruct (decide (i = k)) as [<-|]; fn; [by apply Hg|done].
  - exact M2.
Qed.

Lemma queue_fits i t : fits (queue_part i) QueueProcess.protocol protocol t calm.
Proof.
  split; simpl.
  - intros. by fn.
  - intros w Hw. apply Hw.
  - intros w w' Hw. apply Hw.
  - intros A f o a w b [_ Hf] Hw E Hb Hg. destruct (Hf _ _ _ _ E) as (es & El & He).
    by destruct (install_ok i w b es t Hw Hb Hg El He) as (? & ? & _).
  - intros A f w [Hf _] _ _. left. by apply enabled_0.
Qed.

(** What the thread does by itself: the notifications it has are the same. *)
Definition own_event (e : Manual.event) : Prop :=
  match e with Manual.Taken | Manual.Cancelled _ | Manual.Left _ => True | _ => False end.
Definition own : property (B := Manual.process) := fun A f =>
  forall o s s' a, f o s = Some (s', a) ->
    Manual.log s' = Manual.log s \/ exists e, Manual.log s' = e :: Manual.log s /\ own_event e.

Lemma own_same m m' :
  Manual.good m' -> (Manual.log m' = Manual.log m \/ exists e, Manual.log m' = e :: Manual.log m /\ own_event e) ->
  order (Manual.log m') = order (Manual.log m) /\ running (Manual.log m') = running (Manual.log m).
Proof.
  intros Hg [->|(e & El & He)]; [done|]. destruct (Manual.good_spec _ Hg) as (sp' & Hr & _).
  rewrite El in Hr |- *. unfold order, running, Manual.phase. rewrite Hr. simpl in Hr.
  destruct (Manual.replay (Manual.log m)) as [[w b r]|]; [|done].
  destruct e; try done; destruct r, b; simpl in *; simplify_eq/=; try done. by rewrite app_nil_r.
Qed.

Lemma thread_fits t : fits thread_part Manual.protocol protocol t own.
Proof.
  split; simpl.
  - done.
  - intros w Hw. apply Hw.
  - intros w w' Hw. apply Hw.
  - intros A f o a w b Hf [G1 G2 G3 G4] E Hb Hg. destruct (own_same _ _ Hb (Hf _ _ _ _ E)) as [E1 E2].
    split; [split; simpl; [done|done| |done]|].
    + unfold agree. simpl. rewrite E1, E2. exact G3.
    + intros u Hu. split; [by apply Hg|]. intros i. done.
  - intros A f w _ _ Hw. by right.
Qed.

(** What the runner knows of its batch. *)
Definition at_phase (ops : list Manual.op) (r : option nat) (w : world) : Prop := Manual.at_phase ops r (main w).

Lemma phase_frame i ops r :
  frame (queue_part i) QueueProcess.protocol protocol 0 calm (at_phase ops r) (at_phase ops r).
Proof.
  apply plain_frame; [done|..].
  - intros w w' H _ _ [K _]. unfold at_phase, Manual.at_phase in *. by rewrite (Manual.keeps_phase _ _ _ K eq_refl).
  - intros A f o a w b [_ Hf] Hw E HR. destruct (Hf _ _ _ _ E) as (es & El & He).
    unfold at_phase, Manual.at_phase in *. simpl. rewrite (news_app (queues w i) b es El).
    destruct (hand_over_all i es (main w)) as (_ & -> & _); [apply Hw|done].
Qed.

Lemma no_frame {B} (Pt : part world B) W t G :
  then_ Pt = None -> frame Pt W protocol t G (fun _ => True) (fun _ => True).
Proof. intros. by apply plain_frame. Qed.

(** ** The runner *)
Definition free_at (i : nat) (ops : list Manual.op) (w : world) : Prop :=
  ~ QueueProcess.owns 0 (stage_at w i) /\ at_phase ops (Some i) w.
Definition awake_at (i : nat) (ops : list Manual.op) (w : world) : Prop :=
  stage_at w i = QueueProcess.Awake 0 /\ at_phase ops (Some i) w.

Lemma phase_stable ops r : stable protocol 0 (at_phase ops r).
Proof. apply (frame_stable _ _ _ _ _ _ _ (phase_frame 0 ops r)). Qed.

Lemma free_at_stable i ops : stable protocol 0 (free_at i ops).
Proof.
  intros w w' [H1 H2] I1 I2 HR. split; [|by eapply phase_stable].
  destruct HR as [_ K]. by apply K.
Qed.
Lemma awake_at_stable i ops : stable protocol 0 (awake_at i ops).
Proof.
  intros w w' [H1 H2] I1 I2 HR. split; [|by eapply phase_stable].
  destruct HR as [_ K]. unfold stage_at in *. destruct (K i) as [K1 _ _]. rewrite K1, H1; [done|]. by rewrite H1.
Qed.

Lemma phase_order ops r w : at_phase ops r w -> Manual.good (main w) ->
  order (Manual.log (main w)) = map Manual.op_id ops ++ map Manual.op_id (Manual.m_queued_ops (Manual.th (main w))) /\
  running (Manual.log (main w)) = r.
Proof.
  intros Hp Hg. destruct (Manual.phase_spec _ _ _ Hg Hp) as (x & Hr & ->). unfold order, running.
  rewrite Hr. simpl. by rewrite Hp.
Qed.

Lemma begin_spec j ops :
  triple protocol 0 (at_phase (j :: ops) None) (begin_notification 0 (Manual.op_id j))
    (fun _ => awake_at (Manual.op_id j) ops).
Proof.
  apply triple_modify; [apply phase_stable|apply awake_at_stable|]. intros w [G1 G2 G3 G4] Hp.
  set (i := Manual.op_id j) in *.
  destruct (phase_order _ _ _ Hp G1) as [E1 E2]. unfold agree in G3. rewrite E1, E2 in G3. simpl in G3. fold i in G3.
  assert (Ei : stage_at w i = QueueProcess.Notified) by (apply (cp_notified _ _ _ _ G3), list_elem_of_here).
  destruct (QueueProcess.woken_ok 0 (queues w i) (G2 i) Ei) as (W1 & W2 & W3).
  destruct (Manual.started_ok j ops (main w) G1 Hp) as (S1 & S2 & S3).
  split_and!; [split|..]; simpl.
  - exact S1.
  - intros k. destruct (decide (i = k)) as [<-|]; fn; [done|apply G2].
  - destruct (phase_order ops (Some i) (World (queues w)
      (Manual.Process (Manual.th (main w)) (Manual.Started i :: Manual.log (main w))) []) S3 S1) as [E3 E4].
    simpl in E3, E4. unfold agree. simpl. rewrite E3, E4.
    eapply coupled_ext; [|apply coupled_woken, G3]. intros k. unfold stage_at. simpl.
    destruct (decide (i = k)) as [<-|]; by fn.
  - intros k. destruct (Nat.eqb_spec i k) as [<-|]; fn; [|apply G4]. simpl. by rewrite G4.
  - intros u Hu. split; [by apply S2|]. intros k. simpl. destruct (decide (i = k)) as [<-|]; fn; [by apply W2|done].
  - split; [|exact S3]. unfold stage_at. simpl. by fn.
Qed.

Lemma end_spec i ops :
  triple protocol 0 (free_at i ops) (end_notification i) (fun _ => at_phase ops None).
Proof.
  apply triple_modify; [apply free_at_stable|apply phase_stable|]. intros w [G1 G2 G3 G4] [Hf Hp].
  destruct (Manual.finished_ok i ops (main w) G1 Hp) as (S1 & S2 & S3).
  destruct (phase_order _ _ _ Hp G1) as [E1 E2]. unfold agree in G3. rewrite E1, E2 in G3.
  destruct (phase_order ops None (World (queues w)
    (Manual.Process (Manual.th (main w)) (Manual.Finished i :: Manual.log (main w))) []) S3 S1) as [E3 E4].
  simpl in E3, E4. split_and!; [split|..]; simpl; [done|done| |done| |done].
  - unfold agree. simpl. rewrite E3, E4. apply (coupled_ended _ _ i); [done|].
    intros t Ho. destruct (cp_owner _ _ _ _ G3 i t Ho) as [-> _]. by apply Hf.
  - intros u Hu. split; [by apply S2|]. intros k. done.
Qed.

Lemma main_execute_op_spec j ops :
  triple protocol 0 (at_phase (j :: ops) None) (execute_op 0 j) (fun _ => at_phase ops None).
Proof.
  eapply triple_bind; [apply begin_spec|]. intros ?. eapply triple_bind; [|intros ?; apply end_spec].
  apply (embed_triple _ _ _ _ _ (queue_fits _ 0) _ _ (phase_frame _ ops _) _ _ _ (calm_drain 0)
           (QueueProcess.drain_spec 0)).
Qed.

Lemma each_op_spec ops :
  triple protocol 0 (at_phase ops None) (each (execute_op 0) ops) (fun _ => at_phase [] None).
Proof.
  induction ops as [|j ops IH]; simpl each; [apply triple_skip, phase_stable|].
  eapply triple_bind; [apply main_execute_op_spec|]. by intros ?.
Qed.

(** What was proved of the thread alone. *)
Lemma thread_triple {A} t (p : prog Manual.process A) P Q :
  acts own p -> triple Manual.protocol t P p Q ->
  triple protocol t (fun w => P (main w)) (embed thread_part p) (fun a w => Q a (main w)).
Proof.
  intros Ha Hp. eapply triple_conseq.
  - apply (embed_triple _ _ _ _ _ (thread_fits t) _ _ (no_frame thread_part _ _ _ eq_refl) p P Q Ha Hp).
  - by intros.
  - by intros a w _ [? _].
Qed.

Lemma own_take t : acts own (Manual.take_or_sleep t).
Proof.
  intros o s s' a E. simpl in E. destruct (Manual.m_queued_ops (Manual.th s)); injection E as <- _; simpl; [by left|].
  right. by exists Manual.Taken.
Qed.
Lemma own_wake t : acts own (Manual.wake_and_take t).
Proof. intros o s s' a E. simpl in E. destruct (_ && _); [done|]. injection E as <- _. right. by exists Manual.Taken. Qed.
Lemma own_read : acts own Manual.read_cancelled.
Proof. intros o s s' a E. injection E as <- _. by left. Qed.
Lemma own_leave t : acts own (Manual.leave t).
Proof. intros o s s' a E. injection E as <- _. right. by exists (Manual.Left t). Qed.
Lemma own_cancel t : acts own (Manual.cancel t).
Proof. intros o s s' a E. injection E as <- _. right. by exists (Manual.Cancelled t). Qed.

Definition gone (w : world) : Prop := Manual.gone (main w).
Definition ending (b : bool) (w : world) : Prop := Manual.ending b (main w).

Lemma main_stable t P : stable Manual.protocol t P -> stable protocol t (fun w => P (main w)).
Proof. intros HP. by eapply (embed_stable thread_part _ _ _ _ _ (thread_fits t)). Qed.

Lemma main_run_spec : triple protocol 0 (at_phase [] None) (run 0) (fun _ => gone).
Proof.
  unfold run. eapply triple_bind; [|intros ?; apply (thread_triple 0 _ _ _ (own_leave 0) Manual.manual_leave_spec)].
  apply (triple_iter 0 _ _ (fun _ => at_phase [] None) _ (fun _ => ending true)).
  - intros _. apply phase_stable.
  - intros _. apply main_stable, Manual.ending_stable.
  - intros _. eapply triple_bind; [apply (thread_triple 0 _ _ _ own_read Manual.read_cancelled_spec)|].
    intros [|]; [by apply triple_ret; [apply (main_stable 0 _ (Manual.ending_stable true))|]|].
    eapply triple_bind.
    { eapply triple_pre; [apply (thread_triple 0 _ _ _ (own_take 0) Manual.take_or_sleep_spec)|]. by intros w _ [? _]. }
    intros r. eapply (triple_bind _ _ _ _ _ _ (fun ops => at_phase ops None)).
    { destruct r as [ops|]; [by apply triple_ret; [apply phase_stable|]|].
      apply (thread_triple 0 _ _ _ (own_wake 0) Manual.wake_and_take_spec). }
    intros ops. eapply triple_bind; [apply each_op_spec|].
    intros ?. by apply triple_ret; [apply phase_stable|].
Qed.

Lemma queue_triple i t (p : prog QueueProcess.process unit) :
  acts calm p -> triple QueueProcess.protocol t (fun _ => True) p (fun _ _ => True) ->
  triple protocol t (fun _ => True) (embed (queue_part i) p) (fun _ _ => True).
Proof.
  intros Ha Hp. eapply triple_conseq.
  - apply (embed_triple _ _ _ _ _ (queue_fits i t) _ _ (no_frame (queue_part i) _ _ _ eq_refl) p _ _ Ha Hp).
  - by intros.
  - by intros.
Qed.

Lemma main_call_spec t c : triple protocol t (fun _ => True) (run_call t c) (fun _ _ => True).
Proof.
  destruct c as [i j|i|]; simpl.
  - apply (queue_triple i t _ (calm_async j)), QueueProcess.async_spec. done.
  - apply (queue_triple i t _ (calm_section _ (calm_detach t))), QueueProcess.section_quiet; [done|].
    intros s Hs _. by apply QueueProcess.detach_ok.
  - apply (thread_triple t _ (fun _ => True) (fun _ _ => True) (own_cancel t) (Manual.cancel_spec t)).
Qed.

Lemma init_good : good init.
Proof.
  split; simpl; [|intros i| |done].
  - split; [by exists Manual.spec_init|by intros u ?%not_elem_of_nil|by intros [|]].
  - apply QueueProcess.queue_init_good.
  - split; simpl; [constructor| |done| |done].
    + intros i. split; [by intros ?%not_elem_of_nil|done].
    + intros i. unfold kMaxOpsPerDrain. simpl. lia.
Qed.

Lemma world_sound scripts c :
  reach (start scripts) c -> sound protocol init (fun t w => t = 0 -> gone w) c.
Proof.
  apply (rg_sound (fun t w => t = 0 -> at_phase [] None w)); [apply init_good|done|].
  intros [|t] p Hp.
  - simpl in Hp. injection Hp as <-. eapply triple_conseq; [apply main_run_spec| |]; [by auto|by auto].
  - simpl in Hp. rewrite list_lookup_imap in Hp. destruct (scripts !! t); simplify_eq/=.
    eapply triple_conseq; [apply (triple_each _ _ (fun _ => True))|done|done]; [done|].
    intros k _. apply main_call_spec.
Qed.

(** C22: Whatever threads queue operations on whatever queues of the thread, from inside of
    operations too, release the queues and cancel the thread: each queue is first in,
    first out, no two operations of any queues run at the same time, and the events of
    each queue are those of the whole history that concern it. *)
Theorem queues_share_thread scripts c :
  reach (start scripts) c ->
  no_fault c /\
  (forall i, exists sp, QueueProcess.replay (events_of i (wlog c.1)) = Some sp /\
     QueueProcess.agree (QueueProcess.q (queues c.1 i)) sp /\
     QueueProcess.queued (events_of i (wlog c.1)) = QueueProcess.started (events_of i (wlog c.1)) ++ QueueProcess.waiting sp) /\
  (forall i j t u, QueueProcess.owns t (stage_at c.1 i) -> QueueProcess.owns u (stage_at c.1 j) -> i = j).
Proof.
  intros Hc%world_sound. destruct (sound_inv Hc) as [G1 G2 G3 G4]. split_and!.
  - apply Hc.
  - intros i. rewrite <- G4. destruct (QueueProcess.good_stage _ (G2 i)) as (sp & H1 & H2 & _).
    exists sp. split_and!; [done|done|by apply QueueProcess.replay_fifo].
  - intros i j t u H1 H2. destruct (cp_owner _ _ _ _ G3 i t H1), (cp_owner _ _ _ _ G3 j u H2). congruence.
Qed.

(** C23: The thread is shared fairly: while a queue waits for its turn no other queue starts
    more than ten operations, however many are queued. *)
Theorem queue_turn_bounded scripts c i j :
  reach (start scripts) c -> i <> j -> m_pending (QueueProcess.q (queues c.1 i)) <> 0 ->
  bypassed i j (wlog c.1) <= 10.
Proof.
  intros Hc%world_sound Hne Hp. destruct (sound_inv Hc) as [G1 G2 G3 G4].
  apply QueueProcess.pending_notified in Hp; [|apply G2].
  pose proof (cp_bypassed _ _ _ _ G3 i j Hne Hp). unfold kMaxOpsPerDrain in *. lia.
Qed.

(** C24: Nothing is forgotten while nobody cancels: when no thread can move, every queue
    nothing was queued on after its release has executed all it was given. *)
Theorem queues_share_thread_no_lost_job scripts c i :
  reach (start scripts) c -> Manual.was_cancelled (Manual.log (main c.1)) = false ->
  (forall t, t < length c.2 -> ~ can_move c t) ->
  QueueProcess.late (events_of i (wlog c.1)) = false ->
  QueueProcess.started (events_of i (wlog c.1)) = QueueProcess.queued (events_of i (wlog c.1)) /\
  m_jobs (QueueProcess.q (queues c.1 i)) = [].
Proof.
  intros Hr Hn Hq Hl. pose proof (reach_length _ _ Hr) as Hlen. simpl in Hlen.
  pose proof (world_sound _ _ Hr) as Hc. destruct (sound_inv Hc) as [G1 G2 G3 G4].
  assert (Hd : thread_done c 0 = false).
  { destruct (thread_done c 0) eqn:E; [|done].
    destruct (sound_post Hc 0 E eq_refl) as [_ H]. rewrite (Manual.good_cancel _ G1) in Hn; [done|by right]. }
  destruct (sound_live Hc 0) as [Hm|[[_ Hs]|[? _]]]; [lia|done|by destruct (Hq 0 ltac:(lia))| |done].
  destruct (Manual.good_cond _ G1 0 Hs) as (_ & Hq0 & Hp).
  destruct (phase_order [] None c.1 Hp G1) as [E1 E2]. unfold agree in G3. rewrite E1, E2, Hq0 in G3.
  rewrite <- G4 in *. destruct (QueueProcess.good_stage _ (G2 i)) as (sp & H1 & [(js & A1 & A2) A3 A4 A6] & H3 & H4).
  assert (Ei : QueueProcess.at_stage sp = QueueProcess.Idle).
  { rewrite <- H3. destruct (QueueProcess.stage_of (queues c.1 i)) as [| |t|t r k] eqn:E; [done|exfalso..].
    - apply (cp_notified _ _ _ _ G3) in E. by apply not_elem_of_nil in E.
    - destruct (cp_owner _ _ _ _ G3 i t); [|done]. unfold stage_at. by rewrite E.
    - destruct (cp_owner _ _ _ _ G3 i t); [|done]. unfold stage_at. by rewrite E. }
  rewrite Ei in *. simpl in A2. destruct (m_jobs (QueueProcess.q (queues c.1 i))) as [|x l] eqn:Ej.
  - split; [|done]. rewrite (QueueProcess.replay_fifo _ _ H1), A1. destruct js; [|done]. by rewrite app_nil_r.
  - by rewrite H4 in Hl.
Qed.

(** Two queues: twelve operations on the first, and one on the second that queues
    another; a second thread releases the second queue later. *)
Definition scripts1 : list (list call) :=
  [map (fun i => Async 0 (Op (Pos.of_nat i) [])) (seq 1 12) ++ [Async 1 (Op 20 [Op 21 []])]; [Detach 1]].
Definition all_queued : cfg world := play (go 1 60) (start scripts1).
(** The first queue has given the thread back. *)
Definition yielded : cfg world := play (go 0 90) all_queued.
Definition all_served : cfg world := play (go 0 500 ++ go 2 20 ++ go 0 200) all_queued.

Theorem queues_share_thread_witness :
  QueueProcess.started (events_of 0 (wlog all_served.1)) = seq 1 12 /\
  QueueProcess.started (events_of 1 (wlog all_served.1)) = [20; 21] /\
  no_fault all_served /\
  (forall i, exists sp, QueueProcess.replay (events_of i (wlog all_served.1)) = Some sp /\
     QueueProcess.agree (QueueProcess.q (queues all_served.1 i)) sp /\
     QueueProcess.queued (events_of i (wlog all_served.1)) =
       QueueProcess.started (events_of i (wlog all_served.1)) ++ QueueProcess.waiting sp) /\
  (forall i j t u, QueueProcess.owns t (stage_at all_served.1 i) -> QueueProcess.owns u (stage_at all_served.1 j) -> i = j).
Proof.
  split; [vm_compute; reflexivity|]. split; [vm_compute; reflexivity|].
  apply (queues_share_thread scripts1). apply play_reach, play_reach, reach_here.
Defined.

(** The bound is met. *)
Theorem queue_turn_bounded_witness :
  bypassed 1 0 (wlog yielded.1) = 10 /\ bypassed 1 0 (wlog yielded.1) <= 10.
Proof.
  split; [vm_compute; reflexivity|]. apply (queue_turn_bounded scripts1).
  - apply play_reach, play_reach, reach_here.
  - discriminate.
  - vm_compute. discriminate.
Defined.

Theorem queues_share_thread_no_lost_job_witness :
  QueueProcess.started (events_of 1 (wlog all_served.1)) = QueueProcess.queued (events_of 1 (wlog all_served.1)) /\
  m_jobs (QueueProcess.q (queues all_served.1 1)) = [].
Proof.
  apply (queues_share_thread_no_lost_job scripts1).
  - apply play_reach, play_reach, reach_here.
  - vm_compute. reflexivity.
  - intros t Ht (o & Hn & Ho). destruct t as [|[|[|t]]].
    + apply Ho. destruct o as [|[|[|o]]]; [vm_compute; reflexivity|vm_compute; reflexivity| |vm_compute; reflexivity].
      by destruct Hn.
    + apply Ho. vm_compute. reflexivity.
    + apply Ho. vm_compute. reflexivity.
    + exfalso. revert Ht. vm_compute. lia.
  - vm_compute. reflexivity.
Defined.
End MainQueue.
