(* ===== verification/QueueManager.v ===== *)
(** * QueueManager: src/naive/naive_operation_queue_manager.cpp

    The owner of the operation queues: attach and detach are operations of its
    own thread, which executes them in order (ManualThread), so that the vector
    of owned queues is touched by one thread only. *)
From S2P Require Import Prelude Conc ManualThread.

Module QueueManager.

(** An address; [m_queues] owns the queue each entry points to. *)
Definition address : Type := nat.

Inductive request := Attach (q : address) | Detach (q : address).

Record operation_queue_manager := Manager {
  m_thread : list request;      (* operations the thread has still to execute *)
  m_queues : list address
}.
Definition make_manager : operation_queue_manager := Manager [] [].

(** The one instance: made at the first use, and never destroyed. *)
Definition instance (s_instance : option operation_queue_manager) : operation_queue_manager * option operation_queue_manager :=
  let m := match s_instance with Some m => m | None => make_manager end in (m, Some m).
(** Its destructor cancels the thread, and ~thread() does so again and joins. *)
Definition destroy_manager (r t : nat) : prog Manual.process unit :=
  do! Manual.cancel t in Manual.destroy_thread r t.

Definition attach (q : address) (m : operation_queue_manager) : operation_queue_manager :=
  Manager (m_thread m ++ [Attach q]) (m_queues m).
Definition detach (q : address) (m : operation_queue_manager) : operation_queue_manager :=
  Manager (m_thread m ++ [Detach q]) (m_queues m).

(** The loop of detach's operation: [done_] has been passed, [it] is the rest. *)
Fixpoint erase_loop (q : address) (done_ it : list address) : list address :=
  match it with
  | [] => done_
  | x :: it => if Nat.eqb x q then erase_loop q done_ it else erase_loop q (done_ ++ [x]) it
  end.

Definition execute (r : request) (queues : list address) : list address :=
  match r with
  | Attach q => queues ++ [q]
  | Detach q => erase_loop q [] queues
  end.

(** The thread executes one operation. *)
Definition step (m : operation_queue_manager) : option operation_queue_manager :=
  match m_thread m with
  | [] => None
  | r :: l => Some (Manager l (execute r (m_queues m)))
  end.

(** ... and all of them. *)
Fixpoint run (rs : list request) (queues : list address) : list address :=
  match rs with
  | [] => queues
  | r :: rs => run rs (execute r queues)
  end.

(** How often the manager should own [q] after the requests [rs], when it
    owned it [n] times before. *)
Fixpoint owned (q : address) (n : nat) (rs : list request) : nat :=
  match rs with
  | [] => n
  | Attach x :: rs => owned q (if Nat.eqb x q then S n else n) rs
  | Detach x :: rs => owned q (if Nat.eqb x q then 0 else n) rs
  end.

Definition count (q : address) (l : list address) : nat := length (filter (fun x => x = q) l).

(** Requests to own [q] that the thread has not executed. *)
Fixpoint attaching (q : address) (rs : list request) : nat :=
  match rs with
  | [] => 0
  | Attach x :: rs => (if Nat.eqb x q then 1 else 0) + attaching q rs
  | Detach _ :: rs => attaching q rs
  end.

Lemma erase_loop_filter q it : forall done_,
  erase_loop q done_ it = done_ ++ filter (fun x => x <> q) it.
Proof.
  induction it as [|x it IH]; intros done_; simpl; [by rewrite app_nil_r|].
  destruct (Nat.eqb_spec x q) as [->|Hne].
  - rewrite IH. by rewrite filter_cons_False by (intros H; by apply H).
  - rewrite IH, filter_cons_True by done. by rewrite <- app_assoc.
Qed.

Lemma count_execute q r l :
  count q (execute r l) = match r with
                          | Attach x => if Nat.eqb x q then S (count q l) else count q l
                          | Detach x => if Nat.eqb x q then 0 else count q l
                          end.
Proof.
  unfold count. destruct r as [x|x]; simpl.
  - rewrite list.filter_app, length_app. destruct (Nat.eqb_spec x q) as [->|Hne].
    + rewrite filter_cons_True by done. simpl. lia.
    + rewrite filter_cons_False by done. simpl. lia.
  - rewrite erase_loop_filter. simpl. rewrite list_filter_filter.
    destruct (Nat.eqb_spec x q) as [->|Hne].
    + rewrite (list_filter_iff _ (fun _ => False)) by (intros y; tauto).
      induction l as [|y l IH]; [done|]. rewrite filter_cons_False; [exact IH|tauto].
    + f_equal. apply list_filter_iff. intros y. split; [tauto|]. intros ->. by split.
Qed.

(** A queue lives exactly as long as it should: whatever attach and detach
    requests were made, in whatever order, when the thread has executed them
    the manager owns a queue once per attach since its last detach, and the
    queues that remain keep the order they were attached in. *)
Theorem manager_owns q rs queues :
  count q (run rs queues) = owned q (count q queues) rs.
Proof.
  revert queues. induction rs as [|r rs IH]; intros queues; [done|]. simpl.
  rewrite IH, count_execute. destruct r; simpl; by destruct (Nat.eqb q0 q).
Qed.

Lemma owned_snoc q r rs : forall n, owned q n (rs ++ [r]) = owned q (owned q n rs) [r].
Proof. induction rs as [|[x|x] rs IH]; intros n; simpl; [done|apply IH..]. Qed.

Lemma owned_execute q r l rs : owned q (count q (execute r l)) rs = owned q (count q l) (r :: rs).
Proof. by rewrite count_execute; destruct r. Qed.

Lemma attaching_app q l1 l2 : attaching q (l1 ++ l2) = attaching q l1 + attaching q l2.
Proof. induction l1 as [|[x|x] l1 IH]; simpl; [done|lia|done]. Qed.

(** What nobody asks for is not owned. *)
Lemma owned_none q rs : attaching q rs = 0 -> owned q 0 rs = 0.
Proof.
  induction rs as [|[x|x] rs IH]; simpl; intros H; [done| |].
  - destruct (Nat.eqb x q); [lia|]. by apply IH.
  - destruct (Nat.eqb x q); by apply IH.
Qed.

(** The requests made through the interface are executed in that order. *)
Lemma run_app r1 r2 queues : run (r1 ++ r2) queues = run r2 (run r1 queues).
Proof. revert queues. induction r1 as [|r r1 IH]; intros queues; [done|]. simpl. apply IH. Qed.

(** What the manager will own once its thread is idle. *)
Definition settled (m : operation_queue_manager) : list address := run (m_thread m) (m_queues m).

(** Detach(q) takes [q] and nothing else away, whatever is still pending
    when it is called, and attach(q) adds it once. *)
Theorem manager_detach_exact q m :
  settled (attach q m) = settled m ++ [q] /\
  settled (detach q m) = filter (fun x => x <> q) (settled m) /\
  forall m', step m = Some m' -> settled m' = settled m.
Proof.
  unfold settled, attach, detach; simpl. rewrite !run_app. simpl. split_and!; [done| |].
  - by rewrite erase_loop_filter.
  - unfold step. intros m' E. destruct (m_thread m) as [|r l]; [done|]. by simplify_eq.
Qed.
End QueueManager.
