(* ===== verification/QueueLifetime.v ===== *)
(** * QueueLifetime: who owns a serial queue, and when it is destroyed

    serial_queue_impl of src/naive/naive_serial_queue.cpp, the operation_queue it makes
    (src/naive/naive_operation_queue.cpp) and the operation_queue_manager that keeps it
    alive (src/naive/naive_operation_queue_manager.cpp).  Threads and operations own the
    serial_queue_impl; it and the manager own the operation_queue; the pool and the
    operation of detach() know it by its address only.  An access to the queue after its
    destruction is [Undefined]. *)
From S2P Require Import Prelude Conc OperationQueue QueuePart QueueManager.

Module QueueLifetime.
Import OpQueue QueuePart.

(** The address of the queue; others have other addresses. *)
Definition the_queue : QueueManager.address := 0.

Record world := World {
  queue : QueueProcess.process;
  manager : QueueManager.operation_queue_manager;
  held : nat -> Z;            (* references to the serial_queue_impl that a thread has *)
  m_queue : bool;             (* serial_queue_impl owns the operation_queue *)
  closer : option nat;        (* the thread that gave up the last of the former *)
  reaper : option nat;        (* ... and of the latter *)
  alive : bool                (* the operation_queue has not been destroyed *)
}.
Definition with_queue (s : QueueProcess.process) (w : world) : world :=
  World s (manager w) (held w) (m_queue w) (closer w) (reaper w) (alive w).
Definition with_manager (m : QueueManager.operation_queue_manager) (w : world) : world :=
  World (queue w) m (held w) (m_queue w) (closer w) (reaper w) (alive w).
Definition with_held (t : nat) (z : Z) (w : world) : world :=
  World (queue w) (manager w) (<[t := z]> (held w)) (m_queue w) (closer w) (reaper w) (alive w).
Definition with_closer (t : nat) (w : world) : world :=
  World (queue w) (manager w) (held w) (m_queue w) (Some t) (reaper w) (alive w).
Definition with_reaper (t : nat) (w : world) : world :=
  World (queue w) (manager w) (held w) (m_queue w) (closer w) (Some t) (alive w).

Section code.
(** [n] threads; an operation that queues others has a reference to the
    serial_queue_impl, and those in [extra] have one, too. *)
Context (n : nat) (extra : positive -> bool).

Definition captures (j : op) : bool := negb (empty (spawns j)) || extra (op_number j).
Definition cap (j : job) : Z := match j with Work j => if captures j then 1%Z else 0%Z | Detaching => 0%Z end.
Definition captured (l : list (option job)) : Z :=
  foldr (fun x z => match x with Some j => cap j + z | None => z end)%Z 0%Z l.

(** The use counts of the two shared_ptr. *)
Definition users (w : world) : Z := (total n (held w) + captured (m_jobs (QueueProcess.q (queue w))))%Z.
Definition owners (w : world) : nat :=
  (if m_queue w then 1 else 0) + QueueManager.count the_queue (QueueManager.m_queues (manager w)) +
  QueueManager.attaching the_queue (QueueManager.m_thread (manager w)).

(** An action on the queue. *)
Definition touch {A} (f : world -> world * A) : prog world A :=
  guarded Undefined (fun _ w => Some (if alive w then Some (f w) else None)).

Definition is_manager (e : event) : bool := match e with ManagerDetach _ => true | _ => false end.
(** What a critical section asks of the manager is queued there. *)
Definition hand_over (es : list event) (m : QueueManager.operation_queue_manager) :=
  if existsb is_manager es then QueueManager.detach the_queue m else m.
Definition install (s' : QueueProcess.process) (w : world) : world :=
  with_queue s' (with_manager (hand_over (news (queue w) s') (manager w)) w).
Definition section (f : operation_queue -> effect) : prog world unit :=
  touch (fun w => (install (QueueProcess.record_ (f (QueueProcess.q (queue w))) (queue w)) w, tt)).

Definition async (j : op) : prog world unit := section (async_unsafe (Work j)).

(** ~operation_queue.  A turn of its loop that finds the drain under way is one of
    chance, so that a thread that has to go round is one that waits. *)
Definition destroy_turn (t : nat) : prog world bool :=
  guarded Undefined (fun o w =>
    if alive w then
      let (q', b) := destroy_turn (QueueProcess.q (queue w)) in
      if b && negb (Nat.eqb o o_spurious) then None
      else Some (Some (with_queue (QueueProcess.Process q' (QueueProcess.log (queue w))) w, b))
    else Some None).
Definition destroy (t : nat) : prog world unit :=
  do! Iter (fun _ => let! active := destroy_turn t in Ret (if active : bool then inl tt else inr tt)) tt in
  touch (fun w => (World (queue w) (manager w) (held w) (m_queue w) (closer w) (reaper w) false, tt)).

(** Thread [t] made the use count of the operation_queue what it is in [w']. *)
Definition last_owner (t : nat) (w w' : world) : world * bool :=
  let b := Nat.eqb (owners w') 0 && negb (Nat.eqb (owners w) 0) in
  (if b then with_reaper t w' else w', b).
Definition release_queue (t : nat) : prog world unit :=
  let! last := atomic (fun w => last_owner t w (World (queue w) (manager w) (held w) false (closer w) (reaper w) (alive w))) in
  if last : bool then destroy t else Ret tt.

(** A reference to the serial_queue_impl is given up; the last one runs
    ~serial_queue_impl. *)
Definition release_user (t : nat) : prog world unit :=
  let! last := atomic (fun w =>
    let w' := with_held t (held w t - 1)%Z w in
    let b := Z.eqb (users w') 0 in (if b then with_closer t w' else w', b)) in
  if last : bool then do! section (detach t) in release_queue t else Ret tt.

(** drain(): the reference an operation has moves to the thread that executes it, and
    job.reset() gives it up outside of the mutex. *)
Definition take_job (t : nat) (m : next) (w : world) : world :=
  match m with Execute (Some j) _ => with_held t (held w t + cap j)%Z w | _ => w end.
Definition step_drain (t : nat) (e : fault) (f : operation_queue -> option (effect * next)) : prog world next :=
  let! r := touch (fun w =>
    match f (QueueProcess.q (queue w)) with
    | Some (x, m) => (take_job t m (install (QueueProcess.record_ x (queue w)) w), Some m)
    | None => (w, None)
    end) in
  match r with Some m => Ret m | None => Crash e end.

Definition process_job (t : nat) (j : job) : prog world unit :=
  match j with
  | Work j => each async (spawns j)
  | Detaching => section (fun q => (q, [ManagerDetach t]))
  end.
Definition execute_job (t : nat) (j : job) : prog world unit :=
  do! process_job t j in
  do! section (fun q => (q, [Finished t (job_id j)])) in
  if Z.eqb (cap j) 0 then Ret tt else release_user t.

Definition drain (t : nat) : prog world unit :=
  let! m := step_drain t Undefined (drain_begin t) in
  Iter (fun m =>
    match m with
    | Leave => Ret (inr tt)
    | Execute job remaining =>
        do! match job with Some j => execute_job t j | None => Ret tt end in
        let! m := step_drain t Terminated (drain_next t remaining) in
        Ret (inl m)
    end) m.

(** A worker of the pool. *)
Definition take_notification (t : nat) : prog world unit :=
  await (fun w => negb (Nat.eqb (m_pending (QueueProcess.q (queue w))) 0))
        (fun w => with_queue (QueueProcess.woken t (queue w)) w).
Definition worker (t : nat) : prog world unit :=
  Iter (fun _ => do! take_notification t in do! drain t in Ret (inl tt)) tt.

(** The thread of the manager. *)
Definition manager_turn (t : nat) : prog world bool :=
  Act (fun _ w =>
    match QueueManager.step (manager w) with
    | None => None
    | Some m => Some (last_owner t w (with_manager m w))
    end).
Definition manager_thread (t : nat) : prog world unit :=
  Iter (fun _ => let! last := manager_turn t in do! if last : bool then destroy t else Ret tt in Ret (inl tt)) tt.

(** Threads that have the queue, and may have the manager own and release other
    objects. *)
Inductive call := Async (j : op) | AttachOther (a : positive) | DetachOther (a : positive).
Definition run_call (c : call) : prog world unit :=
  match c with
  | Async j => async j
  | AttachOther a => modify (fun w => with_manager (QueueManager.attach (Pos.to_nat a) (manager w)) w)
  | DetachOther a => modify (fun w => with_manager (QueueManager.detach (Pos.to_nat a) (manager w)) w)
  end.

Inductive thread := Manager | Worker | Client (cs : list call).
Definition body (t : nat) (th : thread) : prog world unit :=
  match th with
  | Manager => manager_thread t
  | Worker => worker t
  | Client cs => do! each run_call cs in release_user t
  end.
(** The queue has been attached; each client has a reference. *)
Definition init (ths : list thread) : world :=
  World QueueProcess.init (QueueManager.attach the_queue QueueManager.make_manager)
    (fun t => match ths !! t with Some (Client _) => 1%Z | _ => 0%Z end) true None None true.
End code.
Definition start (extra : positive -> bool) (ths : list thread) : cfg world :=
  (init ths, imap (body (length ths) extra) ths).

(** ** What happens to the references *)
Section counts.
Context (extra : positive -> bool).
#[local] Abbreviation captured := (captured extra).
#[local] Abbreviation cap := (cap extra).

Lemma cap_cases j : cap j = 0%Z \/ cap j = 1%Z.
Proof. destruct j as [j|]; simpl; [destruct (captures extra j)|]; auto. Qed.
Lemma captured_nonneg l : (0 <= captured l)%Z.
Proof. induction l as [|[j|] l IH]; simpl; [lia|destruct (cap_cases j); lia|done]. Qed.
Lemma captured_app l1 l2 : captured (l1 ++ l2) = (captured l1 + captured l2)%Z.
Proof. induction l1 as [|[j|] l1 IH]; simpl; lia. Qed.

(** An event that neither queues nor lets go, nor ends an operation. *)
Definition plain (e : event) : Prop :=
  match e with Notify | Woken _ | DrainBegin _ | Started _ _ | DrainEnd _ => True | _ => False end.

Lemma plain_log es l : Forall plain es ->
  QueueProcess.late (es ++ l) = QueueProcess.late l /\
  QueueProcess.has_detached (es ++ l) = QueueProcess.has_detached l /\
  QueueProcess.queued (es ++ l) = QueueProcess.queued l /\
  QueueProcess.completed (es ++ l) = QueueProcess.completed l /\ existsb is_manager es = false.
Proof. induction 1 as [|e es He _ IH]; [done|]. by destruct e. Qed.

Lemma has_manager_app es l :
  QueueProcess.has_manager (es ++ l) = existsb is_manager es || QueueProcess.has_manager l.
Proof. unfold QueueProcess.has_manager. by rewrite existsb_app. Qed.

(** What a drain does between two releases of the mutex. *)
Definition going (m : next) : Z := match m with Execute (Some j) _ => cap j | _ => 0%Z end.

Lemma drain_end_counts t q : Forall plain (drain_end t q).2 /\ m_jobs (drain_end t q).1 = m_jobs q.
Proof.
  unfold drain_end, also, notify_unsafe. destruct (empty (m_jobs q)); [split; [by repeat constructor|done]|]. simpl.
  destruct (m_notify_operation q); split; (done || by repeat constructor).
Qed.

Lemma loop_head_counts t r q x m :
  loop_head t r q = Some (x, m) ->
  Forall plain x.2 /\ (captured (m_jobs x.1) + going m = captured (m_jobs q))%Z.
Proof.
  unfold loop_head. destruct (Nat.eqb r 0).
  - intros [= <- <-]. destruct (drain_end_counts t q) as [H1 H2]. rewrite H2. split; [done|]. simpl. lia.
  - destruct (m_jobs q) as [|[j|] l]; [done|intros [= <- <-]; simpl..]; (split; [by repeat constructor|lia]).
Qed.

Lemma drain_begin_counts t q x m :
  drain_begin t q = Some (x, m) ->
  Forall plain x.2 /\ (captured (m_jobs x.1) + going m = captured (m_jobs q))%Z.
Proof.
  unfold drain_begin. destruct (loop_head _ _ _) as [[[q' es] m']|] eqn:E; [|done]. intros [= <- <-].
  apply loop_head_counts in E as [H1 H2]. split; [by constructor|done].
Qed.

Lemma drain_next_counts t r q x m l :
  m_jobs q = None :: l -> drain_next t r q = Some (x, m) ->
  Forall plain x.2 /\ (captured (m_jobs x.1) + going m = captured (m_jobs q))%Z.
Proof.
  intros E. unfold drain_next. rewrite E. destruct r; [done|]. intros H. by apply loop_head_counts in H.
Qed.

Lemma async_counts j q :
  let x := async_unsafe j q in
  (x.2 = [Queued (job_id j)] \/ x.2 = [Queued (job_id j); Notify]) /\
  captured (m_jobs x.1) = (captured (m_jobs q) + cap j)%Z.
Proof.
  unfold async_unsafe, also, notify_unsafe. simpl.
  destruct (empty (m_jobs q) && m_is_attached q); simpl; [destruct (m_notify_operation q)|]; simpl;
    rewrite captured_app; simpl; (split; [auto|lia]).
Qed.

Lemma async_log j q l :
  let es := rev (async_unsafe j q).2 in
  QueueProcess.late (es ++ l) = QueueProcess.has_detached l || QueueProcess.late l /\
  QueueProcess.has_detached (es ++ l) = QueueProcess.has_detached l /\
  QueueProcess.completed (es ++ l) = QueueProcess.completed l /\ existsb is_manager es = false.
Proof. destruct (async_counts j q) as [[-> | ->] _]; split_and!; done. Qed.

Lemma detach_counts t q :
  let x := detach t q in
  ((m_jobs q = [] /\ x.2 = [ManagerDetach t; Detached t]) \/
   (m_jobs q <> [] /\ x.2 = [Queued (job_id Detaching); Detached t])) /\
  captured (m_jobs x.1) = captured (m_jobs q).
Proof.
  unfold detach. destruct (m_jobs q) as [|y l] eqn:E; simpl; [split; [by left|by rewrite E]|].
  unfold async_unsafe. rewrite E. simpl. split; [by right|]. rewrite captured_app. simpl. by rewrite Z.add_0_r.
Qed.
End counts.

(** ** How the parts agree *)
Definition qlog (w : world) : list event := QueueProcess.log (queue w).
Definition stage_at (w : world) : QueueProcess.stage := QueueProcess.stage_of (queue w).
Definition asked (w : world) : bool := QueueProcess.has_manager (qlog w).
Definition detached (w : world) : bool := QueueProcess.has_detached (qlog w).

Section proof.
Context (extra : positive -> bool) (ths : list thread).
#[local] Abbreviation n := (length ths).
#[local] Abbreviation users := (users n extra).
#[local] Abbreviation cap := (cap extra).
#[local] Abbreviation captured := (captured extra).
#[local] Abbreviation QP := QueueProcess.protocol.

Record good (w : world) : Prop := {
  g_queue : QueueProcess.good (queue w);
  g_late : QueueProcess.late (qlog w) = false;
  g_held t : (0 <= held w t)%Z;
  g_closer : closer w = None <-> users w <> 0%Z;
  g_closed : detached w = true -> closer w <> None;
  g_released : m_queue w = false -> detached w = true;
  g_owned : QueueManager.owned the_queue (QueueManager.count the_queue (QueueManager.m_queues (manager w)))
              (QueueManager.m_thread (manager w)) = if asked w then 0 else 1;
  g_reaper : reaper w = None <-> owners w <> 0;
  g_dead : alive w = false -> reaper w <> None /\ stage_at w = QueueProcess.Idle;
  g_asked : detached w = true -> asked w = true \/ job_id Detaching ∈ QueueProcess.queued (qlog w);
  g_done : job_id Detaching ∈ QueueProcess.completed (qlog w) -> asked w = true
}.

Record keeps (t : nat) (w w' : world) : Prop := {
  k_queue : QueueProcess.keeps t (queue w) (queue w');
  k_held : held w' t = held w t;
  k_closer : closer w = Some t -> closer w' = Some t /\ detached w' = detached w /\ m_queue w' = m_queue w;
  k_closing : closer w' = Some t -> closer w = Some t;
  k_reaper : reaper w = Some t -> reaper w' = Some t /\ alive w' = alive w;
  k_reaping : reaper w' = Some t -> reaper w = Some t;
  k_idle : reaper w <> None -> reaper w' <> None /\
    (stage_at w = QueueProcess.Idle -> stage_at w' = QueueProcess.Idle);
  k_asked : QueueProcess.owns t (stage_at w) -> asked w' = asked w;
  k_mono : asked w = true -> asked w' = true
}.
#[local] Existing Instance QueueProcess.queue_keeps_pre.
#[export] Instance lifetime_keeps_pre t : PreOrder (keeps t).
Proof.
  split; [by split; auto|]. intros x y z [A1 A2 A3 A4 A5 A6 A7 A8 A9] [B1 B2 B3 B4 B5 B6 B7 B8 B9]. split.
  - by transitivity (queue y).
  - congruence.
  - intros H. destruct (A3 H) as (H1 & H2 & H3). destruct (B3 H1) as (H4 & H5 & H6). split_and!; congruence.
  - auto.
  - intros H. destruct (A5 H) as (H1 & H2). destruct (B5 H1) as (H3 & H4). split; congruence.
  - auto.
  - intros H. destruct (A7 H) as (H1 & H2). destruct (B7 H1) as (H3 & H4). auto.
  - intros H. rewrite B8; [auto|]. unfold stage_at. by rewrite (QueueProcess.keeps_own _ _ _ A1).
  - auto.
Qed.

(** A thread that has [h] references, and is through with what it had to destroy. *)
Definition around (h : Z) (t : nat) (w : world) : Prop :=
  held w t = h /\ (closer w = Some t -> m_queue w = false) /\ (reaper w = Some t -> alive w = false).
Definition off (t : nat) (s : QueueProcess.process) : Prop := ~ QueueProcess.owns t (QueueProcess.stage_of s).

(** A worker waits for a notification, the thread of the manager for a request, and
    ~operation_queue for the end of the drain. *)
Definition waits (t : nat) (w : world) : Prop :=
  off t (queue w) /\
  ((around 0 t w /\ match ths !! t with
                    | Some Worker => m_pending (QueueProcess.q (queue w)) = 0
                    | Some Manager => QueueManager.m_thread (manager w) = []
                    | _ => False
                    end) \/
   m_active_drain (QueueProcess.q (queue w)) = true).
Definition protocol : Conc.protocol world := Protocol good keeps waits lifetime_keeps_pre.

Lemma lifetime_queue_stable t P : stable QP t P -> stable protocol t (fun w => P (queue w)).
Proof. intros HP w w' H G G' K. eapply HP; [exact H|apply G|apply G'|apply K]. Qed.
Lemma refs_stable h t : stable protocol t (around h t).
Proof.
  intros w w' (H1 & H2 & H3) _ _ [_ K2 K3 K4 K5 K6 _ _ _]. split_and!; [congruence|..].
  - intros E%K4. destruct (K3 E) as (_ & _ & ->). auto.
  - intros E%K6. destruct (K5 E) as (_ & ->). auto.
Qed.
Lemma off_stable t : stable QP t (off t).
Proof. apply QueueProcess.free_stable. Qed.
Lemma with_around_stable P h t : stable QP t P -> stable protocol t (fun w => P (queue w) /\ around h t w).
Proof. intros HP. apply stable_and; [by apply lifetime_queue_stable|apply refs_stable]. Qed.

(** *** Who owns what *)
Lemma some_user w t : good w -> t < n -> (0 < held w t)%Z -> users w <> 0%Z.
Proof.
  intros G Ht Hh. pose proof (captured_nonneg extra (m_jobs (QueueProcess.q (queue w)))).
  pose proof (total_pos n (held w) t Ht (fun u _ => g_held _ G u)). unfold QueueLifetime.users. lia.
Qed.

Lemma used w : good w -> users w <> 0%Z ->
  closer w = None /\ detached w = false /\ asked w = false /\ m_queue w = true /\ reaper w = None /\ alive w = true.
Proof.
  intros G Hu%(g_closer _ G).
  assert (Hd : detached w = false).
  { destruct (detached w) eqn:E; [|done]. by destruct (g_closed _ G E). }
  assert (Hm : m_queue w = true).
  { destruct (m_queue w) eqn:E; [done|]. apply (g_released _ G) in E. congruence. }
  assert (Hr : reaper w = None) by (apply (g_reaper _ G); unfold owners; rewrite Hm; lia).
  split_and!; try done.
  - destruct (asked w) eqn:E; [|done]. rewrite <- Hd. symmetry.
    apply (QueueProcess.cl_announced _ (QueueProcess.good_closing _ (g_queue _ G))). by right.
  - destruct (alive w) eqn:E; [done|]. by destruct (g_dead _ G E).
Qed.

(** Nobody owns the queue any more: the manager was asked. *)
Lemma no_owners w : good w -> owners w = 0 -> asked w = true /\ m_queue w = false /\ users w = 0%Z.
Proof.
  intros G Ho. unfold owners in Ho. assert (Hm : m_queue w = false) by (destruct (m_queue w); [lia|done]).
  split_and!; [|done|].
  - pose proof (g_owned _ G) as E. rewrite Hm in Ho. simpl in Ho.
    replace (QueueManager.count _ _) with 0 in E by lia. rewrite QueueManager.owned_none in E by lia.
    by destruct (asked w).
  - destruct (Z.eq_dec (users w) 0) as [?|H]; [done|]. destruct (used _ G H) as (_ & _ & _ & ? & _). congruence.
Qed.

Lemma busy_alive w : good w -> stage_at w <> QueueProcess.Idle -> alive w = true.
Proof. intros G Hs. destruct (alive w) eqn:E; [done|]. by destruct (g_dead _ G E). Qed.

Lemma idle_kept w s' es :
  good w -> QueueProcess.good s' -> QueueProcess.log s' = es ++ qlog w -> QueueProcess.late (QueueProcess.log s') = false ->
  reaper w <> None -> stage_at w = QueueProcess.Idle -> QueueProcess.stage_of s' = QueueProcess.Idle.
Proof.
  intros G Hs El Hl Hr. apply (QueueProcess.idle_stays (queue w) s' es); [apply G|done|done| |done].
  apply (no_owners w G). destruct (Nat.eq_dec (owners w) 0) as [?|H]; [done|]. by apply (g_reaper _ G) in H.
Qed.

(** *** Actions on the queue *)

(** An action of [t] on the queue: [es] is what happened, and [t] may take over
    references of operations. *)
Record acted (t : nat) (es : list event) (w w' : world) : Prop := {
  a_log : QueueProcess.log (queue w') = es ++ qlog w;
  a_manager : manager w' = hand_over es (manager w);
  a_held u : u <> t -> held w' u = held w u;
  a_mine : (0 <= held w' t)%Z;
  a_queue : m_queue w' = m_queue w;
  a_closer : closer w' = closer w;
  a_reaper : reaper w' = reaper w;
  a_alive : alive w' = alive w
}.

Lemma hand_over_owners es m :
  QueueManager.attaching the_queue (QueueManager.m_thread (hand_over es m)) =
    QueueManager.attaching the_queue (QueueManager.m_thread m) /\
  QueueManager.m_queues (hand_over es m) = QueueManager.m_queues m.
Proof.
  unfold hand_over. destruct (existsb is_manager es); [|done]. simpl. by rewrite QueueManager.attaching_app, Nat.add_0_r.
Qed.

Lemma acted_ok t es w w' :
  good w -> alive w = true -> acted t es w w' ->
  QueueProcess.good (queue w') -> guar QP t (queue w) (queue w') ->
  QueueProcess.late (qlog w') = false -> (users w' <> 0%Z <-> users w <> 0%Z) ->
  (detached w' = detached w \/ closer w = Some t /\ detached w' = true) ->
  (existsb is_manager es = true -> forall u, u <> t -> ~ QueueProcess.owns u (stage_at w)) ->
  (detached w' = true -> asked w' = true \/ job_id Detaching ∈ QueueProcess.queued (qlog w')) ->
  (job_id Detaching ∈ QueueProcess.completed (qlog w') -> asked w' = true) ->
  good w' /\ guar protocol t w w'.
Proof.
  intros G Hal [A1 A2 A3 A4 A5 A6 A7 A8] Hq Hk Hl Hu Hd Hm Ha Hf.
  assert (Eo : owners w' = owners w).
  { unfold owners. rewrite A5, A2. by destruct (hand_over_owners es (manager w)) as [-> ->]. }
  assert (Ea : asked w' = existsb is_manager es || asked w).
  { unfold asked, qlog. rewrite A1. apply has_manager_app. }
  split; [split|].
  - done.
  - done.
  - intros u. destruct (decide (u = t)) as [->|]; [done|]. rewrite A3 by done. apply G.
  - rewrite A6, (g_closer _ G). by rewrite Hu.
  - rewrite A6. destruct Hd as [->|[-> _]]; [apply G|done].
  - rewrite A5. intros E%(g_released _ G). destruct Hd as [->|[_ ->]]; done.
  - rewrite A2, Ea. unfold hand_over. destruct (existsb is_manager es); [|apply G]. simpl.
    by rewrite QueueManager.owned_snoc.
  - rewrite A7, Eo. apply G.
  - rewrite A8, Hal. done.
  - done.
  - done.
  - intros u Hne. split.
    + by apply Hk.
    + by apply A3.
    + rewrite A6, A5. intros E. split_and!; [done| |done]. destruct Hd as [?|[? _]]; [done|congruence].
    + by rewrite A6.
    + by rewrite A7, A8.
    + by rewrite A7.
    + rewrite A7. intros E. split; [done|]. by apply (idle_kept w _ es).
    + intros Ho. rewrite Ea. destruct (existsb is_manager es) eqn:Ee; [|done]. by destruct (Hm eq_refl u Hne).
    + rewrite Ea. intros ->. apply orb_true_r.
Qed.

(** ... and what it does not ask for, queue or end. *)
Lemma acted_plain t es w w' :
  good w -> alive w = true -> acted t es w w' -> Forall plain es ->
  QueueProcess.good (queue w') -> guar QP t (queue w) (queue w') -> users w' = users w ->
  good w' /\ guar protocol t w w'.
Proof.
  intros G Hal Ha He Hq Hk Hu. pose proof (a_log _ _ _ _ Ha) as El.
  destruct (plain_log es (qlog w) He) as (P1 & P2 & P3 & P4 & P5).
  assert (Ed : detached w' = detached w) by (unfold detached at 1, qlog; by rewrite El).
  assert (Ea : asked w' = asked w) by (unfold asked at 1, qlog; by rewrite El, has_manager_app, P5).
  apply (acted_ok t es w w' G Hal Ha Hq Hk).
  - unfold qlog. rewrite El, P1. apply G.
  - by rewrite Hu.
  - by left.
  - by rewrite P5.
  - rewrite Ed, Ea. unfold qlog. rewrite El, P3. apply G.
  - rewrite Ea. unfold qlog. rewrite El, P4. apply G.
Qed.

Lemma touch_spec t A (f : world -> world * A) (P : world -> Prop) (Q : A -> world -> Prop) :
  stable protocol t P -> (forall a, stable protocol t (Q a)) ->
  (forall w, good w -> P w -> alive w = true /\ good (f w).1 /\ guar protocol t w (f w).1 /\ Q (f w).2 (f w).1) ->
  triple protocol t P (touch f) Q.
Proof.
  intros HP HQ H. apply triple_guarded; [done|done| |].
  - intros w G Hw. left. apply enabled_0. by destruct (alive w).
  - intros o w G Hw. destruct (H w G Hw) as (-> & H1 & H2 & H3). by destruct (f w) as [w' a].
Qed.

(** A critical section: the queue moves to [s'], nothing else changes hands. *)
Lemma install_acted t w x :
  good w ->
  acted t (rev x.2) w (install (QueueProcess.record_ x (queue w)) w).
Proof.
  intros G. split; simpl; try done; [|apply G].
  by rewrite (news_app _ _ (rev x.2)).
Qed.

Lemma user_async_spec t j P h :
  t < n -> (0 < h)%Z -> stable QP t P ->
  triple protocol t (fun w => P (queue w) /\ around h t w) (async j) (fun _ w => P (queue w) /\ around h t w).
Proof.
  intros Ht Hh HP. apply touch_spec; [by apply with_around_stable|intros; by apply with_around_stable|].
  intros w G [HPw Har]. assert (Hu : users w <> 0%Z).
  { apply (some_user w t); [done|done|]. destruct Har as [-> _]. done. }
  destruct (used w G Hu) as (U1 & U2 & U3 & U4 & U5 & U6).
  destruct (QueueProcess.async_ok j (queue w) (g_queue _ G)) as (Hs & Hk & _).
  set (x := async_unsafe (Work j) (QueueProcess.q (queue w))) in *. pose proof (install_acted t w x G) as Hact.
  set (w' := install (QueueProcess.record_ x (queue w)) w) in *.
  destruct (async_log extra (Work j) (QueueProcess.q (queue w)) (qlog w)) as (L1 & L2 & L3 & L4). fold x in L1, L2, L3, L4.
  split; [done|]. simpl. destruct (acted_ok t (rev x.2) w w') as [H1 H2]; try done.
  - intros u _. apply Hk.
  - change (qlog w') with (rev x.2 ++ qlog w). rewrite L1, (g_late _ G), orb_false_r. exact U2.
  - split; [done|]. intros _. unfold QueueLifetime.users, w'. simpl.
    destruct (async_counts extra (Work j) (QueueProcess.q (queue w))) as [_ Ec]. fold x in Ec. rewrite Ec.
    unfold QueueLifetime.users in Hu. destruct (cap_cases extra (Work j));
    pose proof (captured_nonneg extra (m_jobs (QueueProcess.q (queue w))));
    pose proof (total_nonneg n (held w) (fun u _ => g_held _ G u)); lia.
  - left. exact L2.
  - by rewrite L4.
  - change (detached w') with (QueueProcess.has_detached (rev x.2 ++ qlog w)). rewrite L2.
    change (QueueProcess.has_detached _) with (detached w). by rewrite U2.
  - change (qlog w') with (rev x.2 ++ qlog w). rewrite L3. intros Hd%(g_done _ G). congruence.
  - split_and!; [done|done| |exact Har]. apply (HP (queue w)); [done|apply G|done|apply Hk].
Qed.

(** ** Giving up references *)

(** The thread that runs ~serial_queue_impl, before and after detach(). *)
Definition closing (b : bool) (P : QueueProcess.process -> Prop) (t : nat) (w : world) : Prop :=
  P (queue w) /\ held w t = 0%Z /\ (reaper w = Some t -> alive w = false) /\
  closer w = Some t /\ detached w = b /\ m_queue w = true /\
  (QueueProcess.owns t (stage_at w) -> asked w = false).
(** ... and the one that runs ~operation_queue. *)
Definition reaping (b : bool) (P : QueueProcess.process -> Prop) (t : nat) (w : world) : Prop :=
  P (queue w) /\ held w t = 0%Z /\ (closer w = Some t -> m_queue w = false) /\
  reaper w = Some t /\ alive w = true /\ off t (queue w) /\ (b = true -> stage_at w = QueueProcess.Idle).

Lemma closing_stable b P t : stable QP t P -> stable protocol t (closing b P t).
Proof.
  intros HP w w' (H1 & H2 & H3 & H4 & H5 & H6 & H7) G G' K. pose proof K as [K1 K2 K3 K4 K5 K6 K7 K8 K9].
  destruct (K3 H4) as (E1 & E2 & E3). split_and!; [|congruence| |done|congruence|congruence|].
  - by apply (lifetime_queue_stable t P HP w).
  - intros E%K6. destruct (K5 E) as (_ & ->). auto.
  - intros Ho. destruct (QueueProcess.owns_dec t (stage_at w)) as [Hw|Hw]; [by rewrite K8, H7|].
    by destruct (QueueProcess.keeps_not _ _ _ K1 Hw).
Qed.

Lemma reaping_stable b P t : stable QP t P -> stable protocol t (reaping b P t).
Proof.
  intros HP w w' (H1 & H2 & H3 & H4 & H5 & H6 & H7) G G' K. pose proof K as [K1 K2 K3 K4 K5 K6 K7 K8 K9].
  destruct (K5 H4) as (E1 & E2). split_and!; [|congruence| |done|congruence| |].
  - by apply (lifetime_queue_stable t P HP w).
  - intros E%K4. destruct (K3 E) as (_ & _ & ->). auto.
  - by apply (lifetime_queue_stable t _ (off_stable t) w).
  - intros Hb%H7. by apply K7; [rewrite H4|].
Qed.

Lemma detach_part_spec t P :
  stable QP t P -> triple protocol t (closing false P t) (section (detach t)) (fun _ => closing true P t).
Proof.
  intros HP. apply touch_spec; [by apply closing_stable|intros; by apply closing_stable|].
  intros w G (H1 & H2 & H3 & H4 & H5 & H6 & H7).
  assert (Hr : reaper w = None) by (apply (g_reaper _ G); unfold owners; rewrite H6; lia).
  assert (Hal : alive w = true) by (destruct (alive w) eqn:E; [done|by destruct (g_dead _ G E)]).
  assert (Has : asked w = false).
  { destruct (asked w) eqn:E; [|done]. rewrite <- H5. symmetry.
    apply (QueueProcess.cl_announced _ (QueueProcess.good_closing _ (g_queue _ G))). by right. }
  destruct (QueueProcess.detach_ok t (queue w) (g_queue _ G)) as (Hs & Hk).
  destruct (detach_counts extra t (QueueProcess.q (queue w))) as [He Ec].
  set (x := detach t (QueueProcess.q (queue w))) in *. pose proof (install_acted t w x G) as Hact.
  set (w' := install (QueueProcess.record_ x (queue w)) w) in *.
  change (QueueProcess.has_detached (qlog w) = false) in H5. change (QueueProcess.has_manager (qlog w) = false) in Has.
  assert (El : qlog w' = rev x.2 ++ qlog w) by done.
  assert (Hidle : m_jobs (QueueProcess.q (queue w)) = [] -> stage_at w = QueueProcess.Idle).
  { intros Ej. destruct (QueueProcess.good_stage _ (g_queue _ G)) as (sp & _ & A & S & _).
    unfold stage_at. rewrite S. by apply (QueueProcess.jobs_idle (queue w)). }
  assert (Hq : QueueProcess.completed (qlog w') = QueueProcess.completed (qlog w)).
  { rewrite El. by destruct He as [[_ ->]|[_ ->]]. }
  assert (Hd : detached w' = true) by (unfold detached; rewrite El; by destruct He as [[_ ->]|[_ ->]]).
  split; [done|]. simpl. destruct (acted_ok t (rev x.2) w w') as [K1 K2]; try done.
  - intros u _. apply Hk.
  - rewrite El. destruct He as [[_ ->]|[_ ->]]; simpl; [apply G|].
    rewrite (g_late _ G). unfold QueueProcess.has_detached in H5. by rewrite H5.
  - assert (users w' = users w) as ->; [|done]. unfold QueueLifetime.users.
    change (QueueProcess.q (queue w')) with x.1. by rewrite Ec.
  - by right.
  - destruct He as [[Ej ->]|[_ ->]]; [|done]. intros _ u _. rewrite (Hidle Ej). by intros [].
  - intros _. unfold asked. change (QueueProcess.log (queue w')) with (qlog w'). rewrite El.
    destruct He as [[_ ->]|[_ ->]]; [by left|right]. simpl. apply elem_of_app. right. left.
  - rewrite Hq. intros E%(g_done _ G). unfold asked in E. congruence.
  - split_and!; [done|done|]. split_and!; try done; [apply (HP (queue w)); [done|apply G|done|apply Hk]|].
    intros Ho. unfold asked. change (QueueProcess.log (queue w')) with (qlog w'). rewrite El.
    destruct He as [[Ej ->]|[_ ->]]; [|by simpl]. exfalso.
    destruct (QueueProcess.owns_dec t (stage_at w)) as [Hw|Hw]; [by rewrite (Hidle Ej) in Hw|].
    by destruct (QueueProcess.keeps_not _ _ _ (Hk t) Hw).
Qed.

(** An owner of the operation_queue gives it up. *)
Record gave_up (t : nat) (w w' : world) : Prop := {
  u_queue : queue w' = queue w;
  u_held : held w' = held w;
  u_closer : closer w' = closer w;
  u_reaper : reaper w' = reaper w;
  u_alive : alive w' = alive w;
  u_mine : m_queue w' = m_queue w \/ m_queue w' = false /\ closer w = Some t /\ detached w = true;
  u_owned : QueueManager.owned the_queue (QueueManager.count the_queue (QueueManager.m_queues (manager w')))
              (QueueManager.m_thread (manager w')) = if asked w then 0 else 1;
  u_fewer : owners w' <= owners w
}.

(** Only the reaper changes, and only when the last owner goes. *)
Lemma last_owner_fields t w w1 :
  let r := last_owner t w w1 in
  queue r.1 = queue w1 /\ held r.1 = held w1 /\ closer r.1 = closer w1 /\ alive r.1 = alive w1 /\
  m_queue r.1 = m_queue w1 /\ manager r.1 = manager w1 /\ owners r.1 = owners w1 /\
  reaper r.1 = (if r.2 then Some t else reaper w1) /\ (r.2 = true <-> owners w1 = 0 /\ owners w <> 0).
Proof.
  intros r. subst r. unfold last_owner. cbv zeta. cbn [fst snd].
  destruct (Nat.eqb_spec (owners w1) 0), (Nat.eqb_spec (owners w) 0); simpl; split_and!; intuition discriminate.
Qed.

Lemma last_owner_good t w w1 : good w -> gave_up t w w1 -> good (last_owner t w w1).1.
Proof.
  intros G [U1 U2 U3 U4 U5 U6 U7 U8].
  destruct (last_owner_fields t w w1) as (Q1 & Q2 & Q3 & Q4 & Q5 & Q6 & Q7 & Q8 & Q9).
  set (r := last_owner t w w1) in *. rewrite U1 in Q1. rewrite U2 in Q2. rewrite U3 in Q3. rewrite U5 in Q4. rewrite U4 in Q8.
  destruct G as [G1 G2 G3 G4 G5 G6 G7 G8 G9 G10 G11].
  split; unfold detached, asked, stage_at, qlog, QueueLifetime.users in *; rewrite ?Q1, ?Q2, ?Q3; try done.
  - rewrite Q5. intros E. destruct U6 as [U6|(_ & _ & Hd)]; [|exact Hd]. apply G6. congruence.
  - by rewrite Q6.
  - rewrite Q7, Q8. destruct (r.2).
    + split; [done|]. by destruct (proj1 Q9 eq_refl) as [-> _].
    + rewrite G8. split; intros H; [|lia]. intros E. assert (false = true); [apply Q9; by split|done].
  - rewrite Q4, Q8. intros E. destruct (G9 E) as [Hr Hi]. split; [by destruct (r.2)|done].
Qed.

Lemma last_owner_ok t w w1 :
  good w -> gave_up t w w1 ->
  let r := last_owner t w w1 in
  good r.1 /\ guar protocol t w r.1 /\ m_queue r.1 = m_queue w1 /\ queue r.1 = queue w /\ held r.1 = held w /\
  closer r.1 = closer w /\ alive r.1 = alive w /\
  (if r.2 then reaper r.1 = Some t /\ alive w = true /\ asked w = true else reaper r.1 = reaper w).
Proof.
  intros G U r. pose proof (last_owner_good t w w1 G U) as G1. destruct U as [U1 U2 U3 U4 U5 U6 U7 U8].
  destruct (last_owner_fields t w w1) as (Q1 & Q2 & Q3 & Q4 & Q5 & Q6 & Q7 & Q8 & Q9). fold r in G1, Q1, Q2, Q3, Q4, Q5, Q6, Q7, Q8, Q9.
  rewrite U1 in Q1. rewrite U2 in Q2. rewrite U3 in Q3. rewrite U5 in Q4. rewrite U4 in Q8.
  assert (Eq : qlog r.1 = qlog w) by (unfold qlog; by rewrite Q1).
  assert (Hold : reaper w <> None -> r.2 = false).
  { intros Hr. destruct (r.2); [|done]. destruct (proj1 Q9 eq_refl) as [_ Hw]. by apply (g_reaper _ G) in Hw. }
  split_and!; try done.
  - intros k Hk. split; unfold detached, asked, stage_at; rewrite ?Eq, ?Q1, ?Q2, ?Q3, ?Q4, ?Q5, ?Q8; try done.
    + intros E. split_and!; [done|done|]. destruct U6 as [U6|(_ & Hc & _)]; [done|congruence].
    + intros E. by rewrite Hold by congruence.
    + destruct (r.2); [congruence|done].
    + intros Hr. by rewrite (Hold Hr).
  - destruct (r.2) eqn:Er; [|done]. destruct (proj1 Q9 eq_refl) as [Hw1 Hw]. split_and!; [done| |].
    + apply (g_reaper _ G) in Hw. destruct (alive w) eqn:E; [done|by destruct (g_dead _ G E)].
    + rewrite <- Q7 in Hw1. apply (no_owners _ G1) in Hw1 as [Ha _]. unfold asked in *. by rewrite Eq in Ha.
Qed.

Lemma destroy_turn_spec t P :
  stable QP t P ->
  triple protocol t (reaping false P t) (destroy_turn t) (fun active => reaping (negb active) P t).
Proof.
  intros HP. apply triple_guarded; [by apply reaping_stable|intros; by apply reaping_stable| |].
  - intros w G (H1 & H2 & H3 & H4 & H5 & H6 & _). rewrite H5. simpl.
    destruct (m_active_drain (QueueProcess.q (queue w))) eqn:Ea; [|by left; apply enabled_0].
    right. split; [done|by right].
  - intros o w G (H1 & H2 & H3 & H4 & H5 & H6 & _). rewrite H5. simpl.
    destruct (no_owners w G) as (Ha & Hm & _).
    { destruct (Nat.eq_dec (owners w) 0) as [?|Ho]; [done|]. apply (g_reaper _ G) in Ho. congruence. }
    destruct (m_active_drain (QueueProcess.q (queue w)) && negb (Nat.eqb o o_spurious)) eqn:Eb; [done|].
    destruct (QueueProcess.destroy_turn_ok (queue w) (g_queue _ G) Ha) as [Hs Hk]. simpl in Hs, Hk.
    set (s' := QueueProcess.Process _ _) in *. set (w' := with_queue s' w).
    assert (Hact : acted t [] w w') by (by split; try done; apply G).
    destruct (acted_plain t [] w w' G H5 Hact) as [K1 K2]; [by constructor|done|intros u _; apply Hk|done|].
    split_and!; [done|done|]. split_and!; try done; [apply (HP (queue w)); [done|apply G|done|apply Hk]|].
    intros Hn. change (stage_at w' = QueueProcess.Idle) with (stage_at w = QueueProcess.Idle).
    destruct (m_active_drain (QueueProcess.q (queue w))) eqn:Ea; [done|].
    destruct (QueueProcess.good_stage _ (g_queue _ G)) as (sp & R & [_ A _ _] & S & _). unfold stage_at. rewrite S.
    destruct (QueueProcess.asked_over _ _ R (QueueProcess.good_closing _ (g_queue _ G)) (g_late _ G) Ha) as [_ Ho].
    rewrite Ea in A. by destruct (QueueProcess.at_stage sp).
Qed.

Lemma destroy_spec t P :
  stable QP t P ->
  triple protocol t (reaping false P t) (destroy t) (fun _ w => P (queue w) /\ around 0 t w).
Proof.
  intros HP. unfold destroy. eapply triple_bind.
  { apply (triple_iter t _ _ (fun _ => reaping false P t) _ (fun _ => reaping true P t));
      [intros; by apply reaping_stable..|].
    intros _. eapply triple_bind; [by apply destroy_turn_spec|].
    intros [|]; (apply triple_ret; [by apply reaping_stable|done]). }
  intros ?. apply touch_spec; [by apply reaping_stable|intros; by apply with_around_stable|].
  intros w G (H1 & H2 & H3 & H4 & H5 & H6 & H7). split; [done|]. simpl.
  split_and!; [| |done|by split_and!].
  - destruct G as [G1 G2 G3 G4 G5 G6 G7 G8 G9 G10 G11]. split; try done. intros _. simpl. rewrite H4. auto.
  - intros u Hu. split; simpl; try done; intros E. congruence.
Qed.

Lemma release_queue_spec t P :
  stable QP t P ->
  triple protocol t (closing true P t) (release_queue t) (fun _ w => P (queue w) /\ around 0 t w).
Proof.
  intros HP. unfold release_queue. eapply triple_bind.
  { apply (triple_act t _ _ _ (fun last w => if last : bool then reaping false P t w else P (queue w) /\ around 0 t w)).
    - by apply closing_stable.
    - intros [|]; [by apply reaping_stable|by apply with_around_stable].
    - done.
    - intros o w w' last G (H1 & H2 & H3 & H4 & H5 & H6 & H7) E. apply (inj Some) in E.
      set (w1 := World _ _ _ _ _ _ _) in E.
      destruct (last_owner_ok t w w1 G) as (K1 & K2 & K3 & K4 & K5 & K6 & K7 & K8).
      { split; try done; [by right|apply G|]. unfold owners, w1. simpl. destruct (m_queue w); lia. }
      destruct (last_owner t w w1) as [w2 b]. simpl in *. injection E as <- <-. split_and!; [done|done|].
      destruct b.
      + destruct K8 as (L1 & L2 & L3). split_and!; try done; [by rewrite K4|by rewrite K5|by rewrite K7|].
        unfold off. rewrite K4. intros Ho%H7. congruence.
      + split; [by rewrite K4|]. split_and!; [by rewrite K5|done|]. rewrite K8, K7. done. }
  intros [|]; [by apply destroy_spec|]. apply triple_ret; [by apply with_around_stable|done].
Qed.

Lemma release_user_spec t P :
  t < n -> stable QP t P ->
  triple protocol t (fun w => P (queue w) /\ around 1 t w) (release_user n extra t) (fun _ w => P (queue w) /\ around 0 t w).
Proof.
  intros Ht HP. unfold release_user. eapply triple_bind.
  { apply (triple_act t _ _ _ (fun last w => if last : bool then closing false P t w else P (queue w) /\ around 0 t w)).
    - by apply with_around_stable.
    - intros [|]; [by apply closing_stable|by apply with_around_stable].
    - done.
    - intros o w w' last G (H1 & H2 & H3 & H4) E. apply (inj Some) in E.
      assert (Hu : users w <> 0%Z) by (apply (some_user w t); [done|done|lia]).
      destruct (used w G Hu) as (U1 & U2 & U3 & U4 & U5 & U6). set (w1 := with_held t _ w) in E.
      destruct G as [G1 G2 G3 G4 G5 G6 G7 G8 G9 G10 G11].
      assert (Hh : forall u, (0 <= held w1 u)%Z).
      { intros u. simpl. destruct (decide (t = u)) as [<-|]; fn; [lia|apply G3]. }
      assert (Hk : forall u, u <> t -> held w1 u = held w u) by (intros u Hu'; simpl; by fn).
      assert (Hcl : forall b : bool, (b = true <-> users w1 = 0%Z) -> good (if b then with_closer t w1 else w1)).
      { intros b Hb. destruct b; split; simpl; try done.
        - split; [done|]. intros []. by apply Hb.
        - split; [intros _ E0|done]. by apply Hb in E0. }
      assert (Hw : w' = (if last then with_closer t w1 else w1) /\ last = Z.eqb (users w1) 0).
      { destruct (Z.eqb (users w1) 0); by simplify_eq. }
      destruct Hw as [-> Hl]. split_and!.
      + apply Hcl. rewrite Hl. apply Z.eqb_eq.
      + intros u Hu'. destruct last; split; simpl; try done; try (by fn); rewrite ?U1; congruence.
      + destruct last; simpl.
        * split_and!; simpl; try done. fn. lia.
        * split; [done|]. split_and!; simpl; [fn; lia|done|done]. }
  intros [|]; [|by apply triple_ret; [apply with_around_stable|]].
  eapply triple_bind; [by apply detach_part_spec|]. intros ?. by apply release_queue_spec.
Qed.

(** ** Draining *)
Definition carrying (t : nat) (m : next) (w : world) : Prop :=
  QueueProcess.holds t m (queue w) /\ around (going extra m) t w.
Lemma carrying_stable t m : stable protocol t (carrying t m).
Proof. apply with_around_stable, QueueProcess.holds_stable. Qed.

Lemma take_job_acted t m x w :
  good w -> acted t (rev x.2) w (take_job extra t m (install (QueueProcess.record_ x (queue w)) w)) /\
  held (take_job extra t m (install (QueueProcess.record_ x (queue w)) w)) t = (held w t + going extra m)%Z.
Proof.
  intros G. destruct (install_acted t w x G) as [A1 A2 A3 A4 A5 A6 A7 A8]. pose proof (g_held _ G t).
  destruct m as [|[j|] r]; simpl in *; [split; [by split|lia]| |split; [by split|lia]].
  fn. split; [|done]. split; simpl; try done; [intros u Hu; by fn|]. fn. destruct (cap_cases extra j); lia.
Qed.

Lemma drain_step_spec t e f (P : QueueProcess.process -> Prop) :
  t < n -> stable QP t P -> (forall s, P s -> QueueProcess.owns t (QueueProcess.stage_of s)) ->
  (forall s, QueueProcess.good s -> P s -> exists x m,
     f (QueueProcess.q s) = Some (x, m) /\ QueueProcess.goes_on t x m (QueueProcess.log s) /\
     Forall plain x.2 /\ (captured (m_jobs x.1) + going extra m = captured (m_jobs (QueueProcess.q s)))%Z) ->
  triple protocol t (fun w => P (queue w) /\ around 0 t w) (step_drain extra t e f) (carrying t).
Proof.
  intros Ht HP Ho Hf. unfold step_drain. eapply triple_bind.
  { apply (touch_spec t _ _ _ (fun r w => match r with Some m => carrying t m w | None => False end)).
    - by apply with_around_stable.
    - intros [m|]; [apply carrying_stable|by intros w w' []].
    - intros w G (H1 & H2 & H3 & H4). destruct (Hf _ (g_queue _ G) H1) as (x & m & E & (Q1 & Q2 & Q3) & Hpl & Hc).
      pose proof (Ho _ H1) as Hown. assert (Hal : alive w = true).
      { apply (busy_alive w G). intros Ei. unfold stage_at in Ei. by rewrite Ei in Hown. }
      split; [done|]. rewrite E. simpl. destruct (take_job_acted t m x w G) as [Ha Hh].
      set (w' := take_job _ _ _ _) in *. rewrite H2 in Hh. simpl in Hh.
      assert (Eq : queue w' = QueueProcess.record_ x (queue w)) by (unfold w'; by destruct m as [|[]]).
      destruct (acted_plain t (rev x.2) w w' G Hal Ha) as [K1 K2]; rewrite ?Eq; try done.
      + by apply Forall_rev.
      + by apply QueueProcess.keeps_mine.
      + unfold QueueLifetime.users. rewrite Eq. simpl.
        rewrite (total_change n (held w) (held w') t Ht (a_held _ _ _ _ Ha)). lia.
      + split_and!; [done|done|]. split; [by rewrite Eq|]. split_and!; [done|..].
        * by rewrite (a_closer _ _ _ _ Ha), (a_queue _ _ _ _ Ha).
        * by rewrite (a_reaper _ _ _ _ Ha), (a_alive _ _ _ _ Ha). }
  intros [m|]; [apply triple_ret; [apply carrying_stable|done]|by apply triple_absurd].
Qed.

(** The operation of detach() has asked the manager when it ends. *)
Definition spoken (j : job) (w : world) : Prop := j = Detaching -> asked w = true.
Lemma spoken_stable t j : stable protocol t (spoken j).
Proof. intros w w' H _ _ K E. by apply K, H. Qed.

Lemma working_alive t j r w :
  good w -> carrying t (Execute (Some j) r) w ->
  alive w = true /\ exists quota, stage_at w = QueueProcess.Draining t (Some (job_id j)) quota.
Proof.
  intros G [(quota & Hst & _) _]. split; [|by exists quota]. apply (busy_alive w G). unfold stage_at. by rewrite Hst.
Qed.

Lemma manager_part_spec t r :
  triple protocol t (carrying t (Execute (Some Detaching) r)) (section (fun q => (q, [ManagerDetach t])))
    (fun _ w => carrying t (Execute (Some Detaching) r) w /\ spoken Detaching w).
Proof.
  apply touch_spec; [apply carrying_stable|intros; apply stable_and; [apply carrying_stable|apply spoken_stable]|].
  intros w G Hc. destruct (working_alive _ _ _ _ G Hc) as (Hal & quota & Hst). destruct Hc as [Hh Har].
  destruct (QueueProcess.manager_detach_ok t (queue w) quota Hst (g_queue _ G)) as [Hs Hk].
  set (x := (QueueProcess.q (queue w), [ManagerDetach t])). pose proof (install_acted t w x G) as Ha.
  set (w' := install (QueueProcess.record_ x (queue w)) w) in *.
  split; [done|]. simpl. destruct (acted_ok t (rev x.2) w w' G Hal Ha) as [K1 K2]; try done.
  - intros u _. apply Hk.
  - apply (g_late _ G).
  - by left.
  - intros _ u Hu. rewrite Hst. simpl. congruence.
  - by left.
  - split_and!; [done|done|split; [|exact Har]|done].
    apply (QueueProcess.holds_stable t (Execute (Some Detaching) r) (queue w)); [done|apply G|done|apply Hk].
Qed.

Lemma process_job_spec t j r :
  t < n ->
  triple protocol t (carrying t (Execute (Some j) r)) (process_job t j)
    (fun _ w => carrying t (Execute (Some j) r) w /\ spoken j w).
Proof.
  intros Ht. destruct j as [j|]; [|apply manager_part_spec]. simpl.
  apply (triple_post t _ _ _ (fun _ => carrying t (Execute (Some (Work j)) r))); [|by intros a w _ Hc].
  apply triple_each; [apply carrying_stable|]. intros k Hk. apply user_async_spec; [done| |apply QueueProcess.holds_stable].
  simpl. unfold captures. destruct (spawns j); [by apply not_elem_of_nil in Hk|done].
Qed.

Lemma finish_spec t j r :
  triple protocol t (fun w => carrying t (Execute (Some j) r) w /\ spoken j w)
    (section (fun q => (q, [Finished t (job_id j)])))
    (fun _ w => QueueProcess.ran t r (queue w) /\ around (cap j) t w).
Proof.
  apply touch_spec; [apply stable_and; [apply carrying_stable|apply spoken_stable]|
    intros; apply with_around_stable, QueueProcess.ran_stable|].
  intros w G [Hc Hsp]. destruct (working_alive _ _ _ _ G Hc) as (Hal & _). destruct Hc as [(quota & Hst & Hr) Har].
  destruct (QueueProcess.job_finished_ok t j (queue w) quota (g_queue _ G) Hst) as (Hs & Hk & Hst').
  set (x := (QueueProcess.q (queue w), [Finished t (job_id j)])). pose proof (install_acted t w x G) as Ha.
  set (w' := install (QueueProcess.record_ x (queue w)) w) in *.
  split; [done|]. simpl. destruct (acted_ok t (rev x.2) w w' G Hal Ha) as [K1 K2]; try done.
  - apply (g_late _ G).
  - by left.
  - apply (g_asked _ G).
  - change (asked w') with (asked w). simpl. rewrite elem_of_app, list_elem_of_singleton.
    intros [Hd|Hj]; [by apply (g_done _ G)|]. apply Hsp. destruct j; [simpl in Hj; lia|done].
  - split_and!; [done|done| |exact Har]. by exists quota.
Qed.

Lemma execute_job_spec t j r :
  t < n ->
  triple protocol t (carrying t (Execute (Some j) r)) (execute_job n extra t j)
    (fun _ w => QueueProcess.ran t r (queue w) /\ around 0 t w).
Proof.
  intros Ht. unfold execute_job. eapply triple_bind; [by apply process_job_spec|]. intros ?.
  eapply triple_bind; [apply finish_spec|]. intros ?. destruct (cap_cases extra j) as [-> | ->]; simpl.
  - apply triple_ret; [apply with_around_stable, QueueProcess.ran_stable|done].
  - apply release_user_spec; [done|apply QueueProcess.ran_stable].
Qed.

Lemma front_null t r s :
  QueueProcess.good s -> QueueProcess.ran t r s -> exists l, m_jobs (QueueProcess.q s) = None :: l.
Proof.
  intros Hs (quota & Hst & _). destruct (QueueProcess.good_stage _ Hs) as (sp & _ & [(js & _ & A) _ _ _] & S & _).
  rewrite S in Hst. rewrite Hst in A. by exists (map Some js).
Qed.

Lemma lifetime_drain_spec t :
  t < n ->
  triple protocol t (fun w => QueueProcess.stage_of (queue w) = QueueProcess.Awake t /\ around 0 t w) (drain n extra t)
    (fun _ w => off t (queue w) /\ around 0 t w).
Proof.
  intros Ht. unfold drain. eapply triple_bind.
  { apply (drain_step_spec t _ _ (fun s => QueueProcess.stage_of s = QueueProcess.Awake t) Ht).
    - apply QueueProcess.awake_stable.
    - by intros s ->.
    - intros s Hs Ha. destruct (QueueProcess.drain_begin_ok t s Hs Ha) as (x & m & E & Hg).
      exists x, m. destruct (drain_begin_counts extra _ _ _ _ E). by split_and!. }
  intros m. apply (triple_iter t _ _ (carrying t)); [apply carrying_stable|
    intros; apply with_around_stable, off_stable|].
  clear m. intros [|[j|] r].
  - apply triple_ret; [apply carrying_stable|done].
  - eapply triple_bind; [by apply execute_job_spec|]. intros ?. eapply triple_bind.
    { apply (drain_step_spec t _ _ (QueueProcess.ran t r) Ht).
      - apply QueueProcess.ran_stable.
      - by intros s (? & -> & _).
      - intros s Hs Ha. destruct (front_null t r s Hs Ha) as [l El].
        destruct (QueueProcess.drain_next_ok t r s Hs Ha) as (x & m & E & Hg). exists x, m.
        destruct (drain_next_counts extra _ _ _ _ _ _ El E). by split_and!. }
    intros m. apply triple_ret; [apply carrying_stable|done].
  - apply triple_absurd. by intros w _ [[] _].
Qed.

Lemma lifetime_take_spec t :
  ths !! t = Some Worker ->
  triple protocol t (fun w => off t (queue w) /\ around 0 t w) (take_notification t)
    (fun _ w => QueueProcess.stage_of (queue w) = QueueProcess.Awake t /\ around 0 t w).
Proof.
  intros Ht. apply triple_block; [apply with_around_stable, off_stable|
    intros; apply (with_around_stable (fun s => QueueProcess.stage_of s = QueueProcess.Awake t)), QueueProcess.awake_stable| |].
  - intros w G [H1 H2]. destruct (m_pending (QueueProcess.q (queue w))) as [|k] eqn:E.
    + right. split; [done|]. left. split; [done|]. by rewrite Ht.
    + left. apply enabled_0. by rewrite ?E.
  - intros o w w' a G [H1 H2] E. destruct (negb _) eqn:Ep; [|done]. injection E as <-.
    assert (Hst : stage_at w = QueueProcess.Notified).
    { apply (QueueProcess.pending_notified _ (g_queue _ G)). by destruct (m_pending (QueueProcess.q (queue w))). }
    destruct (QueueProcess.woken_ok t (queue w) (g_queue _ G) Hst) as (K1 & K2 & K3).
    assert (Ha : acted t [Woken t] w (with_queue (QueueProcess.woken t (queue w)) w)) by (by split; try done; apply G).
    assert (Hal : alive w = true) by (apply (busy_alive w G); congruence).
    destruct (acted_plain t _ _ _ G Hal Ha) as [L1 L2]; [by repeat constructor|done|done|done|].
    by split_and!.
Qed.

Lemma lifetime_worker_spec t :
  ths !! t = Some Worker ->
  triple protocol t (fun w => off t (queue w) /\ around 0 t w) (worker n extra t) (fun _ _ => False).
Proof.
  intros Ht. assert (Htn : t < n) by (by eapply lookup_lt_Some).
  apply (triple_iter t _ _ (fun _ w => off t (queue w) /\ around 0 t w)); [intros; apply with_around_stable, off_stable|
    by intros ? w w' []|].
  intros ?. eapply triple_bind; [by apply lifetime_take_spec|]. intros ?.
  eapply triple_bind; [by apply lifetime_drain_spec|]. intros ?.
  apply triple_ret; [apply with_around_stable, off_stable|done].
Qed.

(** ** The thread of the manager, and the users *)
Lemma manager_turn_spec t :
  ths !! t = Some Manager ->
  triple protocol t (fun w => off t (queue w) /\ around 0 t w) (manager_turn t)
    (fun last w => if last : bool then reaping false (off t) t w else off t (queue w) /\ around 0 t w).
Proof.
  intros Ht. apply triple_block; [apply with_around_stable, off_stable|
    intros [|]; [apply reaping_stable, off_stable|apply with_around_stable, off_stable]| |].
  - intros w G [H1 H2]. unfold QueueManager.step. destruct (QueueManager.m_thread (manager w)) as [|r l] eqn:E.
    + right. split; [done|]. left. split; [done|]. by rewrite Ht.
    + left. by apply enabled_0.
  - intros o w w' last G [H1 (H2 & H3 & H4)] E. unfold QueueManager.step in E.
    destruct (QueueManager.m_thread (manager w)) as [|r l] eqn:Er; [done|]. apply (inj Some) in E.
    set (w1 := with_manager _ w) in E.
    destruct (last_owner_ok t w w1 G) as (K1 & K2 & K3 & K4 & K5 & K6 & K7 & K8).
    { split; try done; [by left| |].
      - simpl. rewrite QueueManager.owned_execute, <- Er. apply G.
      - unfold owners, w1. simpl. rewrite Er, QueueManager.count_execute. destruct r as [x|x]; simpl; destruct (Nat.eqb x the_queue); lia. }
    destruct (last_owner t w w1) as [w2 b]. simpl in *. injection E as <- <-. split_and!; [done|done|].
    destruct b.
    + destruct K8 as (L1 & L2 & L3). by split_and!; rewrite ?K4, ?K5, ?K6, ?K3, ?K7.
    + split; [by rewrite K4|]. split_and!; [by rewrite K5|by rewrite K6, K3|by rewrite K8, K7].
Qed.

Lemma manager_thread_spec t :
  ths !! t = Some Manager ->
  triple protocol t (fun w => off t (queue w) /\ around 0 t w) (manager_thread t) (fun _ _ => False).
Proof.
  intros Ht. apply (triple_iter t _ _ (fun _ w => off t (queue w) /\ around 0 t w)); [intros; apply with_around_stable, off_stable|
    by intros ? w w' []|].
  intros ?. eapply triple_bind; [by apply manager_turn_spec|]. intros last.
  eapply (triple_bind t _ _ _ _ _ (fun _ w => off t (queue w) /\ around 0 t w)).
  - destruct last; [apply destroy_spec, off_stable|apply triple_ret; [apply with_around_stable, off_stable|done]].
  - intros ?. apply triple_ret; [apply with_around_stable, off_stable|done].
Qed.

(** A request about another object. *)
Lemma other_spec t P (r : QueueManager.request) (f : QueueManager.operation_queue_manager -> _) :
  stable protocol t (fun w => P (queue w) /\ around 1 t w) ->
  (forall m, f m = QueueManager.Manager (QueueManager.m_thread m ++ [r]) (QueueManager.m_queues m)) ->
  match r with QueueManager.Attach a | QueueManager.Detach a => a <> the_queue end ->
  triple protocol t (fun w => P (queue w) /\ around 1 t w) (modify (fun w => with_manager (f (manager w)) w))
    (fun _ w => P (queue w) /\ around 1 t w).
Proof.
  intros HP Hf Hr. apply triple_modify; [done|done|]. intros w G Hw.
  assert (Eo : owners (with_manager (f (manager w)) w) = owners w).
  { unfold owners. simpl. rewrite Hf. simpl. rewrite QueueManager.attaching_app.
    destruct r as [a|a]; simpl; [destruct (Nat.eqb_spec a the_queue); [done|]|]; lia. }
  split; [|split; [intros u Hu; by split; auto|done]].
  destruct G as [G1 G2 G3 G4 G5 G6 G7 G8 G9 G10 G11]. split; try done; [|by rewrite Eo].
  simpl. rewrite Hf. simpl. rewrite QueueManager.owned_snoc. rewrite G7.
  destruct r as [a|a]; simpl; by destruct (Nat.eqb_spec a the_queue).
Qed.

Lemma lifetime_client_spec t cs :
  t < n ->
  triple protocol t (fun w => off t (queue w) /\ around 1 t w) (do! each run_call cs in release_user n extra t)
    (fun _ w => off t (queue w) /\ around 0 t w).
Proof.
  intros Ht. eapply triple_bind; [|intros ?; apply release_user_spec; [done|apply off_stable]].
  apply triple_each; [apply with_around_stable, off_stable|]. intros [j|a|a] _; simpl.
  - apply user_async_spec; [done|done|apply off_stable].
  - eapply (other_spec t _ (QueueManager.Attach (Pos.to_nat a))); [apply with_around_stable, off_stable|done|unfold the_queue; lia].
  - eapply (other_spec t _ (QueueManager.Detach (Pos.to_nat a))); [apply with_around_stable, off_stable|done|unfold the_queue; lia].
Qed.

(** ** The whole *)
Definition refs (th : option thread) : Z := match th with Some (Client _) => 1%Z | _ => 0%Z end.
Definition before (t : nat) (w : world) : Prop := off t (queue w) /\ around (refs (ths !! t)) t w.
Definition after (t : nat) (w : world) : Prop :=
  off t (queue w) /\ around 0 t w /\ match ths !! t with Some (Client _) => True | _ => False end.

Lemma lifetime_init_good u cs : ths !! u = Some (Client cs) -> good (init ths).
Proof.
  intros Hu. assert (Hh : forall t, (0 <= held (init ths) t)%Z) by (intros t; simpl; by destruct (ths !! t) as [[]|]).
  assert (Hp : (0 < users (init ths))%Z).
  { unfold QueueLifetime.users. simpl. pose proof (total_pos n (held (init ths)) u (lookup_lt_Some _ _ _ Hu) (fun t _ => Hh t)) as H.
    simpl in H. rewrite Hu in H. lia. }
  split; try done.
  - apply QueueProcess.queue_init_good.
  - split; [intros _; lia|done].
  - by intros H%not_elem_of_nil.
Qed.

Lemma lifetime_body_spec t th :
  ths !! t = Some th -> triple protocol t (before t) (body n extra t th) (fun _ => after t).
Proof.
  intros Ht. assert (Htn : t < n) by (by eapply lookup_lt_Some). unfold before, after. rewrite Ht.
  destruct th as [| |cs]; simpl.
  - eapply triple_post; [by apply manager_thread_spec|by intros].
  - eapply triple_post; [by apply lifetime_worker_spec|by intros].
  - eapply triple_post; [by apply lifetime_client_spec|]. by intros a w _ [? ?].
Qed.

Lemma lifetime_sound u cs c :
  ths !! u = Some (Client cs) -> reach (start extra ths) c -> sound protocol (init ths) after c.
Proof.
  intros Hu. apply (rg_sound before).
  - by eapply lifetime_init_good.
  - intros t. split; [by intros []|]. split_and!; done.
  - intros t p Hp. rewrite list_lookup_imap in Hp. destruct (ths !! t) as [th|] eqn:Et; simplify_eq/=.
    by apply lifetime_body_spec.
Qed.

(** What is left of a queue that has been destroyed. *)
Lemma dead_served w :
  good w -> alive w = false ->
  users w = 0%Z /\ owners w = 0 /\ m_pending (QueueProcess.q (queue w)) = 0 /\ stage_at w = QueueProcess.Idle /\
  QueueProcess.completed (qlog w) = QueueProcess.queued (qlog w).
Proof.
  intros G E. destruct (g_dead _ G E) as [Hr Hi].
  assert (Ho : owners w = 0) by (destruct (Nat.eq_dec (owners w) 0) as [?|H]; [done|by apply (g_reaper _ G) in H]).
  destruct (no_owners w G Ho) as (Ha & Hm & Hu).
  destruct (QueueProcess.good_stage _ (g_queue _ G)) as (sp & R & [_ _ A _] & S & _).
  destruct (QueueProcess.asked_over _ _ R (QueueProcess.good_closing _ (g_queue _ G)) (g_late _ G) Ha) as [Hw _].
  unfold stage_at in Hi. rewrite S in Hi. split_and!; try done.
  - by rewrite A, Hi.
  - unfold stage_at. by rewrite S.
  - unfold qlog. rewrite (QueueProcess.replay_fifo _ _ R), (QueueProcess.replay_completed _ _ R), Hi, Hw.
    by rewrite !app_nil_r.
Qed.

(** When no thread can move, each is through or waits, and nobody is in drain(). *)
Definition stuck (t : nat) (w : world) : Prop :=
  (off t (queue w) /\ around 0 t w /\
   match ths !! t with
   | Some Worker => m_pending (QueueProcess.q (queue w)) = 0
   | Some Manager => QueueManager.m_thread (manager w) = []
   | _ => True
   end) \/ (off t (queue w) /\ m_active_drain (QueueProcess.q (queue w)) = true).

Lemma all_stuck u cs c t :
  ths !! u = Some (Client cs) -> reach (start extra ths) c -> (forall k, k < length c.2 -> ~ can_move c k) ->
  stuck t c.1.
Proof.
  intros Hu Hr Hq. pose proof (lifetime_sound u cs c Hu Hr) as Hs.
  assert (Hlen : length c.2 = n) by (rewrite (reach_length _ _ Hr); simpl; by rewrite length_imap).
  destruct (decide (t < n)) as [Ht|Ht].
  - destruct (thread_done c t) eqn:Hd.
    + destruct (sound_post Hs t Hd) as (H1 & H2 & H3). left. split_and!; [done|done|].
      by destruct (ths !! t) as [[| |]|].
    + destruct (sound_live Hs t) as [?|[H1 [[H2 H3]|H2]]]; [by rewrite Hlen|done|by destruct (Hq t); [rewrite Hlen|]| |].
      * left. split_and!; [done|done|]. by destruct (ths !! t) as [[| |]|].
      * by right.
  - pose proof (sound_idle Hs t ltac:(lia)) as K. left. rewrite lookup_ge_None_2 by lia.
    assert (Hb : before t (init ths)) by (split; [by intros []|by split_and!]).
    unfold before in Hb. rewrite lookup_ge_None_2 in Hb by lia.
    assert (H : off t (queue c.1) /\ around 0 t c.1); [|by split_and!; [apply H|apply H|]].
    eapply (with_around_stable (off t) 0 t (off_stable t) (init ths)); [done|by eapply lifetime_init_good|apply Hs|done].
Qed.

Lemma nobody_drains w : good w -> (forall t, stuck t w) -> m_active_drain (QueueProcess.q (queue w)) = false.
Proof.
  intros G Hst. destruct (m_active_drain _) eqn:E; [|done]. exfalso.
  destruct (QueueProcess.good_stage _ (g_queue _ G)) as (sp & R & [_ A _ _] & S & _). rewrite E in A.
  destruct (QueueProcess.at_stage sp) as [| | |t r q0] eqn:Es; try done.
  assert (Ho : off t (queue w)) by by destruct (Hst t) as [[? _]|[? _]].
  apply Ho. by rewrite S.
Qed.

(** Nobody moves, nobody is at work: the queue has been destroyed. *)
Lemma nobody_left w :
  good w -> (forall t, off t (queue w) /\ around 0 t w) -> m_pending (QueueProcess.q (queue w)) = 0 ->
  QueueManager.m_thread (manager w) = [] -> alive w = false.
Proof.
  intros G Hall Hp Hm.
  destruct (QueueProcess.good_stage _ (g_queue _ G)) as (sp & R & [(js & A1 & A2) A3 A4 _] & S & L).
  assert (Hi : QueueProcess.at_stage sp = QueueProcess.Idle).
  { destruct (QueueProcess.at_stage sp) as [| |t|t r k] eqn:E; [done|simpl in A4; congruence|..];
      destruct (Hall t) as [Ho _]; destruct Ho; by rewrite S. }
  rewrite Hi in *. simpl in A2.
  assert (Hj : m_jobs (QueueProcess.q (queue w)) = []).
  { destruct (m_jobs (QueueProcess.q (queue w))) as [|x l] eqn:E; [done|]. specialize (L eq_refl ltac:(done)).
    pose proof (g_late _ G) as Hl. unfold qlog in Hl. congruence. }
  assert (Hu : users w = 0%Z).
  { unfold QueueLifetime.users. rewrite Hj. simpl. rewrite total_zero; [done|]. intros t _. by apply Hall. }
  assert (Hq : m_queue w = false).
  { destruct (closer w) as [t|] eqn:E; [by apply (Hall t)|]. by apply (g_closer _ G) in E. }
  assert (Ha : asked w = true).
  { destruct (g_asked _ G (g_released _ G Hq)) as [?|Hin]; [done|]. apply (g_done _ G).
    unfold qlog in *. rewrite (QueueProcess.replay_fifo _ _ R), (QueueProcess.replay_completed _ _ R), A1, Hi in Hin.
    rewrite Hj in A2. destruct js; [|done]. by rewrite !app_nil_r in Hin. }
  assert (Ho : owners w = 0).
  { pose proof (g_owned _ G) as H. unfold owners. rewrite Hq, Hm, Ha in *. simpl in *. lia. }
  destruct (reaper w) as [t|] eqn:E; [by apply (Hall t)|]. by apply (g_reaper _ G) in E.
Qed.
End proof.

(** C4: No use after free, for a queue that threads share and operations have references to,
    whoever gives up the last one, a worker in the middle of its drain included: nothing
    touches the operation_queue after its destruction, it is destroyed once, and when it
    is, no shared_ptr to it or to its serial_queue_impl is left, no notification with its
    address is in the pool, nobody is in drain() and all that was queued has finished. *)
Theorem queue_never_dangles extra ths c u cs :
  ths !! u = Some (Client cs) -> reach (start extra ths) c ->
  no_fault c /\
  (alive c.1 = false ->
     users (length ths) extra c.1 = 0%Z /\ owners c.1 = 0 /\ m_pending (QueueProcess.q (queue c.1)) = 0 /\
     stage_at c.1 = QueueProcess.Idle /\ QueueProcess.completed (qlog c.1) = QueueProcess.queued (qlog c.1)).
Proof.
  intros Hu Hr. pose proof (lifetime_sound extra ths u cs c Hu Hr) as Hs. split; [apply Hs|].
  apply dead_served, Hs.
Qed.

(** C9: No leak: when no thread can move any more, a turn of the loop in ~operation_queue aside,
    the queue has been destroyed, and all that was queued has been executed. *)
Theorem queue_is_destroyed extra ths c u cs m k :
  ths !! u = Some (Client cs) -> ths !! m = Some Manager -> ths !! k = Some Worker ->
  reach (start extra ths) c -> (forall t, t < length c.2 -> ~ can_move c t) ->
  alive c.1 = false /\ QueueProcess.completed (qlog c.1) = QueueProcess.queued (qlog c.1).
Proof.
  intros Hu Hm Hk Hr Hq. pose proof (sound_inv (lifetime_sound extra ths u cs c Hu Hr)) as Hg.
  pose proof (fun t => all_stuck extra ths u cs c t Hu Hr Hq) as Hst.
  pose proof (nobody_drains extra ths c.1 Hg Hst) as Hna.
  assert (Hd : alive c.1 = false).
  { apply (nobody_left extra ths c.1 Hg).
    - intros t. destruct (Hst t) as [(H1 & H2 & _)|[_ H2]]; [done|congruence].
    - destruct (Hst k) as [(_ & _ & H)|[_ H]]; [by rewrite Hk in H|congruence].
    - destruct (Hst m) as [(_ & _ & H)|[_ H]]; [by rewrite Hm in H|congruence]. }
  split; [done|]. by apply (dead_served extra ths c.1 Hg).
Qed.

(** Two clients, two workers; operation 1 queues operation 3, operation 2 has a
    reference, too. *)
Definition threads1 : list thread :=
  [Manager; Worker; Worker; Client [Async (Op 1 [Op 3 []]); Async (Op 2 [])];
   Client [Async (Op 4 []); AttachOther 7; DetachOther 7]].
Definition ended (ls : list (nat * nat)) : cfg world := play ls (start (fun i => Pos.eqb i 2) threads1).
(** A worker gives up the last reference in the middle of its drain. *)
Definition by_worker : cfg world := ended (concat (replicate 200 [(0, 0); (1, 0); (2, 0); (3, 0); (4, 0)])).
(** A client does when everything has been executed. *)
Definition by_client : cfg world := ended (go 3 100 ++ go 1 300 ++ go 4 10 ++ go 1 300 ++ go 4 100 ++ go 0 40).

Theorem queue_never_dangles_witness :
  (closer by_client.1 = Some 4 /\ alive by_client.1 = false) /\
  no_fault by_client /\
  (alive by_client.1 = false ->
     users 5 (fun i => Pos.eqb i 2) by_client.1 = 0%Z /\ owners by_client.1 = 0 /\
     m_pending (QueueProcess.q (queue by_client.1)) = 0 /\ stage_at by_client.1 = QueueProcess.Idle /\
     QueueProcess.completed (qlog by_client.1) = QueueProcess.queued (qlog by_client.1)).
Proof.
  split; [split; vm_compute; reflexivity|].
  apply (queue_never_dangles (fun i => Pos.eqb i 2) threads1 by_client 3 [Async (Op 1 [Op 3 []]); Async (Op 2 [])]).
  - reflexivity.
  - apply play_reach, reach_here.
Defined.

Theorem queue_is_destroyed_witness :
  closer by_worker.1 = Some 2 /\
  alive by_worker.1 = false /\ QueueProcess.completed (qlog by_worker.1) = QueueProcess.queued (qlog by_worker.1).
Proof.
  split; [vm_compute; reflexivity|].
  apply (queue_is_destroyed (fun i => Pos.eqb i 2) threads1 by_worker 3 [Async (Op 1 [Op 3 []]); Async (Op 2 [])] 0 1);
    [reflexivity..|apply play_reach, reach_here|].
  intros t Ht (o & _ & Ho). do 5 (destruct t as [|t]; [apply Ho; vm_compute; reflexivity|]).
  exfalso. revert Ht. vm_compute. lia.
Defined.

(** In both it is the thread of the manager that runs ~operation_queue, and so the
    destructor of the pool when the queue had the last reference to it. *)
Example manager_destroys : reaper by_client.1 = Some 0 /\ reaper by_worker.1 = Some 0 /\ threads1 !! 0 = Some Manager.
Proof. vm_compute. by split_and!. Qed.
End QueueLifetime.
