(* ===== verification/PoolLifetime.v ===== *)
(** * PoolLifetime: who owns the pool of parallel queues, and who waits for it

    parallel_queue_impl of src/naive/naive_parallel_queue.cpp, the operation_queue_manager
    it hands its pool to, and ThreadPoolProxy of src/qt5/qt5_threadpool.cpp, whose
    destructor waits for everything its QThreadPool was given.  QThreadPool is Qt: when
    its waitForDone() may return is a parameter. *)
From stdpp Require Import relations.
From S2P Require Import Prelude Conc QueueManager.

Module PoolLifetime.

Definition the_pool : QueueManager.address := 0.

(** Threads of the program, the thread of the QThreadPool that runs a runnable, and the
    thread of the manager. *)
Inductive actor := Client (c : nat) | Runner (i : nat) | Manager.
(** A shared_ptr: to a parallel_queue_impl, or to the pool itself. *)
Inductive handle := Queue (q : nat) | Pool.
Inductive phase := Queued | Running | Finished.
(** A parallel_queue_impl: in use; in its destructor, which has called detach() and has
    m_pool left to destroy; destroyed. *)
Inductive parallel_queue_impl := Open | Closing (a : actor) | Gone.
#[export] Instance actor_eq : EqDecision actor.
Proof. solve_decision. Defined.
#[export] Instance handle_eq : EqDecision handle.
Proof. solve_decision. Defined.
#[export] Instance job_phase_eq : EqDecision phase.
Proof. solve_decision. Defined.
#[export] Instance impl_eq : EqDecision parallel_queue_impl.
Proof. solve_decision. Defined.

Record state := State {
  jobs : list phase;                  (* the runnables the QThreadPool was given *)
  holders : list (actor * handle);    (* a runnable has what its operation captures *)
  impls : list parallel_queue_impl;
  manager : QueueManager.operation_queue_manager;
  m_pool : bool;                      (* the QPointer: the QThreadPool exists *)
  reaper : option actor;              (* who gave up the last reference to the pool *)
  alive : bool                        (* the ThreadPoolProxy has not been destroyed *)
}.
Definition with_jobs (l : list phase) (s : state) : state :=
  State l (holders s) (impls s) (manager s) (m_pool s) (reaper s) (alive s).
Definition with_holders (l : list (actor * handle)) (s : state) : state :=
  State (jobs s) l (impls s) (manager s) (m_pool s) (reaper s) (alive s).
Definition with_impls (l : list parallel_queue_impl) (s : state) : state :=
  State (jobs s) (holders s) l (manager s) (m_pool s) (reaper s) (alive s).
Definition with_manager (m : QueueManager.operation_queue_manager) (s : state) : state :=
  State (jobs s) (holders s) (impls s) m (m_pool s) (reaper s) (alive s).

(** The use counts. *)
Definition uses (h : handle) (l : list (actor * handle)) : nat := length (filter (fun x => x.2 = h) l).
Definition owning (i : parallel_queue_impl) : bool := match i with Gone => false | _ => true end.
Definition members (l : list parallel_queue_impl) : nat := length (filter (fun i => owning i = true) l).
Definition managed (m : QueueManager.operation_queue_manager) : nat :=
  QueueManager.count the_pool (QueueManager.m_queues m) + QueueManager.attaching the_pool (QueueManager.m_thread m).
Definition owners (s : state) : nat := uses Pool (holders s) + members (impls s) + managed (manager s).

(** Who made the use count of the pool zero runs ~ThreadPoolProxy. *)
Definition last_owner (a : actor) (s s' : state) : state :=
  if Nat.eqb (owners s') 0 && negb (Nat.eqb (owners s) 0)
  then State (jobs s') (holders s') (impls s') (manager s') (m_pool s') (Some a) (alive s')
  else s'.

Fixpoint remove_one (x : actor * handle) (l : list (actor * handle)) : list (actor * handle) :=
  match l with
  | [] => []
  | y :: l => if decide (x = y) then l else y :: remove_one x l
  end.

(** In a destructor, or free to go on. *)
Definition destroying (s : state) (a : actor) : bool :=
  bool_decide (reaper s = Some a) && alive s || bool_decide (Closing a ∈ impls s).
Definition able (s : state) (a : actor) : bool :=
  negb (destroying s a) &&
  match a with
  | Client _ => true
  | Runner i => bool_decide (jobs s !! i = Some Running)
  | Manager => false
  end.
Definition has (s : state) (a : actor) (h : handle) : bool := bool_decide ((a, h) ∈ holders s).

(** parallel_queue_impl::parallel_queue_impl. *)
Definition make_parallel_queue (a : actor) (s : state) : state :=
  State (jobs s) ((a, Queue (length (impls s))) :: holders s) (impls s ++ [Open])
    (QueueManager.attach the_pool (manager s)) (m_pool s) (reaper s) (alive s).

(** ThreadPoolProxy::execute, also for parallel_queue_impl::async. *)
Definition execute (hs : list handle) (s : state) : fault + state :=
  if negb (alive s) then inl Undefined
  else if negb (m_pool s) then inl Terminated
  else inr (with_jobs (jobs s ++ [Queued])
        (with_holders (map (pair (Runner (length (jobs s)))) hs ++ holders s) s)).

(** notify_thread_blocked and notify_thread_unblocked: reserveThread and releaseThread
    through the QPointer. *)
Definition notify_thread (s : state) : fault + state :=
  if negb (alive s) then inl Undefined else if negb (m_pool s) then inl Undefined else inr s.

(** A reference is given up.  The last one to a queue runs ~parallel_queue_impl, which
    asks the manager and then destroys its m_pool. *)
Definition close (a : actor) (q : nat) (s : state) : state :=
  with_impls (<[q := Closing a]> (impls s)) (with_manager (QueueManager.detach the_pool (manager s)) s).
Definition drop (a : actor) (h : handle) (s : state) : state :=
  let s' := with_holders (remove_one (a, h) (holders s)) s in
  match h with
  | Pool => last_owner a s s'
  | Queue q => if Nat.eqb (uses h (holders s')) 0 then close a q s' else s'
  end.
Definition destroy_member (a : actor) (q : nat) (s : state) : state :=
  last_owner a s (with_impls (<[q := Gone]> (impls s)) s).

Section code.
(** QThreadPool::waitForDone() may return. *)
Context (waitForDone : list phase -> bool).

(** ~ThreadPoolProxy, for who gave up the last reference. *)
Definition destroy (s : state) : option state :=
  match reaper s with
  | Some _ =>
      if alive s && (negb (m_pool s) || waitForDone (jobs s))
      then Some (State (jobs s) (holders s) (impls s) (manager s) (m_pool s) (reaper s) false) else None
  | None => None
  end.

Inductive event :=
| Create (a : actor)
| Copy (a : actor) (h : handle)
| Drop (a : actor) (h : handle)
| DropMember (q : nat)
| Execute (a : actor) (h : handle) (captured : list handle)
| Begin (i : nat)
| Block (i : nat)
| End (i : nat)
| ManagerTurn
| Destroy
| DeletePool.

Definition act (e : event) (s : state) : option (fault + state) :=
  match e with
  | Create a => if able s a && has s a Pool then Some (inr (make_parallel_queue a s)) else None
  | Copy a h => if able s a && has s a h then Some (inr (with_holders ((a, h) :: holders s) s)) else None
  | Drop a h => if able s a && has s a h then Some (inr (drop a h s)) else None
  | DropMember q =>
      match impls s !! q with Some (Closing a) => Some (inr (destroy_member a q s)) | _ => None end
  | Execute a h hs => if able s a && has s a h && forallb (has s a) hs then Some (execute hs s) else None
  | Begin i => if bool_decide (jobs s !! i = Some Queued) then Some (inr (with_jobs (<[i := Running]> (jobs s)) s)) else None
  | Block i => if able s (Runner i) then Some (notify_thread s) else None
  | End i =>
      if able s (Runner i) && forallb (fun x => negb (bool_decide (x.1 = Runner i))) (holders s)
      then Some (inr (with_jobs (<[i := Finished]> (jobs s)) s)) else None
  | ManagerTurn =>
      if destroying s Manager then None
      else match QueueManager.step (manager s) with
           | Some m => Some (inr (last_owner Manager s (with_manager m s)))
           | None => None
           end
  | Destroy => match destroy s with Some s' => Some (inr s') | None => None end
  | DeletePool =>
      if m_pool s && waitForDone (jobs s)
      then Some (inr (State (jobs s) (holders s) (impls s) (manager s) false (reaper s) (alive s))) else None
  end.

(** Threads [0 .. n] have the pool, and nothing else has happened. *)
Definition start (n : nat) : state :=
  State [] (map (fun c => (Client c, Pool)) (seq 0 (S n))) [] QueueManager.make_manager true None true.
Definition step (s s' : state) : Prop := exists e, act e s = Some (inr s').
Fixpoint acts (l : list event) (s : state) : option state :=
  match l with
  | [] => Some s
  | e :: l => match act e s with Some (inr s') => acts l s' | _ => None end
  end.
End code.

(** ** Counting references *)
Lemma uses_app h l1 l2 : uses h (l1 ++ l2) = uses h l1 + uses h l2.
Proof. unfold uses. by rewrite list.filter_app, length_app. Qed.
Lemma uses_cons h x l : uses h (x :: l) = (if decide (x.2 = h) then 1 else 0) + uses h l.
Proof. unfold uses. rewrite filter_cons. by case_decide. Qed.

Lemma uses_elem h l : 0 < uses h l <-> exists a, (a, h) ∈ l.
Proof.
  induction l as [|[b k] l IH].
  - split; [unfold uses; simpl; lia|]. by intros [a H%elem_of_nil].
  - rewrite uses_cons. simpl. case_decide as E.
    + subst. split; [exists b; constructor|lia].
    + rewrite IH. split; intros [a H]; exists a; [by constructor|].
      apply elem_of_cons in H as [[= -> ->]|H]; done.
Qed.

Lemma uses_remove h x l : x ∈ l -> uses h l = (if decide (x.2 = h) then 1 else 0) + uses h (remove_one x l).
Proof.
  induction l as [|y l IH]; intros H; [by apply elem_of_nil in H|]. simpl. rewrite uses_cons.
  destruct (decide (x = y)) as [->|Hne]; [done|].
  rewrite uses_cons, IH; [lia|]. by apply elem_of_cons in H as [?|H].
Qed.
Lemma remove_one_sub x y l : y ∈ remove_one x l -> y ∈ l.
Proof.
  induction l as [|z l IH]; simpl; [done|]. destruct (decide (x = z)); [by right|].
  intros [->|H]%elem_of_cons; [by left|right; auto].
Qed.

Lemma members_insert q i j l : l !! q = Some i ->
  members (<[q := j]> l) + (if owning i then 1 else 0) = members l + (if owning j then 1 else 0).
Proof.
  intros E. unfold members. rewrite insert_take_drop by (by eapply lookup_lt_Some).
  rewrite <- (take_drop_middle l q i E) at 3. rewrite !list.filter_app, !filter_cons, !length_app.
  destruct (owning i), (owning j); repeat case_decide; simpl; try done; lia.
Qed.
Lemma members_snoc l : members (l ++ [Open]) = S (members l).
Proof. unfold members. rewrite list.filter_app, length_app. simpl. lia. Qed.
Lemma snoc_lookup l (q : nat) i : (l ++ [Open]) !! q = Some i <-> l !! q = Some i \/ q = length l /\ i = Open.
Proof.
  rewrite lookup_app. destruct (l !! q) as [j|] eqn:E.
  - split; [by left|]. intros [H|[-> ->]]; [done|]. by rewrite lookup_ge_None_2 in E.
  - apply lookup_ge_None_1 in E. rewrite list_lookup_singleton_Some. split; [|intros [?|[-> ->]]]; [|done|].
    + intros [Hq <-]. right. split; [lia|done].
    + split; [lia|done].
Qed.
Lemma members_elem l : 0 < members l <-> exists q i, l !! q = Some i /\ owning i = true.
Proof.
  unfold members. split.
  - destruct (filter _ l) as [|i k] eqn:E; simpl; [lia|]. intros _.
    assert (i ∈ filter (fun i => owning i = true) l) as [Hi [q Hq]%list_elem_of_lookup]%list_elem_of_filter
      by (rewrite E; left). by exists q, i.
  - intros (q & i & Hq & Hi). apply list_elem_of_lookup_2 in Hq.
    assert (i ∈ filter (fun i => owning i = true) l) as H by (by apply list_elem_of_filter).
    destruct (filter _ l); [by apply elem_of_nil in H|simpl; lia].
Qed.

(** ** What is true of every state *)
Definition acting (s : state) (a : actor) : Prop :=
  match a with Client _ => True | Runner i => jobs s !! i = Some Running | Manager => False end.
Definition present (s : state) (a : actor) : Prop :=
  match a with
  | Client _ => True
  | Runner i => jobs s !! i = Some Queued \/ jobs s !! i = Some Running
  | Manager => False
  end.
Definition ended (s : state) : Prop := forall i p, jobs s !! i = Some p -> p = Finished.

(** The manager owns the pool only while a queue is in use that will have it let go. *)
Record sound (s : state) : Prop := {
  s_open q : impls s !! q = Some Open <-> 0 < uses (Queue q) (holders s);
  s_closing q a : impls s !! q = Some (Closing a) -> acting s a;
  s_deleted : m_pool s = false -> ended s;
  s_holder a h : (a, h) ∈ holders s -> present s a;
  s_managed :
    QueueManager.owned the_pool (QueueManager.count the_pool (QueueManager.m_queues (manager s)))
      (QueueManager.m_thread (manager s)) = 0 \/ exists q, impls s !! q = Some Open
}.
Record good (s : state) : Prop := {
  g_sound : sound s;
  g_owners : reaper s = None <-> owners s <> 0;
  g_reaper a : reaper s = Some a -> alive s = true -> a = Manager \/ acting s a;
  g_dead : alive s = false -> reaper s <> None /\ ended s
}.

Lemma able_spec s a : able s a = true ->
  acting s a /\ (alive s = true -> reaper s <> Some a) /\ forall q, impls s !! q <> Some (Closing a).
Proof.
  unfold able, destroying, acting. intros [H1 H2]%andb_true_iff. apply negb_true_iff, orb_false_iff in H1 as [H1 H3].
  split_and!.
  - destruct a; [done|by apply bool_decide_eq_true in H2|done].
  - intros E E'. by rewrite E, bool_decide_true in H1.
  - intros q E%list_elem_of_lookup_2. by rewrite bool_decide_true in H3.
Qed.
Lemma able_intro s a : acting s a -> (alive s = true -> reaper s <> Some a) ->
  (forall q, impls s !! q <> Some (Closing a)) -> able s a = true.
Proof.
  unfold able, destroying, acting. intros H1 H2 H3. apply andb_true_iff. split.
  - apply negb_true_iff, orb_false_iff. split.
    + destruct (alive s); [|by rewrite andb_false_r]. rewrite bool_decide_false; auto.
    + apply bool_decide_eq_false. intros [q Hq]%list_elem_of_lookup. by apply (H3 q).
  - destruct a; [done|by apply bool_decide_eq_true|done].
Qed.
Lemma has_spec s a h : has s a h = true -> (a, h) ∈ holders s.
Proof. by intros H%bool_decide_eq_true. Qed.

(** Whoever has a reference has the pool alive. *)
Lemma holder_owners s a h : sound s -> (a, h) ∈ holders s -> 0 < owners s.
Proof.
  intros Hs H. unfold owners. assert (0 < uses h (holders s)) as Hu by (apply uses_elem; by exists a).
  destruct h as [q|]; [|lia]. apply (s_open _ Hs) in Hu.
  assert (0 < members (impls s)) by (apply members_elem; by exists q, Open). lia.
Qed.
Lemma owners_alive s : good s -> 0 < owners s -> alive s = true.
Proof.
  intros Hg H. destruct (alive s) eqn:E; [done|]. destruct (g_dead _ Hg E) as [Hr _].
  destruct Hr. apply (g_owners _ Hg). lia.
Qed.
Lemma running_alive s i : good s -> jobs s !! i = Some Running -> alive s = true /\ m_pool s = true.
Proof.
  intros Hg H. split.
  - destruct (alive s) eqn:E; [done|]. destruct (g_dead _ Hg E) as [_ Hd]. by specialize (Hd _ _ H).
  - destruct (m_pool s) eqn:E; [done|]. by specialize (s_deleted _ (g_sound _ Hg) E _ _ H).
Qed.

(** Giving up a reference. *)
Lemma pool_last_owner_good a s s' :
  good s -> sound s' -> jobs s' = jobs s -> reaper s' = reaper s -> alive s' = alive s ->
  owners s' <= owners s -> (a = Manager \/ acting s a) -> good (last_owner a s s').
Proof.
  intros [Hs Ho Hr Hd] Hs' Ej Er Ea Hle Ha. unfold last_owner.
  assert (forall x, acting s x -> acting s' x) as Hact by (unfold acting; by rewrite Ej).
  assert (ended s -> ended s') as Hend by (unfold ended; by rewrite Ej).
  destruct (Nat.eqb_spec (owners s') 0) as [E0|E0], (Nat.eqb_spec (owners s) 0) as [E1|E1]; simpl.
  - split; [done|by rewrite Er, Ho; lia| |rewrite Er, Ea; intros E; destruct (Hd E); auto].
    intros b. rewrite Er, Ea. intros Eb El. destruct (Hr b Eb El); auto.
  - split; [by destruct Hs'|split; [done|]; unfold owners in *; simpl; lia| |].
    + intros b [= <-] _. destruct Ha; [by left|right; by apply Hact].
    + simpl. rewrite Ea. intros El. destruct (Hd El) as [_ He]. split; [done|by apply Hend].
  - lia.
  - split; [done|by rewrite Er, Ho; lia| |rewrite Er, Ea; intros E; destruct (Hd E); auto].
    intros b. rewrite Er, Ea. intros Eb El. destruct (Hr b Eb El); auto.
Qed.

(** ** Every step keeps it *)
Lemma start_holders n a h : (a, h) ∈ holders (start n) -> h = Pool /\ exists c, a = Client c.
Proof. intros H. apply list_elem_of_fmap in H as (c & [= -> ->] & _). eauto. Qed.
Lemma pool_start_good n : good (start n).
Proof.
  split; [split|..]; try done.
  - intros q. split; [done|]. intros [a H]%uses_elem. by apply start_holders in H as [[=] _].
  - intros a h H. by apply start_holders in H as [_ [c ->]].
  - by left.
Qed.

Lemma job_good s i p p' : good s -> jobs s !! i = Some p -> p <> Finished ->
  (p' = Running \/ able s (Runner i) = true /\ forall h, (Runner i, h) ∉ holders s) ->
  good (with_jobs (<[i := p']> (jobs s)) s).
Proof.
  intros [[S1 S2 S3 S4 S5] Ho Hr Hd] Ei Hp Hi. assert (i < length (jobs s)) as Hl by (by eapply lookup_lt_Some).
  assert (forall u, u <> i -> <[i := p']> (jobs s) !! u = jobs s !! u) as Hu by (intros; by rewrite list_lookup_insert_ne).
  assert (~ ended s) as Hn by (intros H; by specialize (H _ _ Ei)).
  assert (forall a, acting s a -> p' = Running \/ a <> Runner i -> acting (with_jobs (<[i := p']> (jobs s)) s) a) as Hact.
  { intros [|u|] Ha Hc; simpl; [done| |done]. destruct (decide (u = i)) as [->|Hne]; [|by rewrite Hu].
    rewrite list_lookup_insert_eq by done. by destruct Hc as [->|[]]. }
  split; [split|..]; simpl; try done.
  - intros q a Hq. apply Hact; [by eapply S2|]. destruct Hi as [?|[Hi _]]; [by left|right].
    apply able_spec in Hi as (_ & _ & Hi). intros ->. by apply (Hi q).
  - intros E. by destruct (Hn (S3 E)).
  - intros a h Ha. specialize (S4 a h Ha). destruct a as [|u|]; simpl in *; [done| |done].
    destruct (decide (u = i)) as [->|Hne]; [|by rewrite Hu]. rewrite list_lookup_insert_eq by done.
    destruct Hi as [->|[_ Hi]]; [by right|]. by destruct (Hi h).
  - intros a Ea El. destruct (Hr a Ea El) as [?|Ha]; [by left|right]. apply Hact; [done|].
    destruct Hi as [?|[Hi _]]; [by left|right]. apply able_spec in Hi as (_ & Hi & _). intros ->. by apply Hi.
  - intros E. by destruct (Hd E) as [_ ?].
Qed.

Lemma make_good s a : good s -> able s a = true -> has s a Pool = true -> good (make_parallel_queue a s).
Proof.
  intros Hg (Ha & _ & _)%able_spec Hh%has_spec. pose proof (holder_owners _ _ _ (g_sound _ Hg) Hh) as Hown.
  destruct Hg as [[S1 S2 S3 S4 S5] Ho Hr Hd].
  assert (uses Pool (holders s) <= owners s) by (unfold owners; lia).
  split; [split|..]; simpl; try done.
  - intros q. rewrite uses_cons. simpl. destruct (decide (Queue (length (impls s)) = Queue q)) as [[= <-]|Hne].
    + rewrite snoc_lookup. split; [lia|auto].
    + rewrite Nat.add_0_l, <- S1, snoc_lookup. split; [|auto]. intros [?|[-> _]]; [done|]. by destruct Hne.
  - intros q b Hq. apply (S2 q). by apply snoc_lookup in Hq as [?|[_ [=]]].
  - intros b h [[= -> ->]|Hb]%elem_of_cons; [|by eapply S4]. destruct a; simpl in *; auto.
  - right. exists (length (impls s)). apply snoc_lookup; auto.
  - split; [intros E; unfold owners; simpl; rewrite members_snoc; lia|]. intros _. apply Ho. lia.
Qed.

Lemma copy_good s a h : good s -> able s a = true -> has s a h = true -> good (with_holders ((a, h) :: holders s) s).
Proof.
  intros Hg (Ha & _ & _)%able_spec Hh%has_spec. pose proof (holder_owners _ _ _ (g_sound _ Hg) Hh) as Hown.
  destruct Hg as [[S1 S2 S3 S4 S5] Ho Hr Hd]. split; [split|..]; simpl; try done.
  - intros q. rewrite uses_cons, S1. simpl. case_decide as E; [subst|lia]. split; [lia|]. intros _. apply uses_elem. by exists a.
  - intros b k [[= -> ->]|H]%elem_of_cons; [|by eapply S4]. destruct a; simpl in *; auto.
  - rewrite Ho. unfold owners in *. simpl. rewrite uses_cons. simpl. lia.
Qed.

Lemma drop_good s a h : good s -> able s a = true -> has s a h = true -> good (drop a h s).
Proof.
  intros Hg (Ha & Hr & Hc)%able_spec Hh%has_spec. pose proof (g_sound _ Hg) as [S1 S2 S3 S4 S5].
  pose proof (holder_owners _ _ _ (g_sound _ Hg) Hh) as Hown.
  pose proof (fun k => uses_remove k _ _ Hh) as Hu. simpl in Hu.
  assert (forall b k, (b, k) ∈ remove_one (a, h) (holders s) -> present s b) as Hp by (intros b k H%remove_one_sub; by eapply S4).
  unfold drop. destruct h as [q|].
  - assert (impls s !! q = Some Open) as Eq by (apply S1; specialize (Hu (Queue q)); rewrite decide_True in Hu by done; lia).
    simpl. destruct (Nat.eqb_spec (uses (Queue q) (remove_one (a, Queue q) (holders s))) 0) as [E|E].
    + assert (forall u, u <> q -> <[q := Closing a]> (impls s) !! u = impls s !! u) as Hi by (intros; by rewrite list_lookup_insert_ne).
      assert (<[q := Closing a]> (impls s) !! q = Some (Closing a)) as Hq by (apply list_lookup_insert_eq; by eapply lookup_lt_Some).
      assert (owners (close a q (with_holders (remove_one (a, Queue q) (holders s)) s)) = owners s) as Eo.
      { unfold owners, managed. simpl. rewrite QueueManager.attaching_app. simpl.
        specialize (Hu Pool). rewrite decide_False in Hu by done. pose proof (members_insert q _ (Closing a) _ Eq). simpl in *. lia. }
      split; [split|..]; simpl; try done.
      * intros u. destruct (decide (u = q)) as [->|Hne]; [rewrite Hq, E; split; [done|lia]|].
        rewrite Hi, S1, (Hu (Queue u)) by done. rewrite decide_False by congruence. done.
      * intros u b. destruct (decide (u = q)) as [->|Hne]; [rewrite Hq; by intros [= <-]|]. rewrite Hi by done. apply S2.
      * left. by rewrite QueueManager.owned_snoc.
      * rewrite Eo. apply (g_owners _ Hg).
      * intros b Eb El. apply (g_reaper _ Hg b Eb El).
      * intros El. by rewrite owners_alive in El.
    + split; [split|..]; simpl; try done.
      * intros u. rewrite S1, (Hu (Queue u)). case_decide as D; [injection D as ->; lia|done].
      * rewrite (g_owners _ Hg). unfold owners. simpl. rewrite (Hu Pool), decide_False by done. done.
      * intros b Eb El. apply (g_reaper _ Hg b Eb El).
      * intros El. by rewrite owners_alive in El.
  - apply pool_last_owner_good; try done; [|unfold owners; simpl; rewrite (Hu Pool); lia|by right].
    split; simpl; try done. intros u. by rewrite S1, (Hu (Queue u)), decide_False.
Qed.

Lemma destroy_member_good s a q : good s -> impls s !! q = Some (Closing a) -> good (destroy_member a q s).
Proof.
  intros Hg Eq. pose proof (g_sound _ Hg) as [S1 S2 S3 S4 S5].
  assert (forall u, u <> q -> <[q := Gone]> (impls s) !! u = impls s !! u) as Hi by (intros; by rewrite list_lookup_insert_ne).
  assert (<[q := Gone]> (impls s) !! q = Some Gone) as Hq by (apply list_lookup_insert_eq; by eapply lookup_lt_Some).
  apply pool_last_owner_good; try done; [split; simpl; try done| |right; by eapply S2].
  - intros u. rewrite <- S1. destruct (decide (u = q)) as [->|Hne]; [by rewrite Hq, Eq|by rewrite Hi].
  - intros u b. destruct (decide (u = q)) as [->|Hne]; [by rewrite Hq|]. rewrite Hi by done. apply S2.
  - destruct S5 as [?|[u Hu]]; [by left|right; exists u]. rewrite Hi; congruence.
  - unfold owners. simpl. pose proof (members_insert q _ Gone _ Eq). simpl in *. lia.
Qed.

Lemma manager_good s m : good s -> QueueManager.step (manager s) = Some m -> good (last_owner Manager s (with_manager m s)).
Proof.
  intros Hg E. pose proof (g_sound _ Hg) as [S1 S2 S3 S4 S5]. unfold QueueManager.step in E.
  destruct (QueueManager.m_thread (manager s)) as [|r l] eqn:Em; [done|]. injection E as <-.
  apply pool_last_owner_good; try done; [split; simpl; try done| |by left].
  - by rewrite QueueManager.owned_execute.
  - unfold owners, managed. simpl. rewrite Em, QueueManager.count_execute. destruct r as [x|x]; simpl.
    + unfold the_pool. destruct (Nat.eqb x 0); lia.
    + destruct (Nat.eqb x the_pool); lia.
Qed.

Lemma execute_good s s' a h hs : good s -> able s a = true -> has s a h = true -> forallb (has s a) hs = true ->
  execute hs s = inr s' -> good s'.
Proof.
  intros Hg (Ha & _ & _)%able_spec Hh%has_spec Hhs. pose proof (holder_owners _ _ _ (g_sound _ Hg) Hh) as Hown.
  pose proof (owners_alive _ Hg Hown) as El. destruct Hg as [[S1 S2 S3 S4 S5] Ho Hr Hd].
  unfold execute. rewrite El. simpl. destruct (m_pool s) eqn:Ep; simpl; [|done]. intros [= <-].
  assert (forall k, k ∈ hs -> (a, k) ∈ holders s) as Hk.
  { intros k Hk%list_elem_of_In. rewrite forallb_forall in Hhs. by apply has_spec, Hhs. }
  assert (forall k, 0 < uses k (map (pair (Runner (length (jobs s)))) hs) -> 0 < uses k (holders s)) as Hu.
  { intros k [b (k' & [= -> ->] & H)%list_elem_of_fmap]%uses_elem. apply uses_elem. exists a. by apply Hk. }
  assert (forall i p, jobs s !! i = Some p -> (jobs s ++ [Queued]) !! i = Some p) as Hj by (intros; by apply lookup_app_l_Some).
  split; [split|..]; simpl; try congruence.
  - intros q. rewrite uses_app, S1. specialize (Hu (Queue q)). lia.
  - intros q b Hq. specialize (S2 q b Hq). destruct b; simpl in *; auto.
  - intros b k [(k' & [= -> ->] & _)%list_elem_of_fmap|H]%elem_of_app.
    + left. simpl. by rewrite lookup_app_r, Nat.sub_diag.
    + specialize (S4 b k H). destruct b; simpl in *; [done| |done]. destruct S4; auto.
  - rewrite Ho. unfold owners. simpl. rewrite uses_app. specialize (Hu Pool). lia.
  - intros b Eb _. destruct (Hr b Eb El) as [?|Hb]; [by left|right]. destruct b; simpl in *; auto.
Qed.

(** ** What is shown *)
Section shown.
(** Qt documents that waitForDone() waits for all threads of the pool to exit. *)
Context (waitForDone : list phase -> bool).
Hypothesis waits_for_all : forall l, waitForDone l = true -> Forall (eq Finished) l.

Lemma waited s : waitForDone (jobs s) = true -> ended s.
Proof.
  intros H%waits_for_all i p E. rewrite Forall_lookup in H. by rewrite (H i p E).
Qed.

Lemma destroy_good s s' : good s -> destroy waitForDone s = Some s' -> good s'.
Proof.
  intros [Hs Ho Hr Hd]. unfold destroy. destruct (reaper s) as [a|] eqn:Ea; [|done].
  destruct (alive s); simpl; [|done]. destruct (negb (m_pool s) || _) eqn:Ew; [|done]. intros [= <-].
  split; [by destruct Hs|exact Ho|done|]. intros _. split; [done|].
  apply orb_true_iff in Ew as [Ew%negb_true_iff|Ew]; [exact (s_deleted _ Hs Ew)|exact (waited _ Ew)].
Qed.

Lemma act_good e s s' : good s -> act waitForDone e s = Some (inr s') -> good s'.
Proof.
  intros Hg. destruct e as [a|a h|a h|q|a h hs|i|i|i| | |]; simpl.
  - destruct (able s a) eqn:Ea; [|done]. destruct (has s a Pool) eqn:Eh; [|done]. intros [= <-]. by apply make_good.
  - destruct (able s a) eqn:Ea; [|done]. destruct (has s a h) eqn:Eh; [|done]. intros [= <-]. by apply copy_good.
  - destruct (able s a) eqn:Ea; [|done]. destruct (has s a h) eqn:Eh; [|done]. intros [= <-]. by apply drop_good.
  - destruct (impls s !! q) as [[|a|]|] eqn:Eq; [done| |done..]. intros [= <-]. by apply destroy_member_good.
  - destruct (able s a) eqn:Ea; [|done]. destruct (has s a h) eqn:Eh; [|done]. destruct (forallb _ hs) eqn:Ef; [|done].
    intros [= E]. by eapply execute_good.
  - case_bool_decide as E; [|done]. intros [= <-]. eapply job_good; [done..|by left].
  - destruct (able s (Runner i)); [|done]. unfold notify_thread. destruct (alive s), (m_pool s); by intros [= <-].
  - destruct (able s (Runner i)) eqn:Ea; [|done]. destruct (forallb _ _) eqn:Ef; [|done]. intros [= <-].
    pose proof (able_spec _ _ Ea) as [Hi _]. eapply job_good; [done..|right]. split; [done|]. intros h Hh%list_elem_of_In.
    rewrite forallb_forall in Ef. specialize (Ef _ Hh). by rewrite bool_decide_true in Ef.
  - destruct (destroying s Manager); [done|]. destruct (QueueManager.step (manager s)) as [m|] eqn:E; [|done].
    intros [= <-]. by apply manager_good.
  - destruct (destroy waitForDone s) as [s1|] eqn:E; [|done]. intros [= <-]. by eapply destroy_good.
  - destruct (m_pool s), (waitForDone (jobs s)) eqn:E; try done. intros [= <-]. destruct Hg as [[S1 S2 S3 S4 S5] Ho Hr Hd].
    split; [split|..]; try done. intros _. by apply waited.
Qed.

Lemma reach_good s s' : good s -> rtc (step waitForDone) s s' -> good s'.
Proof. intros Hg H. induction H as [|s s1 s2 [e E] _ IH]; [done|]. apply IH. by eapply act_good. Qed.


(** An operation that gave up the last reference waits for its own end. *)
Lemma self_wait_step i s s' :
  step waitForDone s s' -> good s -> reaper s = Some (Runner i) -> alive s = true ->
  reaper s' = Some (Runner i) /\ alive s' = true.
Proof.
  intros [e E] Hg Er El. pose proof (act_good _ _ _ Hg E) as Hg'. destruct (g_reaper _ Hg _ Er El) as [[=]|Hi]. simpl in Hi.
  assert (owners s = 0) as Eo by (destruct (Nat.eq_dec (owners s) 0) as [|Hn%(g_owners _ Hg)]; congruence).
  assert (waitForDone (jobs s) = false) as Ew.
  { destruct (waitForDone (jobs s)) eqn:Ew; [|done]. by specialize (waited _ Ew _ _ Hi). }
  assert (forall a s1, last_owner a s s1 = s1) as Elast by (intros; unfold last_owner; rewrite Eo; by rewrite andb_false_r).
  destruct (running_alive _ _ Hg Hi) as [_ Ep].
  destruct e; simpl in E; unfold destroy, drop, destroy_member, execute, notify_thread in E;
    rewrite ?Er, ?El, ?Ep, ?Ew, ?Elast in E; simpl in E; branches E; try done; by rewrite ?Elast.
Qed.

Lemma self_wait i s s' :
  rtc (step waitForDone) s s' -> good s -> reaper s = Some (Runner i) -> alive s = true ->
  reaper s' = Some (Runner i) /\ alive s' = true /\ jobs s' !! i = Some Running.
Proof.
  induction 1 as [|s s1 s2 Hs _ IH]; intros Hg Er El.
  - split_and!; [done..|]. by destruct (g_reaper _ Hg _ Er El) as [[=]|Hi].
  - destruct (self_wait_step _ _ _ Hs Hg Er El) as [E1 E2]. apply IH; [|done..].
    destruct Hs as [e E]. by eapply act_good.
Qed.

(** ... and that it returns when they have. *)
Hypothesis returns_when_done : forall l, Forall (eq Finished) l -> waitForDone l = true.

Definition stuck (s : state) : Prop := forall e, e <> DeletePool -> act waitForDone e s = None.

Lemma stuck_closing s q a : stuck s -> impls s !! q <> Some (Closing a).
Proof. intros Hst E. specialize (Hst (DropMember q) ltac:(done)). simpl in Hst. by rewrite E in Hst. Qed.
Lemma stuck_held s a h : stuck s -> able s a = true -> (a, h) ∉ holders s.
Proof.
  intros Hst Ha E. specialize (Hst (Drop a h) ltac:(done)). simpl in Hst. unfold has in Hst.
  by rewrite Ha, bool_decide_true in Hst.
Qed.
Lemma stuck_free s a : stuck s -> acting s a -> (alive s = true -> reaper s <> Some a) -> able s a = true.
Proof. intros Hst Ha Hr. apply able_intro; [done..|]. intros q. by apply stuck_closing. Qed.

Lemma stuck_ended s : good s -> stuck s -> (forall i, alive s = true -> reaper s <> Some (Runner i)) -> ended s.
Proof.
  intros Hg Hst Hr i p Ei. destruct p; [| |done]; exfalso.
  - specialize (Hst (Begin i) ltac:(done)). simpl in Hst. by rewrite bool_decide_true in Hst.
  - pose proof (stuck_free s (Runner i) Hst Ei (Hr i)) as Ha.
    pose proof (Hst (End i) ltac:(done)) as E. simpl in E. rewrite Ha in E. simpl in E.
    destruct (forallb _ _) eqn:Ef; [done|]. apply not_true_iff_false in Ef. apply Ef, forallb_forall.
    intros [b h] Hb%list_elem_of_In. simpl. rewrite bool_decide_false; [done|]. intros ->. by eapply stuck_held.
Qed.

(** Nobody is left who has a reference. *)
Lemma stuck_released s : good s -> stuck s -> reaper s = None -> False.
Proof.
  intros Hg Hst Er. pose proof (proj1 (g_owners _ Hg) Er) as Ho. pose proof (g_sound _ Hg) as [S1 S2 S3 S4 S5].
  assert (ended s) as He by (apply stuck_ended; [done..|]; by rewrite Er).
  assert (forall a h, (a, h) ∉ holders s) as Hh.
  { intros a h Ha. eapply stuck_held; [done| |exact Ha]. apply stuck_free; [done| |by rewrite Er].
    specialize (S4 _ _ Ha). destruct a as [|i|]; [done| |done]. by destruct S4 as [H|H]; specialize (He _ _ H). }
  assert (forall h, uses h (holders s) = 0) as Hu.
  { intros h. destruct (Nat.eq_dec (uses h (holders s)) 0) as [|Hn]; [done|].
    destruct (proj1 (uses_elem h (holders s)) ltac:(lia)) as [a Ha]. by destruct (Hh a h). }
  assert (members (impls s) = 0) as Em.
  { destruct (Nat.eq_dec (members (impls s)) 0) as [|Hn]; [done|].
    destruct (proj1 (members_elem (impls s)) ltac:(lia)) as (q & [|a|] & Eq & Hq); [|by edestruct stuck_closing|done].
    apply S1 in Eq. rewrite Hu in Eq. lia. }
  assert (QueueManager.m_thread (manager s) = []) as Et.
  { pose proof (Hst ManagerTurn ltac:(done)) as E. simpl in E. unfold QueueManager.step in E.
    destruct (QueueManager.m_thread (manager s)); [done|]. destruct (destroying s Manager) eqn:Ed; [|done].
    unfold destroying in Ed. rewrite Er in Ed. simpl in Ed. apply bool_decide_eq_true in Ed as [q Eq]%list_elem_of_lookup.
    by edestruct stuck_closing. }
  unfold owners, managed in Ho. rewrite Hu, Em, Et in Ho. simpl in Ho. rewrite Et in S5. simpl in S5.
  destruct S5 as [S5|[q Eq]]; [lia|]. apply S1 in Eq. rewrite Hu in Eq. lia.
Qed.

(** C11: No leak: when nothing is left to happen the pool has been destroyed after all it
    was given has been executed, or an operation on it waits for its own end. *)
Theorem pool_is_destroyed n s :
  rtc (step waitForDone) (start n) s -> stuck s ->
  alive s = false /\ ended s \/
  exists i, reaper s = Some (Runner i) /\ alive s = true /\ jobs s !! i = Some Running.
Proof.
  intros Hr Hst. pose proof (reach_good _ _ (pool_start_good n) Hr) as Hg.
  destruct (alive s) eqn:El; [right|left; split; [done|by apply g_dead]].
  destruct (reaper s) as [a|] eqn:Er; [|by destruct (stuck_released s Hg Hst)].
  destruct (g_reaper _ Hg _ Er El) as [Ha|Ha].
  2: destruct a as [|i|]; [|by exists i|done].
  all: exfalso; assert (ended s) as He by (apply stuck_ended; [done..|congruence]).
  all: pose proof (Hst Destroy ltac:(done)) as E; simpl in E; unfold destroy in E; rewrite Er, El, returns_when_done in E;
    [by rewrite orb_true_r in E|apply Forall_lookup; intros i p Ei; by rewrite (He i p Ei)].
Qed.

(** The run in which the only queue of a pool is given up by an operation on it, and the
    manager lets go of the pool before ~parallel_queue_impl has destroyed m_pool. *)
Definition last_by_operation : list event :=
  [Create (Client 0); Drop (Client 0) Pool; Execute (Client 0) (Queue 0) [Queue 0]; Drop (Client 0) (Queue 0); Begin 0;
   Drop (Runner 0) (Queue 0); ManagerTurn; ManagerTurn; DropMember 0].
(** Two queues on a pool: the manager lets go of the pool for both when one is given up,
    so that it is not there for the other. *)
Definition second_by_operation : list event :=
  [Create (Client 0); Create (Client 0); Drop (Client 0) Pool; ManagerTurn; ManagerTurn; Drop (Client 0) (Queue 1);
   DropMember 1; ManagerTurn; Execute (Client 0) (Queue 0) [Queue 0]; Drop (Client 0) (Queue 0); Begin 0;
   Drop (Runner 0) (Queue 0); DropMember 0].

Lemma acts_rtc l : forall s s', acts waitForDone l s = Some s' -> rtc (step waitForDone) s s'.
Proof.
  induction l as [|e l IH]; intros s s' E; simpl in E; [by simplify_eq|].
  destruct (act waitForDone e s) as [[f|s1]|] eqn:Ea; try done. eapply rtc_l; [by exists e|]. by apply IH.
Qed.

(** In both the operation never ends and the pool is never destroyed, whatever happens
    after it. *)
Theorem operation_waits_for_itself l :
  l = last_by_operation \/ l = second_by_operation ->
  exists s, acts waitForDone l (start 0) = Some s /\ reaper s = Some (Runner 0) /\
  forall s', rtc (step waitForDone) s s' -> alive s' = true /\ jobs s' !! 0 = Some Running.
Proof.
  intros Hl. assert (exists s, acts waitForDone l (start 0) = Some s /\ reaper s = Some (Runner 0) /\ alive s = true)
    as (s & E & Er & El) by (destruct Hl as [-> | ->]; eexists; vm_compute; eauto).
  exists s. split_and!; [done..|]. intros s' Hr.
  pose proof (reach_good _ _ (pool_start_good 0) (acts_rtc _ _ _ E)) as Hg. by destruct (self_wait 0 s s' Hr Hg Er El) as (_ & ? & ?).
Qed.
End shown.

(** ** At concrete inputs *)
Definition all_finished (l : list phase) : bool := forallb (fun p => bool_decide (Finished = p)) l.
Lemma all_finished_spec l : all_finished l = true <-> Forall (eq Finished) l.
Proof.
  unfold all_finished. rewrite forallb_forall, Forall_forall. split; intros H p Hp.
  - by apply (bool_decide_eq_true_1 (Finished = p)), H.
  - by apply bool_decide_eq_true_2, H.
Qed.

(** One queue on one pool, from the first reference to the destructor. *)
Definition one_life : list event :=
  [Create (Client 0); Drop (Client 0) Pool; Execute (Client 0) (Queue 0) [Queue 0]; Drop (Client 0) (Queue 0); Begin 0;
   Block 0; Drop (Runner 0) (Queue 0); ManagerTurn; DropMember 0; End 0; ManagerTurn; Destroy].
Definition life_over : state :=
  State [Finished] [] [Gone] QueueManager.make_manager true (Some Manager) false.
Lemma one_life_over : acts all_finished one_life (start 0) = Some life_over.
Proof. reflexivity. Qed.

Lemma life_over_stuck : stuck all_finished life_over.
Proof.
  assert (forall a h, has life_over a h = false) as Hh by (intros; apply bool_decide_eq_false; by intros ?%elem_of_nil).
  intros [a|a h|a h|q|a h hs|i|i|i| | |] He; simpl; rewrite ?Hh, ?andb_false_r; try done.
  - by destruct q as [|[|q]].
  - by destruct i as [|[|i]].
  - by destruct i as [|[|i]].
  - by destruct i as [|[|i]].
Qed.

Theorem pool_is_destroyed_witness :
  acts all_finished one_life (start 0) = Some life_over /\
  (alive life_over = false /\ ended life_over \/
   exists i, reaper life_over = Some (Runner i) /\ alive life_over = true /\ jobs life_over !! i = Some Running).
Proof.
  split; [exact one_life_over|]. apply (pool_is_destroyed all_finished) with (n := 0).
  - apply all_finished_spec.
  - apply all_finished_spec.
  - apply (acts_rtc all_finished one_life), one_life_over.
  - exact life_over_stuck.
Defined.


Theorem operation_waits_for_itself_witness :
  exists s, acts all_finished last_by_operation (start 0) = Some s /\ reaper s = Some (Runner 0) /\
  forall s', rtc (step all_finished) s s' -> alive s' = true /\ jobs s' !! 0 = Some Running.
Proof.
  apply (operation_waits_for_itself all_finished).
  - apply all_finished_spec.
  - by left.
Defined.
End PoolLifetime.
