(* ===== verification/WorkerLifetime.v ===== *)
(** * WorkerLifetime: who owns a worker of the pool, and who joins its thread

    threadpool::worker of src/naive/naive_threadpool.cpp: schedule() makes it and hands
    it to the operation_queue_manager, the thread asks the manager to let go of it as
    the last thing it does, and whoever gives up the last shared_ptr runs ~worker(),
    which waits for the thread.  What the thread executes is in ThreadPool. *)
From stdpp Require Import relations.
From S2P Require Import Prelude Conc QueueManager.

Module WorkerLifetime.
Import QueueManager.

(** How far schedule() is with its local shared_ptr; what the thread is doing. *)
Inductive scope := Made | Attached | Left.
Inductive stage := Running | Detached | Exited.
(** Who runs ~worker(): the thread in schedule(), or that of the manager. *)
Inductive actor := Scheduler | Manager.
#[export] Instance scope_eq : EqDecision scope.
Proof. solve_decision. Defined.
#[export] Instance worker_stage_eq : EqDecision stage.
Proof. solve_decision. Defined.
#[export] Instance joiner_eq : EqDecision actor.
Proof. solve_decision. Defined.

(** [early] is auxiliary: the thread has ended before schedule() called attach(). *)
Record worker := Worker {
  thread_ : scope;
  m_thread : stage;
  joining : option actor;
  destroyed : bool;
  early : bool
}.
Record state := State { workers : list worker; manager : operation_queue_manager }.
Definition set_worker (w : nat) (x : worker) (s : state) : state := State (<[w := x]> (workers s)) (manager s).

(** The use count of worker [w]. *)
Definition held (w : nat) (m : operation_queue_manager) : nat :=
  count w (m_queues m) + attaching w (QueueManager.m_thread m).
Definition owners (w : nat) (x : worker) (m : operation_queue_manager) : nat :=
  (match thread_ x with Left => 0 | _ => 1 end) + held w m.

(** Who has made the use count zero goes on in ~worker(). *)
Definition last_owner (a : actor) (w : nat) (m : operation_queue_manager) (x : worker) : worker :=
  if Nat.eqb (owners w x m) 0
  then Worker (thread_ x) (m_thread x) (match joining x with Some b => Some b | None => Some a end) (destroyed x) (early x)
  else x.

Definition busy (s : state) : bool :=
  existsb (fun x => bool_decide (joining x = Some Manager) && negb (destroyed x)) (workers s).

(** schedule(): std::make_shared<worker>(m_data), whose thread starts at once;
    attach(thread); the end of the scope. *)
Definition spawn (s : state) : state :=
  State (workers s ++ [Worker Made Running None false false]) (manager s).
Definition attach_thread (w : nat) (s : state) : option state :=
  match workers s !! w with
  | Some (Worker Made t j d e) => Some (State (<[w := Worker Attached t j d e]> (workers s)) (attach w (manager s)))
  | _ => None
  end.
Definition leave (w : nat) (s : state) : option state :=
  match workers s !! w with
  | Some (Worker Attached t j d e) =>
      Some (set_worker w (last_owner Scheduler w (manager s) (Worker Left t j d e)) s)
  | _ => None
  end.

(** run(): detach(this) after the loop, and the end. *)
Definition finish (w : nat) (s : state) : option state :=
  match workers s !! w with
  | Some (Worker c Running j d _) =>
      Some (State (<[w := Worker c Detached j d (bool_decide (c = Made))]> (workers s)) (detach w (manager s)))
  | _ => None
  end.
Definition exit (w : nat) (s : state) : option state :=
  match workers s !! w with
  | Some (Worker c Detached j d e) => Some (set_worker w (Worker c Exited j d e) s)
  | _ => None
  end.

(** The manager executes a request, unless it is in ~worker(). *)
Definition manager_turn (s : state) : option state :=
  if busy s then None
  else match QueueManager.step (manager s) with
       | Some m => Some (State (imap (fun w x => last_owner Manager w m x) (workers s)) m)
       | None => None
       end.

(** ~worker(): m_thread.join() returns once run() has. *)
Definition join (w : nat) (s : state) : option state :=
  match workers s !! w with
  | Some (Worker c Exited (Some a) false e) => Some (set_worker w (Worker c Exited (Some a) true e) s)
  | _ => None
  end.

Inductive event := Spawn | Attach_ (w : nat) | Leave (w : nat) | Finish (w : nat) | Exit (w : nat) | ManagerTurn | Join (w : nat).
Definition act (e : event) (s : state) : option state :=
  match e with
  | Spawn => Some (spawn s)
  | Attach_ w => attach_thread w s
  | Leave w => leave w s
  | Finish w => finish w s
  | Exit w => exit w s
  | ManagerTurn => manager_turn s
  | Join w => join w s
  end.

Definition init : state := State [] make_manager.
Definition step (s s' : state) : Prop := exists e, act e s = Some s'.
Fixpoint acts (l : list event) (s : state) : option state :=
  match l with
  | [] => Some s
  | e :: l => match act e s with Some s' => acts l s' | None => None end
  end.

(** ** The invariant *)
Fixpoint detaching (w : nat) (rs : list request) : nat :=
  match rs with
  | [] => 0
  | Attach _ :: rs => detaching w rs
  | Detach x :: rs => (if Nat.eqb x w then 1 else 0) + detaching w rs
  end.
Lemma detaching_app w l1 l2 : detaching w (l1 ++ l2) = detaching w l1 + detaching w l2.
Proof. induction l1 as [|[x|x] l1 IH]; simpl; [done|done|lia]. Qed.

(** What the manager will own of [w]. *)
Definition due (w : nat) (m : operation_queue_manager) : nat := owned w (count w (m_queues m)) (QueueManager.m_thread m).

Record worker_good (m : operation_queue_manager) (w : nat) (x : worker) : Prop := {
  w_made : thread_ x = Made -> held w m = 0;
  w_held : held w m <= 1;
  w_running : m_thread x = Running -> thread_ x <> Made -> held w m = 1;
  w_asked : m_thread x = Running -> detaching w (QueueManager.m_thread m) = 0 /\ early x = false;
  w_once : detaching w (QueueManager.m_thread m) <= 1;
  w_pending : 0 < detaching w (QueueManager.m_thread m) -> thread_ x <> Made -> held w m = 1;
  w_joining : joining x <> None <-> owners w x m = 0;
  w_destroyed : destroyed x = true -> joining x <> None /\ m_thread x = Exited;
  w_early : thread_ x = Made -> m_thread x <> Running -> early x = true;
  w_due : m_thread x <> Running -> early x = false -> due w m = 0;
  w_kept : early x = true -> thread_ x <> Made -> due w m = 1
}.
Record good (s : state) : Prop := {
  good_worker w x : workers s !! w = Some x -> worker_good (manager s) w x;
  good_none w : length (workers s) <= w -> held w (manager s) = 0 /\ detaching w (QueueManager.m_thread (manager s)) = 0
}.

Lemma held_attach w v m : held w (attach v m) = held w m + (if Nat.eqb v w then 1 else 0).
Proof. unfold held, attach; simpl. rewrite attaching_app. simpl. lia. Qed.
Lemma held_detach w v m : held w (detach v m) = held w m.
Proof. unfold held, detach; simpl. rewrite attaching_app. simpl. lia. Qed.
Lemma due_attach w v m : due w (attach v m) = due w m + (if Nat.eqb v w then 1 else 0).
Proof. unfold due, attach; simpl. rewrite owned_snoc. simpl. destruct (Nat.eqb v w); lia. Qed.
Lemma due_detach w v m : due w (detach v m) = if Nat.eqb v w then 0 else due w m.
Proof. unfold due, detach; simpl. by rewrite owned_snoc. Qed.
Lemma due_none w m : held w m = 0 -> due w m = 0.
Proof.
  unfold held, due. intros H. destruct (count w (m_queues m)) eqn:E; [|lia]. apply owned_none. lia.
Qed.
Lemma due_step w m m' : QueueManager.step m = Some m' -> due w m' = due w m.
Proof.
  unfold QueueManager.step, due. destruct (QueueManager.m_thread m) as [|r l]; [done|]. intros [= <-]. apply owned_execute.
Qed.
(** A request is executed: only one to let go changes what is held. *)
Lemma manager_step w m m' : QueueManager.step m = Some m' ->
  (held w m' = held w m /\ detaching w (QueueManager.m_thread m') = detaching w (QueueManager.m_thread m)) \/
  (held w m' <= held w m /\ detaching w (QueueManager.m_thread m) = S (detaching w (QueueManager.m_thread m'))).
Proof.
  unfold QueueManager.step, held. destruct (QueueManager.m_thread m) as [|r l]; [done|]. intros [= <-]. simpl.
  rewrite count_execute. destruct r as [x|x]; simpl; destruct (Nat.eqb x w); [left; split; [lia|done]|by left| |by left].
  right. split; lia.
Qed.

(** Another worker's request changes nothing. *)
Lemma frame_good m m' w x :
  held w m' = held w m -> detaching w (QueueManager.m_thread m') = detaching w (QueueManager.m_thread m) ->
  due w m' = due w m -> worker_good m w x -> worker_good m' w x.
Proof.
  intros E1 E2 E3 [H1 H2 H3 H4 H5 H6 H7 H8 H9 H10 H11]. unfold owners in *.
  split; unfold owners; rewrite ?E1, ?E2, ?E3; done.
Qed.

(** One worker changes, the manager is asked for nothing else. *)
Lemma update_good s w x y m :
  good s -> workers s !! w = Some x -> worker_good m w y ->
  (forall v, v <> w -> held v m = held v (manager s) /\
    detaching v (QueueManager.m_thread m) = detaching v (QueueManager.m_thread (manager s)) /\ due v m = due v (manager s)) ->
  good (State (<[w := y]> (workers s)) m).
Proof.
  intros [G1 G2] Hx Hy Hm. pose proof (lookup_lt_Some _ _ _ Hx) as Hlt. split; simpl.
  - intros v z. destruct (decide (w = v)) as [<-|Hne].
    + rewrite list_lookup_insert_eq by done. by intros [= <-].
    + rewrite list_lookup_insert_ne by done. intros Hz. destruct (Hm v) as (E1 & E2 & E3); [done|].
      by apply (frame_good (manager s)), G1.
  - intros v. rewrite length_insert. intros Hv. destruct (Hm v) as (-> & -> & _); [lia|]. by apply G2.
Qed.
Lemma self_good s w x y :
  good s -> workers s !! w = Some x -> worker_good (manager s) w y -> good (set_worker w y s).
Proof. intros Hg Hx Hy. by apply (update_good s w x). Qed.

(** [last_owner] settles the one field that may be wrong. *)
Lemma last_reference_good a w m x :
  (forall j, joining x = None \/ joining x <> None /\ owners w x m = 0 -> (j <> None <-> owners w x m = 0) ->
     (destroyed x = true -> j <> None) -> worker_good m w (Worker (thread_ x) (m_thread x) j (destroyed x) (early x))) ->
  (joining x <> None -> owners w x m = 0) -> (destroyed x = true -> joining x <> None) ->
  worker_good m w (last_owner a w m x).
Proof.
  intros H Hj Hd. unfold last_owner. destruct (Nat.eqb_spec (owners w x m) 0) as [E|E].
  - apply H.
    + destruct (joining x); [right; by split|by left].
    + by destruct (joining x).
    + intros Hx. by destruct (joining x).
  - destruct x as [c t j d e]. simpl in *. apply H; [|split; [by intros ?%Hj|done]|done].
    destruct j; [|by left]. by destruct E, Hj.
Qed.

Lemma spawn_good s s' : good s -> Some (spawn s) = Some s' -> good s'.
Proof.
  intros Hg E. pose proof Hg as [G1 G2]. unfold spawn in E.
  injection E as <-. split; simpl.
  - intros w x Hx. destruct (decide (w < length (workers s))) as [Hlt|Hge].
    { rewrite lookup_app_l in Hx by done. by apply G1. }
    destruct (G2 w ltac:(lia)) as [E1 E2]. rewrite lookup_app_r in Hx by lia.
    apply list_lookup_singleton_Some in Hx as [_ <-].
    split; unfold owners; simpl; rewrite ?E1, ?E2; try done; lia.
  - intros w Hw. rewrite length_app in Hw. simpl in Hw. apply G2. lia.
Qed.

Lemma attach_thread_good w s s' : good s -> attach_thread w s = Some s' -> good s'.
Proof.
  intros Hg E. pose proof Hg as [G1 G2]. unfold attach_thread in E.
  destruct (workers s !! w) as [[[] t j d e]|] eqn:Hx; [|done..]. injection E as <-.
  apply (update_good s w _ _ _ Hg Hx).
  - destruct (G1 _ _ Hx) as [H1 H2 H3 H4 H5 H6 H7 H8 H9 H10 H11]. specialize (H1 eq_refl).
    assert (Eh : held w (attach w (manager s)) = 1) by (by rewrite held_attach, H1, Nat.eqb_refl).
    assert (Eu : due w (attach w (manager s)) = 1) by (by rewrite due_attach, due_none, Nat.eqb_refl).
    assert (Ed : detaching w (QueueManager.m_thread (attach w (manager s))) = detaching w (QueueManager.m_thread (manager s)))
      by (simpl; rewrite detaching_app; simpl; lia).
    revert Eh Eu Ed. generalize (attach w (manager s)). intros m' Eh Eu Ed. unfold owners in *. simpl in *. rewrite H1 in *.
    split; unfold owners; simpl; rewrite ?Eh, ?Eu, ?Ed; try done; try lia.
    + split; [intros Hj%H7; lia|lia].
    + intros Ht He. by rewrite H9 in He.
  - intros v Hv. rewrite held_attach, due_attach. simpl. rewrite detaching_app. simpl.
    destruct (Nat.eqb_spec w v); [congruence|lia].
Qed.

Lemma leave_good w s s' : good s -> leave w s = Some s' -> good s'.
Proof.
  intros Hg E. pose proof Hg as [G1 G2]. unfold leave in E.
  destruct (workers s !! w) as [[[] t j d e]|] eqn:Hx; [done| |done..]. injection E as <-.
  apply (self_good s w _ _ Hg Hx). destruct (G1 _ _ Hx) as [H1 H2 H3 H4 H5 H6 H7 H8 H9 H10 H11].
  unfold owners in *. simpl in *. apply last_reference_good; simpl.
  - intros j' _ Hj Hd. split; unfold owners; simpl; try done; [by intros ? _; apply H3|by intros ? _; apply H6| |by intros ? _; apply H11].
    intros Hd'. split; [by apply Hd|by apply H8].
  - intros Hj%H7. lia.
  - by intros [? _]%H8.
Qed.

Lemma finish_good w s s' : good s -> finish w s = Some s' -> good s'.
Proof.
  intros Hg E. pose proof Hg as [G1 G2]. unfold finish in E.
  destruct (workers s !! w) as [[c [] j d e]|] eqn:Hx; [|done..]. injection E as <-.
  apply (update_good s w _ _ _ Hg Hx).
  - destruct (G1 _ _ Hx) as [H1 H2 H3 H4 H5 H6 H7 H8 H9 H10 H11]. simpl in *. destruct (H4 eq_refl) as [Ed Ee].
    assert (Eu : due w (detach w (manager s)) = 0) by (by rewrite due_detach, Nat.eqb_refl).
    assert (Ed' : detaching w (QueueManager.m_thread (detach w (manager s))) = 1)
      by (simpl; rewrite detaching_app; simpl; rewrite Nat.eqb_refl; lia).
    pose proof (held_detach w w (manager s)) as Eh. revert Eu Ed' Eh. generalize (detach w (manager s)). intros m' Eu Ed' Eh.
    unfold owners in *. simpl in *. split; unfold owners; simpl; rewrite ?Eh, ?Eu, ?Ed'; try done; auto.
    + intros Hd. by destruct (H8 Hd).
    + intros -> _. by rewrite bool_decide_true.
    + intros Hc Hn. by rewrite bool_decide_false in Hc.
  - intros v Hv. rewrite held_detach, due_detach. simpl. rewrite detaching_app. simpl.
    destruct (Nat.eqb_spec w v); [congruence|lia].
Qed.

Lemma exit_good w s s' : good s -> exit w s = Some s' -> good s'.
Proof.
  intros Hg E. pose proof Hg as [G1 G2]. unfold exit in E.
  destruct (workers s !! w) as [[c [] j d e]|] eqn:Hx; [done| |done..]. injection E as <-.
  apply (self_good s w _ _ Hg Hx). destruct (G1 _ _ Hx) as [H1 H2 H3 H4 H5 H6 H7 H8 H9 H10 H11].
  unfold owners in *. simpl in *. split; unfold owners; simpl; auto; try done.
  intros Hd. by destruct (H8 Hd).
Qed.

Lemma manager_turn_good s s' : good s -> manager_turn s = Some s' -> good s'.
Proof.
  intros Hg E. pose proof Hg as [G1 G2]. unfold manager_turn in E.
  destruct (busy s); [done|]. destruct (QueueManager.step (manager s)) as [m|] eqn:Em; [|done]. injection E as <-.
  split; simpl.
  - intros w y Hy. rewrite list_lookup_imap in Hy. destruct (workers s !! w) as [x|] eqn:Hx; [|done]. injection Hy as <-.
    destruct (G1 _ _ Hx) as [H1 H2 H3 H4 H5 H6 H7 H8 H9 H10 H11]. pose proof (due_step w _ _ Em) as Eu.
    unfold owners in *.
    destruct (manager_step w _ _ Em) as [[Eh Ed]|[Eh Ed]]; apply last_reference_good; unfold owners; rewrite ?Eh, ?Ed.
    + intros j' _ Hj Hd. split; unfold owners; simpl; rewrite ?Eu, ?Eh, ?Ed; try done.
      intros Hd'. split; [by apply Hd|by apply H8].
    + by intros ?%H7.
    + by intros [? _]%H8.
    + assert (Hr : m_thread x <> Running) by (intros Hr; destruct (H4 Hr); lia).
      intros j' _ Hj Hd. split; unfold owners; simpl; rewrite ?Eu; try done; try lia.
      * intros Hc. specialize (H1 Hc). lia.
      * intros Hd'. split; [by apply Hd|by apply H8].
    + intros Hj%H7. lia.
    + by intros [? _]%H8.
  - intros w. rewrite length_imap. intros Hw. destruct (G2 w Hw) as [E1 E2].
    destruct (manager_step w _ _ Em) as [[-> ->]|[? ?]]; [done|lia].
Qed.

Lemma join_good w s s' : good s -> join w s = Some s' -> good s'.
Proof.
  intros Hg E. pose proof Hg as [G1 G2]. unfold join in E.
  destruct (workers s !! w) as [[c [] [a|] [] e]|] eqn:Hx; try done. injection E as <-.
  apply (self_good s w _ _ Hg Hx). destruct (G1 _ _ Hx) as [H1 H2 H3 H4 H5 H6 H7 H8 H9 H10 H11].
  by split.
Qed.

Lemma worker_act_good e s s' : good s -> act e s = Some s' -> good s'.
Proof.
  intros Hg. destruct e; simpl; [by apply spawn_good|by apply attach_thread_good|by apply leave_good|
    by apply finish_good|by apply exit_good|by apply manager_turn_good|by apply join_good].
Qed.

Lemma workers_good s : rtc step init s -> good s.
Proof.
  intros H. pattern s. revert s H. apply rtc_ind_r; [split; [by intros w x|by intros w _]|].
  intros s1 s2 _ [e E] Hg. by eapply worker_act_good.
Qed.

(** ** What is left to happen *)
Definition weight (x : worker) : nat :=
  match thread_ x with Made => 3 | Attached => 1 | Left => 0 end +
  match m_thread x with Running => 3 | Detached => 1 | Exited => 0 end + (if destroyed x then 0 else 1).
Definition work (s : state) : nat := sum_list_with weight (workers s) + length (QueueManager.m_thread (manager s)).

Lemma weight_insert l w x y :
  l !! w = Some x -> sum_list_with weight (<[w := y]> l) + weight x = sum_list_with weight l + weight y.
Proof.
  revert w. induction l as [|z l IH]; intros [|w] E; simpl in *; [done|done|injection E as ->; lia|].
  specialize (IH w E). lia.
Qed.
Lemma weight_imap g l : (forall i x, weight (g i x) = weight x) -> sum_list_with weight (imap g l) = sum_list_with weight l.
Proof.
  revert g. induction l as [|x l IH]; intros g Hg; simpl; [done|]. rewrite Hg. f_equal. apply IH. intros i y. apply Hg.
Qed.
Lemma last_owner_weight a w m x : weight (last_owner a w m x) = weight x.
Proof. unfold last_owner. by destruct (Nat.eqb _ 0). Qed.

Lemma act_work e s s' : e <> Spawn -> act e s = Some s' -> work s' < work s.
Proof.
  intros Hn E. unfold work. destruct e as [|w|w|w|w| |w]; simpl in E; [done|..];
    unfold spawn, attach_thread, leave, finish, exit, manager_turn, join in E.
  5: { destruct (busy s); [done|]. unfold QueueManager.step in E.
    destruct (QueueManager.m_thread (manager s)) as [|r l]; [done|]. injection E as <-. simpl.
    rewrite weight_imap by (intros; apply last_owner_weight). lia. }
  all: match type of E with context [?l !! ?v] =>
      destruct (l !! v) as [[c t j d b]|] eqn:Hx; [|done];
      repeat case_match; try done; injection E as <-; simpl; rewrite ?length_app;
      match goal with |- context [<[v := ?y]> _] => pose proof (weight_insert _ _ _ y Hx) as Hw end
    end; rewrite ?last_owner_weight in Hw; unfold weight in Hw at 2 4; simpl in *; lia.
Qed.

(** C13: Whoever is last to own a worker, its thread has asked the manager to let go of it by
    then, so that ~worker() waits for the end of run() only; that end is at hand, so
    that the manager is never held up; the worker is destroyed once, after its thread,
    and no request for its address is left. *)
Theorem worker_joins_its_thread s w x a :
  rtc step init s -> workers s !! w = Some x -> joining x = Some a ->
  held w (manager s) = 0 /\ thread_ x = Left /\ m_thread x <> Running /\ early x = false /\
  detaching w (QueueManager.m_thread (manager s)) = 0 /\
  (if destroyed x then m_thread x = Exited else act (Exit w) s <> None \/ act (Join w) s <> None).
Proof.
  intros Hr Hx Hj. destruct (good_worker _ (workers_good _ Hr) w x Hx) as [H1 H2 H3 H4 H5 H6 H7 H8 H9 H10 H11].
  assert (Ho : owners w x (manager s) = 0) by (apply H7; by rewrite Hj). unfold owners in Ho.
  unfold act, exit, join. rewrite Hx. clear Hx. destruct x as [c t j d e]. simpl in *. subst j.
  assert (c = Left /\ held w (manager s) = 0) as [-> Hh] by (destruct c; [lia|lia|by split]).
  assert (HL : Left <> Made) by done.
  assert (Ht : t <> Running) by (intros ->; specialize (H3 eq_refl HL); lia).
  split_and!; [done|done|done| | |].
  - destruct e; [|done]. specialize (H11 eq_refl HL). rewrite due_none in H11 by done. lia.
  - destruct (detaching w (QueueManager.m_thread (manager s))); [done|]. specialize (H6 ltac:(lia) HL). lia.
  - destruct d; [by apply H8|]. destruct t; [done|by left|by right].
Qed.

(** C12: Unless another worker is made only so much can happen; and when nothing can, all
    threads have ended, and every worker has been destroyed but for those whose thread had
    ended before schedule() called attach(): these the manager keeps for ever. *)
Theorem workers_settle s :
  rtc step init s ->
  (forall e s', e <> Spawn -> act e s = Some s' -> work s' < work s) /\
  ((forall e, e <> Spawn -> act e s = None) ->
   QueueManager.m_thread (manager s) = [] /\
   forall w x, workers s !! w = Some x ->
     m_thread x = Exited /\ destroyed x = negb (early x) /\ count w (m_queues (manager s)) = (if early x then 1 else 0)).
Proof.
  intros Hr. pose proof (workers_good _ Hr) as Hg. split; [intros e s'; apply act_work|]. intros Hq.
  assert (Hx : forall w x, workers s !! w = Some x ->
    thread_ x = Left /\ m_thread x = Exited /\ (joining x <> None -> destroyed x = true)).
  { intros w x Hx. pose proof (Hq (Attach_ w) ltac:(done)) as E1. pose proof (Hq (Leave w) ltac:(done)) as E2.
    pose proof (Hq (Finish w) ltac:(done)) as E3. pose proof (Hq (Exit w) ltac:(done)) as E4.
    pose proof (Hq (Join w) ltac:(done)) as E5. simpl in *. unfold spawn, attach_thread, leave, finish, exit, manager_turn, join in *. rewrite Hx in *.
    destruct x as [[] [] [] [] e]; simpl; try done. }
  assert (Hb : busy s = false).
  { unfold busy. apply not_true_is_false. intros Hb. apply existsb_exists in Hb as (x & Hin & Hb).
    apply list_elem_of_In, list_elem_of_lookup in Hin as [w Hw]. destruct (Hx w x Hw) as (_ & _ & Hd).
    apply andb_true_iff in Hb as [Hb1 Hb2]. apply bool_decide_eq_true in Hb1. rewrite Hd in Hb2; [done|by rewrite Hb1]. }
  pose proof (Hq ManagerTurn ltac:(done)) as Em. simpl in Em. unfold manager_turn in Em. rewrite Hb in Em. unfold QueueManager.step in Em.
  destruct (QueueManager.m_thread (manager s)) as [|r l] eqn:El; [|done]. split; [done|].
  intros w x Hw. destruct (Hx w x Hw) as (E1 & E2 & E3). split; [done|].
  destruct (good_worker _ Hg w x Hw) as [H1 H2 H3 H4 H5 H6 H7 H8 H9 H10 H11].
  unfold owners, held, due in *. rewrite E1, El in *. simpl in *. rewrite Nat.add_0_r in *.
  destruct (early x) eqn:Ee; simpl.
  - rewrite H11 by done. split; [|done]. destruct (destroyed x) eqn:Ed; [|done].
    destruct (H8 eq_refl) as [Hj _]. apply H7 in Hj. rewrite H11 in Hj; done.
  - rewrite H10 by (done || congruence). split; [|done]. apply E3, H7, H10; [congruence|done].
Qed.

(** One worker that lives as it should, and one that has ended too early. *)
Definition lives : list event :=
  [Spawn; Attach_ 0; Spawn; Finish 1; Leave 0; Attach_ 1; ManagerTurn; ManagerTurn; Leave 1; Exit 1; ManagerTurn;
   Finish 0; ManagerTurn; Exit 0].
Definition lived : state := default init (acts lives init).
Lemma acts_reach l : forall s, rtc step init s -> rtc step init (default s (acts l s)).
Proof.
  induction l as [|e l IH]; intros s Hs; simpl; [done|]. destruct (act e s) as [s'|] eqn:E; [|done].
  specialize (IH s' (rtc_r _ _ _ Hs (ex_intro _ e E))). by destruct (acts l s').
Qed.

(** The first worker: its thread has ended, ~worker() of the manager waits for it no longer. *)
Lemma worker_joins_its_thread_witness :
  exists x, workers lived !! 0 = Some x /\ joining x = Some Manager /\ held 0 (manager lived) = 0 /\
    (act (Exit 0) lived <> None \/ act (Join 0) lived <> None).
Proof.
  destruct (worker_joins_its_thread lived 0 (Worker Left Exited (Some Manager) false false) Manager) as (H1 & _ & _ & _ & _ & H2).
  - apply acts_reach, rtc_refl.
  - vm_compute. reflexivity.
  - reflexivity.
  - eexists. split; [vm_compute; reflexivity|]. by split_and!.
Defined.

(** Afterwards nothing is left; the second worker had ended before it was attached. *)
Lemma workers_settle_witness :
  let s := default init (acts (lives ++ [Join 0]) init) in
  map destroyed (workers s) = [true; false] /\ m_queues (manager s) = [1] /\
  forall w x, workers s !! w = Some x -> destroyed x = negb (early x).
Proof.
  split; [vm_compute; reflexivity|]. split; [vm_compute; reflexivity|].
  destruct (workers_settle (default init (acts (lives ++ [Join 0]) init))) as [_ H].
  - apply acts_reach, rtc_refl.
  - destruct H as [_ H].
    + intros [|w|w|w|w| |w] Hn; try done; do 2 (destruct w as [|w]; [vm_compute; reflexivity|]); by destruct w.
    + intros w x Hx. by apply (H w x Hx).
Defined.
End WorkerLifetime.
