(* ===== verification/QtThread.v ===== *)
(** * QtThread: a QThread as the pool of serial queues

    ThreadProxy and ExecuteOperationEvent of src/qt5/qt5_serial_queue.cpp: an operation is
    posted to the proxy as an event, and the event loop of the thread the proxy was moved
    to executes it.  The event loop is Qt; what is used of it is a class. *)
From S2P Require Import Prelude Conc.

Module QtThread.

Section events.
Context {operation : Type}.

(** A QEvent that is not an ExecuteOperationEvent has no m_work. *)
Record event := Event { type : Z; m_work : option operation }.

(** The events posted to one receiver: postEvent() adds one behind those of its priority,
    the loop of the thread takes the first, and destroying the receiver removes all. *)
Class event_loop (L : Type) := {
  posted : L -> list event;
  postEvent : event -> L -> L;
  next_event : L -> option (event * L);
  removePostedEvents : L -> L
}.
Class event_loop_laws (L : Type) `{event_loop L} : Prop := {
  posted_post e l : posted (postEvent e l) = posted l ++ [e];
  posted_next e l l' : next_event l = Some (e, l') -> posted l = e :: posted l';
  posted_none l : next_event l = None -> posted l = [];
  posted_removed l : posted (removePostedEvents l) = []
}.

(** ExecuteOperationEvent::Type(): registered when it is first asked for. *)
Section type.
Context {R : Type} (registerEventType : R -> Z * R).
Definition Type_of (sType : option Z) (r : R) : Z * option Z * R :=
  match sType with
  | Some t => (t, sType, r)
  | None => let (t, r') := registerEventType r in (t, Some t, r')
  end.
Lemma type_once sType r : forall t s' r', Type_of sType r = (t, s', r') -> forall r2, Type_of s' r2 = (t, s', r2).
Proof. unfold Type_of. intros t s' r'. destruct sType; [|destruct (registerEventType r)]; intros [= <- <- <-]; done. Qed.
End type.

Context (Type_ : Z) {L : Type} `{event_loop L}.
Definition ExecuteOperationEvent (work : operation) : event := Event Type_ (Some work).

(** A ThreadProxy: the events of its thread that are for it, and, as logs, what it was
    given and what has been executed. *)
Record thread_proxy := Proxy { events : L; given : list operation; executed : list operation }.

(** The constructor. *)
Definition make_thread_proxy (m_thread : option L) : fault + thread_proxy :=
  match m_thread with Some l => inr (Proxy l [] []) | None => inl Terminated end.
Definition execute (work : operation) (p : thread_proxy) : thread_proxy :=
  Proxy (postEvent (ExecuteOperationEvent work) (events p)) (given p ++ [work]) (executed p).
(** An event that does have the type is cast. *)
Definition customEvent (e : event) (p : thread_proxy) : fault + thread_proxy :=
  if Z.eqb Type_ (type e)
  then match m_work e with
       | Some work => inr (Proxy (events p) (given p) (executed p ++ [work]))
       | None => inl Undefined
       end
  else inr p.
(** A turn of the event loop. *)
Definition turn (p : thread_proxy) : fault + thread_proxy :=
  match next_event (events p) with
  | Some (e, l) => customEvent e (Proxy l (given p) (executed p))
  | None => inr p
  end.
(** ~ThreadProxy is ~QObject. *)
Definition destroy (p : thread_proxy) : thread_proxy :=
  Proxy (removePostedEvents (events p)) (given p) (executed p).

Inductive call := Execute (work : operation) | Foreign (t : Z) | Turn.
Definition run_call (c : call) (p : thread_proxy) : fault + thread_proxy :=
  match c with
  | Execute work => inr (execute work p)
  | Foreign t => inr (Proxy (postEvent (Event t None) (events p)) (given p) (executed p))
  | Turn => turn p
  end.
Fixpoint run (cs : list call) (p : thread_proxy) : fault + thread_proxy :=
  match cs with
  | [] => inr p
  | c :: cs => match run_call c p with inl f => inl f | inr p => run cs p end
  end.
Definition work_of (c : call) : list operation := match c with Execute work => [work] | _ => [] end.

(** ** First in, first out *)
Context `{!event_loop_laws L}.

Definition own (e : event) : Prop := if Z.eqb Type_ (type e) then m_work e <> None else m_work e = None.
Record good (p : thread_proxy) : Prop := {
  g_own : Forall own (posted (events p));
  g_given : given p = executed p ++ omap m_work (posted (events p))
}.

Lemma turn_good p : good p ->
  exists p', turn p = inr p' /\ good p' /\ given p' = given p /\ pred (length (posted (events p))) = length (posted (events p')).
Proof.
  intros [Ho Hg]. unfold turn. destruct (next_event (events p)) as [[e l]|] eqn:E.
  - apply posted_next in E. rewrite E in Ho, Hg |- *. apply Forall_cons_1 in Ho as [He Ho].
    unfold customEvent, own in *. destruct (Z.eqb Type_ (type e)).
    + destruct (m_work e) as [work|] eqn:Ew; [|done]. eexists. split; [done|]. split; [|done].
      split; simpl; [done|]. rewrite Hg. simpl. rewrite Ew. by rewrite <- app_assoc.
    + eexists. split; [done|]. split; [|done]. split; simpl; [done|]. rewrite Hg. simpl. by rewrite He.
  - exists p. split; [done|]. split; [done|]. split; [done|]. by rewrite (posted_none _ E).
Qed.

Definition foreign (c : call) : Prop := match c with Foreign t => t <> Type_ | _ => True end.
Lemma call_good c p : foreign c -> good p ->
  exists p', run_call c p = inr p' /\ good p' /\ given p' = given p ++ work_of c.
Proof.
  intros Hc Hg. destruct c as [work|t|]; simpl.
  - destruct Hg as [Ho Hg]. eexists. split; [done|]. split; [|done]. split; simpl; rewrite posted_post.
    + apply Forall_app. split; [done|]. constructor; [|done]. unfold own. simpl. by rewrite Z.eqb_refl.
    + by rewrite Hg, omap_app, app_assoc.
  - destruct Hg as [Ho Hg]. eexists. split; [done|]. split; [|simpl; by rewrite app_nil_r].
    split; simpl; rewrite posted_post.
    + apply Forall_app. split; [done|]. constructor; [|done]. unfold own. simpl.
      destruct (Z.eqb_spec Type_ t); [by destruct Hc|done].
    + by rewrite omap_app, app_nil_r.
  - destruct (turn_good p Hg) as (p' & E & Hg' & Eg & _). exists p'. by rewrite app_nil_r.
Qed.

(** The thread as a pool: whatever is posted to the proxy, no event is taken for one it
    is not, what was given is executed in that order, once, and what has not been is
    posted; that is what is lost when the proxy is destroyed. *)
Theorem thread_proxy_fifo cs : forall p, Forall foreign cs -> good p ->
  exists p', run cs p = inr p' /\ good p' /\ given p' = given p ++ concat (map work_of cs).
Proof.
  induction cs as [|c cs IH]; intros p Hcs Hg; simpl; [exists p; by rewrite app_nil_r|].
  apply Forall_cons_1 in Hcs as [Hc Hcs]. destruct (call_good c p Hc Hg) as (p1 & -> & Hg1 & E1).
  destruct (IH p1 Hcs Hg1) as (p' & -> & Hg' & E'). exists p'. by rewrite E', E1, app_assoc.
Qed.

(** ... and as many turns as there are events execute all of it. *)
Theorem thread_proxy_drains n : forall p, good p -> length (posted (events p)) <= n ->
  exists p', run (replicate n Turn) p = inr p' /\ executed p' = given p.
Proof.
  induction n as [|n IH]; intros p Hg Hn.
  - exists p. split; [done|]. rewrite (g_given _ Hg). destruct (posted (events p)); [by rewrite app_nil_r|simpl in Hn; lia].
  - destruct (turn_good p Hg) as (p1 & E1 & Hg1 & Eg & El). simpl. rewrite E1. rewrite <- Eg. apply IH; [done|lia].
Qed.

Lemma destroy_loses p : good p -> posted (events p) = [] -> executed (destroy p) = given (destroy p).
Proof. intros [_ Hg] E. simpl. by rewrite Hg, E, app_nil_r. Qed.
End events.
Arguments event : clear implicits.

(** Any list is such a loop. *)
#[export] Instance list_loop (operation : Type) : @event_loop operation (list (event operation)) := {
  posted l := l;
  postEvent e l := l ++ [e];
  next_event l := match l with e :: l => Some (e, l) | [] => None end;
  removePostedEvents _ := []
}.
#[export] Instance list_loop_laws (operation : Type) : event_loop_laws (list (event operation)).
Proof. split; try done; [intros e [|x l] l' E; simpl in *; by simplify_eq|by intros [|]]. Qed.
End QtThread.
