(* ===== verification/Decl.v ===== *)
(** * Decl: include/xdispatch/dispatch_decl.h, include/xdispatch/impl/ibackend.h

    The enumerations every part of the program shares. *)
From S2P Require Import Prelude.

Inductive queue_priority :=
  DEFAULT | USER_INTERACTIVE | USER_INITIATED | UTILITY | BACKGROUND.

#[export] Instance queue_priority_eq : EqDecision queue_priority.
Proof. solve_decision. Defined.

(** backend_type; an enumerator exists when its backend is built. *)
Inductive backend_type := naive | qt5 | libdispatch.

#[export] Instance backend_type_eq : EqDecision backend_type.
Proof. solve_decision. Defined.

(** Durations, as counts of the unit in the second part of the name. *)
Definition nsec_per_sec : Z := 1 * 10 ^ 9.
Definition nsec_per_msec : Z := 1 * 10 ^ 6.
Definition nsec_per_usec : Z := 1 * 10 ^ 3.
Definition usec_per_sec : Z := 1 * 10 ^ 6.
