(* ===== verification/ThreadUtils.v ===== *)
(** * ThreadUtils: src/thread_utils.cpp, src/trace_utils.cpp

    How many threads the library uses and what it asks the system for: the
    environment variables, the number of processors, and the priorities of
    threads.  The environment and the answers of the system are parameters. *)
From stdpp Require Import strings pretty.
From Stdlib Require Import Ascii.
From S2P Require Import Prelude Conc Decl.

Module ThreadUtils.
Local Open Scope Z_scope.

(** ** std::atoi *)
Definition is_space (c : ascii) : bool :=
  let n := N.to_nat (N_of_ascii c) in Nat.eqb n 32 || (Nat.leb 9 n && Nat.leb n 13).
Definition digit (c : ascii) : option Z :=
  let n := Z.of_N (N_of_ascii c) in if (48 <=? n) && (n <=? 57) then Some (n - 48) else None.
Fixpoint digits (acc : Z) (s : string) : Z :=
  match s with
  | EmptyString => acc
  | String c s => match digit c with Some d => digits (10 * acc + d) s | None => acc end
  end.
Fixpoint skip_space (s : string) : string :=
  match s with String c s' => if is_space c then skip_space s' else s | EmptyString => s end.
(** [None] is a number that is no int, for which atoi is undefined. *)
Definition atoi (s : string) : option Z :=
  let n := match skip_space s with
           | String "-"%char s => - digits 0 s
           | String "+"%char s => digits 0 s
           | s => digits 0 s
           end in
  if (- 2 ^ 31 <=? n) && (n <? 2 ^ 31) then Some n else None.

(** ** trace_utils *)
Definition is_env_enabled (value : option string) : fault + bool :=
  match value with
  | None => inr false
  | Some v => match atoi v with Some n => inr (n =? 1) | None => inl Undefined end
  end.
(** Each of the two is kept in a static from the first call on. *)
Definition is_trace_enabled (cached : option bool) (value : option string) : fault + bool :=
  match cached with Some b => inr b | None => is_env_enabled value end.
Definition is_debug_enabled (DEBUG : bool) (cached : option bool) (value : option string) : fault + bool :=
  if DEBUG then inr true else is_trace_enabled cached value.

(** ** The system, as far as the build knows it *)
Record system := System {
  SYSCONF : option Z;            (* sysconf(_SC_NPROCESSORS_ONLN) *)
  SYSCTL : option (Z * Z);       (* what sysctl() returns, and the number of processors it writes *)
  SYSTEM_INFO : option Z;        (* GetSystemInfo: dwNumberOfProcessors *)
  SET_QOS : bool;
  SETPRIORITY : bool;
  nice_base : Z                  (* getpriority(PRIO_PROCESS, 0) *)
}.

(** sOverrideCount *)
Definition override_count (value : option string) : fault + Z :=
  match value with
  | Some v => match atoi v with Some threads => inr threads | None => inl Undefined end
  | None => inr 0
  end.
Definition system_info_count (s : system) : Z :=
  match SYSTEM_INFO s with Some n => if 0 <? n then wrap_u64 n else 2 | None => 2 end.
Definition system_thread_count (value : option string) (s : system) : fault + Z :=
  match override_count value with
  | inl e => inl e
  | inr n =>
      inr (if 0 <? n then wrap_u64 n
           else match SYSCONF s, SYSCTL s with
                | Some nprocessors, _ => if nprocessors <? 0 then system_info_count s else wrap_u64 nprocessors
                | None, Some (r, value) => if r =? -1 then system_info_count s else wrap_u64 value
                | None, None => system_info_count s
                end)
  end.
(** m_max_threads of a new threadpool *)
Definition max_threads (value : option string) (s : system) : fault + Z :=
  match system_thread_count value s with inr n => inr (wrap_s32 (wrap_u64 (2 * n))) | inl e => inl e end.

(** ** Priorities *)
Inductive native_priority :=
| QOS_CLASS_USER_INTERACTIVE | QOS_CLASS_USER_INITIATED | QOS_CLASS_DEFAULT
| QOS_CLASS_UTILITY | QOS_CLASS_BACKGROUND
| DISPATCH_QUEUE_PRIORITY_HIGH | DISPATCH_QUEUE_PRIORITY_DEFAULT
| DISPATCH_QUEUE_PRIORITY_LOW | DISPATCH_QUEUE_PRIORITY_BACKGROUND.

Definition map_priority_to_qos (priority : queue_priority) : native_priority :=
  match priority with
  | USER_INTERACTIVE => QOS_CLASS_USER_INTERACTIVE
  | USER_INITIATED => QOS_CLASS_USER_INITIATED
  | UTILITY => QOS_CLASS_UTILITY
  | DEFAULT => QOS_CLASS_DEFAULT
  | BACKGROUND => QOS_CLASS_BACKGROUND
  end.
Definition map_priority_to_nice (s : system) (priority : queue_priority) : Z :=
  match priority with
  | USER_INTERACTIVE | USER_INITIATED | DEFAULT => nice_base s
  | UTILITY => nice_base s + 1
  | BACKGROUND => nice_base s + 2
  end.
Inductive priority_call := Pthread_set_qos (qos : native_priority) | Setpriority (nicety : Z) | Nothing.
Definition set_current_thread_priority (s : system) (priority : queue_priority) : priority_call :=
  if SET_QOS s then Pthread_set_qos (map_priority_to_qos priority)
  else if SETPRIORITY s then Setpriority (map_priority_to_nice s priority)
  else Nothing.

(** ** Reading numbers back *)
Lemma digit_pretty n : (n < 10)%N -> digit (pretty_N_char n) = Some (Z.of_N n).
Proof.
  intros H. assert (E : n = N.of_nat (N.to_nat n)) by lia.
  assert (Hn : (N.to_nat n < 10)%nat) by lia. rewrite E. clear E H. revert Hn. generalize (N.to_nat n) as k. intros k Hn.
  do 10 (destruct k as [|k]; [reflexivity|]). lia.
Qed.

Lemma digits_pretty_go x : forall s, digits 0 (pretty_N_go x s) = digits (Z.of_N x) s.
Proof.
  induction (N.lt_wf_0 x) as [x _ IH]. intros s. destruct (decide (x = 0)%N) as [-> |Hx]; [by rewrite pretty_N_go_0|].
  rewrite pretty_N_go_step by lia. rewrite IH by (apply N.div_lt; lia). simpl.
  rewrite digit_pretty by (apply N.mod_lt; lia). f_equal.
  rewrite N2Z.inj_div, N2Z.inj_mod. pose proof (Z.div_mod (Z.of_N x) 10). lia.
Qed.

Lemma pretty_head x s : (x <> 0)%N -> exists n s', (n < 10)%N /\ pretty_N_go x s = String (pretty_N_char n) s'.
Proof.
  revert s. induction (N.lt_wf_0 x) as [x _ IH]. intros s Hx. rewrite pretty_N_go_step by lia.
  destruct (decide (x / 10 = 0)%N) as [E|E].
  - rewrite E, pretty_N_go_0. eexists _, _. split; [|reflexivity]. apply N.mod_lt. lia.
  - apply IH; [apply N.div_lt; lia|done].
Qed.

Lemma pretty_char_plain n : (n < 10)%N ->
  is_space (pretty_N_char n) = false /\ pretty_N_char n <> "-"%char /\ pretty_N_char n <> "+"%char.
Proof.
  intros H. assert (E : n = N.of_nat (N.to_nat n)) by lia.
  assert (Hn : (N.to_nat n < 10)%nat) by lia. rewrite E. clear E H. revert Hn. generalize (N.to_nat n) as k. intros k Hn.
  do 10 (destruct k as [|k]; [by vm_compute|]). lia.
Qed.

Lemma atoi_pretty x : (x < 2 ^ 31)%N -> atoi (pretty x) = Some (Z.of_N x).
Proof.
  intros H. destruct (decide (x = 0)%N) as [-> |Hx]; [reflexivity|].
  assert (E : pretty x = pretty_N_go x "").
  { unfold pretty, pretty_N. by rewrite decide_False. }
  rewrite E. destruct (pretty_head x "" Hx) as (n & s' & Hn & Es).
  pose proof (pretty_char_plain n Hn) as (H1 & H2 & H3).
  assert (Ek : skip_space (pretty_N_go x "") = pretty_N_go x "") by (rewrite Es; simpl; by rewrite H1).
  unfold atoi. rewrite Ek.
  assert (Eg : match pretty_N_go x "" with String "-"%char s => - digits 0 s | String "+"%char s => digits 0 s | s => digits 0 s end =
    Z.of_N x).
  { rewrite Es. transitivity (digits 0 (pretty_N_go x "")); [|by rewrite digits_pretty_go].
    rewrite Es. destruct (pretty_N_char n) as [[] [] [] [] [] [] [] []]; try reflexivity; done. }
  rewrite Eg.
  destruct (Z.leb_spec (- 2 ^ 31) (Z.of_N x)); [|lia]. destruct (Z.ltb_spec (Z.of_N x) (2 ^ 31)); [done|lia].
Qed.

Lemma limit_small z : 0 <= z < 2 ^ 31 -> wrap_s32 (wrap_u64 z) = z.
Proof. intros H. by rewrite wrap_u64_id, wrap_s32_id by lia. Qed.
Lemma limit_large z : 2 ^ 31 <= z < 2 ^ 32 -> wrap_s32 (wrap_u64 z) = z - 2 ^ 32.
Proof.
  intros H. rewrite wrap_u64_id by lia. unfold wrap_s32, wrap_signed.
  enough (E : (z + 2 ^ (32 - 1)) mod 2 ^ 32 = z - 2 ^ 31) by lia. symmetry. apply (Z.mod_unique _ _ 1); lia.
Qed.

(** A number of threads written into XDISPATCH2_THREAD_COUNT is the number the library
    uses, whatever the system says, for every number an int holds; 0 leaves it to
    the system.  The thread pool doubles it: up to 2^30 - 1 its limit is twice the
    number, from 2^30 on the doubled number is no int any more, the limit is
    negative and the pool never starts a thread. *)
Theorem thread_count_roundtrip n s :
  (0 < n < 2 ^ 31)%N ->
  system_thread_count (Some (pretty n)) s = inr (Z.of_N n) /\
  system_thread_count (Some (pretty 0%N)) s = system_thread_count None s /\
  (if decide (n < 2 ^ 30)%N
   then max_threads (Some (pretty n)) s = inr (2 * Z.of_N n)
   else exists m, max_threads (Some (pretty n)) s = inr m /\ m = 2 * Z.of_N n - 2 ^ 32 /\ m < 0).
Proof.
  intros H. assert (E : system_thread_count (Some (pretty n)) s = inr (Z.of_N n)).
  { unfold system_thread_count, override_count. rewrite atoi_pretty by lia.
    destruct (Z.ltb_spec 0 (Z.of_N n)); [|lia]. by rewrite wrap_u64_id by lia. }
  split; [done|]. split; [by unfold system_thread_count, override_count; rewrite atoi_pretty by lia|].
  unfold max_threads. rewrite E. destruct (decide _).
  - rewrite limit_small by lia. done.
  - eexists. rewrite limit_large by lia. split; [reflexivity|]. lia.
Qed.

Lemma thread_count_roundtrip_witness : max_threads (Some "1073741824") (System (Some 8) None None false true 0) = inr (- 2 ^ 31).
Proof.
  destruct (thread_count_roundtrip 1073741824 (System (Some 8) None None false true 0) ltac:(lia)) as (_ & _ & H).
  simpl in H. destruct H as (m & H & -> & _). exact H.
Defined.

(** Without a number in the environment the library takes what the system says; where
    nothing is known it takes two threads, where the documentation says four. *)
Theorem thread_count_of_system nprocessors s :
  0 <= nprocessors < 2 ^ 30 -> SYSCONF s = Some nprocessors ->
  system_thread_count None s = inr nprocessors /\ max_threads None s = inr (2 * nprocessors) /\
  system_thread_count None (System None None None (SET_QOS s) (SETPRIORITY s) (nice_base s)) = inr 2.
Proof.
  intros H E. unfold max_threads, system_thread_count. simpl. rewrite E.
  destruct (Z.ltb_spec nprocessors 0); [lia|].
  assert (Es : wrap_u64 nprocessors = nprocessors) by (by rewrite wrap_u64_id by lia).
  rewrite Es, limit_small by lia. done.
Qed.

Lemma thread_count_of_system_witness : system_thread_count None (System (Some 8) None None false true 0) = inr 8.
Proof. apply (thread_count_of_system 8); [lia|reflexivity]. Defined.
End ThreadUtils.
