(* ===== verification/ThreadPool.v ===== *)
(** * ThreadPool: src/naive/naive_threadpool.cpp, naive_threadpool.h

    The pool of the naive backend: four buckets of operations, a semaphore that
    counts them, and workers that are spawned on demand and end when they have
    been idle for long. *)
From S2P Require Import Prelude Conc Decl.

Module Pool.

(** An operation: its identity, and what it hands to the same pool. *)
Inductive op := Op (op_id : nat) (spawns : list (op * queue_priority)).
Definition op_id (j : op) : nat := match j with Op i _ => i end.
Definition spawns (j : op) : list (op * queue_priority) := match j with Op _ l => l end.

Definition bucket_USER_INTERACTIVE : nat := 0.
Definition bucket_USER_INITIATED : nat := 1.
Definition bucket_UTILITY : nat := 2.
Definition bucket_BACKGROUND : nat := 3.
Definition bucket_count : nat := 4.

(** The switch of execute(). *)
Definition bucket_of (priority : queue_priority) : nat :=
  match priority with
  | USER_INTERACTIVE => bucket_USER_INTERACTIVE
  | USER_INITIATED => bucket_USER_INITIATED
  | UTILITY | DEFAULT => bucket_UTILITY
  | BACKGROUND => bucket_BACKGROUND
  end.

(** Auxiliary state the code never reads, one record per thread: what a worker
    is doing, how often it has been counted in and has counted itself out of
    m_active_threads and m_idle_threads; for a thread inside execute() whether it
    has enqueued and not released, whether it has released (or will be blocked) and not
    made sure of a worker, and the worker it has still to count; the number of
    threads it has seen in m_active_threads, and whether a worker has ended since: that
    is only when there was nothing to do. *)
Inductive phase := Unborn | Live | Token | Gone.
#[export] Instance phase_eq : EqDecision phase.
Proof. solve_decision. Defined.
Record auxiliary := Aux {
  wk : phase;
  counted : Z;
  left : Z;
  idling : Z;
  enqueued : bool;
  debt : bool;
  counting : option nat;
  blocking : Z;
  seen : option Z;
  stale : bool
}.
Definition aux0 : auxiliary := Aux Unborn 0 0 0 false false None 0 None false.

Inductive event := Submitted (i : nat) | Taken (t i : nat) | Finished (t i : nat) | Exited (t : nat).

(** threadpool::data.  The semaphore is the atomic counter its interface
    describes (its implementation is in Semaphore); a concurrentqueue is a bag
    that may hand out any of its elements.  [next] is the first thread slot
    that has not become a worker yet; [current] is the thread_local pointer to
    the pool. *)
Record data := Data {
  m_operations_counter : Z;
  m_max_threads : Z;
  m_active_threads : Z;
  m_idle_threads : Z;
  m_operations : nat -> list op;
  m_cancelled : bool;
  next : nat;
  current : nat -> bool;
  aux : nat -> auxiliary;
  log : list event
}.

Definition with_counter (n : Z) (d : data) : data :=
  Data n (m_max_threads d) (m_active_threads d) (m_idle_threads d) (m_operations d)
       (m_cancelled d) (next d) (current d) (aux d) (log d).
Definition with_max (n : Z) (d : data) : data :=
  Data (m_operations_counter d) n (m_active_threads d) (m_idle_threads d) (m_operations d)
       (m_cancelled d) (next d) (current d) (aux d) (log d).
Definition with_active (n : Z) (d : data) : data :=
  Data (m_operations_counter d) (m_max_threads d) n (m_idle_threads d) (m_operations d)
       (m_cancelled d) (next d) (current d) (aux d) (log d).
Definition with_idle (n : Z) (d : data) : data :=
  Data (m_operations_counter d) (m_max_threads d) (m_active_threads d) n (m_operations d)
       (m_cancelled d) (next d) (current d) (aux d) (log d).
Definition with_operations (label : nat) (l : list op) (d : data) : data :=
  Data (m_operations_counter d) (m_max_threads d) (m_active_threads d) (m_idle_threads d)
       (<[label := l]> (m_operations d)) (m_cancelled d) (next d) (current d) (aux d) (log d).
Definition with_cancelled (d : data) : data :=
  Data (m_operations_counter d) (m_max_threads d) (m_active_threads d) (m_idle_threads d)
       (m_operations d) true (next d) (current d) (aux d) (log d).
Definition with_next (n : nat) (d : data) : data :=
  Data (m_operations_counter d) (m_max_threads d) (m_active_threads d) (m_idle_threads d)
       (m_operations d) (m_cancelled d) n (current d) (aux d) (log d).
Definition with_current (t : nat) (b : bool) (d : data) : data :=
  Data (m_operations_counter d) (m_max_threads d) (m_active_threads d) (m_idle_threads d)
       (m_operations d) (m_cancelled d) (next d) (<[t := b]> (current d)) (aux d) (log d).
Definition with_aux (t : nat) (f : auxiliary -> auxiliary) (d : data) : data :=
  Data (m_operations_counter d) (m_max_threads d) (m_active_threads d) (m_idle_threads d)
       (m_operations d) (m_cancelled d) (next d) (current d) (<[t := f (aux d t)]> (aux d)) (log d).
Definition with_log (e : event) (d : data) : data :=
  Data (m_operations_counter d) (m_max_threads d) (m_active_threads d) (m_idle_threads d)
       (m_operations d) (m_cancelled d) (next d) (current d) (aux d) (e :: log d).

Definition set_wk (p : phase) (a : auxiliary) : auxiliary :=
  Aux p (counted a) (left a) (idling a) (enqueued a) (debt a) (counting a) (blocking a) (seen a) (stale a).
Definition add_left (z : Z) (a : auxiliary) : auxiliary :=
  Aux (wk a) (counted a) (left a + z) (idling a) (enqueued a) (debt a) (counting a) (blocking a) (seen a) (stale a).
Definition add_idling (z : Z) (a : auxiliary) : auxiliary :=
  Aux (wk a) (counted a) (left a) (idling a + z) (enqueued a) (debt a) (counting a) (blocking a) (seen a) (stale a).
Definition set_enqueued (b : bool) (a : auxiliary) : auxiliary :=
  Aux (wk a) (counted a) (left a) (idling a) b (debt a) (counting a) (blocking a) (seen a) (stale a).
(** Somebody is needed; that is made sure of. *)
Definition owe (a : auxiliary) : auxiliary :=
  Aux (wk a) (counted a) (left a) (idling a) (enqueued a) true (counting a) (blocking a) None false.
Definition pay (a : auxiliary) : auxiliary :=
  Aux (wk a) (counted a) (left a) (idling a) (enqueued a) false (counting a) (blocking a) None (stale a).
Definition set_seen (z : Z) (a : auxiliary) : auxiliary :=
  Aux (wk a) (counted a) (left a) (idling a) (enqueued a) (debt a) (counting a) (blocking a) (Some z) (stale a).
Definition outdate (a : auxiliary) : auxiliary :=
  Aux (wk a) (counted a) (left a) (idling a) (enqueued a) (debt a) (counting a) (blocking a) (seen a) (stale a || debt a).
Definition set_counting (c : option nat) (a : auxiliary) : auxiliary :=
  Aux (wk a) (counted a) (left a) (idling a) (enqueued a) (debt a) c (blocking a) (seen a) (stale a).
Definition count_in (a : auxiliary) : auxiliary :=
  Aux (wk a) (counted a + 1) (left a) (idling a) (enqueued a) (debt a) (counting a) (blocking a) (seen a) (stale a).
Definition add_blocking (z : Z) (a : auxiliary) : auxiliary :=
  Aux (wk a) (counted a) (left a) (idling a) (enqueued a) (debt a) (counting a) (blocking a + z) (seen a) (stale a).
Definition outdated (d : data) : data :=
  Data (m_operations_counter d) (m_max_threads d) (m_active_threads d) (m_idle_threads d)
       (m_operations d) (m_cancelled d) (next d) (current d) (fun u => outdate (aux d u)) (log d).

Section code.
(** The number of thread slots; whether a failed assertion is reported (it always is
    in the program; without, an execution that passes them all is the same). *)
Context (slots : nat) (asserts : bool).
(** skMaxSpinsBeforeSleep *)
Context (spins : nat).

Definition check (b : bool) : prog data unit := if asserts then xassert b else Ret tt.

Definition try_acquire (t : nat) : prog data bool :=
  atomic (fun d =>
    if (0 <? m_operations_counter d)%Z
    then (with_counter (m_operations_counter d - 1) (with_aux t (set_wk Token) d), true)
    else (d, false)).

Definition spin_acquire (t : nat) : prog data bool :=
  Iter (fun n =>
    match n with
    | O => Ret (inr false)
    | S n => let! r := try_acquire t in Ret (if r : bool then inr true else inl n)
    end) spins.

(** Up to the timeout; it answers false only when there is nothing to acquire. *)
Definition wait_acquire (t : nat) : prog data bool :=
  Act (fun o d =>
    if (0 <? m_operations_counter d)%Z
    then Some (with_counter (m_operations_counter d - 1) (with_aux t (set_wk Token) d), true)
    else if Nat.eqb o o_timeout then Some (d, false) else None).

(** The last try of a worker that is about to end. *)
Definition last_try (t : nat) : prog data bool :=
  atomic (fun d =>
    if (0 <? m_operations_counter d)%Z
    then (with_counter (m_operations_counter d - 1) (with_aux t (set_wk Token) d), true)
    else (with_aux t (set_wk Gone) (outdated d), false)).

(** Waiting for work: false when the worker has to end. *)
Definition acquire (t : nat) : prog data bool :=
  let! r := try_acquire t in
  if (r : bool) then Ret true
  else
    let! r := spin_acquire t in
    if (r : bool) then Ret true
    else
      do! modify (fun d => with_idle (m_idle_threads d + 1) (with_aux t (add_idling 1) d)) in
      let! r := wait_acquire t in
      do! modify (fun d => with_idle (m_idle_threads d - 1) (with_aux t (add_idling (-1)) d)) in
      if (r : bool) then Ret true
      else
        do! modify (fun d => with_active (m_active_threads d - 1) (with_aux t (add_left 1) d)) in
        let! r := last_try t in
        if (r : bool) then
          do! modify (fun d => with_active (m_active_threads d + 1) (with_aux t (add_left (-1)) d)) in
          Ret true
        else Ret false.

(** try_dequeue: any element, or nothing when the bag is empty or by chance. *)
Definition pick (o : nat) (l : list op) : option (op * list op) :=
  let k := o mod (length l) in
  match l !! k with
  | Some j => Some (j, take k l ++ drop (S k) l)
  | None => None
  end.
Definition try_dequeue (t label : nat) : prog data (option op) :=
  Act (fun o d =>
    if Nat.eqb o o_spurious then Some (d, None)
    else match pick o (m_operations d label) with
         | Some (j, l) =>
             Some (with_log (Taken t (op_id j)) (with_aux t (set_wk Live) (with_operations label l d)), Some j)
         | None => Some (d, None)
         end).

(** for (label = 0; !m_cancelled; ++label) *)
Definition search_turn (t label : nat) : prog data (nat + option op) :=
  let! cancelled := read m_cancelled in
  if (cancelled : bool) then Ret (inr None)
  else
    let label := if Nat.eqb label bucket_count then 0 else label in
    let! found := try_dequeue t label in
    Ret (match found with Some j => inr (Some j) | None => inl (S label) end).
Definition search (t : nat) : prog data (option op) := Iter (search_turn t) 0.

(** std::make_shared<worker>(m_data): the thread starts at once. *)
Definition spawn (t : nat) : prog data nat :=
  Act (fun _ d =>
    if Nat.ltb (next d) slots
    then Some (with_aux t pay (with_aux t (set_counting (Some (next d)))
                 (with_aux (next d) (set_wk Live) (with_next (S (next d)) d))), next d)
    else None).

Definition schedule (t : nat) : prog data unit :=
  let! active_threads := atomic (fun d => (with_aux t (set_seen (m_active_threads d)) d, m_active_threads d)) in
  let! idle_threads := atomic (fun d =>
    (if (0 <? m_idle_threads d)%Z then with_aux t pay d else d, m_idle_threads d)) in
  do! check (0 <=? idle_threads)%Z in
  do! check (0 <=? active_threads)%Z in
  do! check (idle_threads <=? active_threads)%Z in
  if (0 <? idle_threads)%Z then Ret tt
  else
    let! max_threads := atomic (fun d =>
      (if (active_threads <? m_max_threads d)%Z then d else with_aux t pay d, m_max_threads d)) in
    if (active_threads <? max_threads)%Z then
      let! w := spawn t in
      modify (fun d => with_active (m_active_threads d + 1)
                (with_aux w count_in (with_aux t (set_counting None) d)))
    else Ret tt.

(** execute() puts the operation into its bucket, counts it, and makes sure that there
    is a worker. *)
Definition enqueue (t : nat) (work : op) (index : nat) (d : data) : data :=
  with_log (Submitted (op_id work)) (with_aux t (set_enqueued true)
    (with_operations index (m_operations d index ++ [work]) d)).
Definition release (t : nat) (d : data) : data :=
  with_counter (m_operations_counter d + 1) (with_aux t (fun a => owe (set_enqueued false a)) d).
Definition execute (t : nat) (work : op) (priority : queue_priority) : prog data unit :=
  let index := bucket_of priority in
  do! modify (enqueue t work index) in
  do! modify (release t) in
  schedule t.

Definition notify_thread_blocked (t : nat) : prog data unit :=
  do! modify (fun d => with_max (m_max_threads d + 1) (with_aux t (fun a => owe (add_blocking 1 a)) d)) in
  schedule t.
Definition notify_thread_unblocked (t : nat) : prog data unit :=
  modify (fun d => with_max (m_max_threads d - 1) (with_aux t (add_blocking (-1)) d)).

(** run_with_threadpool: the thread's current pool is set around the call. *)
Definition run_with_threadpool {A} (t : nat) (p : prog data A) : prog data A :=
  let! previous := read (fun d => current d t) in
  do! modify (with_current t true) in
  let! r := p in
  do! modify (with_current t previous) in
  Ret r.

Definition execute_op (t : nat) (j : op) : prog data unit :=
  do! each (fun x => execute t x.1 x.2) (spawns j) in
  modify (with_log (Finished t (op_id j))).

Definition worker_turn (t : nat) : prog data (unit + unit) :=
  let! cancelled := read m_cancelled in
  if (cancelled : bool) then Ret (inr tt)
  else
    let! go_on := acquire t in
    if (go_on : bool) then
      let! op := search t in
      match op with
      | Some j => do! run_with_threadpool t (execute_op t j) in Ret (inl tt)
      | None => Crash Terminated
      end
    else Ret (inr tt).

(** worker::run, in the thread slot [t]. *)
Definition run (t : nat) : prog data unit :=
  do! await (fun d => Nat.ltb t (next d)) id in
  do! Iter (fun _ => worker_turn t) tt in
  modify (with_log (Exited t)).

(** ~threadpool: cancels, and releases the semaphore once per active thread. *)
Definition destroy : prog data unit :=
  do! modify with_cancelled in
  let! active := read m_active_threads in
  do! xassert (0 <? active)%Z in
  modify (fun d => with_counter (m_operations_counter d + active) d).
End code.

Definition skMaxSpinsBeforeSleep : nat := 1000.

(** 2 * system_thread_count() *)
Definition make_data (system_thread_count : Z) : data :=
  Data 0 (2 * system_thread_count) 0 0 (fun _ => []) false 0 (fun _ => false) (fun _ => aux0) [].
End Pool.

(** * A pool, its worker slots [0 .. slots - 1], and the threads that use it *)
Module PoolProcess.
Import Pool.

Inductive call :=
| Execute (j : op) (priority : queue_priority)
| BlockScope            (* notify_thread_blocked, and unblocked later *)
| Destroy.

Section threads.
Context (slots : nat) (asserts : bool) (spins : nat).
Definition run_call (t : nat) (c : call) : prog data unit :=
  match c with
  | Execute j priority => execute slots asserts t j priority
  | BlockScope =>
      do! notify_thread_blocked slots asserts t in notify_thread_unblocked t
  | Destroy => destroy
  end.

Definition start (thread_count : Z) (scripts : list (list call)) : cfg data :=
  (make_data thread_count,
   map (run slots asserts spins) (seq 0 slots) ++
   imap (fun t cs => each (run_call (slots + t)) cs) scripts).
End threads.

(** ** What the log says *)
Fixpoint submitted (l : list event) : list nat :=
  match l with [] => [] | Submitted i :: l => i :: submitted l | _ :: l => submitted l end.
Fixpoint taken (l : list event) : list nat :=
  match l with [] => [] | Taken _ i :: l => i :: taken l | _ :: l => taken l end.

(** All that is queued, whatever its priority. *)
Definition queued (o : nat -> list op) : list op := o 0 ++ o 1 ++ o 2 ++ o 3.

Lemma queued_add o label j : label < bucket_count ->
  queued (<[label := o label ++ [j]]> o) ≡ₚ j :: queued o.
Proof.
  unfold bucket_count, queued. intros H.
  do 4 (destruct label as [|label]; [rewrite !fn_same, ?fn_other by lia; solve_Permutation|]). lia.
Qed.

Lemma queued_remove o label j l : label < bucket_count -> o label ≡ₚ j :: l ->
  queued o ≡ₚ j :: queued (<[label := l]> o).
Proof.
  unfold bucket_count, queued. intros H E.
  do 4 (destruct label as [|label]; [rewrite !fn_same, ?fn_other by lia; rewrite E; solve_Permutation|]). lia.
Qed.

Lemma bucket_of_count p : bucket_of p < bucket_count.
Proof. destruct p; unfold bucket_of, bucket_count; simpl; unfold bucket_UTILITY, bucket_USER_INTERACTIVE, bucket_USER_INITIATED, bucket_BACKGROUND; lia. Qed.

Lemma pick_op_Some o l j l' : pick o l = Some (j, l') -> l ≡ₚ j :: l'.
Proof.
  unfold pick. destruct (l !! _) as [x|] eqn:E; [|done]. intros [= -> <-].
  rewrite <- (take_drop_middle l _ j E) at 1. by rewrite Permutation_middle.
Qed.

(** ** The invariant *)
Section proof.
Context (slots n : nat) (Hslots : slots <= n) (thread_count : Z) (Hcount : (1 <= thread_count)%Z).

Definition token (a : auxiliary) : Z := match wk a with Token => 1 | _ => 0 end.
Definition pending (a : auxiliary) : Z := if enqueued a then 1 else 0.
(** Somebody will look at the semaphore again. *)
Definition free_worker (a : auxiliary) : Prop := wk a = Token \/ (wk a = Live /\ blocking a = 0%Z).
Definition lively (a : auxiliary) : Prop := free_worker a \/ (debt a = true /\ stale a = false).
Definition gone (a : auxiliary) : Z := match wk a with Gone => 1 | _ => 0 end.

Record aux_ok (a : auxiliary) : Prop := {
  ok_counted : (0 <= counted a <= 1)%Z;
  ok_left : (0 <= left a <= 1)%Z;
  ok_idling : (0 <= idling a <= 1)%Z;
  ok_blocking : (0 <= blocking a)%Z;
  ok_gone : wk a = Gone -> left a = 1%Z /\ idling a = 0%Z;
  ok_free : idling a = 1%Z -> blocking a = 0%Z;
  ok_seen : seen a <> None -> debt a = true
}.

Record good (d : data) : Prop := {
  g_tokens : Z.of_nat (length (queued (m_operations d))) =
    (m_operations_counter d + total n (fun t => token (aux d t)) + total n (fun t => pending (aux d t)))%Z;
  g_counter : (0 <= m_operations_counter d)%Z;
  g_cancel : m_cancelled d = false;
  g_active : m_active_threads d = total n (fun t => (counted (aux d t) - left (aux d t))%Z);
  g_idle : m_idle_threads d = total n (fun t => idling (aux d t));
  g_max : m_max_threads d = (2 * thread_count + total n (fun t => blocking (aux d t)))%Z;
  g_aux t : aux_ok (aux d t);
  g_unborn t : wk (aux d t) = Unborn -> counted (aux d t) = 0%Z /\ left (aux d t) = 0%Z /\ idling (aux d t) = 0%Z;
  g_slot t : next d <= t < slots -> aux d t = aux0;
  g_born t : wk (aux d t) <> Unborn <-> t < next d;
  g_next : next d <= slots;
  g_counting t w : counting (aux d t) = Some w -> counted (aux d w) = 0%Z /\ w < next d;
  g_once t u w : counting (aux d t) = Some w -> counting (aux d u) = Some w -> t = u;
  g_wake : (0 < m_operations_counter d)%Z -> exists t, t < n /\ lively (aux d t);
  g_ops : submitted (log d) ≡ₚ map op_id (queued (m_operations d)) ++ taken (log d);
  g_seen t z : seen (aux d t) = Some z -> stale (aux d t) = false ->
    (z <= total n (fun u => counted (aux d u) - gone (aux d u)))%Z
}.

(** What thread [t] relies on: its own bookkeeping, except that a worker slot
    comes to life and is counted by others. *)
Record keeps (t : nat) (d d' : data) : Prop := {
  k_wk : wk (aux d t) <> Unborn -> wk (aux d' t) = wk (aux d t);
  k_birth : wk (aux d t) = Unborn -> wk (aux d' t) <> Unborn -> wk (aux d' t) = Live;
  k_client : slots <= t -> wk (aux d' t) = wk (aux d t);
  k_left : left (aux d' t) = left (aux d t);
  k_idling : idling (aux d' t) = idling (aux d t);
  k_enqueued : enqueued (aux d' t) = enqueued (aux d t);
  k_debt : debt (aux d' t) = debt (aux d t);
  k_counting : counting (aux d' t) = counting (aux d t);
  k_blocking : blocking (aux d' t) = blocking (aux d t);
  k_seen : seen (aux d' t) = seen (aux d t);
  k_next : next d <= next d'
}.

#[export] Instance pool_keeps_pre t : PreOrder (keeps t).
Proof.
  split; [by split|]. intros x y z [] []. split; try congruence; try lia.
  - intros H. rewrite k_wk1; [auto|]. by rewrite k_wk0.
  - intros H Hz. destruct (decide (wk (aux y t) = Unborn)) as [E|E]; [auto|].
    rewrite k_wk1 by done. auto.
  - intros H. rewrite k_client1; auto.
Qed.

(** A slot that is no worker yet waits, and so does everybody who needs one
    when there are none left. *)
Definition waits (t : nat) (d : data) : Prop := next d <= t < slots \/ next d = slots.

Definition protocol : Conc.protocol data := Protocol good keeps waits pool_keeps_pre.

Lemma pool_total_aux (g : auxiliary -> Z) t a (h : nat -> auxiliary) :
  t < n -> total n (fun u => g (<[t := a]> h u)) = (total n (fun u => g (h u)) - g (h t) + g a)%Z.
Proof.
  intros Ht. rewrite (total_change n (fun u => g (h u)) _ t Ht).
  - by rewrite fn_same.
  - intros u Hu. by rewrite fn_other.
Qed.

Lemma gone_eq a a' : (wk a = Gone <-> wk a' = Gone) -> gone a = gone a'.
Proof. unfold gone. destruct (wk a), (wk a'); intuition congruence. Qed.
Lemma gone_left a : aux_ok a -> (counted a - left a <= counted a - gone a)%Z.
Proof. intros [O1 O2 O3 O4 O5 O6 O7]. unfold gone. destruct (wk a); try lia. destruct (O5 eq_refl). lia. Qed.

(** A step of [t] that changes its own bookkeeping, the counters, the
    operations and the log. *)
Definition own (t : nat) (a : auxiliary) (c m ac i : Z) (o : nat -> list op) (l : list event) (d : data) : data :=
  Data c m ac i o (m_cancelled d) (next d) (current d) (<[t := a]> (aux d)) l.

Lemma pool_own_ok t a c m ac i o l d :
  good d -> t < n ->
  (Z.of_nat (length (queued o)) - Z.of_nat (length (queued (m_operations d))) =
   (c - m_operations_counter d) + (token a - token (aux d t)) + (pending a - pending (aux d t)))%Z ->
  (0 <= c)%Z ->
  (ac - m_active_threads d = left (aux d t) - left a)%Z ->
  (i - m_idle_threads d = idling a - idling (aux d t))%Z ->
  (m - m_max_threads d = blocking a - blocking (aux d t))%Z ->
  aux_ok a -> counted a = counted (aux d t) -> counting a = counting (aux d t) ->
  (wk a = Unborn <-> wk (aux d t) = Unborn) ->
  (wk a = Unborn -> left a = 0%Z /\ idling a = 0%Z) ->
  ~ (next d <= t < slots) ->
  ((0 < c)%Z -> lively a \/ (~ lively (aux d t) /\ (0 < m_operations_counter d)%Z) \/
               (exists u, u <> t /\ u < n /\ lively (aux d u))) ->
  submitted l ≡ₚ map op_id (queued o) ++ taken l ->
  (wk a = Gone <-> wk (aux d t) = Gone) \/
    (seen a = None /\ forall u, seen (aux d u) <> None -> stale (aux d u) = true) ->
  (forall z, seen a = Some z -> stale a = false ->
     (seen (aux d t) = Some z /\ stale (aux d t) = false) \/ z = m_active_threads d) ->
  good (own t a c m ac i o l d) /\ guar protocol t d (own t a c m ac i o l d).
Proof.
  intros [G1 G2 G3 G4 G5 G6 G7 G8 G9 G10 G11 G12 G13 G14 G15 G16] Ht C1 C2 C3 C4 C5 C6 C7 C8 C9 C10 C11 C12 C13 C14 C15.
  split.
  - split; simpl; try done.
    + rewrite !pool_total_aux by done. lia.
    + rewrite (pool_total_aux (fun a => (counted a - left a)%Z)) by done. lia.
    + rewrite (pool_total_aux idling) by done. lia.
    + rewrite (pool_total_aux blocking) by done. lia.
    + intros u. fn_cases; [done|apply G7].
    + intros u Hu. fn_cases; [|by apply G8]. rewrite C7. destruct (C10 Hu).
      split; [by apply G8, C9|done].
    + intros u Hu. fn_cases; [done|by apply G9].
    + intros u. fn_cases; [|apply G10]. rewrite <- G10. tauto.
    + intros u w Hw. assert (Hw' : counting (aux d u) = Some w) by (fn_cases; congruence).
      destruct (G12 u w Hw') as [E ?]. split; [|done]. clear Hw; fn_cases; [by rewrite C7|done].
    + intros u v w Hu Hv. apply (G13 u v w); fn_cases; congruence.
    + intros Hc. destruct (C12 Hc) as [?|[[Hn Hp]|(u & Hu & Hun & Hl)]].
      * exists t. by rewrite fn_same.
      * destruct (G14 Hp) as (u & Hun & Hl). exists u. split; [done|]. rewrite fn_other; [done|congruence].
      * exists u. split; [done|]. by rewrite fn_other.
    + intros u z. destruct C14 as [C14|[C14 C16]].
      2: { intros Hs Hst. exfalso. fn_cases; [congruence|]. rewrite C16 in Hst; [done|congruence]. }
      rewrite (pool_total_aux (fun a => (counted a - gone a)%Z)) by done.
      assert (gone a = gone (aux d t)) as -> by (by apply gone_eq). rewrite C7. intros Hs Hst.
      enough (z <= total n (fun u => counted (aux d u) - gone (aux d u)))%Z by lia.
      fn_cases; [|by apply (G16 u)]. destruct (C15 z Hs Hst) as [[? ?]| ->]; [by apply (G16 t)|].
      rewrite G4. apply total_le. intros v _. by apply gone_left.
  - intros u Hu. split; simpl; rewrite ?fn_other by done; done.
Qed.

(** An idle worker will look at the semaphore again. *)
Lemma idle_alive d : good d -> (0 < m_idle_threads d)%Z ->
  exists t, t < n /\ free_worker (aux d t).
Proof.
  intros Hg Ha. rewrite (g_idle _ Hg) in Ha. apply total_positive in Ha as (t & Ht & Hp).
  exists t. split; [done|]. pose proof (g_aux _ Hg t) as [O1 O2 O3 O4 O5 O6 O7]. unfold free_worker.
  destruct (wk (aux d t)) eqn:E.
  - destruct (g_unborn _ Hg t E) as (_ & _ & ?). lia.
  - right. split; [done|]. apply O6. lia.
  - by left.
  - destruct (O5 eq_refl). lia.
Qed.

(** Who has seen as many workers as there may be: one of them is not blocked. *)
Lemma enough_alive d t z : good d -> seen (aux d t) = Some z -> stale (aux d t) = false -> (m_max_threads d <= z)%Z ->
  exists u, u < n /\ free_worker (aux d u).
Proof.
  intros Hg Hs Hst Hz. pose proof (g_seen _ Hg t z Hs Hst) as Hle. rewrite (g_max _ Hg) in Hz.
  assert (0 < total n (fun u => (counted (aux d u) - gone (aux d u)) - blocking (aux d u)))%Z as Hp.
  { rewrite total_sub. lia. }
  apply total_positive in Hp as (u & Hu & Hp). exists u. split; [done|].
  pose proof (g_aux _ Hg u) as [O1 O2 O3 O4 O5 O6 O7]. unfold gone in Hp. destruct (wk (aux d u)) eqn:E.
  - destruct (g_unborn _ Hg u E) as (? & _ & _). lia.
  - right. split; [done|lia].
  - by left.
  - lia.
Qed.

(** ** What a thread knows of itself *)
Record at_ (w : phase) (lf idl : Z) (e db : bool) (cg : option nat) (b : Z) (t : nat) (d : data) : Prop := {
  at_lt : t < n;
  at_role : if decide (w = Unborn) then slots <= t else t < slots;
  at_wk : wk (aux d t) = w;
  at_left : left (aux d t) = lf;
  at_idling : idling (aux d t) = idl;
  at_enqueued : enqueued (aux d t) = e;
  at_debt : debt (aux d t) = db;
  at_counting : counting (aux d t) = cg;
  at_blocking : blocking (aux d t) = b
}.

Lemma at_stable w lf idl e db cg b t : stable protocol t (at_ w lf idl e db cg b t).
Proof.
  intros d d' [H1 H2 H3 H4 H5 H6 H7 H8 H9] _ _ []. split; [done|done| |congruence..].
  destruct (decide (w = Unborn)) as [->|Hw].
  - rewrite k_client0; done.
  - rewrite k_wk0; congruence.
Qed.

Lemma at_not_slot w lf idl e db cg b t d :
  good d -> at_ w lf idl e db cg b t d -> ~ (next d <= t < slots).
Proof.
  intros Hg [H1 H2 H3 _ _ _ _ _ _]. destruct (decide (w = Unborn)) as [->|Hw]; [lia|].
  pose proof (proj1 (g_born _ Hg t)) as Hb. rewrite H3 in Hb. specialize (Hb Hw). lia.
Qed.

Lemma watched d t : good d -> (0 < m_operations_counter d)%Z ->
  lively (aux d t) \/ (~ lively (aux d t) /\ (0 < m_operations_counter d)%Z).
Proof.
  intros Hg Hc. assert (Hd : lively (aux d t) \/ ~ lively (aux d t)); [|tauto].
  unfold lively, free_worker. destruct (wk (aux d t)), (debt (aux d t)), (stale (aux d t)), (Z.eq_dec (blocking (aux d t)) 0);
    intuition congruence.
Qed.

(** A step that keeps the counter, the operations, and whether [t] is lively. *)
Lemma own_plain w lf idl e db cg b t d a ac i :
  good d -> at_ w lf idl e db cg b t d ->
  token a = token (aux d t) -> pending a = pending (aux d t) ->
  (ac - m_active_threads d = left (aux d t) - left a)%Z ->
  (i - m_idle_threads d = idling a - idling (aux d t))%Z ->
  aux_ok a -> counted a = counted (aux d t) -> counting a = counting (aux d t) ->
  wk a = wk (aux d t) -> (wk a = Unborn -> left a = 0%Z /\ idling a = 0%Z) ->
  debt a = debt (aux d t) -> blocking a = blocking (aux d t) -> seen a = seen (aux d t) -> stale a = stale (aux d t) ->
  let d' := own t a (m_operations_counter d) (m_max_threads d) ac i (m_operations d) (log d) d in
  good d' /\ guar protocol t d d'.
Proof.
  intros Hg Hat E1 E2 E3 E4 E6 E7 E8 E9 E10 E11 E12 E13 E14. apply pool_own_ok; try done.
  - apply Hat.
  - rewrite E1, E2. lia.
  - apply Hg.
  - rewrite E12. lia.
  - by rewrite E9.
  - by eapply at_not_slot.
  - intros Hc. destruct (watched d t Hg Hc) as [Hl|?]; [left|by right; left].
    unfold lively, free_worker in *. by rewrite E9, E11, E12, E14.
  - apply Hg.
  - left. by rewrite E9.
  - intros z. rewrite E13, E14. auto.
Qed.

Ltac own_side Hg t :=
  pose proof (g_aux _ Hg t) as [?O1 ?O2 ?O3 ?O4 ?O5 ?O6 ?O7]; simpl; try done; try lia;
  try (split; simpl; try done; try lia; intuition congruence); try intuition congruence.

(** m_idle_threads and m_active_threads *)
Lemma idle_in_spec t :
  triple protocol t (at_ Live 0 0 false false None 0 t)
    (modify (fun d => with_idle (m_idle_threads d + 1) (with_aux t (add_idling 1) d)))
    (fun _ => at_ Live 0 1 false false None 0 t).
Proof.
  apply triple_modify; [apply at_stable..|]. intros d Hg Hat.
  pose proof Hat as [H1 H2 H3 H4 H5 H6 H7 H8 H9].
  destruct (own_plain _ _ _ _ _ _ _ t d (add_idling 1 (aux d t))
    (m_active_threads d) (m_idle_threads d + 1) Hg Hat) as [G K]; try (own_side Hg t).
  split_and!; [exact G|exact K|]. split; simpl; rewrite ?fn_same; simpl; try done; lia.
Qed.

Lemma idle_out_spec w t : w = Live \/ w = Token ->
  triple protocol t (at_ w 0 1 false false None 0 t)
    (modify (fun d => with_idle (m_idle_threads d - 1) (with_aux t (add_idling (-1)) d)))
    (fun _ => at_ w 0 0 false false None 0 t).
Proof.
  intros Hw. apply triple_modify; [apply at_stable..|]. intros d Hg Hat.
  pose proof Hat as [H1 H2 H3 H4 H5 H6 H7 H8 H9].
  destruct (own_plain _ _ _ _ _ _ _ t d (add_idling (-1) (aux d t))
    (m_active_threads d) (m_idle_threads d - 1) Hg Hat) as [G K]; try (own_side Hg t).
  split_and!; [exact G|exact K|]. split; simpl; rewrite ?fn_same; simpl; try done; lia.
Qed.

Lemma active_out_spec t :
  triple protocol t (at_ Live 0 0 false false None 0 t)
    (modify (fun d => with_active (m_active_threads d - 1) (with_aux t (add_left 1) d)))
    (fun _ => at_ Live 1 0 false false None 0 t).
Proof.
  apply triple_modify; [apply at_stable..|]. intros d Hg Hat.
  pose proof Hat as [H1 H2 H3 H4 H5 H6 H7 H8 H9].
  destruct (own_plain _ _ _ _ _ _ _ t d (add_left 1 (aux d t))
    (m_active_threads d - 1) (m_idle_threads d) Hg Hat) as [G K]; try (own_side Hg t).
  split_and!; [exact G|exact K|]. split; simpl; rewrite ?fn_same; simpl; try done; lia.
Qed.

Lemma active_back_spec t :
  triple protocol t (at_ Token 1 0 false false None 0 t)
    (modify (fun d => with_active (m_active_threads d + 1) (with_aux t (add_left (-1)) d)))
    (fun _ => at_ Token 0 0 false false None 0 t).
Proof.
  apply triple_modify; [apply at_stable..|]. intros d Hg Hat.
  pose proof Hat as [H1 H2 H3 H4 H5 H6 H7 H8 H9].
  destruct (own_plain _ _ _ _ _ _ _ t d (add_left (-1) (aux d t))
    (m_active_threads d + 1) (m_idle_threads d) Hg Hat) as [G K]; try (own_side Hg t).
  split_and!; [exact G|exact K|]. split; simpl; rewrite ?fn_same; simpl; try done; lia.
Qed.

(** Taking a unit of the semaphore. *)
Lemma token_ok lf idl t d :
  good d -> at_ Live lf idl false false None 0 t d -> (0 < m_operations_counter d)%Z ->
  let d' := with_counter (m_operations_counter d - 1) (with_aux t (set_wk Token) d) in
  good d' /\ guar protocol t d d' /\ at_ Token lf idl false false None 0 t d'.
Proof.
  intros Hg Hat Hc. pose proof Hat as [H1 H2 H3 H4 H5 H6 H7 H8 H9].
  destruct (pool_own_ok t (set_wk Token (aux d t)) (m_operations_counter d - 1) (m_max_threads d)
    (m_active_threads d) (m_idle_threads d) (m_operations d) (log d) d Hg H1) as [G K];
    try (own_side Hg t).
  - unfold token, pending; simpl. rewrite H3. lia.
  - by eapply at_not_slot.
  - intros _. left. left. by left.
  - apply Hg.
  - split_and!; [exact G|exact K|]. split; simpl; rewrite ?fn_same; simpl; done.
Qed.

(** Nobody is needed while there is nothing to do. *)
Lemma outdated_ok d : good d -> ~ (0 < m_operations_counter d)%Z ->
  good (outdated d) /\ forall u, keeps u d (outdated d).
Proof.
  intros [G1 G2 G3 G4 G5 G6 G7 G8 G9 G10 G11 G12 G13 G14 G15 G16] Hc. split; [|by intros u; split].
  split; simpl; try done.
  - intros u. by destruct (G7 u).
  - intros u Hu. by rewrite (G9 u Hu).
  - intros u z Hs [Hst _]%orb_false_iff. exact (G16 u z Hs Hst).
Qed.

(** Gone for good: only with nothing left to acquire. *)
Lemma gone_ok t d :
  good d -> at_ Live 1 0 false false None 0 t d -> ~ (0 < m_operations_counter d)%Z ->
  let d' := with_aux t (set_wk Gone) (outdated d) in
  good d' /\ guar protocol t d d' /\ at_ Gone 1 0 false false None 0 t d'.
Proof.
  intros Hg0 Hat0 Hc. destruct (outdated_ok d Hg0 Hc) as [Hg Hk]. change (~ (0 < m_operations_counter (outdated d))%Z) in Hc.
  assert (Hat : at_ Live 1 0 false false None 0 t (outdated d)) by (by eapply at_stable).
  assert (Hs : forall u, seen (aux (outdated d) u) <> None -> stale (aux (outdated d) u) = true).
  { intros u Hu. simpl in *. pose proof (ok_seen _ (g_aux _ Hg0 u) Hu) as ->. apply orb_true_r. }
  revert Hg Hk Hat Hs Hc. generalize (outdated d). intros d1 Hg Hk Hat Hs Hc.
  pose proof Hat as [H1 H2 H3 H4 H5 H6 H7 H8 H9].
  assert (Hn : seen (aux d1 t) = None).
  { destruct (seen (aux d1 t)) eqn:E; [|done]. rewrite (ok_seen _ (g_aux _ Hg t)) in H7; congruence. }
  destruct (pool_own_ok t (set_wk Gone (aux d1 t)) (m_operations_counter d1) (m_max_threads d1)
    (m_active_threads d1) (m_idle_threads d1) (m_operations d1) (log d1) d1 Hg H1) as [G K];
    try (own_side Hg t).
  - unfold token, pending; simpl. rewrite H3. lia.
  - apply Hg.
  - by eapply at_not_slot.
  - apply Hg.
  - split_and!; [exact G| |split; simpl; rewrite ?fn_same; simpl; done].
    intros u Hu. transitivity d1; [apply Hk|by apply K].
Qed.

Lemma pool_try_acquire_spec t lf :
  triple protocol t (at_ Live lf 0 false false None 0 t) (try_acquire t)
    (fun r => at_ (if r : bool then Token else Live) lf 0 false false None 0 t).
Proof.
  apply triple_act; [apply at_stable|intros; apply at_stable|done|].
  intros _ d d' r Hg Hat E. destruct (Z.ltb_spec 0 (m_operations_counter d)); simplify_eq/=.
  - by apply token_ok.
  - split_and!; [done|apply guar_refl|done].
Qed.

Lemma pool_spin_acquire_spec t spins :
  triple protocol t (at_ Live 0 0 false false None 0 t) (spin_acquire spins t)
    (fun r => at_ (if r : bool then Token else Live) 0 0 false false None 0 t).
Proof.
  unfold spin_acquire. apply (triple_iter t _ _ (fun _ => at_ Live 0 0 false false None 0 t));
    [intros; apply at_stable|intros; apply at_stable|].
  intros [|k]; [by apply triple_ret; [apply at_stable|]|].
  eapply triple_bind; [apply pool_try_acquire_spec|].
  intros [|]; by apply triple_ret; [apply at_stable|].
Qed.

Lemma pool_wait_acquire_spec t :
  triple protocol t (at_ Live 0 1 false false None 0 t) (wait_acquire t)
    (fun r => at_ (if r : bool then Token else Live) 0 1 false false None 0 t).
Proof.
  apply triple_block; [apply at_stable|intros; apply at_stable| |].
  - intros d Hg Hat. left. exists o_timeout. split; [done|]. by destruct (Z.ltb _ _).
  - intros o d d' r Hg Hat E. destruct (Z.ltb_spec 0 (m_operations_counter d)).
    + simplify_eq/=. by apply token_ok.
    + destruct (Nat.eqb o o_timeout); simplify_eq/=. split_and!; [done|apply guar_refl|done].
Qed.

Lemma last_try_spec t :
  triple protocol t (at_ Live 1 0 false false None 0 t) (last_try t)
    (fun r => at_ (if r : bool then Token else Gone) 1 0 false false None 0 t).
Proof.
  apply triple_act; [apply at_stable|intros; apply at_stable|done|].
  intros _ d d' r Hg Hat E. destruct (Z.ltb_spec 0 (m_operations_counter d)); simplify_eq/=.
  - by apply token_ok.
  - apply gone_ok; [done|done|lia].
Qed.

(** With a token, or gone for good. *)
Definition acquired (r : bool) (t : nat) : data -> Prop :=
  if r then at_ Token 0 0 false false None 0 t else at_ Gone 1 0 false false None 0 t.

Lemma acquired_stable r t : stable protocol t (acquired r t).
Proof. destruct r; apply at_stable. Qed.

Lemma acquire_spec t spins :
  triple protocol t (at_ Live 0 0 false false None 0 t) (acquire spins t) (fun r => acquired r t).
Proof.
  unfold acquire. eapply triple_bind; [apply pool_try_acquire_spec|].
  intros [|]; [by apply triple_ret; [apply (acquired_stable true)|]|].
  eapply triple_bind; [apply pool_spin_acquire_spec|].
  intros [|]; [by apply triple_ret; [apply (acquired_stable true)|]|].
  eapply triple_bind; [apply idle_in_spec|]. intros ?.
  eapply triple_bind; [apply pool_wait_acquire_spec|]. intros r.
  eapply triple_bind; [apply idle_out_spec; destruct r; [by right|by left]|]. intros ?.
  destruct r; [by apply triple_ret; [apply (acquired_stable true)|]|].
  eapply triple_bind; [apply active_out_spec|]. intros ?.
  eapply triple_bind; [apply last_try_spec|].
  intros [|]; [|by apply triple_ret; [apply (acquired_stable false)|]].
  eapply triple_bind; [apply active_back_spec|]. intros ?.
  by apply triple_ret; [apply (acquired_stable true)|].
Qed.

(** Taking an operation. *)
Lemma dequeue_ok t d label j l :
  good d -> at_ Token 0 0 false false None 0 t d -> label < bucket_count ->
  m_operations d label ≡ₚ j :: l ->
  let d' := with_log (Taken t (op_id j)) (with_aux t (set_wk Live) (with_operations label l d)) in
  good d' /\ guar protocol t d d' /\ at_ Live 0 0 false false None 0 t d'.
Proof.
  intros Hg Hat Hl Hp. pose proof Hat as [H1 H2 H3 H4 H5 H6 H7 H8 H9].
  pose proof (queued_remove (m_operations d) label j l Hl Hp) as Hq.
  destruct (pool_own_ok t (set_wk Live (aux d t)) (m_operations_counter d) (m_max_threads d)
    (m_active_threads d) (m_idle_threads d) (<[label := l]> (m_operations d))
    (Taken t (op_id j) :: log d) d Hg H1) as [G K]; try (own_side Hg t).
  - unfold token, pending; simpl. rewrite H3. rewrite (Permutation_length Hq). simpl. lia.
  - apply Hg.
  - by eapply at_not_slot.
  - intros _. left. left. by right.
  - simpl. rewrite (g_ops _ Hg), Hq. simpl. by rewrite Permutation_middle.
  - split_and!; [exact G|exact K|]. split; simpl; rewrite ?fn_same; simpl; done.
Qed.

(** A step that nobody's bookkeeping notices. *)
Definition harmless (e : event) : Prop :=
  match e with Finished _ _ | Exited _ => True | _ => False end.

Lemma log_ok e d : harmless e -> good d -> good (with_log e d) /\ forall u, keeps u d (with_log e d).
Proof.
  intros He [G1 G2 G3 G4 G5 G6 G7 G8 G9 G10 G11 G12 G13 G14 G15 G16].
  split; [|by intros u; split]. split; try done. simpl. by destruct e; try destruct He.
Qed.

Lemma current_ok t b d : good d -> good (with_current t b d) /\ forall u, keeps u d (with_current t b d).
Proof.
  intros [G1 G2 G3 G4 G5 G6 G7 G8 G9 G10 G11 G12 G13 G14 G15 G16].
  split; [by split|by intros u; split].
Qed.

Lemma quiet_spec t f P :
  stable protocol t P ->
  (forall d, good d -> good (f d) /\ forall u, keeps u d (f d)) ->
  triple protocol t P (modify f) (fun _ => P).
Proof.
  intros HP Hf. apply triple_modify; [done..|]. intros d Hg Hd. destruct (Hf d Hg) as [G K].
  split_and!; [done|by intros u _; apply K|by apply (HP d); [..|apply K]].
Qed.

Lemma try_dequeue_spec t label :
  label < bucket_count ->
  triple protocol t (at_ Token 0 0 false false None 0 t) (try_dequeue t label)
    (fun r => at_ (match r with Some _ => Live | None => Token end) 0 0 false false None 0 t).
Proof.
  intros Hl. apply triple_act; [apply at_stable|intros; apply at_stable| |].
  - intros d _ _. change (Nat.eqb 0 o_spurious) with false. cbv iota.
    by destruct (pick 0 (m_operations d label)) as [[]|].
  - intros o d d' r Hg Hat E. destruct (Nat.eqb o o_spurious).
    { simplify_eq. split_and!; [done|apply guar_refl|done]. }
    destruct (pick o (m_operations d label)) as [[j l]|] eqn:Ep; simplify_eq.
    + apply pick_op_Some in Ep. by apply dequeue_ok.
    + split_and!; [done|apply guar_refl|done].
Qed.

Lemma search_spec t :
  triple protocol t (at_ Token 0 0 false false None 0 t) (search t)
    (fun r d => match r with Some _ => at_ Live 0 0 false false None 0 t d | None => False end).
Proof.
  assert (HQ : forall r : option op, stable protocol t (fun d =>
    match r with Some _ => at_ Live 0 0 false false None 0 t d | None => False end)).
  { intros [j|]; [apply at_stable|by intros d d' []]. }
  assert (HT : forall l, stable protocol t (fun d => at_ Token 0 0 false false None 0 t d /\ l <= bucket_count)).
  { intros l d d' [? ?] ? ? ?. split; [by eapply at_stable|done]. }
  unfold search. eapply triple_pre; [|intros d _ Hat; exact (conj Hat (Nat.le_0_l bucket_count))].
  apply (triple_iter t _ _ (fun label d => at_ Token 0 0 false false None 0 t d /\ label <= bucket_count));
    [exact HT|exact HQ|].
  intros label. eapply triple_bind.
  { apply (triple_read t _ _ _ (fun c d => c = false /\ at_ Token 0 0 false false None 0 t d /\ label <= bucket_count)).
    - apply HT.
    - intros c d d' (? & ? & ?) ? ? ?. split_and!; [done|by eapply at_stable|done].
    - intros d Hg [? ?]. split_and!; [apply Hg|done|done]. }
  intros [|]; [by apply triple_absurd; intros d _ [? _]|].
  set (label' := if Nat.eqb label bucket_count then 0 else label).
  assert (Hl : forall d, at_ Token 0 0 false false None 0 t d /\ label <= bucket_count -> label' < bucket_count).
  { intros d [_ Hle]. unfold label'. destruct (Nat.eqb_spec label bucket_count); [unfold bucket_count|]; lia. }
  destruct (decide (label' < bucket_count)) as [Hlt|Hge].
  2: { apply triple_absurd. intros d _ (_ & Hd). by apply Hge, (Hl d). }
  eapply triple_bind.
  { eapply triple_pre; [by apply try_dequeue_spec|]. by intros d _ (_ & ? & _). }
  intros [j|]; apply triple_ret; [apply at_stable|done|apply at_stable|].
  intros d _ Hat. split; [done|lia].
Qed.
(** ** Handing out work *)

(** [at_], outside of the worker's own loop, with the scopes it has blocked. *)
Definition at_b (w : phase) (e db : bool) (cg : option nat) (b : Z) : nat -> data -> Prop := at_ w 0 0 e db cg b.

Lemma at_b_stable w e db cg b t : stable protocol t (at_b w e db cg b t).
Proof. apply at_stable. Qed.

(** A step of a thread that keeps its phase. *)
Lemma own_at w e db cg b t d a c m ac i o l e' db' b' :
  at_b w e db cg b t d -> wk a = w -> left a = 0%Z -> idling a = 0%Z ->
  enqueued a = e' -> debt a = db' -> counting a = cg -> blocking a = b' ->
  at_b w e' db' cg b' t (own t a c m ac i o l d).
Proof.
  intros [] E1 E2 E3 E4 E5 E6 E7. split; simpl; rewrite ?fn_same; try done.
Qed.

Lemma paid_ok w db b t d :
  good d -> at_b w false db None b t d ->
  ((exists u, u < n /\ free_worker (aux d u)) \/ stale (aux d t) = true) ->
  let d' := with_aux t pay d in
  good d' /\ guar protocol t d d' /\ at_b w false false None b t d'.
Proof.
  intros Hg Hat Hw. pose proof Hat as [H1 H2 H3 H4 H5 H6 H7 H8 H9].
  destruct (pool_own_ok t (pay (aux d t)) (m_operations_counter d) (m_max_threads d)
    (m_active_threads d) (m_idle_threads d) (m_operations d) (log d) d Hg H1) as [G K];
    try (own_side Hg t).
  - unfold token, pending; simpl. lia.
  - apply Hg.
  - by eapply at_not_slot.
  - intros Hc. destruct Hw as [(u & Hu & Hl)|Hs].
    + destruct (decide (u = t)) as [->|Hne]; [by left; left|]. right; right. exists u. split_and!; [done..|by left].
    + destruct (watched d t Hg Hc) as [[Hl|[_ Hl]]|?]; [by left; left|congruence|by right; left].
  - apply Hg.
  - split_and!; [exact G|exact K|]. by eapply own_at; [exact Hat|..].
Qed.

(** schedule() on its way: the number of threads it has loaded. *)
Definition scheduling (w : phase) (b z : Z) (t : nat) (d : data) : Prop :=
  at_b w false true None b t d /\ seen (aux d t) = Some z.
Lemma scheduling_stable w b z t : stable protocol t (scheduling w b z t).
Proof. intros d d' [H1 H2] G G' K. split; [by eapply at_b_stable|]. by rewrite (k_seen _ _ _ K). Qed.

Lemma load_active_spec w b t :
  triple protocol t (at_b w false true None b t)
    (atomic (fun d => (with_aux t (set_seen (m_active_threads d)) d, m_active_threads d)))
    (fun z => scheduling w b z t).
Proof.
  apply triple_act; [apply at_b_stable|intros; apply scheduling_stable|done|].
  intros _ d d' z Hg Hat E. injection E as <- <-. pose proof Hat as [H1 H2 H3 H4 H5 H6 H7 H8 H9].
  destruct (pool_own_ok t (set_seen (m_active_threads d) (aux d t)) (m_operations_counter d) (m_max_threads d)
    (m_active_threads d) (m_idle_threads d) (m_operations d) (log d) d Hg H1) as [G K];
    try (own_side Hg t).
  - unfold token, pending; simpl. lia.
  - apply Hg.
  - by eapply at_not_slot.
  - intros Hc. by destruct (watched d t Hg Hc); [left|right; left].
  - apply Hg.
  - split_and!; [exact G|exact K|]. split; [by eapply own_at; [exact Hat|..]|]. simpl. by rewrite fn_same.
Qed.

(** A free worker, or enough of them: who sees that need not care any more. *)
Definition checked (w : phase) (b z : Z) (c : bool) (t : nat) : data -> Prop :=
  if c then at_b w false false None b t else scheduling w b z t.
Lemma checked_stable w b z c t : stable protocol t (checked w b z c t).
Proof. destruct c; [apply at_b_stable|apply scheduling_stable]. Qed.

Lemma load_idle_spec w b z t :
  triple protocol t (scheduling w b z t)
    (atomic (fun d => (if (0 <? m_idle_threads d)%Z then with_aux t pay d else d, m_idle_threads d)))
    (fun i => checked w b z (0 <? i)%Z t).
Proof.
  apply triple_act; [apply scheduling_stable|intros; apply checked_stable|done|].
  intros _ d d' i Hg Hs E. injection E as <- <-. destruct (Z.ltb_spec 0 (m_idle_threads d)).
  - eapply paid_ok; [done|apply Hs|]. left. by apply idle_alive.
  - split_and!; [done|apply guar_refl|done].
Qed.

Lemma load_max_spec w b z t :
  triple protocol t (scheduling w b z t)
    (atomic (fun d => (if (z <? m_max_threads d)%Z then d else with_aux t pay d, m_max_threads d)))
    (fun m => checked w b z (negb (z <? m)%Z) t).
Proof.
  apply triple_act; [apply scheduling_stable|intros; apply checked_stable|done|].
  intros _ d d' m Hg Hs E. injection E as <- <-. destruct (Z.ltb_spec z (m_max_threads d)) as [Hlt|Hge]; simpl.
  - split_and!; [done|apply guar_refl|done].
  - destruct Hs as [Hat Hs]. eapply paid_ok; [done|exact Hat|]. destruct (stale (aux d t)) eqn:E; [by right|left].
    by eapply enough_alive.
Qed.

(** A new worker, and counting it in. *)
Definition spawned (t : nat) (d : data) : data :=
  with_aux t pay (with_aux t (set_counting (Some (next d)))
    (with_aux (next d) (set_wk Live) (with_next (S (next d)) d))).
Definition counted_in (t v : nat) (d : data) : data :=
  with_active (m_active_threads d + 1) (with_aux v count_in (with_aux t (set_counting None) d)).

Lemma spawned_aux t d u : t <> next d ->
  aux (spawned t d) u =
    if decide (u = t) then pay (set_counting (Some (next d)) (aux d t))
    else if decide (u = next d) then set_wk Live (aux d u) else aux d u.
Proof.
  intros Hne. unfold spawned; simpl. rewrite fn_same.
  destruct (decide (u = t)) as [->|Hu]; [by rewrite fn_same, fn_other by congruence|].
  rewrite !fn_other by congruence. case_decide as Hv; [subst; by rewrite fn_same|].
  by rewrite fn_other by congruence.
Qed.

Lemma counted_in_aux t v d u :
  aux (counted_in t v d) u =
    (if decide (u = v) then count_in else id) ((if decide (u = t) then set_counting None else id) (aux d u)).
Proof.
  unfold counted_in; simpl. repeat case_decide; subst; fn_cases; try done; congruence.
Qed.
Lemma spawned_keeps t d u : good d -> t <> next d -> next d < slots -> u <> t -> keeps u d (spawned t d).
Proof.
  intros Hg Hne Hn Hu. pose proof (g_slot _ Hg (next d) ltac:(lia)) as E0.
  split; rewrite ?spawned_aux, ?decide_False by done;
    try (case_decide; [subst u; rewrite ?E0|]); try done; try (simpl; lia).
Qed.

Lemma spawned_totals t d (g : auxiliary -> Z) : good d -> t <> next d -> next d < slots ->
  (forall a c, g (pay (set_counting c a)) = g a) ->
  g (set_wk Live aux0) = g aux0 ->
  total n (fun u => g (aux (spawned t d) u)) = total n (fun u => g (aux d u)).
Proof.
  intros Hg Hne Hn E1 E2. apply total_ext. intros u _. rewrite spawned_aux by done.
  case_decide; [by subst u; rewrite E1|]. case_decide; [|done].
  subst u. by rewrite (g_slot _ Hg (next d) ltac:(lia)).
Qed.

Lemma spawned_counting t d u v : good d -> t <> next d -> next d < slots ->
  counting (aux (spawned t d) u) = Some v ->
  (u = t /\ v = next d) \/ (u <> t /\ counting (aux d u) = Some v).
Proof.
  intros Hg Hne Hn. rewrite spawned_aux by done.
  destruct (decide (u = t)) as [->|Hu]; [by intros [= ->]; left|].
  destruct (decide (u = next d)) as [->|]; [|by right].
  by rewrite (g_slot _ Hg (next d) ltac:(lia)).
Qed.

Lemma spawned_counted t d v : t <> next d -> counted (aux (spawned t d) v) = counted (aux d v).
Proof.
  intros Hne. rewrite spawned_aux by done. destruct (decide (v = t)) as [->|]; [done|].
  by destruct (decide (v = next d)).
Qed.

Lemma spawned_good w db b t d :
  good d -> at_b w false db None b t d -> next d < slots -> good (spawned t d).
Proof.
  intros Hg Hat Hn. pose proof Hat as [H1 H2 H3 H4 H5 H6 H7 H8 H9].
  pose proof (at_not_slot _ _ _ _ _ _ _ _ _ Hg Hat) as Hns.
  assert (Hne : t <> next d) by lia.
  pose proof (g_slot _ Hg (next d) ltac:(lia)) as E0.
  assert (A := fun u => spawned_aux t d u Hne). clear Hat H2.
  assert (Hc := fun u v => spawned_counting t d u v Hg Hne Hn).
  assert (Hd := fun v => spawned_counted t d v Hne).
  split.
  - rewrite (spawned_totals t d token), (spawned_totals t d pending) by done. apply Hg.
  - apply Hg.
  - apply Hg.
  - rewrite (spawned_totals t d (fun a => (counted a - left a)%Z)) by done. apply Hg.
  - rewrite (spawned_totals t d idling) by done. apply Hg.
  - rewrite (spawned_totals t d blocking) by done. apply Hg.
  - intros u. rewrite A. repeat case_decide; subst; [by destruct (g_aux _ Hg t)| |apply Hg].
    rewrite E0. split; simpl; done || lia.
  - intros u. rewrite A. repeat case_decide; subst; [apply (g_unborn _ Hg t)|done|apply Hg].
  - change (next (spawned t d)) with (S (next d)). intros u Hu. rewrite A. repeat case_decide; subst; [|lia|apply Hg]; lia.
  - intros u. change (next (spawned t d)) with (S (next d)). rewrite A. repeat case_decide; subst; simpl.
    + rewrite (g_born _ Hg t). lia.
    + split; [lia|done].
    + rewrite (g_born _ Hg u). lia.
  - simpl. lia.
  - intros u v Hv. change (next (spawned t d)) with (S (next d)). rewrite Hd.
    destruct (Hc u v Hv) as [[_ ->]|[_ Hv']]; [by rewrite E0; split; [|lia]|].
    destruct (g_counting _ Hg u v Hv'). split; [done|lia].
  - intros u v x Hu Hv. destruct (Hc u x Hu) as [[-> ->]|[_ Hu']], (Hc v _ Hv) as [[-> Ex]|[_ Hv']]; try done.
    + apply (g_counting _ Hg) in Hv' as [_ ?]. lia.
    + subst x. apply (g_counting _ Hg) in Hu' as [_ ?]. lia.
    + by eapply (g_once _ Hg).
  - intros _. exists (next d). split; [lia|]. left. right. rewrite A, decide_False, decide_True, E0 by done. done.
  - apply Hg.
  - intros u z. rewrite (spawned_totals t d (fun a => (counted a - gone a)%Z)) by done.
    rewrite A. repeat case_decide; [done|by subst; rewrite E0|apply (g_seen _ Hg)].
Qed.

Lemma spawn_spec w db b t :
  triple protocol t (at_b w false db None b t) (spawn slots t)
    (fun v => at_b w false false (Some v) b t).
Proof.
  apply triple_block; [apply at_b_stable|intros; apply at_b_stable| |].
  - intros d Hg Hb. destruct (Nat.ltb_spec (next d) slots).
    + left. apply enabled_0. by destruct (Nat.ltb_spec (next d) slots); [|lia].
    + right. right. pose proof (g_next _ Hg). lia.
  - intros o d d' v Hg Hb E. destruct (Nat.ltb_spec (next d) slots) as [Hn|]; simplify_eq.
    pose proof Hb as [H1 H2 H3 H4 H5 H6 H7 H8 H9].
    pose proof (at_not_slot _ _ _ _ _ _ _ _ _ Hg Hb) as Hns. assert (Hne : t <> next d) by lia.
    split_and!; [by eapply spawned_good|by intros u Hu; apply spawned_keeps|].
    split; change (with_aux t _ _) with (spawned t d);
      rewrite ?spawned_aux, ?decide_True by done; done.
Qed.
Lemma counted_in_field {A} (f : auxiliary -> A) t v d u :
  (forall a, f (count_in a) = f a) -> (forall a, f (set_counting None a) = f a) ->
  f (aux (counted_in t v d) u) = f (aux d u).
Proof.
  intros E1 E2. rewrite counted_in_aux. repeat case_decide; unfold id; rewrite ?E1, ?E2; done.
Qed.

Lemma counted_in_counting t v d u w :
  counting (aux (counted_in t v d) u) = Some w -> u <> t /\ counting (aux d u) = Some w.
Proof. rewrite counted_in_aux. repeat case_decide; by unfold id; simpl. Qed.

Lemma counted_in_counted t v d u :
  counted (aux (counted_in t v d) u) = (counted (aux d u) + if decide (u = v) then 1 else 0)%Z.
Proof. rewrite counted_in_aux. repeat case_decide; unfold id; simpl; lia. Qed.

Lemma counted_in_good t v d : good d -> counting (aux d t) = Some v -> good (counted_in t v d).
Proof.
  intros Hg Hc. destruct (g_counting _ Hg t v Hc) as [Hv Hn]. pose proof (g_next _ Hg) as Hs.
  assert (F : forall A (f : auxiliary -> A), (forall a, f (count_in a) = f a) ->
    (forall a, f (set_counting None a) = f a) -> forall u, f (aux (counted_in t v d) u) = f (aux d u)).
  { intros A f E1 E2 u. by apply counted_in_field. }
  split; try exact (ltac:(apply Hg)).
  - rewrite !(total_ext n (fun u => token (aux (counted_in t v d) u)) (fun u => token (aux d u))),
      (total_ext n (fun u => pending (aux (counted_in t v d) u)) (fun u => pending (aux d u)));
      [apply Hg|intros u _; by apply F..].
  - rewrite (total_change n (fun u => (counted (aux d u) - left (aux d u))%Z) _ v); [|lia|].
    + change (m_active_threads (counted_in t v d)) with (m_active_threads d + 1)%Z.
      rewrite (g_active _ Hg), counted_in_counted, decide_True, (F _ left) by done. lia.
    + intros u Hu. rewrite counted_in_counted, decide_False, (F _ left) by done. lia.
  - rewrite (total_ext n _ (fun u => idling (aux d u))); [apply Hg|intros u _; by apply F].
  - rewrite (total_ext n _ (fun u => blocking (aux d u))); [apply Hg|intros u _; by apply F].
  - intros u. destruct (g_aux _ Hg u) as [O1 O2 O3 O4 O5 O6 O7].
    split; rewrite ?(F _ left), ?(F _ idling), ?(F _ blocking), ?(F _ wk), ?(F _ seen), ?(F _ debt) by done; try done.
    rewrite counted_in_counted. case_decide; [subst u; rewrite Hv|]; lia.
  - intros u. rewrite ?(F _ left), ?(F _ idling), ?(F _ wk) by done. intros Hu.
    destruct (g_unborn _ Hg u Hu) as (? & ? & ?). split_and!; [|done..].
    rewrite counted_in_counted. case_decide; [|lia]. subst u.
    by apply (g_born _ Hg v) in Hu.
  - intros u Hu. change (next (counted_in t v d)) with (next d) in Hu. rewrite counted_in_aux.
    rewrite (g_slot _ Hg u Hu). destruct (decide (u = v)) as [->|]; [lia|].
    destruct (decide (u = t)) as [->|]; [by rewrite (g_slot _ Hg t Hu) in Hc|done].
  - intros u. rewrite (F _ wk) by done. apply Hg.
  - intros u x Hu. apply counted_in_counting in Hu as [Hne Hu].
    destruct (g_counting _ Hg u x Hu). split; [|done]. rewrite counted_in_counted.
    case_decide; [|lia]. subst x. by destruct Hne; apply (g_once _ Hg u t v).
  - intros u x y Hu Hx. apply counted_in_counting in Hu as [_ Hu], Hx as [_ Hx].
    by eapply (g_once _ Hg).
  - intros Hp. destruct (g_wake _ Hg Hp) as (u & Hu & Hl). exists u. split; [done|].
    unfold lively, free_worker. by rewrite (F _ wk), (F _ debt), (F _ blocking), (F _ stale).
  - intros u z. rewrite (F _ seen), (F _ stale) by done. intros Hu Hst. etransitivity; [by apply (g_seen _ Hg u)|].
    apply total_le. intros x _. rewrite counted_in_counted, (F _ gone) by done. case_decide; lia.
Qed.

Lemma count_in_spec w v b t :
  triple protocol t (at_b w false false (Some v) b t) (modify (counted_in t v))
    (fun _ => at_b w false false None b t).
Proof.
  apply triple_modify; [apply at_b_stable..|]. intros d Hg [H1 H2 H3 H4 H5 H6 H7 H8 H9].
  split_and!; [by apply counted_in_good| |].
  - intros u Hu.
    split; rewrite ?(counted_in_field wk), ?(counted_in_field left), ?(counted_in_field idling),
      ?(counted_in_field enqueued), ?(counted_in_field debt), ?(counted_in_field blocking), ?(counted_in_field seen) by done; try done.
    rewrite counted_in_aux, (decide_False (P := u = t)) by done. by destruct (decide (u = v)).
  - split; rewrite ?(counted_in_field wk), ?(counted_in_field left), ?(counted_in_field idling),
      ?(counted_in_field enqueued), ?(counted_in_field debt), ?(counted_in_field blocking), ?(counted_in_field seen) by done; try done.
    rewrite counted_in_aux, (decide_True (P := t = t)) by done. by destruct (decide (t = v)).
Qed.

Lemma schedule_spec w b t :
  triple protocol t (at_b w false true None b t) (schedule slots false t)
    (fun _ => at_b w false false None b t).
Proof.
  unfold schedule. eapply triple_bind; [apply load_active_spec|]. intros active.
  eapply triple_bind; [apply load_idle_spec|]. intros idle.
  do 3 (eapply triple_bind; [by apply triple_skip, checked_stable|intros ?]).
  destruct (0 <? idle)%Z; [by apply triple_skip, at_b_stable|].
  eapply triple_bind; [apply load_max_spec|]. intros m.
  unfold checked. destruct (active <? m)%Z; cbn [negb]; [|by apply triple_skip, at_b_stable].
  eapply triple_bind; [|intros v; apply count_in_spec].
  eapply triple_pre; [apply spawn_spec|]. by intros d _ [? _].
Qed.
Lemma enqueue_ok w b t j label d :
  label < bucket_count -> good d -> at_b w false false None b t d ->
  good (enqueue t j label d) /\ guar protocol t d (enqueue t j label d) /\
  at_b w true false None b t (enqueue t j label d).
Proof.
  intros Hl Hg Hb. pose proof Hb as [H1 H2 H3 H4 H5 H6 H7 H8 H9].
  pose proof (queued_add (m_operations d) label j Hl) as Hq.
  destruct (pool_own_ok t (set_enqueued true (aux d t)) (m_operations_counter d) (m_max_threads d)
    (m_active_threads d) (m_idle_threads d) (<[label := m_operations d label ++ [j]]> (m_operations d))
    (Submitted (op_id j) :: log d) d Hg H1) as [G K]; try (own_side Hg t).
  - unfold token, pending; simpl. rewrite H6, (Permutation_length Hq). simpl. lia.
  - apply Hg.
  - by eapply at_not_slot.
  - intros Hc. destruct (watched d t Hg Hc); [by left|by right; left].
  - simpl. by rewrite (g_ops _ Hg), Hq.
  - split_and!; [exact G|exact K|]. by refine (own_at _ _ _ _ _ t d (set_enqueued true (aux d t)) _ _ _ _ _ (Submitted (op_id j) :: log d) _ _ _ Hb _ _ _ _ _ _ _).
Qed.

Lemma enqueue_spec w b t j label :
  label < bucket_count ->
  triple protocol t (at_b w false false None b t) (modify (enqueue t j label))
    (fun _ => at_b w true false None b t).
Proof. intros Hl. apply triple_modify; [apply at_b_stable..|]. intros d. by apply enqueue_ok. Qed.

Lemma pool_release_spec w b t :
  triple protocol t (at_b w true false None b t)
    (modify (release t)) (fun _ => at_b w false true None b t).
Proof.
  apply triple_modify; [apply at_b_stable..|]. intros d Hg Hb.
  pose proof Hb as [H1 H2 H3 H4 H5 H6 H7 H8 H9].
  set (a := owe (set_enqueued false (aux d t))).
  destruct (pool_own_ok t a (m_operations_counter d + 1) (m_max_threads d)
    (m_active_threads d) (m_idle_threads d) (m_operations d) (log d) d Hg H1) as [G K];
    try (unfold a; own_side Hg t).
  - unfold token, pending; simpl. rewrite H6. lia.
  - pose proof (g_counter _ Hg). lia.
  - by eapply at_not_slot.
  - intros _. left. by right.
  - apply Hg.
  - split_and!; [exact G|exact K|]. by refine (own_at _ _ _ _ _ t d a _ _ _ _ _ (log d) _ _ _ Hb _ _ _ _ _ _ _).
Qed.

Lemma pool_execute_spec w b t j priority :
  triple protocol t (at_b w false false None b t) (execute slots false t j priority)
    (fun _ => at_b w false false None b t).
Proof.
  unfold execute. eapply triple_bind; [apply enqueue_spec, bucket_of_count|]. intros ?.
  eapply triple_bind; [apply pool_release_spec|]. intros ?. apply schedule_spec.
Qed.

Lemma blocked_spec w b t :
  (0 <= b)%Z ->
  triple protocol t (at_b w false false None b t)
    (modify (fun d => with_max (m_max_threads d + 1) (with_aux t (fun a => owe (add_blocking 1 a)) d)))
    (fun _ => at_b w false true None (b + 1) t).
Proof.
  intros Hz. apply triple_modify; [apply at_b_stable..|]. intros d Hg Hb.
  pose proof Hb as [H1 H2 H3 H4 H5 H6 H7 H8 H9].
  destruct (pool_own_ok t (owe (add_blocking 1 (aux d t))) (m_operations_counter d) (m_max_threads d + 1)
    (m_active_threads d) (m_idle_threads d) (m_operations d) (log d) d Hg H1) as [G K]; try (own_side Hg t).
  - unfold token, pending; simpl. lia.
  - apply Hg.
  - by eapply at_not_slot.
  - intros _. left. by right.
  - apply Hg.
  - split_and!; [exact G|exact K|].
    refine (own_at _ _ _ _ _ t d (owe (add_blocking 1 (aux d t))) _ _ _ _ _ (log d) _ _ _ Hb _ _ _ _ _ _ _); simpl; try done. by rewrite H9.
Qed.

Lemma unblocked_spec w b t :
  (0 <= b)%Z ->
  triple protocol t (at_b w false false None (b + 1) t) (notify_thread_unblocked t) (fun _ => at_b w false false None b t).
Proof.
  intros Hz. apply triple_modify; [apply at_b_stable..|]. intros d Hg Hb.
  pose proof Hb as [H1 H2 H3 H4 H5 H6 H7 H8 H9].
  destruct (pool_own_ok t (add_blocking (-1) (aux d t)) (m_operations_counter d) (m_max_threads d - 1)
    (m_active_threads d) (m_idle_threads d) (m_operations d) (log d) d Hg H1) as [G K]; try (own_side Hg t).
  - unfold token, pending; simpl. lia.
  - apply Hg.
  - by eapply at_not_slot.
  - intros Hc. destruct (watched d t Hg Hc) as [[[Hl|[_ Hl]]|[Hl _]]|?]; [by left; left; left|lia|congruence|by right; left].
  - apply Hg.
  - split_and!; [exact G|exact K|].
    refine (own_at _ _ _ _ _ t d (add_blocking (-1) (aux d t)) _ _ _ _ _ (log d) _ _ _ Hb _ _ _ _ _ _ _); simpl; try done. rewrite H9. lia.
Qed.

Lemma notify_blocked_spec w b t :
  (0 <= b)%Z ->
  triple protocol t (at_b w false false None b t) (notify_thread_blocked slots false t)
    (fun _ => at_b w false false None (b + 1) t).
Proof. intros Hb. eapply triple_bind; [by apply blocked_spec|]. intros ?. apply schedule_spec. Qed.

Lemma block_scope_spec w b t :
  (0 <= b)%Z ->
  triple protocol t (at_b w false false None b t)
    (do! notify_thread_blocked slots false t in notify_thread_unblocked t)
    (fun _ => at_b w false false None b t).
Proof. intros Hb. eapply triple_bind; [by apply notify_blocked_spec|]. intros ?. by apply unblocked_spec. Qed.

Lemma pool_execute_op_spec w b t j :
  triple protocol t (at_b w false false None b t)
    (run_with_threadpool t (execute_op slots false t j)) (fun _ => at_b w false false None b t).
Proof.
  unfold run_with_threadpool, execute_op.
  eapply triple_bind; [by apply (triple_read t _ _ _ (fun _ => at_b w false false None b t)); [apply at_b_stable|intros; apply at_b_stable|]|].
  intros previous.
  eapply triple_bind; [by apply quiet_spec; [apply at_b_stable|intros; apply current_ok]|]. intros ?.
  eapply triple_bind.
  - eapply triple_bind; [apply triple_each; [apply at_b_stable|intros; apply pool_execute_spec]|].
    intros ?. apply quiet_spec; [apply at_b_stable|intros d; by apply log_ok].
  - intros ?. eapply triple_bind; [by apply quiet_spec; [apply at_b_stable|intros; apply current_ok]|].
    intros ?. apply triple_skip, at_b_stable.
Qed.

(** ** A worker *)
Lemma worker_turn_spec spins t :
  triple protocol t (at_ Live 0 0 false false None 0 t) (worker_turn slots false spins t)
    (fun r => at_ (match r with inl _ => Live | inr _ => Gone end)
                  (match r with inl _ => 0 | inr _ => 1 end) 0 false false None 0 t).
Proof.
  unfold worker_turn. eapply triple_bind.
  { apply (triple_read t _ _ _ (fun c d => c = false /\ at_ Live 0 0 false false None 0 t d)).
    - apply at_stable.
    - intros c d d' [? ?] ? ? ?. split; [done|by eapply at_stable].
    - intros d Hg Hd. split; [apply Hg|done]. }
  intros [|]; [by apply triple_absurd; intros d _ [? _]|].
  eapply triple_bind; [eapply triple_pre; [apply acquire_spec|by intros d _ [_ ?]]|].
  intros [|]; [|by apply triple_ret; [apply (acquired_stable false)|]].
  eapply triple_bind; [apply search_spec|]. intros [j|]; [|by apply triple_absurd].
  eapply triple_bind; [apply pool_execute_op_spec|]. intros ?. by apply triple_ret; [apply at_b_stable|].
Qed.

(** A slot that may not have become a worker yet. *)
Definition slot (t : nat) (d : data) : Prop :=
  t < slots /\ (t < next d -> at_ Live 0 0 false false None 0 t d).

Lemma slot_stable t : stable protocol t (slot t).
Proof.
  intros d d' [Ht Hs] Hg Hg' K. split; [done|]. intros Hn.
  destruct (decide (t < next d)) as [Hlt|Hge]; [by eapply at_stable; [apply Hs|..]|].
  pose proof (g_slot _ Hg t ltac:(lia)) as E. destruct K.
  assert (Hw : wk (aux d' t) <> Unborn) by (by apply (g_born _ Hg')).
  split; rewrite ?E in *; simpl in *; try done; try lia; auto; congruence.
Qed.

Lemma pool_run_spec spins t :
  triple protocol t (slot t) (run slots false spins t) (fun _ => at_ Gone 1 0 false false None 0 t).
Proof.
  unfold run. eapply triple_bind.
  { apply (triple_block t _ _ _ (fun _ => at_ Live 0 0 false false None 0 t));
      [apply slot_stable|intros; apply at_stable| |].
    - intros d Hg [Ht Hs]. destruct (Nat.ltb_spec t (next d)) as [Hlt|].
      + left. apply enabled_0. by destruct (Nat.ltb_spec t (next d)); [|lia].
      + right. left. lia.
    - intros o d d' a Hg [Ht Hs] E. destruct (Nat.ltb_spec t (next d)); simplify_eq/=.
      split_and!; [done|apply guar_refl|auto]. }
  intros ?. eapply triple_bind.
  { apply (triple_iter t _ _ (fun _ => at_ Live 0 0 false false None 0 t));
      [intros; apply at_stable|intros; apply at_stable|].
    intros ?. eapply triple_post; [apply worker_turn_spec|]. by intros [[]|[]] d _ H. }
  intros ?. apply quiet_spec; [apply at_stable|intros d; by apply log_ok].
Qed.

(** ** The users of the pool *)
Definition no_destroy (c : call) : Prop := match c with Destroy => False | _ => True end.

Lemma client_spec t cs :
  Forall no_destroy cs ->
  triple protocol t (at_b Unborn false false None 0 t) (each (run_call slots false t) cs)
    (fun _ => at_b Unborn false false None 0 t).
Proof.
  intros Hc. apply triple_each; [apply at_b_stable|]. intros c Hin.
  rewrite Forall_forall in Hc. apply list_elem_of_In in Hin. specialize (Hc c Hin).
  destruct c; [apply pool_execute_spec|by apply block_scope_spec|destruct Hc].
Qed.
(** ** The whole process *)
Definition before (t : nat) (d : data) : Prop :=
  if decide (t < slots) then slot t d else t < n -> at_b Unborn false false None 0 t d.
Definition after (t : nat) : data -> Prop :=
  if decide (t < slots) then at_ Gone 1 0 false false None 0 t else at_b Unborn false false None 0 t.

Lemma make_data_good : good (make_data thread_count).
Proof.
  assert (E : forall g : auxiliary -> Z, g aux0 = 0%Z -> total n (fun _ => g aux0) = 0%Z).
  { intros g E. by apply total_zero. }
  split; simpl; try done; try lia.
  - by rewrite (E token), (E pending).
  - by rewrite (total_zero n (fun _ => (0 - 0)%Z)).
  - by rewrite (total_zero n (fun _ => 0%Z)).
  - rewrite (total_zero n (fun _ => 0%Z)) by done. lia.
  - intros t. split; [done|lia].
Qed.

Lemma thread_spec spins scripts t p :
  n = slots + length scripts -> Forall (Forall no_destroy) scripts ->
  (start slots false spins thread_count scripts).2 !! t = Some p ->
  triple protocol t (before t) p (fun _ => after t).
Proof.
  intros Hn Hc Hp. assert (Ht : t < n).
  { apply lookup_lt_Some in Hp. simpl in Hp.
    rewrite length_app, length_map, length_seq, length_imap in Hp. lia. }
  unfold before, after. simpl in Hp. destruct (decide (t < slots)) as [Hlt|Hge].
  - rewrite lookup_app_l in Hp by (rewrite length_map, length_seq; done).
    rewrite list_lookup_fmap, lookup_seq_lt in Hp by done. simplify_eq/=. apply pool_run_spec.
  - rewrite lookup_app_r in Hp by (rewrite length_map, length_seq; lia).
    rewrite length_map, length_seq in Hp. rewrite list_lookup_imap in Hp.
    destruct (scripts !! (t - slots)) as [cs|] eqn:E; simplify_eq/=.
    replace (slots + (t - slots)) with t by lia.
    eapply triple_pre; [apply client_spec|intros d _ H; by apply H].
    apply (Forall_lookup_1 _ _ _ _ Hc E).
Qed.

Lemma pool_sound spins scripts c :
  n = slots + length scripts -> Forall (Forall no_destroy) scripts ->
  reach (start slots false spins thread_count scripts) c ->
  sound protocol (make_data thread_count) after c.
Proof.
  intros Hn Hc Hr. destruct (start slots false spins thread_count scripts) as [s0 ps] eqn:E.
  assert (s0 = make_data thread_count) as -> by (by injection E).
  apply (rg_sound (W := protocol) before after _ ps).
  - apply make_data_good.
  - intros t. unfold before. case_decide; [by split; [|simpl; lia]|].
    intros Ht. split; simpl; try done. lia.
  - intros t p Hp. apply (thread_spec spins scripts); [done..|by rewrite E].
  - done.
Qed.
(** A thread that has nothing to do with the queued operations. *)
Definition resting (a : auxiliary) : Prop := token a = 0%Z /\ pending a = 0%Z /\ ~ lively a.

Lemma at_resting w lf idl cg b t d :
  at_ w lf idl false false cg b t d -> w = Unborn \/ w = Gone \/ (w = Live /\ b <> 0%Z) -> resting (aux d t).
Proof.
  unfold resting, token, pending, lively, free_worker. intros [_ _ -> _ _ -> -> _ ->] Hw.
  split_and!; [by destruct Hw as [->|[->|[-> _]]]|done|]. intros [[->|[-> ->]]|[[=] _]]; intuition congruence.
Qed.
Lemma after_resting t d : after t d -> resting (aux d t).
Proof. unfold after. destruct (decide (t < slots)); intros H; eapply at_resting; [exact H|auto|exact H|auto]. Qed.

Lemma slot_resting t d : good d -> next d <= t < slots -> resting (aux d t).
Proof.
  intros Hg Hw. rewrite (g_slot _ Hg t Hw). unfold resting, token, pending, lively, free_worker; simpl. intuition congruence.
Qed.

(** When all threads rest, nothing is queued. *)
Lemma resting_empty d : good d -> (forall t, t < n -> resting (aux d t)) -> queued (m_operations d) = [].
Proof.
  intros Hg Hq. apply length_zero_iff_nil. pose proof (g_tokens _ Hg) as Hk.
  rewrite (total_zero n (fun t => token (aux d t))), (total_zero n (fun t => pending (aux d t))) in Hk
    by (intros; by apply Hq).
  destruct (Z_lt_le_dec 0 (m_operations_counter d)) as [Hp|]; [|lia].
  destruct (g_wake _ Hg Hp) as (t & Htn & Hl). by destruct (Hq t Htn) as (_ & _ & []).
Qed.
End proof.


(** No operation is lost.  When no thread can move any more and there was a
    slot left for another worker, nothing is queued: everything handed over has
    been taken. *)
Theorem pool_no_lost_operation slots spins thread_count scripts c :
  (1 <= thread_count)%Z -> Forall (Forall no_destroy) scripts ->
  reach (start slots false spins thread_count scripts) c ->
  next c.1 < slots -> (forall t, t < length c.2 -> ~ can_move c t) ->
  queued (m_operations c.1) = [] /\ submitted (log c.1) ≡ₚ taken (log c.1).
Proof.
  intros Ht Hc Hr Hn Hb. set (n := slots + length scripts).
  pose proof (pool_sound slots n ltac:(lia) thread_count Ht spins scripts c eq_refl Hc Hr) as Hs.
  pose proof (sound_inv Hs) as Hg.
  assert (Hlen : length c.2 = n).
  { rewrite (reach_length _ _ Hr). simpl. by rewrite length_app, length_map, length_seq, length_imap. }
  assert (E : queued (m_operations c.1) = []).
  { refine (resting_empty slots n _ thread_count c.1 Hg _); [lia|]. intros t Htn. destruct (thread_done c t) eqn:Hd.
    - apply (after_resting slots n), (sound_post Hs t Hd).
    - destruct (sound_live Hs t) as [?|[Hw|?]]; [by rewrite Hlen|done|destruct (Hb t); [by rewrite Hlen|done]|simpl in *|simpl in *; lia].
      by apply (slot_resting slots n thread_count). }
  split; [done|]. by rewrite (g_ops _ _ _ _ Hg), E.
Qed.

(** A worker that nobody interferes with: one client, one operation. *)
Definition one : cfg data := start 2 false 1 1 [[Execute (Op 1 []) DEFAULT]].
Definition one_idle : list (nat * nat) := concat (replicate 60 [(2, 0); (0, 0); (0, 1)]).


(** pool_no_lost_operation at the same process. *)
Lemma pool_no_lost_operation_witness :
  queued (m_operations (play one_idle one).1) = [] /\
  submitted (log (play one_idle one).1) ≡ₚ taken (log (play one_idle one).1).
Proof.
  apply (pool_no_lost_operation 2 1 1 [[Execute (Op 1 []) DEFAULT]]); [lia| | | |].
  - by repeat constructor.
  - apply play_reach, reach_here.
  - vm_compute. lia.
  - intros t Ht (o & _ & Ho). do 3 (destruct t as [|t]; [apply Ho; vm_compute; reflexivity|]).
    exfalso. revert Ht. vm_compute. lia.
Defined.

(** The assertion of schedule() that there are never more idle than active
    threads is a race: the two counters are loaded one after the other, and a
    worker that another thread spawns in between, and that has become idle since,
    is seen by the second load only.  The process is terminated. *)
Theorem schedule_assertion_race :
  thread_fault (play (go 2 5 ++ go 3 40 ++ go 0 170 ++ go 2 12)
    (start 2 true 1 1 [[Execute (Op 1 []) DEFAULT]; [Execute (Op 2 []) DEFAULT]])) 2 = Some Terminated.
Proof. vm_compute. reflexivity. Qed.

(** Destroying a pool ends the process: without a worker release(0) fails its
    assertion, and with an idle worker that worker is woken, finds the pool
    cancelled, leaves the search empty-handed and fails the assertion after it. *)
Theorem pool_destroy_terminates :
  let users := start 2 true 1 1 [[Execute (Op 1 []) DEFAULT]; [Destroy]] in
  thread_fault (play (go 3 14) users) 3 = Some Terminated /\
  thread_fault (play (go 2 40 ++ go 0 60 ++ go 3 10 ++ go 0 20) users) 0 = Some Terminated.
Proof. split; vm_compute; reflexivity. Qed.

(** One turn of the search by itself. *)
Lemma search_miss t d label n : m_cancelled d = false -> label < bucket_count ->
  m_operations d label = [] ->
  solo (6 + n) (Iter (search_turn t) label) d = solo n (Iter (search_turn t) (S label)) d.
Proof.
  intros Hc Hl He. cbn. rewrite Hc. cbn.
  destruct (Nat.eqb_spec label bucket_count); [lia|]. cbn. rewrite He. done.
Qed.

Lemma search_hit t d label n j rest : m_cancelled d = false -> label < bucket_count ->
  m_operations d label = j :: rest ->
  solo (6 + n) (Iter (search_turn t) label) d =
  solo n (Ret (Some j)) (with_log (Taken t (op_id j)) (with_aux t (set_wk Live) (with_operations label rest d))).
Proof.
  intros Hc Hl He. cbn. rewrite Hc. cbn -[pick].
  destruct (Nat.eqb_spec label bucket_count); [lia|]. cbn -[pick]. rewrite He.
  unfold pick. by rewrite Nat.Div0.mod_0_l.
Qed.

(** A worker that holds a unit of the semaphore, left to itself, takes from the
    bucket of the highest priority that holds anything, and leaves every other
    bucket as it was; the buckets order the priorities, DEFAULT counting as
    UTILITY. *)
Theorem search_takes_highest t d label j rest :
  m_cancelled d = false -> label < bucket_count ->
  (forall higher, higher < label -> m_operations d higher = []) ->
  m_operations d label = j :: rest ->
  (exists d', solo 40 (search t) d = (d', Some (Some j)) /\
     m_operations d' label = rest /\
     forall other, other <> label -> m_operations d' other = m_operations d other) /\
  map bucket_of [USER_INTERACTIVE; USER_INITIATED; DEFAULT; UTILITY; BACKGROUND] = [0; 1; 2; 2; 3].
Proof.
  intros Hc Hl Hh Hj. split; [|done]. unfold bucket_count, search in *. change 40 with (6 + 34).
  destruct label as [|[|[|[|label]]]]; [..|lia];
    repeat (rewrite search_miss by (done || (unfold bucket_count; lia) || (apply Hh; lia));
            match goal with |- context [solo ?n _ _] => let m := eval cbn in (n - 6) in change n with (6 + m) end);
    rewrite (search_hit _ _ _ _ j rest) by (done || (unfold bucket_count; lia));
    (eexists; split; [reflexivity|]); simpl; (split; [by rewrite fn_same|intros; by rewrite fn_other]).
Qed.

(** search_takes_highest with work in the third bucket. *)
Lemma search_takes_highest_witness :
  exists d', solo 40 (search 0) (with_operations 2 [Op 7 []; Op 8 []] (make_data 1)) = (d', Some (Some (Op 7 []))) /\
    m_operations d' 2 = [Op 8 []].
Proof.
  destruct (search_takes_highest 0 (with_operations 2 [Op 7 []; Op 8 []] (make_data 1)) 2 (Op 7 []) [Op 8 []])
    as [(d' & E & Ho & _) _]; [reflexivity|unfold bucket_count; lia| |reflexivity|by exists d'].
  intros [|[|k]] Hk; [reflexivity..|lia].
Defined.
End PoolProcess.
