(* ===== verification/PoolHost.v ===== *)
(** * PoolHost: what a worker of the pool does, whatever the operations are

    The loop of threadpool::worker (src/naive/naive_threadpool.cpp) inside of a larger
    process: how an operation is taken, and what executing it means, is up to the
    process.  ThreadPool has the pool by itself. *)
From S2P Require Import Prelude Conc Embed ThreadPool.

Module PoolHost.
Import Pool.

Section code.
Context {Σ : Type} (Pt : part Σ data) (spins : nat).
Context (try_dequeue : nat -> nat -> prog Σ (option op)) (execute : nat -> op -> prog Σ unit).

(** for (label = 0; !m_cancelled; ++label) *)
Definition search (t : nat) : prog Σ (option op) :=
  Iter (fun label =>
    let! cancelled := embed Pt (read m_cancelled) in
    if cancelled : bool then Ret (inr None)
    else
      let label := if Nat.eqb label bucket_count then 0 else label in
      let! found := try_dequeue t label in
      Ret (match found with Some j => inr (Some j) | None => inl (S label) end)) 0.

(** worker::run *)
Definition worker_turn (t : nat) : prog Σ (unit + unit) :=
  let! cancelled := embed Pt (read m_cancelled) in
  if cancelled : bool then Ret (inr tt)
  else
    let! go_on := embed Pt (acquire spins t) in
    if go_on : bool then
      let! op := search t in
      match op with
      | Some j => do! execute t j in Ret (inl tt)
      | None => Crash Terminated
      end
    else Ret (inr tt).
Definition run (t : nat) : prog Σ unit :=
  do! await (fun w => Nat.ltb t (next (look Pt w))) id in
  do! Iter (fun _ => worker_turn t) tt in
  embed Pt (modify (with_log (Exited t))).
End code.

(** What a step of the pool leaves alone, but for handing over and taking operations;
    it is blocked only when there are no threads left. *)
Definition still (slots : nat) : property (B := data) := fun A f =>
  (forall d, enabled (fun o => f o d) \/ ~ next d < slots) /\
  forall o d d' a, f o d = Some (d', a) ->
    m_operations d' = m_operations d /\ current d' = current d /\
    PoolProcess.submitted (log d') = PoolProcess.submitted (log d) /\
    PoolProcess.taken (log d') = PoolProcess.taken (log d).

Section still.
Context (slots spins : nat).

Lemma still_atomic {A} (f : data -> data * A) :
  (forall d, let d' := (f d).1 in m_operations d' = m_operations d /\ current d' = current d /\
    PoolProcess.submitted (log d') = PoolProcess.submitted (log d) /\
    PoolProcess.taken (log d') = PoolProcess.taken (log d)) -> acts (still slots) (atomic f).
Proof.
  intros Hf. split; [intros d; left; by apply enabled_0|]. intros o d d' a E. simpl in E.
  specialize (Hf d). destruct (f d). by injection E as <- _.
Qed.
Lemma still_modify f :
  (forall d, m_operations (f d) = m_operations d /\ current (f d) = current d /\
    PoolProcess.submitted (log (f d)) = PoolProcess.submitted (log d) /\
    PoolProcess.taken (log (f d)) = PoolProcess.taken (log d)) -> acts (still slots) (modify f).
Proof.
  intros Hf. split; [intros d; left; by apply enabled_0|]. intros o d d' a E. by injection E as <- _.
Qed.
Lemma still_read {A} (f : data -> A) : acts (still slots) (read f).
Proof. split; [intros d; left; by apply enabled_0|]. intros o d d' a E. by injection E as <- _. Qed.

Lemma still_spawn t : acts (still slots) (spawn slots t).
Proof.
  split.
  - intros d. destruct (Nat.ltb_spec (next d) slots); [left|by right; lia].
    apply enabled_0. by destruct (Nat.ltb_spec (next d) slots); [|lia].
  - intros o d d' a E. simpl in E. destruct (Nat.ltb (next d) slots); [|done]. by injection E as <- _.
Qed.

Lemma still_schedule t : acts (still slots) (schedule slots false t).
Proof.
  split; [|intros active; split; [|intros idle; simpl; split; [done|intros _; split; [done|intros _; split; [done|intros _]]]]].
  - by apply still_atomic.
  - apply still_atomic. intros d. simpl. by destruct (0 <? _)%Z.
  - destruct (0 <? idle)%Z; [done|]. split.
    { apply still_atomic. intros d. simpl. by destruct (_ <? _)%Z. }
    intros m. destruct (active <? m)%Z; [|done]. split; [apply still_spawn|]. intros v. by apply still_modify.
Qed.

Lemma still_release t : acts (still slots) (modify (release t)).
Proof. by apply still_modify. Qed.
Lemma still_blocked t : acts (still slots) (notify_thread_blocked slots false t).
Proof. split; [by apply still_modify|]. intros ?. apply still_schedule. Qed.
Lemma still_unblocked t : acts (still slots) (notify_thread_unblocked t).
Proof. by apply still_modify. Qed.
Lemma still_log e : PoolProcess.harmless e -> acts (still slots) (modify (with_log e)).
Proof. intros He. apply still_modify. intros d. by destruct e. Qed.

Lemma still_try t : acts (still slots) (try_acquire t).
Proof. apply still_atomic. intros d. by destruct (0 <? _)%Z. Qed.

Lemma still_acquire t : acts (still slots) (acquire spins t).
Proof.
  split; [apply still_try|]. intros [|]; [done|]. split.
  { intros [|k]; [done|]. split; [apply still_try|done]. }
  intros [|]; [done|]. split; [by apply still_modify|]. intros _. split.
  { split.
    - intros d. left. exists o_timeout. split; [done|]. simpl. by destruct (0 <? _)%Z.
    - intros o d d' a E. simpl in E. destruct (0 <? _)%Z; [by injection E as <- _|].
      destruct (Nat.eqb o o_timeout); [by injection E as <- _|done]. }
  intros r. split; [by apply still_modify|]. intros _. destruct r; [done|]. split; [by apply still_modify|].
  intros _. split; [apply still_atomic; intros d; by destruct (0 <? _)%Z|].
  intros [|]; [|done]. split; [by apply still_modify|done].
Qed.
End still.

(** ** A worker is correct when the process takes and executes operations correctly *)
Section worker.
Context (slots n : nat) (Hslots : slots <= n) (thread_count : Z) (Hcount : (1 <= thread_count)%Z) (spins : nat).
#[local] Abbreviation PP := (PoolProcess.protocol slots n Hslots thread_count).

Context {Σ : Type} (V : Conc.protocol Σ) (Pt : part Σ data).
Context (Hfits : forall t, fits Pt PP V t (still slots)) (Hthen : then_ Pt = None).
(** What a thread knows that has no operation, and one that has. *)
Context (R : nat -> Σ -> Prop) (M : nat -> op -> Σ -> Prop).
Context (HR : forall t, stable V t (R t)) (HM : forall t j, stable V t (M t j)).
Context (HRput : forall t A (f : nat -> data -> option (data * A)) o a w d,
  still slots A f -> inv V w -> f o (look Pt w) = Some (d, a) -> R t w -> R t (put Pt d w)).
Context (Hslot : forall t w, next (look Pt w) <= t < slots -> R t w -> blocked V t w).
Context (try_dequeue : nat -> nat -> prog Σ (option op)) (execute : nat -> op -> prog Σ unit).

(** A worker outside of the operations. *)
Definition at_free (ph : phase) (lf : Z) (t : nat) (w : Σ) : Prop :=
  PoolProcess.at_ slots n ph lf 0 false false None 0 t (look Pt w) /\ R t w.

Context (Htake : forall t label, label < bucket_count ->
  triple V t (at_free Token 0 t) (try_dequeue t label)
    (fun r => match r with Some j => M t j | None => at_free Token 0 t end)).
Context (Hexecute : forall t j, triple V t (M t j) (execute t j) (fun _ => at_free Live 0 t)).

Lemma at_free_stable ph lf t : stable V t (at_free ph lf t).
Proof.
  apply stable_and; [|apply HR]. apply (embed_stable Pt PP V t (still slots) _ (Hfits t)), PoolProcess.at_stable.
Qed.

(** A program of the pool. *)
Lemma host_triple t {A} (p : prog data A) P Q :
  acts (still slots) p -> triple PP t P p Q ->
  triple V t (fun w => P (look Pt w) /\ R t w) (embed Pt p) (fun a w => Q a (look Pt w) /\ R t w).
Proof. apply plain_triple; [done|done|done|]. intros B f o a w b. apply HRput. Qed.

Lemma cancelled_spec ph t :
  triple V t (at_free ph 0 t) (embed Pt (read m_cancelled)) (fun c w => c = false /\ at_free ph 0 t w).
Proof.
  eapply triple_conseq.
  - apply (host_triple t _ (PoolProcess.at_ slots n ph 0 0 false false None 0 t)
      (fun c d => c = false /\ PoolProcess.at_ slots n ph 0 0 false false None 0 t d) (still_read slots _)).
    apply triple_read; [apply PoolProcess.at_stable| |].
    + intros c d d' [? ?] ? ? ?. split; [done|by eapply PoolProcess.at_stable].
    + intros d Hd Hat. split; [apply Hd|done].
  - by intros.
  - by intros c w _ [[? ?] ?].
Qed.

Lemma host_search_spec t :
  triple V t (at_free Token 0 t) (search Pt try_dequeue t)
    (fun r w => match r with Some j => M t j w | None => False end).
Proof.
  assert (HT : forall l, stable V t (fun w => at_free Token 0 t w /\ l <= bucket_count)).
  { intros l w w' [? ?] ? ? ?. split; [by eapply at_free_stable|done]. }
  unfold search. eapply triple_pre; [|intros w _ Hat; exact (conj Hat (Nat.le_0_l bucket_count))].
  apply (triple_iter t _ _ (fun label w => at_free Token 0 t w /\ label <= bucket_count));
    [exact HT|intros [j|]; [apply HM|by intros w w' []]|].
  intros label. destruct (decide (label <= bucket_count)) as [Hle|Hgt].
  2: { apply triple_absurd. by intros w _ [_ ?]. }
  eapply triple_bind; [eapply triple_pre; [apply cancelled_spec|by intros w _ [? _]]|].
  intros [|]; [by apply triple_absurd; intros w _ [? _]|].
  set (label' := if Nat.eqb label bucket_count then 0 else label).
  assert (Hl : label' < bucket_count).
  { unfold label'. destruct (Nat.eqb_spec label bucket_count); unfold bucket_count in *; lia. }
  eapply triple_bind; [eapply triple_pre; [by apply Htake|by intros w _ [_ ?]]|].
  intros [j|]; apply triple_ret; [apply HM|done|apply at_free_stable|].
  intros w _ Hat. split; [done|lia].
Qed.

Lemma host_turn_spec t :
  triple V t (at_free Live 0 t) (worker_turn Pt spins try_dequeue execute t)
    (fun r => at_free (match r with inl _ => Live | inr _ => Gone end) (match r with inl _ => 0 | inr _ => 1 end) t).
Proof.
  unfold worker_turn. eapply triple_bind; [apply cancelled_spec|].
  intros [|]; [by apply triple_absurd; intros w _ [? _]|].
  eapply triple_bind.
  { eapply triple_pre; [|intros w _ [_ H]; exact H].
    apply (host_triple t _ _ _ (still_acquire slots spins t) (PoolProcess.acquire_spec slots n Hslots thread_count t spins)). }
  intros [|]; [|by apply triple_ret; [apply (at_free_stable Gone)|]].
  eapply triple_bind; [apply host_search_spec|]. intros [j|]; [|by apply triple_absurd].
  eapply triple_bind; [apply Hexecute|]. intros ?.
  apply triple_ret; [apply at_free_stable|done].
Qed.

(** A slot that may not have become a worker yet. *)
Definition slot (t : nat) (w : Σ) : Prop := PoolProcess.slot slots n t (look Pt w) /\ R t w.

Lemma gone_spec t :
  triple V t (at_free Gone 1 t) (embed Pt (modify (with_log (Exited t)))) (fun _ => at_free Gone 1 t).
Proof.
  apply (host_triple t _ _ (fun _ => PoolProcess.at_ slots n Gone 1 0 false false None 0 t)).
  - by apply still_log.
  - apply PoolProcess.quiet_spec; [apply PoolProcess.at_stable|intros d; by apply PoolProcess.log_ok].
Qed.

Lemma host_run_spec t :
  triple V t (slot t) (run Pt spins try_dequeue execute t) (fun _ => at_free Gone 1 t).
Proof.
  unfold run. eapply triple_bind.
  { apply (triple_block t _ _ _ (fun _ => at_free Live 0 t)).
    - apply stable_and; [|apply HR]. apply (embed_stable Pt PP V t (still slots) _ (Hfits t)), PoolProcess.slot_stable.
    - intros; apply at_free_stable.
    - intros w Hw [[Ht Hs] Hf]. destruct (Nat.ltb_spec t (next (look Pt w))) as [Hlt|].
      + left. apply enabled_0. by destruct (Nat.ltb_spec t (next (look Pt w))); [|lia].
      + right. by apply Hslot.
    - intros o w w' a Hw [[Ht Hs] Hf] E. destruct (Nat.ltb_spec t (next (look Pt w))); simplify_eq/=.
      split_and!; [done|apply guar_refl|]. by split; [auto|]. }
  intros ?. eapply triple_bind; [|intros ?; apply gone_spec].
  apply (triple_iter t _ _ (fun _ => at_free Live 0 t)); [intros; apply at_free_stable|intros; apply at_free_stable|].
  intros ?. eapply triple_post; [apply host_turn_spec|]. by intros [[]|[]] w _ H.
Qed.
End worker.
End PoolHost.
