(* ===== verification/PoolQueues.v ===== *)
(** * PoolQueues: serial queues on the pool of threads

    backend::create_serial_queue of src/naive/naive_serial_queue.cpp: any number of
    serial queues (OperationQueue) that share the pool with many threads
    (ThreadPool).  notify_unsafe() calls threadpool::execute, and what a worker takes
    from the pool is drain() of a queue.  The mutex of the queue is held while
    notify_unsafe() is in execute(); here it is given back before, which leaves every
    run of the code and adds some: execute() touches the pool only. *)
From S2P Require Import Prelude Conc Embed Decl OperationQueue QueuePart ThreadPool PoolHost.

Module PoolQueues.
Import OpQueue QueuePart.

(** Queue [i] is [queues i]; its notification is operation [i] of the pool.
    [notifying i] is the thread inside of notify_unsafe() of queue [i] that has not
    called execute() yet. *)
Record world := World {
  queues : nat -> QueueProcess.process;
  pool : Pool.data;
  notifying : nat -> option nat
}.

Section code.
Context (slots : nat) (asserts : bool) (spins : nat).
(** m_priority of each queue. *)
Context (m_priority : nat -> queue_priority).

Definition pool_part : part world Pool.data :=
  Part pool (fun d w => World (queues w) d (notifying w)) None.

(** notify_unsafe() *)
Definition notify (t i : nat) : prog world unit :=
  let! mine := read (fun w => bool_decide (notifying w i = Some t)) in
  if mine : bool then
    do! modify (fun w => World (queues w) (Pool.enqueue t (Pool.Op i []) (Pool.bucket_of (m_priority i)) (pool w))
                           (<[i := None]> (notifying w))) in
    do! embed pool_part (modify (Pool.release t)) in
    embed pool_part (Pool.schedule slots asserts t)
  else Ret tt.

Definition install (t i : nat) (s' : QueueProcess.process) (w : world) : world :=
  World (<[i := s']> (queues w)) (pool w)
    (if existsb is_notify (news (queues w i) s') then <[i := Some t]> (notifying w) else notifying w).
Definition queue_part (t i : nat) : part world QueueProcess.process :=
  Part (fun w => queues w i) (install t i) (Some (notify t i)).

Definition async (t i : nat) (j : op) : prog world unit := embed (queue_part t i) (QueueProcess.async j).
Definition detach (t i : nat) : prog world unit := embed (queue_part t i) (QueueProcess.section_ (detach t)).

(** try_dequeue: the notification that is taken is no longer outstanding. *)
Definition taken (t label : nat) (j : Pool.op) (l : list Pool.op) (w : world) : world :=
  let i := Pool.op_id j in
  World (<[i := QueueProcess.woken t (queues w i)]> (queues w))
    (Pool.with_log (Pool.Taken t i) (Pool.with_aux t (Pool.set_wk Pool.Live) (Pool.with_operations label l (pool w))))
    (notifying w).
Definition try_dequeue (t label : nat) : prog world (option Pool.op) :=
  Act (fun o w =>
    if Nat.eqb o o_spurious then Some (w, None)
    else match Pool.pick o (Pool.m_operations (pool w) label) with
         | Some (j, l) => Some (taken t label j l w, Some j)
         | None => Some (w, None)
         end).
(** An operation of the pool is the notification of a queue. *)
Definition run_with_threadpool (t : nat) (j : Pool.op) : prog world unit :=
  let! previous := embed pool_part (read (fun d => Pool.current d t)) in
  do! embed pool_part (modify (Pool.with_current t true)) in
  do! embed (queue_part t (Pool.op_id j)) (QueueProcess.drain t) in
  do! embed pool_part (modify (Pool.with_log (Pool.Finished t (Pool.op_id j)))) in
  embed pool_part (modify (Pool.with_current t previous)).

(** worker::run *)
Definition run (t : nat) : prog world unit :=
  PoolHost.run pool_part spins try_dequeue run_with_threadpool t.

(** Other threads queue operations, release queues and wait inside of the pool. *)
Inductive call := Async (i : nat) (j : op) | Detach (i : nat) | BlockScope.
Definition run_call (t : nat) (c : call) : prog world unit :=
  match c with
  | Async i j => async t i j
  | Detach i => detach t i
  | BlockScope =>
      embed pool_part (do! Pool.notify_thread_blocked slots asserts t in Pool.notify_thread_unblocked t)
  end.
Definition init (thread_count : Z) : world :=
  World (fun _ => QueueProcess.init) (Pool.make_data thread_count) (fun _ => None).
Definition start (thread_count : Z) (scripts : list (list call)) : cfg world :=
  (init thread_count,
   map run (seq 0 slots) ++ imap (fun t cs => each (run_call (slots + t)) cs) scripts).
End code.

(** ** How the parts agree *)
Definition stage_at (w : world) (i : nat) : QueueProcess.stage := QueueProcess.stage_of (queues w i).
(** The notifications the pool has. *)
Definition ids (w : world) : list nat := map Pool.op_id (PoolProcess.queued (Pool.m_operations (pool w))).

Section proof.
Context (slots n : nat) (Hslots : slots <= n) (thread_count : Z) (Hcount : (1 <= thread_count)%Z).
Context (spins : nat) (m_priority : nat -> queue_priority).

#[local] Abbreviation PP := (PoolProcess.protocol slots n Hslots thread_count).
#[local] Abbreviation QP := QueueProcess.protocol.

(** A notification that is outstanding is in the pool or on its way, once. *)
Record good (w : world) : Prop := {
  good_pool : PoolProcess.good slots n thread_count (pool w);
  good_queue i : QueueProcess.good (queues w i);
  good_once : NoDup (ids w);
  good_place i : stage_at w i = QueueProcess.Notified <-> i ∈ ids w \/ notifying w i <> None;
  good_apart i : i ∈ ids w -> notifying w i = None
}.

Record keeps (t : nat) (w w' : world) : Prop := {
  keeps_pool : PoolProcess.keeps slots t (pool w) (pool w');
  keeps_queue i : QueueProcess.keeps t (queues w i) (queues w' i);
  keeps_notifying i : notifying w' i = Some t <-> notifying w i = Some t
}.
#[local] Existing Instance QueueProcess.queue_keeps_pre.
#[local] Instance pool_pre t : PreOrder (PoolProcess.keeps slots t) := PoolProcess.pool_keeps_pre slots n Hslots t.
#[export] Instance pooled_keeps_pre t : PreOrder (keeps t).
Proof.
  split; [by split|]. intros x y z [H1 H2 H5] [H3 H4 H6].
  split; [by transitivity (pool y)|intros i; by transitivity (queues y i)|].
  intros i. by rewrite H6, H5.
Qed.

(** Thread [t] drains no queue and has no notification to hand over. *)
Definition free (t : nat) (w : world) : Prop :=
  forall i, ~ QueueProcess.owns t (stage_at w i) /\ notifying w i <> Some t.

Definition waits (t : nat) (w : world) : Prop :=
  Pool.next (pool w) = slots \/ (Pool.next (pool w) <= t < slots /\ free t w).
Definition protocol : Conc.protocol world := Protocol good keeps waits pooled_keeps_pre.

Lemma pool_stable t P : stable PP t P -> stable protocol t (fun w => P (pool w)).
Proof. intros HP w w' H G G' K. eapply HP; [exact H|apply G|apply G'|apply K]. Qed.
Lemma queue_stable i t P : stable QP t P -> stable protocol t (fun w => P (queues w i)).
Proof. intros HP w w' H G G' K. eapply HP; [exact H|apply G|apply G'|apply K]. Qed.

(** Nothing to hand over, but for queue [i] when [b]; no queue is drained but [i]. *)
Definition only (b : bool) (i t : nat) (w : world) : Prop :=
  (forall k, notifying w k = Some t -> b = true /\ k = i) /\
  (forall k, k <> i -> ~ QueueProcess.owns t (stage_at w k)).

Lemma only_stable b i t : stable protocol t (only b i t).
Proof.
  intros w w' [H1 H2] _ _ [_ K2 K3]. split.
  - intros k Hk%K3. auto.
  - intros k Hk. apply K2. by apply H2.
Qed.
Lemma pooled_free_stable t : stable protocol t (free t).
Proof.
  intros w w' H _ _ [_ K2 K3] i. destruct (H i) as [H1 H2]. split; [by apply K2|]. by rewrite K3.
Qed.

Lemma free_only i t w : free t w <-> only false i t w /\ ~ QueueProcess.owns t (stage_at w i).
Proof.
  split.
  - intros H. split; [|by apply H]. split; [|intros k _; by apply H]. intros k Hk. by destruct (H k).
  - intros [[H1 H2] H3] k. split; [|by intros [? _]%H1].
    destruct (decide (k = i)) as [->|]; [done|by apply H2].
Qed.

(** ** The pool as a part *)
Definition kept : property (B := Pool.data) := fun A f =>
  (forall d, enabled (fun o => f o d) \/ ~ Pool.next d < slots) /\
  forall o d d' a, f o d = Some (d', a) -> Pool.m_operations d' = Pool.m_operations d.

Lemma still_kept A (f : nat -> Pool.data -> option (Pool.data * A)) : PoolHost.still slots A f -> kept A f.
Proof. intros [H1 H2]. split; [done|]. intros o d d' a E. by destruct (H2 o d d' a E). Qed.

Lemma pool_fits t : fits pool_part PP protocol t kept.
Proof.
  split; simpl.
  - done.
  - intros w Hw. apply Hw.
  - intros w w' Hw. apply Hw.
  - intros A f o a w b [_ Hf] [G1 G2 G3 G4 G5] E Hb Hg. pose proof (Hf _ _ _ _ E) as Eo. simpl in Eo.
    split; [split; simpl; try done|].
    + unfold ids. simpl. by rewrite Eo.
    + intros i. unfold ids, stage_at. simpl. rewrite Eo. apply G4.
    + intros i. unfold ids. simpl. rewrite Eo. apply G5.
    + intros u Hu. split; simpl; [by apply Hg|done|done].
  - intros A f w [Hf _] Hw _. destruct (Hf (pool w)) as [?|Hn]; [by left|right; left].
    pose proof (PoolProcess.g_next _ _ _ _ (good_pool _ Hw)). lia.
Qed.

(** What a thread knows of the queues is nothing to the pool. *)
Definition about_queues (R : world -> Prop) : Prop :=
  forall w d, R w -> R (World (queues w) d (notifying w)).
Lemma pool_triple t R {A} (p : prog Pool.data A) P Q :
  stable protocol t R -> about_queues R -> acts kept p -> triple PP t P p Q ->
  triple protocol t (fun w => P (pool w) /\ R w) (embed pool_part p) (fun a w => Q a (pool w) /\ R w).
Proof. intros HR Hq. apply (plain_triple _ _ _ _ _ _ _ _ _ (pool_fits t)); [done..|]. intros B f o a w b _ _ _. apply Hq. Qed.

(** The actions of the pool's programs. *)
Lemma kept_modify f : (forall d, Pool.m_operations (f d) = Pool.m_operations d) -> acts kept (modify f).
Proof.
  intros Hf. split; [intros d; left; by apply enabled_0|]. intros o d d' a E. by injection E as <- _.
Qed.
Lemma kept_still {A} (p : prog Pool.data A) : acts (PoolHost.still slots) p -> acts kept p.
Proof. apply acts_mono, still_kept. Qed.

(** ** Handing over a notification *)
Lemma about_queue i (S : QueueProcess.process -> Prop) b t :
  about_queues (fun w => S (queues w i) /\ only b i t w).
Proof. intros w d H. exact H. Qed.

Lemma enqueued_good i t w ph b :
  good w -> notifying w i = Some t -> PoolProcess.at_b slots n ph false false None b t (pool w) ->
  let w' := World (queues w) (Pool.enqueue t (Pool.Op i []) (Pool.bucket_of (m_priority i)) (pool w))
              (<[i := None]> (notifying w)) in
  good w' /\ guar protocol t w w' /\ PoolProcess.at_b slots n ph true false None b t (pool w').
Proof.
  intros [G1 G2 G3 G4 G5] Hi Hb w'.
  destruct (PoolProcess.enqueue_ok slots n Hslots thread_count ph b t (Pool.Op i []) _ (pool w)
    (PoolProcess.bucket_of_count (m_priority i)) G1 Hb) as (E1 & E2 & E3).
  assert (Hp : ids w' ≡ₚ i :: ids w).
  { unfold ids, w'. simpl. rewrite PoolProcess.queued_add by apply PoolProcess.bucket_of_count. done. }
  assert (Hni : i ∉ ids w) by (intros Hin%G5; congruence).
  split_and!; [split; simpl|..]; [done|done| | | |..|done].
  - rewrite Hp. by apply list.NoDup_cons.
  - intros k. change (stage_at w' k) with (stage_at w k). rewrite G4, Hp, elem_of_cons.
    destruct (decide (i = k)) as [<-|]; fn; [|intuition congruence]. split; [by auto|]. intros _. right. by rewrite Hi.
  - intros k. rewrite Hp, elem_of_cons. destruct (decide (i = k)) as [<-|Hk]; fn; [done|].
    intros [->|Hin]; [done|by apply G5].
  - intros u Hu. split; simpl; [by apply E2|done|]. intros k. destruct (decide (i = k)) as [<-|]; fn; [|done].
    rewrite Hi. split; congruence.
Qed.

Lemma notify_spec i t ph b (S : QueueProcess.process -> Prop) :
  stable QP t S ->
  triple protocol t
    (fun w => S (queues w i) /\ PoolProcess.at_b slots n ph false false None b t (pool w) /\ only true i t w)
    (notify slots false m_priority t i)
    (fun _ w => S (queues w i) /\ PoolProcess.at_b slots n ph false false None b t (pool w) /\ only false i t w).
Proof.
  intros HS.
  assert (HSo : forall b, stable protocol t (fun w => S (queues w i) /\ only b i t w)).
  { intros b'. apply stable_and; [by apply (queue_stable i t S)|apply only_stable]. }
  assert (HA : forall e d c b', stable protocol t (fun w =>
    PoolProcess.at_b slots n ph e d c b t (pool w) /\ S (queues w i) /\ only b' i t w)).
  { intros e d c b'. apply stable_and; [apply pool_stable, PoolProcess.at_b_stable|apply HSo]. }
  unfold notify. eapply triple_conseq with (P := fun w => PoolProcess.at_b slots n ph false false None b t (pool w) /\
    S (queues w i) /\ only true i t w) (Q := fun _ w => PoolProcess.at_b slots n ph false false None b t (pool w) /\
    S (queues w i) /\ only false i t w); [|by intros w _ (? & ? & ?)|by intros a w _ (? & ? & ?)].
  eapply triple_bind.
  { apply (triple_read t _ _ _ (fun mine w => (PoolProcess.at_b slots n ph false false None b t (pool w) /\
      S (queues w i) /\ only true i t w) /\ (mine = true <-> notifying w i = Some t))).
    - apply HA.
    - intros mine w w' [H1 H2] G G' K. split; [by eapply HA|]. by rewrite (keeps_notifying _ _ _ K).
    - intros w _ H. split; [done|]. apply bool_decide_eq_true. }
  intros [|].
  - eapply triple_bind.
    { apply (triple_modify t _ _ (fun _ w => PoolProcess.at_b slots n ph true false None b t (pool w) /\
        S (queues w i) /\ only false i t w)); [|apply HA|].
      - intros w w' [H1 H2] G G' K. split; [by eapply HA|]. by rewrite (keeps_notifying _ _ _ K).
      - intros w Hw [(Hb & HSw & [O1 O2]) [Hm _]]. specialize (Hm eq_refl).
        destruct (enqueued_good i t w ph b Hw Hm Hb) as (E1 & E2 & E3). split_and!; [done|done|done|done|].
        split; [|exact O2]. intros k. simpl. destruct (decide (i = k)) as [<-|]; fn; [done|].
        intros Hk. destruct (O1 k Hk). congruence. }
    intros ?. eapply triple_bind.
    { apply (pool_triple t _ _ _ (fun _ => PoolProcess.at_b slots n ph false true None b t) (HSo false) (about_queue i S false t)).
      - by apply kept_modify.
      - apply PoolProcess.pool_release_spec. }
    intros ?. apply (pool_triple t _ _ _ (fun _ => PoolProcess.at_b slots n ph false false None b t) (HSo false) (about_queue i S false t)).
    + apply kept_still, PoolHost.still_schedule.
    + by apply PoolProcess.schedule_spec.
  - apply triple_ret.
    + intros w w' [H1 H2] G G' K. split; [by eapply HA|]. by rewrite (keeps_notifying _ _ _ K).
    + intros w _ [(H1 & H2 & [O1 O2]) H3]. split_and!; [done|done|]. split; [|done].
      intros k Hk. destruct (O1 k Hk) as [_ ->]. by apply H3 in Hk.
Qed.

(** ** A queue as a part *)
Lemma pooled_install_ok t i w s' es :
  good w -> QueueProcess.good s' -> guar QP t (queues w i) s' ->
  QueueProcess.log s' = es ++ QueueProcess.log (queues w i) -> Forall taken_by_nobody es ->
  good (install t i s' w) /\ guar protocol t w (install t i s' w).
Proof.
  intros [G1 G2 G3 G4 G5] Hs' Hg El He. unfold install. rewrite (news_app _ _ _ El).
  destruct (QueueProcess.good_stage _ Hs') as (sp' & R' & _ & S' & _).
  destruct (QueueProcess.good_stage _ (G2 i)) as (sp & R & _ & S & _).
  rewrite El in R'. destruct (notified_events _ es sp sp' He R R') as [N1 N2]. rewrite <- S, <- S' in *.
  change (QueueProcess.stage_of (queues w i)) with (stage_at w i) in *.
  assert (Hno : existsb is_notify es = true -> (i ∉ ids w) /\ notifying w i = None).
  { intros Hn%N1. rewrite G4 in Hn. split; [tauto|]. destruct (notifying w i); [|done]. destruct Hn. by right. }
  assert (Hkeep : forall k u, u <> t ->
    (if existsb is_notify es then <[i := Some t]> (notifying w) else notifying w) k = Some u <-> notifying w k = Some u).
  { intros k u Hu. destruct (existsb is_notify es); [|done]. destruct (Hno eq_refl) as [_ Hi].
    destruct (decide (i = k)) as [<-|]; fn; [|done]. rewrite Hi. split; congruence. }
  split; [split; simpl|].
  - done.
  - intros k. destruct (decide (i = k)) as [<-|]; fn; [done|apply G2].
  - done.
  - intros k. unfold stage_at. simpl. destruct (decide (i = k)) as [<-|Hk]; fn.
    + rewrite N2, G4. destruct (existsb is_notify es); fn; intuition congruence.
    + change (QueueProcess.stage_of (queues w k)) with (stage_at w k). rewrite G4.
      destruct (existsb is_notify es); by fn.
  - intros k Hk. change (ids _) with (ids w) in Hk. destruct (existsb is_notify es); [|by apply G5].
    destruct (decide (i = k)) as [<-|]; fn; [by destruct (Hno eq_refl)|by apply G5].
  - intros u Hu. split; simpl; [done| |intros k; by apply Hkeep].
    intros k. destruct (decide (i = k)) as [<-|]; fn; [by apply Hg|done].
Qed.

Lemma pooled_queue_fits t i : fits (queue_part slots false m_priority t i) QP protocol t calm.
Proof.
  split; simpl.
  - intros. by fn.
  - intros w Hw. apply Hw.
  - intros w w' Hw. apply Hw.
  - intros A f o a w b [_ Hf] Hw E Hb Hg. destruct (Hf _ _ _ _ E) as (es & El & He). by eapply pooled_install_ok.
  - intros A f w [Hf _] _ _. left. by apply enabled_0.
Qed.

Definition around (ph : Pool.phase) (b : Z) (v : bool) (i t : nat) (w : world) : Prop :=
  PoolProcess.at_b slots n ph false false None b t (pool w) /\ only v i t w.

Lemma around_stable ph b v i t : stable protocol t (around ph b v i t).
Proof. apply stable_and; [apply pool_stable, PoolProcess.at_b_stable|apply only_stable]. Qed.

Lemma queue_frame t i ph b :
  frame (queue_part slots false m_priority t i) QP protocol t calm (around ph b false i t) (around ph b true i t).
Proof.
  split; [apply around_stable..| |].
  - intros A f o a w s' _ _ _ [H1 [H2 H3]]. split; [exact H1|]. split; simpl.
    + intros k Hk. split; [done|]. destruct (existsb is_notify _).
      * destruct (decide (i = k)) as [<-|]; [done|]. fn. by destruct (H2 k Hk).
      * by destruct (H2 k Hk).
    + intros k Hk. unfold stage_at. simpl. fn. by apply H3.
  - intros S HS. simpl. by apply notify_spec.
Qed.

Lemma pooled_queue_triple t i ph b (p : prog QueueProcess.process unit) P Q :
  acts calm p -> triple QP t P p Q ->
  triple protocol t (fun w => P (queues w i) /\ around ph b false i t w)
    (embed (queue_part slots false m_priority t i) p) (fun a w => Q a (queues w i) /\ around ph b false i t w).
Proof. apply (embed_triple _ _ _ _ _ (pooled_queue_fits t i) _ _ (queue_frame t i ph b)). Qed.

(** ** A worker *)
#[local] Abbreviation at_free := (PoolHost.at_free slots n pool_part free).

Lemma pool_at_free_stable ph lf t : stable protocol t (at_free ph lf t).
Proof. apply stable_and; [apply pool_stable, PoolProcess.at_stable|apply pooled_free_stable]. Qed.

(** A worker that has taken the notification of queue [i]. *)
Definition awake (i t : nat) (w : world) : Prop :=
  stage_at w i = QueueProcess.Awake t /\ around Pool.Live 0 false i t w.

Lemma taken_ok t label j l w :
  good w -> at_free Pool.Token 0 t w -> label < Pool.bucket_count ->
  Pool.m_operations (pool w) label ≡ₚ j :: l ->
  good (taken t label j l w) /\ guar protocol t w (taken t label j l w) /\
  awake (Pool.op_id j) t (taken t label j l w).
Proof.
  intros [G1 G2 G3 G4 G5] [Hat Hf] Hl Hp. set (i := Pool.op_id j).
  destruct (PoolProcess.dequeue_ok slots n Hslots thread_count t (pool w) label j l G1 Hat Hl Hp) as (D1 & D2 & D3).
  pose proof (PoolProcess.queued_remove _ label j l Hl Hp) as Hq.
  assert (Hi : ids w ≡ₚ i :: ids (taken t label j l w)).
  { unfold ids. rewrite Hq. done. }
  rewrite Hi in G3. apply list.NoDup_cons in G3 as [Hni G3].
  assert (Hin : i ∈ ids w) by (rewrite Hi; apply list_elem_of_here).
  pose proof (proj2 (G4 i) (or_introl Hin)) as Hst. pose proof (G5 i Hin) as Hno.
  destruct (QueueProcess.woken_ok t (queues w i) (G2 i) Hst) as (W1 & W2 & W3).
  split_and!; [split|..].
  - exact D1.
  - intros k. simpl. fold i. destruct (decide (i = k)) as [<-|]; fn; [done|apply G2].
  - exact G3.
  - intros k. unfold stage_at. simpl. fold i. destruct (decide (i = k)) as [<-|Hk]; fn.
    + rewrite W3, Hno. split; [done|]. by intros [?|?].
    + change (QueueProcess.stage_of (queues w k)) with (stage_at w k). rewrite G4, Hi, elem_of_cons.
      intuition congruence.
  - intros k Hk. simpl. apply G5. rewrite Hi. by right.
  - intros u Hu. split; simpl; [by apply D2| |done]. fold i. intros k.
    destruct (decide (i = k)) as [<-|]; fn; [by apply W2|done].
  - split; [unfold stage_at; simpl; by fn|]. split; [exact D3|]. split.
    + intros k Hk. by destruct (Hf k).
    + intros k Hk. unfold stage_at. simpl. fold i. fn. by apply Hf.
Qed.

Lemma pooled_awake_stable i t : stable protocol t (awake i t).
Proof.
  intros w w' [H1 H2] G G' K. split.
  - destruct (keeps_queue _ _ _ K i) as [K1 _ _]. unfold stage_at in *. rewrite K1, H1; [done|]. by rewrite H1.
  - by eapply around_stable.
Qed.

Lemma pooled_take_spec t label :
  label < Pool.bucket_count ->
  triple protocol t (at_free Pool.Token 0 t) (try_dequeue t label)
    (fun r => match r with Some j => awake (Pool.op_id j) t | None => at_free Pool.Token 0 t end).
Proof.
  intros Hl. apply triple_act; [apply pool_at_free_stable|intros [j|]; [apply pooled_awake_stable|apply pool_at_free_stable]| |].
  - intros w _ _. change (Nat.eqb 0 o_spurious) with false. cbv iota.
    by destruct (Pool.pick 0 (Pool.m_operations (pool w) label)) as [[]|].
  - intros o w w' r Hw Hat E. destruct (Nat.eqb o o_spurious).
    { simplify_eq. split_and!; [done|apply guar_refl|done]. }
    destruct (Pool.pick o (Pool.m_operations (pool w) label)) as [[j l]|] eqn:Ep; simplify_eq.
    + apply PoolProcess.pick_op_Some in Ep. by apply taken_ok.
    + split_and!; [done|apply guar_refl|done].
Qed.

Lemma free_about t : about_queues (free t).
Proof. intros w d H. exact H. Qed.

(** What is around a queue while the thread runs its notification. *)
Lemma around_pool {A} ph b i t (S : QueueProcess.process -> Prop) (p : prog Pool.data A) :
  stable QP t S -> acts kept p ->
  triple PP t (PoolProcess.at_b slots n ph false false None b t) p (fun _ => PoolProcess.at_b slots n ph false false None b t) ->
  triple protocol t (fun w => S (queues w i) /\ around ph b false i t w) (embed pool_part p)
    (fun _ w => S (queues w i) /\ around ph b false i t w).
Proof.
  intros HS Ha Hp. eapply triple_conseq.
  - apply (pool_triple t (fun w => S (queues w i) /\ only false i t w) p (PoolProcess.at_b slots n ph false false None b t) (fun _ => PoolProcess.at_b slots n ph false false None b t)); [|apply about_queue|exact Ha|exact Hp].
    apply stable_and; [by apply (queue_stable i t S)|apply only_stable].
  - intros w _ (H1 & H2 & H3). by split.
  - intros a w _ (H1 & H2 & H3). split; [done|]. by split.
Qed.

Lemma around_free i t w :
  ~ QueueProcess.owns t (stage_at w i) /\ around Pool.Live 0 false i t w -> at_free Pool.Live 0 t w.
Proof. intros (H1 & H2 & H3). split; [done|]. apply (free_only i). by split. Qed.

Lemma with_pool_spec j t :
  triple protocol t (fun w => stage_at w (Pool.op_id j) = QueueProcess.Awake t /\ around Pool.Live 0 false (Pool.op_id j) t w)
    (run_with_threadpool slots false m_priority t j) (fun _ => at_free Pool.Live 0 t).
Proof.
  set (i := Pool.op_id j). unfold run_with_threadpool.
  eapply triple_bind.
  { apply (around_pool Pool.Live 0 i t _ _ (QueueProcess.awake_stable t)); [apply kept_still, PoolHost.still_read|].
    apply triple_read; [apply PoolProcess.at_b_stable|intros; apply PoolProcess.at_b_stable|done]. }
  intros previous. eapply triple_bind.
  { apply (around_pool Pool.Live 0 i t _ _ (QueueProcess.awake_stable t)); [by apply kept_modify|].
    apply PoolProcess.quiet_spec; [apply PoolProcess.at_b_stable|intros; by apply PoolProcess.current_ok]. }
  intros ?. eapply triple_bind; [apply (pooled_queue_triple t i _ _ _ _ _ (calm_drain t) (QueueProcess.drain_spec t))|].
  intros ?. eapply triple_bind.
  { apply (around_pool Pool.Live 0 i t _ _ (QueueProcess.free_stable t)); [by apply kept_modify|].
    apply PoolProcess.quiet_spec; [apply PoolProcess.at_b_stable|intros d; by apply PoolProcess.log_ok]. }
  intros ?. eapply triple_post.
  { apply (around_pool Pool.Live 0 i t _ _ (QueueProcess.free_stable t)); [by apply kept_modify|].
    apply PoolProcess.quiet_spec; [apply PoolProcess.at_b_stable|intros; by apply PoolProcess.current_ok]. }
  intros ? w _ H. exact (around_free i t w H).
Qed.

#[local] Abbreviation slot := (PoolHost.slot slots n pool_part free).
Lemma pool_worker_spec t :
  triple protocol t (slot t) (run slots false spins m_priority t) (fun _ => at_free Pool.Gone 1 t).
Proof.
  apply (PoolHost.host_run_spec slots n Hslots thread_count spins protocol pool_part) with (M := fun t j => awake (Pool.op_id j) t).
  - intros u. apply (fits_mono _ _ _ _ _ _ still_kept), pool_fits.
  - done.
  - apply pooled_free_stable.
  - intros u j. apply pooled_awake_stable.
  - intros u A f o a w d _ _ _. apply free_about.
  - intros u w Hu Hf. right. by split.
  - intros u label. apply pooled_take_spec.
  - intros u j. apply with_pool_spec.
Qed.

(** ** The users of the queues *)
Definition client (t : nat) (w : world) : Prop :=
  PoolProcess.at_b slots n Pool.Unborn false false None 0 t (pool w) /\ free t w.

Lemma client_stable t : stable protocol t (client t).
Proof. apply stable_and; [apply pool_stable, PoolProcess.at_b_stable|apply pooled_free_stable]. Qed.

Lemma client_section t i (p : prog QueueProcess.process unit) :
  acts calm p ->
  triple QP t (fun s => ~ QueueProcess.owns t (QueueProcess.stage_of s)) p
    (fun _ s => ~ QueueProcess.owns t (QueueProcess.stage_of s)) ->
  triple protocol t (client t) (embed (queue_part slots false m_priority t i) p) (fun _ => client t).
Proof.
  intros Ha Hp. eapply triple_conseq; [apply (pooled_queue_triple t i Pool.Unborn 0 _ _ _ Ha Hp)| |].
  - intros w _ [H1 H2]. rewrite (free_only i) in H2. destruct H2 as [H2 H3]. by split_and!.
  - intros ? w _ [H1 [H2 H3]]. split; [done|]. apply (free_only i). by split.
Qed.

Lemma pool_client_spec t c :
  triple protocol t (client t) (run_call slots false m_priority t c) (fun _ => client t).
Proof.
  destruct c as [i j|i|]; cbn [run_call].
  - apply client_section; [apply calm_async|]. apply QueueProcess.async_spec, QueueProcess.free_stable.
  - apply client_section; [apply calm_section, calm_detach|].
    apply QueueProcess.section_quiet; [apply QueueProcess.free_stable|]. intros s Hs _. by apply QueueProcess.detach_ok.
  - apply (pool_triple t (free t) _ (PoolProcess.at_b slots n Pool.Unborn false false None 0 t)
      (fun _ => PoolProcess.at_b slots n Pool.Unborn false false None 0 t) (pooled_free_stable t) (free_about t)).
    + split; [split|].
      * by apply kept_modify.
      * intros _. apply kept_still, PoolHost.still_schedule.
      * intros _. by apply kept_modify.
    + apply (PoolProcess.block_scope_spec slots n Hslots thread_count Hcount Pool.Unborn 0 t). lia.
Qed.

(** ** The whole process *)
Definition before (t : nat) (w : world) : Prop :=
  if decide (t < slots) then slot t w else t < n -> client t w.
Definition after (t : nat) (w : world) : Prop := PoolProcess.after slots n t (pool w) /\ free t w.

Lemma init_free t : free t (init thread_count).
Proof. intros i. split; [by intros []|done]. Qed.

Lemma pooled_init_good : good (init thread_count).
Proof.
  split; simpl.
  - by apply PoolProcess.make_data_good.
  - intros i. apply QueueProcess.queue_init_good.
  - constructor.
  - intros i. split; [done|]. by intros [H|H]; [apply not_elem_of_nil in H|].
  - done.
Qed.

Lemma pool_threads_spec scripts t p :
  n = slots + length scripts ->
  (start slots false spins m_priority thread_count scripts).2 !! t = Some p ->
  triple protocol t (before t) p (fun _ => after t).
Proof.
  intros Hn Hp. assert (Ht : t < n).
  { apply lookup_lt_Some in Hp. simpl in Hp.
    rewrite length_app, length_map, length_seq, length_imap in Hp. lia. }
  unfold before, after, PoolProcess.after. simpl in Hp. destruct (decide (t < slots)) as [Hlt|Hge].
  - rewrite lookup_app_l in Hp by (rewrite length_map, length_seq; done).
    rewrite list_lookup_fmap, lookup_seq_lt in Hp by done. simplify_eq/=. apply pool_worker_spec.
  - rewrite lookup_app_r in Hp by (rewrite length_map, length_seq; lia).
    rewrite length_map, length_seq in Hp. rewrite list_lookup_imap in Hp.
    destruct (scripts !! (t - slots)) as [cs|] eqn:E; simplify_eq/=.
    replace (slots + (t - slots)) with t by lia.
    eapply triple_pre; [|intros w _ H; exact (H Ht)].
    apply triple_each; [apply client_stable|]. intros c _. apply pool_client_spec.
Qed.

Lemma pool_queues_sound scripts c :
  n = slots + length scripts ->
  reach (start slots false spins m_priority thread_count scripts) c ->
  sound protocol (init thread_count) after c.
Proof.
  intros Hn Hr. destruct (start slots false spins m_priority thread_count scripts) as [s0 ps] eqn:E.
  assert (s0 = init thread_count) as -> by (by injection E).
  apply (rg_sound (W := protocol) before after _ ps).
  - apply pooled_init_good.
  - intros t. unfold before. case_decide.
    + split; [by split; [|simpl; lia]|apply init_free].
    + intros Ht. split; [|apply init_free]. split; simpl; try done. lia.
  - intros t p Hp. apply (pool_threads_spec scripts); [done|by rewrite E].
  - done.
Qed.

(** Nobody is at a queue: nothing is outstanding, nothing is queued. *)
Lemma queue_served w i :
  good w -> (forall t, free t w) -> PoolProcess.queued (Pool.m_operations (pool w)) = [] ->
  QueueProcess.late (QueueProcess.log (queues w i)) = false ->
  QueueProcess.started (QueueProcess.log (queues w i)) = QueueProcess.queued (QueueProcess.log (queues w i)) /\
  m_jobs (QueueProcess.q (queues w i)) = [].
Proof.
  intros [G1 G2 G3 G4 G5] Hf He Hl.
  destruct (QueueProcess.good_stage _ (G2 i)) as (sp & H1 & [(js & A1 & A2) A3 A4 A6] & H3 & H4).
  assert (Ei : QueueProcess.at_stage sp = QueueProcess.Idle).
  { rewrite <- H3. change (stage_at w i = QueueProcess.Idle). destruct (stage_at w i) as [| |t|t r k] eqn:E; [done|exfalso..].
    - apply G4 in E as [E|E]; [unfold ids in E; rewrite He in E; by apply not_elem_of_nil in E|].
      destruct (notifying w i) as [t|] eqn:En; [|done]. by destruct (Hf t i).
    - destruct (Hf t i) as [Hn _]. rewrite E in Hn. by apply Hn.
    - destruct (Hf t i) as [Hn _]. rewrite E in Hn. by apply Hn. }
  rewrite Ei in *. simpl in A2. destruct (m_jobs (QueueProcess.q (queues w i))) as [|x l] eqn:Ej.
  - split; [|done]. rewrite (QueueProcess.replay_fifo _ _ H1), A1. destruct js; [|done]. by rewrite app_nil_r.
  - by rewrite H4 in Hl.
Qed.
End proof.



(** Two threads queue on two queues, one of which is released; there may be three
    workers, of which one is started at a time. *)
Definition scripts1 : list (list call) :=
  [[Async 0 (Op 1 [Op 3 []]); Async 0 (Op 2 []); Detach 0]; [Async 1 (Op 20 [Op 21 []])]].
Definition served : cfg world :=
  play (concat (replicate 200 [(3, 0); (4, 0); (0, 0); (1, 0); (2, 0)]) ++
        concat (replicate 40 [(0, 0); (0, 1); (1, 0); (1, 1)]))
    (start 3 false 1 (fun _ => DEFAULT) 1 scripts1).


End PoolQueues.
