(* ===== verification/NestedApply.v ===== *)
(** * NestedApply: operations on the pool that call apply() themselves

    apply() of src/naive/naive_parallel_queue.cpp over the pool of threads
    (ThreadPool): every iteration is an operation of the pool, and whoever calls
    waits until all have been executed (src/naive/naive_consumable.cpp).  An iteration
    may call apply() in turn, so that workers wait for operations that need a worker;
    the block_scope around the wait lets the pool start another one.  The barrier of
    a consumable is taken as LightweightBarrier proves it: who waits goes on once it
    has been completed. *)
From S2P Require Import Prelude Conc Embed Decl ThreadPool PoolHost.

Module NestedApply.

(** Who calls: a thread outside of the pool, or an operation of the pool. *)
Inductive place := Client (t : nat) | Operation (k : nat).

(** What the program's operations do.  Operation [k] makes the calls [calls k], one
    after the other; call [c] is for the iterations [children c], on a queue of
    priority [m_priority c]; the iteration [k] holds the consumable of [parent k]. *)
Record plan := Plan {
  calls : nat -> list nat;
  children : nat -> list nat;
  parent : nat -> nat;
  caller : nat -> place;
  m_priority : nat -> queue_priority
}.

(** The pool; of the consumable of a call: the resources that remain, once it is made,
    and whether its barrier is complete.  The last three are auxiliary: the
    operation a worker is executing, the thread that has taken the last resource and
    not completed the barrier, the operations that have given up their resource. *)
Record world := World {
  pool : Pool.data;
  m_resources : nat -> option Z;
  completed : nat -> bool;
  busy : nat -> option nat;
  last : nat -> option nat;
  done : list nat
}.
Definition with_pool (d : Pool.data) (w : world) : world :=
  World d (m_resources w) (completed w) (busy w) (last w) (done w).
Definition resources (w : world) (c : nat) : Z := default 0%Z (m_resources w c).

Section code.
Context (P : plan) (slots : nat) (asserts : bool) (spins : nat).

Definition pool_part : part world Pool.data := Part pool with_pool None.

(** std::make_shared<consumable>(times) *)
Definition made (c : nat) (w : world) : world :=
  World (pool w) (<[c := Some (Z.of_nat (length (children P c)))]> (m_resources w)) (<[c := false]> (completed w))
    (busy w) (last w) (done w).

(** async: threadpool::execute *)
Definition queued (t c k : nat) (w : world) : world :=
  with_pool (Pool.enqueue t (Pool.Op k []) (Pool.bucket_of (m_priority P c)) (pool w)) w.
Definition async (t c k : nat) : prog world unit :=
  do! modify (queued t c k) in
  do! embed pool_part (modify (Pool.release t)) in
  embed pool_part (Pool.schedule slots asserts t).

(** consumable::wait_for_consumed; block_scope asks for the thread's current pool. *)
Definition wait_for_consumed (t c : nat) : prog world unit :=
  let! left := read (fun w => resources w c) in
  if Z.eqb 0 left then Ret tt
  else
    let! m_pool := embed pool_part (read (fun d => Pool.current d t)) in
    do! if m_pool : bool then embed pool_part (Pool.notify_thread_blocked slots asserts t) else Ret tt in
    do! await (fun w => completed w c) id in
    if m_pool : bool then embed pool_part (Pool.notify_thread_unblocked t) else Ret tt.

Definition apply_ (t c : nat) : prog world unit :=
  do! modify (made c) in
  do! each (async t c) (children P c) in
  wait_for_consumed t c.

(** consumable::consume_resource, by the operation [k]. *)
Definition fetch_sub (t k : nat) (w : world) : world :=
  let c := parent P k in
  let r := resources w c in
  World (pool w) (<[c := Some (wrap_u64 (r - 1))]> (m_resources w)) (completed w)
    (<[t := None]> (busy w)) (if Z.eqb 1 r then <[c := Some t]> (last w) else last w) (k :: done w).
Definition complete (c : nat) (w : world) : world :=
  World (pool w) (m_resources w) (<[c := true]> (completed w)) (busy w) (<[c := None]> (last w)) (done w).
Definition consume_resource (t k : nat) : prog world unit :=
  let! left := read (fun w => resources w (parent P k)) in
  do! xassert (0 <? left)%Z in
  let! previous := atomic (fun w => (fetch_sub t k w, resources w (parent P k))) in
  if Z.eqb 1 previous then modify (complete (parent P k)) else Ret tt.

(** apply_operation, in run_with_threadpool *)
Definition set_current (t : nat) (b : bool) : prog world unit :=
  embed pool_part (modify (Pool.with_current t b)).
Definition run_with_threadpool (t : nat) (j : Pool.op) : prog world unit :=
  let k := Pool.op_id j in
  let! previous := embed pool_part (read (fun d => Pool.current d t)) in
  do! set_current t true in
  do! each (apply_ t) (calls P k) in
  do! consume_resource t k in
  do! embed pool_part (modify (Pool.with_log (Pool.Finished t k))) in
  set_current t previous.

Definition taken (t label : nat) (j : Pool.op) (l : list Pool.op) (w : world) : world :=
  World (Pool.with_log (Pool.Taken t (Pool.op_id j)) (Pool.with_aux t (Pool.set_wk Pool.Live)
      (Pool.with_operations label l (pool w))))
    (m_resources w) (completed w) (<[t := Some (Pool.op_id j)]> (busy w)) (last w) (done w).
Definition try_dequeue (t label : nat) : prog world (option Pool.op) :=
  Act (fun o w =>
    if Nat.eqb o o_spurious then Some (w, None)
    else match Pool.pick o (Pool.m_operations (pool w) label) with
         | Some (j, l) => Some (taken t label j l w, Some j)
         | None => Some (w, None)
         end).

(** The workers, and threads that call apply() a number of times each. *)
Definition worker (t : nat) : prog world unit :=
  PoolHost.run pool_part spins try_dequeue run_with_threadpool t.
Definition init (thread_count : Z) : world :=
  World (Pool.make_data thread_count) (fun _ => None) (fun _ => false) (fun _ => None) (fun _ => None) [].
Definition start (thread_count : Z) (scripts : list (list nat)) : cfg world :=
  (init thread_count,
   map worker (seq 0 slots) ++ imap (fun t cs => each (apply_ (slots + t)) cs) scripts).
End code.

(** Iterations belong to one call, calls to one place, and what an operation calls is
    for others than itself: the numbers go down.  A number of iterations is a size_t. *)
Record well_formed (slots : nat) (P : plan) (scripts : list (list nat)) : Prop := {
  wf_child c k : k ∈ children P c -> parent P k = c /\ k < c;
  wf_distinct c : NoDup (children P c);
  wf_width c : (Z.of_nat (length (children P c)) < 2 ^ 64)%Z;
  wf_call k c : c ∈ calls P k -> caller P c = Operation k;
  wf_below k c : caller P c = Operation k -> c ∈ calls P k /\ c < k;
  wf_once k : NoDup (calls P k);
  wf_root t cs c : scripts !! t = Some cs -> c ∈ cs -> caller P c = Client (slots + t);
  wf_roots t cs : scripts !! t = Some cs -> NoDup cs
}.

(** All an iteration of call [c] leads to. *)
Inductive under (P : plan) (c : nat) : nat -> Prop :=
| under_child k : k ∈ children P c -> under P c k
| under_call k c' j : k ∈ children P c -> c' ∈ calls P k -> under P c' j -> under P c j.

(** What the pool's log says. *)
Definition submitted (w : world) : list nat := PoolProcess.submitted (Pool.log (pool w)).
Definition started (w : world) : list nat := PoolProcess.taken (Pool.log (pool w)).
(** How many iterations of a call have not given up their resource. *)
Definition undone (l D : list nat) : nat := length (filter (fun k => k ∉ D) l).

Lemma undone_other l D k : k ∉ l -> undone l (k :: D) = undone l D.
Proof.
  unfold undone. intros H. induction l as [|x l IH]; [done|]. rewrite not_elem_of_cons in H. destruct H as [Hx H].
  rewrite !filter_cons. specialize (IH H). repeat case_decide; rewrite ?elem_of_cons in *; simpl; intuition congruence.
Qed.
Lemma undone_less l D k : NoDup l -> k ∈ l -> k ∉ D -> undone l D = S (undone l (k :: D)).
Proof.
  intros Hl Hk HD. induction Hl as [|x l Hx Hl IH]; [by apply not_elem_of_nil in Hk|].
  apply elem_of_cons in Hk as [->|Hk].
  - pose proof (undone_other l D x Hx) as E. unfold undone in *. rewrite !filter_cons.
    rewrite decide_True, decide_False by (rewrite ?elem_of_cons; tauto). simpl. by rewrite E.
  - specialize (IH Hk). assert (x <> k) by congruence. unfold undone in *. rewrite !filter_cons.
    repeat case_decide; rewrite ?elem_of_cons in *; simpl; try tauto; lia.
Qed.
Lemma undone_none l D : undone l D = 0 <-> forall k, k ∈ l -> k ∈ D.
Proof.
  unfold undone. rewrite length_zero_iff_nil. split.
  - intros E k Hk. destruct (decide (k ∈ D)) as [|Hn]; [done|]. exfalso.
    apply (not_elem_of_nil (A := nat) k). rewrite <- E. by apply list_elem_of_filter.
  - intros H. induction l as [|x l IH]; [done|]. rewrite filter_cons, decide_False by (intros Hx; apply Hx, H, list_elem_of_here).
    apply IH. intros k Hk. apply H. by apply list_elem_of_further.
Qed.
Lemma undone_all l D : (forall k, k ∈ l -> k ∉ D) -> undone l D = length l.
Proof.
  intros H. unfold undone. induction l as [|x l IH]; [done|]. rewrite filter_cons, decide_True by (apply H, list_elem_of_here).
  simpl. f_equal. apply IH. intros k Hk. apply H. by apply list_elem_of_further.
Qed.
Lemma undone_le l D : undone l D <= length l.
Proof. apply length_filter. Qed.

Section proof.
Context (slots n : nat) (Hslots : slots <= n) (thread_count : Z) (Hcount : (1 <= thread_count)%Z).
Context (spins : nat) (P : plan) (scripts : list (list nat)) (HP : well_formed slots P scripts).

#[local] Abbreviation PP := (PoolProcess.protocol slots n Hslots thread_count).

Record good (w : world) : Prop := {
  good_pool : PoolProcess.good slots n thread_count (pool w);
  good_once : NoDup (submitted w);
  good_child k : k ∈ submitted w -> k ∈ children P (parent P k) /\ m_resources w (parent P k) <> None;
  good_done : NoDup (done w);
  good_started k : k ∈ started w <-> k ∈ done w \/ exists t, busy w t = Some k;
  good_busy t k : busy w t = Some k -> t < slots /\ k ∉ done w;
  good_alone t u k : busy w t = Some k -> busy w u = Some k -> t = u;
  good_count c r : m_resources w c = Some r -> r = Z.of_nat (undone (children P c) (done w));
  good_complete c : completed w c = true -> m_resources w c = Some 0%Z;
  good_last c : m_resources w c = Some 0%Z -> children P c <> [] -> completed w c = true \/ last w c <> None;
  good_closing c : last w c <> None -> m_resources w c = Some 0%Z /\ children P c <> [];
  good_caller k j : j ∈ submitted w -> caller P (parent P j) = Operation k -> k ∈ started w;
  good_below k c j : k ∈ done w -> c ∈ calls P k -> j ∈ children P c -> j ∈ done w
}.

(** Call [c] is made by thread [t], which is executing [o]. *)
Definition mine (t : nat) (o : option nat) (c : nat) : Prop :=
  match caller P c with Client u => u = t /\ slots <= t | Operation k => o = Some k end.

Record keeps (t : nat) (w w' : world) : Prop := {
  keeps_pool : PoolProcess.keeps slots t (pool w) (pool w');
  keeps_current : Pool.current (pool w') t = Pool.current (pool w) t;
  keeps_busy : busy w' t = busy w t;
  keeps_last c : last w' c = Some t <-> last w c = Some t;
  keeps_done k : k ∈ done w -> k ∈ done w';
  keeps_made c : m_resources w c <> None -> m_resources w' c <> None;
  keeps_submitted k : k ∈ submitted w -> k ∈ submitted w';
  keeps_fresh c k : mine t (busy w t) c -> k ∈ children P c -> k ∈ submitted w' -> k ∈ submitted w
}.
#[local] Instance apply_pool_pre t : PreOrder (PoolProcess.keeps slots t) := PoolProcess.pool_keeps_pre slots n Hslots t.
#[export] Instance nested_keeps_pre t : PreOrder (keeps t).
Proof.
  split; [by split|]. intros x y z [H1 H2 H3 H4 H5 H6 H7 H8] [K1 K2 K3 K4 K5 K6 K7 K8]. split; try congruence; auto.
  - by transitivity (pool y).
  - intros c. by rewrite K4, H4.
  - intros c k Hm Hk Hz. apply (H8 c k Hm Hk), (K8 c k); [by rewrite H3|done|done].
Qed.

Definition idle_hands (t : nat) (w : world) : Prop := forall c, last w c <> Some t.
(** A thread that executes nothing. *)
Definition free (t : nat) (w : world) : Prop := idle_hands t w /\ busy w t = None.
(** A thread that waits for a call of its own. *)
Definition waiting (t c : nat) (w : world) : Prop :=
  PoolProcess.resting (Pool.aux (pool w) t) /\ idle_hands t w /\ mine t (busy w t) c /\ children P c <> [] /\
  (forall k, k ∈ children P c -> k ∈ submitted w) /\ m_resources w c <> None /\ completed w c = false.

Definition waits (t : nat) (w : world) : Prop :=
  Pool.next (pool w) = slots \/ (Pool.next (pool w) <= t < slots /\ free t w) \/ exists c, waiting t c w.
Definition protocol : Conc.protocol world := Protocol good keeps waits nested_keeps_pre.

Lemma nested_pool_stable t Q : stable PP t Q -> stable protocol t (fun w => Q (pool w)).
Proof. intros HQ w w' H G G' K. eapply HQ; [exact H|apply G|apply G'|apply K]. Qed.
Lemma hands_stable t w w' : idle_hands t w -> keeps t w w' -> idle_hands t w'.
Proof. intros H K c Hc. by apply (H c), (keeps_last _ _ _ K). Qed.
Lemma nested_free_stable t : stable protocol t (free t).
Proof. intros w w' [H1 H2] _ _ K. split; [by eapply hands_stable|]. by rewrite (keeps_busy _ _ _ K). Qed.

(** ** The pool as a part *)
Lemma nested_pool_fits t : fits pool_part PP protocol t (PoolHost.still slots).
Proof.
  split; simpl.
  - done.
  - intros w Hw. apply Hw.
  - intros w w' Hw. apply Hw.
  - intros A f o a w b [_ Hf] Hg E Hb Hk. destruct (Hf _ _ _ _ E) as (_ & Ec & Es & Et). simpl in *.
    destruct Hg as [G1 G2 G3 G4 G5 G6 G7 G8 G9 G10 G11 G12 G13].
    split; [split; unfold submitted, started; simpl; rewrite ?Es, ?Et; done|].
    intros u Hu. split; unfold submitted; simpl; rewrite ?Es, ?Ec; try done. by apply Hk.
  - intros A f w [Hf _] Hw _. destruct (Hf (pool w)) as [?|Hn]; [by left|right; left].
    pose proof (PoolProcess.g_next _ _ _ _ (good_pool _ Hw)). lia.
Qed.

(** What a thread knows that is nothing to the pool. *)
Definition unaware (R : world -> Prop) : Prop := forall w d,
  Pool.current d = Pool.current (pool w) -> PoolProcess.submitted (Pool.log d) = submitted w -> R w -> R (with_pool d w).
Lemma nested_pool_triple t R {A} (p : prog Pool.data A) Q Q' :
  stable protocol t R -> unaware R -> acts (PoolHost.still slots) p -> triple PP t Q p Q' ->
  triple protocol t (fun w => Q (pool w) /\ R w) (embed pool_part p) (fun a w => Q' a (pool w) /\ R w).
Proof.
  intros HR Hu. apply (plain_triple _ _ _ _ _ _ _ _ _ (nested_pool_fits t)); [done..|].
  intros B f o a w b [_ Hf] _ E. destruct (Hf _ _ _ _ E) as (_ & Ec & Es & _). by apply Hu.
Qed.

(** ** Facts of the invariant *)
Lemma started_submitted w k : good w -> k ∈ started w -> k ∈ submitted w.
Proof. intros Hg Hk. unfold submitted. rewrite (PoolProcess.g_ops _ _ _ _ (good_pool _ Hg)), elem_of_app. by right. Qed.
Lemma done_started w k : good w -> k ∈ done w -> k ∈ started w.
Proof. intros Hg Hk. apply (good_started _ Hg). by left. Qed.
Lemma nested_busy_started w t k : good w -> busy w t = Some k -> k ∈ started w.
Proof. intros Hg Hk. apply (good_started _ Hg). right. by exists t. Qed.
Lemma fresh_not_done w k : good w -> k ∉ submitted w -> k ∉ done w.
Proof. intros Hg Hk Hd. by apply Hk, started_submitted, done_started. Qed.

Lemma busy_resources w t k : good w -> busy w t = Some k ->
  k ∈ children P (parent P k) /\ k ∉ done w /\
  m_resources w (parent P k) = Some (Z.of_nat (S (undone (children P (parent P k)) (k :: done w)))) /\
  wrap_u64 (resources w (parent P k) - 1) = Z.of_nat (undone (children P (parent P k)) (k :: done w)).
Proof.
  intros Hg Hb. set (c := parent P k). destruct (good_busy _ Hg _ _ Hb) as [_ Hd].
  destruct (good_child _ Hg k) as [Hk Hr]; [by eapply started_submitted, nested_busy_started|]. fold c in Hk, Hr.
  pose proof (undone_less _ _ _ (wf_distinct _ _ _ HP c) Hk Hd) as E.
  assert (Er : m_resources w c = Some (Z.of_nat (S (undone (children P c) (k :: done w))))).
  { destruct (m_resources w c) as [r|] eqn:Er; [|done]. by rewrite (good_count _ Hg _ _ Er), E. }
  split_and!; [done|done|done|]. 
  assert (resources w c = Z.of_nat (S (undone (children P c) (k :: done w)))) as -> by (unfold resources; by rewrite Er).
  pose proof (wf_width _ _ _ HP c). pose proof (undone_le (children P c) (done w)).
  rewrite wrap_u64_id; lia.
Qed.

(** ** The steps *)
Lemma made_ok t c w : good w -> (forall k, k ∈ children P c -> k ∉ submitted w) ->
  good (made P c w) /\ guar protocol t w (made P c w) /\ m_resources (made P c w) c <> None.
Proof.
  intros Hg Hf. pose proof Hg as [G1 G2 G3 G4 G5 G6 G7 G8 G9 G10 G11 G12 G13].
  assert (Hu : undone (children P c) (done w) = length (children P c)).
  { apply undone_all. intros k Hk. by apply fresh_not_done, Hf. }
  split_and!; [split; try done; simpl| |simpl; by fn].
  - intros k Hk. destruct (G3 k Hk) as [H1 H2]. split; [done|]. by fn_cases.
  - intros c' r. fn_cases; [intros [= <-]|apply G8]. by rewrite Hu.
  - intros c'. fn_cases; [done|apply G9].
  - intros c'. fn_cases; [|apply G10]. intros [= E] []. by apply length_zero_iff_nil; lia.
  - intros c' Hl. fn_cases; [|by apply G11]. destruct (G11 _ Hl) as [E1 E2]. split; [|done].
    pose proof (G8 _ _ E1) as E3. rewrite Hu in E3. destruct E2. by apply length_zero_iff_nil; lia.
  - intros u Hne. split; simpl; try done. intros c' Hc. by fn_cases.
Qed.

Lemma queued_ok ph b t c k w :
  good w -> PoolProcess.at_b slots n ph false false None b t (pool w) -> mine t (busy w t) c -> k ∈ children P c ->
  k ∉ submitted w -> m_resources w c <> None ->
  let w' := queued P t c k w in
  good w' /\ guar protocol t w w' /\ PoolProcess.at_b slots n ph true false None b t (pool w') /\
  submitted w' = k :: submitted w.
Proof.
  intros Hg Hat Hm Hk Hf Hr w'. pose proof Hg as [G1 G2 G3 G4 G5 G6 G7 G8 G9 G10 G11 G12 G13].
  destruct (PoolProcess.enqueue_ok slots n Hslots thread_count ph b t (Pool.Op k []) _ (pool w)
    (PoolProcess.bucket_of_count (m_priority P c)) G1 Hat) as (E1 & E2 & E3).
  destruct (wf_child _ _ _ HP c k Hk) as [Hp _].
  assert (Es : submitted w' = k :: submitted w) by done.
  split_and!; [split; try done| |done..].
  - rewrite Es. by apply list.NoDup_cons.
  - intros j. rewrite Es, elem_of_cons. intros [->|Hj]; [by rewrite Hp|by apply G3].
  - intros k' j. rewrite Es, elem_of_cons. intros [->|Hj]; [|by apply G12].
    rewrite Hp. unfold mine in Hm. intros E. rewrite E in Hm.
    by apply (nested_busy_started w t k' Hg).
  - intros u Hu. split; try done; [by apply E2|rewrite Es; by right|]. intros c' j Hm' Hj.
    rewrite Es, elem_of_cons. intros [->|]; [|done]. exfalso. destruct (wf_child _ _ _ HP c' k Hj) as [Hp' _].
    assert (c' = c) as -> by congruence. unfold mine in *.
    destruct (caller P c); [intuition congruence|]. by apply Hu, (G7 u t k0).
Qed.

(** [R] of a worker that has taken an operation. *)
Definition holds (t : nat) (j : Pool.op) (w : world) : Prop :=
  PoolProcess.at_b slots n Pool.Live false false None 0 t (pool w) /\ idle_hands t w /\
  busy w t = Some (Pool.op_id j) /\ forall c k, c ∈ calls P (Pool.op_id j) -> k ∈ children P c -> k ∉ submitted w.

Lemma nested_taken_ok t label j l w :
  good w -> PoolHost.at_free slots n pool_part free Pool.Token 0 t w -> label < Pool.bucket_count ->
  Pool.m_operations (pool w) label ≡ₚ j :: l ->
  good (taken t label j l w) /\ guar protocol t w (taken t label j l w) /\ holds t j (taken t label j l w).
Proof.
  intros Hg [Hat [Hi Hb]] Hl Hp. pose proof Hg as [G1 G2 G3 G4 G5 G6 G7 G8 G9 G10 G11 G12 G13].
  set (k := Pool.op_id j). set (w' := taken t label j l w).
  destruct (PoolProcess.dequeue_ok slots n Hslots thread_count t (pool w) label j l G1 Hat Hl Hp) as (D1 & D2 & D3).
  assert (Ht : t < slots).
  { pose proof (PoolProcess.at_role _ _ _ _ _ _ _ _ _ _ _ Hat) as Hr. by rewrite decide_False in Hr. }
  assert (Es : submitted w' = submitted w) by done.
  assert (Et : started w' = k :: started w) by done.
  assert (Hk : k ∈ submitted w /\ k ∉ started w).
  { assert (E : submitted w ≡ₚ k :: map Pool.op_id (PoolProcess.queued (<[label := l]> (Pool.m_operations (pool w)))) ++ started w).
    { unfold submitted. rewrite (PoolProcess.g_ops _ _ _ _ G1).
      by rewrite (PoolProcess.queued_remove _ label j l Hl Hp). }
    rewrite E in G2. apply list.NoDup_cons in G2 as [H1 _]. rewrite E. rewrite not_elem_of_app in H1.
    split; [apply list_elem_of_here|apply H1]. }
  destruct Hk as [Hks Hkt].
  assert (Hkd : k ∉ done w) by (by intros ?%done_started).
  assert (Hkb : forall u, busy w u <> Some k) by (by intros u ?%nested_busy_started).
  split_and!; [split; try done; rewrite ?Es, ?Et; simpl|..].
  - intros x. rewrite elem_of_cons, G5. split.
    + intros [->|[?|[u Hu]]]; [right; exists t; by fn|by left|right]. exists u. rewrite fn_other; [done|congruence].
    + intros [?|[u Hu]]; [by right; left|]. fn_cases; [left; by injection Hu|]. right. right. by exists u.
  - intros u x. fn_cases; [|apply G6]. intros [= <-]. done.
  - intros u v x. fn_cases; try done; [| |apply G7].
    + intros [= <-] Hv. by destruct (Hkb v).
    + intros Hv [= <-]. by destruct (Hkb u).
  - intros k' j' Hj Hc. right. by eapply G12.
  - intros u Hu. split; try done; [by apply D2|]. simpl. by rewrite fn_other.
  - split_and!; [exact D3|done|simpl; by fn|]. intros c x Hc Hx. rewrite Es. intros Hs.
    apply Hkt. apply (G12 k x Hs). destruct (wf_child _ _ _ HP c x Hx) as [-> _]. by apply (wf_call _ _ _ HP).
Qed.

(** Giving up a resource, and the barrier of the last. *)
Definition closing (t c : nat) (previous : Z) (w : world) : Prop :=
  busy w t = None /\ (forall c', last w c' = Some t <-> c' = c /\ previous = 1%Z).
Lemma nested_closing_stable t c previous : stable protocol t (closing t c previous).
Proof.
  intros w w' [H1 H2] _ _ K. split; [by rewrite (keeps_busy _ _ _ K)|]. intros c'. by rewrite (keeps_last _ _ _ K).
Qed.
Lemma closing_free t c previous w : previous <> 1%Z -> closing t c previous w -> free t w.
Proof. intros Hp [H1 H2]. split; [|done]. by intros c' [_ ?]%H2. Qed.

Lemma fetch_sub_ok t k w :
  good w -> idle_hands t w -> busy w t = Some k ->
  (forall c j, c ∈ calls P k -> j ∈ children P c -> j ∈ done w) ->
  let w' := fetch_sub P t k w in
  good w' /\ guar protocol t w w' /\ closing t (parent P k) (resources w (parent P k)) w'.
Proof.
  intros Hg Hi Hb Hc w'. pose proof Hg as [G1 G2 G3 G4 G5 G6 G7 G8 G9 G10 G11 G12 G13].
  destruct (busy_resources _ _ _ Hg Hb) as (Hk & Hd & Hr & Hw). set (c := parent P k) in *.
  set (u := undone (children P c) (k :: done w)) in *.
  assert (Er : resources w c = Z.of_nat (S u)) by (unfold resources; by rewrite Hr).
  assert (Hl : last w c = None).
  { destruct (last w c) eqn:E; [|done]. destruct (G11 c) as [E0 _]; [congruence|]. rewrite Hr in E0. injection E0. lia. }
  assert (Hlast : forall c' v, last w' c' = Some v <-> (v = t /\ c' = c /\ resources w c = 1%Z) \/ last w c' = Some v).
  { intros c' v. simpl. fold c. destruct (Z.eqb_spec 1 (resources w c)) as [E|E]; [|intuition congruence].
    fn_cases; [|intuition congruence]. rewrite Hl. split; [intros [= <-]; by left|]. by intros [(-> & _)|]. }
  split_and!; [split; try done; simpl; fold c|..].
  - intros j Hj. destruct (G3 j Hj) as [? ?]. split; [done|]. by fn_cases.
  - by apply list.NoDup_cons.
  - intros x. change (started w') with (started w). rewrite G5, elem_of_cons. split.
    + intros [?|[v Hv]]; [by left; right|]. destruct (decide (v = t)) as [->|].
      * left. left. congruence.
      * right. exists v. by fn.
    + intros [[->|?]|[v Hv]]; [right; by exists t|by left|]. fn_cases; [done|]. right. by exists v.
  - intros v x. fn_cases; [done|]. intros Hv. rewrite not_elem_of_cons. destruct (G6 v x Hv). split_and!; [done| |done].
    intros ->. by destruct (G7 v t k).
  - intros v v' x. fn_cases; try done. apply G7.
  - intros c' r. fn_cases; [intros [= <-]; by rewrite Hw|]. intros E. rewrite (G8 _ _ E), undone_other; [done|].
    intros Hk'. destruct (wf_child _ _ _ HP c' k Hk'). unfold c in *. congruence.
  - intros c' E. fn_cases; [|by apply G9]. apply G9 in E. rewrite Hr in E. injection E. lia.
  - intros c' E Hn. fn_cases.
    + right. injection E as E. rewrite Hw in E.
      assert (last w' c = Some t) as El by (apply Hlast; left; split_and!; [done..|lia]). simpl in El. fold c in El. by rewrite El.
    + destruct (G10 c' E Hn) as [?|?]; [by left|right]. by destruct (Z.eqb 1 _); fn.
  - intros c' E. destruct (last w' c') as [v|] eqn:Ev; [|done]. apply Hlast in Ev as [(-> & -> & E1)|Ev].
    + fn. split; [rewrite Hw; f_equal; lia|]. intros En. rewrite En in Hk. by apply not_elem_of_nil in Hk.
    + rewrite fn_other; [apply G11; congruence|]. intros <-. congruence.
  - intros k' c' j. rewrite !elem_of_cons. intros [->|?] ? ?; right; [by eapply Hc|by eapply G13].
  - intros v Hv. split; try done.
    + simpl. by fn.
    + intros c'. rewrite (Hlast c' v). intuition congruence.
    + intros x Hx. by right.
    + intros c' Hc'. simpl. fold c. by fn_cases.
  - split; [simpl; by fn|]. intros c'. rewrite Hlast. split; [intros [(_ & -> & ?)|E]; [done|by destruct (Hi c')]|].
    intros [-> ?]. by left.
Qed.

Lemma complete_ok t c w :
  good w -> closing t c 1 w ->
  good (complete c w) /\ guar protocol t w (complete c w) /\ free t (complete c w).
Proof.
  intros Hg [Hb Hc]. pose proof Hg as [G1 G2 G3 G4 G5 G6 G7 G8 G9 G10 G11 G12 G13].
  assert (Hl : last w c = Some t) by (by apply Hc).
  split_and!; [split; try done; simpl| |].
  - intros c'. fn_cases; [|apply G9]. intros _. apply G11. congruence.
  - intros c'. fn_cases; [by left|apply G10].
  - intros c'. fn_cases; [done|apply G11].
  - intros u Hu. split; try done. intros c'. simpl. fn_cases; [|done]. rewrite Hl. split; congruence.
  - split; [|done]. intros c'. simpl. fn_cases; [done|]. by intros [? _]%Hc.
Qed.

Lemma nested_current_ok t b w :
  let w' := with_pool (Pool.with_current t b (pool w)) w in
  good w -> good w' /\ guar protocol t w w' /\ Pool.current (pool w') t = b.
Proof.
  intros w' Hg. pose proof Hg as [G1 G2 G3 G4 G5 G6 G7 G8 G9 G10 G11 G12 G13].
  destruct (PoolProcess.current_ok slots n thread_count t b (pool w) G1) as [C1 C2].
  split_and!; [by split|..].
  - intros u Hu. split; try apply C2; try done. simpl. by fn.
  - simpl. by fn.
Qed.

(** ** apply() *)
Definition role (b : bool) : Pool.phase := if b then Pool.Live else Pool.Unborn.
#[local] Abbreviation at_role b bl t w := (PoolProcess.at_b slots n (role b) false false None bl t (pool w)).

(** What a thread knows between its calls: those it will make, those that have returned;
    [b]: it is a worker, and executes [o]. *)
Record knows (b : bool) (o : option nat) (todo ended : list nat) (t : nat) (w : world) : Prop := {
  kn_hands : idle_hands t w;
  kn_current : Pool.current (pool w) t = b;
  kn_busy : busy w t = o;
  kn_mine c : c ∈ todo -> mine t o c;
  kn_fresh c k : c ∈ todo -> k ∈ children P c -> k ∉ submitted w;
  kn_ended c k : c ∈ ended -> k ∈ children P c -> k ∈ done w
}.
(** Inside of call [c], with the iterations [l] to be queued. *)
Record inside (b : bool) (o : option nat) (c : nat) (l todo ended : list nat) (t : nat) (w : world) : Prop := {
  in_knows : knows b o todo ended t w;
  in_mine : mine t o c;
  in_new : c ∉ todo;
  in_made : m_resources w c <> None;
  in_distinct : NoDup l;
  in_left k : k ∈ l -> k ∈ children P c /\ k ∉ submitted w;
  in_rest k : k ∈ children P c -> k ∈ l \/ k ∈ submitted w
}.

Lemma knows_stable b o todo ended t : stable protocol t (knows b o todo ended t).
Proof.
  intros w w' [H1 H2 H3 H4 H5 H6] _ _ K. pose proof K as [K1 K2 K3 K4 K5 K6 K7 K8].
  split; [by eapply hands_stable|congruence..|done| |]; [|intros c k ? ?; eauto].
  intros c k Hc Hk Hs. apply (H5 c k Hc Hk), (K8 c k); [rewrite H3; auto|done|done].
Qed.
Lemma nested_inside_stable b o c l todo ended t : stable protocol t (inside b o c l todo ended t).
Proof.
  intros w w' [H1 H2 H3 H4 H5 H6 H7] G G' K. pose proof K as [K1 K2 K3 K4 K5 K6 K7 K8].
  split; [by eapply knows_stable|done|done|auto|done| |].
  - intros k Hk. destruct (H6 k Hk) as [? Hn]. split; [done|]. intros Hs. apply Hn, (K8 c k); [|done|done].
    by rewrite (kn_busy _ _ _ _ _ _ H1).
  - intros k Hk. destruct (H7 k Hk); auto.
Qed.
Lemma knows_unaware b o todo ended t : unaware (knows b o todo ended t).
Proof.
  intros w d Ec Es [H1 H2 H3 H4 H5 H6]. split; try done; simpl; [by rewrite Ec|].
  intros c k Hc Hk. unfold submitted; simpl. rewrite Es. by apply (H5 c).
Qed.
Lemma inside_unaware b o c l todo ended t : unaware (inside b o c l todo ended t).
Proof.
  intros w d Ec Es [H1 H2 H3 H4 H5 H6 H7].
  split; [by apply knows_unaware|done|done|done|done|intros k|intros k];
    unfold submitted; simpl; rewrite Es; [apply H6|apply H7].
Qed.
Lemma nested_at_stable b bl R t : stable protocol t R -> stable protocol t (fun w => at_role b bl t w /\ R w).
Proof. intros HR. apply stable_and; [apply nested_pool_stable, PoolProcess.at_b_stable|done]. Qed.

Lemma at_inside_stable b bl o c l todo ended t :
  stable protocol t (fun w => at_role b bl t w /\ inside b o c l todo ended t w).
Proof. apply nested_at_stable, nested_inside_stable. Qed.

Lemma nested_async_spec b o c k l todo ended t :
  triple protocol t (fun w => at_role b 0 t w /\ inside b o c (k :: l) todo ended t w)
    (async P slots false t c k) (fun _ w => at_role b 0 t w /\ inside b o c l todo ended t w).
Proof.
  unfold async. eapply triple_bind.
  { apply (triple_modify t _ _ (fun _ w => PoolProcess.at_b slots n (role b) true false None 0 t (pool w) /\
      inside b o c l todo ended t w)); [apply at_inside_stable|..].
    { apply stable_and; [apply nested_pool_stable, PoolProcess.at_b_stable|apply nested_inside_stable]. }
    intros w Hg [Hat [[H1 H2 H3 H4 H5 H6] I2 I3 I4 I5 I6 I7]]. apply list.NoDup_cons in I5 as [Hkl I5].
    destruct (I6 k (list_elem_of_here k l)) as [Hk Hf].
    destruct (queued_ok (role b) 0 t c k w Hg Hat) as (Q1 & Q2 & Q3 & Es); [by rewrite H3|done..|].
    split_and!; [done|done|done|]. split; [split; try done|done|done|done|done|..]; rewrite ?Es.
    - intros c' j Hc' Hj. rewrite elem_of_cons. intros [->|Hs]; [|by apply (H5 c' j)].
      destruct (wf_child _ _ _ HP c k Hk), (wf_child _ _ _ HP c' k Hj). congruence.
    - intros j Hj. rewrite not_elem_of_cons. destruct (I6 j); [by right|]. split_and!; [done|congruence|done].
    - intros j Hj. rewrite elem_of_cons. destruct (I7 j Hj) as [[->|?]%elem_of_cons|?]; auto. }
  intros ?. eapply triple_bind.
  { apply (nested_pool_triple t _ _ _ (fun _ => PoolProcess.at_b slots n (role b) false true None 0 t)
      (nested_inside_stable _ _ _ _ _ _ _) (inside_unaware _ _ _ _ _ _ _)).
    - apply PoolHost.still_release.
    - apply PoolProcess.pool_release_spec. }
  intros ?. apply (nested_pool_triple t _ _ _ (fun _ => PoolProcess.at_b slots n (role b) false false None 0 t)
    (nested_inside_stable _ _ _ _ _ _ _) (inside_unaware _ _ _ _ _ _ _)).
  - apply PoolHost.still_schedule.
  - by apply PoolProcess.schedule_spec.
Qed.

Lemma queue_all_spec b o c l todo ended t :
  triple protocol t (fun w => at_role b 0 t w /\ inside b o c l todo ended t w)
    (each (async P slots false t c) l) (fun _ w => at_role b 0 t w /\ inside b o c [] todo ended t w).
Proof.
  induction l as [|k l IH]; simpl each; [apply triple_skip, nested_at_stable, nested_inside_stable|].
  eapply triple_bind; [apply nested_async_spec|]. by intros ?.
Qed.

Lemma read_current_spec t R :
  stable protocol t R ->
  triple protocol t R (embed pool_part (read (fun d => Pool.current d t)))
    (fun b w => R w /\ Pool.current (pool w) t = b).
Proof.
  intros HR. apply triple_act; [done| |done|].
  - intros b w w' [H1 H2] G G' K. split; [by eapply HR|]. by rewrite (keeps_current _ _ _ K).
  - intros o w w' b Hg H E. injection E as <- <-. destruct w. split_and!; [done|apply guar_refl|done|done].
Qed.

(** All iterations of a call are done. *)
Lemma inside_ended b o c todo ended t w :
  inside b o c [] todo ended t w -> (forall k, k ∈ children P c -> k ∈ done w) -> knows b o todo (c :: ended) t w.
Proof.
  intros [[H1 H2 H3 H4 H5 H6] _ _ _ _ _ _] Hd. split; try done. intros c' k. rewrite elem_of_cons. intros [->|?]; eauto.
Qed.
Lemma spent_done c w : good w -> m_resources w c = Some 0%Z -> forall k, k ∈ children P c -> k ∈ done w.
Proof. intros Hg E. apply undone_none. pose proof (good_count _ Hg _ _ E). lia. Qed.

Lemma await_spec (b : bool) o c todo ended t :
  let bl : Z := if b then 1%Z else 0%Z in
  triple protocol t (fun w => (at_role b bl t w /\ inside b o c [] todo ended t w) /\ children P c <> [])
    (await (fun w => completed w c) id) (fun _ w => at_role b bl t w /\ knows b o todo (c :: ended) t w).
Proof.
  intros bl. apply triple_block.
  - intros w w' [H1 H2] G G' K. split; [|done]. by eapply at_inside_stable.
  - intros _. apply nested_at_stable, knows_stable.
  - intros w Hg [[Hat Hin] Hn]. destruct (completed w c) eqn:E; [by left; apply enabled_0|].
    right. right. right. exists c. destruct Hin as [[H1 H2 H3 H4 H5 H6] I2 I3 I4 I5 I6 I7].
    split_and!; [|done|by rewrite H3|done| |done|done].
    + eapply PoolProcess.at_resting; [exact Hat|]. unfold bl. destruct b; [right; right; by split|by left].
    + intros k Hk. destruct (I7 k Hk) as [Hk'|]; [by apply not_elem_of_nil in Hk'|done].
  - intros o' w w' [] Hg [[Hat Hin] Hn] E. destruct (completed w c) eqn:Ec; [|done]. injection E as <-.
    split_and!; [done|apply guar_refl|done|]. eapply inside_ended; [done|].
    by apply spent_done, (good_complete _ Hg).
Qed.

Lemma nested_wait_spec b o c todo ended t :
  triple protocol t (fun w => at_role b 0 t w /\ inside b o c [] todo ended t w)
    (wait_for_consumed slots false t c) (fun _ w => at_role b 0 t w /\ knows b o todo (c :: ended) t w).
Proof.
  unfold wait_for_consumed. eapply triple_bind.
  { apply (triple_read t _ _ _ (fun left w => (at_role b 0 t w /\ inside b o c [] todo ended t w) /\
      if Z.eqb 0 left then forall k, k ∈ children P c -> k ∈ done w else children P c <> [])).
    - apply at_inside_stable.
    - intros left w w' [H1 H2] G G' K. split; [by eapply at_inside_stable|].
      destruct (0 =? left)%Z; [|done]. intros k Hk. by apply (keeps_done _ _ _ K), H2.
    - intros w Hg H. split; [done|]. destruct H as [_ Hin]. unfold resources.
      destruct (m_resources w c) as [r|] eqn:Er; [|by destruct (in_made _ _ _ _ _ _ _ _ Hin)]. simpl.
      destruct (Z.eqb_spec 0 r) as [<-|Hr]; [by apply spent_done|]. intros En.
      apply (good_count _ Hg) in Er. rewrite En in Er. by apply Hr. }
  intros left. cbn beta. destruct (0 =? left)%Z.
  { apply triple_ret; [|intros w Hg [[Hat Hin] Hd]; split; [done|by eapply inside_ended]].
    intros w w' [H1 H2] G G' K. split; [by eapply at_inside_stable|].
    intros k Hk. by apply (keeps_done _ _ _ K), H2. }
  destruct (decide (children P c = [])) as [En|Hn]; [by apply triple_absurd; intros w _ [_ ?]|].
  eapply triple_bind.
  { eapply triple_pre; [|intros w _ [H _]; exact H]. apply read_current_spec, nested_at_stable, nested_inside_stable. }
  intros m_pool. destruct (decide (m_pool = b)) as [->|Hne].
  2: { apply triple_absurd. intros w _ [[_ Hin] E]. apply Hne. rewrite <- E. apply (in_knows _ _ _ _ _ _ _ _ Hin). }
  eapply triple_bind.
  { apply (triple_conseq t _ (fun w => at_role b 0 t w /\ inside b o c [] todo ended t w) _ _
      (fun _ w => at_role b (if b then 1%Z else 0%Z) t w /\ inside b o c [] todo ended t w)
      (fun _ w => (at_role b (if b then 1%Z else 0%Z) t w /\ inside b o c [] todo ended t w) /\ children P c <> []));
      [|by intros w _ [? _]|by intros].
    destruct b; [|apply triple_skip, nested_at_stable, nested_inside_stable].
    apply (nested_pool_triple t _ _ _ (fun _ => PoolProcess.at_b slots n Pool.Live false false None 1 t)
      (nested_inside_stable _ _ _ _ _ _ _) (inside_unaware _ _ _ _ _ _ _)); [apply PoolHost.still_blocked|].
    by apply (PoolProcess.notify_blocked_spec slots n Hslots thread_count Hcount Pool.Live 0 t). }
  intros ?. eapply triple_bind; [apply await_spec|]. intros ?.
  destruct b; [|apply triple_skip, nested_at_stable, knows_stable].
  apply (nested_pool_triple t _ _ _ (fun _ => PoolProcess.at_b slots n Pool.Live false false None 0 t)
    (knows_stable _ _ _ _ _) (knows_unaware _ _ _ _ _)); [apply PoolHost.still_unblocked|].
  by apply (PoolProcess.unblocked_spec slots n Hslots thread_count Pool.Live 0 t).
Qed.

Lemma nested_apply_spec b o c todo ended t :
  c ∉ todo ->
  triple protocol t (fun w => at_role b 0 t w /\ knows b o (c :: todo) ended t w)
    (apply_ P slots false t c) (fun _ w => at_role b 0 t w /\ knows b o todo (c :: ended) t w).
Proof.
  intros Hc. unfold apply_. eapply triple_bind.
  { apply (triple_modify t _ _ (fun _ w => at_role b 0 t w /\ inside b o c (children P c) todo ended t w)).
    - apply nested_at_stable, knows_stable.
    - apply at_inside_stable.
    - intros w Hg [Hat [H1 H2 H3 H4 H5 H6]].
      assert (Hf : forall k, k ∈ children P c -> k ∉ submitted w) by (intros k; by apply H5, list_elem_of_here).
      destruct (made_ok t c w Hg Hf) as (M1 & M2 & M3). split_and!; [done|done|exact Hat|]. split.
      + split; try done; [intros; by apply H4, list_elem_of_further|]. intros c' k Hc'. apply (H5 c' k).
        by apply list_elem_of_further.
      + by apply H4, list_elem_of_here.
      + done.
      + done.
      + apply (wf_distinct _ _ _ HP).
      + intros k Hk. split; [done|]. by apply Hf.
      + by left. }
  intros ?. eapply triple_bind; [apply queue_all_spec|]. intros ?. apply nested_wait_spec.
Qed.

Lemma calls_spec b o cs ended t :
  NoDup cs ->
  triple protocol t (fun w => at_role b 0 t w /\ knows b o cs ended t w)
    (each (apply_ P slots false t) cs) (fun _ w => at_role b 0 t w /\ knows b o [] (rev_append cs ended) t w).
Proof.
  intros Hc. revert ended. induction Hc as [|c cs Hn _ IH]; intros ended; simpl each; [apply triple_skip, nested_at_stable, knows_stable|].
  eapply triple_bind; [by apply nested_apply_spec|]. intros ?. apply IH.
Qed.

Lemma nested_consume_spec o k ended t :
  (forall c, c ∈ calls P k -> c ∈ ended) ->
  triple protocol t (fun w => at_role true 0 t w /\ knows true (Some k) o ended t w)
    (consume_resource P t k) (fun _ w => at_role true 0 t w /\ free t w).
Proof.
  intros He. unfold consume_resource. eapply triple_bind.
  { apply (triple_read t _ _ _ (fun left w => (0 < left)%Z /\ at_role true 0 t w /\ knows true (Some k) o ended t w)).
    - apply nested_at_stable, knows_stable.
    - intros left w w' [? H] G G' K. split; [done|]. revert H G G' K. apply nested_at_stable, knows_stable.
    - intros w Hg [Hat Hk]. split; [|done]. destruct (busy_resources w t k Hg (kn_busy _ _ _ _ _ _ Hk)) as (_ & _ & E & _).
      unfold resources. rewrite E. simpl. lia. }
  intros left. cbn beta. destruct (Z.ltb_spec 0 left); [|by apply triple_absurd; intros w _ [? _]; lia].
  eapply triple_bind; [eapply triple_pre; [apply triple_skip, nested_at_stable, knows_stable|intros w _ [_ H1]; exact H1]|].
  intros ?. eapply triple_bind.
  { apply (triple_act t _ _ _ (fun previous w => at_role true 0 t w /\ closing t (parent P k) previous w)).
    - apply nested_at_stable, knows_stable.
    - intros previous. apply nested_at_stable, nested_closing_stable.
    - done.
    - intros o' w w' previous Hg [Hat [H1 H2 H3 H4 H5 H6]] E. injection E as <- <-.
      destruct (fetch_sub_ok t k w Hg H1 H3) as (F1 & F2 & F3); [intros c j Hc; by apply H6, He|].
      split_and!; [done|done|exact Hat|done]. }
  intros previous. destruct (Z.eqb_spec 1 previous) as [<-|Hp].
  - apply (triple_modify t _ _ (fun _ w => at_role true 0 t w /\ free t w)).
    + apply nested_at_stable, nested_closing_stable.
    + apply nested_at_stable, nested_free_stable.
    + intros w Hg [Hat Hc]. destruct (complete_ok t _ w Hg Hc) as (C1 & C2 & C3). split_and!; [done|done|exact Hat|done].
  - apply triple_ret; [apply nested_at_stable, nested_closing_stable|]. intros w _ [Hat Hc]. split; [done|].
    eapply closing_free; [|done]. congruence.
Qed.

(** ** The workers *)
Lemma set_current_spec t b (R R' : world -> Prop) :
  stable protocol t R -> stable protocol t R' ->
  (forall w, R w -> Pool.current (Pool.with_current t b (pool w)) t = b -> R' (with_pool (Pool.with_current t b (pool w)) w)) ->
  triple protocol t R (set_current t b) (fun _ => R').
Proof.
  intros HR HR' H. apply triple_act; [done|done|done|]. intros o w w' [] Hg Hw E. injection E as <-.
  destruct (nested_current_ok t b w Hg) as (C1 & C2 & C3). split_and!; [done|done|]. by apply H.
Qed.

Lemma nested_holds_stable t j : stable protocol t (holds t j).
Proof.
  intros w w' (H1 & H2 & H3 & H4) G G' K. split_and!.
  - revert G G' K. by apply (nested_pool_stable t _ (PoolProcess.at_b_stable slots n Hslots thread_count _ _ _ _ _ t)).
  - by eapply hands_stable.
  - by rewrite (keeps_busy _ _ _ K).
  - intros c k Hc Hk Hs. apply (H4 c k Hc Hk), (keeps_fresh _ _ _ K c k); [|done|done].
    unfold mine. by rewrite (wf_call _ _ _ HP _ _ Hc).
Qed.

#[local] Abbreviation at_free := (PoolHost.at_free slots n pool_part free).
Lemma nested_at_free_stable ph lf t : stable protocol t (at_free ph lf t).
Proof. apply stable_and; [apply nested_pool_stable, PoolProcess.at_stable|apply nested_free_stable]. Qed.

Lemma nested_execute_spec t j :
  triple protocol t (holds t j) (run_with_threadpool P slots false t j) (fun _ => at_free Pool.Live 0 t).
Proof.
  set (k := Pool.op_id j). unfold run_with_threadpool. eapply triple_bind.
  { apply read_current_spec, nested_holds_stable. }
  intros previous. eapply triple_bind.
  { eapply triple_pre; [|intros w _ [H _]; exact H].
    apply (set_current_spec t true _ (fun w => at_role true 0 t w /\ knows true (Some k) (calls P k) [] t w)).
    - apply nested_holds_stable.
    - apply nested_at_stable, knows_stable.
    - intros w (H1 & H2 & H3 & H4) Hc. split; [by destruct H1; split|]. split; try done.
      + intros c Hc'. unfold mine. by rewrite (wf_call _ _ _ HP _ _ Hc').
      + by intros c x ?%not_elem_of_nil. }
  intros ?. eapply triple_bind; [apply calls_spec, (wf_once _ _ _ HP)|].
  intros ?. eapply triple_bind.
  { apply nested_consume_spec. intros c Hc. rewrite rev_append_rev, app_nil_r. by apply list_elem_of_In, in_rev, list_elem_of_In in Hc. }
  intros ?. eapply triple_bind.
  { apply (nested_pool_triple t _ _ _ (fun _ => PoolProcess.at_b slots n Pool.Live false false None 0 t) (nested_free_stable t)).
    - intros w d _ _ H. exact H.
    - by apply PoolHost.still_log.
    - apply PoolProcess.quiet_spec; [apply PoolProcess.at_b_stable|intros d; by apply PoolProcess.log_ok]. }
  intros ?. apply (set_current_spec t previous _ (at_free Pool.Live 0 t)).
  - apply (nested_at_stable true 0), nested_free_stable.
  - apply nested_at_free_stable.
  - intros w [[] H] _. by split; [split|].
Qed.

Lemma nested_take_spec t label :
  label < Pool.bucket_count ->
  triple protocol t (at_free Pool.Token 0 t) (try_dequeue t label)
    (fun r => match r with Some j => holds t j | None => at_free Pool.Token 0 t end).
Proof.
  intros Hl. apply triple_act; [apply nested_at_free_stable|intros [j|]; [apply nested_holds_stable|apply nested_at_free_stable]| |].
  - intros w _ _. change (Nat.eqb 0 o_spurious) with false. cbv iota.
    by destruct (Pool.pick 0 (Pool.m_operations (pool w) label)) as [[]|].
  - intros o w w' r Hw Hat E. destruct (Nat.eqb o o_spurious).
    { simplify_eq. split_and!; [done|apply guar_refl|done]. }
    destruct (Pool.pick o (Pool.m_operations (pool w) label)) as [[j l]|] eqn:Ep; simplify_eq.
    + apply PoolProcess.pick_op_Some in Ep. by apply nested_taken_ok.
    + split_and!; [done|apply guar_refl|done].
Qed.

#[local] Abbreviation slot := (PoolHost.slot slots n pool_part free).
Lemma nested_worker_spec t :
  triple protocol t (slot t) (worker P slots false spins t) (fun _ => at_free Pool.Gone 1 t).
Proof.
  apply (PoolHost.host_run_spec slots n Hslots thread_count spins protocol pool_part) with (M := holds).
  - apply nested_pool_fits.
  - done.
  - apply nested_free_stable.
  - apply nested_holds_stable.
  - intros u A f o a w d _ _ _ H. exact H.
  - intros u w Hu Hf. right. left. by split.
  - apply nested_take_spec.
  - apply nested_execute_spec.
Qed.

(** ** The whole process *)
Definition script (t : nat) : list nat := default [] (scripts !! (t - slots)).
Definition before (t : nat) (w : world) : Prop :=
  if decide (t < slots) then slot t w else t < n -> at_role false 0 t w /\ knows false None (script t) [] t w.
Definition after (t : nat) (w : world) : Prop :=
  if decide (t < slots) then at_free Pool.Gone 1 t w
  else at_role false 0 t w /\ knows false None [] (rev_append (script t) []) t w.

Lemma nested_init_good : good (init thread_count).
Proof.
  split; try done; [by apply PoolProcess.make_data_good|apply NoDup_nil_2| |apply NoDup_nil_2|..].
  - by intros k ?%not_elem_of_nil.
  - intros k. split; [by intros ?%not_elem_of_nil|]. by intros [?%not_elem_of_nil|[? ?]].
  - by intros k j ?%not_elem_of_nil.
  - by intros k c j ?%not_elem_of_nil.
Qed.

Lemma nested_thread_spec t p :
  n = slots + length scripts ->
  (start P slots false spins thread_count scripts).2 !! t = Some p ->
  triple protocol t (before t) p (fun _ => after t).
Proof.
  intros Hn Hp. assert (Ht : t < n).
  { apply lookup_lt_Some in Hp. simpl in Hp.
    rewrite length_app, length_map, length_seq, length_imap in Hp. lia. }
  unfold before, after. simpl in Hp. destruct (decide (t < slots)) as [Hlt|Hge].
  - rewrite lookup_app_l in Hp by (rewrite length_map, length_seq; done).
    rewrite list_lookup_fmap, lookup_seq_lt in Hp by done. simplify_eq/=. apply nested_worker_spec.
  - rewrite lookup_app_r in Hp by (rewrite length_map, length_seq; lia).
    rewrite length_map, length_seq in Hp. rewrite list_lookup_imap in Hp. unfold script.
    destruct (scripts !! (t - slots)) as [cs|] eqn:E; simplify_eq/=.
    replace (slots + (t - slots)) with t by lia.
    eapply triple_pre; [|intros w _ H; exact (H Ht)].
    apply (calls_spec false None cs [] t), (wf_roots _ _ _ HP _ _ E).
Qed.

Lemma nested_sound c :
  n = slots + length scripts -> reach (start P slots false spins thread_count scripts) c ->
  sound protocol (init thread_count) after c.
Proof.
  intros Hn Hr. destruct (start P slots false spins thread_count scripts) as [s0 ps] eqn:E.
  assert (s0 = init thread_count) as -> by (by injection E).
  apply (rg_sound (W := protocol) before after _ ps).
  - apply nested_init_good.
  - intros t. unfold before. case_decide as Hs; [by split; [split; [|simpl; lia]|]|].
    intros Ht. split; [by split; simpl; try done; lia|]. split; try done.
    + unfold script. intros c' Hc. destruct (scripts !! (t - slots)) as [cs|] eqn:Es; [|by apply not_elem_of_nil in Hc].
      unfold mine. rewrite (wf_root _ _ _ HP _ _ _ Es Hc). lia.
    + by intros c' k _ _ ?%not_elem_of_nil.
    + by intros c' k ?%not_elem_of_nil.
  - intros t p Hp. apply nested_thread_spec; [done|by rewrite E].
  - done.
Qed.

(** What has been executed has been executed with all it led to. *)
Lemma under_done w c j : good w -> under P c j -> (forall k, k ∈ children P c -> k ∈ done w) -> j ∈ done w.
Proof.
  intros Hg Hu. induction Hu as [c k Hk|c k c' j Hk Hc _ IH]; intros Hd; [by apply Hd|].
  apply IH. intros k' Hk'. by apply (good_below _ Hg k c'); [apply Hd|..].
Qed.

(** When all threads rest or wait for a call, nobody waits: the call whose iterations
    are the lowest cannot have one that is not done. *)
Lemma nobody_waits w :
  good w -> (forall t, t < n -> idle_hands t w /\ PoolProcess.resting (Pool.aux (pool w) t) /\
    (busy w t = None \/ exists c, waiting t c w)) ->
  (forall t c, n <= t -> last w c <> Some t) ->
  PoolProcess.queued (Pool.m_operations (pool w)) = [] /\ forall t c, t < n -> ~ waiting t c w.
Proof.
  intros Hg Ha Hf. assert (He : PoolProcess.queued (Pool.m_operations (pool w)) = []).
  { apply (PoolProcess.resting_empty slots n Hslots thread_count); [apply Hg|]. intros t Ht. by apply Ha. }
  split; [done|]. intros t c. revert t. induction (lt_wf c) as [c _ IH]. intros t Ht (H1 & H2 & H3 & H4 & H5 & H6 & H7).
  assert (Hd : forall k, k ∈ children P c -> k ∈ done w).
  { intros k Hk. assert (Hs : k ∈ started w).
    { specialize (H5 k Hk). unfold submitted in H5. rewrite (PoolProcess.g_ops _ _ _ _ (good_pool _ Hg)), He in H5. done. }
    apply (good_started _ Hg) in Hs as [|[u Hu]]; [done|exfalso]. destruct (good_busy _ Hg _ _ Hu) as [Hus _].
    assert (Hun : u < n) by lia. destruct (Ha u Hun) as (_ & _ & [?|[c' Hw]]); [congruence|].
    pose proof Hw as (_ & _ & Hm & _). unfold mine in Hm. rewrite Hu in Hm.
    destruct (caller P c') as [v|k'] eqn:Ec; [lia|]. injection Hm as <-.
    destruct (wf_below _ _ _ HP _ _ Ec), (wf_child _ _ _ HP c k Hk). apply (IH c' ltac:(lia) u Hun Hw). }
  apply undone_none in Hd. destruct (m_resources w c) as [r|] eqn:Er; [|done].
  pose proof (good_count _ Hg _ _ Er) as Ec. rewrite Hd in Ec. subst r.
  destruct (good_last _ Hg c Er H4) as [?|Hl]; [congruence|]. destruct (last w c) as [u|] eqn:El; [|done].
  destruct (decide (u < n)) as [Hu|]; [by destruct (Ha u Hu) as [Hi _]; apply (Hi c)|]. by apply (Hf u c ltac:(lia)).
Qed.
End proof.



(** One call whose two iterations call apply(), one of them twice deep: three operations
    wait at a time, and the pool of one processor starts four workers. *)
Definition nest : plan := Plan
  (fun k => match k with 8 => [5] | 9 => [6] | 4 => [2] | _ => [] end)
  (fun c => match c with 10 => [8; 9] | 5 => [4] | 6 => [3] | 2 => [1] | _ => [] end)
  (fun k => match k with 8 | 9 => 10 | 4 => 5 | 3 => 6 | 1 => 2 | _ => 0 end)
  (fun c => match c with 5 => Operation 8 | 6 => Operation 9 | 2 => Operation 4 | 10 => Client 6 | _ => Client 0 end)
  (fun _ => DEFAULT).
#[local] Ltac one_of H :=
  cbn in H; repeat (apply elem_of_cons in H as [->|H]; [cbn|]); [..|by apply not_elem_of_nil in H].
Lemma nest_well_formed : well_formed 6 nest [[10]].
Proof.
  split.
  - intros c k H. do 11 (destruct c as [|c]; [one_of H; (split; [done|lia])|]). one_of H.
  - intros c. do 11 (destruct c as [|c]; [cbn; apply (bool_decide_unpack _); vm_compute; exact I|]).
    cbn. apply NoDup_nil_2.
  - intros c. do 11 (destruct c as [|c]; [cbn; lia|]). cbn. lia.
  - intros k c H. do 11 (destruct k as [|k]; [one_of H; done|]). one_of H.
  - intros k c H. do 11 (destruct c as [|c]; [cbn in H; try done; injection H as <-; cbn; (split; [apply list_elem_of_here|lia])|]).
    cbn in H. done.
  - intros k. do 11 (destruct k as [|k]; [cbn; apply (bool_decide_unpack _); vm_compute; exact I|]).
    cbn. apply NoDup_nil_2.
  - intros [|t] cs c E H; [|done]. injection E as <-. apply list_elem_of_singleton in H as ->. reflexivity.
  - intros [|t] cs E; [|done]. injection E as <-. apply (bool_decide_unpack _). vm_compute. exact I.
Qed.
Definition nested : cfg world :=
  play (concat (replicate 400 [(6, 0); (0, 0); (1, 0); (2, 0); (3, 0); (4, 0); (5, 0)]) ++
        concat (replicate 60 [(0, 0); (0, 1); (1, 0); (1, 1); (2, 0); (2, 1); (3, 0); (3, 1); (4, 0); (4, 1)]))
    (start nest 6 false 1 1 [[10]]).


End NestedApply.
