(* ===== verification/Consumable.v ===== *)
(** * Consumable: src/naive/naive_consumable.cpp, naive_operations.cpp, and the
    apply() of naive_serial_queue.cpp and naive_parallel_queue.cpp

    A counter of resources left and a barrier that is completed when the last
    one is consumed. *)
From S2P Require Import Prelude Conc LightweightBarrier.
Import Barrier.

Module Consum.

(** [m_resources] is a size_t; the preceding consumable is an argument of
    [wait_for_consumed].  The last two fields are auxiliary state the code never
    reads: how often thread [t] has consumed, and who took the last resource. *)
Record consumable := Con {
  m_resources : Z;
  m_barrier : lightweight_barrier;
  spent : nat -> Z;
  closer : option nat
}.
Definition make_consumable (resources : Z) : consumable :=
  Con resources make_barrier (fun _ => 0%Z) None.

Definition with_resources (n : Z) (c : consumable) : consumable := Con n (m_barrier c) (spent c) (closer c).
Definition with_barrier (b : lightweight_barrier) (c : consumable) : consumable :=
  Con (m_resources c) b (spent c) (closer c).
(** fetch_sub(1) by thread [t] *)
Definition fetch_sub (t : nat) (c : consumable) : consumable :=
  Con (wrap_u64 (m_resources c - 1)) (m_barrier c) (<[t := (spent c t + 1)%Z]> (spent c))
    (if Z.eqb 1 (m_resources c) then Some t else closer c).

Section code.
Context {Σ : Type}.
(** ithreadpool::current(): what it is told when its thread blocks and goes on. *)
Context (notify_thread_blocked notify_thread_unblocked : nat -> prog Σ unit).

(** ithreadpool::block_scope around [p]. *)
Definition block_scope {A} (t : nat) (p : prog Σ A) : prog Σ A :=
  do! notify_thread_blocked t in
  let! r := p in
  do! notify_thread_unblocked t in
  Ret r.

Definition con_barrier (L : lens Σ consumable) : lens Σ lightweight_barrier.
Proof.
  refine {| get s := m_barrier (get L s);
            set b s := set L (with_barrier b (get L s)) s |}.
  - intros b s. by rewrite get_set.
  - intros s. destruct (get L s) eqn:E. unfold with_barrier; simpl. by rewrite <- E, set_get.
  - intros b b' s. by rewrite get_set, set_set.
Defined.

Section member.
Context (L : lens Σ consumable).

Definition add_resource : prog Σ unit :=
  modify (fun s => set L (with_resources (wrap_u64 (m_resources (get L s) + 1)) (get L s)) s).

Definition consume_resource (t : nat) : prog Σ unit :=
  let! left := read (fun s => m_resources (get L s)) in
  do! xassert (0 <? left)%Z in
  let! previous := atomic (fun s =>
    (set L (fetch_sub t (get L s)) s, m_resources (get L s))) in
  if Z.eqb 1 previous then complete (con_barrier L) false t else Ret tt.

(** wait_for_consumed without its preceding consumable. *)
Definition wait_own (t : nat) (timeout : Z) : prog Σ bool :=
  let! left := read (fun s => m_resources (get L s)) in
  if Z.eqb 0 left then Ret true
  else block_scope t (wait (con_barrier L) false t timeout).
End member.

(** [chain] lists the consumable and those that precede it, oldest first. *)
Fixpoint wait_for_consumed (chain : list (lens Σ consumable)) (t : nat) (timeout : Z) : prog Σ bool :=
  match chain with
  | [] => Ret true
  | L :: rest =>
      let! r := wait_own L t timeout in
      if (r : bool) then wait_for_consumed rest t timeout else Ret false
  end.

(** The operations of naive_operations.cpp: the wrapped operation, then a
    resource of the consumable, when there is one. *)
Definition consuming_operation (L : option (lens Σ consumable)) (t : nat) (op : prog Σ unit) : prog Σ unit :=
  do! op in
  match L with
  | Some L => consume_resource L t
  | None => Ret tt
  end.
Definition apply_operation (index : nat) (L : option (lens Σ consumable)) (t : nat)
    (op : nat -> prog Σ unit) : prog Σ unit :=
  do! op index in
  match L with
  | Some L => consume_resource L t
  | None => Ret tt
  end.
End code.

End Consum.

(** * apply() on a queue whose operations any number of workers execute *)
Module ApplyProcess.
Import Consum.

Inductive event :=
| Queued (i : nat)
| Taken (t i : nat)      (* a worker took iteration i from the queue *)
| Ended (i : nat)        (* the iteration has been executed *)
| Parked (t : nat)       (* block_scope *)
| Unparked (t : nat)
| Applied.               (* apply has returned *)

(** [bag] holds the iterations that are queued and not taken yet, in any order:
    the serial queue takes the first, the parallel one any of them. *)
Record process := Process { con : consumable; bag : list nat; log : list event }.

Definition con_lens : lens process consumable.
Proof.
  refine {| get := con; set c s := Process c (bag s) (log s) |}; by intros; try destruct s.
Defined.
Definition emit (e : event) : prog process unit :=
  modify (fun s => Process (con s) (bag s) (e :: log s)).

Definition async (i : nat) : prog process unit :=
  modify (fun s => Process (con s) (bag s ++ [i]) (Queued i :: log s)).

Definition pick (o : nat) (l : list nat) : option (nat * list nat) :=
  let k := o mod (length l) in
  match l !! k with
  | Some i => Some (i, take k l ++ drop (S k) l)
  | None => None
  end.
Definition take_any (t : nat) : prog process nat :=
  Act (fun o s => match pick o (bag s) with
                  | Some (i, l) => Some (Process (con s) l (Taken t i :: log s), i)
                  | None => None
                  end).

Definition park (t : nat) : prog process unit := emit (Parked t).
Definition unpark (t : nat) : prog process unit := emit (Unparked t).

Definition worker (t : nat) : prog process unit :=
  Iter (fun _ =>
    let! i := take_any t in
    do! apply_operation i (Some con_lens) t (fun i => emit (Ended i)) in
    Ret (inl tt)) tt.

(** The consumable has been made with [times] resources. *)
Definition apply_ (t times : nat) : prog process unit :=
  do! each async (seq 0 times) in
  do! wait_for_consumed park unpark [con_lens] t forever in
  emit Applied.

Definition start (times workers : nat) : cfg process :=
  (Process (make_consumable (Z.of_nat times)) [] [], apply_ 0 times :: map worker (seq 1 workers)).

(** ** What the log says *)
Fixpoint added (l : list event) : nat :=
  match l with [] => 0 | Queued _ :: l => S (added l) | _ :: l => added l end.
Fixpoint taken (l : list event) : list nat :=
  match l with [] => [] | Taken _ i :: l => i :: taken l | _ :: l => taken l end.
Fixpoint taken_by (t : nat) (l : list event) : Z :=
  match l with
  | [] => 0
  | Taken u _ :: l => taken_by t l + if decide (u = t) then 1 else 0
  | _ :: l => taken_by t l
  end.
Definition all_ended (t : nat) (l : list event) : Prop :=
  forall i, Taken t i ∈ l -> Ended i ∈ l.

Section proof.
Context (times n : nat) (Htimes : (Z.of_nat times < 2 ^ 64)%Z).

Record good (s : process) : Prop := {
  good_bar : barrier_inv (m_barrier (con s));
  good_done : bdone (m_barrier (con s)) = true -> m_resources (con s) = 0%Z;
  good_res : m_resources (con s) = (Z.of_nat times - total n (spent (con s)))%Z;
  good_spent t : (0 <= spent (con s) t <= taken_by t (log s))%Z;
  good_perm : bag s ++ taken (log s) ≡ₚ seq 0 (added (log s));
  good_added : added (log s) <= times;
  good_total : total n (fun t => taken_by t (log s)) = Z.of_nat (length (taken (log s)));
  good_ended t : spent (con s) t = taken_by t (log s) -> all_ended t (log s);
  good_below t i : Taken t i ∈ log s -> t < n;
  good_applied : Applied ∈ log s -> m_resources (con s) = 0%Z;
  good_closer : m_resources (con s) = 0%Z -> 0 < times ->
    exists t, closer (con s) = Some t /\ 0 < t < n;
  good_open : m_resources (con s) <> 0%Z -> closer (con s) = None
}.

Record keeps (t : nat) (s s' : process) : Prop := {
  keeps_bar : brely t (m_barrier (con s)) (m_barrier (con s'));
  keeps_spent : spent (con s') t = spent (con s) t;
  keeps_taken : taken_by t (log s') = taken_by t (log s);
  keeps_own i : Taken t i ∈ log s' -> Taken t i ∈ log s;
  keeps_ended i : Ended i ∈ log s -> Ended i ∈ log s';
  keeps_res : (m_resources (con s') <= m_resources (con s))%Z;
  keeps_added : t = 0 -> added (log s') = added (log s);
  keeps_closer : closer (con s') = Some t -> closer (con s) = Some t
}.

#[export] Instance apply_keeps_pre t : PreOrder (keeps t).
Proof.
  split; [by split|]. intros x y z [A1 A2 A3 A4 A5 A6 A7 A8] [B1 B2 B3 B4 B5 B6 B7 B8].
  split; [by transitivity (m_barrier (con y))|congruence|congruence|auto|auto|lia| |auto].
  intros Ht. rewrite B7; auto.
Qed.

(** A worker waits for an iteration, apply for the barrier. *)
Definition waits (t : nat) (s : process) : Prop :=
  spent (con s) t = taken_by t (log s) /\
  ((t <> 0 /\ bag s = [] /\ (closer (con s) = Some t -> bdone (m_barrier (con s)) = true)) \/
   (t = 0 /\ added (log s) = times /\ 0 < times /\ sleeping t (m_barrier (con s)))).

Definition protocol : Conc.protocol process := Protocol good keeps waits apply_keeps_pre.

#[export] Instance apply_host : host (con_barrier con_lens) protocol.
Proof.
  split.
  - intros s Hs. apply Hs.
  - intros t s s' H. apply H.
  - intros t s b [G1 G2 G3 G4 G5 G6 G7 G8 G9 G10 G11 G12] (Hb & Hd & Hr). split.
    + split; simpl; try done. rewrite Hd. done.
    + intros u Hu. split; simpl; try done. by apply Hr.
Qed.

(** No resource is left only when everything has been executed. *)
Lemma nothing_left s :
  good s -> m_resources (con s) = 0%Z ->
  bag s = [] /\ added (log s) = times /\ (forall t, spent (con s) t = taken_by t (log s)) /\
  taken (log s) ≡ₚ seq 0 times.
Proof.
  intros Hs H0. pose proof (good_res _ Hs) as Hr. pose proof (good_perm _ Hs) as Hp.
  pose proof (good_added _ Hs) as Ha. pose proof (good_total _ Hs) as Ht.
  assert (Hle : (total n (spent (con s)) <= total n (fun t => taken_by t (log s)))%Z)
    by (apply total_le; intros; apply Hs).
  pose proof (Permutation_length Hp) as Hl. rewrite length_app, length_seq in Hl.
  assert (Hb : bag s = []) by (apply length_zero_iff_nil; lia).
  assert (Had : added (log s) = times) by lia.
  rewrite Hb, Had in Hp. simpl in Hp. split_and!; [done|done| |done].
  intros t. destruct (decide (t < n)) as [Htn|Htn].
  - assert (Hs1 : (total n (spent (con s)) =
       total n (fun u => taken_by u (log s)))%Z) by lia.
    destruct (Z.eq_dec (spent (con s) t) (taken_by t (log s))) as [?|Hne]; [done|exfalso].
    pose proof (good_spent _ Hs t) as [_ Hlt].
    set (f u := if decide (u = t) then (taken_by t (log s) - 1)%Z else taken_by u (log s)).
    assert (total n (spent (con s)) <= total n f)%Z.
    { apply total_le. intros u _. unfold f. case_decide as E; [subst u; lia|apply Hs]. }
    assert (E : total n f = (total n (fun u => taken_by u (log s)) - 1)%Z).
    { rewrite (total_change n (fun u => taken_by u (log s)) f t Htn).
      - unfold f at 1. rewrite decide_True by done. lia.
      - intros u Hu. unfold f. by rewrite decide_False. }
    lia.
  - assert (E : taken_by t (log s) = 0%Z).
    { pose proof (good_below _ Hs) as Hbl. revert Hbl Htn. clear. intros Hbl Htn.
      induction (log s) as [|e l IH]; [done|]. simpl.
      destruct e as [|u i| | | |]; try (apply IH; intros; apply (Hbl _ i); by right).
      all: try (apply IH; intros; eapply Hbl; by right).
      rewrite IH by (intros; eapply Hbl; by right). rewrite decide_False; [lia|].
      intros ->. apply Htn. eapply Hbl. by left. }
    pose proof (good_spent _ Hs t). lia.
Qed.

(** ** The operations *)

(** A worker outside of an iteration; executing [i]; done with it. *)
Record idle (t : nat) (s : process) : Prop := {
  idle_lt : t < n;
  idle_cand : candidate (m_barrier (con s)) t = None;
  idle_spent : spent (con s) t = taken_by t (log s);
  idle_closer : t <> 0 -> closer (con s) = Some t -> bdone (m_barrier (con s)) = true
}.
Record holding (t i : nat) (s : process) : Prop := {
  hold_lt : t < n;
  hold_cand : candidate (m_barrier (con s)) t = None;
  hold_spent : (spent (con s) t + 1)%Z = taken_by t (log s);
  hold_ne : t <> 0;
  hold_others j : Taken t j ∈ log s -> j = i \/ Ended j ∈ log s
}.
Record spare (t : nat) (s : process) : Prop := {
  spare_lt : t < n;
  spare_cand : candidate (m_barrier (con s)) t = None;
  spare_spent : (spent (con s) t + 1)%Z = taken_by t (log s);
  spare_ne : t <> 0;
  spare_ended : all_ended t (log s)
}.

Lemma apply_idle_stable t : stable protocol t (idle t).
Proof.
  intros s s' [H1 H2 H3 H4] _ _ [[K1 _ Kd] K2 K3 _ _ _ _ K8].
  split; [done|congruence|congruence|auto].
Qed.

Lemma holding_stable t i : stable protocol t (holding t i).
Proof.
  intros s s' [H1 H2 H3 Hne H4] _ _ [[K1 _ _] K2 K3 K4 K5 _ _ _].
  split; [done|congruence|congruence|done|]. intros j Hj. destruct (H4 j (K4 j Hj)); auto.
Qed.

Lemma spare_stable t : stable protocol t (spare t).
Proof.
  intros s s' [H1 H2 H3 Hne H4] _ _ [[K1 _ _] K2 K3 K4 K5 _ _ _].
  split; [done|congruence|congruence|done|]. intros j Hj. auto.
Qed.

(** Events that do not count. *)
Definition plain (e : event) : Prop :=
  match e with Queued _ | Taken _ _ => False | _ => True end.

Lemma apply_emit_ok e s :
  plain e -> (e = Applied -> m_resources (con s) = 0%Z) -> good s ->
  let s' := Process (con s) (bag s) (e :: log s) in good s' /\ forall u, keeps u s s'.
Proof.
  intros He Ha [G1 G2 G3 G4 G5 G6 G7 G8 G9 G10 G11 G12] s'.
  assert (Et : forall u, taken_by u (e :: log s) = taken_by u (log s)) by (intros u; by destruct e; try destruct He).
  assert (Hin : forall u i, Taken u i ∈ e :: log s -> Taken u i ∈ log s).
  { intros u i [<-|?]%elem_of_cons; done. }
  split.
  - split; simpl con; simpl bag; simpl log; try done.
    + intros u. rewrite Et. done.
    + by destruct e; try destruct He.
    + by destruct e; try destruct He.
    + transitivity (total n (fun t => taken_by t (log s))); [by apply total_ext; intros|]. by destruct e; try destruct He.
    + intros u. rewrite Et. intros E i Hi. right. apply (G8 u E), Hin, Hi.
    + intros u i Hi. by eapply G9, Hin.
    + intros [<-|?]%elem_of_cons; auto.
  - intros u. split; simpl con; simpl bag; simpl log; try done.
    + by apply Hin.
    + intros i Hi. by right.
    + by destruct e; try destruct He.
Qed.

Lemma emit_plain t e P :
  plain e -> e <> Applied -> stable protocol t P -> triple protocol t P (emit e) (fun _ => P).
Proof.
  intros He Ha HP. apply triple_modify; [done..|]. intros s Hs HPs.
  destruct (apply_emit_ok e s He ltac:(done) Hs) as [Hg Hk].
  split_and!; [done|by intros u _; apply Hk|by apply (HP s); [..|apply Hk]].
Qed.

Lemma ended_spec t i : triple protocol t (holding t i) (emit (Ended i)) (fun _ => spare t).
Proof.
  apply triple_modify; [apply holding_stable|apply spare_stable|]. intros s Hs [H1 H2 H3 Hne H4].
  destruct (apply_emit_ok (Ended i) s I ltac:(done) Hs) as [Hg Hk].
  split_and!; [done|by intros u _; apply Hk|]. split; simpl; [done|done|done|done|].
  intros j [?|Hj]%elem_of_cons; [done|]. destruct (H4 j Hj) as [->|?]; [by left|by right].
Qed.

(** After the fetch_sub: [last] says whether it took the last resource. *)
Definition consumed (last : bool) (t : nat) (s : process) : Prop :=
  t < n /\ t <> 0 /\ candidate (m_barrier (con s)) t = None /\
  spent (con s) t = taken_by t (log s) /\
  if last then (m_resources (con s) <= 0)%Z else closer (con s) <> Some t.

Lemma consumed_stable last t : stable protocol t (consumed last t).
Proof.
  intros s s' (H1 & H2 & H3 & H4 & H5) _ _ [[K1 _ _] K2 K3 _ _ K6 _ K8].
  split_and!; [done|done|congruence|congruence|]. destruct last; [lia|auto].
Qed.

Lemma spent_le s : good s -> (total n (spent (con s)) <= Z.of_nat times)%Z.
Proof.
  intros [G1 G2 G3 G4 G5 G6 G7 _ _ _ _ _].
  transitivity (total n (fun t => taken_by t (log s))); [apply total_le; intros; apply G4|].
  rewrite G7. pose proof (Permutation_length G5) as Hl. rewrite length_app, length_seq in Hl. lia.
Qed.

(** consume_resource: the assertion holds, and the last one completes the barrier. *)
Lemma consume_ok t s :
  good s -> spare t s ->
  (0 < m_resources (con s))%Z /\
  let s' := Process (fetch_sub t (con s)) (bag s) (log s) in
  good s' /\ guar protocol t s s' /\ consumed (Z.eqb 1 (m_resources (con s))) t s'.
Proof.
  intros Hs [H1 H2 H3 Hne H4]. pose proof Hs as [G1 G2 G3 G4 G5 G6 G7 G8 G9 G10 G11 G12].
  assert (Htot : total n (<[t := (spent (con s) t + 1)%Z]> (spent (con s))) =
                 (total n (spent (con s)) + 1)%Z).
  { rewrite (total_change n (spent (con s)) _ t H1).
    - rewrite fn_same. lia.
    - intros u Hu. by rewrite fn_other. }
  assert (Hle : (total n (spent (con s)) + 1 <= Z.of_nat times)%Z).
  { rewrite <- Htot. transitivity (total n (fun t => taken_by t (log s))).
    - apply total_le. intros u _. fn_cases; [lia|apply G4].
    - rewrite G7. pose proof (Permutation_length G5) as Hl. rewrite length_app, length_seq in Hl. lia. }
  assert (Hpos : (0 < m_resources (con s))%Z) by lia. split; [done|].
  assert (Hnn : (0 <= total n (spent (con s)))%Z) by (apply total_nonneg; intros; apply G4).
  assert (Hw : wrap_u64 (m_resources (con s) - 1) = (m_resources (con s) - 1)%Z)
    by (apply wrap_u64_id; lia).
  assert (Hc : closer (con s) = None) by (apply G12; lia).
  split_and!.
  - split; simpl; try done.
    + intros Hd. specialize (G2 Hd). lia.
    + rewrite Hw, Htot. lia.
    + intros u. specialize (G4 u). fn_cases; lia.
    + intros u Hu. fn_cases; [done|]. by apply G8.
    + intros Ha. specialize (G10 Ha). lia.
    + rewrite Hw. intros E _. exists t. destruct (Z.eqb_spec 1 (m_resources (con s))); [|lia].
      split; [done|lia].
    + rewrite Hw. intros E. destruct (Z.eqb_spec 1 (m_resources (con s))); [lia|done].
  - intros u Hu. split; simpl; try done; [by rewrite fn_other|rewrite Hw; lia|].
    destruct (Z.eqb 1 (m_resources (con s))); congruence.
  - unfold consumed; simpl. rewrite fn_same, Hw. split_and!; [done|done|done|lia|].
    destruct (Z.eqb_spec 1 (m_resources (con s))); [lia|congruence].
Qed.

Lemma consume_spec t :
  triple protocol t (spare t) (consume_resource con_lens t) (fun _ => idle t).
Proof.
  assert (Hst : forall r, stable protocol t (fun s => spare t s /\ (0 < r)%Z)).
  { intros r s s' [? ?] ? ? ?. split; [by eapply spare_stable|done]. }
  unfold consume_resource. eapply triple_bind.
  { apply (triple_read t _ _ _ (fun r s => spare t s /\ (0 < r)%Z)); [apply spare_stable|done|].
    intros s Hs Hsp. split; [done|]. by destruct (consume_ok t s Hs Hsp). }
  intros r. eapply triple_bind.
  { apply triple_assert; [apply Hst|]. intros s _ [_ ?]. lia. }
  intros ?. eapply triple_bind.
  { apply (triple_act t _ _ _ (fun p => consumed (Z.eqb 1 p) t)).
    - apply Hst.
    - intros p. apply consumed_stable.
    - done.
    - intros _ s s' p Hs [Hsp _] E. simpl in E. injection E as <- <-.
      by destruct (consume_ok t s Hs Hsp) as (_ & ?). }
  intros p. cbv beta. destruct (Z.eqb 1 p).
  2: { apply triple_ret; [apply (consumed_stable false)|].
       intros s _ (H1 & H2 & H3 & H4 & H5). by split. }
  apply complete_spec; [apply (consumed_stable true)|apply apply_idle_stable|].
  intros s b Hs (H1 & H2 & H3 & H4 & H5) (B1 & B2 & B3 & B4).
  pose proof Hs as [G1 G2 G3 G4 G5 G6 G7 G8 G9 G10 G11 G12].
  assert (H0 : m_resources (con s) = 0%Z) by (pose proof (spent_le s Hs); lia).
  split_and!.
  - split; simpl; done.
  - intros u Hu. split; simpl; try done. by apply B4.
  - split; simpl in *; [done|congruence|done|done].
Qed.

(** ** The threads *)
Lemma pick_Some o l i l' : pick o l = Some (i, l') -> l ≡ₚ i :: l'.
Proof.
  unfold pick. destruct (l !! _) as [x|] eqn:E; [|done]. intros [= -> <-].
  rewrite <- (take_drop_middle l _ i E) at 1. by rewrite Permutation_middle.
Qed.

Lemma pick_enabled l : l <> [] -> pick 0 l <> None.
Proof.
  intros Hl. unfold pick. destruct l as [|x l]; [done|]. rewrite Nat.Div0.mod_0_l. done.
Qed.

Lemma take_ok t s i l :
  t <> 0 -> good s -> idle t s -> bag s ≡ₚ i :: l ->
  let s' := Process (con s) l (Taken t i :: log s) in
  good s' /\ guar protocol t s s' /\ holding t i s'.
Proof.
  intros Hne Hs [H1 H2 H3 _] Hp. pose proof Hs as [G1 G2 G3 G4 G5 G6 G7 G8 G9 G10 G11 G12]. split_and!.
  - split; simpl con; simpl bag; simpl log; simpl added; simpl taken; try done.
    + intros u. simpl. specialize (G4 u). case_decide; lia.
    + rewrite <- G5, Hp. simpl. by rewrite Permutation_middle.
    + simpl. rewrite (total_change n (fun u => taken_by u (log s)) _ t H1).
      * rewrite decide_True by done. lia.
      * intros u Hu. rewrite decide_False by done. lia.
    + intros u. simpl. specialize (G4 u). case_decide as E; [subst u; lia|].
      rewrite Z.add_0_r. intros Hu j [?|Hj]%elem_of_cons; [congruence|]. right. by apply (G8 u).
    + intros u j [[= -> _]|Hj]%elem_of_cons; [done|by eapply G9].
    + intros [?|?]%elem_of_cons; [done|auto].
  - intros u Hu. split; simpl; try done.
    + rewrite decide_False by done. lia.
    + intros j [[= -> _]|?]%elem_of_cons; done.
    + intros j Hj. by right.
  - split; simpl; [done|done| |done|].
    + rewrite decide_True by done. lia.
    + intros j [[= ->]|Hj]%elem_of_cons; [by left|right]. right. by apply (G8 t).
Qed.

Lemma worker_spec t :
  t <> 0 -> triple protocol t (idle t) (worker t) (fun _ _ => False).
Proof.
  intros Ht0. apply (triple_iter t _ _ (fun _ => idle t) _ (fun _ _ => False));
    [intros; apply apply_idle_stable|by intros _ s s' []|]. intros _.
  eapply triple_bind.
  { apply (triple_block t _ _ _ (holding t)); [apply apply_idle_stable|intros; apply holding_stable| |].
    - intros s Hs Hi. destruct (bag s) as [|x l] eqn:E; [right|left].
      { split; [apply Hi|]. left. split_and!; [done|done|]. by apply Hi. }
      apply enabled_0. pose proof (pick_enabled (x :: l) ltac:(done)) as Hk.
      by destruct (pick 0 (x :: l)) as [[]|].
    - intros o s s' i Hs Hi E. destruct (pick o (bag s)) as [[j l]|] eqn:Ep; simplify_eq/=.
      apply pick_Some in Ep. by apply take_ok. }
  intros i. unfold apply_operation. eapply triple_bind.
  { eapply triple_bind; [apply ended_spec|]. intros ?. apply consume_spec. }
  intros ?. by apply triple_ret; [apply apply_idle_stable|].
Qed.

(** The thread that applies, with [k] iterations queued. *)
Definition applying (k : nat) (s : process) : Prop := idle 0 s /\ added (log s) = k.
Definition drained (s : process) : Prop := idle 0 s /\ m_resources (con s) = 0%Z.

Lemma applying_stable k : stable protocol 0 (applying k).
Proof.
  intros s s' [H1 H2] ? ? K. split; [by eapply apply_idle_stable|]. destruct K as [_ _ _ _ _ _ K7 _].
  rewrite K7; done.
Qed.

Lemma resources_nonneg s : good s -> (0 <= m_resources (con s))%Z.
Proof.
  intros [G1 G2 G3 G4 G5 G6 G7 G8 G9 G10 G11 G12]. rewrite G3.
  assert (total n (spent (con s)) <= total n (fun t => taken_by t (log s)))%Z
    by (apply total_le; intros; apply G4).
  pose proof (Permutation_length G5) as Hl. rewrite length_app, length_seq in Hl. lia.
Qed.

Lemma drained_stable : stable protocol 0 drained.
Proof.
  intros s s' [H1 H2] ? Hs' K. split; [by eapply apply_idle_stable|].
  pose proof (resources_nonneg _ Hs'). destruct K. lia.
Qed.

Lemma async_all_spec k m :
  k + m <= times ->
  triple protocol 0 (applying k) (each async (seq k m)) (fun _ => applying (k + m)).
Proof.
  revert k. induction m as [|m IH]; intros k Hk; simpl each.
  { rewrite Nat.add_0_r. apply triple_skip, applying_stable. }
  eapply triple_bind.
  - apply (triple_modify _ _ _ (fun _ => applying (S k))); [apply applying_stable..|].
    intros s Hs [[H1 H2 H3 H4] Ha]. pose proof Hs as [G1 G2 G3 G4 G5 G6 G7 G8 G9 G10 G11 G12].
    rewrite <- Ha in *. split_and!.
    + split; simpl con; simpl bag; simpl log; simpl added; simpl taken; simpl taken_by; try done.
      * rewrite <- (Nat.add_1_r (added (log s))), seq_app, <- G5. simpl.
        by rewrite <- !app_assoc, (Permutation_app_comm [_]).
      * lia.
      * intros u Hu i [?|Hi]%elem_of_cons; [done|]. right. by apply (G8 u).
      * intros u i [?|Hi]%elem_of_cons; [done|by eapply G9].
      * intros [?|?]%elem_of_cons; [done|auto].
    + intros u Hu. split; simpl; try done.
      * by intros i [?|?]%elem_of_cons.
      * intros i Hi. by right.
    + split; simpl; [by split|done].
  - intros ?. replace (k + S m) with (S k + m) by lia. apply IH. lia.
Qed.

Lemma wait_own_spec :
  triple protocol 0 (applying times) (wait_own park unpark con_lens 0 forever)
    (fun r s => r = true /\ drained s).
Proof.
  assert (Hd : forall r : bool, stable protocol 0 (fun s => r = true /\ drained s)).
  { intros r s s' [? ?] ? ? ?. split; [done|by eapply drained_stable]. }
  set (P := fun s => 0 < n /\ spent (con s) 0 = taken_by 0 (log s) /\ added (log s) = times /\ 0 < times).
  assert (HP : stable protocol 0 P).
  { intros s s' (? & ? & ? & ?) ? ? [_ K2 K3 _ _ _ K7 _]. split_and!; [done|congruence| |done].
    rewrite K7; done. }
  assert (Hpos : stable protocol 0 (fun s => applying times s /\ 0 < times)).
  { intros s s' [? ?] ? ? ?. split; [by eapply applying_stable|done]. }
  unfold wait_own. eapply triple_bind.
  { apply (triple_read 0 _ _ _ (fun r s => if Z.eqb 0 r then drained s else applying times s /\ 0 < times)).
    - apply applying_stable.
    - intros r. destruct (Z.eqb 0 r); [apply drained_stable|apply Hpos].
    - intros s Hs Hi. simpl. destruct (Z.eqb_spec 0 (m_resources (con s))) as [E|E];
        [by split; [apply Hi|]|split; [done|]].
      pose proof (resources_nonneg s Hs). pose proof (good_res _ Hs) as Hr. simpl in E.
      pose proof (total_nonneg n (spent (con s)) ltac:(intros; apply Hs)). lia. }
  intros r. cbv beta. destruct (Z.eqb 0 r); [by apply triple_ret; [apply drained_stable|]|].
  unfold block_scope. eapply triple_bind.
  { apply (emit_plain 0 (Parked 0)); [done..|apply Hpos]. }
  intros ?. eapply triple_bind.
  { eapply triple_pre; [apply (wait_spec (L := con_barrier con_lens) 0 forever P); [|exact HP|]|].
    - intros s _ (_ & ? & ? & ?) ?. split; [done|]. by right.
    - intros s b (? & ? & ? & ?) _. by split_and!.
    - intros s _ [[[H1 H2 H3 _] H4] H5]. by split. }
  intros b. eapply (triple_bind _ _ _ _ _ _ (fun _ s => b = true /\ drained s)).
  { eapply triple_conseq; [apply (emit_plain 0 (Unparked 0) (fun s => b = true /\ drained s));
      [done..|apply Hd]| |done].
    intros s Hs ((H1 & H2 & _) & H3 & [H4 H5]). specialize (H5 eq_refl). split; [done|].
    split; [by split|]. apply (good_done _ Hs). by apply H4. }
  intros ?. apply triple_ret; [apply Hd|done].
Qed.

Lemma apply_spec :
  triple protocol 0 (applying 0) (apply_ 0 times) (fun _ => drained).
Proof.
  unfold apply_. eapply triple_bind; [by apply (async_all_spec 0 times)|].
  intros ?. eapply triple_bind.
  { simpl. apply (triple_bind _ _ _ _ _ _ (fun r s => r = true /\ drained s)).
    - eapply triple_pre; [apply wait_own_spec|]. by intros s _.
    - intros [|]; [|by apply triple_absurd; intros s _ [? _]].
      apply (triple_ret 0 _ _ _ (fun _ => drained)); [|by intros s _ [_ ?]].
      intros s s' [? ?] ? ? ?. split; [done|by eapply drained_stable]. }
  intros ?. apply triple_modify; [apply drained_stable..|]. intros s Hs [H1 H2].
  destruct (apply_emit_ok Applied s I ltac:(done) Hs) as [Hg Hk].
  split_and!; [done|by intros u _; apply Hk|]. split; [|done]. destruct H1. by split.
Qed.
End proof.

(** ** What apply() promises *)
Definition resting (times n t : nat) (s : process) : Prop :=
  t < n -> if Nat.eqb t 0 then drained n s else False.

Lemma apply_sound times workers c :
  (Z.of_nat times < 2 ^ 64)%Z -> reach (start times workers) c ->
  sound (protocol times (S workers)) (start times workers).1 (resting times (S workers)) c.
Proof.
  intros Ht. set (n := S workers).
  apply (rg_sound (W := protocol times n) (fun t s => t < n -> idle n t s /\ added (log s) = 0)
           (resting times n)).
  - split; simpl; [apply make_barrier_inv|done| |done|done|lia| | | | | |done].
    + rewrite (total_zero workers) by done. lia.
    + by rewrite (total_zero workers).
    + by intros t _ i ?%not_elem_of_nil.
    + by intros t i ?%not_elem_of_nil.
    + by intros ?%not_elem_of_nil.
    + lia.
  - intros t Ht'. by split.
  - intros t p Hp. destruct t as [|t]; simpl in Hp.
    + injection Hp as <-. eapply triple_conseq; [by apply (apply_spec times n)| |].
      * intros s _ H. destruct (H ltac:(lia)) as [Hi Ha]. by split.
      * intros a s _ Hd _. exact Hd.
    + apply list_lookup_fmap_Some in Hp as (u & -> & Hu).
      apply lookup_seq in Hu as [-> Hlt].
      eapply triple_conseq; [by apply (worker_spec times n Ht (1 + t))| |].
      * intros s _ H. apply H. lia.
      * intros a s _ [].
Qed.

(** C25: apply(times, op) runs op exactly once for each index below [times], on
    whatever workers and in whatever order, and returns only when the last of
    them is done; the counter never underflows and no assertion fails. *)
Theorem apply_runs_each_once times workers c :
  (Z.of_nat times < 2 ^ 64)%Z -> reach (start times workers) c ->
  no_fault c /\ NoDup (taken (log c.1)) /\
  (Applied ∈ log c.1 ->
   taken (log c.1) ≡ₚ seq 0 times /\ forall i, i < times -> Ended i ∈ log c.1).
Proof.
  intros Ht Hc%apply_sound; [|done]. pose proof (sound_inv Hc) as Hg.
  split_and!; [apply Hc| |].
  - pose proof (good_perm _ _ _ Hg) as Hp. assert (Hn : NoDup (bag c.1 ++ taken (log c.1))).
    { rewrite Hp. apply NoDup_seq. }
    by apply list.NoDup_app in Hn as (_ & _ & ?).
  - intros Ha. destruct (nothing_left _ _ _ Hg) as (_ & _ & Hs & Hp); [by apply (good_applied _ _ _ Hg)|].
    split; [done|]. intros i Hi.
    assert (Hin : i ∈ taken (log c.1)) by (rewrite Hp; apply elem_of_seq; lia).
    assert (Hex : exists t, Taken t i ∈ log c.1).
    { revert Hin. clear. induction (log c.1) as [|e l IH]; simpl; [by intros ?%not_elem_of_nil|].
      destruct e as [|u j| | | |]; simpl; try (intros H; destruct (IH H) as [v ?]; exists v; by right).
      intros [->|H]%elem_of_cons; [exists u; by left|]. destruct (IH H) as [t ?]. exists t. by right. }
    destruct Hex as [t Hx]. by apply (good_ended _ _ _ Hg t).
Qed.


(** Three iterations, two workers. *)
Definition applied3 : cfg process :=
  play (go 0 30 ++ go 1 20 ++ go 2 100 ++ go 1 50 ++ go 0 60) (start 3 2).

Theorem apply_runs_each_once_witness :
  Applied ∈ log applied3.1 /\ no_fault applied3 /\ NoDup (taken (log applied3.1)) /\
  (Applied ∈ log applied3.1 ->
   taken (log applied3.1) ≡ₚ seq 0 3 /\ forall i, i < 3 -> Ended i ∈ log applied3.1).
Proof.
  split; [vm_compute; left|]. apply (apply_runs_each_once 3 2); [lia|].
  apply play_reach, reach_here.
Defined.

End ApplyProcess.
