(* ===== verification/Group.v ===== *)
(** * Group: src/naive/naive_group.cpp

    The group of the naive backend: a chain of consumables, the newest of which
    counts the operations submitted since the last wait(). *)
From S2P Require Import Prelude Conc LightweightBarrier Consumable.
Import Barrier Consum.

Module Group.

Section code.
Context {Σ : Type}.
(** Consumables are heap objects: their address, and [preceding], which is the
    const member m_preceeding of each. *)
Context (at_ : nat -> lens Σ consumable).
Context (m_consumable : lens Σ nat).
Context (alloc : nat -> prog Σ nat).            (* make_shared<consumable>(0, old) *)
Context (preceding : Σ -> nat -> option nat).
Context (park unpark : nat -> prog Σ unit).
(** q->async(consuming_operation(op, c)) and m_pool->execute(op): the argument
    is the body the queue or the pool will execute on some thread. *)
Context (queue_async : (nat -> prog Σ unit) -> prog Σ unit).
Context (pool_execute : (nat -> prog Σ unit) -> prog Σ unit).

Definition async (op : prog Σ unit) : prog Σ unit :=
  let! c := read (get m_consumable) in
  do! add_resource (at_ c) in
  queue_async (fun t => consuming_operation (Some (at_ c)) t op).

(** The addresses of a consumable and of all that precede it, oldest first:
    there are no more of them than its address, since each is older. *)
Fixpoint chain (fuel : nat) (s : Σ) (c : nat) : list nat :=
  match fuel with
  | O => [c]
  | S fuel => match preceding s c with
              | Some p => if Nat.eqb p c then [c] else chain fuel s p ++ [c]
              | None => [c]
              end
  end.

Definition wait (t : nat) (timeout : Z) : prog Σ bool :=
  let! old_c := Iter (fun _ =>
    let! old_c := read (get m_consumable) in
    let! new_c := alloc old_c in
    Act (fun o s =>
      if Nat.eqb (get m_consumable s) old_c && negb (Nat.eqb o o_spurious)
      then Some (set m_consumable new_c s, inr old_c)
      else Some (s, inl tt))) tt in
  let! addresses := read (fun s => chain old_c s old_c) in
  wait_for_consumed park unpark (map at_ addresses) t timeout.

(** std::chrono::milliseconds::max() *)
Definition milliseconds_max : Z := (2 ^ 63 - 1)%Z.

Definition notify (op : prog Σ unit) (enqueue : prog Σ unit -> prog Σ unit) : prog Σ unit :=
  pool_execute (fun t => let! _ := wait t milliseconds_max in enqueue op).
End code.

(** A wait covers the consumable it found and every one that precedes it,
    directly or not, oldest first: since a consumable is older than the ones it
    precedes, its address is fuel enough. *)
Theorem wait_covers_chain {Σ} (preceding : Σ -> nat -> option nat) (s : Σ) :
  (forall c p, preceding s c = Some p -> p < c) ->
  forall fuel c, c <= fuel ->
    (exists older, chain preceding fuel s c = older ++ [c]) /\
    (forall x p, x ∈ chain preceding fuel s c -> preceding s x = Some p ->
       p ∈ chain preceding fuel s c).
Proof.
  intros Hold fuel. induction fuel as [|fuel IH]; intros c Hc; simpl.
  { split; [by exists []|]. intros x p ->%list_elem_of_singleton Hp. apply Hold in Hp. lia. }
  destruct (preceding s c) as [p|] eqn:E.
  - pose proof (Hold c p E). destruct (Nat.eqb_spec p c) as [->|Hne]; [lia|].
    destruct (IH p) as [[l El] Hin]; [lia|]. split; [by eexists|].
    intros x y [Hx| ->%list_elem_of_singleton]%elem_of_app Hy; apply elem_of_app; left; [by eapply Hin|].
    rewrite E in Hy. injection Hy as <-.
    rewrite El. apply elem_of_app. right. by apply list_elem_of_singleton.
  - split; [by exists []|]. intros x p ->%list_elem_of_singleton Hp. congruence.
Qed.

(** Consumable 2 precedes 3 and is preceded by 1. *)
Definition three (_ : unit) (c : nat) : option nat :=
  match c with 2 => Some 1 | 3 => Some 2 | _ => None end.
Theorem wait_covers_chain_witness :
  chain three 3 tt 3 = [1; 2; 3] /\
  (exists older, chain three 3 tt 3 = older ++ [3]) /\
  (forall x p, x ∈ chain three 3 tt 3 -> three tt x = Some p -> p ∈ chain three 3 tt 3).
Proof.
  split; [reflexivity|]. apply (wait_covers_chain three tt); [|lia].
  intros c p E. do 4 (destruct c as [|c]; [simplify_eq/=; try lia|]). done.
Defined.

(** ** The deadline of a bounded wait

    condition_variable::wait_for waits until now + timeout on the steady clock,
    which counts nanoseconds in 64 bits. *)
Definition deadline_ns (now timeout_ms : Z) : Z := wrap_s64 (now + wrap_s64 (timeout_ms * 1000000)).

(** The deadline of every timeout up to 250 years is ahead; but the
    milliseconds::max() notify() passes wraps around to a deadline that is
    already over, so that the wait is not a wait at all. *)
Theorem notify_deadline_passed now :
  (0 <= now < 2 ^ 60)%Z ->
  (deadline_ns now milliseconds_max < now)%Z /\
  (forall timeout, 0 < timeout < 7889400000000 -> now < deadline_ns now timeout)%Z.
Proof.
  intros H. split.
  - replace (deadline_ns now milliseconds_max) with (now - 1000000)%Z; [lia|].
    unfold deadline_ns. replace (wrap_s64 (milliseconds_max * 1000000)) with (-1000000)%Z by done.
    rewrite wrap_s64_id; lia.
  - intros timeout Ht. unfold deadline_ns. rewrite (wrap_s64_id (timeout * 1000000)) by lia.
    rewrite wrap_s64_id; lia.
Qed.

Theorem notify_deadline_passed_witness :
  (deadline_ns 12345 milliseconds_max < 12345)%Z /\
  (forall timeout, 0 < timeout < 7889400000000 -> 12345 < deadline_ns 12345 timeout)%Z.
Proof. apply (notify_deadline_passed 12345). lia. Defined.
End Group.

(** * A process with a group, on three consumables at most *)
Module GroupProcess.
Import Group.

Inductive event := Submitted (i : nat) | Ran (i : nat) | Waited (t : nat) (r : bool).

Record process := Process {
  current : nat;
  fresh_c : nat;
  c0 : consumable;
  c1 : consumable;
  c2 : consumable;
  older : list (nat * nat);       (* address, preceding address *)
  jobs : list nat;                (* submitted and not executed: operation and consumable *)
  cons : list nat;
  log : list event
}.

Definition at_ (n : nat) : lens process consumable.
Proof.
  refine {|
    get s := match n with 0 => c0 s | 1 => c1 s | _ => c2 s end;
    set x s := match n with
      | 0 => Process (current s) (fresh_c s) x (c1 s) (c2 s) (older s) (jobs s) (cons s) (log s)
      | 1 => Process (current s) (fresh_c s) (c0 s) x (c2 s) (older s) (jobs s) (cons s) (log s)
      | _ => Process (current s) (fresh_c s) (c0 s) (c1 s) x (older s) (jobs s) (cons s) (log s)
      end |}; by intros; destruct n as [|[|n]]; try destruct s.
Defined.
Definition current_lens : lens process nat.
Proof.
  refine {| get := current;
            set n s := Process n (fresh_c s) (c0 s) (c1 s) (c2 s) (older s) (jobs s) (cons s) (log s) |};
    by intros; try destruct s.
Defined.
Definition alloc (old : nat) : prog process nat :=
  atomic (fun s =>
    let n := fresh_c s in
    (set (at_ n) (make_consumable 0)
      (Process (current s) (S n) (c0 s) (c1 s) (c2 s) ((n, old) :: older s) (jobs s) (cons s) (log s)), n)).
Definition preceding (s : process) (c : nat) : option nat :=
  match find (fun p => Nat.eqb p.1 c) (older s) with Some p => Some p.2 | None => None end.
Definition emit (e : event) : prog process unit :=
  modify (fun s => Process (current s) (fresh_c s) (c0 s) (c1 s) (c2 s) (older s) (jobs s) (cons s) (e :: log s)).

(** A queue keeps data, not code: operation [i] and the consumable it notifies. *)
Definition submit (i c : nat) : prog process unit :=
  modify (fun s => Process (current s) (fresh_c s) (c0 s) (c1 s) (c2 s) (older s)
                     (jobs s ++ [i]) (cons s ++ [c]) (Submitted i :: log s)).
(** group.async(i) on that queue. *)
Definition group_async (i : nat) : prog process unit :=
  let! c := read (get current_lens) in
  do! add_resource (at_ c) in
  submit i c.
Definition group_wait (t : nat) : prog process bool :=
  wait at_ current_lens alloc preceding (fun _ => Ret tt) (fun _ => Ret tt) t forever.

Definition execute_one (t : nat) : prog process unit :=
  let! job := Act (fun _ s =>
    match jobs s, cons s with
    | i :: l, c :: m =>
        Some (Process (current s) (fresh_c s) (c0 s) (c1 s) (c2 s) (older s) l m (log s), (i, c))
    | _, _ => None
    end) in
  consuming_operation (Some (at_ job.2)) t (emit (Ran job.1)).

Inductive call := Async (i : nat) | Wait | Execute.
Definition run_call (t : nat) (c : call) : prog process unit :=
  match c with
  | Async i => group_async i
  | Wait => let! r := group_wait t in emit (Waited t r)
  | Execute => execute_one t
  end.
Definition init : process :=
  Process 0 1 (make_consumable 0) (make_consumable 0) (make_consumable 0) [] [] [] [].
Definition start (scripts : list (list call)) : cfg process :=
  (init, imap (fun t cs => each (run_call t) cs) scripts).

(** A group forgets operations: when the first operation is done before the
    second one is submitted, the counter has been zero in between, its barrier
    stays completed, and an unbounded wait() returns true although the second
    operation has not been executed. *)
Theorem group_wait_misses_operation :
  exists c, reach (start [[Async 1; Async 2; Wait]; [Execute; Execute]]) c /\
    Submitted 2 ∈ log c.1 /\ Waited 0 true ∈ log c.1 /\ Ran 2 ∉ log c.1.
Proof.
  exists (play (go 0 8 ++ go 1 14 ++ go 0 100) (start [[Async 1; Async 2; Wait]; [Execute; Execute]])).
  split; [apply play_reach, reach_here|].
  assert (E : log (play (go 0 8 ++ go 1 14 ++ go 0 100)
    (start [[Async 1; Async 2; Wait]; [Execute; Execute]])).1 =
    [Waited 0 true; Submitted 2; Ran 1; Submitted 1]) by (vm_compute; reflexivity).
  rewrite E. split_and!; [right; left|left|]. intros H.
  repeat (apply elem_of_cons in H as [H|H]; [done|]). by apply not_elem_of_nil in H.
Qed.
End GroupProcess.
