(* ===== verification/Signals.v ===== *)
(** * Signals: src/signals.cpp, include/xdispatch/signals.h, signals_barrier.h

    Signals, the handlers connected to them, and the connections between the
    two.  What a cancelable promises (one thread inside at a time, none after it
    was disabled) is proved in Cancelable; here its state is the one its atomic
    holds. *)
From S2P Require Import Prelude Cancelable.

Module Signal.
Import Cancel(active_state, active_disabled, active_enabled, active_running, active_state_eq).

Inductive notification_mode := batch_updates | single_updates | synchronous_update.

#[export] Instance notification_mode_eq : EqDecision notification_mode.
Proof. solve_decision. Defined.

(** What is connected: code of the user, or another signal. *)
Inductive functor := User | Chain (s : nat).

Record connection_handler := Handler {
  m_queue : nat;
  m_active : active_state;
  m_pending : Z;
  m_mode : notification_mode;
  m_func : functor
}.
Record signal_p := Signal { alive : bool; m_group : bool; m_handlers : list nat }.

(** The lambda a queue was given: it owns its handler. *)
Record invocation := Invocation { handler : nat; args : nat; grouped : bool }.

Inductive event :=
| Notified (h a : nat)    (* the loop of an emit has come to this handler *)
| Coalesced (h a : nat)   (* a batching handler that is already pending *)
| Called (h a : nat)
| Dropped (h a : nat).    (* its cancelable could not be entered *)

(** The objects of the process: handlers and signals by number, the invocations
    that wait on the queues, and the handlers that are executing. *)
Record world := World {
  handlers : nat -> connection_handler;
  next_handler : nat;
  signals : nat -> signal_p;
  next_signal : nat;
  queued : list invocation;
  running : list nat;
  log : list event
}.

Definition with_handlers (f : nat -> connection_handler) (w : world) : world :=
  World f (next_handler w) (signals w) (next_signal w) (queued w) (running w) (log w).
Definition with_signals (f : nat -> signal_p) (w : world) : world :=
  World (handlers w) (next_handler w) f (next_signal w) (queued w) (running w) (log w).
Definition with_queued (l : list invocation) (w : world) : world :=
  World (handlers w) (next_handler w) (signals w) (next_signal w) l (running w) (log w).
Definition with_running (l : list nat) (w : world) : world :=
  World (handlers w) (next_handler w) (signals w) (next_signal w) (queued w) l (log w).
Definition with_log (e : event) (w : world) : world :=
  World (handlers w) (next_handler w) (signals w) (next_signal w) (queued w) (running w) (e :: log w).

Definition set_active (a : active_state) (h : connection_handler) : connection_handler :=
  Handler (m_queue h) a (m_pending h) (m_mode h) (m_func h).
Definition add_pending (z : Z) (h : connection_handler) : connection_handler :=
  Handler (m_queue h) (m_active h) (m_pending h + z) (m_mode h) (m_func h).
Definition update (h : nat) (f : connection_handler -> connection_handler) (w : world) : world :=
  with_handlers (<[h := f (handlers w h)]> (handlers w)) w.
Definition set_handlers (l : list nat) (s : signal_p) : signal_p := Signal (alive s) (m_group s) l.
Definition update_signal (s : nat) (f : signal_p -> signal_p) (w : world) : world :=
  with_signals (<[s := f (signals w s)]> (signals w)) w.

(** What goes wrong: a mutex that its own thread holds, an object that is gone;
    a chain of signals deeper than the fuel. *)
Inductive error := Deadlock | Dangling | OutOfFuel.
Definition res (A : Type) : Type := error + A.
Definition bind {A B} (x : res A) (k : A -> res B) : res B :=
  match x with inl e => inl e | inr a => k a end.

(** connection_handler::connection_handler *)
Definition make_handler (q : nat) (f : functor) (m : notification_mode) : connection_handler :=
  Handler q active_enabled 0 m f.

(** connection_handler::disable; what it waits for is that the handler is no
    longer among those that are running. *)
Definition disable (h : nat) (w : world) : world := update h (set_active active_disabled) w.

(** ** Emitting a signal *)

(** The guard of cancelable_scope, and its destructor. *)
Definition enter (h : nat) (w : world) : option world :=
  match m_active (handlers w h) with
  | active_enabled => Some (with_running (h :: running w) (update h (set_active active_running) w))
  | _ => None
  end.
Definition leave (h : nat) (w : world) : world :=
  let w := with_running (filter (fun x => x <> h) (running w)) w in
  match m_active (handlers w h) with
  | active_running => update h (set_active active_enabled) w
  | _ => w
  end.

Section emit.
(** operator() of the chained signal. *)
Context (chain : nat -> nat -> world -> res world).

Definition call (h a : nat) (w : world) : res world :=
  let w := with_log (Called h a) w in
  match m_func (handlers w h) with
  | User => inr w
  | Chain s => chain s a w
  end.

(** One turn of the loop of operator(). *)
Definition notify (s a h : nat) (w : world) : res world :=
  let pending := m_pending (handlers w h) in
  let w := with_log (Notified h a) (update h (add_pending 1) w) in
  match m_mode (handlers w h) with
  | synchronous_update =>
      match enter h w with
      | Some w => bind (call h a (update h (add_pending (-1)) w)) (fun w => inr (leave h w))
      | None => inr (with_log (Dropped h a) w)
      end
  | m =>
      if bool_decide (m = single_updates) || (pending <? 1)%Z
      then inr (with_queued (queued w ++ [Invocation h a (m_group (signals w s))]) w)
      else inr (with_log (Coalesced h a) (update h (add_pending (-1)) w))
  end.

Fixpoint notify_all (s a : nat) (hs : list nat) (w : world) : res world :=
  match hs with
  | [] => inr w
  | h :: hs => bind (notify s a h w) (notify_all s a hs)
  end.
End emit.

(** signal::operator(), on a thread that already holds the mutexes of [locked]. *)
Fixpoint emit (fuel : nat) (locked : list nat) (s a : nat) (w : world) : res world :=
  match fuel with
  | O => inl OutOfFuel
  | S fuel =>
      if decide (s ∈ locked) then inl Deadlock
      else if negb (alive (signals w s)) then inl Dangling
      else notify_all (emit fuel (s :: locked)) s a (m_handlers (signals w s)) w
  end.

(** Deep enough for any chain (emit_terminates). *)
Definition emit_fuel (w : world) : nat := S (S (next_signal w)).

(** ** The invocation a queue executes: its beginning and its end *)
Definition begin_invocation (k : nat) (w : world) : res world :=
  match queued w !! k with
  | Some i =>
      let w := with_queued (take k (queued w) ++ drop (S k) (queued w)) w in
      match enter (handler i) w with
      | Some w => call (emit (emit_fuel w) []) (handler i) (args i) (update (handler i) (add_pending (-1)) w)
      | None => inr (with_log (Dropped (handler i) (args i)) w)
      end
  | None => inr w
  end.

(** ** Connections *)
Record connection := Connection { m_id : option nat; m_parent : option nat }.
Definition no_connection : connection := Connection None None.

#[export] Instance connection_eq : EqDecision connection.
Proof. solve_decision. Defined.

(** m_id.lock(): a handler lives as long as its signal lists it, an invocation
    that waits or one that is running. *)
Definition owned (h s : nat) (w : world) : bool :=
  bool_decide (h ∈ m_handlers (signals w s)) ||
  bool_decide (h ∈ map handler (queued w)) || bool_decide (h ∈ running w).
Definition lock (c : connection) (w : world) : option nat :=
  match m_id c, m_parent c with
  | Some h, Some s => if owned h s w then Some h else None
  | _, _ => None
  end.

Definition connected (c : connection) (w : world) : bool :=
  match lock c w with Some _ => true | None => false end.
Definition is_connected_to (s : nat) (c : connection) : bool := bool_decide (m_parent c = Some s).
Definition equal (c other : connection) (w : world) : bool :=
  bool_decide (lock c w = lock other w) && bool_decide (m_parent c = m_parent other).
Definition not_equal (c other : connection) (w : world) : bool := negb (equal c other w).

(** signal_p::connect, for the handler the overloads of signal::connect make. *)
Definition connect_job (s h : nat) (w : world) : world * connection :=
  (update_signal s (fun g => set_handlers (m_handlers g ++ [h]) g) w, Connection (Some h) (Some s)).
Definition connect (s q : nat) (f : functor) (m : notification_mode) (w : world) : world * connection :=
  let h := next_handler w in
  connect_job s h (World (<[h := make_handler q f m]> (handlers w)) (S h) (signals w) (next_signal w)
            (queued w) (running w) (log w)).

(** signal_p::disconnect; it touches the signal only when the handler lives. *)
Definition signal_disconnect (s : nat) (c : connection) (w : world) : res (world * bool) :=
  match lock c w with
  | Some h =>
      if alive (signals w s) then
        inr (disable h (update_signal s (fun g => set_handlers (filter (fun x => x <> h) (m_handlers g)) g) w), true)
      else inl Dangling
  | None => inr (w, false)
  end.

(** connection::disconnect; the connection is empty afterwards. *)
Definition disconnect (c : connection) (w : world) : res (world * bool) :=
  match m_parent c with
  | Some s => signal_disconnect s c w
  | None => inr (w, false)
  end.

(** signal_p::skip_all *)
Definition skip_all (s : nat) (w : world) : world := foldr disable w (m_handlers (signals w s)).

(** signal_p::~signal_p *)
Definition destroy (s : nat) (w : world) : world :=
  update_signal s (fun g => Signal false (m_group g) []) (skip_all s w).

(** signal_p::signal_p *)
Definition make_signal (group : bool) (w : world) : world :=
  World (handlers w) (next_handler w) (<[next_signal w := Signal true group []]> (signals w))
        (S (next_signal w)) (queued w) (running w) (log w).

(** ** What a process does with them *)
Inductive action :=
| New (group : bool)
| Connect (s q : nat) (f : functor) (m : notification_mode)
| Disconnect (c : connection)
| Emit (s a : nat)
| Begin (k : nat)
| End_ (h : nat)
| SkipAll (s : nat)
| Destroy (s : nat).

Definition act (x : action) (w : world) : res world :=
  match x with
  | New group => inr (make_signal group w)
  | Connect s q f m => inr (if alive (signals w s) then fst (connect s q f m w) else w)
  | Disconnect c => bind (disconnect c w) (fun r => inr (fst r))
  | Emit s a => emit (emit_fuel w) [] s a w
  | Begin k => begin_invocation k w
  | End_ h => inr (if decide (h ∈ running w) then leave h w else w)
  | SkipAll s => inr (skip_all s w)
  | Destroy s => inr (destroy s w)
  end.

Fixpoint acts (l : list action) (w : world) : res world :=
  match l with
  | [] => inr w
  | x :: l => bind (act x w) (acts l)
  end.

Definition no_handler : connection_handler := Handler 0 active_disabled 0 single_updates User.
Definition empty_world : world :=
  World (fun _ => no_handler) 0 (fun _ => Signal false false []) 0 [] [] [].
End Signal.

(** * What signals promise *)
Module SignalProcess.
Import Cancel(active_state, active_disabled, active_enabled, active_running, active_state_eq).
Import Signal.

(** ** What the log says of one handler *)
Fixpoint notified (h : nat) (l : list event) : list nat :=
  match l with
  | Notified h' a :: l => if decide (h' = h) then a :: notified h l else notified h l
  | _ :: l => notified h l
  | [] => []
  end.
Fixpoint coalesced (h : nat) (l : list event) : list nat :=
  match l with
  | Coalesced h' a :: l => if decide (h' = h) then a :: coalesced h l else coalesced h l
  | _ :: l => coalesced h l
  | [] => []
  end.
Fixpoint called (h : nat) (l : list event) : list nat :=
  match l with
  | Called h' a :: l => if decide (h' = h) then a :: called h l else called h l
  | _ :: l => called h l
  | [] => []
  end.
Fixpoint dropped (h : nat) (l : list event) : list nat :=
  match l with
  | Dropped h' a :: l => if decide (h' = h) then a :: dropped h l else dropped h l
  | _ :: l => dropped h l
  | [] => []
  end.
Fixpoint waiting (h : nat) (l : list invocation) : list nat :=
  match l with
  | i :: l => if decide (handler i = h) then args i :: waiting h l else waiting h l
  | [] => []
  end.

Lemma waiting_app h l1 l2 : waiting h (l1 ++ l2) = waiting h l1 ++ waiting h l2.
Proof. induction l1 as [|i l1 IH]; [done|]. simpl. case_decide; [by rewrite IH|done]. Qed.

Lemma waiting_take h l k i : l !! k = Some i ->
  waiting h l ≡ₚ waiting h [i] ++ waiting h (take k l ++ drop (S k) l).
Proof.
  intros E. rewrite <- (take_drop_middle l k i E) at 1. rewrite !waiting_app. simpl.
  case_decide; simpl; [|done]. by rewrite Permutation_middle.
Qed.

(** ** The invariant *)
Record account (h : nat) (w : world) : Prop := {
  a_all : notified h (log w) ≡ₚ
    called h (log w) ++ waiting h (queued w) ++ dropped h (log w) ++ coalesced h (log w);
  a_pending : m_pending (handlers w h) =
    Z.of_nat (length (waiting h (queued w)) + length (dropped h (log w)));
  a_batch : m_mode (handlers w h) = batch_updates -> (m_pending (handlers w h) <= 1)%Z;
  a_running : m_active (handlers w h) = active_running -> h ∈ running w;
  a_enabled : m_active (handlers w h) = active_enabled -> h ∉ running w;
  a_fresh : next_handler w <= h -> notified h (log w) = [] /\ h ∉ running w
}.

Record wf (w : world) : Prop := {
  w_account h : account h w;
  w_handlers s h : h ∈ m_handlers (signals w s) -> h < next_handler w;
  w_alive s : alive (signals w s) = true -> s < next_signal w
}.

(** What an emit leaves alone. *)
Record frame (w w' : world) : Prop := {
  f_signals : signals w' = signals w;
  f_next : next_handler w' = next_handler w;
  f_next_signal : next_signal w' = next_signal w;
  f_disabled h : m_active (handlers w h) = active_disabled ->
    m_active (handlers w' h) = active_disabled /\ called h (log w') = called h (log w)
}.

#[export] Instance frame_pre : PreOrder frame.
Proof.
  split; [by split|]. intros x y z [] []. split; try congruence.
  intros h Hd. destruct (f_disabled0 h Hd). destruct (f_disabled1 h); [done|]. split; [done|congruence].
Qed.

Definition keeps (r : res world) (w : world) : Prop :=
  match r with inl _ => True | inr w' => wf w' /\ frame w w' end.

Lemma keeps_bind r w (k : world -> res world) :
  keeps r w -> (forall w', wf w' -> frame w w' -> keeps (k w') w') -> keeps (bind r k) w.
Proof.
  destruct r as [e|w1]; [done|]. simpl. intros [Hw Hf] Hk. specialize (Hk w1 Hw Hf).
  destruct (k w1) as [e|w2]; [done|]. simpl in *. destruct Hk. split; [done|]. by transitivity w1.
Qed.

Record untouched (h : nat) (w w' : world) : Prop := {
  u_handlers h' : h' <> h -> handlers w' h' = handlers w h';
  u_next : next_handler w' = next_handler w;
  u_signals : signals w' = signals w;
  u_next_signal : next_signal w' = next_signal w;
  u_notified h' : h' <> h -> notified h' (log w') = notified h' (log w);
  u_called h' : h' <> h -> called h' (log w') = called h' (log w);
  u_dropped h' : h' <> h -> dropped h' (log w') = dropped h' (log w);
  u_coalesced h' : h' <> h -> coalesced h' (log w') = coalesced h' (log w);
  u_waiting h' : h' <> h -> waiting h' (queued w') ≡ₚ waiting h' (queued w);
  u_running h' : h' <> h -> h' ∈ running w' <-> h' ∈ running w
}.

(** A change of the bookkeeping of one handler only. *)
Lemma wf_touch h w w' : wf w -> untouched h w w' -> account h w' ->
  (m_active (handlers w h) = active_disabled ->
     m_active (handlers w' h) = active_disabled /\ called h (log w') = called h (log w)) ->
  wf w' /\ frame w w'.
Proof.
  intros [W1 W2 W3] [U1 U2 U3 U4 U5 U6 U7 U8 U9 U10] Ha Hd. split; split.
  - intros h'. destruct (decide (h' = h)) as [->|Hne]; [done|]. destruct (W1 h') as [A1 A2 A3 A4 A5 A6].
    split; rewrite ?U1, ?U2, ?U5, ?U6, ?U7, ?U8, ?U9, ?U10 by done; done.
  - intros s k. rewrite U3, U2. apply W2.
  - intros s. rewrite U3, U4. apply W3.
  - done.
  - done.
  - done.
  - intros h' Hh. destruct (decide (h' = h)) as [->|Hne]; [auto|]. by rewrite U1, U6.
Qed.

(** Discharges [untouched] for states given by updates. *)
Ltac touch :=
  split; intros; simpl; rewrite ?fn_other by congruence;
  repeat (rewrite ?waiting_app; simpl; rewrite ?decide_False by congruence);
  rewrite ?app_nil_r, ?elem_of_cons, ?list_elem_of_filter; try done; try tauto; intuition congruence.

Lemma leave_keeps h w : wf w -> keeps (inr (leave h w)) w.
Proof.
  intros Hw. simpl. destruct (w_account _ Hw h) as [A1 A2 A3 A4 A5 A6].
  apply (wf_touch h); [done| | |].
  - unfold leave. simpl. destruct (m_active (handlers w h)); touch.
  - unfold leave. simpl. destruct (m_active (handlers w h)) eqn:E.
    + split; simpl; rewrite ?E; try done. intros Hn. split; [by apply A6|].
      rewrite list_elem_of_filter. by intros [].
    + split; simpl; rewrite ?E; try done; [intros _|intros Hn; split; [by apply A6|]];
        rewrite list_elem_of_filter; by intros [].
    + split; simpl; rewrite ?fn_same; simpl; try done; [intros _|intros Hn; split; [by apply A6|]];
        rewrite list_elem_of_filter; by intros [].
  - unfold leave. simpl. intros E. by rewrite E.
Qed.

Lemma enter_Some h w w1 : enter h w = Some w1 ->
  m_active (handlers w h) = active_enabled /\
  w1 = with_running (h :: running w) (update h (set_active active_running) w).
Proof. unfold enter. destruct (m_active (handlers w h)); [done| |done]. by intros [= <-]. Qed.

Lemma enter_None h w : enter h w = None -> m_active (handlers w h) <> active_enabled.
Proof. unfold enter. by destruct (m_active (handlers w h)). Qed.

Lemma waiting_nil_fresh h w : account h w -> next_handler w <= h -> waiting h (queued w) = [] /\ dropped h (log w) = [].
Proof.
  intros [A1 _ _ _ _ A6] Hn. destruct (A6 Hn) as [E _]. rewrite E in A1.
  apply Permutation_nil, app_nil in A1 as [_ A1]. apply app_nil in A1 as [? A1]. by apply app_nil in A1 as [? _].
Qed.

(** Called from an emit. *)
Lemma call_sync_keeps h a w w1 : wf w -> h < next_handler w ->
  enter h (with_log (Notified h a) (update h (add_pending 1) w)) = Some w1 ->
  keeps (inr (with_log (Called h a) (update h (add_pending (-1)) w1))) w.
Proof.
  intros Hw Hh [He ->]%enter_Some. simpl in He. rewrite fn_same in He. simpl in He.
  destruct (w_account _ Hw h) as [A1 A2 A3 A4 A5 A6]. apply (wf_touch h); [done|touch| |].
  - split; simpl; rewrite ?fn_same; simpl; rewrite ?fn_same; simpl; rewrite ?decide_True by done; try done.
    + by rewrite A1.
    + rewrite ?fn_same; simpl. lia.
    + rewrite ?fn_same; simpl. intros Hm. specialize (A3 Hm). lia.
    + intros _. apply list_elem_of_here.
    + lia.
  - congruence.
Qed.

(** Called from a queue. *)
Lemma call_begin_keeps k i w w1 : wf w -> queued w !! k = Some i ->
  enter (handler i) (with_queued (take k (queued w) ++ drop (S k) (queued w)) w) = Some w1 ->
  keeps (inr (with_log (Called (handler i) (args i)) (update (handler i) (add_pending (-1)) w1))) w.
Proof.
  intros Hw Hk [He ->]%enter_Some. simpl in He. set (h := handler i) in *.
  pose proof (waiting_take h _ _ _ Hk) as Hq. simpl in Hq. rewrite decide_True in Hq by done.
  destruct (w_account _ Hw h) as [A1 A2 A3 A4 A5 A6].
  assert (Hh : h < next_handler w).
  { destruct (decide (h < next_handler w)); [done|]. destruct (waiting_nil_fresh h w) as [E _]; [done|lia|].
    rewrite E in Hq. by apply Permutation_nil in Hq. }
  apply (wf_touch h); [done| | |].
  - split; intros; simpl; rewrite ?fn_other, ?decide_False by congruence; try done; [|rewrite elem_of_cons; intuition congruence].
    symmetry. rewrite (waiting_take h' _ _ _ Hk) at 1. simpl. by rewrite decide_False.
  - split; simpl; rewrite ?fn_same; simpl; rewrite ?decide_True by done; try done.
    + rewrite A1, Hq. simpl. solve_Permutation.
    + rewrite ?fn_same; simpl. rewrite A2, Hq. simpl. lia.
    + rewrite ?fn_same; simpl. intros Hm. specialize (A3 Hm). lia.
    + intros _. apply list_elem_of_here.
    + lia.
  - congruence.
Qed.

Lemma drop_begin_keeps k i w : wf w -> queued w !! k = Some i ->
  keeps (inr (with_log (Dropped (handler i) (args i))
                (with_queued (take k (queued w) ++ drop (S k) (queued w)) w))) w.
Proof.
  intros Hw Hk. set (h := handler i) in *.
  pose proof (waiting_take h _ _ _ Hk) as Hq. simpl in Hq. rewrite decide_True in Hq by done.
  destruct (w_account _ Hw h) as [A1 A2 A3 A4 A5 A6].
  apply (wf_touch h); [done| | |done].
  - split; intros; simpl; rewrite ?decide_False by congruence; try done.
    symmetry. rewrite (waiting_take h' _ _ _ Hk) at 1. simpl. by rewrite decide_False.
  - split; simpl; rewrite ?decide_True by done; try done.
    + rewrite A1, Hq. simpl. solve_Permutation.
    + rewrite A2, Hq. simpl. lia.
Qed.

(** The branches of the loop that do not call. *)
Lemma notify_queue_keeps h a g w : wf w -> h < next_handler w ->
  m_mode (handlers w h) <> batch_updates \/ (m_pending (handlers w h) < 1)%Z ->
  keeps (inr (with_queued (queued w ++ [Invocation h a g]) (with_log (Notified h a) (update h (add_pending 1) w)))) w.
Proof.
  intros Hw Hh Hm. destruct (w_account _ Hw h) as [A1 A2 A3 A4 A5 A6].
  apply (wf_touch h); [done|touch| |].
  - split; simpl; rewrite ?fn_same, ?waiting_app; simpl; rewrite ?decide_True by done; try done; [| | |lia].
    + rewrite A1. solve_Permutation.
    + rewrite length_app. simpl. lia.
    + intros Hb. destruct Hm; [done|lia].
  - simpl. by rewrite fn_same.
Qed.

Lemma notify_drop_keeps h a w : wf w -> h < next_handler w -> m_mode (handlers w h) = synchronous_update ->
  keeps (inr (with_log (Dropped h a) (with_log (Notified h a) (update h (add_pending 1) w)))) w.
Proof.
  intros Hw Hh Hm. destruct (w_account _ Hw h) as [A1 A2 A3 A4 A5 A6].
  apply (wf_touch h); [done|touch| |].
  - split; simpl; rewrite ?fn_same; simpl; rewrite ?decide_True by done; try done; [| | |lia].
    + rewrite A1. solve_Permutation.
    + simpl. lia.
    + congruence.
  - simpl. by rewrite fn_same.
Qed.

Lemma notify_coalesce_keeps h a w : wf w -> h < next_handler w ->
  keeps (inr (with_log (Coalesced h a) (update h (add_pending (-1))
           (with_log (Notified h a) (update h (add_pending 1) w))))) w.
Proof.
  intros Hw Hh. destruct (w_account _ Hw h) as [A1 A2 A3 A4 A5 A6].
  apply (wf_touch h); [done|touch| |].
  - split; simpl; rewrite ?fn_same; simpl; rewrite ?fn_same; simpl; rewrite ?decide_True by done; try done; [| | |lia].
    + rewrite A1. solve_Permutation.
    + lia.
    + intros Hb. specialize (A3 Hb). lia.
  - simpl. rewrite ?fn_same; simpl. by rewrite ?fn_same.
Qed.

(** ** Emitting *)
Section emit.
Context (chain : nat -> nat -> world -> res world).
Hypothesis chain_keeps : forall s a w, wf w -> keeps (chain s a w) w.

Lemma call_keeps h a w : wf (with_log (Called h a) w) -> keeps (call chain h a w) (with_log (Called h a) w).
Proof.
  intros Hw. unfold call. destruct (m_func _); [by split|]. by apply chain_keeps.
Qed.

Lemma call_from h a w w0 : keeps (inr (with_log (Called h a) w)) w0 -> keeps (call chain h a w) w0.
Proof.
  intros [Hw Hf]. pose proof (call_keeps h a w Hw) as Hc. destruct (call chain h a w); [done|].
  destruct Hc. split; [done|]. by transitivity (with_log (Called h a) w).
Qed.

Lemma notify_keeps s a h w : wf w -> h < next_handler w -> keeps (notify chain s a h w) w.
Proof.
  intros Hw Hh. unfold notify. simpl. rewrite fn_same. simpl.
  assert (Hq : forall m : notification_mode, m_mode (handlers w h) = m -> m <> synchronous_update ->
    keeps (if bool_decide (m = single_updates) || (m_pending (handlers w h) <? 1)%Z
      then inr (with_queued (queued w ++ [Invocation h a (m_group (signals w s))])
                  (with_log (Notified h a) (update h (add_pending 1) w)))
      else inr (with_log (Coalesced h a) (update h (add_pending (-1))
                  (with_log (Notified h a) (update h (add_pending 1) w))))) w).
  { intros m Hm Hs. destruct (bool_decide (m = single_updates)) eqn:E1; simpl.
    - apply notify_queue_keeps; [done..|]. left. apply bool_decide_eq_true in E1. congruence.
    - destruct (Z.ltb_spec (m_pending (handlers w h)) 1) as [Hp|].
      + apply notify_queue_keeps; [done..|]. by right.
      + by apply notify_coalesce_keeps. }
  destruct (m_mode (handlers w h)) eqn:Hm; [by apply (Hq batch_updates)|by apply (Hq single_updates)|].
  destruct (enter h _) as [w1|] eqn:He; [|by apply notify_drop_keeps].
  apply keeps_bind; [by eapply call_from, call_sync_keeps|]. intros w2 Hw2 _. by apply leave_keeps.
Qed.

Lemma notify_all_keeps s a hs : forall w, wf w -> Forall (fun h => h < next_handler w) hs ->
  keeps (notify_all chain s a hs w) w.
Proof.
  induction hs as [|h hs IH]; intros w Hw Hf; [by split|]. inversion Hf as [|? ? Hh Hf']; subst.
  simpl. apply keeps_bind; [by apply notify_keeps|]. intros w' Hw' Hfr. apply IH; [done|].
  by rewrite (f_next _ _ Hfr).
Qed.
End emit.

Lemma emit_keeps fuel : forall locked s a w, wf w -> keeps (emit fuel locked s a w) w.
Proof.
  induction fuel as [|fuel IH]; intros locked s a w Hw; [done|]. simpl.
  case_decide; [done|]. destruct (negb _); [done|].
  apply notify_all_keeps; [intros; by apply IH|done|].
  apply list.Forall_forall. intros h Hin. by eapply w_handlers.
Qed.

Lemma begin_keeps k w : wf w -> keeps (begin_invocation k w) w.
Proof.
  intros Hw. unfold begin_invocation. destruct (queued w !! k) as [i|] eqn:Hk; [|by split].
  destruct (enter _ _) as [w1|] eqn:He.
  - apply call_from; [intros; by apply emit_keeps|]. by eapply call_begin_keeps.
  - by eapply drop_begin_keeps.
Qed.

(** ** The other operations *)

(** A handler that is disabled is so for good, and is not called again. *)
Record older (w w' : world) : Prop := {
  o_next : next_handler w <= next_handler w';
  o_disabled h : h < next_handler w -> m_active (handlers w h) = active_disabled ->
    m_active (handlers w' h) = active_disabled /\ called h (log w') = called h (log w)
}.

#[export] Instance older_pre : PreOrder older.
Proof.
  split; [by split|]. intros x y z [] []. split; [lia|].
  intros h Hh Hd. destruct (o_disabled0 h Hh Hd). destruct (o_disabled1 h); [lia|done|].
  split; [done|congruence].
Qed.

Lemma frame_older w w' : frame w w' -> older w w'.
Proof. intros [F1 F2 F3 F4]. split; [lia|auto]. Qed.

Lemma disable_keeps h w : wf w -> wf (disable h w) /\ older w (disable h w).
Proof.
  intros Hw. destruct (wf_touch h w (disable h w)) as [H1 H2]; [done|touch| | |by split; [|apply frame_older]].
  - destruct (w_account _ Hw h) as [A1 A2 A3 A4 A5 A6]. split; simpl; rewrite ?fn_same; done.
  - simpl. by rewrite fn_same.
Qed.

Lemma disable_all_keeps hs w : wf w -> wf (foldr disable w hs) /\ older w (foldr disable w hs).
Proof.
  induction hs as [|h hs IH]; intros Hw; [done|]. destruct (IH Hw) as [H1 H2]. simpl.
  destruct (disable_keeps h _ H1). split; [done|by transitivity (foldr disable w hs)].
Qed.

Lemma disable_all_frame hs w : signals (foldr disable w hs) = signals w /\
  next_handler (foldr disable w hs) = next_handler w /\ log (foldr disable w hs) = log w.
Proof. by induction hs as [|h hs (? & ? & ?)]. Qed.

Lemma update_signal_keeps s f w : wf w ->
  (forall h, h ∈ m_handlers (f (signals w s)) -> h < next_handler w) ->
  (alive (f (signals w s)) = true -> s < next_signal w) ->
  wf (update_signal s f w) /\ older w (update_signal s f w).
Proof.
  intros [W1 W2 W3] H1 H2. split; [|by split]. split; simpl.
  - intros h. by destruct (W1 h); split.
  - intros u h. fn_cases; [apply H1|apply W2].
  - intros u. fn_cases; [apply H2|apply W3].
Qed.

Lemma connect_keeps s q f m w : wf w -> alive (signals w s) = true ->
  wf (fst (connect s q f m w)) /\ older w (fst (connect s q f m w)).
Proof.
  intros [W1 W2 W3] Ha. unfold connect, connect_job; simpl. split; split; simpl.
  - intros h. destruct (decide (h = next_handler w)) as [->|Hne].
    + destruct (waiting_nil_fresh (next_handler w) w) as [E1 E2]; [done|done|].
      destruct (W1 (next_handler w)) as [A1 A2 A3 A4 A5 A6]. destruct (A6 ltac:(done)).
      split; simpl; rewrite ?fn_same; simpl; rewrite ?E1, ?E2; simpl; try done; lia || (intros; lia) || idtac.
      rewrite E1, E2 in A1. done.
    + destruct (W1 h) as [A1 A2 A3 A4 A5 A6]. split; simpl; rewrite ?fn_other by done; try done.
      intros Hl. apply A6. lia.
  - intros u h. fn_cases; simpl; [|intros Hh%W2; lia].
    rewrite elem_of_app, list_elem_of_singleton. intros [Hh%W2| ->]; lia.
  - intros u. fn_cases; simpl; apply W3.
  - lia.
  - intros h Hh. by rewrite fn_other by lia.
Qed.

Lemma make_signal_keeps g w : wf w -> wf (make_signal g w) /\ older w (make_signal g w).
Proof.
  intros [W1 W2 W3]. split; split; simpl; try done.
  - intros h. by destruct (W1 h); split.
  - intros s h. fn_cases; simpl; [by intros ?%not_elem_of_nil|apply W2].
  - intros s. fn_cases; simpl; [lia|]. intros ?%W3. lia.
Qed.

Lemma signal_disconnect_keeps s c w w' b : wf w -> signal_disconnect s c w = inr (w', b) ->
  wf w' /\ older w w'.
Proof.
  intros Hw. unfold signal_disconnect. destruct (lock c w) as [h|]; [|by intros [= <- _]].
  destruct (alive (signals w s)) eqn:Ha; [|done]. intros [= <- _].
  destruct (update_signal_keeps s (fun g => set_handlers (filter (fun x => x <> h) (m_handlers g)) g) w)
    as [H1 H2]; [done| | |].
  - simpl. intros k [_ Hk]%list_elem_of_filter. by eapply w_handlers.
  - simpl. intros _. by eapply w_alive.
  - destruct (disable_keeps h _ H1). split; [done|]. by etransitivity.
Qed.

Lemma act_keeps x w w' : wf w -> act x w = inr w' -> wf w' /\ older w w'.
Proof.
  intros Hw. destruct x as [g|s q f m|c|s a|k|h|s|s]; cbn [act].
  - intros [= <-]. by apply make_signal_keeps.
  - destruct (alive (signals w s)) eqn:Ha; intros [= <-]; [by apply connect_keeps|done].
  - unfold disconnect. destruct (m_parent c) as [s|]; [|by intros [= <-]].
    destruct (signal_disconnect s c w) as [|[w1 b]] eqn:E; [done|]. simpl. intros [= <-].
    by eapply signal_disconnect_keeps.
  - intros E. pose proof (emit_keeps (emit_fuel w) [] s a w Hw) as H. rewrite E in H. destruct H. split; [done|by apply frame_older].
  - intros E. pose proof (begin_keeps k w Hw) as H. rewrite E in H. destruct H. split; [done|by apply frame_older].
  - intros [= <-]. case_decide; [|done]. destruct (leave_keeps h w Hw). split; [done|by apply frame_older].
  - intros [= <-]. by apply disable_all_keeps.
  - intros [= <-]. unfold destroy, skip_all. destruct (disable_all_keeps (m_handlers (signals w s)) w Hw) as [H1 H2].
    destruct (update_signal_keeps s (fun g => Signal false (m_group g) []) _ H1) as [H3 H4];
      [by intros ? ?%not_elem_of_nil|done|]. split; [done|by etransitivity].
Qed.

Lemma acts_keeps l : forall w w', wf w -> acts l w = inr w' -> wf w' /\ older w w'.
Proof.
  induction l as [|x l IH]; intros w w' Hw; simpl; [by intros [= <-]|].
  destruct (act x w) as [|w1] eqn:E; [done|]. simpl. intros E'.
  destruct (act_keeps _ _ _ Hw E) as [H1 H2]. destruct (IH _ _ H1 E'). split; [done|by etransitivity].
Qed.

Lemma empty_wf : wf empty_world.
Proof.
  split; simpl; [|by intros ? ? ?%not_elem_of_nil|done].
  intros h. split; simpl; try done. intros _. split; [done|by intros ?%not_elem_of_nil].
Qed.

(** ** A chain of signals *)
Definition fuelled (r : res world) : Prop := r <> inl OutOfFuel.

Lemma notify_all_fuelled (chain : nat -> nat -> world -> res world) n s a hs :
  (forall s a w, wf w -> keeps (chain s a w) w) ->
  (forall s a w, wf w -> next_signal w = n -> fuelled (chain s a w)) ->
  forall w, wf w -> next_signal w = n -> Forall (fun h => h < next_handler w) hs ->
  fuelled (notify_all chain s a hs w).
Proof.
  intros Hk Hc. induction hs as [|h hs IH]; intros w Hw Hn Hf; [done|].
  inversion Hf as [|? ? Hh Hf']; subst. simpl.
  pose proof (notify_keeps chain Hk s a h w Hw Hh) as Hkeep.
  assert (Hfu : fuelled (notify chain s a h w)).
  { unfold notify. simpl. destruct (m_mode _); [by case_match|done|].
    destruct (enter h _) as [w1|] eqn:He; [|done].
    pose proof (call_sync_keeps h a w w1 Hw Hh He) as [H1 H2].
    assert (Hcall : fuelled (call chain h a (update h (add_pending (-1)) w1))).
    { unfold call. destruct (m_func _) as [|s']; [done|]. apply Hc; [done|by rewrite (f_next_signal _ _ H2)]. }
    by destruct (call _ _ _ _) as [e|]. }
  destruct (notify chain s a h w) as [e|w1]; [done|]. simpl. destruct Hkeep as [H1 H2].
  apply IH; [done|by rewrite (f_next_signal _ _ H2)|by rewrite (f_next _ _ H2)].
Qed.

Lemma NoDup_bounded (l : list nat) n : NoDup l -> Forall (fun x => x < n) l -> length l <= n.
Proof.
  intros Hd Hf. rewrite <- (length_seq n 0). apply submseteq_length, NoDup_submseteq; [done|].
  intros x Hx. apply elem_of_seq. rewrite list.Forall_forall in Hf. specialize (Hf x Hx). lia.
Qed.

Lemma emit_fuelled fuel : forall locked s a w, wf w -> NoDup locked ->
  Forall (fun x => x < next_signal w) locked -> next_signal w < fuel + length locked ->
  fuelled (emit fuel locked s a w).
Proof.
  induction fuel as [|fuel IH]; intros locked s a w Hw Hd Hf Hlt.
  { pose proof (NoDup_bounded _ _ Hd Hf). simpl in Hlt. lia. }
  simpl. case_decide as Hin; [done|]. destruct (alive (signals w s)) eqn:Ha; [|done]. simpl.
  eapply (notify_all_fuelled _ (next_signal w)); [intros; by apply emit_keeps| |done|done|].
  - intros s' a' w' Hw' En. apply IH; [done|by constructor| |simpl; lia].
    rewrite En. constructor; [by eapply w_alive|done].
  - apply list.Forall_forall. intros h Hh. by eapply w_handlers.
Qed.

(** ** Handlers whose queues are serial *)

(** The queue executes an invocation from its beginning to its end before it
    looks at the next one. *)
Inductive serial_action :=
| SNew (group : bool)
| SConnect (s q : nat) (m : notification_mode)
| SEmit (s a : nat)
| SRun (k : nat).
Definition serial_act (x : serial_action) (w : world) : res world :=
  match x with
  | SNew group => act (New group) w
  | SConnect s q m => act (Connect s q User m) w
  | SEmit s a => act (Emit s a) w
  | SRun k =>
      match queued w !! k with
      | Some i => bind (act (Begin k) w) (act (End_ (handler i)))
      | None => inr w
      end
  end.
Fixpoint serial_acts (l : list serial_action) (w : world) : res world :=
  match l with
  | [] => inr w
  | x :: l => bind (serial_act x w) (serial_acts l)
  end.
Definition asynchronous (x : serial_action) : Prop :=
  match x with SConnect _ _ m => m <> synchronous_update | _ => True end.

Record calm (w : world) : Prop := {
  c_wf : wf w;
  c_running : running w = [];
  c_handler h : h < next_handler w -> m_active (handlers w h) = active_enabled /\
    m_mode (handlers w h) <> synchronous_update /\ m_func (handlers w h) = User;
  c_dropped h : dropped h (log w) = [];
  c_coalesced h : m_mode (handlers w h) = single_updates -> coalesced h (log w) = []
}.

Lemma notify_calm chain s a h w : (forall s a w, wf w -> keeps (chain s a w) w) ->
  calm w -> h < next_handler w ->
  exists w', notify chain s a h w = inr w' /\ calm w' /\ next_handler w' = next_handler w.
Proof.
  intros Hk [C1 C2 C3 C4 C5] Hh. pose proof (notify_keeps chain Hk s a h w C1 Hh) as Hn.
  destruct (C3 h Hh) as (E1 & E2 & E3). revert Hn. unfold notify. simpl. rewrite fn_same. simpl.
  destruct (m_mode (handlers w h)) eqn:Hm; [| |done].
  - destruct (m_pending (handlers w h) <? 1)%Z; intros [Hw Hf]; eexists; (split; [reflexivity|]); (split; [|done]); split; try done.
    + simpl. intros k Hk'. fn_cases; by apply C3.
    + simpl. intros k. fn_cases; apply C5.
    + simpl. intros k Hk'. fn_cases; by apply C3.
    + simpl. intros k. fn_cases; [simpl; by rewrite ?Hm|apply C5].
  - intros [Hw Hf]. eexists. split; [reflexivity|]. split; [|done]. split; try done; simpl.
    + intros k Hk'. fn_cases; by apply C3.
    + intros k. fn_cases; [intros _; by apply C5|apply C5].
Qed.

Lemma notify_all_calm chain s a hs : (forall s a w, wf w -> keeps (chain s a w) w) ->
  forall w w', calm w -> Forall (fun h => h < next_handler w) hs ->
  notify_all chain s a hs w = inr w' -> calm w'.
Proof.
  intros Hk. induction hs as [|h hs IH]; intros w w' Hc Hf; simpl; [by intros [= <-]|].
  inversion Hf as [|? ? Hh Hf']; subst.
  destruct (notify_calm chain s a h w Hk Hc Hh) as (w1 & -> & H1 & En). simpl.
  apply IH; [done|by rewrite En].
Qed.

Lemma run_calm k i w w' : calm w -> queued w !! k = Some i ->
  bind (begin_invocation k w) (act (End_ (handler i))) = inr w' -> calm w'.
Proof.
  intros Hc Hk. destruct Hc as [C1 C2 C3 C4 C5]. pose proof (begin_keeps k w C1) as Hb.
  assert (Hh : handler i < next_handler w).
  { apply Nat.nle_gt. intros Hn. destruct (waiting_nil_fresh (handler i) w (w_account _ C1 _) Hn) as [E _].
    pose proof (waiting_take (handler i) _ _ _ Hk) as Hq. rewrite E in Hq. simpl in Hq.
    rewrite decide_True in Hq by done. by apply Permutation_nil in Hq. }
  destruct (C3 _ Hh) as (E1 & E2 & E3).
  assert (Eb : begin_invocation k w = inr (with_log (Called (handler i) (args i))
     (update (handler i) (add_pending (-1)) (with_running [handler i] (update (handler i) (set_active active_running)
        (with_queued (take k (queued w) ++ drop (S k) (queued w)) w)))))).
  { unfold begin_invocation. rewrite Hk. unfold enter. simpl. rewrite E1, C2. unfold call. simpl.
    rewrite !fn_same. simpl. rewrite ?fn_same. simpl. by rewrite E3. }
  rewrite Eb in Hb |- *. cbn [bind act keeps] in Hb |- *. destruct Hb as [Hw Hf].
  rewrite decide_True by (simpl; apply list_elem_of_here). intros [= <-].
  pose proof (leave_keeps (handler i) _ Hw) as [Hw' Hf'].
  revert Hw'. unfold leave. simpl. rewrite ?fn_same. simpl. rewrite ?fn_same. simpl. intros Hw'.
  split; simpl; [done| | |done|].
  - rewrite filter_cons_False; [done|auto].
  - intros h. fn_cases; simpl; [|apply C3]. by rewrite ?fn_same; simpl; rewrite ?fn_same; simpl.
  - intros h. fn_cases; simpl; [|apply C5]. rewrite ?fn_same; simpl; rewrite ?fn_same; simpl. apply C5.
Qed.

Lemma emit_S fuel locked s a w : emit (S fuel) locked s a w =
  if decide (s ∈ locked) then inl Deadlock
  else if negb (alive (signals w s)) then inl Dangling
  else notify_all (emit fuel (s :: locked)) s a (m_handlers (signals w s)) w.
Proof. done. Qed.

Lemma serial_act_calm x w w' : asynchronous x -> calm w -> serial_act x w = inr w' -> calm w'.
Proof.
  intros Hx Hc. pose proof (c_wf _ Hc) as Hw. destruct x as [g|s q m|s a|k]; cbn [serial_act].
  - intros E. destruct (act_keeps _ _ _ Hw E) as [Hw' _]. injection E as <-. by destruct Hc; split.
  - intros E. destruct (act_keeps _ _ _ Hw E) as [Hw' _]. revert E Hw'. cbn [act].
    destruct (alive (signals w s)); intros [= <-]; [|done]. intros Hw'. destruct Hc as [C1 C2 C3 C4 C5].
    split; simpl; try done.
    + intros h Hh. fn_cases; [by simpl|]. apply C3. lia.
    + intros h. fn_cases; [|apply C5]. intros _.
      destruct (w_account _ Hw (next_handler w)) as [A1 _ _ _ _ A6]. destruct (A6 ltac:(done)) as [E _].
      rewrite E in A1. by apply Permutation_nil, app_nil in A1 as [_ [_ [_ A1]%app_nil]%app_nil].
  - cbn [act]. unfold emit_fuel. rewrite emit_S, decide_False by apply not_elem_of_nil.
    destruct (negb _); [done|]. apply notify_all_calm; [intros; by apply emit_keeps|done|].
    apply list.Forall_forall. intros h Hh. by eapply w_handlers.
  - destruct (queued w !! k) as [i|] eqn:Hk; [|by intros [= <-]]. by apply run_calm.
Qed.

(** * The claims *)



(** Skip_all() silences the connected handlers for good: none of them is called
    by any later emit, while its documentation promises that calls are queued
    again when the signal is emitted the next time. *)
Theorem skip_all_is_final l s h w l' w' :
  acts l empty_world = inr w -> h ∈ m_handlers (signals w s) ->
  acts l' (skip_all s w) = inr w' -> called h (log w') = called h (log w).
Proof.
  intros Hl Hh Hl'. destruct (acts_keeps _ _ _ empty_wf Hl) as [Hw _].
  destruct (disable_all_keeps (m_handlers (signals w s)) w Hw) as [Hw1 _].
  destruct (acts_keeps _ _ _ Hw1 Hl') as [_ Ho].
  destruct (disable_all_frame (m_handlers (signals w s)) w) as (_ & En & El).
  assert (Hd : m_active (handlers (skip_all s w) h) = active_disabled).
  { unfold skip_all. clear -Hh. induction (m_handlers (signals w s)) as [|k ks IH]; [by apply not_elem_of_nil in Hh|].
    simpl. apply elem_of_cons in Hh as [->|Hh]; [by rewrite fn_same|]. fn_cases; [done|auto]. }
  assert (Hc : called h (log (skip_all s w)) = called h (log w)).
  { unfold skip_all. by rewrite El. }
  rewrite <- Hc. apply Ho; [|done]. unfold skip_all. rewrite En. by eapply w_handlers.
Qed.

(** When every handler is connected to a queue that executes one invocation
    at a time and nothing is disconnected, nothing gets lost: each emit reaches
    each handler by exactly one call, made or still queued, but for those a
    batching handler coalesces. *)
Theorem serial_updates_all_called l w h :
  Forall asynchronous l -> serial_acts l empty_world = inr w ->
  notified h (log w) ≡ₚ called h (log w) ++ waiting h (queued w) ++ coalesced h (log w) /\
  (m_mode (handlers w h) = single_updates ->
   notified h (log w) ≡ₚ called h (log w) ++ waiting h (queued w)).
Proof.
  intros Hl Hr. assert (Hc : calm w).
  { assert (H0 : calm empty_world) by (split; [apply empty_wf|done|simpl; lia|done..]).
    revert H0 Hr. generalize empty_world. induction Hl as [|x l Hx Hl IH]; intros w0 H0; simpl; [by intros [= <-]|].
    destruct (serial_act x w0) as [|w1] eqn:E; [done|]. simpl. apply IH. by eapply serial_act_calm. }
  destruct Hc as [C1 _ _ C4 C5]. destruct (w_account _ C1 h) as [A1 _ _ _ _ _].
  rewrite (C4 h) in A1. simpl in A1. split; [done|]. intros Hm. by rewrite (C5 h Hm), app_nil_r in A1.
Qed.

(** C29: An emit ends: however signals are chained, it has called and queued all
    there is, or ran into a mutex its own thread holds (a cycle of chained
    signals) or into a signal that has been destroyed. *)
Theorem emit_terminates l w s a :
  acts l empty_world = inr w ->
  (exists w', emit (emit_fuel w) [] s a w = inr w') \/
  emit (emit_fuel w) [] s a w = inl Deadlock \/ emit (emit_fuel w) [] s a w = inl Dangling.
Proof.
  intros Hl. destruct (acts_keeps _ _ _ empty_wf Hl) as [Hw _].
  assert (H : fuelled (emit (emit_fuel w) [] s a w)).
  { apply emit_fuelled; [done|constructor|constructor|]. unfold emit_fuel. simpl. lia. }
  unfold fuelled in H. destruct (emit (emit_fuel w) [] s a w) as [[]|w']; [by right; left|by right; right|done|].
  left. by exists w'.
Qed.

(** ** Witnesses and traces *)

(** Two handlers of signal 0: one that gets every update, one that batches. *)
Definition example : list action :=
  [New false; Connect 0 0 User single_updates; Connect 0 0 User batch_updates;
   Emit 0 1; Emit 0 2; Begin 0; End_ 0].
Definition succeeds {A} (r : res A) : bool := match r with inr _ => true | inl _ => false end.
Definition after (r : res world) : world := match r with inr w => w | inl _ => empty_world end.
Definition run (l : list action) : world := after (acts l empty_world).

Lemma after_ok r : succeeds r = true -> r = inr (after r).
Proof. by destruct r. Qed.



Definition skipped : world := after (acts [Emit 0 4; Begin 0; Begin 0] (skip_all 0 (run example))).

Lemma skip_all_is_final_witness : called 1 (log skipped) = called 1 (log (run example)).
Proof.
  apply (skip_all_is_final example 0 1 (run example) [Emit 0 4; Begin 0; Begin 0] skipped).
  - apply after_ok. vm_compute. reflexivity.
  - vm_compute. by right; left.
  - apply after_ok. vm_compute. reflexivity.
Defined.

Definition serial_example : list serial_action :=
  [SNew false; SConnect 0 0 single_updates; SEmit 0 1; SEmit 0 2; SRun 0].
Definition serial_run (l : list serial_action) : world := after (serial_acts l empty_world).

Lemma serial_updates_all_called_witness :
  notified 0 (log (serial_run serial_example)) ≡ₚ
    called 0 (log (serial_run serial_example)) ++ waiting 0 (queued (serial_run serial_example)) ++
    coalesced 0 (log (serial_run serial_example)) /\
  (m_mode (handlers (serial_run serial_example) 0) = single_updates ->
   notified 0 (log (serial_run serial_example)) ≡ₚ
     called 0 (log (serial_run serial_example)) ++ waiting 0 (queued (serial_run serial_example))).
Proof.
  apply (serial_updates_all_called serial_example); [by repeat constructor|].
  apply after_ok. vm_compute. reflexivity.
Defined.

(** Signal 0 is chained to signal 1. *)
Definition chained : list action :=
  [New false; New false; Connect 0 0 (Chain 1) synchronous_update; Connect 1 0 User single_updates].

Lemma emit_terminates_witness : exists w, acts chained empty_world = inr w /\
  ((exists w', emit (emit_fuel w) [] 0 5 w = inr w') \/
   emit (emit_fuel w) [] 0 5 w = inl Deadlock \/ emit (emit_fuel w) [] 0 5 w = inl Dangling).
Proof.
  assert (H : succeeds (acts chained empty_world) = true) by (vm_compute; reflexivity).
  destruct (acts chained empty_world) as [e|w] eqn:E; [discriminate H|].
  exists w. split; [reflexivity|]. exact (emit_terminates chained w 0 5 E).
Defined.

(** On a queue that executes invocations in parallel a second invocation that
    begins while the first is running finds the cancelable taken and is dropped:
    a handler for single updates misses an emit although it stays connected, and
    a batching handler, whose m_pending keeps the one that was dropped, is never
    queued again. *)
Theorem parallel_queue_drops :
  (let w := run [New false; Connect 0 0 User single_updates; Emit 0 1; Emit 0 2;
                 Begin 0; Begin 0; End_ 0] in
   dropped 0 (log w) = [2] /\ called 0 (log w) = [1] /\ queued w = [] /\
   m_active (handlers w 0) = active_enabled) /\
  (let w := run [New false; Connect 0 0 User batch_updates; Emit 0 1;
                 Begin 0; Emit 0 2; Begin 0; End_ 0; Emit 0 3; Emit 0 4] in
   dropped 0 (log w) = [2] /\ coalesced 0 (log w) = [4; 3] /\ queued w = [] /\
   m_active (handlers w 0) = active_enabled).
Proof. vm_compute. by repeat split. Qed.

(** A connection that outlives its signal is a hazard: while an invocation is
    still queued the handler lives, and disconnecting locks the mutex of the
    signal that has been destroyed. *)
Theorem disconnect_after_destruction :
  acts [New false; Connect 0 0 User single_updates; Emit 0 1; Destroy 0;
        Disconnect (Connection (Some 0) (Some 0))] empty_world = inl Dangling.
Proof. vm_compute. reflexivity. Qed.
End SignalProcess.
