(* ===== verification/Connections.v ===== *)
(** * Connections: src/signals.cpp, include/xdispatch/signals.h, signals_barrier.h

    Who owns connections: connection, the connection_manager that keeps a
    vector of them, and the signal_barrier that waits for the next emit. *)
From S2P Require Import Prelude Cancelable Signals.

Module Scoped.
Import Signal.

(** A scoped_connection is a connection that its owner disconnects: it adds no
    data, so that its value is that of the connection.

    scoped_connection(const connection&), scoped_connection() *)
Definition make_scoped (c : connection) : connection := c.
Definition make_empty : connection := no_connection.

(** ~scoped_connection *)
Definition destroy_scoped (c : connection) (w : world) : res world :=
  bind (disconnect c w) (fun r => inr (fst r)).

(** operator=(const connection&) *)
Definition assign (c : connection) (other : connection) (w : world) : res (connection * world) :=
  bind (destroy_scoped c w) (fun w => inr (other, w)).

(** operator=(scoped_connection&&): the new value of this, and of [other]. *)
Definition move_assign (c other : connection) (w : world)
    : res (connection * connection * world) :=
  bind (assign c other w) (fun r => inr (fst r, no_connection, snd r)).

(** scoped_connection(scoped_connection&&) *)
Definition move_construct (other : connection) : connection * connection :=
  (other, no_connection).

(** take() *)
Definition take_connection (c : connection) : connection * connection :=
  (c, no_connection).
End Scoped.

Module Manager.
Import Signal Scoped.

(** connection_manager: its m_connections. *)
Definition connection_manager : Type := list connection.

Definition add (m : connection_manager) (cn : connection) : connection_manager := m ++ [make_scoped cn].

(** Destroying the elements of a vector, first to last. *)
Fixpoint destroy_each (l : list connection) (w : world) : res world :=
  match l with
  | [] => inr w
  | c :: l => bind (destroy_scoped c w) (destroy_each l)
  end.

Definition reset_connections (m : connection_manager) (w : world) : res (connection_manager * world) :=
  bind (destroy_each m w) (fun w => inr ([], w)).

(** std::find_if *)
Fixpoint find_if (p : connection -> bool) (l : list connection) : nat :=
  match l with
  | [] => 0
  | c :: l => if p c then 0 else S (find_if p l)
  end.

(** The loop of std::remove_if: [first] is where the next element that stays
    goes, [i] the element looked at; [n] elements are left to look at. *)
Fixpoint remove_loop (p : connection -> bool) (n first i : nat)
    (v : list connection) (w : world) : res (nat * list connection * world) :=
  match n with
  | O => inr (first, v, w)
  | S n =>
      match v !! i, v !! first with
      | Some c, Some d =>
          if p c then remove_loop p n first (S i) v w
          else bind (move_assign d c w) (fun r =>
                 let '(x, y, w) := r in
                 remove_loop p n (S first) (S i) (<[i := y]> (<[first := x]> v)) w)
      | _, _ => inl Dangling
      end
  end.

Definition remove_if (p : connection -> bool) (v : list connection) (w : world)
    : res (nat * list connection * world) :=
  let first := find_if p v in
  if first =? length v then inr (first, v, w)
  else remove_loop p (length v - S first) first (S first) v w.

(** m_connections.erase(last, end()) *)
Definition reset_connections_with (s : nat) (m : connection_manager) (w : world)
    : res (connection_manager * world) :=
  bind (remove_if (is_connected_to s) m w) (fun r =>
    let '(last, v, w) := r in
    bind (destroy_each (drop last v) w) (fun w => inr (take last v, w))).

(** ~connection_manager *)
Definition destroy_manager (m : connection_manager) (w : world) : res world :=
  bind (reset_connections m w) (fun r => inr (snd r)).

(** ** What resetting amounts to *)
Lemma destroy_no_connection w : destroy_scoped no_connection w = inr w.
Proof. done. Qed.

Lemma bind_assoc {A B C} (x : res A) (f : A -> res B) (g : B -> res C) :
  bind (bind x f) g = bind x (fun a => bind (f a) g).
Proof. by destruct x. Qed.

Lemma bind_ext {A B} (x : res A) (f g : A -> res B) : (forall a, f a = g a) -> bind x f = bind x g.
Proof. intros H. by destruct x; simpl. Qed.

Lemma destroy_each_app l1 l2 w :
  destroy_each (l1 ++ l2) w = bind (destroy_each l1 w) (destroy_each l2).
Proof.
  revert w. induction l1 as [|c l1 IH]; intros w; [done|]. simpl. rewrite bind_assoc.
  apply bind_ext. intros a. apply IH.
Qed.

Lemma destroy_each_empty n w : destroy_each (replicate n no_connection) w = inr w.
Proof. by induction n as [|n IH]. Qed.

(** What is left of the elements the loop has dealt with: those to remove that
    are still to be destroyed, and those that were moved from. *)
Inductive garbage : list connection -> list connection -> Prop :=
| garbage_nil : garbage [] []
| garbage_take c gs l : garbage gs l -> garbage (c :: gs) (c :: l)
| garbage_moved gs l : garbage gs l -> garbage (no_connection :: gs) l.

Lemma garbage_snoc c gs l : garbage gs l -> garbage (gs ++ [c]) (l ++ [c]).
Proof. induction 1; simpl; by repeat constructor. Qed.
Lemma garbage_snoc_moved gs l : garbage gs l -> garbage (gs ++ [no_connection]) l.
Proof. induction 1; simpl; by repeat constructor. Qed.

Lemma destroy_garbage gs l : garbage gs l -> forall w, destroy_each gs w = destroy_each l w.
Proof.
  induction 1 as [|c gs l _ IH|gs l _ IH]; intros w; [done| |].
  - simpl. apply bind_ext. intros a. apply IH.
  - exact (IH w).
Qed.

Lemma garbage_head g gs l : garbage (g :: gs) l -> exists l', garbage gs l' /\
  forall x w, bind (destroy_scoped g w) (destroy_each (l' ++ x)) = destroy_each (l ++ x) w.
Proof. inversion 1 as [|? ? l' Hg|? ? Hg]; subst; by eexists. Qed.

(** The loop, from a vector [kept ++ gs ++ rest] whose [first] is the end of
    [kept] and whose [i] is the end of [gs]. *)
Lemma remove_loop_spec p rest : forall kept gs l w,
  gs <> [] -> garbage gs l ->
  bind (remove_loop p (length rest) (length kept) (length kept + length gs) (kept ++ gs ++ rest) w)
    (fun r => let '(last, v, w) := r in
       bind (destroy_each (drop last v) w) (fun w => inr (take last v, w))) =
  bind (destroy_each (l ++ filter (fun c => p c = true) rest) w)
    (fun w => inr (kept ++ filter (fun c => p c = false) rest, w)).
Proof.
  induction rest as [|c rest IH]; intros kept gs l w Hne Hg.
  { simpl. rewrite drop_app_length, take_app_length, !app_nil_r. by rewrite (destroy_garbage _ _ Hg). }
  destruct gs as [|g gs]; [done|]. simpl length. cbn [remove_loop].
  assert (Ec : (kept ++ (g :: gs) ++ c :: rest) !! (length kept + S (length gs)) = Some c).
  { rewrite lookup_app_r by lia. replace (length kept + S (length gs) - length kept) with (length (g :: gs)) by (simpl; lia).
    by rewrite list_lookup_middle. }
  assert (Ef : (kept ++ (g :: gs) ++ c :: rest) !! length kept = Some g).
  { rewrite lookup_app_r by lia. by rewrite Nat.sub_diag. }
  rewrite Ec, Ef. destruct (p c) eqn:Hp.
  - rewrite (filter_cons_True (fun c => p c = true)) by done.
    rewrite (filter_cons_False (fun c => p c = false)) by congruence.
    specialize (IH kept ((g :: gs) ++ [c]) (l ++ [c]) w). rewrite <- !app_assoc in IH. simpl in IH.
    rewrite length_app in IH. simpl in IH. replace (S (length gs + 1)) with (S (S (length gs))) in IH by lia.
    rewrite Nat.add_succ_r in IH |- *. rewrite Nat.add_succ_r in IH. apply IH; [done|].
    by apply (garbage_snoc c (g :: gs)).
  - rewrite (filter_cons_False (fun c => p c = true)) by congruence.
    rewrite (filter_cons_True (fun c => p c = false)) by done.
    assert (Ev : <[length kept + S (length gs) := no_connection]>
       (<[length kept := c]> (kept ++ (g :: gs) ++ c :: rest)) = (kept ++ [c]) ++ (gs ++ [no_connection]) ++ rest).
    { rewrite insert_app_r_alt, Nat.sub_diag by lia. simpl.
      rewrite insert_app_r_alt by lia. replace (length kept + S (length gs) - length kept) with (S (length gs)) by lia.
      simpl. rewrite insert_app_r_alt, Nat.sub_diag by lia. simpl. by rewrite <- !app_assoc. }
    destruct (garbage_head _ _ _ Hg) as (l' & Hg' & Hd).
    rewrite <- Hd, bind_assoc. unfold move_assign, assign. rewrite !bind_assoc.
    apply bind_ext. intros w'. cbn [bind fst snd]. rewrite Ev.
    replace (S (length kept + S (length gs))) with (length (kept ++ [c]) + length (gs ++ [no_connection]))
      by (rewrite !length_app; simpl; lia).
    replace (S (length kept)) with (length (kept ++ [c])) by (rewrite length_app; simpl; lia).
    rewrite (IH (kept ++ [c]) (gs ++ [no_connection]) l' w').
    + by rewrite <- app_assoc.
    + by destruct gs.
    + by apply garbage_snoc_moved.
Qed.

Lemma find_if_spec p v :
  (find_if p v = length v /\ filter (fun c => p c = true) v = [] /\ filter (fun c => p c = false) v = v) \/
  (exists c rest, v = take (find_if p v) v ++ c :: rest /\ p c = true /\ find_if p v < length v /\
     filter (fun c => p c = true) (take (find_if p v) v) = [] /\
     filter (fun c => p c = false) (take (find_if p v) v) = take (find_if p v) v).
Proof.
  induction v as [|c v IH]; [by left|]. simpl. destruct (p c) eqn:Hp.
  { right. exists c, v. simpl. split_and!; try done. lia. }
  destruct IH as [(E1 & E2 & E3)|(d & rest & E1 & E2 & E3 & E4 & E5)].
  - left. rewrite E1. split; [done|]. rewrite filter_cons_False, filter_cons_True by congruence.
    by rewrite E2, E3.
  - right. exists d, rest. simpl. split_and!; [by f_equal|done|lia| |].
    + by rewrite filter_cons_False by congruence.
    + rewrite filter_cons_True by done. by rewrite E5.
Qed.

(** std::remove_if and the erase after it. *)
Lemma remove_erase_spec p m w :
  bind (remove_if p m w) (fun r =>
    let '(last, v, w) := r in
    bind (destroy_each (drop last v) w) (fun w => inr (take last v, w))) =
  bind (destroy_each (filter (fun c => p c = true) m) w)
    (fun w => inr (filter (fun c => p c = false) m, w)).
Proof.
  unfold remove_if.
  destruct (find_if_spec p m) as [(E1 & E2 & E3)|(c & rest & E1 & E2 & E3 & E4 & E5)].
  - rewrite E1, Nat.eqb_refl, E2, E3. cbn [bind]. by rewrite drop_all, take_ge.
  - destruct (Nat.eqb_spec (find_if p m) (length m)); [lia|].
    set (kept := take (find_if p m) m) in *.
    assert (El : length kept = find_if p m) by (unfold kept; rewrite length_take; lia).
    assert (Er : length m - S (find_if p m) = length rest).
    { rewrite E1 at 1. rewrite length_app, El. simpl. lia. }
    rewrite Er, <- El. replace (S (length kept)) with (length kept + length [c]) by (simpl; lia).
    rewrite E1 at 1. change (kept ++ c :: rest) with (kept ++ [c] ++ rest).
    rewrite (remove_loop_spec p rest kept [c] [c] w); [|done|by repeat constructor].
    rewrite E1, !list.filter_app, E4, E5. rewrite filter_cons_True, filter_cons_False by congruence. done.
Qed.

(** C30: reset_connections_with(s) disconnects every connection to the signal [s],
    each once and in the order they were added, and keeps the others in their
    order; std::remove_if over the move assignment of scoped_connection, which
    disconnects what it overwrites, does neither more nor less. *)
Theorem reset_with_exact s m w :
  reset_connections_with s m w =
  bind (destroy_each (filter (fun c => is_connected_to s c = true) m) w)
    (fun w => inr (filter (fun c => is_connected_to s c = false) m, w)).
Proof. exact (remove_erase_spec (is_connected_to s) m w). Qed.
End Manager.

(** The connections of QObjects: src/qt5/qt5_signals.cpp.  An object has at most one
    ObjectConnectionManager, a child of it: the mutex of get() makes it one step. *)
Module QtSignals.
Import Signal Scoped Manager.

#[local] Abbreviation objects := (nat -> option connection_manager).

(** ObjectConnectionManager::get *)
Definition get (object : nat) (createIfMissing : bool) (os : objects) : objects * option connection_manager :=
  match os object with
  | Some m => (os, Some m)
  | None => if createIfMissing then (<[object := Some []]> os, Some []) else (os, None)
  end.

Definition register_connection (object : nat) (c : connection) (os : objects) : objects :=
  let (os, m) := get object true os in
  match m with Some m => <[object := Some (add m c)]> os | None => os end.
Definition destroy_connections (object s : nat) (os : objects) (w : world) : res (objects * world) :=
  let (os, m) := get object false os in
  match m with
  | Some m => bind (reset_connections_with s m w) (fun '(m, w) => inr (<[object := Some m]> os, w))
  | None => inr (os, w)
  end.
(** connect(sender, receiver, lambda, q, m), disconnect(sender, receiver) *)
Definition qt_connect (sender receiver q : nat) (f : functor) (mode : notification_mode) (os : objects) (w : world)
    : objects * world :=
  let (w, c) := connect sender q f mode w in (register_connection receiver c os, w).
Definition qt_disconnect (sender receiver : nat) (os : objects) (w : world) : res (objects * world) :=
  destroy_connections receiver sender os w.
(** ~QObject: its children go, the manager among them. *)
Definition destroy_object (object : nat) (os : objects) (w : world) : res (objects * world) :=
  match os object with
  | Some m => bind (destroy_manager m w) (fun w => inr (<[object := None]> os, w))
  | None => inr (os, w)
  end.

(** disconnect(sender, receiver) ends the connections of the receiver to the sender,
    each once, and no others; without any there is nothing to do. *)
Lemma qt_disconnect_exact sender receiver m os w :
  os receiver = Some m ->
  qt_disconnect sender receiver os w =
  bind (destroy_each (filter (fun c => is_connected_to sender c = true) m) w)
    (fun w => inr (<[receiver := Some (filter (fun c => is_connected_to sender c = false) m)]> os, w)).
Proof.
  intros E. unfold qt_disconnect, destroy_connections, get. rewrite E.
  unfold reset_connections_with. rewrite remove_erase_spec, bind_assoc. by apply bind_ext.
Qed.

(** Two connections of an object are in the one manager it has. *)
Lemma register_both o c1 c2 os : os o = None ->
  register_connection o c2 (register_connection o c1 os) o = Some [c1; c2].
Proof.
  intros E. unfold register_connection, get. rewrite E. by rewrite !fn_same.
Qed.
End QtSignals.

(** signal_barrier: it connects a handler that stores the values, disconnects
    itself and completes the barrier.  [m_connection] and [m_values] are [None]
    until the constructor has constructed them; [completed] says whether
    m_barrier was completed (see LightweightBarrier). *)
Module SignalBarrier.
#[local] Existing Instance Cancel.active_state_eq.
Import Signal SignalProcess Scoped.

Record signal_barrier := Barrier {
  m_signal : nat;
  completed : bool;
  m_connection : option connection;
  m_values : option (option nat)
}.

(** The constructor: first the handler is connected, then m_connection is
    initialised with what connect() returned, then m_values. *)
Definition construct_connect (s q : nat) (w : world) : signal_barrier * connection * world :=
  let (w, c) := connect s q User single_updates w in (Barrier s false None None, c, w).
Definition construct_connection (c : connection) (b : signal_barrier) : signal_barrier :=
  Barrier (m_signal b) (completed b) (Some c) (m_values b).
Definition construct_values (b : signal_barrier) : signal_barrier :=
  Barrier (m_signal b) (completed b) (m_connection b) (Some None).

(** The handler, called with [a]: [None] is a use of a member that has not been
    constructed. *)
Definition handler_body (a : nat) (b : signal_barrier) (w : world) : option (res (signal_barrier * world)) :=
  match m_values b, m_connection b with
  | Some _, Some c =>
      Some (bind (disconnect c w) (fun r =>
        inr (Barrier (m_signal b) true (Some no_connection) (Some (Some a)), fst r)))
  | _, _ => None
  end.

(** wait() once it returns, for a timeout that has not expired. *)
Definition wait (b : signal_barrier) : bool := completed b.
(** values(): [None] is the exception, [Some None] a value nobody has set. *)
Definition values (b : signal_barrier) : option (option nat) :=
  if completed b then m_values b else None.

(** What happens to a signal_barrier whose handler is [h]: the actions of the
    process, where a call of [h] executes the body above. *)
Definition step (h : nat) (x : action) (r : signal_barrier * world) : option (res (signal_barrier * world)) :=
  let '(b, w) := r in
  match x with
  | Begin k =>
      match queued w !! k with
      | Some i =>
          if decide (handler i = h /\ m_active (handlers w h) = Cancel.active_enabled)
          then match act x w with
               | inr w => handler_body (args i) b w
               | inl e => Some (inl e)
               end
          else Some (bind (act x w) (fun w => inr (b, w)))
      | None => Some (inr r)
      end
  | _ => Some (bind (act x w) (fun w => inr (b, w)))
  end.

Fixpoint steps (h : nat) (l : list action) (r : signal_barrier * world) : option (res (signal_barrier * world)) :=
  match l with
  | [] => Some (inr r)
  | x :: l => match step h x r with Some (inr r) => steps h l r | other => other end
  end.

(** ** Its invariant, once it is constructed *)

(** A handler is listed by its signal or disabled. *)
Definition listed (s h : nat) (w : world) : Prop :=
  s < next_signal w /\
  (h ∈ m_handlers (signals w s) \/ m_active (handlers w h) = Cancel.active_disabled).

Record pending (s h : nat) (b : signal_barrier) (w : world) : Prop := {
  p_wf : wf w;
  p_next : h < next_handler w;
  p_listed : listed s h w;
  p_completed : completed b = false;
  p_connection : m_connection b = Some (Connection (Some h) (Some s));
  p_values : m_values b = Some None
}.
Record over (h a : nat) (b : signal_barrier) (w : world) : Prop := {
  v_wf : wf w;
  v_next : h < next_handler w;
  v_disabled : m_active (handlers w h) = Cancel.active_disabled;
  v_completed : completed b = true;
  v_values : m_values b = Some (Some a)
}.

Lemma signals_disable_all hs w : signals (foldr disable w hs) = signals w.
Proof. by induction hs. Qed.

Lemma disabled_all h hs w : h ∈ hs -> m_active (handlers (foldr disable w hs) h) = Cancel.active_disabled.
Proof.
  induction hs as [|k hs IH]; intros Hh; [by apply not_elem_of_nil in Hh|]. simpl.
  apply elem_of_cons in Hh as [->|Hh]; [by rewrite fn_same|]. fn_cases; [done|auto].
Qed.

Lemma disable_all_next hs w : next_signal (foldr disable w hs) = next_signal w.
Proof. by induction hs. Qed.

Lemma listed_frame s h w w' : wf w -> frame w w' -> listed s h w -> listed s h w'.
Proof.
  intros Hw [F1 F2 F3 F4] [Hs Hl]. split; [lia|]. rewrite F1.
  destruct Hl as [Hl|Hd]; [by left|]. right. by apply F4.
Qed.

Lemma listed_act s h x w w' : wf w -> h < next_handler w -> act x w = inr w' ->
  listed s h w -> listed s h w'.
Proof.
  intros Hw Hh Ha Hl. pose proof Hl as [Hs Hl']. destruct (act_keeps _ _ _ Hw Ha) as [_ Ho].
  assert (Hd : m_active (handlers w h) = Cancel.active_disabled ->
    m_active (handlers w' h) = Cancel.active_disabled) by (intros; by apply Ho).
  revert Ha. destruct x as [g|s' q f m|c|s' a|k|k|s'|s']; cbn [act].
  - intros [= <-]. split; simpl; [lia|]. rewrite fn_other by lia. tauto.
  - destruct (alive (signals w s')); intros [= <-]; [|done]. split; simpl; [done|].
    destruct Hl' as [Hl'|?]; [|by right; apply Hd]. left. simpl.
    destruct (decide (s' = s)) as [->|]; [|by rewrite fn_other]. rewrite fn_same. simpl. apply elem_of_app. by left.
  - unfold disconnect. destruct (m_parent c) as [p|]; [|by intros [= <-]]. unfold signal_disconnect.
    destruct (lock c w) as [h'|]; [|by intros [= <-]]. destruct (alive (signals w p)); [|done].
    cbn [bind]. intros [= <-]. split; [done|]. destruct Hl' as [Hl'|?]; [|right; by apply Hd].
    simpl. destruct (decide (h = h')) as [->|Hne]; [right; by rewrite fn_same|left].
    destruct (decide (p = s)) as [->|]; [|by rewrite fn_other]. rewrite fn_same. simpl.
    apply list_elem_of_filter. by split.
  - intros E. pose proof (emit_keeps (emit_fuel w) [] s' a w Hw) as H. rewrite E in H. destruct H. by apply (listed_frame s h w).
  - intros E. pose proof (begin_keeps k w Hw) as H. rewrite E in H. destruct H. by apply (listed_frame s h w).
  - intros [= <-]. case_decide; [|done]. destruct (leave_keeps k w Hw). by apply (listed_frame s h w).
  - intros [= <-]. unfold skip_all in *. split; [by rewrite disable_all_next|]. rewrite signals_disable_all. tauto.
  - intros [= <-]. split; [simpl; unfold skip_all; by rewrite disable_all_next|].
    destruct Hl' as [Hl'|?]; [|right; by apply Hd]. simpl. destruct (decide (s' = s)) as [->|Hne].
    + right. by apply disabled_all.
    + left. rewrite fn_other by done. unfold skip_all. by rewrite signals_disable_all.
Qed.

Lemma over_step h a x b w r : over h a b w -> step h x (b, w) = Some (inr r) ->
  over h a r.1 r.2 /\ r.1 = b /\ called h (log r.2) = called h (log w).
Proof.
  intros [V1 V2 V3 V4 V5] Hs.
  assert (H : forall w', act x w = inr w' -> over h a b w' /\ called h (log w') = called h (log w)).
  { intros w' E. destruct (act_keeps _ _ _ V1 E) as [Hw' Ho]. destruct (o_disabled _ _ Ho h V2 V3).
    pose proof (o_next _ _ Ho). split; [|done]. split; [done|lia|done..]. }
  destruct x; cbn [step] in Hs;
    try (destruct (act _ w) as [|w'] eqn:E; cbn [bind] in Hs; simplify_eq; by destruct (H w' eq_refl)).
  destruct (queued w !! k) as [i|] eqn:Hk; [|simplify_eq; done].
  rewrite decide_False in Hs by (intros [_ ?]; congruence).
  destruct (act (Begin k) w) as [|w'] eqn:E; cbn [bind] in Hs; simplify_eq. by destruct (H w' eq_refl).
Qed.

Lemma pending_step s h x b w : pending s h b w ->
  step h x (b, w) <> None /\
  forall r, step h x (b, w) = Some (inr r) ->
    (r.1 = b /\ pending s h b r.2) \/
    (exists k i, x = Begin k /\ queued w !! k = Some i /\ handler i = h /\ over h (args i) r.1 r.2).
Proof.
  intros [P1 P2 P3 P4 P5 P6].
  assert (H : forall w', act x w = inr w' -> pending s h b w').
  { intros w' E. destruct (act_keeps _ _ _ P1 E) as [Hw' Ho]. pose proof (o_next _ _ Ho).
    split; [done|lia| |done..]. by apply (listed_act s h x w). }
  assert (Hplain : Some (bind (act x w) (fun w => inr (b, w))) <> None /\
    forall r, Some (bind (act x w) (fun w => inr (b, w))) = Some (inr r) -> r.1 = b /\ pending s h b r.2).
  { split; [done|]. intros r E. destruct (act x w) as [|w'] eqn:Ea; cbn [bind] in E; simplify_eq.
    split; [done|by apply H]. }
  destruct Hplain as [N1 N2]. destruct x; cbn [step]; try (split; [done|]; intros; left; by apply N2).
  destruct (queued w !! k) as [i|] eqn:Hk; [|split; [done|]; intros r [= <-]; by left].
  case_decide as Hd; [|split; [done|]; intros; left; by apply N2]. destruct Hd as [Hi He].
  destruct (act (Begin k) w) as [|w'] eqn:Ea; [done|]. unfold handler_body. rewrite P5, P6.
  split; [done|]. intros r E. right. exists k, i. split_and!; [done..|].
  assert (Hin : h ∈ m_handlers (signals w' s)).
  { destruct P3 as [_ [Hin|?]]; [|congruence]. pose proof (begin_keeps k w P1) as Hf. cbn [act] in Ea.
    rewrite Ea in Hf. destruct Hf as [_ [F1 _ _ _]]. by rewrite F1. }
  destruct (H w' eq_refl) as [Q1 Q2 _ _ _ _].
  revert E. unfold disconnect. cbn [m_parent]. unfold signal_disconnect, lock. cbn [m_id m_parent].
  unfold owned. rewrite bool_decide_eq_true_2 by done. cbn [orb].
  destruct (alive (signals w' s)) eqn:Hal; [|done]. cbn [bind fst snd]. intros [= <-].
  assert (Hsd : signal_disconnect s (Connection (Some h) (Some s)) w' =
    inr (disable h (update_signal s (fun g => set_handlers (filter (fun x => x <> h) (m_handlers g)) g) w'), true)).
  { unfold signal_disconnect, lock, owned; simpl. rewrite bool_decide_eq_true_2 by done. simpl. by rewrite Hal. }
  destruct (signal_disconnect_keeps _ _ _ _ _ Q1 Hsd) as [W O]. pose proof (o_next _ _ O).
  split; [done|done|simpl; by rewrite fn_same|done|done].
Qed.

Lemma over_steps h a l : forall b w r, over h a b w -> steps h l (b, w) = Some (inr r) ->
  over h a r.1 r.2 /\ called h (log r.2) = called h (log w).
Proof.
  induction l as [|x l IH]; intros b w r Ho; cbn [steps]; [by intros [= <-]|].
  destruct (step h x (b, w)) as [[|[b' w']]|] eqn:E; [done| |done]. intros Hl.
  destruct (over_step _ _ _ _ _ _ Ho E) as (H1 & H2 & H3). simpl in H1, H2, H3. subst b'.
  destruct (IH _ _ _ H1 Hl) as [H4 H5]. split; [done|congruence].
Qed.

Lemma pending_steps s h l : forall b w, pending s h b w ->
  steps h l (b, w) <> None /\
  forall r, steps h l (b, w) = Some (inr r) ->
    pending s h r.1 r.2 \/ exists a, over h a r.1 r.2.
Proof.
  induction l as [|x l IH]; intros b w Hp; cbn [steps].
  { split; [done|]. intros r [= <-]. by left. }
  destruct (pending_step s h x b w Hp) as [Hn Hs].
  destruct (step h x (b, w)) as [[e|[b' w']]|] eqn:E; [done| |done].
  destruct (Hs (b', w') eq_refl) as [[Eb Hp']|(k & i & -> & Hk & Hi & Ho)]; simpl in *.
  - subst b'. by apply IH.
  - assert (Hne : forall b0 w0 a, over h a b0 w0 -> steps h l (b0, w0) <> None).
    { clear. induction l as [|x l IH]; intros b0 w0 a Ho; [done|]. cbn [steps].
      destruct (step h x (b0, w0)) as [[|[b1 w1]]|] eqn:E; [done| |].
      - destruct (over_step _ _ _ _ _ _ Ho E) as (H1 & H2 & _). simpl in *. by eapply IH.
      - destruct x; cbn [step] in E; try done. destruct (queued w0 !! k) as [i|]; [|done].
        rewrite decide_False in E by (intros [_ ?]; pose proof (v_disabled _ _ _ _ Ho); congruence). done. }
    split; [by eapply Hne|]. intros r Hl. right. exists (args i). by eapply over_steps.
Qed.

(** A barrier constructed on a signal that exists. *)
Definition construct (s q : nat) (w : world) : signal_barrier * world :=
  let '(b, c, w) := construct_connect s q w in (construct_values (construct_connection c b), w).

Lemma construct_pending l w s q : acts l empty_world = inr w -> alive (signals w s) = true ->
  pending s (next_handler w) (construct s q w).1 (construct s q w).2.
Proof.
  intros Hl Ha. destruct (acts_keeps _ _ _ empty_wf Hl) as [Hw _].
  destruct (connect_keeps s q User single_updates w Hw Ha) as [Hc _].
  split; [exact Hc|simpl; lia| |done..]. split; [by apply (w_alive _ Hw)|]. left. simpl. rewrite fn_same. simpl.
  apply elem_of_app. right. by apply list_elem_of_singleton.
Qed.

(** A signal_barrier on a signal, once constructed, never uses a member that is
    not there, whatever is emitted, executed, disconnected and destroyed around it;
    wait() is over exactly when values() no longer throws; from the first call on
    the values are those of that call, whatever is emitted afterwards. *)
Theorem signal_barrier_first_values l w s q l1 :
  acts l empty_world = inr w -> alive (signals w s) = true ->
  steps (next_handler w) l1 (construct s q w) <> None /\
  forall b1 w1, steps (next_handler w) l1 (construct s q w) = Some (inr (b1, w1)) ->
    (wait b1 = false /\ values b1 = None) \/
    (exists a, wait b1 = true /\ values b1 = Some (Some a) /\
       forall l2 b2 w2, steps (next_handler w) l2 (b1, w1) = Some (inr (b2, w2)) ->
         wait b2 = true /\ values b2 = Some (Some a)).
Proof.
  intros Hl Ha. pose proof (construct_pending l w s q Hl Ha) as Hp.
  destruct (construct s q w) as [b0 w0]. simpl in Hp.
  destruct (pending_steps s (next_handler w) l1 b0 w0 Hp) as [Hn Hs]. split; [done|].
  intros b1 w1 E. destruct (Hs _ E) as [[_ _ _ Hc _ _]|(a & Ho)]; simpl in *.
  - left. unfold wait, values. by rewrite Hc.
  - right. exists a. pose proof Ho as [_ _ _ Hc Hv]. unfold wait, values. rewrite Hc, Hv.
    split_and!; [done..|]. intros l2 b2 w2 E2.
    destruct (over_steps _ _ _ _ _ _ Ho E2) as [[_ _ _ Hc2 Hv2] _]. simpl in *. by rewrite Hc2, Hv2.
Qed.

(** One signal, and a barrier on it. *)
Lemma signal_barrier_first_values_witness : exists w b1 w1,
  steps 0 [Emit 0 7; Begin 0; End_ 0; Emit 0 8] (construct 0 0 w) = Some (inr (b1, w1)) /\
  ((wait b1 = false /\ values b1 = None) \/
   (exists a, wait b1 = true /\ values b1 = Some (Some a) /\
      forall l2 b2 w2, steps 0 l2 (b1, w1) = Some (inr (b2, w2)) ->
        wait b2 = true /\ values b2 = Some (Some a))).
Proof.
  assert (H : match acts [New false] empty_world with
    | inr w => match steps 0 [Emit 0 7; Begin 0; End_ 0; Emit 0 8] (construct 0 0 w) with
               | Some (inr _) => next_handler w =? 0 | _ => false end && alive (signals w 0)
    | inl _ => false
    end = true) by (vm_compute; reflexivity).
  destruct (acts [New false] empty_world) as [|w] eqn:E1; [discriminate H|].
  apply andb_true_iff in H as [H Ha].
  destruct (steps 0 _ (construct 0 0 w)) as [[|[b1 w1]]|] eqn:E2; [discriminate H| |discriminate H].
  apply Nat.eqb_eq in H. exists w, b1, w1. split; [exact E2|].
  destruct (signal_barrier_first_values [New false] w 0 0 [Emit 0 7; Begin 0; End_ 0; Emit 0 8] E1 Ha) as [_ Hv].
  rewrite H in Hv. exact (Hv b1 w1 E2).
Defined.

(** The constructor connects the handler before m_connection and m_values
    exist: when the signal is emitted and its handler runs in between, the handler
    uses members that have not been constructed. *)
Theorem signal_barrier_constructor_race :
  let w := after (acts [New false] empty_world) in
  let '(b, c, w1) := construct_connect 0 0 w in
  steps 0 [Emit 0 7; Begin 0] (b, w1) = None /\
  steps 0 [Emit 0 7; Begin 0] (construct_connection c b, w1) = None.
Proof. vm_compute. by split. Qed.
End SignalBarrier.
