(* ===== verification/WaitableQueue.v ===== *)
(** * WaitableQueue: src/waitable_queue.cpp, include/xdispatch/waitable_queue.h

    A queue that can be waited for: its operations are kept in a list of their
    own, and whoever waits executes them itself when nobody else does. *)
From S2P Require Import Prelude Conc.

Module Waitable.

(** An operation: its identity, and what it queues while it runs. *)
Inductive op := Op (op_id : nat) (spawns : list op).
Definition op_id (j : op) : nat := match j with Op i _ => i end.
Definition spawns (j : op) : list op := match j with Op _ l => l end.

Inductive event := Queued (i : nat) | Started (i : nat) | Finished (i : nat) | Counted.

(** waitable_queue_operation; [m_cond] is the wait set of its condition
    variable.  [inner] counts how often m_inner_queue still has to execute it.
    [runner] is who executes an operation and [owes t] whether thread [t] has
    taken an execution from the inner queue and not begun it, or has queued an
    operation and not told the inner queue: the code never reads these two. *)
Record waitable_queue_operation := Worker {
  m_operations : list op;
  m_completed : nat;
  m_active : bool;
  m_cond : list nat;
  inner : nat;
  runner : option nat;
  owes : nat -> bool;
  log : list event
}.
Definition make_worker : waitable_queue_operation := Worker [] 0 false [] 0 None (fun _ => false) [].

Definition sleep (t : nat) (q : waitable_queue_operation) : waitable_queue_operation :=
  Worker (m_operations q) (m_completed q) (m_active q) (t :: m_cond q) (inner q) (runner q) (owes q) (log q).
Definition wake (t : nat) (q : waitable_queue_operation) : waitable_queue_operation :=
  Worker (m_operations q) (m_completed q) (m_active q) (filter (fun u => u <> t) (m_cond q))
         (inner q) (runner q) (owes q) (log q).
Definition fetch (t : nat) (b : bool) (n : nat) (q : waitable_queue_operation) : waitable_queue_operation :=
  Worker (m_operations q) (m_completed q) (m_active q) (m_cond q) n (runner q) (<[t := b]> (owes q)) (log q).
Definition uncount (q : waitable_queue_operation) : waitable_queue_operation :=
  Worker (m_operations q) (m_completed q - 1) (m_active q) (m_cond q) (inner q) (runner q) (owes q) (Counted :: log q).

(** add_one *)
Definition add_one (t : nat) (j : op) : prog waitable_queue_operation unit :=
  modify (fun q => Worker (m_operations q ++ [j]) (m_completed q) (m_active q) (m_cond q)
                     (inner q) (runner q) (<[t := true]> (owes q)) (Queued (op_id j) :: log q)).
(** m_inner_queue.async(m_worker) *)
Definition inner_async (t : nat) : prog waitable_queue_operation unit :=
  modify (fun q => fetch t false (S (inner q)) q).
(** waitable_queue::impl::async *)
Definition async (t : nat) (j : op) : prog waitable_queue_operation unit :=
  do! add_one t j in inner_async t.

(** Asleep on the condition variable until notified, or woken spuriously. *)
Definition cond_wait (t : nat) : prog waitable_queue_operation unit :=
  Act (fun o q =>
    if bool_decide (t ∈ m_cond q) && negb (Nat.eqb o o_spurious) then None else Some (wake t q, tt)).

(** drain_one: its first critical section (an empty list makes it the whole of
    the function), the operation, its second critical section. *)
Inductive drain_verdict := Wait | Execute (j : op) | Nothing.
Definition drain_begin (t : nat) (q : waitable_queue_operation) : waitable_queue_operation * drain_verdict :=
  if m_active q then (sleep t q, Wait)
  else match m_operations q with
       | [] => (Worker [] (m_completed q) false [] (inner q) (runner q) (<[t := false]> (owes q)) (log q), Nothing)
       | j :: ops =>
           (Worker ops (m_completed q) true (m_cond q) (inner q) (Some t) (<[t := false]> (owes q))
                   (Started (op_id j) :: log q), Execute j)
       end.
Definition drain_end (j : op) (q : waitable_queue_operation) : waitable_queue_operation :=
  Worker (m_operations q) (S (m_completed q)) false [] (inner q) None (owes q) (Finished (op_id j) :: log q).

Definition drain_one (t : nat) : prog waitable_queue_operation unit :=
  Iter (fun _ =>
    let! v := atomic (drain_begin t) in
    match v with
    | Wait => do! cond_wait t in Ret (inl tt)
    | Nothing => Ret (inr tt)
    | Execute j =>
        do! each (async t) (spawns j) in
        do! modify (drain_end j) in
        Ret (inr tt)
    end) tt.

(** What a waiting thread does next, decided under the mutex. *)
Inductive wait_verdict := Done | NothingQueued | Sleep | Drain.

(** The body of the loop of wait_for_one; [waiting] says that the thread comes
    from m_cond.wait, which goes on only when the queue is not active. *)
Definition one_section (t : nat) (waiting : bool) (q : waitable_queue_operation)
    : waitable_queue_operation * wait_verdict :=
  if waiting && m_active q then (sleep t q, Sleep)
  else if negb (m_completed q =? 0) then (uncount q, Done)
  else if m_active q then (sleep t q, Sleep)
  else match m_operations q with
       | [] => (q, NothingQueued)
       | _ => (q, Drain)
       end.

Definition wait_for_one (t : nat) : prog waitable_queue_operation unit :=
  Iter (fun waiting =>
    let! v := atomic (one_section t waiting) in
    match v with
    | Done | NothingQueued => Ret (inr tt)
    | Sleep => do! cond_wait t in Ret (inl true)
    | Drain => do! drain_one t in Ret (inl false)
    end) false.

(** wait_for_all keeps the mutex from one wait_for_one to the next: it goes on
    counting down for as long as there is something completed.  [Done] is the
    end of its loop. *)
Fixpoint all_loop (fuel : nat) (t : nat) (waiting : bool) (q : waitable_queue_operation)
    : waitable_queue_operation * wait_verdict :=
  match one_section t waiting q with
  | (q, Done) | (q, NothingQueued) =>
      if m_active q || negb (bool_decide (m_operations q = []))
      then match fuel with O => (q, Sleep) | S fuel => all_loop fuel t false q end
      else (q, Done)
  | r => r
  end.
Definition all_section (t : nat) (waiting : bool) (q : waitable_queue_operation)
    : waitable_queue_operation * wait_verdict := all_loop (S (m_completed q)) t waiting q.
Definition all_begin (t : nat) (q : waitable_queue_operation) : waitable_queue_operation * wait_verdict :=
  if m_active q || negb (bool_decide (m_operations q = [])) then all_section t false q else (q, Done).

Definition wait_for_all (t : nat) : prog waitable_queue_operation unit :=
  let! v := atomic (all_begin t) in
  Iter (fun v =>
    match v with
    | Done | NothingQueued => Ret (inr tt)
    | Sleep => do! cond_wait t in let! v := atomic (all_section t true) in Ret (inl v)
    | Drain => do! drain_one t in let! v := atomic (all_section t false) in Ret (inl v)
    end) v.

(** waitable_queue::impl::apply *)
Definition apply (t times : nat) (i0 : nat) : prog waitable_queue_operation unit :=
  do! each (fun i => async t (Op (i0 + i) [])) (seq 0 times) in wait_for_all t.

(** A thread of the inner queue: it executes the operation as often as asked. *)
Definition inner_turn (t : nat) : prog waitable_queue_operation (unit + unit) :=
  do! Act (fun _ q => match inner q with O => None | S n => Some (fetch t true n q, tt) end) in
  do! drain_one t in Ret (inl tt).
Definition inner_run (t : nat) : prog waitable_queue_operation unit := Iter (fun _ => inner_turn t) tt.
End Waitable.

(** * The threads of the inner queue, and the users *)
Module WaitableProcess.
Import Waitable.

Inductive call :=
| Async (j : op)
| WaitForOne
| WaitForAll
| Apply (times i0 : nat).
Definition run_call (t : nat) (c : call) : prog waitable_queue_operation unit :=
  match c with
  | Async j => async t j
  | WaitForOne => wait_for_one t
  | WaitForAll => wait_for_all t
  | Apply times i0 => apply t times i0
  end.
Definition start (workers : nat) (scripts : list (list call)) : cfg waitable_queue_operation :=
  (make_worker,
   map inner_run (seq 0 workers) ++ imap (fun t cs => each (run_call (workers + t)) cs) scripts).

(** ** What the log says *)
Fixpoint queued (l : list event) : list nat :=
  match l with [] => [] | Queued i :: l => queued l ++ [i] | _ :: l => queued l end.
Fixpoint started (l : list event) : list nat :=
  match l with [] => [] | Started i :: l => started l ++ [i] | _ :: l => started l end.
Fixpoint finished (l : list event) : nat :=
  match l with [] => 0 | Finished _ :: l => S (finished l) | _ :: l => finished l end.
Fixpoint counted (l : list event) : nat :=
  match l with [] => 0 | Counted :: l => S (counted l) | _ :: l => counted l end.
(** What is executing: [None] when two operations ever overlapped. *)
Fixpoint busy (l : list event) : option (option nat) :=
  match l with
  | [] => Some None
  | Started i :: l => match busy l with Some None => Some (Some i) | _ => None end
  | Finished i :: l => match busy l with Some (Some j) => if i =? j then Some None else None | _ => None end
  | _ :: l => busy l
  end.

Section proof.
Context (workers n : nat) (Hn : workers <= n).

Definition owed (q : waitable_queue_operation) : Z := total n (fun t => if owes q t then 1 else 0)%Z.

Record good (q : waitable_queue_operation) : Prop := {
  g_fifo : queued (log q) = started (log q) ++ map op_id (m_operations q);
  g_busy : exists x, busy (log q) = Some x /\ (x = None <-> runner q = None);
  g_active : m_active q = true <-> runner q <> None;
  g_completed : m_completed q + counted (log q) = finished (log q);
  g_cond u : u ∈ m_cond q -> runner q <> None /\ runner q <> Some u;
  g_runner t : runner q = Some t -> t < n;
  g_inner : (Z.of_nat (length (m_operations q)) <= Z.of_nat (inner q) + owed q)%Z
}.

Record keeps (t : nat) (q q' : waitable_queue_operation) : Prop := {
  k_owes : owes q' t = owes q t;
  k_runner : runner q' = Some t <-> runner q = Some t;
  k_busy : runner q = Some t -> busy (log q') = busy (log q)
}.
#[export] Instance waitable_keeps_pre t : PreOrder (keeps t).
Proof.
  split; [by split|]. intros x y z [H1 H2 H3] [H4 H5 H6]. split; [congruence|tauto|].
  intros H. rewrite H6; [auto|tauto].
Qed.

(** Asleep, or a worker of the inner queue with nothing to execute. *)
Definition waits (t : nat) (q : waitable_queue_operation) : Prop :=
  t ∈ m_cond q \/ (t < workers /\ inner q = 0 /\ runner q <> Some t /\ owes q t = false).

Definition protocol : Conc.protocol waitable_queue_operation := Protocol good keeps waits waitable_keeps_pre.

(** Thread [t], executing [r], with or without something it owes. *)
Record at_ (r : option op) (b : bool) (t : nat) (q : waitable_queue_operation) : Prop := {
  at_lt : t < n;
  at_owes : owes q t = b;
  at_runner : match r with
    | Some j => runner q = Some t /\ busy (log q) = Some (Some (op_id j))
    | None => runner q <> Some t
    end
}.

Lemma waitable_at_stable r b t : stable protocol t (at_ r b t).
Proof.
  intros q q' [H1 H2 H3] _ _ [K1 K2 K3]. split; [done|congruence|].
  destruct r as [j|]; [|by rewrite K2]. destruct H3. by rewrite K2, K3.
Qed.

Lemma owed_change q (t : nat) (b : bool) : t < n ->
  total n (fun u => if (<[t := b]> (owes q) : nat -> bool) u then 1 else 0)%Z =
  (owed q - (if owes q t then 1 else 0) + (if b then 1 else 0))%Z.
Proof.
  intros Ht. unfold owed. rewrite (total_change n (fun u => if owes q u then 1 else 0)%Z _ t Ht).
  - by rewrite fn_same.
  - intros u Hu. by rewrite fn_other.
Qed.

Lemma owed_bound q t : t < n -> ((if owes q t then 1 else 0) <= owed q)%Z.
Proof.
  intros Ht. apply (total_pos n (fun u => if owes q u then 1 else 0)%Z t Ht).
  intros u _. simpl. destruct (owes q u); lia.
Qed.

Ltac at_step t := intros u Hu; split; simpl; rewrite ?fn_other by congruence; try done; try congruence.

Lemma add_one_spec r t j :
  triple protocol t (at_ r false t) (add_one t j) (fun _ => at_ r true t).
Proof.
  apply triple_modify; [apply waitable_at_stable..|]. intros q [G1 G2 G3 G4 G5 G6 G7] [A1 A2 A3].
  split_and!; [split; simpl; try done|at_step t|split; simpl; rewrite ?fn_same; done].
  - by rewrite G1, map_app, <- app_assoc.
  - rewrite length_app. simpl. unfold owed at 1. simpl. rewrite owed_change, A2 by done. lia.
Qed.

Lemma inner_async_spec r t :
  triple protocol t (at_ r true t) (inner_async t) (fun _ => at_ r false t).
Proof.
  apply triple_modify; [apply waitable_at_stable..|]. intros q [G1 G2 G3 G4 G5 G6 G7] [A1 A2 A3].
  split_and!; [split; simpl; try done|at_step t|split; simpl; rewrite ?fn_same; done].
  unfold owed at 1. simpl. rewrite owed_change, A2 by done. lia.
Qed.

Lemma waitable_async_spec r t j :
  triple protocol t (at_ r false t) (async t j) (fun _ => at_ r false t).
Proof. eapply triple_bind; [apply add_one_spec|]. intros ?. apply inner_async_spec. Qed.

(** Going to sleep while the queue is active. *)
Lemma waitable_sleep_ok b t q : good q -> at_ None b t q -> m_active q = true ->
  good (sleep t q) /\ guar protocol t q (sleep t q) /\ at_ None b t (sleep t q).
Proof.
  intros [G1 G2 G3 G4 G5 G6 G7] [A1 A2 A3] Ha.
  split_and!; [split; simpl; try done|at_step t|split; done].
  intros u [->|Hu]%elem_of_cons; [|by apply G5]. split; [by apply G3|done].
Qed.

Lemma wait_on_cond_spec b t :
  triple protocol t (at_ None b t) (cond_wait t) (fun _ => at_ None b t).
Proof.
  apply triple_block; [apply waitable_at_stable|intros; apply waitable_at_stable| |].
  - intros q _ _. destruct (decide (t ∈ m_cond q)) as [Hin|Hout]; [by right; left|].
    left. apply enabled_0. by rewrite bool_decide_eq_false_2.
  - intros o q q' a [G1 G2 G3 G4 G5 G6 G7] [A1 A2 A3] E. destruct (_ && _); [done|]. injection E as <-.
    split_and!; [split; simpl; try done|at_step t|split; done].
    intros u [_ Hu]%list_elem_of_filter. by apply G5.
Qed.

(** ** drain_one *)
Definition draining (b : bool) (v : drain_verdict) (t : nat) : waitable_queue_operation -> Prop :=
  match v with
  | Wait => at_ None b t
  | Nothing => at_ None false t
  | Execute j => at_ (Some j) false t
  end.

Lemma drain_begin_spec b t :
  triple protocol t (at_ None b t) (atomic (drain_begin t)) (fun v => draining b v t).
Proof.
  apply triple_act; [apply waitable_at_stable|intros []; apply waitable_at_stable|done|].
  intros _ q q' v Hg Hat E. injection E as E. unfold drain_begin in E.
  destruct (m_active q) eqn:Ha; [injection E as <- <-; by apply waitable_sleep_ok|].
  destruct Hg as [G1 (x & G2 & G2') G3 G4 G5 G6 G7], Hat as [A1 A2 A3].
  assert (Hr : runner q = None).
  { destruct (runner q) eqn:Er; [|done]. by rewrite (proj2 G3 ltac:(done)) in Ha. }
  assert (x = None) as -> by tauto.
  destruct (m_operations q) as [|j ops] eqn:Ho; injection E as <- <-.
  - split_and!; [split; simpl; try done|at_step t|split; simpl; rewrite ?fn_same; done].
    + by exists None.
    + by intros u ?%not_elem_of_nil.
    + unfold owed at 1. simpl. rewrite owed_change by done. pose proof (owed_bound q t A1). lia.
  - split_and!; [split; simpl; try done|at_step t|split; simpl; rewrite ?fn_same; try done].
    + by rewrite G1, <- app_assoc.
    + rewrite G2. by eexists.
    + intros u Hu. split; [done|]. by destruct (G5 u Hu).
    + by intros u [= <-].
    + unfold owed at 1. simpl. rewrite owed_change by done. simpl in *. destruct (owes q t); lia.
    + rewrite Hr. split; congruence.
    + by rewrite G2.
Qed.

Lemma drain_end_spec t j :
  triple protocol t (at_ (Some j) false t) (modify (drain_end j)) (fun _ => at_ None false t).
Proof.
  apply triple_modify; [apply waitable_at_stable..|]. intros q [G1 (x & G2 & G2') G3 G4 G5 G6 G7] [A1 A2 [A3 A4]].
  split_and!; [split; simpl; try done|at_step t|split; simpl; done].
  - rewrite A4, Nat.eqb_refl. by exists None.
  - lia.
  - by intros u ?%not_elem_of_nil.
  - rewrite A3. split; congruence.
Qed.

Lemma drain_one_spec b t :
  triple protocol t (at_ None b t) (drain_one t) (fun _ => at_ None false t).
Proof.
  apply (triple_iter t _ _ (fun _ => at_ None b t)); [intros; apply waitable_at_stable|intros; apply waitable_at_stable|].
  intros _. eapply triple_bind; [apply drain_begin_spec|]. intros [|j|]; simpl.
  - eapply triple_bind; [apply wait_on_cond_spec|]. intros ?. apply triple_ret; [apply waitable_at_stable|done].
  - eapply triple_bind; [apply triple_each; [apply waitable_at_stable|intros; apply waitable_async_spec]|]. intros ?.
    eapply triple_bind; [apply drain_end_spec|]. intros ?. apply triple_ret; [apply waitable_at_stable|done].
  - apply triple_ret; [apply waitable_at_stable|done].
Qed.

(** ** Waiting *)
Definition kept (b : bool) (t : nat) (q q' : waitable_queue_operation) : Prop :=
  good q' /\ guar protocol t q q' /\ at_ None b t q'.

Lemma uncount_ok b t q : good q -> at_ None b t q -> m_completed q <> 0 -> kept b t q (uncount q).
Proof.
  intros [G1 G2 G3 G4 G5 G6 G7] [A1 A2 A3] Hc.
  split_and!; [split; simpl; try done|at_step t|split; done]. lia.
Qed.

Lemma one_section_ok b t w q : good q -> at_ None b t q -> kept b t q (one_section t w q).1.
Proof.
  intros Hg Ha. unfold one_section.
  destruct (w && m_active q) eqn:E1; [apply andb_true_iff in E1 as [_ E1]; by apply waitable_sleep_ok|].
  destruct (Nat.eqb_spec (m_completed q) 0); simpl; [|by apply uncount_ok].
  destruct (m_active q) eqn:E2; [by apply waitable_sleep_ok|].
  destruct (m_operations q); (split; [done|split; [apply guar_refl|done]]).
Qed.

Lemma kept_trans b t q q' q'' : kept b t q q' -> kept b t q' q'' -> kept b t q q''.
Proof.
  intros (_ & K1 & _) (G & K2 & A). split; [done|split; [|done]].
  intros u Hu. transitivity q'; [by apply K1|by apply K2].
Qed.

Lemma all_loop_ok b t fuel : forall w q, good q -> at_ None b t q -> kept b t q (all_loop fuel t w q).1.
Proof.
  induction fuel as [|fuel IH]; intros w q Hg Ha; pose proof (one_section_ok b t w q Hg Ha) as Ho; simpl;
    destruct (one_section t w q) as [q' []]; simpl in Ho; try done; destruct (_ || _); try done;
    pose proof Ho as (H1 & _ & H2); eapply kept_trans; [done|by apply IH|done|by apply IH].
Qed.

Lemma section_spec b t (f : waitable_queue_operation -> waitable_queue_operation * wait_verdict) :
  (forall q, good q -> at_ None b t q -> kept b t q (f q).1) ->
  triple protocol t (at_ None b t) (atomic f) (fun _ => at_ None b t).
Proof.
  intros Hf. apply triple_act; [apply waitable_at_stable|intros; apply waitable_at_stable|done|].
  intros _ q q' v Hg Ha E. specialize (Hf q Hg Ha). injection E as E. by rewrite E in Hf.
Qed.

Lemma wait_for_one_spec t :
  triple protocol t (at_ None false t) (wait_for_one t) (fun _ => at_ None false t).
Proof.
  apply (triple_iter t _ _ (fun _ => at_ None false t)); [intros; apply waitable_at_stable|intros; apply waitable_at_stable|].
  intros w. eapply triple_bind; [apply section_spec; intros; by apply one_section_ok|].
  intros []; try (apply triple_ret; [apply waitable_at_stable|done]).
  - eapply triple_bind; [apply wait_on_cond_spec|]. intros ?. apply triple_ret; [apply waitable_at_stable|done].
  - eapply triple_bind; [apply drain_one_spec|]. intros ?. apply triple_ret; [apply waitable_at_stable|done].
Qed.

Lemma wait_for_all_spec t :
  triple protocol t (at_ None false t) (wait_for_all t) (fun _ => at_ None false t).
Proof.
  unfold wait_for_all. eapply triple_bind.
  { apply section_spec. intros q Hg Ha. unfold all_begin. destruct (_ || _); [by apply all_loop_ok|].
    split; [done|split; [apply guar_refl|done]]. }
  intros v. apply (triple_iter t _ _ (fun _ => at_ None false t)); [intros; apply waitable_at_stable|intros; apply waitable_at_stable|].
  assert (Hall : forall w, triple protocol t (at_ None false t)
    (let! v := atomic (all_section t w) in Ret (inl v))
    (fun (r : wait_verdict + unit) q => match r with inl _ => at_ None false t q | inr _ => at_ None false t q end)).
  { intros w. eapply triple_bind; [apply section_spec; intros; by apply all_loop_ok|]. intros v'.
    apply triple_ret; [apply waitable_at_stable|done]. }
  intros []; try (apply triple_ret; [apply waitable_at_stable|done]).
  - eapply triple_bind; [apply wait_on_cond_spec|]. intros ?. apply Hall.
  - eapply triple_bind; [apply drain_one_spec|]. intros ?. apply Hall.
Qed.

Lemma waitable_call_spec t c :
  triple protocol t (at_ None false t) (run_call t c) (fun _ => at_ None false t).
Proof.
  destruct c; simpl; [apply waitable_async_spec|apply wait_for_one_spec|apply wait_for_all_spec|].
  eapply triple_bind; [apply triple_each; [apply waitable_at_stable|intros; apply waitable_async_spec]|].
  intros ?. apply wait_for_all_spec.
Qed.

Lemma inner_run_spec t : t < workers ->
  triple protocol t (at_ None false t) (inner_run t) (fun _ _ => False).
Proof.
  intros Ht. apply (triple_iter t _ _ (fun _ => at_ None false t)); [intros; apply waitable_at_stable|by intros ? ? ? []|].
  intros _. eapply triple_bind.
  { apply (triple_block t _ _ _ (fun _ => at_ None true t)); [apply waitable_at_stable|intros; apply waitable_at_stable| |].
    - intros q _ [A1 A2 A3]. destruct (inner q) eqn:E; [right; by right|].
      left. by apply enabled_0.
    - intros o q q' a [G1 G2 G3 G4 G5 G6 G7] [A1 A2 A3] E. destruct (inner q) eqn:Ei; [done|]. injection E as <-.
      split_and!; [split; simpl; try done|at_step t|split; simpl; rewrite ?fn_same; done].
      unfold owed at 1. simpl. rewrite owed_change, A2 by done. lia. }
  intros ?. eapply triple_bind; [apply drain_one_spec|]. intros ?. apply triple_ret; [apply waitable_at_stable|done].
Qed.
End proof.

Definition done_ (workers n t : nat) (q : waitable_queue_operation) : Prop :=
  if decide (t < workers) then False else at_ n None false t q.

Lemma waitable_sound workers scripts c :
  reach (start workers scripts) c ->
  sound (protocol workers (workers + length scripts)) make_worker (done_ workers (workers + length scripts)) c.
Proof.
  set (n := workers + length scripts). intros Hr.
  apply (rg_sound (W := protocol workers n) (fun t q => t < n -> at_ n None false t q) _ _
    (start workers scripts).2); [| | |exact Hr].
  - split; simpl; try done.
    + by exists None.
    + by intros u ?%not_elem_of_nil.
    + unfold owed. simpl. rewrite total_zero; [lia|done].
  - intros t Ht. by split.
  - intros t p Hp. assert (Ht : t < n).
    { apply lookup_lt_Some in Hp. simpl in Hp.
      rewrite length_app, length_map, length_seq, length_imap in Hp. done. }
    simpl in Hp. unfold done_. destruct (decide (t < workers)) as [Hlt|Hge].
    + rewrite lookup_app_l in Hp by (rewrite length_map, length_seq; done).
      rewrite list_lookup_fmap, lookup_seq_lt in Hp by done. simplify_eq/=.
      eapply triple_conseq; [apply (inner_run_spec workers n ltac:(unfold n; lia) t Hlt)|auto|done].
    + rewrite lookup_app_r in Hp by (rewrite length_map, length_seq; lia).
      rewrite length_map, length_seq, list_lookup_imap in Hp.
      destruct (scripts !! (t - workers)); simplify_eq/=.
      replace (workers + (t - workers)) with t by lia.
      eapply triple_pre; [apply triple_each; [apply waitable_at_stable|intros; apply waitable_call_spec; unfold n; lia]|auto].
Qed.

(** C14: The waitable queue executes its operations one at a time, each once and in
    the order they were queued, whether a thread of the inner queue or a waiting
    thread executes them; m_completed is what has finished and has not been waited
    for. *)
Theorem waitable_queue_fifo workers scripts c :
  reach (start workers scripts) c ->
  no_fault c /\ busy (log c.1) <> None /\
  queued (log c.1) = started (log c.1) ++ map op_id (m_operations c.1) /\
  m_completed c.1 + counted (log c.1) = finished (log c.1).
Proof.
  intros Hc%waitable_sound. destruct (sound_inv Hc) as [G1 (x & G2 & _) _ G4 _ _ _].
  split_and!; [apply Hc|by rewrite G2|done|done].
Qed.


Lemma all_loop_verdict fuel t : forall w q, m_completed q < fuel ->
  match (all_loop fuel t w q).2 with
  | Done | NothingQueued => m_active (all_loop fuel t w q).1 = false /\ m_operations (all_loop fuel t w q).1 = []
  | Sleep => m_active (all_loop fuel t w q).1 = true /\ t ∈ m_cond (all_loop fuel t w q).1
  | Drain => m_active (all_loop fuel t w q).1 = false /\ m_operations (all_loop fuel t w q).1 <> []
  end.
Proof.
  induction fuel as [|fuel IH]; intros w q Hf; [lia|]. cbn [all_loop].
  unfold one_section. destruct (w && m_active q) eqn:E1.
  { apply andb_true_iff in E1 as [_ E1]. split; [done|]. apply list_elem_of_here. }
  destruct (Nat.eqb_spec (m_completed q) 0) as [E2|E2]; simpl.
  - destruct (m_active q) eqn:E3; [split; [done|apply list_elem_of_here]|].
    destruct (m_operations q) eqn:E4; cbn -[all_loop]; rewrite ?E3, ?E4; simpl; rewrite ?E3, ?E4; done.
  - destruct (m_active q) eqn:E3; cbn -[all_loop]; rewrite ?E3; cbn -[all_loop]; [apply IH; simpl; lia|].
    destruct (m_operations q) eqn:E4; cbn -[all_loop]; rewrite ?E4; cbn -[all_loop]; rewrite ?E3, ?E4;
      [done|apply IH; simpl; lia].
Qed.

(** What wait_for_all decides under the mutex is right: it returns only when no
    operation is executing and none is queued, it sleeps only while an operation
    is executing, and it executes an operation itself only when nobody does;
    counting down what is completed ends. *)
Theorem wait_for_all_decides t w q :
  (match (all_section t w q).2 with
   | Done | NothingQueued => m_active (all_section t w q).1 = false /\ m_operations (all_section t w q).1 = []
   | Sleep => m_active (all_section t w q).1 = true /\ t ∈ m_cond (all_section t w q).1
   | Drain => m_active (all_section t w q).1 = false /\ m_operations (all_section t w q).1 <> []
   end) /\
  ((all_begin t q).2 = Done -> m_active (all_begin t q).1 = false /\ m_operations (all_begin t q).1 = []).
Proof.
  split; [apply all_loop_verdict; lia|]. unfold all_begin.
  destruct (m_active q) eqn:Ea; simpl.
  - intros E. pose proof (all_loop_verdict (S (m_completed q)) t false q ltac:(lia)) as H.
    unfold all_section in *. by rewrite E in H.
  - destruct (bool_decide (m_operations q = [])) eqn:Eo; simpl; [by apply bool_decide_eq_true in Eo|].
    intros E. pose proof (all_loop_verdict (S (m_completed q)) t false q ltac:(lia)) as H.
    unfold all_section in *. by rewrite E in H.
Qed.

(** ** Witnesses *)
Definition two_users : list (list call) := [[Async (Op 1 [Op 2 []]); WaitForAll]; [Async (Op 3 []); WaitForOne]].
Definition both_done : cfg waitable_queue_operation :=
  play (concat (replicate 120 [(1, 0); (2, 0); (0, 0)])) (start 1 two_users).

Lemma waitable_queue_fifo_witness :
  no_fault both_done /\ busy (log both_done.1) <> None /\
  queued (log both_done.1) = started (log both_done.1) ++ map op_id (m_operations both_done.1) /\
  m_completed both_done.1 + counted (log both_done.1) = finished (log both_done.1).
Proof. apply (waitable_queue_fifo 1 two_users). apply play_reach, reach_here. Defined.

End WaitableProcess.
