(* ===== verification/WaitInside.v ===== *)
(** * WaitInside: waiting for a waitable queue from inside of its own operations

    wait_for_one(), wait_for_all() and apply() of src/waitable_queue.cpp, called by an
    operation that the same queue is executing. *)
From S2P Require Import Prelude Conc WaitableQueue.

Module WaitInside.
Import Waitable WaitableProcess.

(** The rest of drain_one() for a thread that executes operation [j], which calls [w] on
    its own queue, and what the thread does after it. *)
Definition inside (t : nat) (j : op) (w : call) (rest : prog waitable_queue_operation unit)
    : prog waitable_queue_operation unit :=
  do! run_call t w in do! modify (drain_end j) in rest.
Definition waits (w : call) : bool := match w with Async _ => false | _ => true end.

(** Thread 0 is inside; the others are threads of the inner queue and users. *)
Definition start_inside (q : waitable_queue_operation) (j : op) (w : call) (rest : prog waitable_queue_operation unit)
    (workers : nat) (scripts : list (list call)) : cfg waitable_queue_operation :=
  (q, inside 0 j w rest :: map inner_run (seq 1 workers) ++
      imap (fun t cs => each (run_call (S workers + t)) cs) scripts).

(** Executing, and nothing completed that has not been waited for; [l] has happened. *)
Record taken (l : list event) (q : waitable_queue_operation) : Prop := {
  t_active : m_active q = true;
  t_completed : m_completed q = 0;
  t_started : started (log q) = started l;
  t_finished : finished (log q) = finished l
}.

Section proof.
Context (l : list event).
#[local] Instance anything : PreOrder (fun _ _ : waitable_queue_operation => True).
Proof. by split. Qed.
Definition protocol : Conc.protocol waitable_queue_operation :=
  Protocol (taken l) (fun _ _ _ => True) (fun _ _ => True) (fun _ => anything).

(** All that is known is the invariant. *)
Definition known (b : bool) (q : waitable_queue_operation) : Prop := b = true.
Lemma known_stable t b : stable protocol t (known b).
Proof. by intros q q' H _ _ _. Qed.

Lemma act_spec t A (f : nat -> waitable_queue_operation -> option (waitable_queue_operation * A)) (Q : A -> bool) :
  (forall o q q' a, taken l q -> f o q = Some (q', a) -> taken l q' /\ Q a = true) ->
  triple protocol t (known true) (Act f) (fun a => known (Q a)).
Proof.
  intros H. apply triple_block; [apply known_stable|intros; apply known_stable|by intros; right|].
  intros o q q' a Hq _ E. destruct (H o q q' a Hq E). split_and!; [done|by intros u|done].
Qed.

Lemma async_inside t j : triple protocol t (known true) (async t j) (fun _ => known true).
Proof.
  unfold async. eapply triple_bind; [apply (act_spec t _ _ (fun _ => true))|intros ?; apply (act_spec t _ _ (fun _ => true))];
    intros o q q' v [H1 H2 H3 H4] E; injection E as <- _; by split; [split|].
Qed.

Lemma cond_inside t : triple protocol t (known true) (cond_wait t) (fun _ => known true).
Proof.
  apply (act_spec t _ _ (fun _ => true)). intros o q q' a [H1 H2 H3 H4] E. simpl in E.
  destruct (bool_decide (t ∈ m_cond q) && negb (Nat.eqb o o_spurious)); [done|]. injection E as <- _. by split; [split|].
Qed.

(** Nobody else gets past the head of drain_one(). *)
Lemma drain_inside t : triple protocol t (known true) (drain_one t) (fun _ => known false).
Proof.
  apply (triple_iter t _ _ (fun _ => known true)); [intros; apply known_stable..|]. intros _.
  eapply triple_bind.
  { apply (act_spec t _ _ (fun v => match v with Wait => true | _ => false end)). intros o q q' v [H1 H2 H3 H4] E.
    simpl in E. unfold drain_begin in E. rewrite H1 in E. injection E as <- <-. by split; [split|]. }
  intros [|j|]; [|by apply triple_absurd..].
  eapply triple_bind; [apply cond_inside|]. intros ?. apply triple_ret; [apply known_stable|done].
Qed.

(** Whoever waits goes to sleep. *)
Lemma one_asleep t waiting q :
  taken l q -> one_section t waiting q = (sleep t q, Sleep) /\ taken l (sleep t q).
Proof.
  intros [H1 H2 H3 H4]. unfold one_section. rewrite H1, H2. split; [by destruct waiting|by split].
Qed.
Lemma all_asleep t waiting q : taken l q -> all_section t waiting q = (sleep t q, Sleep).
Proof. intros H. unfold all_section, all_loop. by destruct (one_asleep t waiting q H) as [-> _]. Qed.

Lemma section_inside t (f : waitable_queue_operation -> waitable_queue_operation * wait_verdict) :
  (forall q, taken l q -> f q = (sleep t q, Sleep)) ->
  triple protocol t (known true) (atomic f) (fun v => known (match v with Sleep => true | _ => false end)).
Proof.
  intros Hf. apply (act_spec t _ _ (fun v => match v with Sleep => true | _ => false end)).
  intros o q q' v Hq E. apply (inj Some) in E. rewrite (Hf q Hq) in E. injection E as <- <-.
  split; [|done]. by apply (one_asleep t false).
Qed.

Lemma one_inside t : triple protocol t (known true) (wait_for_one t) (fun _ => known false).
Proof.
  apply (triple_iter t _ _ (fun _ => known true)); [intros; apply known_stable..|]. intros waiting.
  eapply triple_bind; [apply section_inside; intros q Hq; by apply one_asleep|].
  intros [| | |]; try by apply triple_absurd.
  eapply triple_bind; [apply cond_inside|]. intros ?. apply triple_ret; [apply known_stable|done].
Qed.

Lemma all_inside t : triple protocol t (known true) (wait_for_all t) (fun _ => known false).
Proof.
  unfold wait_for_all. eapply triple_bind.
  { apply section_inside. intros q Hq. unfold all_begin. rewrite (t_active _ _ Hq). by apply all_asleep. }
  intros v. apply (triple_iter t _ _ (fun v => known (match v with Sleep => true | _ => false end)));
    [intros; apply known_stable..|]. intros [| | |]; try by apply triple_absurd.
  eapply triple_bind; [apply cond_inside|]. intros ?.
  eapply triple_bind; [apply section_inside; intros q Hq; by apply all_asleep|].
  intros v'. apply triple_ret; [apply known_stable|done].
Qed.

Lemma call_inside t w : triple protocol t (known true) (run_call t w) (fun _ => known (negb (waits w))).
Proof.
  destruct w as [j| | |times i0]; simpl; [apply async_inside|apply one_inside|apply all_inside|].
  unfold apply. eapply triple_bind.
  { apply triple_each; [apply known_stable|]. intros i _. apply async_inside. }
  intros ?. eapply triple_post; [apply all_inside|by intros].
Qed.

Lemma thread_inside q j w rest workers scripts t p :
  waits w = true -> (start_inside q j w rest workers scripts).2 !! t = Some p ->
  triple protocol t (known true) p (fun _ q => t <> 0).
Proof.
  intros Hw Hp. simpl in Hp. destruct t as [|t]; simpl in Hp.
  { injection Hp as <-. unfold inside. eapply triple_bind; [apply call_inside|]. intros ?. rewrite Hw.
    by apply triple_absurd. }
  eapply (triple_post _ _ _ _ (fun _ => known true)); [|done].
  destruct (decide (t < workers)) as [Ht|Ht].
  - rewrite lookup_app_l in Hp by (rewrite length_map, length_seq; done).
    rewrite list_lookup_fmap, lookup_seq_lt in Hp by done. injection Hp as <-.
    apply (triple_iter _ _ _ (fun _ => known true)); [intros; apply known_stable..|]. intros ?.
    unfold inner_turn. eapply triple_bind.
    { apply (act_spec _ _ _ (fun _ => true)). intros o q0 q' v [H1 H2 H3 H4] E. destruct (inner q0); [done|].
      injection E as <- _. by split; [split|]. }
    intros ?. eapply triple_bind; [apply drain_inside|]. intros ?. by apply triple_absurd.
  - rewrite lookup_app_r in Hp by (rewrite length_map, length_seq; lia).
    rewrite length_map, length_seq, list_lookup_imap in Hp. destruct (scripts !! _) as [cs|]; [|done]. injection Hp as <-.
    cbn [Nat.add]. replace (workers + (t - workers)) with t by lia.
    apply triple_each; [apply known_stable|]. intros w' _.
    eapply triple_post; [apply call_inside|by intros].
Qed.
End proof.

(** C36: An operation that waits for the queue it is executed by, when everything completed
    before has been waited for, waits for ever, whatever other threads queue, wait or
    execute: it does not return, and no operation is started or finished again.  The
    documentation says that a wait can never deadlock. *)
Theorem wait_inside_deadlocks q j w rest workers scripts c :
  m_active q = true -> m_completed q = 0 -> waits w = true ->
  reach (start_inside q j w rest workers scripts) c ->
  thread_done c 0 = false /\ started (log c.1) = started (log q) /\ finished (log c.1) = finished (log q).
Proof.
  intros Ha Hm Hw Hr.
  assert (Hs : sound (protocol (log q)) q (fun t _ => t <> 0) c).
  { apply (rg_sound (W := protocol (log q)) (fun _ => known true) _ q (start_inside q j w rest workers scripts).2);
      [by split|done| |done].
    intros t p Hp. by eapply thread_inside. }
  split_and!; [|apply (sound_inv Hs)..]. destruct (thread_done c 0) eqn:E; [|done].
  by destruct (sound_post Hs 0 E).
Qed.

(** Operation 1 has been taken by the inner queue and waits; a user queues another
    and waits, too. *)
Definition queue1 : waitable_queue_operation := (drain_begin 0 (Worker [Op 1 []] 0 false [] 0 None (fun _ => false) [Queued 1])).1.
Definition inside1 : cfg waitable_queue_operation :=
  play (concat (replicate 60 [(0, 0); (1, 0); (2, 0)])) (start_inside queue1 (Op 1 []) WaitForOne (Ret tt) 1 [[Async (Op 2 []); WaitForAll]]).

Theorem wait_inside_deadlocks_witness :
  map (thread_blocked 2 inside1) [0; 1; 2] = [true; true; true] /\
  thread_done inside1 0 = false /\ started (log inside1.1) = [1] /\ finished (log inside1.1) = 0.
Proof.
  split; [vm_compute; reflexivity|].
  apply (wait_inside_deadlocks queue1 (Op 1 []) WaitForOne (Ret tt) 1 [[Async (Op 2 []); WaitForAll]] inside1);
    [reflexivity..|apply play_reach, reach_here].
Defined.
End WaitInside.
