(* ===== verification/Exceptions.v ===== *)
(** * Exceptions: operations that throw

    process_job of src/naive/naive_operation_queue.cpp, the unwinding of drain(), of
    manual_thread::run and of waitable_queue_operation::drain_one.  The other files
    take operations that return; here one thread executes operations that may not,
    on the critical sections of OperationQueue and WaitableQueue.  The single
    thread of the main queue is the one that can go on: exec() leaves with the
    exception, and the program may call it again. *)
From S2P Require Import Prelude Conc OperationQueue WaitableQueue.

Module Exceptions.
Import OpQueue.

(** How the call of an operation ends. *)
Inductive outcome := Returns | Throws_std | Throws_other.

Section throwing.
Context (DEBUG : bool) (ends : nat -> outcome).

(** process_job: [true] when an exception leaves it. *)
Definition process_job (j : job) : fault + bool :=
  match ends (job_id j) with
  | Returns => inr false
  | Throws_std => inr true
  | Throws_other => if DEBUG then inr true else inl Terminated
  end.

(** What an exception that leaves process_job does to the queue: the mutex is locked
    again, ~deferred_pop pops the job, ~drain_scope marks the drain inactive. *)
Definition drain_unwind (q : operation_queue) : option operation_queue :=
  match m_jobs q with
  | [] => None
  | _ :: l => Some (with_active_drain false (with_jobs l q))
  end.

(** A queue and the operations executed on it, the latest first. *)
Record main := Main { q : operation_queue; executed : list nat }.
Definition init : main := Main (attach make_queue).1 [].

Definition async (j : op) (s : main) : main := Main (async_unsafe (Work j) (q s)).1 (executed s).

(** drain() from one [next] on; [fuel] is the number of jobs a drain may still take, and
    [true] says that an exception leaves it. *)
Fixpoint drain_loop (fuel : nat) (n : next) (s : main) : fault + main * bool :=
  match n with
  | Leave => inr (s, false)
  | Execute job remaining =>
      match fuel with
      | O => inl Terminated
      | S fuel =>
          let s1 := match job with
                    | Some j => foldl (fun s j => async j s) (Main (q s) (job_id j :: executed s)) match j with Work j => spawns j | Detaching => [] end
                    | None => s
                    end in
          match match job with Some j => process_job j | None => inr false end with
          | inl e => inl e
          | inr true =>
              match drain_unwind (q s1) with Some q => inr (Main q (executed s1), true) | None => inl Terminated end
          | inr false =>
              match drain_next 0 remaining (q s1) with
              | Some ((q, _), n) => drain_loop fuel n (Main q (executed s1))
              | None => inl Terminated
              end
          end
      end
  end.
Definition drain (s : main) : fault + main * bool :=
  match drain_begin 0 (q s) with
  | Some ((q, _), n) => drain_loop kMaxOpsPerDrain n (Main q (executed s))
  | None => inl Terminated
  end.

(** The body of manual_thread::run on the notifications the queue has given it: an
    exception drops those taken and not executed yet. *)
Fixpoint run_active (active_ops : nat) (s : main) : fault + main * bool :=
  match active_ops with
  | O => inr (s, false)
  | S n => match drain s with
           | inl e => inl e
           | inr (s, true) => inr (s, true)
           | inr (s, false) => run_active n s
           end
  end.
Definition run_once (s : main) : fault + main * bool :=
  run_active (m_pending (q s)) (Main (with_pending 0 (q s)) (executed s)).

(** The main thread: operations are queued, exec() runs and is called again after an
    exception. *)
Inductive action := Async (j : op) | Run.
Definition act (a : action) (s : main) : fault + main :=
  match a with
  | Async j => inr (async j s)
  | Run => match run_once s with inr (s, _) => inr s | inl e => inl e end
  end.
Fixpoint acts (l : list action) (s : main) : fault + main :=
  match l with
  | [] => inr s
  | a :: l => match act a s with inr s => acts l s | inl e => inl e end
  end.

(** Jobs, and nobody told to execute them. *)
Definition stalled (s : main) : Prop := m_jobs (q s) <> [] /\ m_pending (q s) = 0.

Lemma stalled_async j s : stalled s -> stalled (async j s) /\ executed (async j s) = executed s.
Proof.
  intros [H1 H2]. unfold async, async_unsafe, stalled. destruct (m_jobs (q s)) eqn:E; [done|]. simpl. done.
Qed.

Lemma stalled_act a s : stalled s -> exists s', act a s = inr s' /\ stalled s' /\ executed s' = executed s.
Proof.
  intros Hs. destruct a as [j|]; simpl.
  - exists (async j s). by destruct (stalled_async j s Hs).
  - pose proof Hs as [H1 H2]. unfold run_once. rewrite H2. simpl.
    exists (Main (with_pending 0 (q s)) (executed s)). split; [done|]. by split.
Qed.

Lemma stalled_acts l : forall s, stalled s -> exists s', acts l s = inr s' /\ stalled s' /\ executed s' = executed s.
Proof.
  induction l as [|a l IH]; intros s Hs; [by exists s|]. simpl.
  destruct (stalled_act a s Hs) as (s1 & -> & H1 & E1). destruct (IH s1 H1) as (s2 & -> & H2 & E2).
  exists s2. split_and!; [done|done|congruence].
Qed.

End throwing.


(** Operations that return are all executed, in their order, with what they queue. *)
Lemma returning_all_executed :
  match acts false (fun _ => Returns) ([Async (Op 1 [Op 3 []]); Async (Op 2 [])] ++ [Run; Run]) init with
  | inr s => executed s = [3; 2; 1] /\ m_jobs (q s) = [] /\ m_pending (q s) = 0
  | inl _ => False
  end.
Proof. by vm_compute. Qed.

(** ** The waitable queue *)
Section waitable.
Import Waitable.

(** An exception leaves drain_one between its two critical sections: the mutex is not
    held and nothing is undone. *)
Definition drain_one_unwind (w : waitable_queue_operation) : waitable_queue_operation :=
  Worker (m_operations w) (m_completed w) (m_active w) (m_cond w) (inner w) None (owes w) (log w).

(** The critical sections threads execute, and what comes of them. *)
Inductive section := Add (t : nat) (j : op) | Drain_begin (t : nat) | One (t : nat) (waiting : bool)
| All_begin (t : nat) | All (t : nat) (waiting : bool).
Inductive verdict := Added | Draining (v : drain_verdict) | Waiting_one (v : wait_verdict) | Waiting_all (v : wait_verdict).
Definition enter (c : section) (w : waitable_queue_operation) : waitable_queue_operation * verdict :=
  match c with
  | Add t j => (Worker (m_operations w ++ [j]) (m_completed w) (m_active w) (m_cond w) (inner w) (runner w)
                  (<[t := true]> (owes w)) (Queued (op_id j) :: log w), Added)
  | Drain_begin t => let (w, v) := drain_begin t w in (w, Draining v)
  | One t waiting => let (w, v) := one_section t waiting w in (w, Waiting_one v)
  | All_begin t => let (w, v) := all_begin t w in (w, Waiting_all v)
  | All t waiting => let (w, v) := all_section t waiting w in (w, Waiting_all v)
  end.
Fixpoint enters (l : list section) (w : waitable_queue_operation) : waitable_queue_operation * list verdict :=
  match l with
  | [] => (w, [])
  | c :: l => let (w, v) := enter c w in let (w, vs) := enters l w in (w, v :: vs)
  end.

Definition goes_on (v : verdict) : Prop :=
  match v with Draining Wait | Added | Waiting_one _ | Waiting_all Sleep => False | _ => True end.

Lemma all_loop_active fuel t : forall waiting w, m_active w = true ->
  m_active (all_loop fuel t waiting w).1 = true /\ (all_loop fuel t waiting w).2 = Sleep.
Proof.
  induction fuel as [|fuel IH]; intros waiting w Ha; simpl; unfold one_section; rewrite Ha.
  - destruct waiting; [done|]. simpl. destruct (m_completed w =? 0); simpl; [done|]. by rewrite Ha.
  - destruct waiting; [done|]. simpl. destruct (m_completed w =? 0); simpl; [done|]. rewrite Ha. simpl. by apply IH.
Qed.

Lemma enter_active c w : m_active w = true -> m_active (enter c w).1 = true /\ ~ goes_on (enter c w).2.
Proof.
  intros Ha. destruct c as [t j|t|t b|t|t b]; simpl.
  - split; [done|tauto].
  - unfold drain_begin. rewrite Ha. simpl. split; [done|tauto].
  - unfold one_section. rewrite Ha. destruct b; simpl; [split; [done|tauto]|].
    destruct (m_completed w =? 0); simpl; (split; [done|tauto]).
  - unfold all_begin, all_section. rewrite Ha. simpl orb. cbv iota.
    destruct (all_loop_active (S (m_completed w)) t false w Ha) as [H1 H2].
    destruct (all_loop _ _ _ _) as [w' v]. simpl in *. subst. split; [done|tauto].
  - unfold all_section. destruct (all_loop_active (S (m_completed w)) t b w Ha) as [H1 H2].
    destruct (all_loop _ _ _ _) as [w' v]. simpl in *. subst. split; [done|tauto].
Qed.

(** An operation that throws stalls a waitable queue for good, waited for or not: the
    queue stays active, so that nobody executes an operation any more and
    wait_for_all never returns, whatever threads queue, drain and wait. *)
Theorem throw_stalls_waitable t w w1 j l :
  drain_begin t w = (w1, Execute j) ->
  let '(w2, vs) := enters l (drain_one_unwind w1) in m_active w2 = true /\ Forall (fun v => ~ goes_on v) vs.
Proof.
  intros E. assert (Ha : m_active (drain_one_unwind w1) = true).
  { unfold drain_begin in E. destruct (m_active w); [done|]. destruct (m_operations w); [done|]. by injection E as <- _. }
  revert Ha. generalize (drain_one_unwind w1). clear E. induction l as [|c l IH]; intros w' Ha; simpl; [by split|].
  destruct (enter_active c w' Ha) as [H1 H2]. destruct (enter c w') as [w3 v]. specialize (IH w3 H1).
  destruct (enters l w3) as [w4 vs]. destruct IH as [IH1 IH2]. split; [done|]. by constructor.
Qed.
End waitable.

Lemma throw_stalls_waitable_witness :
  let w := (enter (Add 0 (Waitable.Op 1 [])) Waitable.make_worker).1 in
  let '(w2, vs) := enters [Add 1 (Waitable.Op 2 []); Drain_begin 2; One 3 false; All_begin 4]
    (drain_one_unwind (Waitable.drain_begin 0 w).1) in
  Waitable.m_active w2 = true /\ Forall (fun v => ~ goes_on v) vs.
Proof.
  intros w. apply (throw_stalls_waitable 0 w (Waitable.drain_begin 0 w).1 (Waitable.Op 1 [])). reflexivity.
Defined.
End Exceptions.
