(* ===== verification/Timer.v ===== *)
(** * Timer: src/naive/naive_timer.cpp, naive_operations.cpp

    The timer of the naive backend.  A timer that becomes runnable borrows a
    thread of the pool, the loop of which sleeps, queues the handler, waits for
    it and sleeps again. *)
From S2P Require Import Prelude Cancelable.

Module Timer.
Import Cancel(active_state, active_disabled, active_enabled, active_running).

(** Where a borrowed thread is: it sleeps for the delay of resume(), is about to
    look at m_running, has queued the handler, sees it executing, sleeps for the
    interval, or has ended. *)
Inductive place :=
| Delayed
| Head
| Queued (handler queue : nat) (interval : Z)
| Executing (handler : nat) (interval : Z)
| Sleeping
| Ended.

Inductive event :=
| Resumed
| Suspended
| Cancelled
| Fired (handler queue : nat)    (* the handler has begun on the queue *)
| Skipped.                 (* the cancelable could not be entered *)

(** timer_impl, and the threads its resume() has started. *)
Record timer_impl := Timer {
  m_interval : Z;
  m_queue : nat;
  m_handler : option nat;
  m_running : Z;
  m_cancelable : active_state;
  loops : list place;
  log : list event
}.
(** On the queue it is made for; queues and handlers are told apart by number. *)
Definition make_timer (queue : nat) : timer_impl := Timer 0 queue None 0 active_enabled [] [].

Definition with_loops (l : list place) (x : timer_impl) : timer_impl :=
  Timer (m_interval x) (m_queue x) (m_handler x) (m_running x) (m_cancelable x) l (log x).
Definition with_cancelable (a : active_state) (x : timer_impl) : timer_impl :=
  Timer (m_interval x) (m_queue x) (m_handler x) (m_running x) a (loops x) (log x).
Definition with_log (e : event) (x : timer_impl) : timer_impl :=
  Timer (m_interval x) (m_queue x) (m_handler x) (m_running x) (m_cancelable x) (loops x) (e :: log x).

Definition interval (z : Z) (x : timer_impl) : timer_impl :=
  Timer z (m_queue x) (m_handler x) (m_running x) (m_cancelable x) (loops x) (log x).
Definition latency (x : timer_impl) : timer_impl := x.
Definition handler (op : nat) (x : timer_impl) : timer_impl :=
  Timer (m_interval x) (m_queue x) (Some op) (m_running x) (m_cancelable x) (loops x) (log x).
Definition target_queue (q : nat) (x : timer_impl) : timer_impl :=
  Timer (m_interval x) q (m_handler x) (m_running x) (m_cancelable x) (loops x) (log x).

(** resume(): only the call that makes the counter 1 starts a loop. *)
Definition resume (x : timer_impl) : timer_impl :=
  let n := (m_running x + 1)%Z in
  Timer (m_interval x) (m_queue x) (m_handler x) n (m_cancelable x)
        (if (n =? 1)%Z then loops x ++ [Delayed] else loops x) (Resumed :: log x).
Definition suspend (x : timer_impl) : timer_impl :=
  Timer (m_interval x) (m_queue x) (m_handler x) (m_running x - 1) (m_cancelable x) (loops x) (Suspended :: log x).
(** cancel(), up to waiting for a handler that is executing (see Cancelable). *)
Definition cancel (x : timer_impl) : timer_impl :=
  Timer (m_interval x) (m_queue x) (m_handler x) 0 active_disabled (loops x) (Cancelled :: log x).

(** After the handler: sleep for the interval the loop has read, or end. *)
Definition next_place (interval : Z) : place := if (0 <? interval)%Z then Sleeping else Ended.

(** One step of the loop of thread [k]; [None] is the call of a handler nobody
    has set. *)
Definition loop_step (k : nat) (x : timer_impl) : option timer_impl :=
  match loops x !! k with
  | Some Delayed | Some Sleeping => Some (with_loops (<[k := Head]> (loops x)) x)
  | Some Head =>
      if (0 <? m_running x)%Z
      then match m_handler x with
           | Some op => Some (with_loops (<[k := Queued op (m_queue x) (m_interval x)]> (loops x)) x)
           | None => None
           end
      else Some (with_loops (<[k := Ended]> (loops x)) x)
  | Some (Queued op q i) =>
      match m_cancelable x with
      | active_enabled =>
          Some (with_log (Fired op q) (with_cancelable active_running
                 (with_loops (<[k := Executing op i]> (loops x)) x)))
      | _ => Some (with_log Skipped (with_loops (<[k := next_place i]> (loops x)) x))
      end
  | Some (Executing op i) =>
      let x := with_loops (<[k := next_place i]> (loops x)) x in
      Some (match m_cancelable x with active_running => with_cancelable active_enabled x | _ => x end)
  | _ => Some x
  end.

Inductive action := Interval (z : Z) | Handler (op : nat) | TargetQueue (q : nat) | Latency | Resume | Suspend | Cancel | Loop (k : nat).
Definition act (a : action) (x : timer_impl) : option timer_impl :=
  match a with
  | Interval z => Some (interval z x)
  | Handler op => Some (handler op x)
  | TargetQueue q => Some (target_queue q x)
  | Latency => Some (latency x)
  | Resume => Some (resume x)
  | Suspend => Some (suspend x)
  | Cancel => Some (cancel x)
  | Loop k => loop_step k x
  end.
Fixpoint acts (l : list action) (x : timer_impl) : option timer_impl :=
  match l with
  | [] => Some x
  | a :: l => match act a x with Some x => acts l x | None => None end
  end.

(** delayed_operation, by what it owns: its call executes the operation, consumes the
    resource, and cancels the timer and lets go of it. *)
Record delayed_operation := DelayedOp { d_timer : bool; d_consumable : bool }.
Inductive deed := Execute | Consume | CancelTimer.
#[export] Instance deed_eq : EqDecision deed.
Proof. solve_decision. Defined.
Definition delayed_call (d : delayed_operation) : delayed_operation * list deed :=
  (DelayedOp false (d_consumable d),
   [Execute] ++ (if d_consumable d then [Consume] else []) ++ (if d_timer d then [CancelTimer] else [])).
(** create_and_dispatch: the operation becomes the handler of the timer it owns. *)
Definition create_and_dispatch (op queue : nat) : timer_impl * delayed_operation :=
  (resume (handler op (make_timer queue)), DelayedOp true false).

(** What an operation given to after() goes through: its timer is resumed, its loop
    turns, and the operation cancels the timer at the end of its call. *)
Inductive delays (op queue : nat) : timer_impl * delayed_operation -> Prop :=
| delays_start : delays op queue (create_and_dispatch op queue)
| delays_loop k x x' d : delays op queue (x, d) -> loop_step k x = Some x' -> delays op queue (x', d)
| delays_call k x i d : delays op queue (x, d) -> loops x !! k = Some (Executing op i) ->
    delays op queue (if bool_decide (CancelTimer ∈ (delayed_call d).2) then cancel x else x, (delayed_call d).1).

(** ** What is counted *)
Fixpoint fired (l : list event) : nat :=
  match l with [] => 0 | Fired _ _ :: l => S (fired l) | _ :: l => fired l end.
Definition balance (a : action) (z : Z) : Z :=
  match a with Resume => z + 1 | Suspend => z - 1 | Cancel => 0 | _ => z end.
Definition balances (l : list action) (z : Z) : Z := foldl (fun z a => balance a z) z l.

Definition executing (p : place) : bool := match p with Executing _ _ => true | _ => false end.
Definition ended (p : place) : bool := match p with Ended => true | _ => false end.
Definition firing (l : list place) : nat := length (filter (fun p => executing p = true) l).

Lemma firing_insert k p q l : l !! k = Some p ->
  firing (<[k := q]> l) + (if executing p then 1 else 0) = firing l + (if executing q then 1 else 0).
Proof.
  unfold firing. intros Hk. rewrite <- (take_drop_middle l k p Hk) at 2.
  rewrite insert_take_drop by (by eapply lookup_lt_Some).
  rewrite !list.filter_app, !length_app, !filter_cons. destruct (executing p), (executing q); simpl; lia.
Qed.

Record good (x : timer_impl) : Prop := {
  g_one : firing (loops x) <= 1;
  g_enabled : m_cancelable x = active_enabled -> firing (loops x) = 0;
  g_running : m_cancelable x = active_running -> firing (loops x) = 1
}.

Lemma next_place_idle i : executing (next_place i) = false.
Proof. unfold next_place. by destruct (0 <? i)%Z. Qed.

Ltac plain G2 G3 :=
  split; [split; simpl; try lia; intros E; (specialize (G2 E) || specialize (G3 E)); lia | done].

Lemma loop_step_good k x x' : good x -> loop_step k x = Some x' ->
  good x' /\ m_running x' = m_running x /\
  (m_cancelable x = active_disabled -> m_cancelable x' = active_disabled /\ fired (log x') = fired (log x)).
Proof.
  intros [G1 G2 G3]. unfold loop_step. destruct (loops x !! k) as [p|] eqn:Hk; [|by intros [= <-]].
  assert (F := fun q => firing_insert k p q (loops x) Hk).
  destruct p; simpl in F.
  - intros [= <-]. specialize (F Head). simpl in F. plain G2 G3.
  - destruct (0 <? m_running x)%Z; [destruct (m_handler x) as [op|]; [|done]|]; intros [= <-].
    + specialize (F (Queued op (m_queue x) (m_interval x))). simpl in F. plain G2 G3.
    + specialize (F Ended). simpl in F. plain G2 G3.
  - destruct (m_cancelable x) eqn:Ec; intros [= <-].
    + specialize (F (next_place interval0)). rewrite next_place_idle in F.
      split; [split; simpl; rewrite ?Ec; try done; lia|]. simpl. by rewrite Ec.
    + specialize (F (Executing handler0 interval0)). simpl in F. specialize (G2 eq_refl).
      split; [split; simpl; try done; lia|done].
    + specialize (F (next_place interval0)). rewrite next_place_idle in F. specialize (G3 eq_refl).
      split; [split; simpl; rewrite ?Ec; try done; lia|]. simpl. by rewrite Ec.
  - intros [= <-]. specialize (F (next_place interval0)). rewrite next_place_idle in F. simpl.
    destruct (m_cancelable x) eqn:Ec; simpl.
    + split; [split; simpl; rewrite ?Ec; try done; lia|done].
    + specialize (G2 eq_refl). lia.
    + specialize (G3 eq_refl). split; [split; simpl; try done; lia|done].
  - intros [= <-]. specialize (F Head). simpl in F. plain G2 G3.
  - intros [= <-]. done.
Qed.

Lemma timer_act_good a x x' : good x -> act a x = Some x' ->
  good x' /\ m_running x' = balance a (m_running x) /\
  (m_cancelable x = active_disabled -> m_cancelable x' = active_disabled /\ fired (log x') = fired (log x)).
Proof.
  intros Hg. destruct a; simpl; try (intros [= <-]; by destruct Hg; repeat split).
  - intros [= <-]. destruct Hg as [G1 G2 G3]. unfold resume. simpl.
    assert (E : firing (if (m_running x + 1 =? 1)%Z then loops x ++ [Delayed] else loops x) = firing (loops x)).
    { destruct (_ =? _)%Z; [|done]. unfold firing. rewrite list.filter_app. by rewrite app_nil_r. }
    split; [split; simpl; by rewrite E|done].
  - by apply loop_step_good.
Qed.

Lemma timer_acts_good l : forall x x', good x -> acts l x = Some x' ->
  good x' /\ m_running x' = balances l (m_running x) /\
  (m_cancelable x = active_disabled -> m_cancelable x' = active_disabled /\ fired (log x') = fired (log x)).
Proof.
  induction l as [|a l IH]; intros x x' Hg; simpl; [by intros [= <-]|].
  destruct (act a x) as [x1|] eqn:E; [|done]. intros El.
  destruct (timer_act_good _ _ _ Hg E) as (H1 & H2 & H3). destruct (IH _ _ H1 El) as (H4 & H5 & H6).
  split; [done|]. rewrite <- H2. split; [done|]. intros Hd. destruct (H3 Hd). destruct H6; [done|].
  split; [done|congruence].
Qed.

Lemma make_timer_good q : good (make_timer q).
Proof. split; vm_compute; intros; lia || done. Qed.

Lemma loop_lookup k p x : k < length (loops x) -> <[k := p]> (loops x) !! k = Some p.
Proof. apply list_lookup_insert_eq. Qed.

(** A loop whose timer is neither running nor can be entered ends. *)
Lemma loop_ends k x p : loops x !! k = Some p -> m_running x = 0%Z -> m_cancelable x = active_disabled ->
  exists n x', n <= 4 /\ acts (replicate n (Loop k)) x = Some x' /\ loops x' !! k = Some Ended.
Proof.
  intros Hk Hr Hc. assert (Hlt : k < length (loops x)) by (by eapply lookup_lt_Some).
  assert (Hend : forall y, loops y !! k = Some Head -> m_running y = 0%Z -> k < length (loops y) ->
    exists y', acts [Loop k] y = Some y' /\ loops y' !! k = Some Ended).
  { intros y Hy Hm Hl. eexists. simpl. unfold loop_step. rewrite Hy, Hm. simpl.
    split; [reflexivity|]. simpl. by rewrite list_lookup_insert_eq. }
  assert (Hnext : forall i y, loops y !! k = Some (next_place i) -> m_running y = 0%Z ->
    m_cancelable y = active_disabled -> k < length (loops y) ->
    exists n y', n <= 2 /\ acts (replicate n (Loop k)) y = Some y' /\ loops y' !! k = Some Ended).
  { intros i y Hy Hm _ Hl. unfold next_place in Hy. destruct (0 <? i)%Z; [|exists 0, y; split; [lia|done]].
    destruct (Hend (with_loops (<[k := Head]> (loops y)) y)) as (y' & E & E'); simpl;
      [by apply list_lookup_insert_eq|done|by rewrite length_insert|].
    exists 2, y'. split; [lia|]. split; [|done]. simpl in *. unfold loop_step at 1. rewrite Hy. done. }
  destruct p as [| |op q i|op i| |].
  - destruct (Hend (with_loops (<[k := Head]> (loops x)) x)) as (y' & E & E'); simpl;
      [by apply list_lookup_insert_eq|done|by rewrite length_insert|].
    exists 2, y'. split; [lia|]. split; [|done]. simpl in *. unfold loop_step at 1. by rewrite Hk.
  - destruct (Hend x Hk Hr Hlt) as (y' & E & E'). exists 1, y'. split; [lia|done].
  - destruct (Hnext i (with_log Skipped (with_loops (<[k := next_place i]> (loops x)) x))) as (n & y' & Hn & E & E');
      simpl; [by apply list_lookup_insert_eq|done|done|by rewrite length_insert|].
    exists (S n), y'. split; [lia|]. split; [|done]. simpl. unfold loop_step. by rewrite Hk, Hc.
  - destruct (Hnext i (with_loops (<[k := next_place i]> (loops x)) x)) as (n & y' & Hn & E & E');
      simpl; [by apply list_lookup_insert_eq|done|done|by rewrite length_insert|].
    exists (S n), y'. split; [lia|]. split; [|done]. simpl. unfold loop_step. rewrite Hk. simpl. by rewrite Hc.
  - destruct (Hend (with_loops (<[k := Head]> (loops x)) x)) as (y' & E & E'); simpl;
      [by apply list_lookup_insert_eq|done|by rewrite length_insert|].
    exists 2, y'. split; [lia|]. split; [|done]. simpl in *. unfold loop_step at 1. by rewrite Hk.
  - exists 0, x. split; [lia|done].
Qed.

(** A cancelled timer never fires again, whatever is called on it afterwards, and
    each thread it has borrowed ends within four steps, handing it back to the
    pool. *)
Theorem timer_cancel_final q l x :
  acts l (make_timer q) = Some x ->
  (forall l' x', acts l' (cancel x) = Some x' -> fired (log x') = fired (log x)) /\
  (forall k, k < length (loops x) ->
     exists n x', n <= 4 /\ acts (replicate n (Loop k)) (cancel x) = Some x' /\ loops x' !! k = Some Ended).
Proof.
  intros Hl. destruct (timer_acts_good _ _ _ (make_timer_good q) Hl) as (Hg & _ & _). split.
  - intros l' x' Hl'. destruct (timer_act_good Cancel x (cancel x) Hg eq_refl) as (Hg' & _ & _).
    destruct (timer_acts_good _ _ _ Hg' Hl') as (_ & _ & H). by destruct (H eq_refl).
  - intros k Hk. apply lookup_lt_is_Some in Hk as [p Hk]. by apply (loop_ends k (cancel x) p).
Qed.

(** The handler of a timer never executes twice at the same time, however many
    loops have been started, and m_running is the balance of resume() and
    suspend() since the last cancel(). *)
Theorem timer_one_handler q l x :
  acts l (make_timer q) = Some x -> firing (loops x) <= 1 /\ m_running x = balances l 0.
Proof. intros Hl. destruct (timer_acts_good _ _ _ (make_timer_good q) Hl) as ([? _ _] & ? & _). done. Qed.

Definition only_resumed (a : action) : Prop := match a with Suspend | Cancel => False | _ => True end.

Lemma loop_step_length k x x' : loop_step k x = Some x' -> length (loops x') = length (loops x).
Proof.
  unfold loop_step. destruct (loops x !! k) as [[]|]; try (intros [= <-]; simpl; by rewrite ?length_insert).
  - destruct (0 <? m_running x)%Z; [destruct (m_handler x); [|done]|]; intros [= <-]; simpl; by rewrite length_insert.
  - destruct (m_cancelable x); intros [= <-]; simpl; by rewrite length_insert.
  - simpl. destruct (m_cancelable x); intros [= <-]; simpl; by rewrite length_insert.
Qed.

(** A timer that is never suspended borrows at most one thread, however often it
    is resumed. *)
Theorem timer_single_loop q l x :
  Forall only_resumed l -> acts l (make_timer q) = Some x -> length (loops x) <= 1.
Proof.
  intros Hl Hr.
  assert (H : (0 <= m_running x)%Z /\ length (loops x) <= 1 /\ (m_running x = 0%Z -> loops x = [])); [|tauto].
  assert (H0 : (0 <= m_running (make_timer q))%Z /\ length (loops (make_timer q)) <= 1 /\
    (m_running (make_timer q) = 0%Z -> loops (make_timer q) = [])) by (simpl; split_and!; done || lia).
  revert H0 Hr. generalize (make_timer q). induction Hl as [|a l Ha Hl IH]; intros y H0; simpl; [by intros [= <-]|].
  destruct (act a y) as [y'|] eqn:E; [|done]. apply IH. destruct H0 as (H1 & H2 & H3).
  destruct a; simpl in E; try done; try (injection E as <-; done).
  - injection E as <-. unfold resume. simpl. destruct (Z.eqb_spec (m_running y + 1) 1).
    + rewrite (H3 ltac:(lia)). simpl. split_and!; lia.
    + split_and!; [lia|done|lia].
  - pose proof (loop_step_length _ _ _ E) as El.
    assert (Em : m_running y' = m_running y).
    { revert E. unfold loop_step. destruct (loops y !! k) as [[]|]; try (by intros [= <-]).
      - destruct (0 <? m_running y)%Z; [destruct (m_handler y); [|done]|]; by intros [= <-].
      - destruct (m_cancelable y); by intros [= <-].
      - simpl. destruct (m_cancelable y); by intros [= <-]. }
    rewrite El, Em. split_and!; [done|done|]. intros Ez. rewrite (H3 Ez) in El. by destruct (loops y').
Qed.

(** The states an operation of after() goes through. *)
Definition delaying (op queue : nat) (s : timer_impl * delayed_operation) : Prop :=
  let (x, d) := s in
  m_interval x = 0%Z /\
  (((loops x = [Delayed] \/ loops x = [Head] \/ loops x = [Queued op queue 0%Z]) /\ fired (log x) = 0 /\
    m_running x = 1%Z /\ m_cancelable x = active_enabled /\ m_handler x = Some op /\ m_queue x = queue) \/
   ((loops x = [Executing op 0%Z] \/ loops x = [Ended]) /\ fired (log x) = 1)).

Lemma delays_delaying op queue s : delays op queue s -> delaying op queue s.
Proof.
  induction 1 as [|k x x' d H IH Hs|k x i d H IH Hk].
  - split; [done|]. left. split; [by left|done].
  - destruct IH as (Hi & IH). unfold loop_step in Hs.
    destruct IH as [(Hp & Hf & Hr & Hc & Hh & Hq)|(Hp & Hf)].
    + destruct Hp as [Hp|[Hp|Hp]]; rewrite Hp in Hs; (destruct k; [|by injection Hs as <-; split; [done|]; left; tauto]);
        simpl in Hs; rewrite ?Hr, ?Hc, ?Hh, ?Hi, ?Hq in Hs; simpl in Hs; injection Hs as <-;
        (split; [done|]); simpl.
      * left. tauto.
      * left. rewrite Hf. tauto.
      * right. rewrite Hf. tauto.
    + destruct Hp as [Hp|Hp]; rewrite Hp in Hs; (destruct k; [|by injection Hs as <-; split; [done|]; right; tauto]);
        simpl in Hs; [destruct (m_cancelable x)|]; injection Hs as <-; (split; [done|]); right; simpl; tauto.
  - destruct IH as (Hi & IH). destruct IH as [(Hp & _)|(Hp & Hf)].
    { exfalso. destruct Hp as [Hp|[Hp|Hp]]; rewrite Hp in Hk; by destruct k. }
    case_bool_decide; (split; [done|]); right; simpl; tauto.
Qed.

(** The operation given to after() of a queue executes exactly once: never twice,
    and its thread is at its end, with the operation executed on the queue, after
    at most four of its steps from any state it can be in. *)
Theorem delayed_executes_once op queue x d :
  delays op queue (x, d) ->
  fired (log x) <= 1 /\
  exists n x', n <= 4 /\ acts (replicate n (Loop 0)) x = Some x' /\ loops x' = [Ended] /\ fired (log x') = 1.
Proof.
  intros (Hi & H)%delays_delaying. destruct x as [itv qu h r c l lg]. simpl in *. subst itv.
  destruct H as [(Hp & Hf & -> & -> & -> & ->)|(Hp & Hf)]; (split; [lia|]).
  - destruct Hp as [-> |[-> | ->]]; [exists 4|exists 3|exists 2]; eexists; (split; [lia|split; [reflexivity|]]);
      simpl; by rewrite Hf.
  - destruct Hp as [-> | ->]; [exists 1|exists 0; eexists; split; [lia|split; [reflexivity|done]]].
    destruct c; eexists; (split; [lia|split; [reflexivity|done]]).
Qed.

(** ** Witnesses and traces *)
Definition periodic : list action := [Handler 7; Interval 5; Resume; Loop 0; Loop 0; Loop 0; Loop 0].

Lemma timer_cancel_final_witness : exists x, acts periodic (make_timer 1) = Some x /\
  (forall l' x', acts l' (cancel x) = Some x' -> fired (log x') = fired (log x)) /\
  (forall k, k < length (loops x) ->
     exists n x', n <= 4 /\ acts (replicate n (Loop k)) (cancel x) = Some x' /\ loops x' !! k = Some Ended).
Proof. eexists. split; [reflexivity|]. apply (timer_cancel_final 1 periodic). reflexivity. Defined.

Lemma timer_one_handler_witness : exists x, acts periodic (make_timer 1) = Some x /\
  firing (loops x) <= 1 /\ m_running x = balances periodic 0.
Proof. eexists. split; [reflexivity|]. apply (timer_one_handler 1 periodic). reflexivity. Defined.

Lemma timer_single_loop_witness : exists x, acts periodic (make_timer 1) = Some x /\ length (loops x) <= 1.
Proof.
  eexists. split; [reflexivity|]. apply (timer_single_loop 1 periodic); [by repeat constructor|reflexivity].
Defined.

Definition delayed_executing : timer_impl :=
  Timer 0 1 (Some 7) 1 active_running [Executing 7 0] [Fired 7 1; Resumed].

Lemma delayed_executing_reached : delays 7 1 (delayed_executing, DelayedOp true false).
Proof.
  assert (H : forall n x, acts (replicate n (Loop 0)) (create_and_dispatch 7 1).1 = Some x ->
    delays 7 1 (x, DelayedOp true false)); [|by apply (H 3)].
  intros n. assert (H0 := delays_start 7 1). revert H0. unfold create_and_dispatch. simpl.
  generalize (resume (handler 7 (make_timer 1))). induction n as [|n IH]; intros y Hy x; simpl; [by intros [= <-]|].
  destruct (loop_step 0 y) as [y'|] eqn:E; [|done]. apply IH. by apply (delays_loop 7 1 0 y).
Qed.

Lemma delayed_executes_once_witness :
  fired (log (cancel delayed_executing)) <= 1 /\
  exists n x', n <= 4 /\ acts (replicate n (Loop 0)) (cancel delayed_executing) = Some x' /\
    loops x' = [Ended] /\ fired (log x') = 1.
Proof.
  apply (delayed_executes_once 7 1 _ (DelayedOp false false)).
  exact (delays_call 7 1 0 delayed_executing 0 (DelayedOp true false) delayed_executing_reached eq_refl).
Defined.

(** Suspend() does not end the loop, it only lets it see that it should when it
    wakes up: a timer that is suspended and resumed while its loop sleeps has two
    loops from then on, and queues its handler twice per interval; a singleshot
    timer suspended and resumed before its delay has passed fires twice; and one
    that has fired does not fire again when it is resumed. *)
Theorem timer_resumed_twice :
  (exists x, acts (periodic ++ [Suspend; Resume; Loop 0; Loop 0; Loop 1; Loop 1]) (make_timer 1) = Some x /\
     loops x = [Queued 7 1 5; Queued 7 1 5] /\ m_running x = 1%Z) /\
  (exists x, acts ([Handler 7; Resume; Suspend; Resume] ++ replicate 4 (Loop 0) ++ replicate 4 (Loop 1)) (make_timer 1) = Some x /\
     fired (log x) = 2 /\ loops x = [Ended; Ended]) /\
  (exists x, acts ([Handler 7; Resume] ++ replicate 4 (Loop 0) ++ [Resume]) (make_timer 1) = Some x /\
     fired (log x) = 1 /\ loops x = [Ended] /\ m_running x = 2%Z).
Proof.
  assert (H : forall l (P : timer_impl -> Prop), match acts l (make_timer 1) with Some x => P x | None => False end ->
    exists x, acts l (make_timer 1) = Some x /\ P x).
  { intros l P. destruct (acts l (make_timer 1)) as [x|]; [by exists x|done]. }
  split_and!; apply H; vm_compute; by split_and!.
Qed.
End Timer.
