(* ===== verification/After.v ===== *)
(** * After: who owns the timer of after(), and when it is destroyed

    delayed_operation of src/naive/naive_operations.cpp, which after() of the naive queues
    uses, and waitable_queue::impl::after of src/waitable_queue.cpp, on the timer of
    src/naive/naive_timer.cpp.  The timer owns its handler, and the handler owns the
    timer: one of the two has to let go. *)
From S2P Require Import Prelude.

Module After.

(** How far the thread is that resume() has borrowed: it sleeps, has copied m_handler,
    has queued the operation that calls it, the handler is executing, has been executed,
    the barrier was completed, the body of the loop has been left, the thread is back. *)
Inductive place := Delayed | Copied | Queued | Executing | Completed | Left | Ended.

(** The shared_ptr there are.  To the timer: of after() itself, of the handler, and
    [this_ptr] of the borrowed thread.  To the handler: of after(), m_handler of the
    timer, and the copies of the borrowed thread and of the operation it has queued. *)
Record owners := Owners {
  local_timer : bool;
  handler_timer : bool;
  this_ptr : bool;
  local_op : bool;
  m_handler : bool;
  loop_op : bool;
  queued_op : bool;
  timer_alive : bool;
  op_alive : bool;
  loop : place;
  executed : nat
}.
#[export] Instance place_eq : EqDecision place.
Proof. solve_decision. Defined.
#[export] Instance owners_eq : EqDecision owners.
Proof. solve_decision. Defined.

Definition timer_used (s : owners) : bool := local_timer s || handler_timer s || this_ptr s.
Definition op_used (s : owners) : bool := local_op s || m_handler s || loop_op s || queued_op s.

(** An object nobody owns is destroyed, and lets go of what it owns. *)
Definition drop_timer (s : owners) : owners :=
  if timer_alive s && negb (timer_used s)
  then Owners (local_timer s) (handler_timer s) (this_ptr s) (local_op s) false (loop_op s) (queued_op s)
         false (op_alive s) (loop s) (executed s)
  else s.
Definition drop_op (s : owners) : owners :=
  if op_alive s && negb (op_used s)
  then Owners (local_timer s) false (this_ptr s) (local_op s) (m_handler s) (loop_op s) (queued_op s)
         (timer_alive s) false (loop s) (executed s)
  else s.
Definition collect (s : owners) : owners := drop_timer (drop_op (drop_timer s)).

(** after() has created the timer and its handler and has called resume().  When the
    timer was [moved] into a delayed_operation it has a reference to that left, and
    else to the timer. *)
Definition dispatched (moved : bool) : owners :=
  Owners (negb moved) true true moved true false false true true Delayed 0.

Inductive event := LeaveOp | LeaveTimer | Copy | Queue | Call | Return | DropQueued | LeaveBody | EndLoop.
Definition events : list event := [LeaveOp; LeaveTimer; Copy; Queue; Call; Return; DropQueued; LeaveBody; EndLoop].

Definition with_loop (p : place) (s : owners) : owners :=
  Owners (local_timer s) (handler_timer s) (this_ptr s) (local_op s) (m_handler s) (loop_op s) (queued_op s)
    (timer_alive s) (op_alive s) p (executed s).
Definition with_copies (a b : bool) (s : owners) : owners :=
  Owners (local_timer s) (handler_timer s) (this_ptr s) (local_op s) (m_handler s) a b
    (timer_alive s) (op_alive s) (loop s) (executed s).

(** delayed_operation cancels the timer and resets m_timer at the end of its call; the
    operation of waitable_queue::impl::after cancels it. *)
Definition handler_return (resets : bool) (s : owners) : owners :=
  Owners (local_timer s) (handler_timer s && negb resets) (this_ptr s) (local_op s) (m_handler s) (loop_op s) (queued_op s)
    (timer_alive s) (op_alive s) Completed (executed s).

Definition act (resets : bool) (e : event) (s : owners) : option owners :=
  match e, loop s with
  | LeaveOp, _ =>
      if local_op s then Some (collect (Owners (local_timer s) (handler_timer s) (this_ptr s) false (m_handler s) (loop_op s)
        (queued_op s) (timer_alive s) (op_alive s) (loop s) (executed s))) else None
  | LeaveTimer, _ =>
      if local_timer s then Some (collect (Owners false (handler_timer s) (this_ptr s) (local_op s) (m_handler s) (loop_op s)
        (queued_op s) (timer_alive s) (op_alive s) (loop s) (executed s))) else None
  | Copy, Delayed => Some (with_loop Copied (with_copies true false s))
  | Queue, Copied => Some (with_loop Queued (with_copies true true s))
  | Call, Queued => Some (Owners (local_timer s) (handler_timer s) (this_ptr s) (local_op s) (m_handler s) (loop_op s)
      (queued_op s) (timer_alive s) (op_alive s) Executing (S (executed s)))
  | Return, Executing => Some (collect (handler_return resets s))
  | DropQueued, (Completed | Left | Ended) =>
      if queued_op s then Some (collect (with_copies (loop_op s) false s)) else None
  | LeaveBody, Completed => Some (collect (with_loop Left (with_copies false (queued_op s) s)))
  | EndLoop, Left => Some (collect (Owners (local_timer s) (handler_timer s) false (local_op s) (m_handler s) (loop_op s)
      (queued_op s) (timer_alive s) (op_alive s) Ended (executed s)))
  | _, _ => None
  end.
Fixpoint acts (resets : bool) (l : list event) (s : owners) : option owners :=
  match l with
  | [] => Some s
  | e :: l => match act resets e s with Some s' => acts resets l s' | None => None end
  end.

(** ** All states there are *)
Definition nexts (resets : bool) (s : owners) : list owners := omap (fun e => act resets e s) events.
Fixpoint explore (fuel : nat) (resets : bool) (seen new : list owners) : list owners :=
  match fuel with
  | O => seen ++ new
  | S fuel =>
      let seen := seen ++ new in
      explore fuel resets seen (remove_dups (filter (fun s => s ∉ seen) (new ≫= nexts resets)))
  end.
(** Fourteen rounds are more than an execution has events. *)
Definition states (resets : bool) : list owners := explore 14 resets [] [dispatched resets].

Definition closed (resets : bool) (l : list owners) : bool :=
  forallb (fun s => forallb (fun s' => bool_decide (s' ∈ l)) (nexts resets s)) l.

Lemma closed_step resets l s e s' :
  closed resets l = true -> s ∈ l -> act resets e s = Some s' -> s' ∈ l.
Proof.
  unfold closed. rewrite forallb_forall. intros H Hs%list_elem_of_In E. specialize (H s Hs).
  rewrite forallb_forall in H. apply (bool_decide_eq_true_1 (s' ∈ l)), H, list_elem_of_In.
  unfold nexts. apply list_elem_of_omap. exists e. split; [|done]. by destruct e; unfold events; repeat constructor.
Qed.

Lemma states_closed resets : closed resets (states resets) = true.
Proof. destruct resets; vm_compute; reflexivity. Qed.
Lemma states_start resets : dispatched resets ∈ states resets.
Proof. apply (bool_decide_unpack (dispatched resets ∈ states resets)). destruct resets; vm_compute; exact I. Qed.

Lemma acts_within resets all l : closed resets all = true -> forall s s',
  s ∈ all -> acts resets l s = Some s' -> s' ∈ all.
Proof.
  intros Hc. induction l as [|e l IH]; intros s s' Hs E; simpl in E; [by simplify_eq|].
  destruct (act resets e s) as [s1|] eqn:Ea; [|done]. eapply IH; [|exact E]. by eapply closed_step.
Qed.

(** A property of all reachable states is one to be computed. *)
Lemma within_ind resets (P : owners -> bool) all l s :
  closed resets all = true -> dispatched resets ∈ all -> forallb P all = true ->
  acts resets l (dispatched resets) = Some s -> P s = true.
Proof.
  rewrite forallb_forall. intros Hc H0 H E. apply H, list_elem_of_In. by eapply acts_within.
Qed.
Lemma reachable_ind resets (P : owners -> bool) l s :
  forallb P (states resets) = true -> acts resets l (dispatched resets) = Some s -> P s = true.
Proof. exact (within_ind resets P (states resets) l s (states_closed resets) (states_start resets)). Qed.

Definition over (resets : bool) (s : owners) : bool := bool_decide (nexts resets s = []).
Lemma over_true resets s : (forall e, act resets e s = None) -> over resets s = true.
Proof.
  intros H. apply bool_decide_eq_true. unfold nexts. by induction events as [|e l IH]; simpl; [|rewrite H].
Qed.

Definition kept (s : owners) : bool := bool_decide (loop s = Ended) || timer_alive s && op_alive s.
Definition released (s : owners) : bool :=
  negb (over true s) || bool_decide (executed s = 1) && negb (timer_alive s || op_alive s).
Definition leaked (s : owners) : bool := timer_alive s && op_alive s.
Lemma all_checked : forallb (fun s => kept s && released s) (states true) && forallb leaked (states false) = true.
Proof. vm_compute. reflexivity. Qed.


(** after() of a waitable_queue: the handler never lets go of the timer, so that neither
    is ever destroyed, nor the queue that the timer owns. *)
Theorem waitable_after_leaks l s :
  acts false l (dispatched false) = Some s -> timer_alive s = true /\ op_alive s = true.
Proof.
  intros E. pose proof all_checked as Hc. apply andb_true_iff in Hc as [_ Hc].
  pose proof (reachable_ind false _ l s Hc E) as H. clear Hc. by apply andb_true_iff in H.
Qed.

(** An execution to its end: both have happened, and nothing is left to happen. *)
Definition finished (leave : event) : list event := [Copy; leave; Queue; Call; Return; LeaveBody; DropQueued; EndLoop].


Theorem waitable_after_leaks_witness :
  exists s, acts false (finished LeaveTimer) (dispatched false) = Some s /\ over false s = true /\ executed s = 1 /\
  timer_alive s = true /\ op_alive s = true.
Proof.
  eexists. split; [vm_compute; reflexivity|]. split; [vm_compute; reflexivity|]. split; [reflexivity|].
  apply (waitable_after_leaks (finished LeaveTimer)). vm_compute. reflexivity.
Defined.
End After.
