(* ===== verification/SocketNotifier.v ===== *)
(** * SocketNotifier: src/naive/naive_socket_notifier.cpp

    The notifier of the naive backend.  While it is resumed a thread borrowed from
    the pool waits with select() for its socket, queues the handler and waits for
    it; a cookie tells the thread that the notifier has been suspended since.  The
    socket itself is the environment: select() returns what the scheduler says. *)
From S2P Require Import Prelude Cancelable.

Module Notifier.
Import Cancel(active_state, active_disabled, active_enabled, active_running).

Inductive notifier_type := READ | WRITE.

(** Where a borrowed thread is: at the head of its loop, in select(), back from it
    with a result, waiting for the handler it has queued, seeing it execute, or
    at its end. *)
Inductive place :=
| Head
| Selecting
| Selected (res : Z)
| Queued (handler queue : nat)
| Executing (handler : nat)
| Ended.

(** The lambda of resume(), with the cookie it has captured. *)
Record worker := Worker { cookie : Z; at_ : place }.

Inductive event := Ready (c : Z) | Called (handler queue : nat) | Skipped.

Record socket_notifier_impl := Notifier {
  m_socket : Z;
  m_type : notifier_type;
  m_queue : nat;
  m_handler : option nat;
  m_resume_counter : Z;
  m_worker_cookie : Z;
  m_handler_cancelable : active_state;
  workers : list worker;
  log : list event
}.
Definition make_notifier (queue : nat) (socket : Z) (type : notifier_type) : socket_notifier_impl :=
  Notifier socket type queue None 0 0 active_enabled [] [].

Definition with_workers (l : list worker) (x : socket_notifier_impl) : socket_notifier_impl :=
  Notifier (m_socket x) (m_type x) (m_queue x) (m_handler x) (m_resume_counter x) (m_worker_cookie x)
           (m_handler_cancelable x) l (log x).
Definition with_cancelable (a : active_state) (x : socket_notifier_impl) : socket_notifier_impl :=
  Notifier (m_socket x) (m_type x) (m_queue x) (m_handler x) (m_resume_counter x) (m_worker_cookie x)
           a (workers x) (log x).
Definition with_counters (n c : Z) (x : socket_notifier_impl) : socket_notifier_impl :=
  Notifier (m_socket x) (m_type x) (m_queue x) (m_handler x) n c (m_handler_cancelable x) (workers x) (log x).
Definition with_log (e : event) (x : socket_notifier_impl) : socket_notifier_impl :=
  Notifier (m_socket x) (m_type x) (m_queue x) (m_handler x) (m_resume_counter x) (m_worker_cookie x)
           (m_handler_cancelable x) (workers x) (e :: log x).

Definition handler (op : nat) (x : socket_notifier_impl) : socket_notifier_impl :=
  Notifier (m_socket x) (m_type x) (m_queue x) (Some op) (m_resume_counter x) (m_worker_cookie x)
           (m_handler_cancelable x) (workers x) (log x).
Definition target_queue (q : nat) (x : socket_notifier_impl) : socket_notifier_impl :=
  Notifier (m_socket x) (m_type x) q (m_handler x) (m_resume_counter x) (m_worker_cookie x)
           (m_handler_cancelable x) (workers x) (log x).

Definition resume (x : socket_notifier_impl) : socket_notifier_impl :=
  if (m_resume_counter x <? 0)%Z then x
  else
    let x := with_counters (m_resume_counter x + 1) (m_worker_cookie x) x in
    if negb (m_resume_counter x =? 1)%Z then x
    else with_workers (workers x ++ [Worker (m_worker_cookie x) Head]) x.

Definition suspend (x : socket_notifier_impl) : socket_notifier_impl :=
  if (0 <? m_resume_counter x)%Z then
    let n := (m_resume_counter x - 1)%Z in
    with_counters n (if (n =? 0)%Z then m_worker_cookie x + 1 else m_worker_cookie x) x
  else x.

(** cancel(), up to waiting for a handler that is executing (see Cancelable). *)
Definition cancel (x : socket_notifier_impl) : socket_notifier_impl :=
  with_cancelable active_disabled (with_counters (-1) (m_worker_cookie x + 1) x).

Definition destroy (x : socket_notifier_impl) : socket_notifier_impl := suspend x.

Definition EBADF : Z := 9.

Definition move (k : nat) (w : worker) (p : place) (x : socket_notifier_impl) : socket_notifier_impl :=
  with_workers (<[k := Worker (cookie w) p]> (workers x)) x.

(** One step of worker [k]; [res] is what select() returns if it does; [None] is
    the call of a handler nobody has set. *)
Definition worker_step (k : nat) (res : Z) (x : socket_notifier_impl) : option socket_notifier_impl :=
  match workers x !! k with
  | Some w =>
      match at_ w with
      | Head => Some (move k w (if (cookie w =? m_worker_cookie x)%Z then Selecting else Ended) x)
      | Selecting => Some (move k w (Selected res) x)
      | Selected res =>
          if negb (cookie w =? m_worker_cookie x)%Z then Some (move k w Ended x)
          else if (EBADF =? res)%Z then Some (move k w Ended x)
          else if (res =? 0)%Z then Some (move k w Head x)
          else if (0 <? res)%Z then
            match m_handler x with
            | Some op => Some (with_log (Ready (cookie w)) (move k w (Queued op (m_queue x)) x))
            | None => None
            end
          else Some (move k w Head x)
      | Queued op q =>
          match m_handler_cancelable x with
          | active_enabled => Some (with_log (Called op q) (with_cancelable active_running (move k w (Executing op) x)))
          | _ => Some (with_log Skipped (move k w Head x))
          end
      | Executing op =>
          let x := move k w Head x in
          Some (match m_handler_cancelable x with active_running => with_cancelable active_enabled x | _ => x end)
      | Ended => Some x
      end
  | None => Some x
  end.

Definition socket (x : socket_notifier_impl) : Z := m_socket x.
Definition type (x : socket_notifier_impl) : notifier_type := m_type x.

Inductive action := Handler (op : nat) | TargetQueue (q : nat) | Resume | Suspend | Cancel | Step (k : nat) (res : Z).
Definition act (a : action) (x : socket_notifier_impl) : option socket_notifier_impl :=
  match a with
  | Handler op => Some (handler op x)
  | TargetQueue q => Some (target_queue q x)
  | Resume => Some (resume x)
  | Suspend => Some (suspend x)
  | Cancel => Some (cancel x)
  | Step k res => worker_step k res x
  end.
Fixpoint acts (l : list action) (x : socket_notifier_impl) : option socket_notifier_impl :=
  match l with
  | [] => Some x
  | a :: l => match act a x with Some x => acts l x | None => None end
  end.

(** ** The invariant *)

(** The workers that still take the notifier for theirs. *)
Definition current (x : socket_notifier_impl) : list worker :=
  filter (fun w => cookie w = m_worker_cookie x) (workers x).
Definition executing (p : place) : bool := match p with Executing _ => true | _ => false end.
Definition calls (l : list worker) : nat := length (filter (fun w => executing (at_ w) = true) l).
Fixpoint called (l : list event) : nat :=
  match l with [] => 0 | Called _ _ :: l => S (called l) | _ :: l => called l end.

Record good (x : socket_notifier_impl) : Prop := {
  g_current : length (current x) <= (if decide (0 < m_resume_counter x)%Z then 1 else 0);
  g_cookies : Forall (fun w => cookie w <= m_worker_cookie x)%Z (workers x);
  g_counter : (-1 <= m_resume_counter x)%Z;
  g_one : calls (workers x) <= 1;
  g_enabled : m_handler_cancelable x = active_enabled -> calls (workers x) = 0;
  g_running : m_handler_cancelable x = active_running -> calls (workers x) = 1;
  g_cancelled : m_resume_counter x = (-1)%Z -> m_handler_cancelable x = active_disabled
}.

Lemma moved_cookies c k w p l : l !! k = Some w ->
  length (filter (fun v => cookie v = c) (<[k := Worker (cookie w) p]> l)) = length (filter (fun v => cookie v = c) l).
Proof.
  intros Hk. rewrite <- (take_drop_middle l k w Hk) at 2.
  rewrite insert_take_drop by (by eapply lookup_lt_Some).
  rewrite !list.filter_app, !length_app, !filter_cons. simpl. by case_decide.
Qed.

Lemma moved_calls k w p l : l !! k = Some w ->
  calls (<[k := Worker (cookie w) p]> l) + (if executing (at_ w) then 1 else 0) =
  calls l + (if executing p then 1 else 0).
Proof.
  unfold calls. intros Hk. rewrite <- (take_drop_middle l k w Hk) at 2.
  rewrite insert_take_drop by (by eapply lookup_lt_Some).
  rewrite !list.filter_app, !length_app, !filter_cons. simpl.
  destruct (executing (at_ w)), (executing p); simpl; lia.
Qed.

Lemma move_good k w p x a : good x -> workers x !! k = Some w ->
  calls (workers x) - (if executing (at_ w) then 1 else 0) + (if executing p then 1 else 0) <= 1 ->
  (a = active_enabled -> calls (workers x) - (if executing (at_ w) then 1 else 0) + (if executing p then 1 else 0) = 0) ->
  (a = active_running -> calls (workers x) - (if executing (at_ w) then 1 else 0) + (if executing p then 1 else 0) = 1) ->
  (m_handler_cancelable x = active_disabled -> a = active_disabled) ->
  (executing (at_ w) = true -> calls (workers x) = 1) ->
  good (with_cancelable a (move k w p x)).
Proof.
  intros [G1 G2 G3 G4 G5 G6 G7] Hk H1 H2 H3 H4 H5. pose proof (moved_calls k w p _ Hk) as Hc.
  assert (Ec : calls (<[k := Worker (cookie w) p]> (workers x)) =
    calls (workers x) - (if executing (at_ w) then 1 else 0) + (if executing p then 1 else 0)).
  { destruct (executing (at_ w)); [specialize (H5 eq_refl)|]; lia. }
  split; simpl; rewrite ?Ec; try done; [| |by auto].
  - unfold current. simpl. rewrite (moved_cookies (m_worker_cookie x) k w p _ Hk). exact G1.
  - apply Forall_insert; [done|]. simpl. by eapply (Forall_lookup_1 (fun w => cookie w <= m_worker_cookie x)%Z).
Qed.

Lemma with_cancelable_same x : with_cancelable (m_handler_cancelable x) x = x.
Proof. by destruct x. Qed.

Lemma calls_one x k w : good x -> workers x !! k = Some w -> executing (at_ w) = true -> calls (workers x) = 1.
Proof.
  intros Hg Hk He. pose proof (g_one _ Hg). pose proof (moved_calls k w Ended _ Hk) as Hc. rewrite He in Hc.
  simpl in Hc. lia.
Qed.

Lemma move_plain k w p x : good x -> workers x !! k = Some w ->
  executing (at_ w) = false -> executing p = false -> good (move k w p x).
Proof.
  intros Hg Hk H1 H2. rewrite <- (with_cancelable_same (move k w p x)).
  pose proof Hg as [G1 G2 G3 G4 G5 G6 G7].
  apply move_good; rewrite ?H1, ?H2; try done; simpl; try lia.
  - intros He. specialize (G5 He). lia.
  - intros He. specialize (G6 He). lia.
Qed.

Lemma log_good e x : good x -> good (with_log e x).
Proof. intros []. by split. Qed.

Lemma worker_step_good k res x x' : good x -> worker_step k res x = Some x' -> good x'.
Proof.
  intros Hg. unfold worker_step. destruct (workers x !! k) as [w|] eqn:Hk; [|by intros [= <-]].
  destruct (at_ w) eqn:Ea.
  - intros [= <-]. apply move_plain; [done..|by rewrite Ea|by destruct (_ =? _)%Z].
  - intros [= <-]. apply move_plain; [done..|by rewrite Ea|done].
  - assert (H : forall p, executing p = false -> good (move k w p x)) by (intros; apply move_plain; by rewrite ?Ea).
    destruct (negb _); [intros [= <-]; by apply H|]. destruct (EBADF =? res0)%Z; [intros [= <-]; by apply H|].
    destruct (res0 =? 0)%Z; [intros [= <-]; by apply H|]. destruct (0 <? res0)%Z; [|intros [= <-]; by apply H].
    destruct (m_handler x); [|done]. intros [= <-]. by apply log_good, H.
  - assert (H : good (move k w Head x)) by (apply move_plain; by rewrite ?Ea).
    destruct (m_handler_cancelable x) eqn:Ec; intros [= <-]; [by apply log_good| |by apply log_good].
    apply log_good, move_good; rewrite ?Ea; simpl; try done; rewrite ?(g_enabled _ Hg Ec); done || lia || congruence.
  - assert (H1 : calls (workers x) = 1) by (apply (calls_one x k w Hg Hk); by rewrite Ea).
    intros [= <-].
    assert (H : forall a, a <> active_running -> (m_handler_cancelable x = active_disabled -> a = active_disabled) ->
      good (with_cancelable a (move k w Head x))).
    { intros a Ha Hd. apply move_good; rewrite ?Ea; simpl; rewrite ?H1; try done; lia. }
    simpl. destruct (m_handler_cancelable x) eqn:Ec.
    + rewrite <- (with_cancelable_same (move k w Head x)). simpl. rewrite Ec. by apply H.
    + pose proof (g_enabled _ Hg Ec). lia.
    + by apply H.
  - by intros [= <-].
Qed.

Lemma cookies_mono (l : list worker) c c' : Forall (fun w => cookie w <= c)%Z l -> (c <= c')%Z ->
  Forall (fun w => cookie w <= c')%Z l.
Proof. intros Hf Hc. induction Hf; constructor; [lia|done]. Qed.

Lemma filter_none (l : list worker) c c' : Forall (fun w => cookie w <= c)%Z l -> (c < c')%Z ->
  filter (fun w => cookie w = c') l = [].
Proof.
  intros Hf Hc. induction Hf as [|w l Hw Hf IH]; [done|]. rewrite filter_cons_False by lia. done.
Qed.

Lemma notifier_act_good a x x' : good x -> act a x = Some x' -> good x'.
Proof.
  intros Hg. destruct a; cbn [act].
  - intros [= <-]. by destruct Hg; split.
  - intros [= <-]. by destruct Hg; split.
  - intros [= <-]. unfold resume. pose proof Hg as [G1 G2 G3 G4 G5 G6 G7].
    destruct (Z.ltb_spec (m_resume_counter x) 0); [done|]. simpl.
    destruct (Z.eqb_spec (m_resume_counter x + 1) 1) as [E1|E1]; simpl.
    + split; simpl; try done; try lia.
      * rewrite decide_True by lia. unfold current in *. simpl. rewrite list.filter_app, length_app.
        rewrite decide_False in G1 by lia. rewrite filter_cons_True by done. simpl. lia.
      * apply Forall_app. split; [done|]. by repeat constructor.
      * unfold calls. rewrite list.filter_app. simpl. by rewrite app_nil_r.
      * unfold calls. rewrite list.filter_app. simpl. by rewrite app_nil_r.
      * unfold calls. rewrite list.filter_app. simpl. by rewrite app_nil_r.
    + split; simpl; try done; try lia. rewrite decide_True by lia. rewrite decide_True in G1 by lia. exact G1.
  - intros [= <-]. unfold suspend. destruct (Z.ltb_spec 0 (m_resume_counter x)); [|done].
    pose proof Hg as [G1 G2 G3 G4 G5 G6 G7]. split; simpl; try done; try lia.
    + unfold current. simpl. destruct (Z.eqb_spec (m_resume_counter x - 1) 0).
      * rewrite (filter_none _ (m_worker_cookie x)) by (done || lia). simpl. lia.
      * rewrite decide_True by lia. rewrite decide_True in G1 by lia. exact G1.
    + destruct (_ =? 0)%Z; [|done]. apply (cookies_mono _ (m_worker_cookie x)); [done|lia].
  - intros [= <-]. pose proof Hg as [G1 G2 G3 G4 G5 G6 G7]. split; simpl; try done.
    + unfold current. simpl. rewrite (filter_none _ (m_worker_cookie x)) by (done || lia). simpl. lia.
    + apply (cookies_mono _ (m_worker_cookie x)); [done|lia].
  - by apply worker_step_good.
Qed.

Lemma notifier_acts_good l : forall x x', good x -> acts l x = Some x' -> good x'.
Proof.
  induction l as [|a l IH]; intros x x' Hg; simpl; [by intros [= <-]|].
  destruct (act a x) as [x1|] eqn:E; [|done]. intros Hl. eapply IH; [|exact Hl]. by eapply notifier_act_good.
Qed.

Lemma make_notifier_good q s t : good (make_notifier q s t).
Proof. split; simpl; try done; try lia. unfold calls. simpl. lia. Qed.

Fixpoint ready (l : list event) : nat :=
  match l with [] => 0 | Ready _ :: l => S (ready l) | _ :: l => ready l end.

(** A worker whose cookie is stale queues nothing. *)
Lemma stale_step k res x x' : current x = [] -> worker_step k res x = Some x' -> ready (log x') = ready (log x).
Proof.
  intros Hc. unfold worker_step. destruct (workers x !! k) as [w|] eqn:Hk; [|by intros [= <-]].
  assert (Hs : (cookie w =? m_worker_cookie x)%Z = false).
  { apply Z.eqb_neq. intros E. apply list_elem_of_lookup_2 in Hk.
    assert (Hin : w ∈ current x) by (by apply list_elem_of_filter).
    rewrite Hc in Hin. by apply not_elem_of_nil in Hin. }
  rewrite Hs. simpl. destruct (at_ w); simpl; try (by intros [= <-]);
    destruct (m_handler_cancelable x); by intros [= <-].
Qed.

Definition over (x : socket_notifier_impl) : Prop :=
  good x /\ m_resume_counter x = (-1)%Z /\ m_handler_cancelable x = active_disabled.

Lemma over_act a x x' : over x -> act a x = Some x' ->
  over x' /\ ready (log x') = ready (log x) /\ called (log x') = called (log x).
Proof.
  intros (Hg & Hn & Hd) Ha. pose proof (notifier_act_good _ _ _ Hg Ha) as Hg'.
  assert (Hc : current x = []).
  { pose proof (g_current _ Hg) as Hc. rewrite decide_False in Hc by lia. by destruct (current x); [|simpl in Hc; lia]. }
  destruct a; cbn [act] in Ha.
  - injection Ha as <-. done.
  - injection Ha as <-. done.
  - injection Ha as <-. unfold resume in *. by rewrite Hn in *.
  - injection Ha as <-. unfold suspend in *. by rewrite Hn in *.
  - injection Ha as <-. done.
  - pose proof (stale_step _ _ _ _ Hc Ha) as Hr.
    enough (H : m_resume_counter x' = m_resume_counter x /\ m_handler_cancelable x' = active_disabled /\
      called (log x') = called (log x)).
    { destruct H as (H1 & H2 & H3). split_and!; [|done..]. split; [done|]. by rewrite H1. }
    revert Ha. unfold worker_step. destruct (workers x !! k) as [w|]; [|by intros [= <-]].
    destruct (at_ w); rewrite ?Hd; try (by intros [= <-]).
    + destruct (negb _); [by intros [= <-]|]. destruct (EBADF =? _)%Z; [by intros [= <-]|].
      destruct (_ =? 0)%Z; [by intros [= <-]|]. destruct (0 <? _)%Z; [|by intros [= <-]].
      destruct (m_handler x); [by intros [= <-]|done].
    + simpl. rewrite Hd. by intros [= <-].
Qed.


(** While a notifier is suspended none of its threads queues the handler, whatever
    select() returns to it; and after cancel() no handler is queued or begins,
    whatever is called on it afterwards. *)
Theorem notifier_silent q s t l x :
  acts l (make_notifier q s t) = Some x ->
  ((m_resume_counter x <= 0)%Z ->
     forall k res x', worker_step k res x = Some x' -> ready (log x') = ready (log x)) /\
  (forall l' x', acts l' (cancel x) = Some x' ->
     ready (log x') = ready (log x) /\ called (log x') = called (log x)).
Proof.
  intros Hl. pose proof (notifier_acts_good _ _ _ (make_notifier_good q s t) Hl) as Hg. split.
  - intros Hn k res x'. apply stale_step. pose proof (g_current _ Hg) as Hc.
    rewrite decide_False in Hc by lia. by destruct (current x); [|simpl in Hc; lia].
  - assert (H0 : over (cancel x)) by (split; [by apply (notifier_act_good Cancel x)|done]).
    intros l' x'. change (log x) with (log (cancel x)). revert H0. generalize (cancel x).
    induction l' as [|a l' IH]; intros y Hy; simpl; [by intros [= <-]|].
    destruct (act a y) as [y'|] eqn:E; [|done]. destruct (over_act _ _ _ Hy E) as (H1 & H2 & H3).
    intros El. destruct (IH _ H1 El). split; congruence.
Qed.

(** A socket that select() rejects is not noticed: select() returns -1 and leaves
    the reason in errno, and the code compares its result with EBADF.  However
    often select() fails the thread is back at the head of its loop, in the state
    it was in, without ever waiting. *)
Theorem notifier_bad_socket_spins k c x n :
  workers x !! k = Some (Worker c Head) -> c = m_worker_cookie x ->
  acts (concat (replicate n [Step k 0; Step k (-1); Step k 0])) x = Some x.
Proof.
  intros Hk ->. pose proof (lookup_lt_Some _ _ _ Hk) as Hlt.
  induction n as [|n IH]; [done|]. cbn [replicate concat app acts act].
  assert (E1 : worker_step k 0 x = Some (move k (Worker (m_worker_cookie x) Head) Selecting x)).
  { unfold worker_step. by rewrite Hk, Z.eqb_refl. }
  assert (E2 : worker_step k (-1) (move k (Worker (m_worker_cookie x) Head) Selecting x) =
    Some (move k (Worker (m_worker_cookie x) Head) (Selected (-1)) x)).
  { unfold worker_step. simpl. rewrite list_lookup_insert_eq by done. unfold move. simpl.
    by rewrite list_insert_insert_eq. }
  assert (E3 : worker_step k 0 (move k (Worker (m_worker_cookie x) Head) (Selected (-1)) x) = Some x).
  { unfold worker_step. simpl. rewrite list_lookup_insert_eq by done. simpl. rewrite Z.eqb_refl. simpl.
    unfold move. simpl. rewrite list_insert_insert_eq, list_insert_id by done. by destruct x. }
  by rewrite E1, E2, E3.
Qed.

(** ** Witnesses *)
Definition watched : list action := [Handler 7; Resume; Step 0 0; Step 0 1; Step 0 0; Step 0 0; Suspend; Resume].


Lemma notifier_silent_witness : exists x, acts watched (make_notifier 1 3 READ) = Some x /\
  forall l' x', acts l' (cancel x) = Some x' -> ready (log x') = ready (log x) /\ called (log x') = called (log x).
Proof. eexists. split; [reflexivity|]. apply (notifier_silent 1 3 READ watched). reflexivity. Defined.

Lemma notifier_bad_socket_spins_witness :
  acts (concat (replicate 50 [Step 0 0; Step 0 (-1); Step 0 0])) (resume (make_notifier 1 3 READ)) =
  Some (resume (make_notifier 1 3 READ)).
Proof. apply (notifier_bad_socket_spins 0 0%Z); reflexivity. Defined.
End Notifier.
