(* ===== verification/LibDispatch.v ===== *)
(** * LibDispatch: src/libdispatch

    What the classes of the libdispatch backend ask of libdispatch.  The library
    itself is not modelled: an operation of a class is the list of calls it makes,
    and what libdispatch calls back is the environment, which may call back each
    function that was handed over at any later time, each submitted one once. *)
From stdpp Require Import strings.
From S2P Require Import Prelude Conc Cancelable SocketNotifier.

Module LibDispatch.
Import Cancel(active_state, active_disabled, active_enabled, active_running).
Local Open Scope Z_scope.

(** ** Times *)
Definition NSEC_PER_SEC : Z := 1000000000.
Definition NSEC_PER_MSEC : Z := 1000000.
(** count() * NSEC_PER_MSEC: the factor is unsigned, and so is the product. *)
Definition nanoseconds (count : Z) : Z := wrap_u64 (count * NSEC_PER_MSEC).

(** DISPATCH_TIME_NOW, DISPATCH_TIME_FOREVER, dispatch_time(DISPATCH_TIME_NOW, delta) *)
Inductive dispatch_time := Now | Forever | In_ (delta : Z).
(** std::chrono::milliseconds::max() *)
Definition max_milliseconds : Z := 2 ^ 63 - 1.

(** ** What is asked of libdispatch *)
Inductive callback := run_wrap | run_wrap_delete | static_notifier_callback.
Inductive native_call :=
| Create (o : nat)
| Retain (o : nat)
| Release (o : nat)
| AsyncF (q wrap : nat) (f : callback)
| AfterF (t : dispatch_time) (q wrap : nat) (f : callback)
| ApplyF (times q wrap : nat)
| GroupAsyncF (g q wrap : nat) (f : callback)
| GroupNotifyF (g q wrap : nat) (f : callback)
| GroupWait (g : nat) (t : dispatch_time)
| SourceCancel (s : nat)
| SetTimer (s : nat) (start : dispatch_time) (interval leeway : Z)
| SetContext (s wrap : nat)
| SetContextThis (s : nat)       (* the notifier itself *)
| SetHandler (s : nat) (f : callback)
| SetTarget (s q : nat)
| Resume (s : nat)
| Suspend (s : nat).

(** An operation_wrap on the heap, and whether it has been deleted. *)
Record wrap := Wrap { w_type : nat; w_alive : bool }.

(** How the call of an operation ends. *)
Inductive outcome := Returns | Throws_std | Throws_other.
Inductive callback_result := Returned | Escaped.

Record state := State {
  next : nat;
  wraps : list wrap;
  calls : list native_call;      (* the latest first *)
  pending : list nat;            (* wraps handed over with run_wrap_delete and not called back yet *)
  executed : list (nat * option nat)   (* operations and their index, the latest first *)
}.
Definition init : state := State 0 [] [] [] [].

Definition call (c : native_call) (s : state) : state :=
  State (next s) (wraps s) (c :: calls s) (pending s) (executed s).
Definition create (s : state) : state * nat :=
  (State (S (next s)) (wraps s) (Create (next s) :: calls s) (pending s) (executed s), next s).
(** std::make_unique<operation_wrap>(op) *)
Definition make_wrap (op : nat) (s : state) : state * nat :=
  (State (next s) (wraps s ++ [Wrap op true]) (calls s) (pending s) (executed s), length (wraps s)).
Definition delete_wrap (w : nat) (s : state) : state :=
  State (next s) (alter (fun x => Wrap (w_type x) false) w (wraps s)) (calls s) (pending s) (executed s).
(** wrapper.release(): from now on the wrap belongs to the callback. *)
Definition release_to_native (w : nat) (s : state) : state :=
  State (next s) (wraps s) (calls s) (pending s ++ [w]) (executed s).
Definition execute (op : nat * option nat) (s : state) : state :=
  State (next s) (wraps s) (calls s) (pending s) (op :: executed s).

(** ** libdispatch_execution.cpp *)
Section execution.
Context (DEBUG : bool) (ends : nat * option nat -> outcome).

Definition run_wrapper (w : nat) (s : state) : fault + state * callback_result :=
  match wraps s !! w with
  | Some (Wrap op true) =>
      let s := execute (op, None) s in
      match ends (op, None) with
      | Returns => inr (s, Returned)
      | Throws_std => inr (s, Escaped)
      | Throws_other => if DEBUG then inr (s, Escaped) else inl Terminated
      end
  | _ => inl Undefined
  end.
(** The unique_ptr deletes the wrap when the function is left, either way. *)
Definition _xdispatch2_run_wrap_delete (w : nat) (s : state) : fault + state * callback_result :=
  match run_wrapper w s with inr (s, r) => inr (delete_wrap w s, r) | inl e => inl e end.
Definition _xdispatch2_run_wrap (w : nat) (s : state) : fault + state * callback_result := run_wrapper w s.
(** _xdispatch2_run_iter_wrap does not delete the wrap. *)
Definition _xdispatch2_run_iter_wrap (w index : nat) (s : state) : fault + state * callback_result :=
  match wraps s !! w with
  | Some (Wrap op true) =>
      let s := execute (op, Some index) s in
      match ends (op, Some index) with
      | Returns => inr (s, Returned)
      | Throws_std => inr (s, Escaped)
      | Throws_other => if DEBUG then inr (s, Escaped) else inl Terminated
      end
  | _ => inl Undefined
  end.
End execution.

(** ** object_scope_T *)
Record object_scope_T := Scope { m_object : option nat }.
Definition take (x : object_scope_T) : object_scope_T * option nat := (Scope None, m_object x).
Definition destroy_scope (x : object_scope_T) (s : state) : state :=
  match m_object x with Some o => call (Release o) s | None => s end.

(** ** queue_impl *)
Definition make_queue_impl (native : nat) (s : state) : state := call (Retain native) s.
Definition destroy_queue_impl (native : nat) (s : state) : state := call (Release native) s.
Definition queue_async (q op : nat) (s : state) : state :=
  let (s, w) := make_wrap op s in call (AsyncF q w run_wrap_delete) (release_to_native w s).
Definition queue_after (q : nat) (delay : Z) (op : nat) (s : state) : state :=
  let time := In_ (wrap_s64 (nanoseconds delay)) in
  let (s, w) := make_wrap op s in call (AfterF time q w run_wrap_delete) (release_to_native w s).
(** apply(): dispatch_apply_f calls back before it returns, in the order [order], and
    the wrap on the stack is gone then. *)
Definition queue_apply (run : nat -> nat -> state -> fault + state * callback_result)
    (q times op : nat) (order : list nat) (s : state) : fault + state :=
  let (s, w) := make_wrap op s in
  let s := call (ApplyF times q w) s in
  match foldl (fun s i => match s with inr s => match run w i s with inr (s, _) => inr s | inl e => inl e end
                                     | inl e => inl e end) (inr s) order with
  | inr s => inr (delete_wrap w s)
  | inl e => inl e
  end.
(** backend::create_serial_queue: dispatch_queue_create, the scope around it *)
Definition create_serial_queue (s : state) : state * nat :=
  let (s, native) := create s in
  let (scope, taken) := take (Scope (Some native)) in
  let s := make_queue_impl (default native taken) s in
  (destroy_scope scope s, native).
(** create_queue(native) *)
Definition create_queue (native : nat) (s : state) : state := make_queue_impl native s.

(** ** group_impl *)
Definition make_group_impl (native : nat) (s : state) : state := call (Retain native) s.
Definition destroy_group_impl (native : nat) (s : state) : state := call (Release native) s.
Definition group_async (g q op : nat) (s : state) : state :=
  let (s, w) := make_wrap op s in call (GroupAsyncF g q w run_wrap_delete) (release_to_native w s).
Definition group_notify (g q op : nat) (s : state) : state :=
  let (s, w) := make_wrap op s in call (GroupNotifyF g q w run_wrap_delete) (release_to_native w s).
Definition group_wait_time (timeout : Z) : dispatch_time :=
  if timeout =? max_milliseconds then Forever
  else if timeout =? 0 then Now
  else In_ (wrap_s64 (nanoseconds timeout)).
Definition group_wait (g : nat) (timeout : Z) (s : state) : state := call (GroupWait g (group_wait_time timeout)) s.
Definition create_group (native : nat) (s : state) : state := make_group_impl native s.

(** ** timer_impl *)
Inductive timer_precision := COARSE | DEFAULT | PRECISE.
Record timer_impl := Timer {
  t_native : nat;
  m_interval : Z;
  m_latency : Z;
  m_delay : dispatch_time;
  m_wrapper : option nat
}.
Definition make_timer_impl (native : nat) (s : state) : state * timer_impl :=
  (call (Retain native) s, Timer native 0 0 Now None).
Definition delete_wrapper (t : timer_impl) (s : state) : state :=
  match m_wrapper t with Some w => delete_wrap w s | None => s end.
(** The destructor, then those of the members. *)
Definition destroy_timer_impl (t : timer_impl) (s : state) : state :=
  delete_wrapper t (call (Release (t_native t)) (call (SourceCancel (t_native t)) s)).

Definition set_timer (t : timer_impl) (s : state) : state * timer_impl :=
  (call (SetTimer (t_native t) (m_delay t) (m_interval t) (m_latency t)) s, t).
Definition interval (interval : Z) (t : timer_impl) (s : state) : state * timer_impl :=
  let i := nanoseconds interval in
  set_timer (Timer (t_native t) i (m_latency t) (In_ (wrap_s64 i)) (m_wrapper t)) s.
Definition latency (precision : timer_precision) (t : timer_impl) (s : state) : state * timer_impl :=
  let l := match precision with COARSE => NSEC_PER_SEC | DEFAULT => 5 * NSEC_PER_MSEC | PRECISE => 0 end in
  set_timer (Timer (t_native t) (m_interval t) l (m_delay t) (m_wrapper t)) s.
(** handler(), in its two steps: the assignment deletes the wrap there was before the
    context of the source is the new one. *)
Definition handler_assign (op : nat) (t : timer_impl) (s : state) : state * timer_impl :=
  let (s, w) := make_wrap op s in
  (delete_wrapper t s, Timer (t_native t) (m_interval t) (m_latency t) (m_delay t) (Some w)).
Definition handler_set (t : timer_impl) (s : state) : state :=
  call (SetHandler (t_native t) run_wrap)
    (match m_wrapper t with Some w => call (SetContext (t_native t) w) s | None => s end).
Definition handler (op : nat) (t : timer_impl) (s : state) : state * timer_impl :=
  let (s, t) := handler_assign op t s in (handler_set t s, t).
Definition target_queue (q : nat) (t : timer_impl) (s : state) : state * timer_impl :=
  (call (SetTarget (t_native t) q) s, t).
Definition resume (delay : Z) (t : timer_impl) (s : state) : state * timer_impl :=
  let d := if delay =? 0 then Now else In_ (wrap_s64 (nanoseconds delay)) in
  let (s, t) := set_timer (Timer (t_native t) (m_interval t) (m_latency t) d (m_wrapper t)) s in
  (call (Resume (t_native t)) s, t).
Definition suspend (t : timer_impl) (s : state) : state * timer_impl := (call (Suspend (t_native t)) s, t).
Definition cancel (t : timer_impl) (s : state) : state * timer_impl := (call (SourceCancel (t_native t)) s, t).
(** backend::create_timer *)
Definition create_timer (q : nat) (s : state) : state * timer_impl :=
  let (s, native) := create s in
  let (scope, taken) := take (Scope (Some native)) in
  let (s, t) := make_timer_impl (default native taken) s in
  (destroy_scope scope s, t).

(** The context of the source: what libdispatch calls the handler with. *)
Fixpoint context (o : nat) (l : list native_call) : option nat :=
  match l with
  | [] => None
  | SetContext s w :: l => if decide (s = o) then Some w else context o l
  | _ :: l => context o l
  end.

Inductive timer_action :=
| TInterval (i : Z) | TLatency (p : timer_precision) | THandler (op : nat) | TTarget (q : nat)
| TResume (delay : Z) | TSuspend | TCancel
| TFire.   (* libdispatch calls the handler of the source, where one is set *)
Definition timer_act (DEBUG : bool) (ends : nat * option nat -> outcome) (a : timer_action) (t : timer_impl) (s : state)
    : fault + state * timer_impl :=
  match a with
  | TInterval i => inr (interval i t s)
  | TLatency p => inr (latency p t s)
  | THandler op => inr (handler op t s)
  | TTarget q => inr (target_queue q t s)
  | TResume d => inr (resume d t s)
  | TSuspend => inr (suspend t s)
  | TCancel => inr (cancel t s)
  | TFire =>
      match context (t_native t) (calls s) with
      | Some w => match _xdispatch2_run_wrap DEBUG ends w s with inr (s, _) => inr (s, t) | inl e => inl e end
      | None => inr (s, t)
      end
  end.
Fixpoint timer_acts DEBUG ends (l : list timer_action) (t : timer_impl) (s : state) : fault + state * timer_impl :=
  match l with
  | [] => inr (s, t)
  | a :: l => match timer_act DEBUG ends a t s with inr (s, t) => timer_acts DEBUG ends l t s | inl e => inl e end
  end.

(** ** socket_notifier_impl *)
Record socket_notifier_impl := Notifier_ {
  m_queue : nat;
  m_socket : Z;
  m_type : Notifier.notifier_type;
  n_native : nat;
  m_active : active_state;
  m_notifier_operation : option nat;
  called : list nat          (* the operations executed, the latest first *)
}.
Definition make_notifier (queue : nat) (socket : Z) (type : Notifier.notifier_type) (s : state)
    : state * socket_notifier_impl :=
  let (s, native) := create s in (s, Notifier_ queue socket type native active_enabled None []).
Definition destroy_notifier (n : socket_notifier_impl) (s : state) : state :=
  call (Release (n_native n)) (call (SourceCancel (n_native n)) (call (Resume (n_native n)) s)).
(** notifier_callback, with what dispatch_source_get_data says; nobody else is inside
    the cancelable, for a source never calls its handler twice at once. *)
Definition notifier_callback (available : Z) (n : socket_notifier_impl) : socket_notifier_impl :=
  if match m_type n with Notifier.WRITE => available =? 0 | Notifier.READ => false end then n
  else match m_active n, m_notifier_operation n with
       | active_enabled, Some op =>
           Notifier_ (m_queue n) (m_socket n) (m_type n) (n_native n) (m_active n) (m_notifier_operation n) (op :: called n)
       | _, _ => n
       end.
Definition n_handler (op : nat) (n : socket_notifier_impl) (s : state) : state * socket_notifier_impl :=
  (call (SetHandler (n_native n) static_notifier_callback) (call (SetContextThis (n_native n)) s),
   Notifier_ (m_queue n) (m_socket n) (m_type n) (n_native n) (m_active n) (Some op) (called n)).
Definition n_target_queue (q : nat) (n : socket_notifier_impl) (s : state) : state * socket_notifier_impl :=
  (call (SetTarget (n_native n) q) s,
   Notifier_ q (m_socket n) (m_type n) (n_native n) (m_active n) (m_notifier_operation n) (called n)).
Definition n_resume (n : socket_notifier_impl) (s : state) : state := call (Resume (n_native n)) s.
Definition n_suspend (n : socket_notifier_impl) (s : state) : state := call (Suspend (n_native n)) s.
Definition n_cancel (n : socket_notifier_impl) (s : state) : state * socket_notifier_impl :=
  (call (SourceCancel (n_native n)) s,
   Notifier_ (m_queue n) (m_socket n) (m_type n) (n_native n) active_disabled (m_notifier_operation n) (called n)).

Inductive notifier_action :=
| NHandler (op : nat) | NTarget (q : nat) | NResume | NSuspend | NCancel
| NFire (available : Z).    (* libdispatch calls the handler *)
Definition notifier_act (a : notifier_action) (n : socket_notifier_impl) (s : state) : state * socket_notifier_impl :=
  match a with
  | NHandler op => n_handler op n s
  | NTarget q => n_target_queue q n s
  | NResume => (n_resume n s, n)
  | NSuspend => (n_suspend n s, n)
  | NCancel => n_cancel n s
  | NFire available => (s, notifier_callback available n)
  end.
Definition notifier_acts (l : list notifier_action) (n : socket_notifier_impl) (s : state) : state * socket_notifier_impl :=
  foldl (fun '(s, n) a => notifier_act a n s) (s, n) l.

(** ** What is counted *)
(** The references to [o] that are still to be released, and how often [o] is
    suspended: a source is when it is created. *)
Definition reference (o : nat) (c : native_call) : Z :=
  match c with
  | Create p | Retain p => if decide (p = o) then 1 else 0
  | Release p => if decide (p = o) then -1 else 0
  | _ => 0
  end.
Definition references (o : nat) (l : list native_call) : Z := foldr (fun c z => reference o c + z) 0 l.
Definition suspension (o : nat) (c : native_call) : Z :=
  match c with
  | Suspend p => if decide (p = o) then 1 else 0
  | Resume p => if decide (p = o) then -1 else 0
  | _ => 0
  end.
Definition suspensions (o : nat) (l : list native_call) : Z := foldr (fun c z => suspension o c + z) 1 l.

(** ** The users of queues and groups, and libdispatch calling back *)
Inductive action :=
| Async (q op : nat) | After (q : nat) (delay : Z) (op : nat)
| GroupAsync (g q op : nat) | GroupNotify (g q op : nat)
| Called (k : nat).    (* the k-th of the wraps that are pending *)
Definition submitted (a : action) : option nat :=
  match a with
  | Async _ op | After _ _ op | GroupAsync _ _ op | GroupNotify _ _ op => Some op
  | Called _ => None
  end.
Definition act (DEBUG : bool) (ends : nat * option nat -> outcome) (a : action) (s : state) : fault + state :=
  match a with
  | Async q op => inr (queue_async q op s)
  | After q delay op => inr (queue_after q delay op s)
  | GroupAsync g q op => inr (group_async g q op s)
  | GroupNotify g q op => inr (group_notify g q op s)
  | Called k =>
      match pending s !! k with
      | Some w =>
          let s := State (next s) (wraps s) (calls s) (delete k (pending s)) (executed s) in
          match _xdispatch2_run_wrap_delete DEBUG ends w s with inr (s, _) => inr s | inl e => inl e end
      | None => inr s
      end
  end.
Fixpoint acts DEBUG ends (l : list action) (s : state) : fault + state :=
  match l with
  | [] => inr s
  | a :: l => match act DEBUG ends a s with inr s => acts DEBUG ends l s | inl e => inl e end
  end.

(** ** Times *)



(** ** Ownership of the wraps *)
Definition type_of (s : state) (w : nat) : nat := match wraps s !! w with Some x => w_type x | None => 0%nat end.

Record owned (subs : list nat) (s : state) : Prop := {
  o_nodup : NoDup (pending s);
  o_alive : forall w x, wraps s !! w = Some x -> (w_alive x = true <-> w ∈ pending s);
  o_bound : Forall (fun w => (w < length (wraps s))%nat) (pending s);
  o_accounts : subs ≡ₚ map fst (executed s) ++ map (type_of s) (pending s)
}.

Lemma type_of_delete w u s : type_of (delete_wrap u s) w = type_of s w.
Proof.
  unfold type_of, delete_wrap. simpl. destruct (decide (w = u)) as [-> |Hn].
  - rewrite list_lookup_alter_eq. by destruct (wraps s !! u).
  - by rewrite list_lookup_alter_ne.
Qed.

(** Handing a new wrap over. *)
Lemma owned_submit subs op s s' w c : owned subs s -> make_wrap op s = (s', w) ->
  owned (op :: subs) (call c (release_to_native w s')).
Proof.
  intros [H1 H2 H3 H4] [= <- <-].
  assert (Hw : length (wraps s) ∉ pending s).
  { intros Hin. rewrite list.Forall_forall in H3. specialize (H3 _ Hin). lia. }
  assert (Ht : map (fun w => match (wraps s ++ [Wrap op true]) !! w with Some x => w_type x | None => 0%nat end) (pending s) =
    map (type_of s) (pending s)).
  { apply list_fmap_ext. intros i w Hi. unfold type_of. rewrite lookup_app_l; [done|].
    rewrite list.Forall_forall in H3. apply H3. by eapply list_elem_of_lookup_2. }
  split; simpl.
  - apply list.NoDup_app. split; [done|]. split; [|apply list.NoDup_singleton]. intros u Hu Hs. apply list_elem_of_singleton in Hs. by subst u.
  - intros u x Hu. rewrite elem_of_app, list_elem_of_singleton. destruct (decide (u = length (wraps s))) as [-> |Hn].
    + rewrite list_lookup_middle in Hu by done. injection Hu as <-. simpl. tauto.
    + assert (Hl : (u < length (wraps s))%nat).
      { pose proof (lookup_lt_Some _ _ _ Hu) as Hl. rewrite length_app in Hl. simpl in Hl. lia. }
      rewrite lookup_app_l in Hu by done. rewrite (H2 u x Hu). tauto.
  - apply Forall_app. rewrite length_app. simpl. split; [|constructor; [lia|done]].
    eapply list.Forall_impl; [exact H3|]. simpl. lia.
  - unfold type_of. simpl. rewrite map_app. simpl. rewrite Ht, list_lookup_middle by done. simpl.
    rewrite H4. rewrite app_assoc. apply Permutation_cons_append.
Qed.

(** libdispatch calling one back. *)
Lemma owned_called DEBUG ends subs k w s : owned subs s -> pending s !! k = Some w ->
  match _xdispatch2_run_wrap_delete DEBUG ends w
          (State (next s) (wraps s) (calls s) (delete k (pending s)) (executed s)) with
  | inr (s', _) => owned subs s'
  | inl e => e = Terminated
  end.
Proof.
  intros [H1 H2 H3 H4] Hk. pose proof (list_elem_of_lookup_2 _ _ _ Hk) as Hin.
  assert (Hl : (w < length (wraps s))%nat) by (rewrite list.Forall_forall in H3; by apply H3).
  destruct (lookup_lt_is_Some_2 _ _ Hl) as [[op alive] Hx].
  pose proof (proj2 (H2 _ _ Hx) Hin) as Ha. simpl in Ha. subst alive.
  assert (Hdel : forall u, u ∈ delete k (pending s) <-> u ∈ pending s /\ u <> w).
  { intros u. rewrite delete_take_drop. rewrite <- (take_drop_middle _ _ _ Hk) in H1. rewrite <- (take_drop_middle _ _ _ Hk) at 3.
    rewrite !elem_of_app, elem_of_cons. apply list.NoDup_app in H1 as (N1 & N2 & N3). apply list.NoDup_cons in N3 as [N3 _].
    specialize (N2 w). rewrite elem_of_cons in N2. split; [|naive_solver].
    intros [Hu|Hu]; (split; [tauto|]); intros ->; [apply (N2 Hu); by left|done]. }
  assert (Hperm : pending s ≡ₚ w :: delete k (pending s)) by (by apply delete_Permutation).
  assert (Howned : owned subs (delete_wrap w (execute (op, None)
      (State (next s) (wraps s) (calls s) (delete k (pending s)) (executed s))))).
  { split; simpl.
    - rewrite Hperm in H1. by apply list.NoDup_cons in H1 as [_ H1].
    - intros u x Hu. rewrite Hdel. destruct (decide (u = w)) as [-> |Hn].
      + rewrite list_lookup_alter_eq, Hx in Hu. injection Hu as <-. simpl. naive_solver.
      + rewrite list_lookup_alter_ne in Hu by done. rewrite (H2 u x Hu). tauto.
    - rewrite length_alter. rewrite Hperm in H3. by apply list.Forall_cons in H3 as [_ H3].
    - rewrite H4. rewrite Hperm at 1. simpl. unfold type_of at 1. rewrite Hx. simpl.
      rewrite <- Permutation_middle. f_equiv. f_equiv.
      match goal with |- map ?f ?l ≡ₚ map ?g ?l => enough (E : map f l = map g l) by (by rewrite E) end.
      apply list_fmap_ext. intros i u _. symmetry. exact (type_of_delete u w _). }
  unfold _xdispatch2_run_wrap_delete, run_wrapper. simpl. rewrite Hx. simpl.
  destruct (ends (op, None)); [exact Howned..|]. destruct DEBUG; [exact Howned|done].
Qed.

Lemma acts_owned DEBUG ends l : forall subs s, owned subs s ->
  match acts DEBUG ends l s with
  | inr s' => owned (rev (omap submitted l) ++ subs) s'
  | inl e => e = Terminated
  end.
Proof.
  induction l as [|a l IH]; intros subs s Ho; [done|]. cbn [acts].
  assert (H : match act DEBUG ends a s with
              | inr s' => owned (match submitted a with Some op => op :: subs | None => subs end) s'
              | inl e => e = Terminated end).
  { destruct a as [q op|q d op|g q op|g q op|k]; simpl.
    1, 3, 4: apply (owned_submit subs op s); [done|reflexivity].
    - unfold queue_after. simpl. apply (owned_submit subs op s); [done|reflexivity].
    - destruct (pending s !! k) as [w|] eqn:Hk; [|done].
      pose proof (owned_called DEBUG ends subs k w s Ho Hk) as Hc.
      destruct (_xdispatch2_run_wrap_delete _ _ _ _) as [e|[s' r]]; done. }
  destruct (act DEBUG ends a s) as [e|s']; [done|]. specialize (IH _ _ H).
  destruct (acts DEBUG ends l s') as [e|s'']; [done|]. simpl. destruct (submitted a) as [op|]; simpl; [|done].
  by rewrite <- app_assoc.
Qed.


(** ** References *)
Lemma timer_act_calls DEBUG ends a t s s' t' : timer_act DEBUG ends a t s = inr (s', t') ->
  t_native t' = t_native t /\
  exists l, calls s' = l ++ calls s /\ Forall (fun c => forall o, reference o c = 0) l.
Proof.
  assert (H : forall l, Forall (fun c => forall o, reference o c = 0) l ->
    exists k, l ++ calls s = k ++ calls s /\ Forall (fun c => forall o, reference o c = 0) k) by (intros l; by exists l).
  destruct a as [i|p|op|q|d| | |]; simpl; try (intros [= <- <-]; split; [done|]; simpl).
  - apply (H [_]). by repeat constructor.
  - apply (H [_]). by repeat constructor.
  - unfold delete_wrapper. destruct (m_wrapper t); apply (H [_; _]); by repeat constructor.
  - apply (H [_]). by repeat constructor.
  - apply (H [_; _]). by repeat constructor.
  - apply (H [_]). by repeat constructor.
  - apply (H [_]). by repeat constructor.
  - destruct (context (t_native t) (calls s)) as [w|]; [|intros [= <- <-]; split; [done|apply (H []); constructor]].
    unfold _xdispatch2_run_wrap, run_wrapper. destruct (wraps s !! w) as [[op []]|]; try done.
    destruct (ends (op, None)); [| |destruct DEBUG; [|done]]; intros [= <- <-]; (split; [done|apply (H []); constructor]).
Qed.

Lemma references_none o l r : Forall (fun c => forall o, reference o c = 0) l -> references o (l ++ r) = references o r.
Proof.
  unfold references. induction 1 as [|c l Hc Hl IH]; [done|]. cbn [app foldr]. rewrite Hc. lia.
Qed.

Lemma timer_acts_references DEBUG ends o l : forall t s s' t', timer_acts DEBUG ends l t s = inr (s', t') ->
  t_native t' = t_native t /\ references o (calls s') = references o (calls s).
Proof.
  induction l as [|a l IH]; intros t s s' t'; simpl; [by intros [= <- <-]|].
  destruct (timer_act DEBUG ends a t s) as [e|[s1 t1]] eqn:E; [done|]. intros Hl.
  destruct (timer_act_calls _ _ _ _ _ _ _ E) as (E1 & k & E2 & Hk). destruct (IH _ _ _ _ Hl) as [E3 E4].
  split; [congruence|]. rewrite E4, E2. by apply references_none.
Qed.

(** Queues and groups made around a native object give back the reference they take.
    A serial queue and a timer of the backend do not: the scope around the new
    object is emptied instead of destroyed, the implementation takes a reference
    of its own and releases only that, so that each queue and each timer leaves
    its native object behind, whatever was done with it. *)
Theorem references_left DEBUG ends l q s :
  references q (calls (destroy_queue_impl q (create_queue q s))) = references q (calls s) /\
  references q (calls (destroy_group_impl q (create_group q s))) = references q (calls s) /\
  (let '(s', native) := create_serial_queue s in
   references native (calls (destroy_queue_impl native s')) = references native (calls s) + 1) /\
  (let '(s', t) := create_timer q s in
   match timer_acts DEBUG ends l t s' with
   | inr (s'', t') => references (t_native t) (calls (destroy_timer_impl t' s'')) = references (t_native t) (calls s) + 1
   | inl _ => True
   end).
Proof.
  split; [simpl; rewrite !decide_True by done; lia|]. split; [simpl; rewrite !decide_True by done; lia|].
  split; [simpl; rewrite !decide_True by done; lia|].
  destruct (create_timer q s) as [s' t] eqn:E. destruct (timer_acts DEBUG ends l t s') as [|[s'' t']] eqn:El; [done|].
  destruct (timer_acts_references _ _ (t_native t) _ _ _ _ _ El) as [E1 E2].
  injection E as <- <-. simpl in *. unfold destroy_timer_impl, delete_wrapper.
  destruct (m_wrapper t'); simpl; rewrite E1, !decide_True by done; unfold references in *; rewrite E2; simpl;
    rewrite !decide_True by done; lia.
Qed.

(** ** The notifier *)
Definition resumes (a : notifier_action) : Z := match a with NResume => 1 | NSuspend => -1 | _ => 0 end.
Definition resumed (l : list notifier_action) : Z := foldr (fun a z => resumes a + z) 0 l.

Lemma notifier_act_suspensions a n s : let '(s', n') := notifier_act a n s in
  n_native n' = n_native n /\
  suspensions (n_native n) (calls s') = suspensions (n_native n) (calls s) - resumes a.
Proof.
  destruct a; simpl; rewrite ?decide_True by done; try (split; [done|lia]).
  unfold notifier_callback. destruct (match m_type n with Notifier.READ => _ | Notifier.WRITE => _ end);
    [split; [done|lia]|]. destruct (m_active n), (m_notifier_operation n); (split; [done|lia]).
Qed.

Lemma notifier_acts_suspensions l : forall n s, let '(s', n') := notifier_acts l n s in
  n_native n' = n_native n /\
  suspensions (n_native n) (calls s') = suspensions (n_native n) (calls s) - resumed l.
Proof.
  induction l as [|a l IH]; intros n s; [simpl; split; [done|lia]|]. unfold notifier_acts in *. simpl.
  pose proof (notifier_act_suspensions a n s) as Ha. destruct (notifier_act a n s) as [s1 n1].
  destruct Ha as [E1 E2]. specialize (IH n1 s1). destruct (foldl _ _ l) as [s2 n2]. destruct IH as [E3 E4].
  rewrite E1 in *. split; [done|]. rewrite E4, E2. lia.
Qed.

(** The destructor of a notifier resumes the source once more.  That brings one that
    is suspended, as it was created, to be resumed before it is released; but a
    notifier that has been resumed and not suspended has resumed its source more
    often than it was suspended, which libdispatch forbids, when it is destroyed,
    cancelled or not. *)
Theorem notifier_over_resume queue socket type l :
  let '(s, n) := make_notifier queue socket type init in
  let '(s', n') := notifier_acts l n s in
  suspensions (n_native n') (calls s') = 1 - resumed l /\
  suspensions (n_native n') (calls (destroy_notifier n' s')) = - resumed l /\
  references (n_native n) (calls (destroy_notifier n s)) = 0.
Proof.
  destruct (make_notifier queue socket type init) as [s n] eqn:E.
  pose proof (notifier_acts_suspensions l n s) as H. destruct (notifier_acts l n s) as [s' n']. destruct H as [E1 E2].
  injection E as <- <-. simpl in *. rewrite E1, !decide_True by done. unfold suspensions in *. rewrite E2. lia.
Qed.

Lemma notifier_callback_native a n : m_active (notifier_callback a n) = m_active n /\
  (m_active n = active_disabled -> called (notifier_callback a n) = called n).
Proof.
  unfold notifier_callback. destruct (match m_type n with Notifier.READ => _ | Notifier.WRITE => _ end); [done|].
  by destruct (m_active n) eqn:E, (m_notifier_operation n).
Qed.

(** A notifier of libdispatch executes nothing any more once it is cancelled,
    whatever is called on it and however often libdispatch calls back; and while it
    writes it executes nothing when the socket takes nothing. *)
Theorem notifier_native_silent l n s :
  called (notifier_acts l (n_cancel n s).2 (n_cancel n s).1).2 = called n /\
  (m_type n = Notifier.WRITE -> notifier_callback 0 n = n).
Proof.
  split.
  - unfold notifier_acts. change (called n) with (called (n_cancel n s).2).
    assert (H : m_active (n_cancel n s).2 = active_disabled) by done. revert H. rewrite <- surjective_pairing.
    destruct (n_cancel n s) as [s1 n1]. revert n1 s1. induction l as [|a l IH]; intros n1 s1 H; [done|]. simpl in *.
    destruct a as [op|q| | | |available]; simpl.
    1: unfold n_handler; by rewrite IH.
    1: unfold n_target_queue; by rewrite IH.
    1, 2: by rewrite IH.
    1: unfold n_cancel; by rewrite IH.
    destruct (notifier_callback_native available n1) as [E1 E2]. rewrite IH; [by apply E2|]. by rewrite E1.
  - unfold notifier_callback. by intros ->.
Qed.

Lemma notifier_native_silent_witness :
  let n := n_handler 7 (make_notifier 1 3 Notifier.WRITE init).2 (make_notifier 1 3 Notifier.WRITE init).1 in
  called (notifier_callback 5 n.2) = [7%nat] /\ notifier_callback 0 n.2 = n.2.
Proof. split; [reflexivity|]. apply (notifier_native_silent [] _ init). reflexivity. Defined.

(** ** The wrap of a timer *)
Record holds (t : timer_impl) (s : state) : Prop := {
  h_context : forall w, context (t_native t) (calls s) = Some w -> m_wrapper t = Some w;
  h_alive : forall w, m_wrapper t = Some w -> exists op, wraps s !! w = Some (Wrap op true)
}.

Lemma context_skip o c l : (forall w, c <> SetContext o w) -> context o (c :: l) = context o l.
Proof. intros H. destruct c; simpl; try done. case_decide; [|done]. subst. by destruct (H wrap0). Qed.

(** Calls that set no context keep what the timer holds. *)
Lemma holds_call t t' c s : holds t s -> t_native t' = t_native t -> m_wrapper t' = m_wrapper t ->
  (forall w, c <> SetContext (t_native t) w) -> holds t' (call c s).
Proof.
  intros [H1 H2] E1 E2 Hc. split; rewrite ?E1, ?E2; [|exact H2]. intros w. simpl calls.
  rewrite context_skip by done. apply H1.
Qed.

Lemma handler_holds op t s : holds t s -> holds (handler op t s).2 (handler op t s).1.
Proof.
  intros [H1 H2]. unfold handler, handler_assign, handler_set, delete_wrapper. cbn [make_wrap m_wrapper].
  destruct (m_wrapper t) as [w|] eqn:Ew; simpl; split; simpl; rewrite ?decide_True by done; try (by intros ? [= <-]).
  - intros w' [= <-]. exists op. destruct (H2 w eq_refl) as [op' Hw]. apply lookup_lt_Some in Hw.
    rewrite list_lookup_alter_ne by lia. by rewrite list_lookup_middle.
  - intros w' [= <-]. exists op. by rewrite list_lookup_middle.
Qed.

Lemma timer_act_holds DEBUG ends a t s : holds t s ->
  match timer_act DEBUG ends a t s with inr (s', t') => holds t' s' | inl e => e = Terminated end.
Proof.
  intros H. destruct a as [i|p|op|q|d| | |]; simpl.
  - by apply (holds_call t).
  - by apply (holds_call t).
  - exact (handler_holds op t s H).
  - by apply (holds_call t).
  - apply (holds_call (Timer (t_native t) (m_interval t) (m_latency t) (if d =? 0 then Now else In_ (wrap_s64 (nanoseconds d))) (m_wrapper t)));
      try done. by apply (holds_call t).
  - by apply (holds_call t).
  - by apply (holds_call t).
  - destruct (context (t_native t) (calls s)) as [w|] eqn:Ec; [|done].
    destruct (h_alive _ _ H w (h_context _ _ H w Ec)) as [op Hw].
    unfold _xdispatch2_run_wrap, run_wrapper. rewrite Hw.
    assert (H' : holds t (execute (op, None) s)) by (by destruct H).
    by destruct (ends (op, None)), DEBUG.
Qed.

(** As long as libdispatch does not call the handler in the middle of handler(), a
    timer of libdispatch never executes a deleted wrap, whatever it is asked for. *)
Theorem timer_wrap_alive DEBUG ends l q s :
  (forall w, context (next s) (calls s) <> Some w) ->
  match timer_acts DEBUG ends l (create_timer q s).2 (create_timer q s).1 with
  | inr (s', t') => forall w, context (t_native t') (calls s') = Some w -> exists op, wraps s' !! w = Some (Wrap op true)
  | inl e => e = Terminated
  end.
Proof.
  intros Hn. assert (H : holds (create_timer q s).2 (create_timer q s).1).
  { split; simpl; [|done]. intros w Hw. by destruct (Hn w). }
  revert H. destruct (create_timer q s) as [s0 t0]. simpl. revert t0 s0.
  induction l as [|a l IH]; intros t0 s0 H; simpl.
  - intros w Hw. by apply (h_alive _ _ H), (h_context _ _ H).
  - pose proof (timer_act_holds DEBUG ends a t0 s0 H) as Ha. destruct (timer_act DEBUG ends a t0 s0) as [e|[s1 t1]]; [done|].
    by apply IH.
Qed.

Lemma timer_wrap_alive_witness :
  match timer_acts true (fun _ => Returns) [THandler 7; TInterval 5; TResume 0; TFire; THandler 8; TFire] (create_timer 3 init).2 (create_timer 3 init).1 with
  | inr (s', t') => forall w, context (t_native t') (calls s') = Some w -> exists op, wraps s' !! w = Some (Wrap op true)
  | inl e => e = Terminated
  end.
Proof. apply (timer_wrap_alive true (fun _ => Returns) _ 3 init). by intros w. Defined.

(** A running timer of which the handler is replaced: the old wrap is deleted while it
    is still the context of the source, and a call of the handler at that moment
    uses it.  The same call before or after executes the one or the other. *)
Theorem timer_handler_replaced DEBUG (ends := fun _ => Returns) :
  match timer_acts DEBUG ends [THandler 7; TInterval 5; TResume 0; TFire] (create_timer 3 init).2 (create_timer 3 init).1 with
  | inr (s, t) =>
      executed s = [(7%nat, None)] /\
      let (s1, t1) := handler_assign 8 t s in
      timer_act DEBUG ends TFire t1 s1 = inl Undefined /\
      match timer_act DEBUG ends TFire t1 (handler_set t1 s1) with
      | inr (s2, _) => executed s2 = [(8%nat, None); (7%nat, None)]
      | inl _ => False
      end
  | inl _ => False
  end.
Proof. by destruct DEBUG; vm_compute; split_and!. Qed.

(** ** apply *)
Lemma apply_loop DEBUG ends op w order : forall s,
  (forall i, i ∈ order -> ends (op, Some i) = Returns) -> wraps s !! w = Some (Wrap op true) ->
  foldl (fun s i => match s with
                    | inr s => match _xdispatch2_run_iter_wrap DEBUG ends w i s with inr (s, _) => inr s | inl e => inl e end
                    | inl e => inl e
                    end) (inr s) order =
  inr (State (next s) (wraps s) (calls s) (pending s) (rev (map (fun i => (op, Some i)) order) ++ executed s)).
Proof.
  induction order as [|i order IH]; intros s He Hw; [by destruct s|]. simpl.
  unfold _xdispatch2_run_iter_wrap at 2. rewrite Hw, (He i) by (apply elem_of_cons; by left).
  rewrite IH; [|intros j Hj; apply He, elem_of_cons; by right|done]. simpl. by rewrite <- app_assoc.
Qed.

(** Apply() of a queue of libdispatch executes the operation once for every index
    dispatch_apply_f calls back with, the wrap on its stack alive until the last of
    them has returned, and leaves no wrap to be called back with later. *)
Theorem native_apply_each_once DEBUG ends q times op order s :
  order ≡ₚ seq 0 times -> (forall i, (i < times)%nat -> ends (op, Some i) = Returns) ->
  exists s', queue_apply (_xdispatch2_run_iter_wrap DEBUG ends) q times op order s = inr s' /\
    executed s' ≡ₚ map (fun i => (op, Some i)) (seq 0 times) ++ executed s /\ pending s' = pending s.
Proof.
  intros Ho He. unfold queue_apply. simpl. eexists. rewrite (apply_loop DEBUG ends op).
  - split; [reflexivity|]. simpl. split; [|done]. f_equiv. rewrite <- Ho. symmetry. apply Permutation_rev.
  - intros i Hi. apply He. rewrite Ho in Hi. apply elem_of_seq in Hi. lia.
  - simpl. by rewrite list_lookup_middle.
Qed.

Lemma native_apply_each_once_witness : exists s',
  queue_apply (_xdispatch2_run_iter_wrap false (fun _ => Returns)) 3 3 7 [2; 0; 1]%nat init = inr s' /\
  executed s' ≡ₚ map (fun i => (7%nat, Some i)) (seq 0 3) ++ executed init /\ pending s' = pending init.
Proof.
  apply (native_apply_each_once false (fun _ => Returns) 3 3 7 [2; 0; 1]%nat init); [|done].
  simpl. by rewrite (Permutation_swap 0%nat 2%nat), (Permutation_swap 1%nat 2%nat).
Defined.
End LibDispatch.
