(* ===== verification/Facades.v ===== *)
(** * Facades: src/timer.cpp, src/socket_notifier.cpp and the interfaces behind them

    What timer and socket_notifier promise whatever implements them.  [source] is
    the part of itimer_impl and isocket_notifier_impl the promise rests on; the
    four implementations are instances, and what the facades promise is proved
    against the interface. *)
From S2P Require Import Prelude Conc Cancelable Timer SocketNotifier LibDispatch.

(** Something that executes a handler when it is ready: [perform] is what users and the
    environment do to it, [None] when that is undefined; [cancelled] says that
    cancel() has been called, [handlers_begun] counts the handlers executed. *)
Class source (S Op : Type) := Source {
  perform : Op -> S -> option S;
  cancel_op : Op;
  healthy : S -> Prop;
  cancelled : S -> Prop;
  handlers_begun : S -> nat;
  healthy_perform o s s' : healthy s -> perform o s = Some s' -> healthy s';
  cancel_performs s : healthy s -> exists s', perform cancel_op s = Some s' /\ cancelled s' /\
    handlers_begun s' = handlers_begun s;
  cancelled_perform o s s' : healthy s -> cancelled s -> perform o s = Some s' ->
    cancelled s' /\ handlers_begun s' = handlers_begun s
}.

Module Facades.

(** ** timer and socket_notifier *)
Inductive timer_call :=
| Interval (z : Z) | Latency (p : LibDispatch.timer_precision) | Resume (delay : Z) | Suspend | Cancel
| Handler (op : option nat).
Inductive notifier_call := NResume | NSuspend | NCancel | NHandler (op : option nat).

(** How an implementation takes the calls of a facade. *)
Class implements (S Op Call : Type) `{source S Op} := Implements {
  forward : Call -> option Op;       (* [None] dereferences the null pointer *)
  calls_cancel : Call;
  forward_cancel : forward calls_cancel = Some cancel_op
}.

Section facade.
Context {S Op Call : Type} `{implements S Op Call}.

(** A facade: m_impl and m_target_queue. *)
Record facade := Facade { m_impl : S; m_target_queue : nat }.
Definition target_queue (f : facade) : nat := m_target_queue f.

(** A call of a facade, or a step of what is behind it. *)
Definition use (c : Call + Op) (f : facade) : option facade :=
  match c with
  | inl c => match forward c with
             | Some o => match perform o (m_impl f) with Some s => Some (Facade s (m_target_queue f)) | None => None end
             | None => None
             end
  | inr o => match perform o (m_impl f) with Some s => Some (Facade s (m_target_queue f)) | None => None end
  end.
Fixpoint uses (cs : list (Call + Op)) (f : facade) : option facade :=
  match cs with
  | [] => Some f
  | c :: cs => match use c f with Some f => uses cs f | None => None end
  end.

Lemma use_healthy c f f' : healthy (m_impl f) -> use c f = Some f' ->
  healthy (m_impl f') /\ target_queue f' = target_queue f /\
  (cancelled (m_impl f) -> cancelled (m_impl f') /\ handlers_begun (m_impl f') = handlers_begun (m_impl f)).
Proof.
  intros Hh. assert (Hp : forall o, match perform o (m_impl f) with Some s => Some (Facade s (m_target_queue f)) | None => None end = Some f' ->
    healthy (m_impl f') /\ target_queue f' = target_queue f /\
    (cancelled (m_impl f) -> cancelled (m_impl f') /\ handlers_begun (m_impl f') = handlers_begun (m_impl f))).
  { intros o. destruct (perform o (m_impl f)) as [s|] eqn:E; [|done]. intros [= <-]. simpl.
    split; [by eapply healthy_perform|]. split; [done|]. intros Hc. by eapply cancelled_perform. }
  destruct c as [c|o]; simpl; [|apply Hp]. destruct (forward c); [apply Hp|done].
Qed.

Lemma uses_healthy cs : forall f f', healthy (m_impl f) -> uses cs f = Some f' ->
  healthy (m_impl f') /\ target_queue f' = target_queue f /\
  (cancelled (m_impl f) -> cancelled (m_impl f') /\ handlers_begun (m_impl f') = handlers_begun (m_impl f)).
Proof.
  induction cs as [|c cs IH]; intros f f' Hh; simpl; [by intros [= <-]|].
  destruct (use c f) as [f1|] eqn:E; [|done]. destruct (use_healthy _ _ _ Hh E) as (H1 & H2 & H3). intros Hu.
  destruct (IH _ _ H1 Hu) as (H4 & H5 & H6). split; [done|]. split; [congruence|].
  intros Hc. destruct (H3 Hc) as [Hc1 E1]. destruct (H6 Hc1) as [Hc2 E2]. split; [done|congruence].
Qed.

(** cancel() is final, whatever the facade was used for before and is used for
    afterwards, and the target queue is the one it was made with. *)
Lemma cancel_final before after s q f f' :
  healthy s -> uses before (Facade s q) = Some f -> uses (inl calls_cancel :: after) f = Some f' ->
  handlers_begun (m_impl f') = handlers_begun (m_impl f) /\ target_queue f' = q.
Proof.
  intros Hh Hb. destruct (uses_healthy before (Facade s q) f Hh Hb) as (H1 & H2 & _). simpl. rewrite forward_cancel.
  destruct (cancel_performs (m_impl f) H1) as (s1 & E1 & Hc & E2). rewrite E1. intros Ha.
  assert (H3 : healthy s1) by (by eapply healthy_perform).
  destruct (uses_healthy after (Facade s1 (m_target_queue f)) f' H3 Ha) as (_ & E3 & H4). destruct (H4 Hc) as [_ E4]. split; [simpl in *; congruence|]. rewrite E3. exact H2.
Qed.
End facade.
Arguments facade : clear implicits.

(** ** The implementations *)
#[export] Program Instance naive_timer_source : source Timer.timer_impl Timer.action := {|
  perform := Timer.act;
  cancel_op := Timer.Cancel;
  healthy := Timer.good;
  cancelled x := Timer.m_cancelable x = Cancel.active_disabled;
  handlers_begun x := Timer.fired (Timer.log x)
|}.
Next Obligation. intros a x x' Hg Ha. by destruct (Timer.timer_act_good _ _ _ Hg Ha). Qed.
Next Obligation. intros x Hg. by exists (Timer.cancel x). Qed.
Next Obligation. intros a x x' Hg Hc Ha. destruct (Timer.timer_act_good _ _ _ Hg Ha) as (_ & _ & H). by apply H. Qed.

#[export] Program Instance naive_timer_implements : implements Timer.timer_impl Timer.action timer_call := {|
  forward c := match c with
               | Interval z => Some (Timer.Interval z)
               | Latency _ => Some Timer.Latency
               | Resume _ => Some Timer.Resume
               | Suspend => Some Timer.Suspend
               | Cancel => Some Timer.Cancel
               | Handler (Some op) => Some (Timer.Handler op)
               | Handler None => None
               end;
  calls_cancel := Cancel
|}.
Next Obligation. done. Qed.

#[export] Program Instance naive_notifier_source : source Notifier.socket_notifier_impl Notifier.action := {|
  perform := Notifier.act;
  cancel_op := Notifier.Cancel;
  healthy := Notifier.good;
  cancelled := Notifier.over;
  handlers_begun x := Notifier.called (Notifier.log x)
|}.
Next Obligation. intros a x x' Hg Ha. by eapply Notifier.notifier_act_good. Qed.
Next Obligation.
  intros x Hg. exists (Notifier.cancel x). split; [done|]. split; [|done].
  split; [by apply (Notifier.notifier_act_good Notifier.Cancel x)|done].
Qed.
Next Obligation. intros a x x' Hg Hc Ha. destruct (Notifier.over_act _ _ _ Hc Ha) as (? & _ & ?). done. Qed.

#[export] Program Instance naive_notifier_implements :
    implements Notifier.socket_notifier_impl Notifier.action notifier_call := {|
  forward c := match c with
               | NResume => Some Notifier.Resume
               | NSuspend => Some Notifier.Suspend
               | NCancel => Some Notifier.Cancel
               | NHandler (Some op) => Some (Notifier.Handler op)
               | NHandler None => None
               end;
  calls_cancel := NCancel
|}.
Next Obligation. done. Qed.

(** libdispatch calls no handler of a source that was cancelled: that is documented of
    dispatch_source_cancel, and the only thing assumed of it here. *)
Definition fires (s : LibDispatch.state) (t : LibDispatch.timer_impl) : bool :=
  negb (existsb (fun c => match c with LibDispatch.SourceCancel o => Nat.eqb o (LibDispatch.t_native t) | _ => false end)
          (LibDispatch.calls s)).
Definition native_timer_act (a : LibDispatch.timer_action) (x : LibDispatch.state * LibDispatch.timer_impl)
    : option (LibDispatch.state * LibDispatch.timer_impl) :=
  let (s, t) := x in
  match a with
  | LibDispatch.TFire =>
      if fires s t then
        match LibDispatch.timer_act false (fun _ => LibDispatch.Returns) a t s with inr r => Some r | inl _ => None end
      else Some (s, t)
  | _ => match LibDispatch.timer_act false (fun _ => LibDispatch.Returns) a t s with inr r => Some r | inl _ => None end
  end.

Lemma native_timer_calls a s t s' t' : native_timer_act a (s, t) = Some (s', t') ->
  LibDispatch.t_native t' = LibDispatch.t_native t /\ exists l, LibDispatch.calls s' = l ++ LibDispatch.calls s.
Proof.
  intros H. assert (Ht : (s', t') = (s, t) \/
    LibDispatch.timer_act false (fun _ => LibDispatch.Returns) a t s = inr (s', t')).
  { destruct a; simpl in H; try (right; simpl; congruence). destruct (fires s t); [|left; congruence].
    right. simpl. destruct (match LibDispatch.context _ _ with Some _ => _ | None => _ end); congruence. }
  destruct Ht as [[= -> ->]|Ht]; [split; [done|by exists []]|].
  destruct (LibDispatch.timer_act_calls _ _ _ _ _ _ _ Ht) as (E & l & El & _). split; [done|by exists l].
Qed.

Lemma native_timer_quiet a s t s' t' : fires s t = false -> native_timer_act a (s, t) = Some (s', t') ->
  fires s' t' = false /\ LibDispatch.executed s' = LibDispatch.executed s.
Proof.
  intros Hf H. destruct (native_timer_calls _ _ _ _ _ H) as (E & l & El). split.
  - unfold fires in *. rewrite E, El, existsb_app. apply negb_false_iff in Hf. rewrite Hf. by rewrite orb_true_r.
  - destruct a; simpl in H; try (by injection H as <- <-).
    + unfold LibDispatch.handler, LibDispatch.handler_assign, LibDispatch.delete_wrapper in H. simpl in H.
      by destruct (LibDispatch.m_wrapper t); injection H as <- <-.
    + rewrite Hf in H. by injection H as <- <-.
Qed.

#[export] Program Instance native_timer_source :
    source (LibDispatch.state * LibDispatch.timer_impl) LibDispatch.timer_action := {|
  perform := native_timer_act;
  cancel_op := LibDispatch.TCancel;
  healthy x := LibDispatch.holds x.2 x.1;
  cancelled x := fires x.1 x.2 = false;
  handlers_begun x := length (LibDispatch.executed x.1)
|}.
Next Obligation.
  intros a [s t] [s' t'] Hg Ha. simpl in *.
  pose proof (LibDispatch.timer_act_holds false (fun _ => LibDispatch.Returns) a t s Hg) as H.
  destruct a; cbn [native_timer_act] in Ha; try (injection Ha as <- <-; exact H).
  destruct (fires s t); [|by injection Ha as <- <-].
  destruct (LibDispatch.timer_act _ _ _ _ _) as [|[]]; [done|]. by injection Ha as <- <-.
Qed.
Next Obligation.
  intros [s t] Hg. eexists. split; [reflexivity|]. split; [|done]. unfold fires. simpl. by rewrite Nat.eqb_refl.
Qed.
Next Obligation.
  intros a [s t] [s' t'] _ Hc Ha. destruct (native_timer_quiet _ _ _ _ _ Hc Ha) as [H1 H2]. simpl. by rewrite H1, H2.
Qed.

#[export] Program Instance native_timer_implements :
    implements (LibDispatch.state * LibDispatch.timer_impl) LibDispatch.timer_action timer_call := {|
  forward c := match c with
               | Interval z => Some (LibDispatch.TInterval z)
               | Latency p => Some (LibDispatch.TLatency p)
               | Resume d => Some (LibDispatch.TResume d)
               | Suspend => Some LibDispatch.TSuspend
               | Cancel => Some LibDispatch.TCancel
               | Handler (Some op) => Some (LibDispatch.THandler op)
               | Handler None => None
               end;
  calls_cancel := Cancel
|}.
Next Obligation. done. Qed.

#[export] Program Instance native_notifier_source :
    source (LibDispatch.state * LibDispatch.socket_notifier_impl) LibDispatch.notifier_action := {|
  perform a x := Some (LibDispatch.notifier_act a x.2 x.1);
  cancel_op := LibDispatch.NCancel;
  healthy _ := True;
  cancelled x := LibDispatch.m_active x.2 = Cancel.active_disabled;
  handlers_begun x := length (LibDispatch.called x.2)
|}.
Next Obligation. done. Qed.
Next Obligation. intros [s n] _. by eexists. Qed.
Next Obligation.
  intros a [s n] [s' n'] _ Hc [= Ha]. simpl in *. destruct a; simpl in Ha; injection Ha as <- <-; try done.
  destruct (LibDispatch.notifier_callback_native available n) as [E1 E2]. rewrite E1. by rewrite (E2 Hc).
Qed.

#[export] Program Instance native_notifier_implements :
    implements (LibDispatch.state * LibDispatch.socket_notifier_impl) LibDispatch.notifier_action notifier_call := {|
  forward c := match c with
               | NResume => Some LibDispatch.NResume
               | NSuspend => Some LibDispatch.NSuspend
               | NCancel => Some LibDispatch.NCancel
               | NHandler (Some op) => Some (LibDispatch.NHandler op)
               | NHandler None => None
               end;
  calls_cancel := NCancel
|}.
Next Obligation. done. Qed.

(** ** What users may rely on *)
(** Once cancel() of a facade whose implementation is healthy has returned no handler
    begins any more. *)
Definition cancel_is_final (S Op Call : Type) `{implements S Op Call} (s : S) : Prop :=
  forall before after q f f',
    uses before (Facade s q) = Some f -> uses (inl calls_cancel :: after) f = Some f' ->
    handlers_begun (m_impl f') = handlers_begun (m_impl f) /\ target_queue f' = q.


(** Each of the four does execute its handler before it is cancelled. *)
Definition begun {S Op Call} `{implements S Op Call} (r : option (@facade S)) : option nat :=
  match r with Some f => Some (handlers_begun (m_impl f)) | None => None end.
Lemma facades_execute :
  begun (uses (Call := timer_call) ([inl (Handler (Some 7)); inl (Resume 0)] ++ replicate 3 (inr (Timer.Loop 0)))
    (Facade (Timer.make_timer 1) 1)) = Some 1 /\
  begun (uses (Call := notifier_call)
    ([inl (NHandler (Some 7)); inl NResume] ++ replicate 4 (inr (Notifier.Step 0 1)))
    (Facade (Notifier.make_notifier 1 3 Notifier.READ) 1)) = Some 1 /\
  begun (uses (Call := timer_call) [inl (Handler (Some 7)); inl (Resume 0%Z); inr LibDispatch.TFire]
    (Facade (LibDispatch.create_timer 1 LibDispatch.init) 1)) = Some 1 /\
  begun (uses (Call := notifier_call) [inl (NHandler (Some 7)); inl NResume; inr (LibDispatch.NFire 1)]
    (Facade (LibDispatch.make_notifier 1 3 Notifier.READ LibDispatch.init) 1)) = Some 1 /\
  uses (Call := timer_call) [inl (Handler None)] (Facade (Timer.make_timer 1) 1) = None.
Proof. by vm_compute. Qed.
End Facades.
