(* ===== verification/Backend.v ===== *)
(** * Backend: src/backend.cpp and the factories and facades around it

    Which implementation stands behind a queue, a timer, a notifier or a group:
    the three backends and their inheritance (naive_backend_internal.h,
    libdispatch_backend_internal.h, qt5_backend_internal.h), their factories, the
    global queues, and the facade classes queue, timer, socket_notifier and group
    with the checks of their constructors. *)
From stdpp Require Import strings.
From S2P Require Import Prelude Conc Decl ThreadUtils SocketNotifier.

Module Backend.
Import ThreadUtils(native_priority, map_priority_to_qos, DISPATCH_QUEUE_PRIORITY_HIGH, DISPATCH_QUEUE_PRIORITY_DEFAULT,
  DISPATCH_QUEUE_PRIORITY_LOW, DISPATCH_QUEUE_PRIORITY_BACKGROUND).
Local Open Scope string_scope.

Definition k_label_main : string := "de.emzeat.xdispatch2.main".
Definition k_label_global_INTERACTIVE : string := "de.emzeat.xdispatch2.interactive".
Definition k_label_global_INITIATED : string := "de.emzeat.xdispatch2.initiated".
Definition k_label_global_UTILITY : string := "de.emzeat.xdispatch2.utility".
Definition k_label_global_BACKGROUND : string := "de.emzeat.xdispatch2.background".

(** A dispatch_queue_t: the main queue, a global one, one that was created, or one
    the user has handed over. *)
Inductive dispatch_queue :=
| NativeMain
| NativeGlobal (qos : native_priority)
| NativeCreated (n : nat) (label : string) (qos : native_priority)
| NativeGiven (n : nat) (label : string).

Inductive ithreadpool :=
| GlobalPool               (* backend::global_threadpool() *)
| MainThread               (* the manual_thread of the main queue *)
| GivenPool (n : nat)      (* of the user *)
| ThreadProxy (n : nat)    (* around a QThread *)
| ThreadPoolProxy (n : nat).

(** The implementations of iqueue_impl; [id] is the address of the object. *)
Inductive iqueue_impl :=
| serial_queue_impl (id : nat) (m_backend : backend_type) (pool : ithreadpool) (label : string)
    (priority : queue_priority)
| parallel_queue_impl (id : nat) (m_backend : backend_type) (m_pool : ithreadpool) (m_priority : queue_priority)
| dispatch_queue_impl (id : nat) (m_native : dispatch_queue)
| waitable_queue_impl (id : nat) (m_inner_queue : iqueue_impl).

Definition address (q : iqueue_impl) : nat :=
  match q with
  | serial_queue_impl i _ _ _ _ | parallel_queue_impl i _ _ _ | dispatch_queue_impl i _ | waitable_queue_impl i _ => i
  end.

(** iqueue_impl::backend *)
Fixpoint backend (q : iqueue_impl) : backend_type :=
  match q with
  | serial_queue_impl _ b _ _ _ | parallel_queue_impl _ b _ _ => b
  | dispatch_queue_impl _ _ => libdispatch
  | waitable_queue_impl _ inner => backend inner
  end.

(** timer_impl of the naive backend keeps the queue, that of libdispatch a source on
    the native queue; the same for socket_notifier_impl. *)
Inductive itimer_impl :=
| naive_timer (m_backend : backend_type) (m_queue : iqueue_impl)
| dispatch_timer (target : dispatch_queue).
Inductive isocket_notifier_impl :=
| naive_notifier (m_backend : backend_type) (m_queue : iqueue_impl) (socket : Z) (type : Notifier.notifier_type)
| dispatch_notifier (target : dispatch_queue) (socket : Z) (type : Notifier.notifier_type).
Inductive igroup_impl := naive_group (m_backend : backend_type) | dispatch_group (native : nat).

Definition timer_backend (t : itimer_impl) : backend_type :=
  match t with naive_timer b _ => b | dispatch_timer _ => libdispatch end.
Definition notifier_backend (n : isocket_notifier_impl) : backend_type :=
  match n with naive_notifier b _ _ _ => b | dispatch_notifier _ _ _ => libdispatch end.
Definition group_backend (g : igroup_impl) : backend_type :=
  match g with naive_group b => b | dispatch_group _ => libdispatch end.

(** The backend classes: qt5 derives from libdispatch where that is built and from
    naive elsewhere. *)
Inductive ibackend := naive_backend | libdispatch_backend | qt5_backend.

(** How the library was built and what it runs in: the backends in it, whether quality of service
    classes exist, the entry points of backends the loader finds, and the thread
    of the QCoreApplication if there is one. *)
Record platform := Platform {
  BUILD_QT5 : bool;
  BUILD_LIBDISPATCH : bool;
  BUILD_STATIC : bool;
  HAVE_QOS : bool;
  exported : ibackend -> bool;
  application : option nat
}.

(** The function local statics, and the next address. *)
Record world := World {
  next : nat;
  s_naive_main : option iqueue_impl;
  s_main : option iqueue_impl;
  s_global : nat -> option iqueue_impl
}.
Definition empty_world : world := World 0 None None (fun _ => None).

Definition res (A : Type) : Type := fault + A.
Definition bind {A B} (x : res A) (k : A -> res B) : res B :=
  match x with inl e => inl e | inr a => k a end.
Definition assert (b : bool) : res unit := if b then inr tt else inl Terminated.

(** std::make_shared *)
Definition fresh {A} (f : nat -> A) (w : world) : world * A :=
  (World (S (next w)) (s_naive_main w) (s_main w) (s_global w), f (next w)).

Section platform.
Context (p : platform).

Definition backend_base : ibackend := if BUILD_LIBDISPATCH p then libdispatch_backend else naive_backend.

(** ibackend::type *)
Definition type (b : ibackend) : backend_type :=
  match b with naive_backend => naive | libdispatch_backend => libdispatch | qt5_backend => qt5 end.

(** qt5_backend_get_static_instance: XDISPATCH_IMPORT_SHARED_BACKEND tries the entry
    points in order; a static build links the entry point or its fallback, which
    is the base class. *)
Fixpoint resolve (backends : list ibackend) : option ibackend :=
  match backends with
  | [] => None
  | b :: backends => if exported p b then Some b else resolve backends
  end.
Definition qt5_backend_get_static_instance : option ibackend :=
  if BUILD_STATIC p
  then Some (if exported p qt5_backend then qt5_backend else backend_base)
  else resolve [qt5_backend; libdispatch_backend; naive_backend].

(** The reference to a null instance is undefined. *)
Definition backend_for_type (t : backend_type) : res ibackend :=
  match t with
  | libdispatch => inr (if BUILD_LIBDISPATCH p then libdispatch_backend else naive_backend)
  | qt5 =>
      if BUILD_QT5 p
      then match qt5_backend_get_static_instance with Some b => inr b | None => inl Undefined end
      else inr naive_backend
  | naive => inr naive_backend
  end.

Definition platform_backend : res ibackend :=
  if BUILD_QT5 p then backend_for_type qt5
  else if BUILD_LIBDISPATCH p then backend_for_type libdispatch
  else backend_for_type naive.

Definition priority_2_native (priority : queue_priority) : native_priority :=
  if HAVE_QOS p then map_priority_to_qos priority
  else match priority with
       | USER_INTERACTIVE | USER_INITIATED => DISPATCH_QUEUE_PRIORITY_HIGH
       | UTILITY => DISPATCH_QUEUE_PRIORITY_LOW
       | DEFAULT => DISPATCH_QUEUE_PRIORITY_DEFAULT
       | BACKGROUND => DISPATCH_QUEUE_PRIORITY_BACKGROUND
       end.

(** impl_2_native: the assertion, and a static_cast that is undefined for an object of
    another class. *)
Definition impl_2_native (q : iqueue_impl) : res dispatch_queue :=
  bind (assert (bool_decide (backend q = libdispatch))) (fun _ =>
    match q with
    | dispatch_queue_impl _ native => inr native
    | _ => inl Undefined
    end).

(** ** The factories of the naive backend *)
Definition naive_create_main_queue (b : backend_type) (w : world) : world * iqueue_impl :=
  match s_naive_main w with
  | Some q => (w, q)
  | None =>
      let (w, q) := fresh (fun i => serial_queue_impl i b MainThread k_label_main USER_INTERACTIVE) w in
      (World (next w) (Some q) (s_main w) (s_global w), q)
  end.
Definition naive_create_serial_queue (label : string) (priority : queue_priority) (b : backend_type) (w : world)
    : world * iqueue_impl := fresh (fun i => serial_queue_impl i b GlobalPool label priority) w.
Definition naive_create_parallel_queue (priority : queue_priority) (b : backend_type) (w : world)
    : world * iqueue_impl := fresh (fun i => parallel_queue_impl i b GlobalPool priority) w.
Definition naive_create_timer (q : iqueue_impl) (b : backend_type) : itimer_impl := naive_timer b q.
Definition naive_create_socket_notifier (q : iqueue_impl) (socket : Z) (type : Notifier.notifier_type) (b : backend_type)
    : isocket_notifier_impl := naive_notifier b q socket type.

(** ** Of the libdispatch backend *)
Definition libdispatch_create_main_queue (w : world) : world * iqueue_impl :=
  fresh (fun i => dispatch_queue_impl i NativeMain) w.
Definition libdispatch_create_serial_queue (label : string) (priority : queue_priority) (w : world)
    : world * iqueue_impl :=
  fresh (fun i => dispatch_queue_impl i (NativeCreated i label (priority_2_native priority))) w.
Definition libdispatch_create_parallel_queue (priority : queue_priority) (w : world) : world * iqueue_impl :=
  fresh (fun i => dispatch_queue_impl i (NativeGlobal (priority_2_native priority))) w.
Definition libdispatch_create_timer (q : iqueue_impl) : res itimer_impl :=
  bind (impl_2_native q) (fun native => inr (dispatch_timer native)).
Definition libdispatch_create_socket_notifier (q : iqueue_impl) (socket : Z) (type : Notifier.notifier_type)
    : res isocket_notifier_impl :=
  bind (impl_2_native q) (fun native => inr (dispatch_notifier native socket type)).

(** ** The virtual factories, by class *)
Definition base_create_main_queue (w : world) : world * iqueue_impl :=
  if BUILD_LIBDISPATCH p then libdispatch_create_main_queue w else naive_create_main_queue naive w.
(** qt5::create_serial_queue around the thread of the application *)
Definition qt5_create_main_queue (w : world) : world * iqueue_impl :=
  match application p with
  | None => base_create_main_queue w
  | Some thread =>
      fresh (fun i => serial_queue_impl i qt5 (ThreadProxy thread) k_label_main DEFAULT) w
  end.
Definition create_main_queue (b : ibackend) (w : world) : world * iqueue_impl :=
  match b with
  | naive_backend => naive_create_main_queue naive w
  | libdispatch_backend => libdispatch_create_main_queue w
  | qt5_backend => qt5_create_main_queue w
  end.

Definition base_of (b : ibackend) : ibackend := match b with qt5_backend => backend_base | b => b end.

Definition create_serial_queue (b : ibackend) (label : string) (priority : queue_priority) (w : world)
    : world * iqueue_impl :=
  match base_of b with
  | libdispatch_backend => libdispatch_create_serial_queue label priority w
  | _ => naive_create_serial_queue label priority naive w
  end.
Definition create_parallel_queue (b : ibackend) (priority : queue_priority) (w : world) : world * iqueue_impl :=
  match base_of b with
  | libdispatch_backend => libdispatch_create_parallel_queue priority w
  | _ => naive_create_parallel_queue priority naive w
  end.
(** Only the naive backend makes groups. *)
Definition create_group (b : ibackend) : igroup_impl := naive_group naive.

Definition base_create_timer (b : ibackend) (q : iqueue_impl) : res itimer_impl :=
  match b with
  | libdispatch_backend => libdispatch_create_timer q
  | _ => inr (naive_create_timer q naive)
  end.
Definition create_timer (b : ibackend) (q : iqueue_impl) : res itimer_impl :=
  match b with
  | qt5_backend =>
      if decide (backend q = qt5) then inr (naive_create_timer q qt5)
      else base_create_timer backend_base q
  | b => base_create_timer b q
  end.

Definition base_create_socket_notifier (b : ibackend) (q : iqueue_impl) (socket : Z) (type : Notifier.notifier_type)
    : res isocket_notifier_impl :=
  match b with
  | libdispatch_backend => libdispatch_create_socket_notifier q socket type
  | _ => inr (naive_create_socket_notifier q socket type naive)
  end.
Definition create_socket_notifier (b : ibackend) (q : iqueue_impl) (socket : Z) (type : Notifier.notifier_type)
    : res isocket_notifier_impl :=
  match b with
  | qt5_backend =>
      if decide (backend q = qt5) then inr (naive_create_socket_notifier q socket type qt5)
      else base_create_socket_notifier backend_base q socket type
  | b => base_create_socket_notifier b q socket type
  end.

(** ** The facades *)
Record queue := Queue { m_impl : iqueue_impl; m_label : string }.
Definition implementation (q : queue) : iqueue_impl := m_impl q.
Definition label (q : queue) : string := m_label q.
(** operator==, operator!=: the same object behind both *)
Definition queue_eqb (q other : queue) : bool :=
  Nat.eqb (address (m_impl q)) (address (m_impl other)).
Definition queue_neqb (q other : queue) : bool := negb (queue_eqb q other).

(** queue(label, impl): an impl may be null. *)
Definition make_queue (label : string) (impl : option iqueue_impl) : res queue :=
  match impl with Some i => inr (Queue i label) | None => inl Terminated end.
(** What the facades hand on to the implementation behind them. *)
Inductive forwarded :=
| Async (q : iqueue_impl) (op : nat)
| Apply (q : iqueue_impl) (times op : nat)
| After (q : iqueue_impl) (delay : Z) (op : nat)
| GroupAsync (g : igroup_impl) (q : iqueue_impl) (op : nat)
| GroupNotify (g : igroup_impl) (q : iqueue_impl) (op : nat)
| TimerHandler (t : itimer_impl) (op : nat)
| NotifierHandler (n : isocket_notifier_impl) (op : nat).

(** XDISPATCH_ASSERT(op) on an operation that may be null *)
Definition checked {A} (op : option nat) (k : nat -> res A) : res A :=
  match op with Some op => k op | None => inl Terminated end.
(** *op without that assertion *)
Definition dereferenced {A} (op : option nat) (k : nat -> res A) : res A :=
  match op with Some op => k op | None => inl Undefined end.

Definition queue_async (q : queue) (op : option nat) : res forwarded :=
  checked op (fun op => inr (Async (m_impl q) op)).
Definition queue_apply (q : queue) (times : nat) (op : option nat) : res forwarded :=
  checked op (fun op => inr (Apply (m_impl q) times op)).
Definition queue_after (q : queue) (delay : Z) (op : option nat) : res forwarded :=
  checked op (fun op => inr (After (m_impl q) delay op)).

Definition assert_same_backend (a b : backend_type) : res unit := assert (bool_decide (a = b)).

Record timer := Timer { t_impl : itimer_impl; t_interval : Z; t_target : queue }.
(** timer(impl, target) and timer(interval, target) *)
Definition timer_with (impl : itimer_impl) (interval : Z) (target : queue) : res timer :=
  bind (assert_same_backend (timer_backend impl) (backend (m_impl target))) (fun _ =>
    inr (Timer impl interval target)).
Definition make_timer (interval : Z) (target : queue) : res timer :=
  bind (backend_for_type (backend (m_impl target))) (fun b =>
  bind (create_timer b (m_impl target)) (fun impl => timer_with impl interval target)).

Record socket_notifier := Notifier { n_impl : isocket_notifier_impl; n_target : queue }.
Definition notifier_with (impl : isocket_notifier_impl) (target : queue) : res socket_notifier :=
  bind (assert_same_backend (notifier_backend impl) (backend (m_impl target))) (fun _ =>
    inr (Notifier impl target)).
Definition make_socket_notifier (socket : Z) (type : Notifier.notifier_type) (target : queue) : res socket_notifier :=
  bind (backend_for_type (backend (m_impl target))) (fun b =>
  bind (create_socket_notifier b (m_impl target) socket type) (fun impl => notifier_with impl target)).

(** iqueue_impl::after: the native one, or a timer on the queue itself. *)
Definition after (q : iqueue_impl) : res (option itimer_impl) :=
  match q with
  | dispatch_queue_impl _ _ => inr None
  | _ => bind (backend_for_type (backend q)) (fun b => bind (create_timer b q) (fun t => inr (Some t)))
  end.

(** timer::handler, socket_notifier::handler *)
Definition timer_handler (t : timer) (op : option nat) : res forwarded :=
  dereferenced op (fun op => inr (TimerHandler (t_impl t) op)).
Definition notifier_handler (n : socket_notifier) (op : option nat) : res forwarded :=
  dereferenced op (fun op => inr (NotifierHandler (n_impl n) op)).

(** group::async and group::notify *)
Definition group_check (g : igroup_impl) (q : queue) : res unit :=
  if decide (group_backend g = naive) then inr tt
  else assert_same_backend (group_backend g) (backend (m_impl q)).
Definition group_async (g : igroup_impl) (op : option nat) (q : queue) : res forwarded :=
  checked op (fun op => bind (group_check g q) (fun _ => inr (GroupAsync g (m_impl q) op))).
Definition group_notify (g : igroup_impl) (op : option nat) (q : queue) : res forwarded :=
  checked op (fun op => bind (group_check g q) (fun _ => inr (GroupNotify g (m_impl q) op))).
(** async() and notify() of the group_impl: the native queue of a libdispatch group *)
Definition group_impl_target (g : igroup_impl) (q : iqueue_impl) : res (iqueue_impl + dispatch_queue) :=
  match g with
  | naive_group _ => inr (inl q)
  | dispatch_group _ => bind (impl_2_native q) (fun native => inr (inr native))
  end.
Definition make_group : res igroup_impl := bind platform_backend (fun b => inr (create_group b)).

(** queue(label, priority) *)
Definition new_queue (label : string) (priority : queue_priority) (w : world) : res (world * queue) :=
  bind platform_backend (fun b =>
    let (w, q) := create_serial_queue b label priority w in inr (w, Queue q label)).

(** main_queue() *)
Definition main_queue (w : world) : res (world * queue) :=
  match s_main w with
  | Some q => inr (w, Queue q k_label_main)
  | None =>
      bind platform_backend (fun b =>
        let (w, q) := create_main_queue b w in
        inr (World (next w) (s_naive_main w) (Some q) (s_global w), Queue q k_label_main))
  end.

(** global_queue(priority): the static behind it, its priority and its label. *)
Definition global_index (priority : queue_priority) : nat :=
  match priority with
  | USER_INTERACTIVE => 0 | USER_INITIATED => 1 | DEFAULT | UTILITY => 2 | BACKGROUND => 3
  end.
Definition global_priority (i : nat) : queue_priority :=
  match i with 0 => USER_INTERACTIVE | 1 => USER_INITIATED | 2 => UTILITY | _ => BACKGROUND end.
Definition global_label (i : nat) : string :=
  match i with
  | 0 => k_label_global_INTERACTIVE | 1 => k_label_global_INITIATED
  | 2 => k_label_global_UTILITY | _ => k_label_global_BACKGROUND
  end.
Definition global_queue (priority : queue_priority) (w : world) : res (world * queue) :=
  let i := global_index priority in
  match s_global w i with
  | Some q => inr (w, Queue q (global_label i))
  | None =>
      bind platform_backend (fun b =>
        let (w, q) := create_parallel_queue b (global_priority i) w in
        inr (World (next w) (s_naive_main w) (s_main w) (<[i := Some q]> (s_global w)), Queue q (global_label i)))
  end.

(** group::async(op, priority) *)
Definition group_async_priority (g : igroup_impl) (op : option nat) (priority : queue_priority) (w : world)
    : res (world * forwarded) :=
  bind (global_queue priority w) (fun '(w, q) => bind (group_async g op q) (fun f => inr (w, f))).

(** naive::create_serial_queue and create_parallel_queue, qt5::create_serial_queue and
    create_parallel_queue, libdispatch::create_queue, waitable_queue(label, queue) *)
Definition naive_serial (label : string) (pool : option nat) (priority : queue_priority) (w : world)
    : res (world * queue) :=
  match pool with
  | None => inl Terminated
  | Some n => let (w, q) := fresh (fun i => serial_queue_impl i naive (GivenPool n) label priority) w in
              inr (w, Queue q label)
  end.
Definition naive_parallel (label : string) (pool : option nat) (priority : queue_priority) (w : world)
    : res (world * queue) :=
  match pool with
  | None => inl Terminated
  | Some n => let (w, q) := fresh (fun i => parallel_queue_impl i naive (GivenPool n) priority) w in
              inr (w, Queue q label)
  end.
Definition qt5_serial (label : string) (thread : option nat) (priority : queue_priority) (w : world)
    : res (world * queue) :=
  match thread with
  | None => inl Terminated
  | Some n => let (w, q) := fresh (fun i => serial_queue_impl i qt5 (ThreadProxy n) label priority) w in
              inr (w, Queue q label)
  end.
Definition qt5_parallel (label : string) (pool : option nat) (priority : queue_priority) (w : world)
    : res (world * queue) :=
  match pool with
  | None => inl Terminated
  | Some n => let (w, q) := fresh (fun i => parallel_queue_impl i qt5 (ThreadPoolProxy n) priority) w in
              inr (w, Queue q label)
  end.
Definition native_label (d : dispatch_queue) : string :=
  match d with NativeCreated _ l _ | NativeGiven _ l => l | NativeMain | NativeGlobal _ => "" end.
Definition create_queue (native : dispatch_queue) (w : world) : world * queue :=
  let (w, q) := fresh (fun i => dispatch_queue_impl i native) w in (w, Queue q (native_label native)).
Definition make_waitable_queue (label : string) (inner : queue) (w : world) : world * queue :=
  let (w, q) := fresh (fun i => waitable_queue_impl i (m_impl inner)) w in (w, Queue q label).

(** exec(): what runs on the calling thread, for ever. *)
Inductive main_loop := dispatch_main | manual_thread_run | QCoreApplication_exec.
Definition exec_of (b : ibackend) : main_loop :=
  let base b := match b with libdispatch_backend => dispatch_main | _ => manual_thread_run end in
  match b with
  | qt5_backend => match application p with Some _ => QCoreApplication_exec | None => base backend_base end
  | b => base b
  end.
Definition exec : res main_loop := bind platform_backend (fun b => inr (exec_of b)).
End platform.

(** ThreadPoolProxy::execute: the priority of a QRunnable. *)
Definition runnable_priority (priority : queue_priority) : Z :=
  match priority with
  | BACKGROUND => 0
  | DEFAULT | UTILITY => 20
  | USER_INITIATED => 40
  | USER_INTERACTIVE => 100
  end.

(** ** What can be asked for *)
Inductive request :=
| Main
| Global (priority : queue_priority)
| Serial (label : string) (priority : queue_priority)
| NaiveSerial (label : string) (pool : option nat) (priority : queue_priority)
| NaiveParallel (label : string) (pool : option nat) (priority : queue_priority)
| Qt5Serial (label : string) (thread : option nat) (priority : queue_priority)
| Qt5Parallel (label : string) (pool : option nat) (priority : queue_priority)
| Native (native : dispatch_queue)
| Waitable (label : string) (k : nat).   (* around the k-th queue so far *)

(** qt5::create_serial_queue is in the Qt library, libdispatch::create_queue exists with
    that backend. *)
Definition offered (p : platform) (r : request) : bool :=
  match r with
  | Qt5Serial _ _ _ | Qt5Parallel _ _ _ => BUILD_QT5 p && exported p qt5_backend
  | Native _ => BUILD_LIBDISPATCH p
  | _ => true
  end.
Definition serve (p : platform) (r : request) (qs : list queue) (w : world) : res (world * queue) :=
  match r with
  | Main => main_queue p w
  | Global priority => global_queue p priority w
  | Serial label priority => new_queue p label priority w
  | NaiveSerial label pool priority => naive_serial label pool priority w
  | NaiveParallel label pool priority => naive_parallel label pool priority w
  | Qt5Serial label thread priority => qt5_serial label thread priority w
  | Qt5Parallel label pool priority => qt5_parallel label pool priority w
  | Native native => inr (create_queue native w)
  | Waitable label k =>
      match qs !! k with Some q => inr (make_waitable_queue label q w) | None => inl Undefined end
  end.
(** The queues a program gets for its requests, in order. *)
Fixpoint serves (p : platform) (rs : list request) (qs : list queue) (w : world) : res (world * list queue) :=
  match rs with
  | [] => inr (w, qs)
  | r :: rs => bind (serve p r qs w) (fun '(w, q) => serves p rs (qs ++ [q]) w)
  end.

(** What building and loading the library guarantees: the Qt library and the backends
    it falls back to are found when they are there. *)
Record installed (p : platform) : Prop := {
  i_naive : exported p naive_backend = true;
  i_libdispatch : exported p libdispatch_backend = true -> BUILD_LIBDISPATCH p = true;
  i_qt5 : exported p qt5_backend = true -> BUILD_QT5 p = true
}.

(** ** Well-formed queues *)
Fixpoint innermost (q : iqueue_impl) : iqueue_impl :=
  match q with waitable_queue_impl _ inner => innermost inner | q => q end.
Definition is_native (q : iqueue_impl) : bool := match q with dispatch_queue_impl _ _ => true | _ => false end.

Definition typed_plain (p : platform) (q : iqueue_impl) : Prop :=
  match q with
  | serial_queue_impl _ b _ _ _ | parallel_queue_impl _ b _ _ =>
      b = naive \/ (b = qt5 /\ BUILD_QT5 p = true /\ exported p qt5_backend = true)
  | dispatch_queue_impl _ _ => BUILD_LIBDISPATCH p = true
  | waitable_queue_impl _ _ => False
  end.
Definition typed (p : platform) (q : iqueue_impl) : Prop := typed_plain p (innermost q).

Record world_ok (p : platform) (w : world) : Prop := {
  w_naive_main : forall q, s_naive_main w = Some q -> typed p q /\ address q < next w;
  w_main : forall q, s_main w = Some q -> typed p q /\ address q < next w;
  w_global : forall i q, s_global w i = Some q -> typed p q /\ address q < next w;
  w_distinct : forall i j q q', s_global w i = Some q -> s_global w j = Some q' ->
    address q = address q' -> i = j;
  w_main_distinct : forall i q q', (s_main w = Some q \/ s_naive_main w = Some q) -> s_global w i = Some q' ->
    address q <> address q'
}.

(** ** The factories are well behaved *)
Definition good_backend (p : platform) (b : ibackend) : Prop :=
  match b with
  | naive_backend => True
  | libdispatch_backend => BUILD_LIBDISPATCH p = true
  | qt5_backend => BUILD_QT5 p = true /\ exported p qt5_backend = true
  end.

Section factories.
Context (p : platform) (Hp : installed p).

Lemma backend_base_good : good_backend p (backend_base p).
Proof. unfold backend_base. by destruct (BUILD_LIBDISPATCH p) eqn:E. Qed.

Lemma backend_for_type_good t : exists b, backend_for_type p t = inr b /\ good_backend p b.
Proof.
  destruct Hp as [H1 H2 H3]. destruct t; simpl.
  - by exists naive_backend.
  - destruct (BUILD_QT5 p) eqn:E; [|by exists naive_backend]. unfold qt5_backend_get_static_instance. simpl.
    destruct (exported p qt5_backend) eqn:E1.
    + exists qt5_backend. split; [by destruct (BUILD_STATIC p)|done].
    + destruct (BUILD_STATIC p); [exists (backend_base p); split; [done|apply backend_base_good]|].
      destruct (exported p libdispatch_backend) eqn:E2; [exists libdispatch_backend; split; [done|by apply H2]|].
      rewrite H1. by exists naive_backend.
  - destruct (BUILD_LIBDISPATCH p) eqn:E; [by exists libdispatch_backend|by exists naive_backend].
Qed.

Lemma platform_backend_good : exists b, platform_backend p = inr b /\ good_backend p b.
Proof. unfold platform_backend. destruct (BUILD_QT5 p); [|destruct (BUILD_LIBDISPATCH p)]; apply backend_for_type_good. Qed.

(** A queue of type [t] is looked after by the backend class of that type. *)
Lemma backend_of_typed q : typed_plain p q ->
  backend_for_type p (backend q) =
  inr (match backend q with naive => naive_backend | qt5 => qt5_backend | libdispatch => libdispatch_backend end).
Proof.
  destruct q as [? b ? ? ?|? b ? ?|? ?|]; simpl; [| |by intros ->|done].
  all: intros [->|(-> & H1 & H2)]; [done|]; simpl; rewrite H1; unfold qt5_backend_get_static_instance; simpl;
    rewrite H2; by destruct (BUILD_STATIC p).
Qed.

Lemma backend_innermost q : backend (innermost q) = backend q.
Proof. by induction q. Qed.

Lemma base_of_good b : good_backend p b -> good_backend p (base_of p b).
Proof. destruct b; simpl; intros H; try done. apply backend_base_good. Qed.

(** A new object, and the world it has left. *)
Definition made (w w' : world) (q : iqueue_impl) : Prop :=
  typed_plain p q /\ address q = next w /\
  w' = World (S (next w)) (s_naive_main w) (s_main w) (s_global w).

Lemma create_serial_queue_made b l pr w : good_backend p b ->
  made w (create_serial_queue p b l pr w).1 (create_serial_queue p b l pr w).2.
Proof.
  intros H%base_of_good. unfold create_serial_queue. destruct (base_of p b); split_and!; try done; by left.
Qed.
Lemma create_parallel_queue_made b pr w : good_backend p b ->
  made w (create_parallel_queue p b pr w).1 (create_parallel_queue p b pr w).2.
Proof.
  intros H%base_of_good. unfold create_parallel_queue. destruct (base_of p b); split_and!; try done; by left.
Qed.

Lemma made_world w w' q : world_ok p w -> made w w' q -> world_ok p w' /\ typed p q /\ address q < next w'.
Proof.
  intros [H1 H2 H3 H4 H5] (Ht & Ha & ->). split; [|split; [|simpl; lia]].
  - split; simpl; eauto; intros.
    + destruct (H1 q0); [done|]. split; [done|lia].
    + destruct (H2 q0); [done|]. split; [done|lia].
    + destruct (H3 i q0); [done|]. split; [done|lia].
  - unfold typed. destruct q; by simpl.
Qed.

Lemma naive_main_ok w : world_ok p w ->
  let '(w', q) := naive_create_main_queue naive w in
  world_ok p w' /\ typed p q /\ address q < next w' /\ s_global w' = s_global w /\ s_main w' = s_main w /\
  (forall i q', s_global w i = Some q' -> address q <> address q').
Proof.
  intros Hw. pose proof Hw as [H1 H2 H3 H4 H5]. unfold naive_create_main_queue.
  destruct (s_naive_main w) as [q|].
  - destruct (H1 q eq_refl). split_and!; try done. intros i q' Hi. apply (H5 i); [by right|done].
  - simpl. split_and!; try done; [|by left|simpl; lia|].
    + split; simpl; eauto.
      * intros q [= <-]. split; [by left|simpl; lia].
      * intros q Hq. destruct (H2 q Hq). split; [done|lia].
      * intros i q Hq. destruct (H3 i q Hq). split; [done|lia].
      * intros i q q' [Hq|[= <-]] Hi; [eauto|]. destruct (H3 i q' Hi). simpl. lia.
    + intros i q' Hi. destruct (H3 i q' Hi). simpl. lia.
Qed.

Lemma create_main_queue_ok b w : good_backend p b -> world_ok p w ->
  let '(w', q) := create_main_queue p b w in
  world_ok p w' /\ typed p q /\ address q < next w' /\ s_global w' = s_global w /\
  (forall i q', s_global w i = Some q' -> address q <> address q').
Proof.
  intros Hb Hw.
  assert (Hfresh : forall q, typed_plain p q -> address q = next w ->
    world_ok p (World (S (next w)) (s_naive_main w) (s_main w) (s_global w)) /\ typed p q /\ address q < S (next w) /\
    s_global w = s_global w /\ (forall i q', s_global w i = Some q' -> address q <> address q')).
  { intros q Ht Ha. destruct (made_world w _ q Hw (conj Ht (conj Ha eq_refl))) as (G1 & G2 & G3).
    split_and!; try done. intros i q' Hi. destruct (w_global _ _ Hw i q' Hi). lia. }
  assert (Hnaive : let '(w', q) := naive_create_main_queue naive w in
    world_ok p w' /\ typed p q /\ address q < next w' /\ s_global w' = s_global w /\
    (forall i q', s_global w i = Some q' -> address q <> address q')).
  { pose proof (naive_main_ok w Hw) as H. destruct (naive_create_main_queue naive w). tauto. }
  destruct b; simpl in *; [done|by apply Hfresh|]. unfold qt5_create_main_queue.
  destruct (application p) as [thread|]; [apply Hfresh; simpl; tauto|]. unfold base_create_main_queue.
  destruct (BUILD_LIBDISPATCH p) eqn:E; [by apply Hfresh|exact Hnaive].
Qed.

(** The global queue in a well-formed world: its static, from then on. *)
Lemma global_queue_ok pr w : world_ok p w ->
  exists w' q, global_queue p pr w = inr (w', q) /\ world_ok p w' /\ typed p (m_impl q) /\
    s_global w' (global_index pr) = Some (m_impl q) /\
    (forall i q', s_global w i = Some q' -> s_global w' i = Some q').
Proof.
  intros Hw. unfold global_queue. destruct (s_global w (global_index pr)) as [q|] eqn:E.
  - exists w, (Queue q (global_label (global_index pr))). destruct (w_global _ _ Hw _ _ E). done.
  - destruct platform_backend_good as (b & -> & Hb). simpl.
    pose proof (create_parallel_queue_made b (global_priority (global_index pr)) w Hb) as Hm.
    destruct (create_parallel_queue _ _ _ _) as [w1 q]. simpl in Hm. pose proof (made_world _ _ _ Hw Hm) as (Hw1 & Ht & Ha).
    destruct Hm as (_ & Hq & ->). simpl in *. eexists _, _. split; [reflexivity|].
    pose proof Hw as [H1 H2 H3 H4 H5]. destruct Hw1 as [G1 G2 G3 G4 G5]. simpl in *.
    assert (Hins : forall i q', <[global_index pr := Some q]> (s_global w) i = Some q' ->
      (i = global_index pr /\ q' = q) \/ (i <> global_index pr /\ s_global w i = Some q')).
    { intros i q'. destruct (decide (i = global_index pr)) as [-> |Hn].
      - rewrite fn_lookup_insert. intros [= ->]. by left.
      - rewrite fn_lookup_insert_ne by done. by right. }
    split_and!; simpl; [split; simpl|done|by rewrite fn_lookup_insert|].
    + exact G1.
    + exact G2.
    + intros i q' [[-> ->]|[_ Hi]]%Hins; [done|eauto].
    + intros i j q1 q2 [[-> ->]|[Hi1 Hi]]%Hins [[-> ->]|[Hj1 Hj]]%Hins Hadr; try done; [| |eauto].
      * destruct (H3 j q2 Hj). lia.
      * destruct (H3 i q1 Hi). lia.
    + intros i q1 q2 Hq1 [[-> ->]|[Hi1 Hi]]%Hins; [|eauto]. rewrite Hq.
      destruct Hq1 as [Hq1|Hq1]; [destruct (H2 _ Hq1)|destruct (H1 _ Hq1)]; lia.
    + intros i q' Hi. destruct (decide (i = global_index pr)) as [-> |Hn]; [congruence|].
      by rewrite fn_lookup_insert_ne.
Qed.

Lemma main_queue_ok w w' q : world_ok p w -> main_queue p w = inr (w', q) -> world_ok p w' /\ typed p (m_impl q).
Proof.
  intros Hw. unfold main_queue. destruct (s_main w) as [i|] eqn:E.
  - intros [= <- <-]. destruct (w_main _ _ Hw i E). done.
  - destruct platform_backend_good as (b & -> & Hb). simpl.
    pose proof (create_main_queue_ok b w Hb Hw) as H. destruct (create_main_queue p b w) as [w1 i].
    destruct H as ([H1 H2 H3 H4 H5] & Ht & Ha & Hg & Hd). intros [= <- <-]. split; [|done].
    split; simpl; eauto.
    + intros q [= <-]. done.
    + intros k q1 q2 [[= <-]|Hq] Hk; [|eauto]. rewrite Hg in Hk. by eapply Hd.
Qed.

Lemma fresh_ok w q : world_ok p w -> address q = next w -> typed p q ->
  world_ok p (World (S (next w)) (s_naive_main w) (s_main w) (s_global w)) /\ typed p q.
Proof.
  intros [H1 H2 H3 H4 H5] Ha Ht. split; [|done]. split; simpl; eauto; intros.
  - destruct (H1 q0); [done|]. split; [done|lia].
  - destruct (H2 q0); [done|]. split; [done|lia].
  - destruct (H3 i q0); [done|]. split; [done|lia].
Qed.

Lemma serve_ok r qs w w' q : world_ok p w -> Forall (fun q => typed p (m_impl q)) qs -> offered p r = true ->
  serve p r qs w = inr (w', q) -> world_ok p w' /\ typed p (m_impl q).
Proof.
  intros Hw Hqs Ho.
  destruct r as [|pr|l pr|l [n|] pr|l [n|] pr|l [n|] pr|l [n|] pr|d|l k]; cbn [serve offered] in *; try done.
  - by apply main_queue_ok.
  - intros E. destruct (global_queue_ok pr w Hw) as (w1 & q1 & E1 & H1 & H2 & _). rewrite E1 in E. by injection E as <- <-.
  - unfold new_queue. destruct platform_backend_good as (b & -> & Hb). cbn [bind].
    pose proof (create_serial_queue_made b l pr w Hb) as Hm. destruct (create_serial_queue _ _ _ _) as [w1 i].
    intros [= <- <-]. destruct (made_world _ _ _ Hw Hm) as (? & ? & _). done.
  - intros [= <- <-]. apply fresh_ok; [done|done|by left].
  - intros [= <- <-]. apply fresh_ok; [done|done|by left].
  - apply andb_true_iff in Ho as [? ?]. intros [= <- <-]. apply fresh_ok; [done|done|by right].
  - apply andb_true_iff in Ho as [? ?]. intros [= <- <-]. apply fresh_ok; [done|done|by right].
  - intros [= <- <-]. apply fresh_ok; [done|done|done].
  - destruct (qs !! k) as [q1|] eqn:E; [|done]. intros [= <- <-].
    pose proof (Forall_lookup_1 _ _ _ _ Hqs E) as Ht. apply fresh_ok; [done|done|exact Ht].
Qed.

Lemma serves_ok rs : forall qs w w' qs', world_ok p w -> Forall (fun q => typed p (m_impl q)) qs ->
  forallb (offered p) rs = true -> serves p rs qs w = inr (w', qs') ->
  world_ok p w' /\ Forall (fun q => typed p (m_impl q)) qs'.
Proof.
  induction rs as [|r rs IH]; intros qs w w' qs' Hw Hqs Ho; simpl in *; [by intros [= <- <-]|].
  apply andb_true_iff in Ho as [Ho1 Ho2]. destruct (serve p r qs w) as [|[w1 q]] eqn:E; [done|]. simpl.
  destruct (serve_ok _ _ _ _ _ Hw Hqs Ho1 E) as [Hw1 Hq]. apply IH; [done| |done]. apply Forall_app. by repeat constructor.
Qed.

Lemma empty_world_ok : world_ok p empty_world.
Proof. split; simpl; try done; by intros ? ? ? [?|?]. Qed.
End factories.

(** ** What a queue can be used for *)
Definition is_waitable (q : iqueue_impl) : bool := match q with waitable_queue_impl _ _ => true | _ => false end.

Section services.
Context (p : platform) (Hp : installed p).

Lemma create_timer_typed q : typed p q ->
  bind (backend_for_type p (backend q)) (fun b => create_timer p b q) =
  match innermost q with
  | dispatch_queue_impl _ native => if is_waitable q then inl Undefined else inr (dispatch_timer native)
  | _ => inr (naive_timer (backend q) q)
  end.
Proof.
  unfold typed. intros Ht. pose proof (backend_of_typed p _ Ht) as Hb. rewrite backend_innermost in Hb. rewrite Hb.
  pose proof (backend_innermost q) as Hi.
  destruct (innermost q) as [? b ? ? ?|? b ? ?|? native|] eqn:E; simpl in Ht, Hi; [| | |done].
  - destruct Ht as [->|(-> & _)]; rewrite <- Hi; simpl; [done|]. by rewrite <- Hi.
  - destruct Ht as [->|(-> & _)]; rewrite <- Hi; simpl; [done|]. by rewrite <- Hi.
  - rewrite <- Hi. simpl. unfold libdispatch_create_timer, impl_2_native. rewrite <- Hi. simpl.
    destruct q; simpl in *; try done. by injection E as -> ->.
Qed.

Lemma create_notifier_typed s t q : typed p q ->
  bind (backend_for_type p (backend q)) (fun b => create_socket_notifier p b q s t) =
  match innermost q with
  | dispatch_queue_impl _ native => if is_waitable q then inl Undefined else inr (dispatch_notifier native s t)
  | _ => inr (naive_notifier (backend q) q s t)
  end.
Proof.
  unfold typed. intros Ht. pose proof (backend_of_typed p _ Ht) as Hb. rewrite backend_innermost in Hb. rewrite Hb.
  pose proof (backend_innermost q) as Hi.
  destruct (innermost q) as [? b ? ? ?|? b ? ?|? native|] eqn:E; simpl in Ht, Hi; [| | |done].
  - destruct Ht as [->|(-> & _)]; rewrite <- Hi; simpl; [done|]. by rewrite <- Hi.
  - destruct Ht as [->|(-> & _)]; rewrite <- Hi; simpl; [done|]. by rewrite <- Hi.
  - rewrite <- Hi. simpl. unfold libdispatch_create_socket_notifier, impl_2_native. rewrite <- Hi. simpl.
    destruct q; simpl in *; try done. by injection E as -> ->.
Qed.
End services.

(** C31: Whatever queues a program asks for and in whatever order, each queue it gets
    can be used for a timer, a notifier and after() of its own backend, on the
    queue itself or on the native queue behind it: the checks of the constructors
    pass.  The exception is a waitable queue around a queue of libdispatch: it
    says it is one of libdispatch, and each of the three takes it for the
    queue_impl it is not. *)
Theorem queues_serve_their_backend p rs w qs i s t :
  installed p -> forallb (offered p) rs = true -> serves p rs [] empty_world = inr (w, qs) ->
  Forall (fun q =>
    match innermost (m_impl q) with
    | dispatch_queue_impl _ native =>
        if is_waitable (m_impl q)
        then make_timer p i q = inl Undefined /\ make_socket_notifier p s t q = inl Undefined /\
             after p (m_impl q) = inl Undefined
        else make_timer p i q = inr (Timer (dispatch_timer native) i q) /\
             make_socket_notifier p s t q = inr (Notifier (dispatch_notifier native s t) q) /\
             after p (m_impl q) = inr None
    | _ =>
        let b := backend (m_impl q) in
        make_timer p i q = inr (Timer (naive_timer b (m_impl q)) i q) /\
        make_socket_notifier p s t q = inr (Notifier (naive_notifier b (m_impl q) s t) q) /\
        after p (m_impl q) = inr (Some (naive_timer b (m_impl q)))
    end) qs.
Proof.
  intros Hp Ho Hs. destruct (serves_ok p Hp rs [] _ _ _ (empty_world_ok p) (Forall_nil_2 _) Ho Hs) as [_ Hq].
  eapply list.Forall_impl; [exact Hq|]. intros [q l] Ht. simpl in Ht.
  pose proof (create_timer_typed p q Ht) as H1. pose proof (create_notifier_typed p s t q Ht) as H2.
  unfold make_timer, make_socket_notifier, after. simpl.
  destruct (backend_for_type p (backend q)) as [e|b].
  { simpl in *. destruct (innermost q); try done. destruct q; simpl in *; try done. by injection H1 as ->. }
  simpl in *. rewrite H1, H2. pose proof (backend_innermost q) as Hi.
  destruct (innermost q) as [? b' ? ? ?|? b' ? ?|? native|] eqn:E; simpl in *.
  1, 2: unfold timer_with, notifier_with, assert_same_backend; simpl; rewrite (bool_decide_true _ eq_refl); simpl;
    split_and!; try done; destruct q; simpl in *; done.
  - destruct q; simpl in *; try done.
  - unfold typed in Ht. by rewrite E in Ht.
Qed.

(** Global_queue gives the same queue whenever it is called with priorities of the
    same class, DEFAULT being in that of UTILITY, and different ones otherwise,
    none of which is the main queue. *)
Theorem global_queues_unique p rs w qs pr1 pr2 :
  installed p -> forallb (offered p) rs = true -> serves p rs [] empty_world = inr (w, qs) ->
  exists w1 q1 w2 q2,
    global_queue p pr1 w = inr (w1, q1) /\ global_queue p pr2 w1 = inr (w2, q2) /\
    queue_eqb q1 q2 = bool_decide (global_index pr1 = global_index pr2) /\
    (forall w3 m, main_queue p w2 = inr (w3, m) -> queue_eqb m q1 = false).
Proof.
  intros Hp Ho Hs. destruct (serves_ok p Hp rs [] _ _ _ (empty_world_ok p) (Forall_nil_2 _) Ho Hs) as [Hw _].
  destruct (global_queue_ok p Hp pr1 w Hw) as (w1 & q1 & E1 & Hw1 & _ & Hs1 & _).
  destruct (global_queue_ok p Hp pr2 w1 Hw1) as (w2 & q2 & E2 & Hw2 & _ & Hs2 & Hk).
  exists w1, q1, w2, q2. split; [done|]. split; [done|]. unfold queue_eqb. specialize (Hk _ _ Hs1). split.
  - case_bool_decide as Hc; [rewrite Hc in Hk; rewrite Hk in Hs2; injection Hs2 as ->; apply Nat.eqb_refl|].
    apply Nat.eqb_neq. intros He. apply Hc. by apply (w_distinct _ _ Hw2 _ _ _ _ Hk Hs2).
  - intros w3 m. unfold main_queue. destruct (s_main w2) as [i|] eqn:Em.
    + intros [= <- <-]. apply Nat.eqb_neq, (w_main_distinct _ _ Hw2 (global_index pr1)); [by left|done].
    + destruct (platform_backend_good p Hp) as (b & -> & Hb). simpl.
      pose proof (create_main_queue_ok p b w2 Hb Hw2) as H. destruct (create_main_queue p b w2) as [w4 i].
      destruct H as (_ & _ & _ & _ & Hd). intros [= <- <-]. apply Nat.eqb_neq, (Hd _ _ Hk).
Qed.

(** What runs the operations of a queue. *)
Definition runs (p : platform) (l : main_loop) (q : iqueue_impl) : Prop :=
  match q with
  | serial_queue_impl _ _ MainThread _ _ => l = manual_thread_run
  | serial_queue_impl _ _ (ThreadProxy thread) _ _ => l = QCoreApplication_exec /\ application p = Some thread
  | dispatch_queue_impl _ NativeMain => l = dispatch_main
  | _ => False
  end.

(** Exec() runs what the main queue needs: the thread of the naive backend, the
    event loop of the QCoreApplication, or dispatch_main(). *)
Theorem exec_runs_main_queue p w q :
  installed p -> main_queue p empty_world = inr (w, q) ->
  exists l, exec p = inr l /\ runs p l (m_impl q) /\ main_queue p w = inr (w, q).
Proof.
  intros Hp. unfold main_queue, exec. simpl. destruct (platform_backend_good p Hp) as (b & -> & _). simpl.
  assert (H : runs p (exec_of p b) (create_main_queue p b empty_world).2).
  { destruct b; simpl; [done..|]. unfold qt5_create_main_queue, base_create_main_queue, backend_base.
    destruct (application p) eqn:E; [done|]. by destruct (BUILD_LIBDISPATCH p). }
  destruct (create_main_queue p b empty_world) as [w1 i]. intros [= <- <-]. by exists (exec_of p b).
Qed.

(** A group made by the library takes operations for any queue.  One made around a
    native group ends the process when it is given a queue of another backend,
    where std::logic_error is documented, before the operation reaches either;
    with a waitable queue around a queue of libdispatch the check passes, and
    group_impl takes it for the queue_impl it is not. *)
Theorem group_mixing p g n op q :
  installed p -> make_group p = inr g ->
  (group_async g (Some op) q = inr (GroupAsync g (m_impl q) op) /\
   group_impl_target g (m_impl q) = inr (inl (m_impl q))) /\
  (if decide (backend (m_impl q) = libdispatch)
   then group_async (dispatch_group n) (Some op) q = inr (GroupAsync (dispatch_group n) (m_impl q) op) /\
        group_impl_target (dispatch_group n) (m_impl q) =
          match m_impl q with dispatch_queue_impl _ native => inr (inr native) | _ => inl Undefined end
   else group_async (dispatch_group n) (Some op) q = inl Terminated /\
        group_notify (dispatch_group n) (Some op) q = inl Terminated).
Proof.
  intros Hp. unfold make_group. destruct (platform_backend_good p Hp) as (b & -> & _). intros [= <-].
  split; [done|]. unfold group_async, group_notify, group_impl_target, group_check, impl_2_native, assert_same_backend.
  simpl. destruct (decide _) as [->|Hn]; simpl.
  - split; [done|]. by destruct (m_impl q).
  - rewrite bool_decide_false by congruence. done.
Qed.

(** A native queue that is given to the library comes back: the queue made around
    it has its label, is of libdispatch, and is that queue again for whatever
    libdispatch is asked to do on it. *)
Theorem native_queue_roundtrip p native w i :
  BUILD_LIBDISPATCH p = true ->
  let q := (create_queue native w).2 in
  impl_2_native (implementation q) = inr native /\ label q = native_label native /\
  make_timer p i q = inr (Timer (dispatch_timer native) i q).
Proof.
  intros Hb q. split_and!; [done..|]. unfold make_timer, backend_for_type. simpl. rewrite Hb. done.
Qed.

(** ** Witnesses *)
Definition desktop : platform :=
  Platform true true false true (fun _ => true) (Some 0).
Definition linux : platform :=
  Platform false false false false (fun b => match b with naive_backend => true | _ => false end) None.
Definition wanted : list request :=
  [Main; Global DEFAULT; Serial "a" UTILITY; NaiveSerial "b" (Some 1) DEFAULT; Qt5Serial "c" (Some 2) DEFAULT;
   Native (NativeGiven 3 "d"); Waitable "e" 2; Waitable "f" 4; Global UTILITY; Main].

Lemma desktop_installed : installed desktop.
Proof. done. Qed.

Definition made_for (p : platform) (rs : list request) : world * list queue :=
  match serves p rs [] empty_world with inr r => r | inl _ => (empty_world, []) end.
Lemma wanted_served : serves desktop wanted [] empty_world = inr (made_for desktop wanted).
Proof. reflexivity. Qed.

Lemma queues_serve_their_backend_witness :
  length (made_for desktop wanted).2 = 10 /\
  Forall (fun q => is_waitable (m_impl q) = true -> is_native (innermost (m_impl q)) = true ->
    after desktop (m_impl q) = inl Undefined) (made_for desktop wanted).2.
Proof.
  split; [reflexivity|]. eapply list.Forall_impl;
    [apply (queues_serve_their_backend desktop wanted (made_for desktop wanted).1 _ 5 3 Notifier.READ);
      [exact desktop_installed|reflexivity|exact wanted_served]|].
  intros q H H1 H2. cbv beta in H. rewrite H1 in H. destruct (innermost (m_impl q)); try done. tauto.
Defined.

Lemma global_queues_unique_witness :
  exists w1 q1 w2 q2,
    global_queue desktop DEFAULT (made_for desktop wanted).1 = inr (w1, q1) /\ global_queue desktop UTILITY w1 = inr (w2, q2) /\
    queue_eqb q1 q2 = bool_decide (global_index DEFAULT = global_index UTILITY) /\
    (forall w3 m, main_queue desktop w2 = inr (w3, m) -> queue_eqb m q1 = false).
Proof.
  apply (global_queues_unique desktop wanted _ (made_for desktop wanted).2);
    [exact desktop_installed|reflexivity|exact wanted_served].
Defined.

Lemma exec_runs_main_queue_witness : exists w q,
  main_queue linux empty_world = inr (w, q) /\ exists l, exec linux = inr l /\ runs linux l (m_impl q) /\ main_queue linux w = inr (w, q).
Proof.
  eexists _, _. split; [reflexivity|]. apply exec_runs_main_queue; [|reflexivity]. by split.
Defined.

Lemma group_mixing_witness : exists g, make_group desktop = inr g /\
  group_async (dispatch_group 0) (Some 4) (Queue (serial_queue_impl 0 qt5 (ThreadProxy 1) "q" DEFAULT) "q") = inl Terminated.
Proof.
  exists (naive_group naive). split; [reflexivity|].
  pose proof (group_mixing desktop (naive_group naive) 0 4 (Queue (serial_queue_impl 0 qt5 (ThreadProxy 1) "q" DEFAULT) "q")
    desktop_installed eq_refl) as [_ H].
  simpl in H. apply H.
Defined.

Lemma native_queue_roundtrip_witness :
  impl_2_native (implementation (create_queue NativeMain empty_world).2) = inr NativeMain /\
  label (create_queue NativeMain empty_world).2 = native_label NativeMain /\
  make_timer desktop 5 (create_queue NativeMain empty_world).2 =
    inr (Timer (dispatch_timer NativeMain) 5 (create_queue NativeMain empty_world).2).
Proof. apply (native_queue_roundtrip desktop NativeMain empty_world 5). reflexivity. Defined.
End Backend.
