(* ===== verification/Overloads.v ===== *)
(** * Overloads: the facades given functions

    The templates of include/xdispatch/queue.h, group.h, timer.h and socket_notifier.h
    that take a function instead of an operation: make() of Operation, and the facades of
    Backend with what it makes. *)
From S2P Require Import Prelude Conc Operation Decl Backend.

Module Overloads.
Import Operation Backend.

Section overloads.
Context {State Params Func Member Derived : Type}.
Context (call_func : Func -> Params -> State -> State).
Context (call_member : nat -> Member -> Params -> State -> State).
Context (call_derived : Derived -> Params -> State -> State).
#[local] Abbreviation heap := (list (@parameterized_operation Func Member Derived)).
#[local] Abbreviation argument := (@argument Func Member).

(** The call of the overload for operations, with the operation that is made. *)
Definition made {A} (mk : argument -> heap -> heap * operation_ptr) (call : operation_ptr -> A) (a : argument) (h : heap)
    : heap * A :=
  let (h, op) := mk a h in (h, call op).

Definition queue_async_func (q : queue) := made make_operation (queue_async q).
Definition queue_apply_func (q : queue) (times : nat) := made make_iteration_operation (queue_apply q times).
Definition queue_after_func (q : queue) (delay : Z) := made make_operation (queue_after q delay).
Definition group_async_func (g : igroup_impl) (q : queue) := made make_operation (fun op => group_async g op q).
Definition group_notify_func (g : igroup_impl) (q : queue) := made make_operation (fun op => group_notify g op q).
Definition timer_handler_func (t : timer) := made make_operation (timer_handler t).
Definition notifier_handler_func (n : socket_notifier) := made make (notifier_handler n).
Definition group_async_priority_func (p : platform) (g : igroup_impl) (priority : queue_priority) (w : world) :=
  made make_operation (fun op => group_async_priority p g op priority w).

(** The templates but the last, which may make the queue. *)
Inductive template :=
| QueueAsync (q : queue)
| QueueApply (q : queue) (times : nat)
| QueueAfter (q : queue) (delay : Z)
| GroupAsyncOn (g : igroup_impl) (q : queue)
| GroupNotifyOn (g : igroup_impl) (q : queue)
| TimerSet (t : timer)
| NotifierSet (n : socket_notifier).
Definition call_template (x : template) : argument -> heap -> heap * res forwarded :=
  match x with
  | QueueAsync q => queue_async_func q
  | QueueApply q times => queue_apply_func q times
  | QueueAfter q delay => queue_after_func q delay
  | GroupAsyncOn g q => group_async_func g q
  | GroupNotifyOn g q => group_notify_func g q
  | TimerSet t => timer_handler_func t
  | NotifierSet n => notifier_handler_func n
  end.

(** What the implementation is to get. *)
Definition promised (x : template) (op : nat) : forwarded :=
  match x with
  | QueueAsync q => Async (m_impl q) op
  | QueueApply q times => Apply (m_impl q) times op
  | QueueAfter q delay => After (m_impl q) delay op
  | GroupAsyncOn g q => GroupAsync g (m_impl q) op
  | GroupNotifyOn g q => GroupNotify g (m_impl q) op
  | TimerSet t => TimerHandler (t_impl t) op
  | NotifierSet n => NotifierHandler (n_impl n) op
  end.
(** The check of backends a group makes; a null pointer meets an assertion in a queue
    or a group, and is dereferenced by a timer or a notifier. *)
Definition mixing (x : template) : res unit :=
  match x with GroupAsyncOn g q | GroupNotifyOn g q => group_check g q | _ => inr tt end.
Definition on_null (x : template) : fault :=
  match x with TimerSet _ | NotifierSet _ => Undefined | _ => Terminated end.

Lemma call_template_made x a h :
  call_template x a h =
  let (h', op) := make a h in
  (h', match op with
       | Some i => match mixing x with inl f => inl f | inr _ => inr (promised x i) end
       | None => inl (on_null x)
       end).
Proof.
  assert (make_operation a h = make a h) as E by (by destruct a).
  destruct x; simpl; unfold queue_async_func, queue_apply_func, queue_after_func, group_async_func, group_notify_func,
    timer_handler_func, notifier_handler_func, make_iteration_operation, made; rewrite ?E;
    destruct (make a h) as [h' [i|]]; try done; unfold group_async, group_notify; simpl; by destruct (group_check _ _).
Qed.

(** Whatever is handed to a facade, a function, a member function or a pointer to an
    operation: the implementation gets one operation, which does what was meant by it,
    then and after any further operation is made; nothing reaches it when the backends
    of a group and its queue do not fit, or the pointer is null. *)
Theorem overloads_forward x a h :
  (valid h a ->
   exists i h', (call_template x a h).1 = h ++ h' /\
   (call_template x a h).2 = match mixing x with inl f => inl f | inr _ => inr (promised x i) end /\
   forall later p s,
     execute_operation_on_this_thread call_func call_member call_derived (Some i) p (h ++ h' ++ later) s =
     meaning call_func call_member call_derived a p h s) /\
  (a = Pointer None -> call_template x a h = (h, inl (on_null x))).
Proof.
  rewrite call_template_made. split; [|by intros ->].
  intros Hv. destruct (make_grows a h) as (h' & E & Ha). specialize (Ha Hv).
  pose proof (fun p s => make_means call_func call_member call_derived a p h s) as Hm.
  destruct (make a h) as [h1 op]. cbn [fst snd] in *. subst h1. destruct Ha as (i & -> & Hi).
  exists i, h'. split_and!; [done..|]. intros later p s. 
    rewrite app_assoc. etransitivity; [apply execute_grows; by exists i|apply Hm].
Qed.
End overloads.

Definition a_queue : queue := Queue (parallel_queue_impl 1 naive GlobalPool DEFAULT) k_label_main.
(** A function for a group, with one operation there before. *)
Definition by_function (h : list (@parameterized_operation nat nat nat)) :=
  call_template (GroupNotifyOn (naive_group naive) a_queue) (Function 3) h.
Theorem overloads_forward_witness :
  exists i h', (by_function [derived_operation 10]).1 = [derived_operation 10] ++ h' /\
  forall later p s,
    execute_operation_on_this_thread (fun f p s => s + f * p) (fun obj m p s => s * m + obj + p) (fun d p s => d + p)
      (Some i) p ([derived_operation 10] ++ h' ++ later) s = inr (s + 3 * p).
Proof.
  destruct (proj1 (overloads_forward (fun f p s : nat => s + f * p) (fun obj m p s => s * m + obj + p) (fun d p s => d + p)
    (GroupNotifyOn (naive_group naive) a_queue) (Function 3)
    [derived_operation 10]) I) as (i & h' & E1 & _ & E3).
  exists i, h'. split; [exact E1|exact E3].
Defined.
End Overloads.
