(* ===== verification/Diagnostics.v ===== *)
(** * Diagnostics: src/trace_utils.h, src/symbol_utils.h, the names of threads

    The trace stream, whose lines any number of threads write to std::cerr; how a
    function is looked up by its name; and what threads are called: naming in
    src/thread_utils.cpp, src/naive/naive_threadpool.cpp and
    src/naive/naive_operation_queue.cpp. *)
From stdpp Require Import strings.
From S2P Require Import Prelude Conc Decl ThreadUtils Backend.

(** * Lines of trace *)
Module Trace.

Inductive piece := Text (s : string) | Endl.
(** std::cerr as who wrote what; CS() as its owner; the static of is_trace_enabled(). *)
Record stream := Stream { CS : option nat; cerr : list (nat * piece); s_trace_enabled : option bool }.

Definition XDISPATCH_TRACE_PREFIX : string := "[xdispatch2] ".

Section code.
(** XDISPATCH2_TRACE in the environment. *)
Context (XDISPATCH2_TRACE : option string).

Definition is_trace_enabled : prog stream bool :=
  guarded Undefined (fun _ s =>
    match ThreadUtils.is_trace_enabled (s_trace_enabled s) XDISPATCH2_TRACE with
    | inl _ => Some None
    | inr b => Some (Some (Stream (CS s) (cerr s) (Some b), b))
    end).

(** trace_stream: the constructor, operator<<, the destructor. *)
Definition lock (t : nat) : prog stream unit :=
  await (fun s => bool_decide (CS s = None)) (fun s => Stream (Some t) (cerr s) (s_trace_enabled s)).
Definition put (t : nat) (x : piece) : prog stream unit :=
  modify (fun s => Stream (CS s) (cerr s ++ [(t, x)]) (s_trace_enabled s)).
Definition unlock : prog stream unit := modify (fun s => Stream None (cerr s) (s_trace_enabled s)).
Definition trace_stream (t : nat) (texts : list string) : prog stream unit :=
  do! lock t in
  do! put t (Text XDISPATCH_TRACE_PREFIX) in
  do! each (fun x => put t (Text x)) texts in
  do! put t Endl in
  unlock.

(** for (bool enabled = is_trace_enabled(); enabled; enabled = false) *)
Definition XDISPATCH_TRACE (t : nat) (texts : list string) : prog stream unit :=
  let! enabled := is_trace_enabled in
  Iter (fun enabled =>
    if enabled : bool then do! trace_stream t texts in Ret (inl false) else Ret (inr tt)) enabled.
Definition XDISPATCH_WARNING (t : nat) (texts : list string) : prog stream unit := trace_stream t texts.

Inductive call := Trace_ (texts : list string) | Warning (texts : list string).
Definition run_call (t : nat) (c : call) : prog stream unit :=
  match c with Trace_ l => XDISPATCH_TRACE t l | Warning l => XDISPATCH_WARNING t l end.
Definition start (scripts : list (list call)) : cfg stream :=
  (Stream None [] None, imap (fun t cs => each (run_call t) cs) scripts).
End code.

(** What a call has to write. *)
Definition line (t : nat) (texts : list string) : list (nat * piece) :=
  map (pair t) (Text XDISPATCH_TRACE_PREFIX :: map Text texts ++ [Endl]).
Definition lines (enabled : bool) (t : nat) (c : call) : list (nat * piece) :=
  match c with Trace_ l => if enabled then line t l else [] | Warning l => line t l end.
Definition own (t : nat) (l : list (nat * piece)) : list (nat * piece) := filter (fun x => x.1 = t) l.

Lemma own_app t l1 l2 : own t (l1 ++ l2) = own t l1 ++ own t l2.
Proof. apply list.filter_app. Qed.
Lemma own_map t l : own t (map (pair t) l) = map (pair t) l.
Proof. unfold own. induction l as [|x l IH]; [done|]. simpl. by rewrite filter_cons_True, IH. Qed.
Lemma own_other t u x : u <> t -> own u [(t, x)] = [].
Proof. intros H. unfold own. by rewrite filter_cons_False by (simpl; congruence). Qed.

Section proof.
Context (XDISPATCH2_TRACE : option string) (enabled : bool).
Context (Henv : ThreadUtils.is_env_enabled XDISPATCH2_TRACE = inr enabled).

Definition whole (l : list (nat * piece)) : Prop := exists t texts, l = line t texts.
(** Complete lines, and of one that is being written [p]. *)
Definition shown (p : list (nat * piece)) (s : stream) : Prop :=
  exists ls, cerr s = concat ls ++ p /\ Forall whole ls.
Record good (s : stream) : Prop := {
  g_static : s_trace_enabled s = None \/ s_trace_enabled s = Some enabled;
  g_shown : match CS s with
            | None => shown [] s
            | Some t => exists texts p, shown p s /\ p `prefix_of` line t texts
            end
}.
Record keeps (t : nat) (s s' : stream) : Prop := {
  k_CS : CS s' = Some t <-> CS s = Some t;
  k_held : CS s = Some t -> cerr s' = cerr s;
  k_own : own t (cerr s') = own t (cerr s)
}.
#[export] Instance trace_keeps_pre t : PreOrder (keeps t).
Proof.
  split; [by split|]. intros x y z [H1 H2 H3] [K1 K2 K3]. split; [by rewrite K1, H1| |congruence].
  intros H. rewrite K2, H2; [done|done|by apply H1].
Qed.
Definition protocol : Conc.protocol stream :=
  Protocol good keeps (fun t s => exists u, CS s = Some u /\ u <> t) trace_keeps_pre.

(** Outside of a line, and inside of one. *)
Definition outside (t : nat) (l : list (nat * piece)) (s : stream) : Prop := CS s <> Some t /\ own t (cerr s) = l.
Definition within (t : nat) (l p : list (nat * piece)) (s : stream) : Prop :=
  CS s = Some t /\ shown p s /\ own t (cerr s) = l ++ p.

Lemma outside_stable t l : stable protocol t (outside t l).
Proof. intros s s' [H1 H2] _ _ [K1 K2 K3]. split; [by rewrite K1|congruence]. Qed.
Lemma within_stable t l p : stable protocol t (within t l p).
Proof.
  intros s s' (H1 & H2 & H3) _ _ [K1 K2 K3]. split_and!; [by apply K1| |congruence].
  unfold shown in *. by rewrite K2.
Qed.

Lemma enabled_spec t l :
  triple protocol t (outside t l) (is_trace_enabled XDISPATCH2_TRACE) (fun b s => b = enabled /\ outside t l s).
Proof.
  apply triple_guarded.
  - apply outside_stable.
  - intros b s s' [? H] ? ? ?. split; [done|]. by eapply outside_stable.
  - intros s _ _. left. apply enabled_0. by destruct (ThreadUtils.is_trace_enabled _ _).
  - intros o s [[E|E] H2] [H3 H4]; rewrite E; simpl; [rewrite Henv|];
      (split; [split; [by right|exact H2]|split; [by intros u Hu; split|by split]]).
Qed.

Lemma trace_lock_spec t l : triple protocol t (outside t l) (lock t) (fun _ => within t l []).
Proof.
  apply triple_block.
  - apply outside_stable.
  - intros _. apply within_stable.
  - intros s _ [H _]. destruct (CS s) as [u|] eqn:E.
    + right. exists u. split; [done|congruence].
    + left. apply enabled_0. by rewrite bool_decide_true.
  - intros o s s' [] [G1 G2] [H1 H2] E. case_bool_decide as En; [|done]. injection E as <-. rewrite En in G2.
    split_and!.
    + split; [done|]. exists [], []. split; [exact G2|apply prefix_nil].
    + intros u Hu. split; simpl; [|congruence|done]. rewrite En. split; congruence.
    + split_and!; [done|exact G2|]. by rewrite app_nil_r.
Qed.

Lemma put_spec t l texts p x :
  p ++ [(t, x)] `prefix_of` line t texts ->
  triple protocol t (within t l p) (put t x) (fun _ => within t l (p ++ [(t, x)])).
Proof.
  intros Hp. apply triple_modify; [apply within_stable..|]. intros s [G1 G2] (H1 & (ls & H2 & H2') & H3).
  assert (Hs : shown (p ++ [(t, x)]) (Stream (CS s) (cerr s ++ [(t, x)]) (s_trace_enabled s))).
  { exists ls. split; [|done]. simpl. by rewrite H2, <- app_assoc. }
  split_and!.
  - split; simpl; [done|]. rewrite H1. by exists texts, (p ++ [(t, x)]).
  - intros u Hu. split; simpl; [done|rewrite H1; congruence|]. by rewrite own_app, own_other, app_nil_r.
  - split_and!; [done|done|]. simpl. rewrite own_app, H3, <- app_assoc. do 2 f_equal. apply (own_map t [x]).
Qed.

Lemma put_all_spec t l texts xs ys : texts = ys ++ xs ->
  triple protocol t (within t l (map (pair t) (Text XDISPATCH_TRACE_PREFIX :: map Text ys)))
    (each (fun x => put t (Text x)) xs)
    (fun _ => within t l (map (pair t) (Text XDISPATCH_TRACE_PREFIX :: map Text texts))).
Proof.
  revert ys. induction xs as [|x xs IH]; intros ys E; simpl each.
  - rewrite app_nil_r in E. subst. apply triple_skip, within_stable.
  - eapply triple_bind; [apply (put_spec t l texts)|].
    + subst texts. exists (map (pair t) (map Text xs ++ [Endl])). unfold line. simpl. f_equal.
      rewrite !map_app. simpl. by rewrite <- !app_assoc.
    + intros ?. eapply triple_pre; [apply (IH (ys ++ [x])); by rewrite <- app_assoc|].
      intros s _ H. simpl in *. by rewrite !map_app.
Qed.

Lemma trace_stream_spec t l texts :
  triple protocol t (outside t l) (trace_stream t texts) (fun _ => outside t (l ++ line t texts)).
Proof.
  unfold trace_stream. eapply triple_bind; [apply trace_lock_spec|]. intros ?.
  eapply triple_bind; [apply (put_spec t l texts); by exists (map (pair t) (map Text texts ++ [Endl]))|]. intros ?.
  eapply triple_bind; [by apply (put_all_spec t l texts texts [])|]. intros ?.
  eapply triple_bind; [apply (put_spec t l texts)|].
  { exists []. rewrite app_nil_r. unfold line. simpl. by rewrite map_app. }
  intros ?. apply triple_modify; [apply within_stable|apply outside_stable|]. intros s [G1 G2] (H1 & (ls & H2 & H2') & H3).
  assert (E : map (pair t) (Text XDISPATCH_TRACE_PREFIX :: map Text texts) ++ [(t, Endl)] = line t texts).
  { unfold line. simpl. by rewrite map_app. }
  rewrite E in *. split_and!.
  - split; simpl; [done|]. exists (ls ++ [line t texts]). simpl. rewrite concat_app. simpl. rewrite !app_nil_r.
    split; [done|]. apply Forall_app. split; [done|]. constructor; [by exists t, texts|done].
  - intros u Hu. split; simpl; [rewrite H1; split; congruence|rewrite H1; congruence|done].
  - by split.
Qed.

Lemma trace_call_spec t l c :
  triple protocol t (outside t l) (run_call XDISPATCH2_TRACE t c) (fun _ => outside t (l ++ lines enabled t c)).
Proof.
  destruct c as [texts|texts]; [|apply trace_stream_spec]. simpl. unfold XDISPATCH_TRACE.
  eapply triple_bind; [apply enabled_spec|]. intros b.
  destruct (decide (b = enabled)) as [->|Hne]; [|apply triple_absurd; by intros s _ [? _]].
  set (l' := l ++ (if enabled then line t texts else [])).
  apply (triple_pre t _ (fun s => if enabled then outside t l s /\ enabled = true else outside t l' s)).
  - apply (triple_iter t _ _ (fun (e : bool) s => if e then outside t l s /\ enabled = true else outside t l' s)).
    + intros [|]; [|apply outside_stable]. intros s s' [? H] ? ? ?. split; [by eapply outside_stable|done].
    + intros _. apply outside_stable.
    + intros [|]; [|by apply triple_ret; [apply outside_stable|]].
      destruct (decide (enabled = true)) as [E|]; [|by apply triple_absurd; intros s _ [_ ?]].
      eapply triple_bind; [eapply triple_pre; [apply trace_stream_spec|by intros s _ [? _]]|].
      intros ?. apply triple_ret; [apply outside_stable|]. intros s _ H. unfold l'. by rewrite E.
  - intros s _ [_ H]. unfold l'. destruct enabled; [done|]. by rewrite app_nil_r.
Qed.

Definition printed (t : nat) (cs : list call) : list (nat * piece) := concat (map (lines enabled t) cs).
Lemma trace_script_spec t cs l :
  triple protocol t (outside t l) (each (run_call XDISPATCH2_TRACE t) cs) (fun _ => outside t (l ++ printed t cs)).
Proof.
  revert l. induction cs as [|c cs IH]; intros l; simpl each.
  - unfold printed. simpl. rewrite app_nil_r. apply triple_skip, outside_stable.
  - eapply triple_bind; [apply trace_call_spec|]. intros ?. unfold printed. simpl. rewrite app_assoc. apply IH.
Qed.

Lemma trace_sound scripts c :
  reach (start XDISPATCH2_TRACE scripts) c ->
  sound protocol (Stream None [] None) (fun t => outside t (printed t (default [] (scripts !! t)))) c.
Proof.
  intros Hr. destruct (start XDISPATCH2_TRACE scripts) as [s0 ps] eqn:E.
  assert (s0 = Stream None [] None) as -> by (by injection E).
  apply (rg_sound (W := protocol) (fun t => outside t []) _ _ ps).
  - split; [by left|]. exists []. by split.
  - by intros t.
  - intros t p Hp. assert (Hl : (start XDISPATCH2_TRACE scripts).2 !! t = Some p) by (by rewrite E). simpl in Hl.
    rewrite list_lookup_imap in Hl. destruct (scripts !! t) as [cs|]; simplify_eq/=. apply trace_script_spec.
  - done.
Qed.
End proof.

(** C37: Whatever threads write to the trace, of an environment that says [enabled]: std::cerr
    is complete lines, each of one thread, and at most one that is being written; a thread
    that has returned has written its lines in order, traces only when they are enabled,
    warnings always; and no thread waits for ever. *)
Theorem trace_lines_whole XDISPATCH2_TRACE enabled scripts c :
  ThreadUtils.is_env_enabled XDISPATCH2_TRACE = inr enabled -> reach (start XDISPATCH2_TRACE scripts) c ->
  no_fault c /\
  (exists ls texts p, cerr c.1 = concat ls ++ p /\ Forall whole ls /\
    match CS c.1 with None => p = [] | Some t => p `prefix_of` line t texts end) /\
  (forall t, thread_done c t = true -> own t (cerr c.1) = printed enabled t (default [] (scripts !! t))) /\
  ((forall t, t < length c.2 -> ~ can_move c t) -> CS c.1 = None /\ forall t, t < length c.2 -> thread_done c t = true).
Proof.
  intros Henv Hr. pose proof (trace_sound XDISPATCH2_TRACE enabled Henv scripts c Hr) as Hs.
  split_and!; [apply Hs| | |].
  - destruct (sound_inv Hs) as [_ G]. destruct (CS c.1) as [t|].
    + destruct G as (texts & p & (ls & E & Hls) & Hp). by exists ls, texts, p.
    + destruct G as (ls & E & Hls). by exists ls, [], [].
  - intros t Hd. by destruct (sound_post Hs t Hd).
  - intros Hb.
    assert (Hn : forall u, CS c.1 = Some u -> False).
    { intros u Hu. destruct (decide (u < length c.2)) as [Hlt|Hge].
      - destruct (thread_done c u) eqn:Hd; [by destruct (sound_post Hs u Hd)|].
        destruct (sound_live Hs u Hlt Hd) as [?|(v & Hv & Hne)]; [by apply (Hb u)|]. congruence.
      - apply (k_CS _ _ _ (sound_idle Hs u ltac:(lia))) in Hu. done. }
    split; [destruct (CS c.1) as [u|]; [by destruct (Hn u)|done]|]. intros t Hlt.
    destruct (thread_done c t) eqn:Hd; [done|]. destruct (sound_live Hs t Hlt Hd) as [?|(v & Hv & _)]; [by destruct (Hb t)|].
    by destruct (Hn v).
Qed.

(** Two threads, whose steps alternate. *)
Definition scripts1 : list (list call) :=
  [[Trace_ ["a"; "b"]; Warning ["c"]]; [Warning ["d"; "e"]]]%string.
Definition traced : cfg stream := play (concat (replicate 100 [(0, 0); (1, 0)])) (start (Some "1"%string) scripts1).
Lemma trace_lines_whole_witness :
  cerr traced.1 = line 1 ["d"; "e"]%string ++ line 0 ["a"; "b"]%string ++ line 0 ["c"]%string /\ no_fault traced /\
  own 0 (cerr traced.1) = line 0 ["a"; "b"]%string ++ line 0 ["c"]%string /\ CS traced.1 = None.
Proof.
  split; [vm_compute; reflexivity|].
  destruct (trace_lines_whole (Some "1"%string) true scripts1 traced) as (H1 & _ & H2 & H3).
  - vm_compute. reflexivity.
  - apply play_reach, reach_here.
  - split; [exact H1|]. split; [apply (H2 0); vm_compute; reflexivity|]. apply H3.
    intros t Ht (o & Hn & Ho). do 2 (destruct t as [|t]; [apply Ho; vm_compute; reflexivity|]).
    exfalso. revert Ht. vm_compute. lia.
Defined.
End Trace.

(** * Functions by name: symbol_utils::resolve *)
Module Symbols.

Section code.
(** Handles of modules; functions. *)
Context {handle function : Type}.

(** What the loader of the system answers: dlopen(nullptr), dlsym and dlclose, or the
    loaded modules, GetProcAddress and GetModuleHandle(nullptr).  EnumProcessModules
    answers with the number of bytes its list needs, or fails. *)
Inductive loader :=
| Dlsym (dlopen : option handle) (dlsym : handle -> string -> option function)
| GetProcAddress_ (EnumProcessModules : option (list handle)) (bytes : Z)
    (GetModuleHandle : option handle) (GetProcAddress : option handle -> string -> option function).

(** for (auto* handle : modules) *)
Fixpoint search (GetProcAddress : option handle -> string -> option function) (symbol : string)
    (modules : list (option handle)) : option function :=
  match modules with
  | [] => None
  | h :: modules =>
      match GetProcAddress h symbol with Some f => Some f | None => search GetProcAddress symbol modules end
  end.

(** The vector has an element for each byte; those behind the modules are null. *)
Definition modules_of (l : list handle) (bytes : Z) : list (option handle) :=
  map Some l ++ replicate (Z.to_nat bytes - length l) None.

Definition resolve (l : loader) (symbol : string) : option function :=
  match l with
  | Dlsym dlopen dlsym => match dlopen with Some h => dlsym h symbol | None => None end
  | GetProcAddress_ modules bytes main GetProcAddress =>
      let last := match main with Some h => GetProcAddress (Some h) symbol | None => None end in
      match modules with
      | Some l =>
          if (0 <? bytes)%Z
          then match search GetProcAddress symbol (modules_of l bytes) with Some f => Some f | None => last end
          else last
      | None => last
      end
  end.
End code.
Arguments loader : clear implicits.

Lemma search_app {H F} (g : option H -> string -> option F) symbol l1 l2 :
  search g symbol (l1 ++ l2) =
    match search g symbol l1 with Some f => Some f | None => search g symbol l2 end.
Proof. induction l1 as [|h l1 IH]; [done|]. simpl. by destruct (g h symbol). Qed.
Lemma search_null {H F} (g : option H -> string -> option F) symbol k :
  g None symbol = None -> search g symbol (replicate k None) = None.
Proof. intros E. induction k as [|k IH]; [done|]. simpl. by rewrite E. Qed.
Lemma search_Some {H F} (g : option H -> string -> option F) symbol l f :
  search g symbol l = Some f <-> exists l1 h l2, l = l1 ++ h :: l2 /\ g h symbol = Some f /\ Forall (fun h => g h symbol = None) l1.
Proof.
  split.
  - induction l as [|h l IH]; [done|]. simpl. destruct (g h symbol) as [f'|] eqn:E.
    + intros [= ->]. by exists [], h, l.
    + intros (l1 & h' & l2 & -> & ? & ?)%IH. exists (h :: l1), h', l2. split_and!; [done..|]. by constructor.
  - intros (l1 & h & l2 & -> & E & Hn). rewrite search_app. simpl. rewrite E.
    induction Hn as [|x l1 Ex _ IH]; [done|]. simpl. by rewrite Ex.
Qed.

(** On Windows, where GetProcAddress finds nothing in a null module, the elements of the
    vector that are too many do no harm: resolve() gives the function of the first loaded
    module that has one, else that of the program. *)
Theorem resolve_first {H F} (modules : list H) bytes main (g : option H -> string -> option F) symbol f :
  g None symbol = None -> (0 < bytes)%Z ->
  resolve (GetProcAddress_ (Some modules) bytes main g) symbol = Some f <->
  (exists l1 h l2, map Some modules = l1 ++ h :: l2 /\ g h symbol = Some f /\ Forall (fun h => g h symbol = None) l1) \/
  (search g symbol (map Some modules) = None /\ exists h, main = Some h /\ g (Some h) symbol = Some f).
Proof.
  intros Hg Hb. unfold resolve, modules_of. destruct (Z.ltb_spec 0 bytes); [|lia].
  rewrite search_app, search_null by done. rewrite <- search_Some.
  destruct (search g symbol (map Some modules)) as [f'|].
  - split; [by left|]. by intros [?|[? _]].
  - destruct main as [h|].
    + split; [by right; split; [|exists h]|]. by intros [?|(_ & h' & [= <-] & E)].
    + split; [done|]. by intros [?|(_ & h' & ? & _)].
Qed.
End Symbols.

(** * What threads are called *)
Module Names.
Import Backend.

Record build := Build {
  PTHREAD_SETNAME_NP : bool;
  PRCTL : bool;
  SET_THREAD_NAME : bool          (* Windows *)
}.
(** What SetThreadName() raises on Windows. *)
Record THREADNAME_INFO := Info { dwType : Z; szName : string; dwThreadID : Z; dwFlags : Z }.
Inductive name_call :=
| pthread_setname_np (name : string)
| prctl_PR_SET_NAME (name : string)
| RaiseException (code : Z) (info : THREADNAME_INFO).
Definition MS_VC_EXCEPTION : Z := 0x406D1388.
Definition kThreadNameType : Z := 0x100.
Definition SetThreadName (dwThreadID : Z) (threadName : string) : name_call :=
  RaiseException MS_VC_EXCEPTION (Info kThreadNameType threadName dwThreadID 0).

Section code.
(** trace_utils::is_debug_enabled(), IsDebuggerPresent(), GetCurrentThreadId() *)
Context (b : build) (debug debugger : bool) (GetCurrentThreadId : Z).

Definition set_current_thread_name (name : string) : list name_call :=
  (if PTHREAD_SETNAME_NP b then [pthread_setname_np name] else []) ++
  (if PRCTL b then [prctl_PR_SET_NAME name] else []) ++
  (if SET_THREAD_NAME b && (debug || debugger) then [SetThreadName GetCurrentThreadId name] else []).

(** s_bucket_labels *)
Definition s_bucket_labels (label : nat) : string :=
  match label with
  | 0 => k_label_global_INTERACTIVE
  | 1 => k_label_global_INITIATED
  | 2 => k_label_global_UTILITY
  | _ => k_label_global_BACKGROUND
  end.

(** threadpool::worker::run: [None] is the label -1; and the name its thread was given
    last. *)
Record naming := Naming { last_label : option nat; name : string }.
Definition begin : naming := Naming None "".
Definition idle (x : naming) : naming := if debug then Naming None "" else x.
Definition next_op (label : nat) (x : naming) : naming :=
  if debug && negb (bool_decide (last_label x = Some label))
  then Naming (Some label) (s_bucket_labels label) else x.

(** operation_queue::drain, when the operation is the notification of a queue. *)
Definition drain (m_label : string) (x : naming) : naming :=
  if debug then Naming (last_label x) m_label else x.

(** What a worker comes across: nothing to do, or an operation of a bucket, which may be
    the notification of a queue. *)
Inductive happening := Idle | Op (label : nat) (queue : option string).
Definition happens (h : happening) (x : naming) : naming :=
  match h with
  | Idle => idle x
  | Op label None => next_op label x
  | Op label (Some q) => drain q (next_op label x)
  end.
Definition history (l : list happening) : naming := foldl (fun x h => happens h x) begin l.
End code.

Definition plain (h : happening) : Prop := match h with Op _ (Some _) => False | _ => True end.

(** The name is that of the bucket the worker remembers. *)
Definition named (x : naming) : Prop :=
  match last_label x with Some label => name x = s_bucket_labels label | None => name x = "" end.
Lemma happens_named h x : plain h -> named x -> named (happens true h x).
Proof.
  destruct h as [|label [q|]]; [done|done|]. intros _ Hx. simpl. unfold next_op. by case_bool_decide.
Qed.
Lemma history_named l : Forall plain l -> named (history true l).
Proof.
  unfold history. assert (Hb : named begin) by done. revert Hb. generalize begin.
  induction l as [|h l IH]; intros x Hx Hl; simpl; [done|]. apply List.Forall_cons_iff in Hl as [Hh Hl].
  apply IH; [by apply happens_named|done].
Qed.

(** With debugging on, a worker that meets no queue has the name of the bucket of the
    operation it executes.  One that has drained a queue keeps the name of the queue for
    the operations of the same bucket that follow. *)
Theorem worker_names l label queue x :
  Forall plain l ->
  name (happens true (Op label None) (history true l)) = s_bucket_labels label /\
  name (happens true (Op label None) (happens true (Op label (Some queue)) x)) = queue.
Proof.
  intros Hl. pose proof (history_named l Hl) as Hn. simpl. unfold next_op, drain. split.
  - case_bool_decide as E; [|done]. simpl. unfold named in Hn. by rewrite E in Hn.
  - case_bool_decide as E; simpl; case_bool_decide; done.
Qed.
Lemma worker_names_witness :
  name (happens true (Op 2 None) (history true [Op 1 None; Idle; Op 2 None])) = k_label_global_UTILITY /\
  name (happens true (Op 2 None) (happens true (Op 2 (Some "a queue")) begin)) = "a queue".
Proof. apply (worker_names [Op 1 None; Idle; Op 2 None] 2 "a queue" begin). by repeat constructor. Defined.

(** prctl(PR_SET_NAME) keeps 15 characters: on Linux all the names of the library's own
    queues are the same. *)
Theorem names_collapse (shown : string -> string) :
  (forall name, shown name = String.substring 0 15 name) ->
  forall label, shown (s_bucket_labels label) = "de.emzeat.xdisp" /\ shown k_label_main = "de.emzeat.xdisp".
Proof. intros Hs label. rewrite !Hs. by destruct label as [|[|[|label]]]. Qed.
Lemma names_collapse_witness : String.substring 0 15 (s_bucket_labels 0) = String.substring 0 15 (s_bucket_labels 3).
Proof.
  rewrite (proj1 (names_collapse (String.substring 0 15) (fun _ => eq_refl) 0)).
  by rewrite (proj1 (names_collapse (String.substring 0 15) (fun _ => eq_refl) 3)).
Defined.

(** The debugger knows a name by the type 0x1000, as the comment on dwType says; the one that
    is raised has another. *)
Theorem wrong_name_type b debug debugger id name c :
  In c (set_current_thread_name b debug debugger id name) ->
  match c with
  | pthread_setname_np n | prctl_PR_SET_NAME n => n = name
  | RaiseException code info => code = MS_VC_EXCEPTION /\ szName info = name /\ dwThreadID info = id /\ dwType info <> 0x1000%Z
  end.
Proof.
  unfold set_current_thread_name. rewrite !in_app_iff. intros [H|[H|H]].
  - destruct (PTHREAD_SETNAME_NP b); [|done]. by destruct H as [<-|[]].
  - destruct (PRCTL b); [|done]. by destruct H as [<-|[]].
  - destruct (SET_THREAD_NAME b && (debug || debugger)); [|done]. by destruct H as [<-|[]].
Qed.
Lemma wrong_name_type_witness : dwType (Info kThreadNameType "worker" 7 0) <> 0x1000%Z.
Proof.
  apply (wrong_name_type (Build false false true) true false 7 "worker" (SetThreadName 7 "worker")). vm_compute. by left.
Defined.
End Names.
